(* ===== verification/_CoqProject ===== *)
-Q . S2P
Prelude.v
RustStd.v
StdNet.v
StdPath.v
Permissions.v
PermissionsFs.v
PermissionsNet.v
HttpHead.v
HttpHeadSpec.v
Inflate.v
InflateSpec.v
Deflate.v
DeflateSpec.v
SourceMap.v
SourceMapSpec.v
Names.v
Inet.v
Identity.v
IdentitySpec.v
Redirect.v
Fetch.v
FetchSpec.v
Decode.v
DecodeSpec.v
DecodePull.v
Pool.v
PoolSys.v
PoolInv.v
PoolSpec.v
PoolTime.v
PoolRun.v
HttpConn.v
HttpServe.v
HttpServeSpec.v
HttpServeEnds.v
HttpServeRun.v
HttpBody.v
HttpView.v
HttpRequest.v
HttpAnswers.v
HttpLedger.v
HttpBudget.v
HttpBodyOwner.v
HttpBodyFlow.v
HttpBodySpec.v
HttpBodyRun.v
Tsconfig.v
TsconfigSpec.v
Loader.v
Npm.v
NpmSpec.v
Resolver.v
ResolverSpec.v
CacheSpec.v
UnixFs.v
UnixFsSpec.v
UnixFsMove.v
UnixFsPlain.v
Install.v
InstallTree.v
InstallUnpack.v
InstallSettle.v
InstallExtract.v
InstallReach.v
InstallScripts.v
InstallSpec.v
InstallRun.v
Timers.v
TimersInv.v
TimersSpec.v
