(* ===== verification/Prelude.v ===== *)
(** * oam: a verification development

    oam is a JavaScript and TypeScript runtime in Rust: [oam_engine] embeds V8
    and exposes the ops scripts call, [oam_core] does their work (HTTP, TLS,
    zlib, sockets, processes), [oam_loader] finds, transpiles and maps modules,
    and the command line, the type checker and the test crates sit around
    them.  This library models the parts that decide something about untrusted
    input or that guard the host, and proves what they promise:

    - the sandbox: which files, hosts and names a script may reach;
    - the HTTP/1 request heads a server accepts, how long it holds a connection
      and how many, and what becomes of a request, its body and its answer;
    - the inflate and deflate streams of node:zlib;
    - the source maps a stack trace is mapped through;
    - the names in a TLS certificate, and whom they speak for;
    - the requests a fetch sends, across redirects, retries and lookup hooks,
      and the content codings of what it receives;
    - the pool of connections those requests go out on;
    - the file an import or a [require] resolves to, and its caches;
    - the packages an install puts on disk, and the scripts it runs for them;
    - the timer queue of the event loop.

    ** Files and sources

    [Prelude] and [RustStd] hold what the components share: bytes, [Result],
    machine integers, and the pieces of Rust's standard library the sources
    call (searching and splitting, UTF-8, decimal text, binary search);
    [StdNet] is [std::net]'s address parser and [StdPath] is [std::path].
    Then, sources under [src/crates/]:

    - [Permissions]: [oam_engine/src/permissions.rs], the permission set and
      its [check_*] gates, and the pinned addresses of
      [oam_core/src/net_connect.rs].  [PermissionsFs] and [PermissionsNet]
      prove its file and network matchers.
    - [HttpHead], [HttpHeadSpec]: [oam_core/src/http_head.rs].
    - [Inflate], [InflateSpec]: [oam_core/src/inflate.rs].
    - [Deflate], [DeflateSpec]: [oam_core/src/deflate.rs] and the
      [StreamCompressor] of [oam_core/src/lib.rs].
    - [SourceMap], [SourceMapSpec]: [oam_loader/src/sourcemap.rs].
    - [Names], [Inet], [Identity], [IdentitySpec]:
      [oam_core/src/tls/names.rs], and [tls.checkServerIdentity] of
      [oam_core/src/tls.rs].
    - [Redirect]: [prepare.rs] and [redirect.rs] of
      [oam_core/src/http_client/].
    - [Fetch], [FetchSpec]: the loop of [http_client/send.rs] and the body slot
      of [http_client/body.rs].
    - [Decode], [DecodeSpec], [DecodePull]: [http_client/decode.rs], and the
      error names of [oam_core/src/zstd.rs].
    - [Pool], [PoolSys]: [http_client/pool.rs], with the connection statistics
      and lookup keys of [connector.rs], the dispatch signal of [sent.rs] and
      the deferred head of [transport.rs].  [PoolInv] is what holds in every
      state, [PoolSpec] and [PoolTime] what the pool promises, [PoolRun] runs
      of it.
    - [HttpConn], [HttpServe]: [oam_core/src/http_conn.rs], and of
      [oam_core/src/http_server.rs] the accept loop, a connection's task and
      the check of its timeouts.  [HttpServeSpec] proves how long a connection
      is held, [HttpServeEnds] how it ends and is counted, [HttpServeRun] has
      runs.
    - [HttpBody]: the requests of [http_server.rs], with the pumps and
      registries of their bodies and the op of [oam_engine/src/node_ops.rs]
      that reads one.  [HttpView] and [HttpRequest] reduce a step of the server
      to one of a single request; [HttpAnswers] proves what is answered,
      [HttpLedger] and [HttpBudget] what is held, [HttpBodyOwner],
      [HttpBodyFlow] and [HttpBodySpec] what is read; [HttpBodyRun] has runs.
    - [Tsconfig], [TsconfigSpec]: the text and the patterns of
      [oam_loader/src/tsconfig.rs].
    - [Loader], [Npm], [Resolver]: [pathutil.rs], [npm.rs], [resolver.rs],
      [warnings.rs], the probing of [lib.rs] and the file-reading half of
      [tsconfig.rs], in [oam_loader/src/].  [NpmSpec] says what an exports map
      means, [ResolverSpec] what a resolution answers, and [CacheSpec] that
      the caches change nothing.
    - [UnixFs]: the calls of [std::fs] an install makes, over a tree of
      directories, files and symbolic links.  [UnixFsSpec], [UnixFsMove] and
      [UnixFsPlain] say what each call does to the tree.
    - [Install]: [install.rs] and [trust.rs] of [oam_loader/src/].
      [InstallTree] and [InstallUnpack] prove what an archive unpacks to,
      [InstallSettle] and [InstallExtract] how it takes its place,
      [InstallReach] what the names a package gives reach, [InstallScripts]
      what is fetched and run; [InstallSpec] states what an install promises
      and [InstallRun] has runs.
    - [Timers], [TimersInv], [TimersSpec]: [oam_engine/src/timers.rs].

    A model file translates a source file; its [Spec] file states what the
    translation means and proves it.  The components meet where the code's do:
    a fetch asks [Permissions.check_net_target] about every hop, builds its
    headers with [HttpHead.latin1_header_value], and [Deflate]'s round trip
    runs [Inflate]'s automaton, as a gzip response body does; the pool retires
    a connection by the redirect rules of [Redirect]; a [paths] pattern and an
    exports pattern are chosen by one rule, [Tsconfig.best_pattern]; an install
    leaves the tree whose manifests the loader reads.

    ** How the code is modelled

    A byte is [byte]; a Rust [String] is its UTF-8 bytes.  An integer is a [Z]
    with its wrap-around written out ([wrap_u], [wrap_i64]) where the release
    build's arithmetic can wrap.  A [Result] is [result] and [?] its bind; a
    mutated structure is passed and returned; a panic is a value the theorems
    exclude.  Other crates are type classes or arguments: [Miniz],
    [MinizDeflate] and [Checksums] (miniz_oxide, flate2), [Brotli] and [Zstd]
    (brotli_decompressor, zstd_safe), [UrlOps] and
    [HeaderOps] (url, http, base64), [PoolOps] (http's URIs, hyper's errors),
    the parsers of httparse, serde_json and
    x509_parser.  What the proofs assume of them is a class of laws or a named
    hypothesis, each with a concrete instance in a witness.  They ask no more
    than the crates document, and only of the states the code brings them to: a
    compressor is called as zlib lets it be ([Deflate.fed], [Deflate.finishing],
    [Deflate.callable]), a deflate decoder that is done is not run again
    ([DecodePull.unfinished]), and of [url] only the clearing of a user and a
    password is used ([Redirect.UrlLaws]).  The current
    directory, the process-wide settings, the clock and what the network
    answers are arguments; the file system the loader reads is the record
    [Loader.Fs], and its caches are the state of a monad.  An install runs over
    [UnixFs.Os], the tree with a list that says of each call to come whether it
    does its work or fails, or whether the process is gone from there on; what
    it sends and the scripts it runs are kept in the log of [Install.World],
    which the answers may depend on.  Archives, hashes, base64, serde and the
    shell are the classes [Tarballs], [Digests], [TrustSerde], [LockSerde],
    [Loader.Serde] and [Outside].  The tasks that share
    a pool are machines whose states are their awaits and locks;
    [PoolSys.sys_step] lets one of them, or the world, take one step, so a run
    is any interleaving.  In the same way [HttpServe.serve_step] is one step of
    a server: of a connection's task, hyper, JS, the check or the clock; and
    [HttpBody.http_step] of a request: its handler between two awaits or lock
    sections, its body's pump, a read of the body, or JS's own thread.

    Loops over input are structural or carry fuel: [length l] where every turn
    consumes a byte (UTF-8, DER, chunks), the bit length of a number for its
    digits, in [Inflate.step_loop] a bound that C6 proves sufficient, and in
    [Deflate.deflate_loop] fuel of which C8 proves that enough exists; [DecodePull.push_fuel] bounds the turns of a
    chain of decoders (C25).  A walk up the directories is a list,
    [StdPath.ancestors], complete because a parent is shorter; an [extends]
    chain has the code's own depth; a free timer id is found within one more
    turn than there are live timers (C22), and a pending gate opens within
    three (C23); a checkout takes four steps and three more for each idle
    connection (C29).  A path is walked through at most forty links, the
    kernel's own limit, and [UnixFs.remove_dir_all] goes as deep as the tree has
    places ([UnixFsMove.remove_within_eff]).

    ** What is proved

    - C1-C2, the sandbox: a path is granted exactly when an entry covers what
      it resolves to, no [..] escapes entries without [*], and the two network
      matchers are one on the hosts of URLs and on addresses with a zone.
    - C3-C4, request heads: the one-pass scan accepts exactly the heads of a
      declarative specification, an accepted head has, in strict mode, one
      framing, has the target that was validated, and fits the parser.
    - C5-C7, inflate: the history window is exact, a step is total, the
      header automata accept exactly RFC 1952 and RFC 1950, trailers are
      checked.
    - C8-C9, deflate: the stream's shape under any calls, that it is complete,
      and that inflate reads every wrapper back.
    - C10, source maps: the round trip of the mappings, and that lookups refine
      the last map recorded.
    - C11-C13, certificates: the DER round trip, printed names that cannot be
      forged, and exactly which certificates a host accepts.
    - C14-C17, fetch: how many requests it sends and that a stream goes out
      once, whose credentials they carry, to which hosts and URLs, and its
      headers.
    - C18-C21, module resolution: cached answers are uncached ones, an exports
      map means what its specification says, every answer is a builtin or a
      file and every failure has a documented code, and JSONC is filtered down
      to JSON.
    - C22-C23, timers: the queue's invariant, with one slot for each live timer
      as long as no stale slot is met again, and what holds the loop open, that
      a pop is the earliest callback there is to run and a turn ends with
      nothing due left.
    - C24-C25, response bodies: a fetch gunzips exactly as node:zlib does, and
      a chain of lawful decoders always answers, within its output cap.
    - C26-C29, the pool: a connection is in one place and serves one origin, a
      request goes out at most twice and reaches the wire once, what is reused
      is alive and old enough, [has_idle] says what a checkout would find, and
      the reaper keeps its time.
    - C30-C32, a server's connections: none is held past its timeouts by a
      request that was seen to begin, every such request is checked, one that is
      to close is closed that way, all are counted, and those announced are
      reported.
    - C33-C35, a server's requests: the reads of a body give the body, the
      bytes of all bodies stay within the budget and none of it leaks, and a
      request is answered once.
    - C36-C40, installation: an archive changes only its package and the
      temporary directory, whatever fails; a package is replaced whole; what the names a package gives
      reach, and where they reach too far; which scripts run; and that every
      package is accounted for ([InstallScripts.tally]).

    ** What is not modelled

    The matchers and path rules of a Windows build; the stream a fetch's
    response body is read through and its registries of parked and cancellable
    fetches; the dialling of a connection; a server's streamed responses, its
    https and HTTP/2 connections; sockets, processes and file watching; V8 and
    its bindings, the event loop around the timer queue among them;
    transpilation, and the pass of an install that does it ahead of time; the
    Windows shims of a command; the TypeScript daemon; the command line.
    These drive the system, V8 or another crate and decide little of their own,
    or, as a server's response streams, the Windows matchers, and the replay
    log and code cache of the engine, were not reached. *)

From Stdlib Require Export ZArith Lia.
From Stdlib Require Strings.Byte.
From stdpp Require Export prelude list gmap strings.

Export (notations) Corelib.Init.Byte.
Export Stdlib.Strings.Byte.ByteNotations.
Export Corelib.Init.Byte(byte(..)).

#[export] Set Default Goal Selector "!".

(** ** Bytes

    A Rust [u8] is [byte]; [b2z] reads it as an integer and [z2b] is the
    truncating cast [as u8]. *)

#[global] Instance byte_eq_dec : EqDecision byte := Byte.byte_eq_dec.

Definition b2z (b : byte) : Z := Z.of_N (Byte.to_N b).

Definition z2b (z : Z) : byte :=
  match Byte.of_N (Z.to_N (z `mod` 256)) with
  | Some b => b
  | None => x00
  end.

Lemma b2z_range (b : byte) : (0 ≤ b2z b < 256)%Z.
Proof. unfold b2z. pose proof (Byte.to_N_bounded b). lia. Qed.

Lemma z2b_b2z (b : byte) : z2b (b2z b) = b.
Proof.
  unfold z2b. rewrite Z.mod_small by apply b2z_range.
  unfold b2z. rewrite N2Z.id, Byte.of_to_N. done.
Qed.

Lemma b2z_z2b (z : Z) : b2z (z2b z) = (z `mod` 256)%Z.
Proof.
  unfold z2b. pose proof (Z.mod_pos_bound z 256 ltac:(lia)) as Hb.
  destruct (Byte.of_N (Z.to_N (z `mod` 256))) as [b|] eqn:E.
  - apply Byte.to_of_N in E. unfold b2z. rewrite E, Z2N.id; lia.
  - apply Byte.of_N_None_iff in E. lia.
Qed.

Lemma b2z_inj (a b : byte) : b2z a = b2z b → a = b.
Proof. intros H. rewrite <-(z2b_b2z a), <-(z2b_b2z b). by f_equal. Qed.

#[global] Instance b2z_injective : Inj (=) (=) b2z := b2z_inj.

(** [all_bytes P] decides a property of every byte by running it on the 256
    of them; [byte_sweep] closes such a goal. *)

Definition all_bytes_list : list byte := z2b <$> (Z.of_nat <$> seq 0 256).

Definition all_bytes (p : byte → bool) : bool := forallb p all_bytes_list.

Lemma all_bytes_elem (b : byte) : b ∈ all_bytes_list.
Proof.
  unfold all_bytes_list. apply list_elem_of_fmap.
  exists (b2z b). split; [by rewrite z2b_b2z|].
  apply list_elem_of_fmap. pose proof (b2z_range b).
  exists (Z.to_nat (b2z b)). split; [lia|]. apply elem_of_seq. lia.
Qed.

Lemma all_bytes_spec (p : byte → bool) (b : byte) :
  all_bytes p = true → p b = true.
Proof.
  unfold all_bytes. rewrite forallb_forall. intros H. apply H.
  apply list_elem_of_In, all_bytes_elem.
Qed.

(** ** Results

    Rust's [Result<A, E>], with [?] as monadic bind (stdpp's [x ← e; k]). *)

Inductive result (E A : Type) : Type :=
| Ok (a : A)
| Err (e : E).
Arguments Ok {E A} a.
Arguments Err {E A} e.

#[global] Instance result_ret {E} : MRet (result E) := λ A a, Ok a.
#[global] Instance result_bind {E} : MBind (result E) := λ A B k m,
  match m with
  | Ok a => k a
  | Err e => Err e
  end.
#[global] Instance result_fmap {E} : FMap (result E) := λ A B g m,
  match m with
  | Ok a => Ok (g a)
  | Err e => Err e
  end.

#[global] Instance result_eq_dec {E A} `{EqDecision E, EqDecision A} :
  EqDecision (result E A).
Proof. solve_decision. Defined.

Definition is_ok {E A} (r : result E A) : bool :=
  match r with
  | Ok _ => true
  | Err _ => false
  end.

(** [Option::ok_or] and [Result::ok]. *)

Definition ok_or {E A} (o : option A) (e : E) : result E A :=
  match o with
  | Some a => Ok a
  | None => Err e
  end.

Definition ok {E A} (r : result E A) : option A :=
  match r with
  | Ok a => Some a
  | Err _ => None
  end.

Lemma bind_Ok {E A B} (m : result E A) (k : A → result E B) (b : B) :
  (m ≫= k) = Ok b ↔ ∃ a, m = Ok a ∧ k a = Ok b.
Proof.
  destruct m; cbn; split; [eauto| |discriminate|]; intros (? & ? & ?); congruence.
Qed.

Lemma bind_Err {E A B} (m : result E A) (k : A → result E B) (e : E) :
  (m ≫= k) = Err e ↔ m = Err e ∨ ∃ a, m = Ok a ∧ k a = Err e.
Proof.
  destruct m; cbn; split; [eauto| |intros; simplify_eq; eauto|];
    intros [?|(? & ? & ?)]; congruence.
Qed.

(** ** Automation *)

Create HintDb oam discriminated.

#[export] Hint Resolve b2z_range : oam.

(** Case analysis on the innermost [match] or [if] of the goal, or of a
    hypothesis, keeping the equation. *)

Ltac split_goal_match :=
  match goal with
  | |- context [match ?x with _ => _ end] =>
      lazymatch x with
      | context [match _ with _ => _ end] => fail
      | _ => destruct x eqn:?
      end
  end.

Ltac split_hyp_match H :=
  match type of H with
  | context [match ?x with _ => _ end] =>
      lazymatch x with
      | context [match _ with _ => _ end] => fail
      | _ => destruct x eqn:?
      end
  end.

(** Boolean connectives and comparisons in the context, as propositions. *)

Ltac bools :=
  repeat match goal with
  | H : _ && _ = true |- _ => apply andb_true_iff in H; destruct H
  | H : _ || _ = false |- _ => apply orb_false_iff in H; destruct H
  | H : negb _ = true |- _ => apply negb_true_iff in H
  | H : negb _ = false |- _ => apply negb_false_iff in H
  | H : bool_decide _ = true |- _ => apply bool_decide_eq_true in H
  | H : bool_decide _ = false |- _ => apply bool_decide_eq_false in H
  | H : (_ =? _)%Z = true |- _ => apply Z.eqb_eq in H
  | H : (_ =? _)%Z = false |- _ => apply Z.eqb_neq in H
  | H : (_ <? _)%Z = true |- _ => apply Z.ltb_lt in H
  | H : (_ <? _)%Z = false |- _ => apply Z.ltb_ge in H
  | H : (_ <=? _)%Z = true |- _ => apply Z.leb_le in H
  | H : (_ <=? _)%Z = false |- _ => apply Z.leb_gt in H
  end.

(** A property of one byte, by running it on all of them. *)

Ltac byte_sweep b :=
  match goal with
  | |- ?p = true =>
      let q := eval pattern b in p in
      match q with ?f b => apply (all_bytes_spec f b); vm_compute; reflexivity end
  end.

(** ** Machine integers *)

Definition u16_max : Z := 65535.
Definition u32_max : Z := 4294967295.
Definition u64_max : Z := 18446744073709551615.

(** Wrapping to a width: the value a release build keeps. *)

Definition wrap_u (w : Z) (z : Z) : Z := (z `mod` 2 ^ w)%Z.

Definition wrap_i64 (z : Z) : Z := ((z + 2 ^ 63) `mod` 2 ^ 64 - 2 ^ 63)%Z.

Definition i64_range (z : Z) : Prop := (- 2 ^ 63 ≤ z < 2 ^ 63)%Z.

Lemma wrap_i64_id (z : Z) : i64_range z → wrap_i64 z = z.
Proof. unfold i64_range, wrap_i64. intros H. rewrite Z.mod_small; lia. Qed.

Lemma wrap_i64_range (z : Z) : i64_range (wrap_i64 z).
Proof.
  unfold i64_range, wrap_i64.
  pose proof (Z.mod_pos_bound (z + 2 ^ 63) (2 ^ 64) ltac:(lia)). lia.
Qed.

(** Big- and little-endian integers over bytes ([from_be_bytes],
    [from_le_bytes], [to_be_bytes], [to_le_bytes]). *)

Fixpoint from_le_bytes (bs : list byte) : Z :=
  match bs with
  | [] => 0
  | b :: t => b2z b + 256 * from_le_bytes t
  end.

Definition from_be_bytes (bs : list byte) : Z := from_le_bytes (reverse bs).

Fixpoint to_le_bytes (n : nat) (z : Z) : list byte :=
  match n with
  | O => []
  | S n => z2b z :: to_le_bytes n (z `div` 256)
  end.

Definition to_be_bytes (n : nat) (z : Z) : list byte := reverse (to_le_bytes n z).

Lemma length_to_le_bytes n z : length (to_le_bytes n z) = n.
Proof. revert z. induction n; intros; simpl; auto. Qed.

Lemma length_to_be_bytes n z : length (to_be_bytes n z) = n.
Proof. unfold to_be_bytes. by rewrite length_reverse, length_to_le_bytes. Qed.

Lemma from_to_le_bytes n z :
  (0 ≤ z < 256 ^ Z.of_nat n)%Z → from_le_bytes (to_le_bytes n z) = z.
Proof.
  revert z. induction n as [|n IH]; intros z Hz.
  - simpl in *. lia.
  - rewrite Nat2Z.inj_succ, Z.pow_succ_r in Hz by lia.
    cbn [to_le_bytes from_le_bytes]. rewrite b2z_z2b, IH.
    + pose proof (Z.div_mod z 256 ltac:(lia)). lia.
    + split; [apply Z.div_pos; lia|]. apply Z.div_lt_upper_bound; lia.
Qed.

Lemma from_to_be_bytes n z :
  (0 ≤ z < 256 ^ Z.of_nat n)%Z → from_be_bytes (to_be_bytes n z) = z.
Proof.
  intros. unfold from_be_bytes, to_be_bytes.
  rewrite reverse_involutive. by apply from_to_le_bytes.
Qed.

Lemma from_le_bytes_range bs :
  (0 ≤ from_le_bytes bs < 256 ^ Z.of_nat (length bs))%Z.
Proof.
  induction bs as [|b t IH]; [simpl; lia|].
  cbn [from_le_bytes length]. rewrite Nat2Z.inj_succ, Z.pow_succ_r by lia.
  pose proof (b2z_range b). lia.
Qed.

Lemma to_from_le_bytes bs : to_le_bytes (length bs) (from_le_bytes bs) = bs.
Proof.
  induction bs as [|b t IH]; [done|]. cbn [length from_le_bytes to_le_bytes].
  pose proof (b2z_range b). f_equal.
  - apply b2z_inj. rewrite b2z_z2b, Z.mul_comm, Z_mod_plus_full, Z.mod_small; lia.
  - rewrite Z.mul_comm, Z.div_add, Z.div_small by lia. exact IH.
Qed.

Lemma from_le_bytes_eq bs z :
  (0 ≤ z < 256 ^ Z.of_nat (length bs))%Z →
  from_le_bytes bs = z ↔ bs = to_le_bytes (length bs) z.
Proof.
  intros Hz. split; [intros <-; by rewrite to_from_le_bytes|].
  intros E. rewrite E at 1. by apply from_to_le_bytes.
Qed.

Lemma from_be_bytes_eq bs z :
  (0 ≤ z < 256 ^ Z.of_nat (length bs))%Z →
  from_be_bytes bs = z ↔ bs = to_be_bytes (length bs) z.
Proof.
  intros Hz. unfold from_be_bytes, to_be_bytes.
  rewrite from_le_bytes_eq by (by rewrite length_reverse).
  rewrite length_reverse. split; intros E; [rewrite <-E|rewrite E at 1]; by rewrite reverse_involutive.
Qed.
