(* ===== verification/RustStd.v ===== *)
(** * RustStd: the parts of Rust's standard library the components use

    A Rust [&[u8]], [&str], [String] or [Vec<u8>] is a [list byte]: a string
    is its UTF-8 bytes, and since every separator the code splits on is
    ASCII, splitting bytes is splitting characters.  This file holds the
    slice and [str] operations ([split], [split_once], [position],
    [strip_prefix], ...), the ASCII classes, integer parsing and printing, and
    the UTF-8 reader behind [str::from_utf8] and [String::from_utf8_lossy],
    with the lemmas the components share. *)

From stdpp Require Export sorting.
From S2P Require Import Prelude.

(** String literals. *)

Definition bs (s : string) : list byte := String.list_byte_of_string s.

(** ** ASCII classes *)

Definition is_ascii_digit (b : byte) : bool :=
  (48 <=? b2z b)%Z && (b2z b <=? 57)%Z.

Definition is_ascii_uppercase (b : byte) : bool :=
  (65 <=? b2z b)%Z && (b2z b <=? 90)%Z.

Definition is_ascii_lowercase (b : byte) : bool :=
  (97 <=? b2z b)%Z && (b2z b <=? 122)%Z.

Definition is_ascii_alphabetic (b : byte) : bool :=
  is_ascii_uppercase b || is_ascii_lowercase b.

Definition is_ascii_alphanumeric (b : byte) : bool :=
  is_ascii_alphabetic b || is_ascii_digit b.

Definition is_ascii (b : byte) : bool := (b2z b <? 128)%Z.

Definition to_ascii_lowercase (b : byte) : byte :=
  if is_ascii_uppercase b then z2b (b2z b + 32) else b.

Definition lowercase (l : list byte) : list byte := to_ascii_lowercase <$> l.

Definition eq_ignore_ascii_case (a b : list byte) : bool :=
  bool_decide (lowercase a = lowercase b).

(** ** Searching *)

Definition contains (l : list byte) (b : byte) : bool := bool_decide (b ∈ l).

(** [iter().position(p)], [iter().rposition(p)]. *)

Fixpoint position {A} (p : A → bool) (l : list A) : option nat :=
  match l with
  | [] => None
  | x :: t => if p x then Some 0 else S <$> position p t
  end.

Fixpoint rposition {A} (p : A → bool) (l : list A) : option nat :=
  match l with
  | [] => None
  | x :: t =>
      match rposition p t with
      | Some n => Some (S n)
      | None => if p x then Some 0 else None
      end
  end.

Definition find_byte (b : byte) (l : list byte) : option nat :=
  position (λ x, bool_decide (x = b)) l.

Definition rfind_byte (b : byte) (l : list byte) : option nat :=
  rposition (λ x, bool_decide (x = b)) l.

(** [s.strip_prefix(p)], [s.starts_with(p)] and their suffix versions. *)

Fixpoint strip_pre {A} `{EqDecision A} (p l : list A) : option (list A) :=
  match p, l with
  | [], _ => Some l
  | x :: p, y :: l => if decide (x = y) then strip_pre p l else None
  | _ :: _, [] => None
  end.

Definition starts_with {A} `{EqDecision A} (l p : list A) : bool :=
  match strip_pre p l with
  | Some _ => true
  | None => false
  end.

Definition strip_suf {A} `{EqDecision A} (p l : list A) : option (list A) :=
  reverse <$> strip_pre (reverse p) (reverse l).

Definition ends_with {A} `{EqDecision A} (l p : list A) : bool :=
  match strip_suf p l with
  | Some _ => true
  | None => false
  end.

(** ** Splitting and joining *)

(** [s.split(sep)]: always at least one piece. *)

Fixpoint split_on (sep : byte) (l : list byte) : list (list byte) :=
  match l with
  | [] => [[]]
  | b :: t =>
      if decide (b = sep) then [] :: split_on sep t
      else match split_on sep t with
           | p :: ps => (b :: p) :: ps
           | [] => [[b]]
           end
  end.

(** [s.split_once(sep)] and [s.rsplit_once(sep)]. *)

Definition split_once (sep : byte) (l : list byte) : option (list byte * list byte) :=
  n ← find_byte sep l; Some (take n l, drop (S n) l).

Definition rsplit_once (sep : byte) (l : list byte) : option (list byte * list byte) :=
  n ← rfind_byte sep l; Some (take n l, drop (S n) l).

(** [pieces.join(sep)]. *)

Fixpoint join (sep : list byte) (ps : list (list byte)) : list byte :=
  match ps with
  | [] => []
  | [p] => p
  | p :: ps => p ++ sep ++ join sep ps
  end.

(** [l.split_inclusive(|b| b == sep)]: each piece keeps its terminator, and
    there is no empty last piece. *)

Fixpoint split_inclusive (sep : byte) (l : list byte) : list (list byte) :=
  match l with
  | [] => []
  | b :: t =>
      if decide (b = sep) then [b] :: split_inclusive sep t
      else match split_inclusive sep t with
           | p :: ps => (b :: p) :: ps
           | [] => [[b]]
           end
  end.

(** ** Unicode white space

    [str::trim_start] on UTF-8 text: the bytes of one leading [White_Space]
    character, if there is one, and all of them. *)

Definition leading_ws (l : list byte) : option (list byte) :=
  match l with
  | (x09 | x0a | x0b | x0c | x0d | x20) :: t => Some t
  | xc2 :: (x85 | xa0) :: t => Some t
  | xe1 :: x9a :: x80 :: t => Some t
  | xe2 :: x80 :: c :: t =>
      if ((128 <=? b2z c)%Z && (b2z c <=? 138)%Z) || bool_decide (c ∈ [xa8; xa9; xaf]) then Some t else None
  | xe2 :: x81 :: x9f :: t => Some t
  | xe3 :: x80 :: x80 :: t => Some t
  | _ => None
  end.

Fixpoint trim_ws (fuel : nat) (l : list byte) : list byte :=
  match fuel with
  | O => l
  | S fuel => match leading_ws l with Some t => trim_ws fuel t | None => l end
  end.

Definition trim_start (l : list byte) : list byte := trim_ws (length l) l.

(** ** UTF-8

    One step of the reader ([Utf8Chunks]) on a non-empty input: the number of
    bytes of the character at its front, or of the malformed sequence there
    (the longest prefix of a character that the next byte breaks). *)

Inductive Utf8Step : Type :=
| Valid (n : nat)
| Invalid (n : nat).

Definition in_range (lo hi : Z) (b : byte) : bool := (lo <=? b2z b)%Z && (b2z b <=? hi)%Z.

Definition is_cont (b : byte) : bool := in_range 128 191 b.

(** The second byte of a three- or four-byte character, by its first. *)

Definition second_ok (b c : byte) : bool :=
  match b with
  | xe0 => in_range 160 191 c
  | xed => in_range 128 159 c
  | xf0 => in_range 144 191 c
  | xf4 => in_range 128 143 c
  | _ => is_cont c
  end.

Definition utf8_step (b : byte) (t : list byte) : Utf8Step :=
  if (b2z b <? 128)%Z then Valid 1
  else if in_range 194 223 b then
    match t with
    | c :: _ => if is_cont c then Valid 2 else Invalid 1
    | [] => Invalid 1
    end
  else if in_range 224 239 b then
    match t with
    | c :: t =>
        if second_ok b c then
          match t with
          | d :: _ => if is_cont d then Valid 3 else Invalid 2
          | [] => Invalid 2
          end
        else Invalid 1
    | [] => Invalid 1
    end
  else if in_range 240 244 b then
    match t with
    | c :: t =>
        if second_ok b c then
          match t with
          | d :: t =>
              if is_cont d then
                match t with
                | e :: _ => if is_cont e then Valid 4 else Invalid 3
                | [] => Invalid 3
                end
              else Invalid 2
          | [] => Invalid 2
          end
        else Invalid 1
    | [] => Invalid 1
    end
  else Invalid 1.

Definition REPLACEMENT : list byte := [xef; xbf; xbd].

(** [String::from_utf8_lossy] and [str::from_utf8(..).is_ok()], with fuel for
    one step per byte. *)

Fixpoint lossy (fuel : nat) (l : list byte) : list byte :=
  match fuel, l with
  | S fuel, b :: t =>
      match utf8_step b t with
      | Valid n => take n l ++ lossy fuel (drop n l)
      | Invalid n => REPLACEMENT ++ lossy fuel (drop n l)
      end
  | _, _ => []
  end.

Definition from_utf8_lossy (l : list byte) : list byte := lossy (length l) l.

Fixpoint utf8_valid (fuel : nat) (l : list byte) : bool :=
  match fuel, l with
  | S fuel, b :: t =>
      match utf8_step b t with
      | Valid n => utf8_valid fuel (drop n l)
      | Invalid _ => false
      end
  | _, _ => true
  end.

Definition from_utf8 (l : list byte) : option (list byte) :=
  if utf8_valid (length l) l then Some l else None.

(** ** Integers as text *)

Definition digit_value (b : byte) : Z := (b2z b - 48)%Z.

(** The value of a string of decimal digits. *)

Definition dec_value (l : list byte) : Z :=
  fold_left (λ acc b, acc * 10 + digit_value b)%Z l 0%Z.

(** [s.parse::<uN>()] for an unsigned type with maximum [max]: an optional
    [+], then at least one digit, with a value that fits. *)

Definition parse_uint (max : Z) (l : list byte) : option Z :=
  let digits := match l with "+"%byte :: t => t | _ => l end in
  if bool_decide (digits ≠ []) && forallb is_ascii_digit digits
     && (dec_value digits <=? max)%Z
  then Some (dec_value digits) else None.

(** The digits of [z] in [base], most significant first ([fuel] digits at
    most). *)

Fixpoint to_digits (fuel : nat) (base z : Z) (acc : list Z) : list Z :=
  match fuel with
  | O => acc
  | S fuel =>
      let acc := (z `mod` base)%Z :: acc in
      if decide (z < base)%Z then acc else to_digits fuel base (z `div` base) acc
  end.

Definition digit_char (upper : bool) (d : Z) : byte :=
  if decide (d < 10)%Z then z2b (48 + d)
  else z2b ((if upper then 55 else 87) + d).

(** [format!("{z}")], [{z:x}], [{z:X}] for an unsigned [z]; the fuel is one
    digit per bit. *)

Definition in_base (upper : bool) (base z : Z) : list byte :=
  digit_char upper <$> to_digits (S (Z.to_nat (Z.log2 z))) base z [].

Definition dec_text (z : Z) : list byte := in_base false 10 z.
Definition hex_text (z : Z) : list byte := in_base false 16 z.
Definition HEX_text (z : Z) : list byte := in_base true 16 z.

(** [{z:0nx}] and [{z:0nX}]: left-padded with zeros to [n] characters. *)

Definition pad_left (n : nat) (c : byte) (l : list byte) : list byte :=
  replicate (n - length l) c ++ l.

(** ** Binary search

    The loop of [slice::binary_search_by], where [p x] says that [x] does not
    compare greater than the key, with [partition_point] and [binary_search]
    over it. *)

Fixpoint bisect {A} (p : A → bool) (l : list A) (fuel size base : nat) : nat :=
  match fuel with
  | O => base
  | S fuel =>
      if decide (1 < size) then
        let half := size / 2 in
        let mid := base + half in
        let base := match l !! mid with
                    | Some x => if p x then mid else base
                    | None => base
                    end in
        bisect p l fuel (size - half) base
      else base
  end.

Definition partition_point {A} (p : A → bool) (l : list A) : nat :=
  if decide (l = []) then 0
  else
    let base := bisect p l (length l) (length l) 0 in
    match l !! base with
    | Some x => if p x then S base else base
    | None => base
    end.

(** [slice::binary_search(&key).is_ok()]. *)

Definition binary_search_ok (l : list Z) (key : Z) : bool :=
  if decide (l = []) then false
  else bool_decide (l !! bisect (λ x, x <=? key)%Z l (length l) (length l) 0 = Some key).

Example dec_text_255 : dec_text 255 = bs "255". Proof. reflexivity. Qed.
Example hex_text_2c : pad_left 4 "0"%byte (hex_text 44) = bs "002c". Proof. reflexivity. Qed.
Example parse_u16 : parse_uint u16_max (bs "65536") = None. Proof. reflexivity. Qed.
Example split_on_ex : split_on "/"%byte (bs "/a//b") = [[]; bs "a"; []; bs "b"].
Proof. reflexivity. Qed.
Example split_inclusive_ex : split_inclusive "/"%byte (bs "a/b/") = [bs "a/"; bs "b/"].
Proof. reflexivity. Qed.

(** ** Lemmas: prefixes and suffixes *)

Section Strip.
Context {A : Type} `{EqDecision A}.
Implicit Types p l r : list A.

Lemma strip_pre_Some p l r : strip_pre p l = Some r ↔ l = p ++ r.
Proof.
  revert l. induction p as [|x p IH]; intros l; simpl.
  { split; congruence. }
  destruct l as [|y l]; [split; discriminate|].
  case_decide as E.
  - subst. rewrite IH. split; [by intros ->|]. intros H; by simplify_eq.
  - split; [discriminate|]. intros H; simplify_eq.
Qed.

Lemma strip_pre_app p r : strip_pre p (p ++ r) = Some r.
Proof. by apply strip_pre_Some. Qed.

Lemma starts_with_prefix l p : starts_with l p = true ↔ p `prefix_of` l.
Proof.
  unfold starts_with, prefix. destruct (strip_pre p l) as [r|] eqn:E.
  - apply strip_pre_Some in E. split; eauto.
  - split; [discriminate|]. intros [r ->]. by rewrite strip_pre_app in E.
Qed.

Lemma starts_with_nil l : starts_with l [] = true.
Proof. done. Qed.

Lemma strip_suf_Some p l r : strip_suf p l = Some r ↔ l = r ++ p.
Proof.
  unfold strip_suf. rewrite fmap_Some. setoid_rewrite strip_pre_Some. split.
  - intros (x & E & ->). rewrite <-(reverse_involutive l), E.
    by rewrite reverse_app, reverse_involutive.
  - intros ->. exists (reverse r). by rewrite reverse_app, reverse_involutive.
Qed.

Lemma strip_suf_app p r : strip_suf p (r ++ p) = Some r.
Proof. by apply strip_suf_Some. Qed.

Lemma ends_with_suffix l p : ends_with l p = true ↔ p `suffix_of` l.
Proof.
  unfold ends_with, suffix. destruct (strip_suf p l) as [r|] eqn:E.
  - apply strip_suf_Some in E. split; eauto.
  - split; [discriminate|]. intros [r ->]. by rewrite strip_suf_app in E.
Qed.
End Strip.

(** ** Lemmas: positions *)

Section Position.
Context {A : Type}.
Implicit Types p : A → bool.

Lemma position_Some p l n :
  position p l = Some n ↔
  ∃ x, l !! n = Some x ∧ p x = true ∧ Forall (λ y, p y = false) (take n l).
Proof.
  revert n. induction l as [|a l IH]; intros n; simpl.
  { split; [discriminate|]. intros (x & E & _). discriminate. }
  destruct (p a) eqn:Ea.
  - split; [intros [= <-]; eexists; eauto using Forall_nil|].
    intros (x & E & Hx & F). destruct n as [|n]; [done|].
    simpl in F. apply Forall_cons in F as [F _]. congruence.
  - destruct n as [|n]; simpl.
    + split; [destruct (position p l); discriminate|].
      intros (x & [= <-] & Hx & _). congruence.
    + setoid_rewrite Forall_cons.
      destruct (position p l) as [m|] eqn:E; simpl.
      * split.
        -- intros [= <-]. destruct (proj1 (IH m) eq_refl) as (x & ? & ? & ?).
           exists x. eauto.
        -- intros (x & ? & ? & ? & ?). f_equal. f_equal.
           enough (Some m = Some n) by congruence. apply IH. eauto.
      * split; [discriminate|]. intros (x & ? & ? & ? & ?).
        enough (None = Some n) by done. apply IH. eauto.
Qed.

Lemma position_None p l : position p l = None ↔ Forall (λ y, p y = false) l.
Proof.
  induction l as [|a l IH]; simpl.
  { split; auto. }
  rewrite Forall_cons, <-IH. destruct (p a) eqn:Ea.
  - split; [discriminate|]. intros [? _]; congruence.
  - destruct (position p l); simpl; split; try discriminate; intuition discriminate.
Qed.

(** Where the first hit is, as a split of the list. *)

Lemma position_split p l n :
  position p l = Some n ↔
  ∃ pre x post, l = pre ++ x :: post ∧ length pre = n ∧ p x = true
                ∧ Forall (λ y, p y = false) pre.
Proof.
  rewrite position_Some. split.
  - intros (x & E & Hx & F). exists (take n l), x, (drop (S n) l).
    split_and!; [by rewrite take_drop_middle| |done|done].
    apply lookup_lt_Some in E. rewrite length_take. lia.
  - intros (pre & x & post & -> & <- & Hx & F). exists x.
    rewrite list_lookup_middle, take_app_length; auto.
Qed.

Lemma rposition_None p l : rposition p l = None ↔ Forall (λ y, p y = false) l.
Proof.
  induction l as [|a l IH]; simpl; [split; auto|].
  rewrite Forall_cons, <-IH. destruct (rposition p l), (p a);
    split; try discriminate; intuition discriminate.
Qed.

Lemma rposition_split p l n :
  rposition p l = Some n ↔
  ∃ pre x post, l = pre ++ x :: post ∧ length pre = n ∧ p x = true
                ∧ Forall (λ y, p y = false) post.
Proof.
  revert n. induction l as [|a l IH]; intros n; simpl.
  { split; [discriminate|]. by intros ([] & ? & ? & ? & _). }
  destruct (rposition p l) as [m|] eqn:E.
  - split.
    + intros [= <-]. destruct (proj1 (IH m) eq_refl) as (pre & x & post & -> & <- & ? & ?).
      exists (a :: pre), x, post. eauto.
    + intros (pre & x & post & E' & <- & Hx & F).
      destruct pre as [|a' pre]; simplify_eq/=.
      * apply rposition_None in F. congruence.
      * enough (Some m = Some (length pre)) by congruence. apply IH. eauto 10.
  - apply rposition_None in E. destruct (p a) eqn:Ea.
    + split; [intros [= <-]; exists [], a, l; auto|].
      intros (pre & x & post & E' & <- & Hx & F).
      destruct pre as [|a' pre]; simplify_eq/=; [done|].
      apply Forall_app in E as [_ E]. apply Forall_cons in E as [E _]. congruence.
    + split; [discriminate|]. intros (pre & x & post & E' & <- & Hx & F).
      destruct pre as [|a' pre]; simplify_eq/=; [congruence|].
      apply Forall_app in E as [_ E]. apply Forall_cons in E as [E _]. congruence.
Qed.
End Position.

(** ** Lemmas: splitting and joining *)

Lemma find_byte_split b l n :
  find_byte b l = Some n ↔ ∃ pre post, l = pre ++ b :: post ∧ length pre = n ∧ b ∉ pre.
Proof.
  unfold find_byte. rewrite position_split. split.
  - intros (pre & x & post & -> & <- & Hx & F). bools. subst x.
    exists pre, post. split_and!; auto. intros Hin.
    rewrite Forall_forall in F. specialize (F _ Hin). by bools.
  - intros (pre & post & -> & <- & Hb). exists pre, b, post.
    split_and!; auto; [by apply bool_decide_eq_true|].
    apply Forall_forall. intros x Hx. apply bool_decide_eq_false. by intros ->.
Qed.

Lemma find_byte_None b l : find_byte b l = None ↔ b ∉ l.
Proof.
  unfold find_byte. rewrite position_None, Forall_forall. split.
  - intros F Hin. specialize (F _ Hin). by bools.
  - intros Hb x Hx. apply bool_decide_eq_false. by intros ->.
Qed.

Lemma rfind_byte_split b l n :
  rfind_byte b l = Some n ↔ ∃ pre post, l = pre ++ b :: post ∧ length pre = n ∧ b ∉ post.
Proof.
  unfold rfind_byte. rewrite rposition_split. split.
  - intros (pre & x & post & -> & <- & Hx & F). bools. subst x.
    exists pre, post. split_and!; auto. intros Hin.
    rewrite Forall_forall in F. specialize (F _ Hin). by bools.
  - intros (pre & post & -> & <- & Hb). exists pre, b, post.
    split_and!; auto; [by apply bool_decide_eq_true|].
    apply Forall_forall. intros x Hx. apply bool_decide_eq_false. by intros ->.
Qed.

Lemma rfind_byte_None b l : rfind_byte b l = None ↔ b ∉ l.
Proof.
  unfold rfind_byte. rewrite rposition_None, Forall_forall. split.
  - intros F Hin. specialize (F _ Hin). by bools.
  - intros Hb x Hx. apply bool_decide_eq_false. by intros ->.
Qed.

Lemma split_once_Some sep l a b :
  split_once sep l = Some (a, b) ↔ l = a ++ sep :: b ∧ sep ∉ a.
Proof.
  unfold split_once. rewrite bind_Some. setoid_rewrite find_byte_split. split.
  - intros (n & (pre & post & -> & <- & H) & E). simplify_eq.
    rewrite take_app_length, drop_app_ge by lia.
    by replace (S (length pre) - length pre) with 1 by lia.
  - intros [-> H]. exists (length a). split; [eauto|].
    rewrite take_app_length, drop_app_ge by lia.
    by replace (S (length a) - length a) with 1 by lia.
Qed.

Lemma rsplit_once_Some sep l a b :
  rsplit_once sep l = Some (a, b) ↔ l = a ++ sep :: b ∧ sep ∉ b.
Proof.
  unfold rsplit_once. rewrite bind_Some. setoid_rewrite rfind_byte_split. split.
  - intros (n & (pre & post & -> & <- & H) & E). simplify_eq.
    rewrite take_app_length, drop_app_ge by lia.
    by replace (S (length pre) - length pre) with 1 by lia.
  - intros [-> H]. exists (length a). split; [eauto|].
    rewrite take_app_length, drop_app_ge by lia.
    by replace (S (length a) - length a) with 1 by lia.
Qed.

Lemma split_once_None sep l : split_once sep l = None ↔ sep ∉ l.
Proof.
  unfold split_once. rewrite bind_None, <-find_byte_None. split; [|auto].
  intros [?|(? & ? & ?)]; done.
Qed.

Lemma rsplit_once_None sep l : rsplit_once sep l = None ↔ sep ∉ l.
Proof.
  unfold rsplit_once. rewrite bind_None, <-rfind_byte_None. split; [|auto].
  intros [?|(? & ? & ?)]; done.
Qed.

Lemma split_on_ne sep l : split_on sep l ≠ [].
Proof.
  destruct l as [|b t]; simpl; [done|]. case_decide; [done|].
  by destruct (split_on sep t).
Qed.

Lemma split_on_app_sep sep p l :
  sep ∉ p → split_on sep (p ++ sep :: l) = p :: split_on sep l.
Proof.
  induction p as [|b p IH]; simpl; intros H.
  - by rewrite decide_True by done.
  - rewrite not_elem_of_cons in H. destruct H as [Hb H].
    rewrite decide_False by congruence. by rewrite IH.
Qed.

Lemma split_on_none sep l : sep ∉ l → split_on sep l = [l].
Proof.
  induction l as [|b l IH]; simpl; intros H; [done|].
  rewrite not_elem_of_cons in H. destruct H as [Hb H].
  rewrite decide_False by congruence. by rewrite IH.
Qed.

Lemma split_on_pieces sep l : Forall (λ p, sep ∉ p) (split_on sep l).
Proof.
  induction l as [|b l IH]; simpl.
  - constructor; [apply not_elem_of_nil|constructor].
  - case_decide as E; [constructor; [apply not_elem_of_nil|done]|].
    destruct (split_on sep l) as [|p ps]; inversion_clear IH as [|?? Hp Hps];
      (constructor; [apply not_elem_of_cons|]); auto using not_elem_of_nil.
Qed.

Lemma join_cons sep p ps : ps ≠ [] → join sep (p :: ps) = p ++ sep ++ join sep ps.
Proof. by destruct ps. Qed.

Lemma join_split sep l : join [sep] (split_on sep l) = l.
Proof.
  induction l as [|b l IH]; [done|]. cbn [split_on]. case_decide as E.
  - subst. rewrite join_cons by apply split_on_ne. by rewrite IH.
  - destruct (split_on sep l) as [|p ps] eqn:Es; [by destruct (split_on_ne sep l)|].
    destruct ps as [|q ps]; cbn in *; congruence.
Qed.

Lemma split_join sep ps :
  ps ≠ [] → Forall (λ p, sep ∉ p) ps → split_on sep (join [sep] ps) = ps.
Proof.
  induction ps as [|p ps IH]; [done|]. intros _ HF. inversion_clear HF as [|?? Hp Hps].
  destruct ps as [|q ps]; [by apply split_on_none|].
  rewrite join_cons by done. cbn [app]. rewrite split_on_app_sep by done.
  f_equal. by apply IH.
Qed.

Lemma elem_of_join b sep ps :
  b ∈ join sep ps → b ∈ sep ∨ ∃ p, p ∈ ps ∧ b ∈ p.
Proof.
  induction ps as [|p ps IH]; [by intros ?%elem_of_nil|].
  destruct ps as [|q ps].
  - simpl. intros H. right. exists p. split; [left|done].
  - rewrite join_cons by done. rewrite !elem_of_app.
    intros [H|[H|H]]; [|auto|].
    + right. exists p. split; [left|done].
    + destruct (IH H) as [?|(r & Hr & ?)]; [auto|]. right. exists r. split; [by right|done].
Qed.

Lemma split_inclusive_concat sep l : concat (split_inclusive sep l) = l.
Proof.
  induction l as [|b l IH]; [done|]. cbn [split_inclusive]. case_decide.
  - cbn. by rewrite IH.
  - destruct (split_inclusive sep l) as [|p ps]; cbn in *; congruence.
Qed.

(** ** Lemmas: integers as text *)

Definition digits_value (base : Z) (ds : list Z) : Z :=
  fold_left (λ acc d, acc * base + d)%Z ds 0%Z.

Lemma digits_value_app base ds es acc :
  fold_left (λ acc d, acc * base + d)%Z (ds ++ es) acc =
  fold_left (λ acc d, acc * base + d)%Z es (fold_left (λ acc d, acc * base + d)%Z ds acc).
Proof. apply fold_left_app. Qed.

Lemma to_digits_app fuel base z acc :
  to_digits fuel base z acc = to_digits fuel base z [] ++ acc.
Proof.
  revert z acc. induction fuel as [|fuel IH]; intros z acc; [done|]. cbn [to_digits].
  case_decide; [done|]. rewrite (IH _ (_ :: acc)), (IH _ [_]).
  by rewrite <-app_assoc.
Qed.

Lemma log2_div_base base z :
  (2 ≤ base)%Z → (base ≤ z)%Z → (Z.log2 (z `div` base) < Z.log2 z)%Z.
Proof.
  intros Hb Hz.
  assert (0 < z `div` base)%Z by (apply Z.div_str_pos; lia).
  assert (z `div` base ≤ z `div` 2)%Z by (apply Z.div_le_compat_l; lia).
  assert (Z.log2 (z `div` base) ≤ Z.log2 (z `div` 2))%Z by (apply Z.log2_le_mono; lia).
  enough (Z.log2 (z `div` 2) < Z.log2 z)%Z by lia.
  rewrite <-Z.div2_div, Z.div2_spec, Z.log2_shiftr by lia.
  pose proof (Z.log2_pos z ltac:(lia)). lia.
Qed.

Lemma to_digits_spec fuel base z :
  (2 ≤ base)%Z → (0 ≤ z)%Z → Z.to_nat (Z.log2 z) < fuel →
  let ds := to_digits fuel base z [] in
  digits_value base ds = z ∧ Forall (λ d, 0 ≤ d < base)%Z ds ∧
  ∃ d ds', ds = d :: ds' ∧ (d = 0%Z → ds' = []).
Proof.
  intros Hb. revert z. induction fuel as [|fuel IH]; intros z Hz Hf; [lia|].
  cbn [to_digits]. pose proof (Z.mod_pos_bound z base ltac:(lia)) as Hm.
  case_decide as Hlt.
  - rewrite Z.mod_small by lia. cbn. split_and!; [lia|repeat constructor; lia|].
    exists z, []. done.
  - assert (0 ≤ z `div` base)%Z by (apply Z.div_pos; lia).
    pose proof (log2_div_base base z Hb ltac:(lia)).
    pose proof (Z.log2_nonneg (z `div` base)).
    destruct (IH (z `div` base)%Z ltac:(lia) ltac:(lia)) as (Hv & HF & d & ds' & E & Hd).
    rewrite to_digits_app. split_and!.
    + unfold digits_value in *. rewrite fold_left_app, Hv. cbn.
      pose proof (Z.div_mod z base ltac:(lia)). lia.
    + apply Forall_app. split; [done|]. repeat constructor; lia.
    + rewrite E. exists d, (ds' ++ [(z `mod` base)%Z]). split; [done|].
      intros ->. specialize (Hd eq_refl). subst ds'. rewrite E in Hv.
      cbn in Hv. assert (0 < z `div` base)%Z by (apply Z.div_str_pos; lia). lia.
Qed.

Lemma to_digits_fuel fuel fuel' base z :
  (2 ≤ base)%Z → (0 ≤ z)%Z → Z.to_nat (Z.log2 z) < fuel → Z.to_nat (Z.log2 z) < fuel' →
  to_digits fuel base z [] = to_digits fuel' base z [].
Proof.
  intros Hb. revert fuel' z. induction fuel as [|fuel IH]; intros [|fuel'] z Hz H H'; try lia.
  cbn [to_digits]. case_decide; [done|].
  rewrite (to_digits_app fuel), (to_digits_app fuel'). f_equal.
  pose proof (log2_div_base base z Hb ltac:(lia)).
  pose proof (Z.log2_nonneg (z `div` base)).
  apply IH; [apply Z.div_pos|..]; lia.
Qed.

Lemma in_base_snoc upper base z d :
  (2 ≤ base)%Z → (0 < z)%Z → (0 ≤ d < base)%Z →
  in_base upper base (z * base + d) = in_base upper base z ++ [digit_char upper d].
Proof.
  intros Hb Hz Hd. unfold in_base at 1. cbn [to_digits].
  rewrite decide_False by nia. rewrite to_digits_app, fmap_app.
  rewrite Z.div_add_l, Z.div_small, Z.add_0_r by lia.
  rewrite Z.add_comm, Z.mod_add, Z.mod_small by lia. f_equal.
  unfold in_base. f_equal. apply to_digits_fuel; try lia.
  pose proof (log2_div_base base (d + z * base) Hb ltac:(nia)) as H.
  rewrite Z.div_add, Z.div_small, Z.add_0_l in H by lia.
  pose proof (Z.log2_nonneg z). lia.
Qed.

Lemma in_base_small upper base z :
  (0 ≤ z < base)%Z → in_base upper base z = [digit_char upper z].
Proof.
  intros. unfold in_base. cbn [to_digits]. rewrite decide_True by lia.
  by rewrite Z.mod_small by lia.
Qed.

Lemma in_base_ne upper base z : in_base upper base z ≠ [].
Proof.
  unfold in_base. cbn [to_digits]. case_decide; [done|].
  rewrite to_digits_app, fmap_app. intros E. by apply app_eq_nil in E as [_ ?].
Qed.

Lemma digit_char_dec d : (0 ≤ d < 10)%Z →
  is_ascii_digit (digit_char false d) = true ∧ digit_value (digit_char false d) = d.
Proof.
  intros H. unfold digit_char, is_ascii_digit, digit_value.
  rewrite decide_True by lia. rewrite b2z_z2b, Z.mod_small by lia. lia.
Qed.

Lemma dec_value_app l l' :
  dec_value (l ++ l') = fold_left (λ acc b, acc * 10 + digit_value b)%Z l' (dec_value l).
Proof. apply fold_left_app. Qed.

Lemma dec_value_snoc l b : dec_value (l ++ [b]) = (dec_value l * 10 + digit_value b)%Z.
Proof. apply dec_value_app. Qed.

Lemma dec_value_digits ds :
  Forall (λ d, 0 ≤ d < 10)%Z ds →
  dec_value (digit_char false <$> ds) = digits_value 10 ds.
Proof.
  induction ds as [|d ds IH] using rev_ind; [done|]. intros [H Hd]%Forall_app.
  apply Forall_cons in Hd as [Hd _].
  rewrite fmap_app. cbn. rewrite dec_value_snoc, IH by done.
  unfold digits_value. rewrite fold_left_app. cbn.
  by rewrite (proj2 (digit_char_dec d Hd)).
Qed.

(** Printing a natural number gives its digits, with no leading zero. *)

Lemma dec_text_spec z : (0 ≤ z)%Z →
  dec_value (dec_text z) = z ∧ forallb is_ascii_digit (dec_text z) = true ∧ dec_text z ≠ [].
Proof.
  intros Hz.
  destruct (to_digits_spec (S (Z.to_nat (Z.log2 z))) 10 z ltac:(lia) Hz ltac:(lia))
    as (Hv & HF & _).
  unfold dec_text. split_and!; [|..|apply in_base_ne].
  - unfold in_base. by rewrite dec_value_digits.
  - unfold in_base. apply forallb_forall. intros b Hb.
    apply list_elem_of_In, list_elem_of_fmap in Hb as (d & -> & Hd).
    rewrite Forall_forall in HF. by apply digit_char_dec, HF.
Qed.

Lemma is_ascii_digit_char b : is_ascii_digit b = true → digit_char false (digit_value b) = b.
Proof.
  unfold is_ascii_digit, digit_char, digit_value. intros H. bools.
  rewrite decide_True by lia. replace (48 + (b2z b - 48))%Z with (b2z b) by lia.
  apply z2b_b2z.
Qed.

Lemma is_ascii_digit_value b : is_ascii_digit b = true → (0 ≤ digit_value b < 10)%Z.
Proof. unfold is_ascii_digit, digit_value. intros H. bools. lia. Qed.

Lemma dec_value_nonneg l : forallb is_ascii_digit l = true → (0 ≤ dec_value l)%Z.
Proof.
  induction l as [|b l IH] using rev_ind; [done|].
  rewrite forallb_app, dec_value_snoc. cbn. intros H. bools.
  pose proof (is_ascii_digit_value b ltac:(done)). specialize (IH ltac:(done)). lia.
Qed.

Lemma dec_value_pos d l :
  is_ascii_digit d = true → d ≠ "0"%byte → forallb is_ascii_digit l = true →
  (0 < dec_value (d :: l))%Z.
Proof.
  intros Hd Hne. induction l as [|b l IH] using rev_ind; intros Hl.
  - cbn. pose proof (is_ascii_digit_value d Hd).
    enough (digit_value d ≠ 0)%Z by lia. intros E. apply Hne.
    rewrite <-(is_ascii_digit_char d Hd), E. done.
  - rewrite app_comm_cons, dec_value_snoc. rewrite forallb_app in Hl. cbn in Hl. bools.
    pose proof (is_ascii_digit_value b ltac:(done)). specialize (IH ltac:(done)). lia.
Qed.

(** A canonical numeral (no leading zero) is what printing its value gives. *)

Lemma dec_text_dec_value d l :
  forallb is_ascii_digit (d :: l) = true → d ≠ "0"%byte ∨ l = [] →
  dec_text (dec_value (d :: l)) = d :: l.
Proof.
  intros H Hc. cbn [forallb] in H. apply andb_true_iff in H as [Hd Hl].
  assert (Hone : dec_text (digit_value d) = [d]).
  { unfold dec_text. rewrite in_base_small by by apply is_ascii_digit_value.
    by rewrite is_ascii_digit_char. }
  destruct Hc as [Hc| ->]; [|done].
  induction l as [|b l IH] using rev_ind; [done|].
  rewrite forallb_app in Hl. cbn in Hl. apply andb_true_iff in Hl as [Hl Hb].
  apply andb_true_iff in Hb as [Hb _].
  rewrite app_comm_cons, dec_value_snoc. unfold dec_text in *.
  rewrite in_base_snoc, IH, is_ascii_digit_char; auto; [lia|by apply dec_value_pos|].
  by apply is_ascii_digit_value.
Qed.

Lemma dec_text_inj a b : (0 ≤ a)%Z → (0 ≤ b)%Z → dec_text a = dec_text b → a = b.
Proof.
  intros Ha Hb E. destruct (dec_text_spec a Ha) as [Hva _], (dec_text_spec b Hb) as [Hvb _].
  congruence.
Qed.

Lemma dec_text_head z : (0 < z)%Z → ∃ d l, dec_text z = d :: l ∧ d ≠ "0"%byte.
Proof.
  intros Hz.
  destruct (to_digits_spec (S (Z.to_nat (Z.log2 z))) 10 z ltac:(lia) ltac:(lia) ltac:(lia))
    as (Hv & HF & d & ds & E & Hd).
  unfold dec_text, in_base. rewrite E in *. apply Forall_cons in HF as [Hr HF].
  eexists _, _. split; [done|]. intros E0.
  pose proof (proj2 (digit_char_dec d Hr)) as Hdv. rewrite E0 in Hdv.
  change (digit_value "0"%byte) with 0%Z in Hdv. subst d. rewrite Hd in Hv by done.
  cbn in Hv. lia.
Qed.

Lemma parse_uint_dec_text max z : (0 ≤ z ≤ max)%Z → parse_uint max (dec_text z) = Some z.
Proof.
  intros Hz. destruct (dec_text_spec z ltac:(lia)) as (Hv & Hd & Hne).
  destruct (dec_text z) as [|d l] eqn:E; [done|].
  assert (Hplus : d ≠ "+"%byte). { intros ->. by cbn in Hd. }
  assert (Hm : (match d :: l with "+"%byte :: t => t | _ => d :: l end) = d :: l)
    by (by destruct d).
  unfold parse_uint. rewrite Hm, Hv, Hd, bool_decide_eq_true_2 by done.
  by rewrite (proj2 (Z.leb_le z max)) by lia.
Qed.

Lemma parse_uint_digits max l :
  forallb is_ascii_digit l = true →
  parse_uint max l = if bool_decide (l ≠ []) && (dec_value l <=? max)%Z
                     then Some (dec_value l) else None.
Proof.
  intros H. destruct l as [|d l]; [done|].
  assert (Hm : (match d :: l with "+"%byte :: t => t | _ => d :: l end) = d :: l).
  { assert (d ≠ "+"%byte) by (intros ->; by cbn in H). by destruct d. }
  unfold parse_uint. rewrite Hm, H. by rewrite bool_decide_eq_true_2.
Qed.

(** ** Lemmas: UTF-8 *)

(** What a step says about the bytes it covers: at least one and at most
    what there is; a malformed sequence holds no ASCII. *)

Lemma is_cont_not_ascii b : is_cont b = true → is_ascii b = false.
Proof. unfold is_cont, in_range, is_ascii. intros H. bools. apply Z.ltb_ge. lia. Qed.

Lemma second_ok_not_ascii b c : second_ok b c = true → is_ascii c = false.
Proof.
  intros H. enough (128 ≤ b2z c)%Z by (apply Z.ltb_ge; lia).
  assert (Hr : ∀ lo hi, (128 ≤ lo)%Z → in_range lo hi c = true → (128 ≤ b2z c)%Z).
  { intros lo hi Hlo E. unfold in_range in E. bools. lia. }
  destruct b; eapply Hr; try exact H; lia.
Qed.

Lemma utf8_step_spec b t :
  match utf8_step b t with
  | Valid n => 1 ≤ n ≤ S (length t)
  | Invalid n => 1 ≤ n ≤ S (length t) ∧ Forall (λ c, is_ascii c = false) (take n (b :: t))
  end.
Proof.
  assert (Hb : (b2z b <? 128)%Z = false → is_ascii b = false) by done.
  unfold utf8_step.
  repeat case_match; simplify_eq; cbn [length take]; try lia;
    (split; [lia|]); repeat constructor;
    eauto using is_cont_not_ascii, second_ok_not_ascii.
Qed.

Lemma lossy_ascii_elem fuel l b :
  length l ≤ fuel → is_ascii b = true → b ∈ lossy fuel l ↔ b ∈ l.
Proof.
  intros Hf Hb. revert l Hf. induction fuel as [|fuel IH]; intros [|c t] Hf; cbn in Hf; try lia.
  { done. }
  { done. }
  cbn [lossy]. pose proof (utf8_step_spec c t) as Hs.
  assert (Hcut : ∀ n, b ∈ c :: t ↔ b ∈ take n (c :: t) ∨ b ∈ drop n (c :: t)).
  { intros n. by rewrite <-elem_of_app, take_drop. }
  destruct (utf8_step c t) as [n|n]; rewrite elem_of_app, (Hcut n), IH.
  - done.
  - rewrite length_drop. cbn. lia.
  - destruct Hs as [_ HF]. rewrite Forall_forall in HF. split; (intros [H|H]; [|by right]).
    + exfalso. revert H Hb. unfold REPLACEMENT. rewrite !elem_of_cons, elem_of_nil.
      intros [->|[->|[->|[]]]]; done.
    + apply HF in H. congruence.
  - rewrite length_drop. cbn. lia.
Qed.

(** Decoding keeps the ASCII bytes, and makes none. *)

Lemma from_utf8_lossy_ascii_elem l b :
  is_ascii b = true → b ∈ from_utf8_lossy l ↔ b ∈ l.
Proof. by apply lossy_ascii_elem. Qed.

Lemma from_utf8_lossy_ascii_app p l :
  forallb is_ascii p = true → from_utf8_lossy (p ++ l) = p ++ from_utf8_lossy l.
Proof.
  unfold from_utf8_lossy. induction p as [|b p IH]; [done|].
  cbn [forallb app length lossy]. intros H. bools.
  assert (utf8_step b (p ++ l) = Valid 1) as ->.
  { unfold utf8_step. by replace (b2z b <? 128)%Z with true. }
  cbn [take drop app]. by rewrite <-IH.
Qed.

Lemma from_utf8_lossy_ascii l : forallb is_ascii l = true → from_utf8_lossy l = l.
Proof.
  intros H. rewrite <-(app_nil_r l) at 1. rewrite from_utf8_lossy_ascii_app by done.
  apply app_nil_r.
Qed.

(** ** Binary search *)

Section Bisect.
Context {A : Type} (p : A → bool) (a b : list A).
Hypothesis Ha : Forall (λ x, p x = true) a.
Hypothesis Hb : Forall (λ x, p x = false) b.

Lemma partitioned_lookup i x : (a ++ b) !! i = Some x → p x = bool_decide (i < length a).
Proof.
  intros Hi. destruct (decide (i < length a)) as [Hlt|Hge].
  - rewrite bool_decide_true by done. rewrite lookup_app_l in Hi by done.
    rewrite Forall_lookup in Ha. eauto.
  - rewrite bool_decide_false by done. rewrite lookup_app_r in Hi by lia.
    rewrite Forall_lookup in Hb. eauto.
Qed.

Lemma bisect_spec fuel size base :
  1 ≤ size ≤ S fuel → base + size ≤ length (a ++ b) → (base = 0 ∨ base < length a) →
  length a ≤ base + size →
  let r := bisect p (a ++ b) fuel size base in
  r < length (a ++ b) ∧ (r = 0 ∨ r < length a) ∧ length a ≤ S r.
Proof.
  revert size base. induction fuel as [|fuel IH]; intros size base Hs Hl Hbase Hup.
  { cbn. replace size with 1 in * by lia. lia. }
  cbn [bisect]. destruct (decide (1 < size)) as [Hgt|Hle]; [|cbn; lia].
  assert (1 ≤ size / 2 ∧ size / 2 + size / 2 ≤ size) as [Hh Hh2].
  { pose proof (Nat.div_mod_eq size 2). pose proof (Nat.mod_upper_bound size 2).
    split; [apply Nat.div_le_lower_bound|]; lia. }
  destruct ((a ++ b) !! (base + size / 2)) as [x|] eqn:Ex.
  2:{ apply lookup_ge_None in Ex. lia. }
  rewrite (partitioned_lookup _ _ Ex). case_bool_decide; apply IH; lia.
Qed.

Lemma partition_point_spec : partition_point p (a ++ b) = length a.
Proof.
  unfold partition_point. destruct (decide (a ++ b = [])) as [E|Hne].
  { apply app_eq_nil in E as [-> ->]. done. }
  assert (1 ≤ length (a ++ b)) by (destruct (a ++ b); cbn; [done|lia]).
  destruct (bisect_spec (length (a ++ b)) (length (a ++ b)) 0) as (Hr & Hlo & Hhi);
    [lia|lia|by left|rewrite length_app; lia|].
  set (r := bisect _ _ _ _ _) in *. clearbody r.
  destruct ((a ++ b) !! r) as [x|] eqn:Ex; [|apply lookup_ge_None in Ex; lia].
  rewrite (partitioned_lookup _ _ Ex). case_bool_decide; lia.
Qed.
End Bisect.

(** On a sorted list the search finds exactly the members. *)

Lemma sorted_partition (l : list Z) key :
  StronglySorted Z.le l →
  ∃ a b, l = a ++ b ∧ Forall (λ x, (x <=? key)%Z = true) a ∧ Forall (λ x, (x <=? key)%Z = false) b ∧
         StronglySorted Z.le a.
Proof.
  induction 1 as [|x l Hs (a & b & -> & Ha & Hb & Hsa) Hall]; [by exists [], []; repeat constructor|].
  apply Forall_app in Hall as [Hxa Hxb].
  destruct (x <=? key)%Z eqn:Ex.
  - exists (x :: a), b. split_and!; [done|by constructor|done|by constructor].
  - exists [], (x :: a ++ b). split_and!; [done|constructor| |constructor]. constructor; [done|].
    apply Forall_app. split; [|done]. eapply Forall_impl; [exact Hxa|]. cbn. intros y Hy. bools.
    apply Z.leb_gt. lia.
Qed.

Lemma binary_search_ok_spec (l : list Z) key :
  StronglySorted Z.le l → binary_search_ok l key = true ↔ key ∈ l.
Proof.
  intros Hs. destruct (sorted_partition l key Hs) as (a & b & -> & Ha & Hb & Hsa).
  unfold binary_search_ok. destruct (decide (a ++ b = [])) as [E|Hne].
  { rewrite E. split; [done|by intros ?%not_elem_of_nil]. }
  assert (1 ≤ length (a ++ b)) by (destruct (a ++ b); cbn; [done|lia]).
  destruct (bisect_spec _ _ _ Ha Hb (length (a ++ b)) (length (a ++ b)) 0) as (Hr & Hlo & Hhi);
    [lia|lia|by left|rewrite length_app; lia|].
  set (r := bisect _ _ _ _ _) in *. clearbody r. rewrite bool_decide_eq_true. split.
  { intros Hl. by apply list_elem_of_lookup_2 in Hl. }
  rewrite elem_of_app. intros [Hin|Hin].
  2:{ rewrite Forall_forall in Hb. apply Hb in Hin. bools. lia. }
  destruct a as [|x a _] using rev_ind; [by apply not_elem_of_nil in Hin|].
  rewrite length_app in *. cbn [length] in *. assert (r = length a) as -> by lia.
  rewrite lookup_app_l by (rewrite length_app; cbn; lia).
  rewrite list_lookup_middle by done. f_equal.
  pose proof (λ y Hy, StronglySorted_app_1_elem_of Z.le a [x] y x Hsa Hy ltac:(left)) as Hle. apply Forall_app in Ha as [_ Hx].
  apply Forall_cons in Hx as [Hx _]. bools. rewrite elem_of_app, list_elem_of_singleton in Hin.
  destruct Hin as [Hin| ->]; [|done]. specialize (Hle key Hin). lia.
Qed.
