(* ===== verification/StdNet.v ===== *)
(** * StdNet: [core::net]'s address parser, and oam's pinned addresses

    [Ipv4Addr::from_str] and [Ipv6Addr::from_str] as the standard library's
    parser reads them (at most three decimal digits and no leading zero per
    IPv4 octet, at most four hex digits per IPv6 group, an IPv4 tail where two
    groups are left, one [::]), and on top of them [PinAddr::from_str] of
    [oam_core/src/net_connect.rs].  An IPv6 address is its eight 16-bit
    groups. *)

From S2P Require Import Prelude RustStd.

(** [char::to_digit(radix)] for an ASCII byte. *)

Definition to_digit (radix : Z) (b : byte) : option Z :=
  let c := b2z b in
  let d := if is_ascii_digit b then Some (c - 48)%Z
           else if is_ascii_lowercase b then Some (c - 87)%Z
           else if is_ascii_uppercase b then Some (c - 55)%Z
           else None in
  match d with
  | Some v => if decide (v < radix)%Z then Some v else None
  | None => None
  end.

(** ** The parser: each reader returns the value and the rest of the input *)

Definition reader (A : Type) : Type := list byte → option (A * list byte).

Definition read_given_char (c : byte) : reader unit := λ l,
  match l with
  | x :: t => if decide (x = c) then Some (tt, t) else None
  | [] => None
  end.

(** [read_separator(sep, index, inner)]: the separator before every item but
    the first. *)

Definition read_separator {A} (sep : byte) (index : nat) (inner : reader A) : reader A := λ l,
  if decide (index = 0) then inner l
  else '(_, l) ← read_given_char sep l; inner l.

(** The digit loop of [read_number]: it stops at the first byte that is not a
    digit, and fails once [room] digits are used up or the value passes
    [max]. *)

Fixpoint read_digits (radix max : Z) (room : nat) (acc : Z) (count : nat) (l : list byte)
  : option (Z * nat * list byte) :=
  match l with
  | b :: t =>
      match to_digit radix b with
      | Some d =>
          match room with
          | O => None
          | S room =>
              let acc := (acc * radix + d)%Z in
              if decide (max < acc)%Z then None
              else read_digits radix max room acc (S count) t
          end
      | None => Some (acc, count, l)
      end
  | [] => Some (acc, count, [])
  end.

Definition read_number (radix max : Z) (max_digits : nat) (allow_zero_prefix : bool)
  : reader Z := λ l,
  let has_leading_zero := match l with "0"%byte :: _ => true | _ => false end in
  match read_digits radix max max_digits 0 0 l with
  | Some (v, count, rest) =>
      if bool_decide (count = 0) then None
      else if negb allow_zero_prefix && has_leading_zero && (1 <? Z.of_nat count)%Z then None
      else Some (v, rest)
  | None => None
  end.

Definition read_octet (i : nat) : reader Z :=
  read_separator "."%byte i (read_number 10 255 3 false).

Definition read_ipv4_addr : reader (list Z) := λ l,
  '(a, l) ← read_octet 0 l;
  '(b, l) ← read_octet 1 l;
  '(c, l) ← read_octet 2 l;
  '(d, l) ← read_octet 3 l;
  Some ([a; b; c; d], l).

(** [read_groups]: groups of up to four hex digits, from index [i] while
    [room] slots remain, with a trailing IPv4 address where two are left. The
    result is the groups read, whether an IPv4 tail ended them, and the rest of
    the input. *)

Fixpoint read_groups (room : nat) (i : nat) (l : list byte) : list Z * bool * list byte :=
  match room with
  | O => ([], false, l)
  | S room' =>
      let v4 := if decide (1 < room)
                then read_separator ":"%byte i read_ipv4_addr l else None in
      match v4 with
      | Some ([a; b; c; d], rest) => ([a * 256 + b; c * 256 + d]%Z, true, rest)
      | _ =>
          match read_separator ":"%byte i (read_number 16 65535 4 true) l with
          | Some (g, rest) =>
              let '(gs, v4, rest) := read_groups room' (S i) rest in (g :: gs, v4, rest)
          | None => ([], false, l)
          end
      end
  end.

Definition read_ipv6_addr : reader (list Z) := λ l,
  let '(head, head_ipv4, l) := read_groups 8 0 l in
  if decide (length head = 8) then Some (head, l)
  else if (head_ipv4 : bool) then None
  else
    '(_, l) ← read_given_char ":"%byte l;
    '(_, l) ← read_given_char ":"%byte l;
    let limit := 8 - (length head + 1) in
    let '(tail, _, l) := read_groups limit 0 l in
    Some (head ++ replicate (8 - length head - length tail) 0%Z ++ tail, l).

(** [parse_with]: the whole input must be read. *)

Definition parse_all {A} (r : reader A) (l : list byte) : option A :=
  match r l with
  | Some (a, []) => Some a
  | _ => None
  end.

(** [Ipv4Addr::from_str] refuses an input longer than any address first. *)

Definition parse_ipv4 (l : list byte) : option (list Z) :=
  if decide (15 < length l) then None else parse_all read_ipv4_addr l.

Definition parse_ipv6 (l : list byte) : option (list Z) := parse_all read_ipv6_addr l.

(** [IpAddr]. *)

Inductive IpAddr : Type :=
| V4 (octets : list Z)
| V6 (groups : list Z).

#[global] Instance IpAddr_eq_dec : EqDecision IpAddr.
Proof. solve_decision. Defined.

(** [IpAddr::from_str]: the IPv4 reader first. *)

Definition parse_ip (l : list byte) : option IpAddr :=
  match parse_all read_ipv4_addr l with
  | Some a => Some (V4 a)
  | None => V6 <$> parse_all read_ipv6_addr l
  end.

(** ** [PinAddr] *)

Record PinAddr : Type := { pin_ip : IpAddr; pin_zone : option (list byte) }.

Definition zone_byte_ok (b : byte) : bool :=
  is_ascii_alphanumeric b || bool_decide (b ∈ bs "-.:").

Definition PinAddr_from_str (text : list byte) : option PinAddr :=
  match split_once "%"%byte text with
  | None => a ← parse_ip text; Some {| pin_ip := a; pin_zone := None |}
  | Some (address, zone) =>
      a ← parse_ipv6 address;
      if negb (bool_decide (zone = [])) && forallb zone_byte_ok zone
      then Some {| pin_ip := V6 a; pin_zone := Some zone |}
      else None
  end.

Example ipv6_1 : parse_ipv6 (bs "::1") = Some [0;0;0;0;0;0;0;1]%Z. Proof. reflexivity. Qed.
Example ipv6_2 : parse_ipv6 (bs "fe80:0:0:0:0:0:0:1") = parse_ipv6 (bs "fe80::1").
Proof. reflexivity. Qed.
Example ipv6_3 : parse_ipv6 (bs "::ffff:127.0.0.1") = Some [0;0;0;0;0;65535;32512;1]%Z.
Proof. reflexivity. Qed.
Example ipv6_4 : parse_ipv6 (bs "1:2:3:4:5:6:7::") = Some [1;2;3;4;5;6;7;0]%Z. Proof. reflexivity. Qed.
Example ipv6_5 : parse_ipv6 (bs "1:2:3:4:5:6:7:8:9") = None. Proof. reflexivity. Qed.
Example ipv6_6 : parse_ipv6 (bs "::12345") = None. Proof. reflexivity. Qed.
Example ipv4_1 : parse_ip (bs "127.0.0.1") = Some (V4 [127;0;0;1]%Z). Proof. reflexivity. Qed.
Example ipv4_2 : parse_ip (bs "127.0.0.01") = None. Proof. reflexivity. Qed.
