(* ===== verification/StdPath.v ===== *)
(** * StdPath: [std::path] on a POSIX build

    A [Path] is its bytes.  The operations are textual, as the standard
    library's are: a path is read as its components ([components]), and a
    parent or a joined path is cut from, or built onto, the text.  Two paths
    are equal, and hash the same, when their components are: [path_key]. *)

From S2P Require Import Prelude RustStd.

#[global] Instance byte_countable : Countable byte.
Proof. apply (inj_countable' b2z z2b z2b_b2z). Defined.

Abbreviation path := (list byte).

Inductive Component : Type :=
| RootDir
| CurDir
| ParentDir
| Normal (name : list byte).

#[global] Instance Component_eq_dec : EqDecision Component.
Proof. solve_decision. Defined.

Definition is_absolute (p : path) : bool := starts_with p (bs "/").

(** [Components::include_cur_dir]: a relative path that starts with a dot
    component. *)

Definition starts_cur_dir (p : path) : bool :=
  bool_decide (p = bs ".") || starts_with p (bs "./").

(** The bytes before the body (the root, or the leading dot), and the body's
    segments. *)

Definition body_start (p : path) : nat :=
  if is_absolute p || starts_cur_dir p then 1 else 0.

Definition segments (p : path) : list (list byte) := split_on "/"%byte (drop (body_start p) p).

(** [parse_single_component]. *)

Definition segment_component (seg : list byte) : option Component :=
  if decide (seg = [] ∨ seg = bs ".") then None
  else if decide (seg = bs "..") then Some ParentDir
  else Some (Normal seg).

Definition components (p : path) : list Component :=
  (if is_absolute p then [RootDir] else if starts_cur_dir p then [CurDir] else [])
  ++ omap segment_component (segments p).

Definition component_text (c : Component) : list byte :=
  match c with
  | RootDir => bs "/"
  | CurDir => bs "."
  | ParentDir => bs ".."
  | Normal name => name
  end.

(** The components as a map key: their texts, which tell them apart. *)

Definition path_key (p : path) : list (list byte) := component_text <$> components p.

(** [trim_right]: drop the trailing segments that are no component.  The
    segments are kept last first. *)

Fixpoint trim_segments (rsegs : list (list byte)) : list (list byte) :=
  match rsegs with
  | seg :: rest => if segment_component seg is Some _ then rsegs else trim_segments rest
  | [] => []
  end.

Definition rebuild (p : path) (rsegs : list (list byte)) : path :=
  take (body_start p) p ++ join (bs "/") (reverse rsegs).

Definition rev_segments (p : path) : list (list byte) := trim_segments (reverse (segments p)).

(** [Path::parent]: the path without its last component, and [None] of the
    root and of the empty path. *)

Definition parent (p : path) : option path :=
  match rev_segments p with
  | _ :: rest => Some (rebuild p (trim_segments rest))
  | [] => if is_absolute p then None else if starts_cur_dir p then Some [] else None
  end.

(** [Path::file_name]: the last component, if it is a name. *)

Definition file_name (p : path) : option (list byte) :=
  match rev_segments p with
  | seg :: _ => if decide (seg = bs "..") then None else Some seg
  | [] => None
  end.

(** [Path::join] and [PathBuf::push]. *)

Definition path_join (p q : path) : path :=
  if is_absolute q then q
  else match last p with
       | Some c => if decide (c = "/"%byte) then p ++ q else p ++ bs "/" ++ q
       | None => q
       end.

(** [rsplit_file_at_dot]: what precedes and what follows the last dot. *)

Definition rsplit_file_at_dot (file : list byte) : option (list byte) * option (list byte) :=
  if decide (file = bs "..") then (Some file, None)
  else match rsplit_once "."%byte file with
       | Some ([], _) => (Some file, None)
       | Some (before, after) => (Some before, Some after)
       | None => (None, Some file)
       end.

Definition extension (p : path) : option (list byte) :=
  file ← file_name p;
  match rsplit_file_at_dot file with
  | (Some _, after) => after
  | (None, _) => None
  end.

Definition file_stem (p : path) : option (list byte) :=
  file ← file_name p;
  match rsplit_file_at_dot file with
  | (Some before, _) => Some before
  | (None, after) => after
  end.

(** [PathBuf::set_extension]: the text is cut after the stem.  The extensions
    the code sets are not empty. *)

Definition set_extension (p : path) (ext : list byte) : path :=
  match rev_segments p, file_stem p with
  | _ :: rest, Some stem => rebuild p (stem :: rest) ++ bs "." ++ ext
  | _, _ => p
  end.

Definition with_extension (p : path) (ext : list byte) : path :=
  match extension p with
  | None => set_extension p ext
  | Some previous => set_extension (take (length p - length previous) p) ext
  end.

(** [std::path::absolute], of the current directory if it can be read. *)

Definition absolute (cwd : option path) (p : path) : option path :=
  if decide (p = []) then None
  else
    let comps := components p in
    start ←
      (if is_absolute p then
         if starts_with p (bs "//") && negb (starts_with p (bs "///")) then Some (bs "//", tail comps)
         else Some ([], comps)
       else
         cwd ← cwd;
         Some (cwd, match comps with
                    | CurDir :: rest => rest
                    | comps => comps
                    end));
    let normalized := fold_left path_join (component_text <$> start.2) start.1 in
    Some (if ends_with p (bs "/") then path_join normalized [] else normalized).

(** [s.trim_start_matches("./")], for a string pattern. *)

Fixpoint trim_start_matches (fuel : nat) (pat l : list byte) : list byte :=
  match fuel with
  | O => l
  | S fuel => match strip_pre pat l with
              | Some rest => trim_start_matches fuel pat rest
              | None => l
              end
  end.

Definition trim_dot_slash (l : list byte) : list byte := trim_start_matches (length l) (bs "./") l.

(** ** Known answers *)

Example parents :
  (parent <$> [bs "/a//b/./"; bs "/a"; bs "/"; bs "a"; bs "./a"; bs "."; []; bs "a/.."])
  = [Some (bs "/a"); Some (bs "/"); None; Some []; Some (bs "."); Some []; None; Some (bs "a")].
Proof. vm_compute. reflexivity. Qed.

Example names_and_extensions :
  ((λ p, (file_name p, extension p)) <$> [bs "/a/x.js"; bs "x.d.ts/"; bs ".npmrc"; bs "a/.."; bs "x"; bs "x."])
  = [(Some (bs "x.js"), Some (bs "js")); (Some (bs "x.d.ts"), Some (bs "ts"));
     (Some (bs ".npmrc"), None); (None, None); (Some (bs "x"), None); (Some (bs "x."), Some [])].
Proof. vm_compute. reflexivity. Qed.

Example joins :
  [path_join (bs "/a") (bs "b"); path_join (bs "/a/") (bs "./b"); path_join (bs "/a") (bs "/b");
   path_join [] (bs "b"); with_extension (bs "/a/x.js") (bs "tsx");
   default [] (absolute (Some (bs "/w")) (bs "./a/./b"))]
  = [bs "/a/b"; bs "/a/./b"; bs "/b"; bs "b"; bs "/a/x.tsx"; bs "/w/a/b"].
Proof. vm_compute. reflexivity. Qed.

(** ** A parent is shorter

    So walking up from a path ends, at the root or at the empty path. *)

Lemma trim_segments_suffix rs : trim_segments rs `suffix_of` rs.
Proof.
  induction rs as [|s rs IH]; [done|]. cbn [trim_segments].
  destruct (segment_component s); [done|]. by apply suffix_cons_r.
Qed.

Lemma length_join (sep : byte) (ps : list (list byte)) :
  length (join [sep] ps) = sum_list (length <$> ps) + (length ps - 1).
Proof.
  induction ps as [|p ps IH]; [done|]. destruct ps as [|q ps]; [cbn; lia|].
  rewrite join_cons by done. rewrite !length_app, IH. cbn. lia.
Qed.

Lemma sum_list_app (l k : list nat) : sum_list (l ++ k) = sum_list l + sum_list k.
Proof. induction l as [|x l IH]; cbn; [done|lia]. Qed.

Lemma length_join_reverse rs rs' s :
  s ≠ [] → s :: rs `suffix_of` rs' →
  length (join [ "/"%byte ] (reverse rs)) < length (join [ "/"%byte ] (reverse rs')).
Proof.
  intros Hs [pre ->]. rewrite !length_join, reverse_app, reverse_cons, !fmap_app, !sum_list_app.
  rewrite !length_app, !length_reverse. destruct s; [done|]. cbn. lia.
Qed.

Lemma rev_segments_head p s rest : rev_segments p = s :: rest → s ≠ [].
Proof.
  unfold rev_segments. generalize (reverse (segments p)). intros rs.
  induction rs as [|x rs IH]; [done|]. cbn [trim_segments].
  destruct (segment_component x) eqn:E; [|done]. intros [= <- <-] ->. done.
Qed.

Lemma parent_shorter p q : parent p = Some q → length q < length p.
Proof.
  unfold parent. destruct (rev_segments p) as [|s rest] eqn:Er.
  - destruct (is_absolute p) eqn:Ea; [done|]. destruct (starts_cur_dir p) eqn:Ec; [|done].
    intros [= <-]. destruct p; [done|]. cbn. lia.
  - intros [= <-]. pose proof (rev_segments_head _ _ _ Er) as Hs.
    pose proof (trim_segments_suffix (reverse (segments p))) as Hsuf.
    fold (rev_segments p) in Hsuf. rewrite Er in Hsuf.
    assert (length (join (bs "/") (reverse (trim_segments rest))) <
            length (join (bs "/") (segments p))) as Hlt.
    { rewrite <-(reverse_involutive (segments p)).
      destruct (trim_segments_suffix rest) as [k Hk].
      eapply Nat.le_lt_trans; [|by eapply length_join_reverse].
      change (bs "/") with ["/"%byte]. rewrite Hk at 2.
      rewrite !length_join, reverse_app, fmap_app, sum_list_app, length_app. lia. }
    change (bs "/") with ["/"%byte] in Hlt at 2. unfold segments in Hlt. rewrite join_split in Hlt.
    unfold rebuild. rewrite length_app. rewrite length_drop in Hlt. rewrite length_take. lia.
Qed.

(** Walking up: [p], its parent, and so on. *)

Fixpoint ancestors_loop (fuel : nat) (p : path) : list path :=
  match fuel with
  | O => []
  | S fuel => p :: match parent p with
                   | Some q => ancestors_loop fuel q
                   | None => []
                   end
  end.

Definition ancestors (p : path) : list path := ancestors_loop (S (length p)) p.

Lemma ancestors_loop_fuel fuel fuel' p :
  length p < fuel → length p < fuel' → ancestors_loop fuel p = ancestors_loop fuel' p.
Proof.
  revert fuel' p. induction fuel as [|fuel IH]; intros [|fuel'] p H1 H2; [lia..|].
  cbn [ancestors_loop]. f_equal. destruct (parent p) as [q|] eqn:E; [|done].
  apply parent_shorter in E. apply IH; lia.
Qed.

Lemma ancestors_unfold p :
  ancestors p = p :: match parent p with Some q => ancestors q | None => [] end.
Proof.
  unfold ancestors at 1. cbn [ancestors_loop]. f_equal.
  destruct (parent p) as [q|] eqn:E; [|done].
  apply parent_shorter in E. apply ancestors_loop_fuel; lia.
Qed.

(** ** Spellings

    The path of some names, each a component, below the root: what
    [canonicalize] returns.  Its text is settled by its components. *)

Definition good_name (n : list byte) : Prop := n ≠ [] ∧ n ≠ bs "." ∧ "/"%byte ∉ n.

Definition below_root (names : list (list byte)) : path := bs "/" ++ join (bs "/") names.

Definition Canonical (p : path) : Prop := ∃ names, Forall good_name names ∧ p = below_root names.

Lemma good_component n : good_name n → ∃ c, segment_component n = Some c ∧ component_text c = n.
Proof.
  intros (H1 & H2 & _). unfold segment_component. rewrite decide_False by naive_solver.
  case_decide as E; eauto.
Qed.

Lemma below_root_segments names :
  Forall good_name names → names ≠ [] → segments (below_root names) = names.
Proof.
  intros HF Hne. unfold segments, body_start.
  replace (is_absolute (below_root names)) with true by done. cbn [orb].
  apply split_join; [done|]. eapply Forall_impl; [exact HF|]. by intros n (_ & _ & ?).
Qed.

Lemma trim_segments_good names : Forall good_name names → trim_segments names = names.
Proof. intros [|n l (c & E & _)%good_component _]; cbn; [done|]. by rewrite E. Qed.

Lemma below_root_rev names :
  Forall good_name names → rev_segments (below_root names) = reverse names.
Proof.
  intros HF. unfold rev_segments. destruct names as [|n names]; [done|].
  rewrite below_root_segments by done. apply trim_segments_good. by apply Forall_reverse.
Qed.

Lemma below_root_key names : Forall good_name names → path_key (below_root names) = bs "/" :: names.
Proof.
  intros HF. unfold path_key, components.
  replace (is_absolute (below_root names)) with true by done. cbn [app fmap list_fmap component_text].
  f_equal. destruct names as [|n names]; [done|]. rewrite below_root_segments by done.
  induction HF as [|m l (c & E & Ec)%good_component HF IH]; [done|]. cbn. rewrite E. cbn.
  by rewrite Ec, IH.
Qed.

Lemma Canonical_inj p q : Canonical p → Canonical q → path_key p = path_key q → p = q.
Proof.
  intros (ns & Hn & ->) (ms & Hm & ->). rewrite !below_root_key by done. by intros [= ->].
Qed.

Lemma Canonical_parent p q : Canonical p → parent p = Some q → Canonical q.
Proof.
  intros (ns & Hn & ->). unfold parent. rewrite below_root_rev by done.
  destruct ns as [|x ns _] using rev_ind; [done|]. rewrite reverse_snoc. intros [= <-].
  apply Forall_app in Hn as [Hn _]. exists ns. split; [done|].
  rewrite trim_segments_good by by apply Forall_reverse. unfold rebuild.
  replace (body_start (below_root (ns ++ [x]))) with 1 by done. by rewrite reverse_involutive.
Qed.

(** A path that ends in a name, and not in a slash or in a dot. *)

Definition plain (p : path) : bool :=
  match last (segments p) with
  | Some seg => if segment_component seg is Some _ then true else false
  | None => false
  end.

Lemma last_split_on (a q : list byte) :
  "/"%byte ∉ q → ∃ s, last (split_on "/"%byte (a ++ q)) = Some (s ++ q).
Proof.
  intros Hq. induction a as [|b a (s & IH)].
  - exists []. by rewrite split_on_none.
  - cbn [app split_on]. pose proof (split_on_ne "/"%byte (a ++ q)) as Hne.
    destruct (split_on "/"%byte (a ++ q)) as [|p ps]; [done|]. case_decide.
    + exists s. done.
    + destruct ps as [|p' ps].
      * cbn in IH. simplify_eq. by exists (b :: s).
      * exists s. done.
Qed.

Lemma plain_app a q : "/"%byte ∉ q → 2 ≤ length q → plain (a ++ q) = true.
Proof.
  intros Hq Hl. unfold plain, segments.
  assert (body_start (a ++ q) ≤ length a) as Hb.
  { unfold body_start. destruct (_ || _) eqn:E; [|lia]. destruct a as [|b a]; [|cbn; lia].
    exfalso. destruct q as [|c [|d q]]; cbn in Hl; [lia..|]. apply orb_true_iff in E as [E|E].
    - apply starts_with_prefix in E as [r E]. cbn in E. simplify_eq. set_solver.
    - apply orb_true_iff in E as [E%bool_decide_eq_true|E]; [done|].
      apply starts_with_prefix in E as [r E]. cbn in E. simplify_eq. set_solver. }
  rewrite drop_app_le by done. destruct (last_split_on (drop (body_start (a ++ q)) a) q Hq) as [s ->].
  unfold segment_component. rewrite decide_False.
  - by case_decide.
  - intros [E|E]; apply (f_equal length) in E; rewrite length_app in E; cbn in E; lia.
Qed.

Lemma plain_join p q :
  "/"%byte ∉ q → 2 ≤ length q → plain (path_join p q) = true.
Proof.
  intros Hq Hl. unfold path_join. destruct (is_absolute q) eqn:E.
  - apply starts_with_prefix in E as [r ->]. set_solver.
  - destruct (last p); [|by apply (plain_app [])]. case_decide; [by apply plain_app|].
    rewrite app_assoc. by apply plain_app.
Qed.

Lemma join_snoc sep ps q : ps ≠ [] → join sep (ps ++ [q]) = join sep ps ++ sep ++ q.
Proof.
  induction ps as [|p ps IH]; [done|]. intros _. destruct ps as [|p' ps]; [done|].
  cbn [app]. rewrite join_cons by done. change (p' :: ps ++ [q]) with ((p' :: ps) ++ [q]).
  rewrite IH by done. rewrite (join_cons sep p) by done. by rewrite <-!app_assoc.
Qed.

Lemma path_join_below ns q :
  Forall good_name ns → good_name q → path_join (below_root ns) q = below_root (ns ++ [q]).
Proof.
  intros Hns Hq. unfold path_join. destruct (is_absolute q) eqn:E.
  { apply starts_with_prefix in E as [r ->]. destruct Hq as (_ & _ & Hq). set_solver. }
  destruct ns as [|x ns _] using rev_ind; [done|]. apply Forall_app in Hns as [_ (Hx1 & _ & Hx)%Forall_singleton].
  assert (∃ y, below_root (ns ++ [x]) = y ++ x) as [y Ey].
  { unfold below_root. destruct ns as [|n ns]; [by exists (bs "/")|].
    rewrite join_snoc by done. eexists. by rewrite !app_assoc. }
  assert (∃ c, last (below_root (ns ++ [x])) = Some c ∧ c ≠ "/"%byte) as (c & -> & Hc).
  { rewrite Ey. destruct x as [|b x _] using rev_ind; [done|]. rewrite app_assoc, last_snoc.
    exists b. split; [done|]. set_solver. }
  rewrite decide_False by done. unfold below_root. rewrite (join_snoc _ (ns ++ [x])) by by destruct ns.
  by rewrite <-!app_assoc.
Qed.
