(* ===== verification/Permissions.v ===== *)
(** * Permissions: the sandbox of [oam_engine/src/permissions.rs]

    The permission set an isolate carries, its per-category matchers and the
    [check_*] gates every op calls.  This file is the POSIX build
    ([cfg(not(windows))]); the matchers only a Windows build has are not
    modelled.

    A gate that resolves a relative path reads the process's current
    directory: [cwd] is what [std::env::current_dir()] answers at that moment,
    as text ([None] when it cannot be read), and is an argument of every
    definition that depends on it. *)

From S2P Require Import Prelude RustStd StdNet.

(** ** Data *)

Inductive PermValue : Type :=
| All
| PNone
| List (entries : list (list byte)).

Record FsKey : Type := { root : list byte; parts : list (list byte) }.

Record FsGrant : Type := { key : FsKey; star : option (list byte) }.

Record Permissions : Type := {
  read : PermValue;
  write : PermValue;
  net : PermValue;
  env : PermValue;
  ffi : PermValue;
  child : PermValue;
  worker : PermValue;
  enabled : bool
}.

Inductive BoolOrList : Type :=
| BBool (b : bool)
| BList (l : list (list byte)).

Record PermissionsOptions : Type := {
  o_read : BoolOrList;
  o_write : BoolOrList;
  o_net : BoolOrList;
  o_env : BoolOrList;
  o_ffi : BoolOrList;
  o_child : BoolOrList;
  o_worker : BoolOrList
}.

Record PermissionDenial : Type := { permission : string; resource : list byte }.

#[global] Instance PermValue_eq_dec : EqDecision PermValue.
Proof. solve_decision. Defined.
#[global] Instance FsKey_eq_dec : EqDecision FsKey.
Proof. solve_decision. Defined.
#[global] Instance FsGrant_eq_dec : EqDecision FsGrant.
Proof. solve_decision. Defined.
#[global] Instance PermissionDenial_eq_dec : EqDecision PermissionDenial.
Proof. solve_decision. Defined.

(** ** Paths, lexically *)

(** One segment of [normalize_path]'s loop over [raw.split('/')], with the
    stack held newest first. *)

Definition push_segment (out : list (list byte)) (seg : list byte) : list (list byte) :=
  if decide (seg = [] ∨ seg = bs ".") then out
  else if decide (seg = bs "..") then tail out
  else seg :: out.

Definition normalize_segments (raw : list byte) : list (list byte) :=
  reverse (fold_left push_segment (split_on "/"%byte raw) []).

Definition normalize_path (raw : list byte) : list byte :=
  let joined := join (bs "/") (normalize_segments raw) in
  if starts_with raw (bs "/") then "/"%byte :: joined else joined.

(** [Path::has_root] on POSIX. *)

Definition has_root (raw : list byte) : bool := starts_with raw (bs "/").

(** [Path::components] of a POSIX path, the root and a leading [.] aside:
    repeated separators and [.] segments are dropped, [..] is kept. *)

Definition path_components (raw : list byte) : list (list byte) :=
  filter (λ seg, seg ≠ [] ∧ seg ≠ bs ".") (split_on "/"%byte raw).

(** [PathBuf::push] of one component. *)

Definition path_push (buf comp : list byte) : list byte :=
  if decide (buf = []) then comp
  else if ends_with buf (bs "/") then buf ++ comp else buf ++ bs "/" ++ comp.

(** [std::path::absolute] of a relative, non-empty POSIX path: the current
    directory, the path's components, and the trailing separator if it had
    one. *)

Definition path_absolute (cwd : option (list byte)) (raw : list byte) : option (list byte) :=
  dir ← cwd;
  let joined := fold_left path_push (path_components raw) dir in
  Some (if ends_with raw (bs "/") then path_push joined [] else joined).

Definition resolve_against_cwd (cwd : option (list byte)) (raw : list byte) : list byte :=
  if has_root raw then raw
  else
    let resolved := if decide (raw = []) then cwd else path_absolute cwd raw in
    match resolved with
    | Some path => path
    | None => raw
    end.

(** Unix has no named-pipe namespace. *)

Definition is_named_pipe_namespace (_path : list byte) : bool := false.

(** ** Grants *)

Definition FsKey_admits (self target : FsKey) : bool :=
  if bool_decide (root self = []) && bool_decide (parts self = []) then false
  else bool_decide (root self = root target) && starts_with (parts target) (parts self).

Definition FsGrant_admits (self : FsGrant) (target : FsKey) : bool :=
  match star self with
  | None => FsKey_admits (key self) target
  | Some start =>
      let k := key self in
      if bool_decide (root k = []) && bool_decide (parts k = []) then false
      else bool_decide (root k = root target)
           && starts_with (parts target) (parts k)
           && (bool_decide (start = [])
               || match parts target !! length (parts k) with
                  | Some part => starts_with part start
                  | None => false
                  end)
  end.

Definition posix_key (normalized : list byte) : FsKey :=
  let '(root, rest) := match strip_pre (bs "/") normalized with
                       | Some rest => (bs "/", rest)
                       | None => ([], normalized)
                       end in
  {| root := root;
     parts := filter (λ part, part ≠ []) (split_on "/"%byte rest) |}.

Definition fs_path_key (path : list byte) : option FsKey :=
  let normalized := normalize_path path in
  if decide (normalized = []) then None else Some (posix_key normalized).

Definition plain_key (path : list byte) : option FsKey :=
  if decide (path = []) then None else Some (posix_key path).

Definition fs_entry_key (entry : list byte) : option FsGrant :=
  let resolved := normalize_path entry in
  match find_byte "*"%byte resolved with
  | None => k ← plain_key resolved; Some {| key := k; star := None |}
  | Some first_star =>
      let prefix := take first_star resolved in
      let at_ := match rfind_byte "/"%byte prefix with Some at_ => S at_ | None => 0 end in
      let dir := take at_ prefix in
      let start := drop at_ prefix in
      k ← plain_key dir; Some {| key := k; star := Some start |}
  end.

Definition fs_target_key (cwd : option (list byte)) (path : list byte) : option FsKey :=
  Some (posix_key (normalize_path (resolve_against_cwd cwd path))).

(** ** Hosts and ports *)

Definition is_port (p : list byte) : bool :=
  negb (bool_decide (p = [])) && forallb is_ascii_digit p
  && bool_decide (is_Some (parse_uint u16_max p)).

Definition host_of (hostport : list byte) : list byte :=
  if starts_with hostport (bs "[") then
    match find_byte "]"%byte hostport with
    | None => hostport
    | Some end_ =>
        let rest := drop (S end_) hostport in
        let bracketed := bool_decide (rest = [])
          || match strip_pre (bs ":") rest with
             | Some p => is_port p
             | None => false
             end in
        if bracketed then take (S end_) hostport else hostport
    end
  else
    match rsplit_once ":"%byte hostport with
    | Some (head, _) => if contains head ":"%byte then hostport else head
    | None => hostport
    end.

Definition canonical_port (text : list byte) : option Z :=
  let digits := negb (bool_decide (text = [])) && forallb is_ascii_digit text in
  if digits && (bool_decide (text = bs "0") || negb (starts_with text (bs "0")))
  then parse_uint u16_max text else None.

Definition parse_zoned (text : list byte) : option (list Z * list byte) :=
  '(_, zone) ← split_once "%"%byte text;
  pin ← PinAddr_from_str text;
  match pin_ip pin, pin_zone pin with
  | V6 ip, Some _ => Some (ip, zone)
  | _, _ => None
  end.

Definition is_port_scoped_zone (entry_zone : list byte) : bool :=
  match rsplit_once ":"%byte entry_zone with
  | Some (_, tail) => negb (bool_decide (tail = [])) && forallb is_ascii_digit tail
  | None => false
  end.

Definition zoned_entry_admits (item : list byte) (ip : list Z) (zone : list byte) (port : Z)
  : bool :=
  match parse_zoned item with
  | None => false
  | Some (entry_ip, entry_zone) =>
      if negb (bool_decide (entry_ip = ip)) then false
      else match rsplit_once ":"%byte entry_zone with
           | Some (head, tail) =>
               if is_port_scoped_zone entry_zone
               then bool_decide (head = zone) && bool_decide (canonical_port tail = Some port)
               else bool_decide (entry_zone = zone)
           | None => bool_decide (entry_zone = zone)
           end
  end.

(** ** The matchers of a [PermValue] *)

Definition admits_key (self : PermValue) (target : FsKey) : bool :=
  match self with
  | All => true
  | PNone => false
  | List list =>
      existsb (λ item, match fs_entry_key item with
                       | Some entry => FsGrant_admits entry target
                       | None => false
                       end) list
  end.

Definition allows_path (self : PermValue) (target : list byte) : bool :=
  match self with
  | All => true
  | PNone => false
  | List _ => match fs_path_key target with
              | Some t => admits_key self t
              | None => false
              end
  end.

Definition allows_fs_path (cwd : option (list byte)) (self : PermValue) (target : list byte)
  : bool :=
  match self with
  | All => true
  | PNone => false
  | List _ => match fs_target_key cwd target with
              | Some t => admits_key self t
              | None => false
              end
  end.

Definition allows_net_path (self : PermValue) (path : list byte) : bool :=
  match self with
  | All => true
  | PNone => false
  | List list =>
      has_root path
      && existsb (λ item, has_root item
                          && bool_decide (path_components item = path_components path)) list
  end.

Definition allows_net_target (self : PermValue) (host : list byte) (port : Z) : bool :=
  match self with
  | All => true
  | PNone => false
  | List list =>
      if decide (host = []) then false
      else if contains host "%"%byte then
        match parse_zoned host with
        | Some (ip, zone) => existsb (λ item, zoned_entry_admits item ip zone port) list
        | None => false
        end
      else
        existsb (λ item,
          bool_decide (item = host)
          || match strip_pre host item with
             | Some rest =>
                 match strip_pre (bs ":") rest with
                 | Some p => bool_decide (canonical_port p = Some port)
                 | None => false
                 end
             | None => false
             end) list
  end.

Definition allows_net (self : PermValue) (target : list byte) : bool :=
  match self with
  | All => true
  | PNone => false
  | List list =>
      if contains target "%"%byte then
        match ('(host, tail) ← rsplit_once ":"%byte target;
               port ← canonical_port tail; Some (host, port)) with
        | Some (host, port) => allows_net_target self host port
        | None =>
            match parse_zoned target with
            | None => false
            | Some (ip, zone) =>
                existsb (λ item, match parse_zoned item with
                                 | Some (entry_ip, entry_zone) =>
                                     bool_decide (entry_ip = ip) && bool_decide (entry_zone = zone)
                                     && negb (is_port_scoped_zone entry_zone)
                                 | None => false
                                 end) list
            end
        end
      else
        existsb (λ item,
          if decide (item = target) then true
          else if decide (host_of item = item) then bool_decide (host_of target = item)
          else false) list
  end.

Definition allows_exact (self : PermValue) (target : list byte) : bool :=
  match self with
  | All => true
  | PNone => false
  | List list => existsb (λ item, bool_decide (item = target)) list
  end.

Definition state (self : PermValue) : string :=
  match self with
  | All => "granted"
  | PNone => "denied"
  | List _ => "granted"
  end.

(** ** Building a permission set *)

Definition Permissions_default : Permissions :=
  {| read := All; write := All; net := All; env := All; ffi := All; child := All;
     worker := All; enabled := false |}.

Definition from_bool_or_list (v : BoolOrList) : PermValue :=
  match v with
  | BBool true => All
  | BBool false => PNone
  | BList list => if decide (list = []) then PNone else List list
  end.

Definition fs_grant (cwd : option (list byte)) (v : BoolOrList) : PermValue :=
  match from_bool_or_list v with
  | List list =>
      List ((λ entry, if decide (entry = []) then entry
                      else resolve_against_cwd cwd entry) <$> list)
  | other => other
  end.

Definition from_opts (cwd : option (list byte)) (opts : option PermissionsOptions)
  : Permissions :=
  match opts with
  | None => Permissions_default
  | Some o =>
      {| read := fs_grant cwd (o_read o);
         write := fs_grant cwd (o_write o);
         net := from_bool_or_list (o_net o);
         env := from_bool_or_list (o_env o);
         ffi := from_bool_or_list (o_ffi o);
         child := from_bool_or_list (o_child o);
         worker := from_bool_or_list (o_worker o);
         enabled := true |}
  end.

(** ** The gates *)

Definition verdict := result PermissionDenial unit.

Definition gate (allowed : bool) (name : string) (res : list byte) : verdict :=
  if allowed then Ok tt else Err {| permission := name; resource := res |}.

Definition check_read (cwd : option (list byte)) (self : Permissions) (path : list byte) : verdict :=
  gate (allows_fs_path cwd (read self) path) "FileSystemRead" path.

Definition check_write (cwd : option (list byte)) (self : Permissions) (path : list byte) : verdict :=
  gate (allows_fs_path cwd (write self) path) "FileSystemWrite" path.

Definition check_net (self : Permissions) (host : list byte) : verdict :=
  gate (allows_net (net self) host) "Net" host.

Definition check_net_target (self : Permissions) (host : list byte) (port : Z) : verdict :=
  gate (allows_net_target (net self) host port) "Net" (host ++ bs ":" ++ dec_text port).

Definition check_worker (self : Permissions) (res : list byte) : verdict :=
  gate (allows_path (worker self) res) "WorkerThreads" res.

Definition check_child (self : Permissions) (res : list byte) : verdict :=
  gate (allows_path (child self) res) "ChildProcess" res.

Definition check_ffi (self : Permissions) (res : list byte) : verdict :=
  gate (allows_path (ffi self) res) "Addon" res.

Definition check_env (self : Permissions) (key : list byte) : verdict :=
  gate (allows_exact (env self) key) "Environment" key.

Definition is_all (p : PermValue) : bool :=
  match p with
  | All => true
  | _ => false
  end.

Definition check_pipe (cwd : option (list byte)) (self : Permissions) (path : list byte)
  : result PermissionDenial (list byte) :=
  let denied name := Err {| permission := name; resource := path |} in
  if contains path x00 then
    match net self, read self, write self with
    | All, All, All => Ok path
    | All, All, _ => denied "FileSystemWrite"
    | All, _, _ => denied "FileSystemRead"
    | _, _, _ => denied "Net"
    end
  else
    let fs_path := negb (is_named_pipe_namespace path) in
    let fs_restricted := fs_path && negb (is_all (read self) && is_all (write self)) in
    if is_all (net self) && negb fs_restricted then Ok path
    else
      let resolved := resolve_against_cwd cwd path in
      if negb (allows_net_path (net self) resolved) then denied "Net"
      else if fs_path && negb (allows_fs_path cwd (read self) resolved)
      then denied "FileSystemRead"
      else if fs_path && negb (allows_fs_path cwd (write self) resolved)
      then denied "FileSystemWrite"
      else Ok resolved.

(** [oam_core::fs_os_path] on POSIX: the path itself. *)

Definition fs_os_path (path : list byte) : list byte := path.

Definition query_state (cwd : option (list byte)) (self : Permissions) (name : string)
  (target : option (list byte)) : string :=
  let answer perm granted :=
    match target with
    | Some t => if (granted t : bool) then "granted" else "denied"
    | None => state perm
    end in
  if decide (name = "read") then
    answer (read self) (λ t, allows_fs_path cwd (read self) (fs_os_path t))
  else if decide (name = "write") then
    answer (write self) (λ t, allows_fs_path cwd (write self) (fs_os_path t))
  else if decide (name = "net") then answer (net self) (allows_net (net self))
  else if decide (name = "env") then answer (env self) (allows_exact (env self))
  else if decide (name = "child") then answer (child self) (allows_path (child self))
  else if decide (name = "ffi") then answer (ffi self) (allows_path (ffi self))
  else if decide (name = "worker") then answer (worker self) (allows_path (worker self))
  else "denied".

Definition access_denied_message (permission : string) : string :=
  let use flag := "Access to this API has been restricted. Use " +:+ flag
                  +:+ " to manage permissions." in
  if decide (permission = "FileSystemRead") then use "--allow-fs-read"
  else if decide (permission = "FileSystemWrite") then use "--allow-fs-write"
  else if decide (permission = "ChildProcess") then use "--allow-child-process"
  else if decide (permission = "WorkerThreads") then use "--allow-worker"
  else if decide (permission = "WASI") then use "--allow-wasi"
  else if decide (permission = "Addon") then use "--allow-addons"
  else if decide (permission = "Net") then use "--allow-net"
  else if decide (permission = "Environment") then use "--allow-env"
  else "Access to this API has been restricted. ".

(** [fetch_net_check]: the check a fetch applies to every hop, [None] when
    the grant covers every host. *)

Definition fetch_net_check (permissions : Permissions)
  : option (list byte → Z → verdict) :=
  match net permissions with
  | All => None
  | _ => Some (check_net_target permissions)
  end.

(** [url_net_port], of the [port()] and [protocol()] of the parsed URL. *)

Definition url_net_port (port protocol : list byte) : Z :=
  if decide (port = []) then
    if decide (protocol = bs "http:" ∨ protocol = bs "ws:") then 80
    else if decide (protocol = bs "https:" ∨ protocol = bs "wss:") then 443
    else 0
  else match parse_uint u16_max port with
       | Some p => p
       | None => 0
       end.
