(* ===== verification/PermissionsFs.v ===== *)
(** * PermissionsFs: what the fs grants admit

    The specification side of the fs matcher: a path is the list of names it
    resolves to from the root ([normalize_segments]), a plain grant covers the
    names below it, and a [*] grant covers the paths whose text starts with
    what precedes the [*].  The theorems connect the gates of [Permissions] to
    that reading. *)

From S2P Require Import Prelude RustStd StdNet Permissions.

(** ** Resolved paths *)

(** A name a resolved path may hold. *)

Definition clean_name (seg : list byte) : Prop :=
  seg ≠ [] ∧ seg ≠ bs "." ∧ seg ≠ bs ".." ∧ "/"%byte ∉ seg.

(** Walking a path's segments from the directory [from], as [cd] would. *)

Definition walk (from : list (list byte)) (raw : list byte) : list (list byte) :=
  reverse (fold_left push_segment (split_on "/"%byte raw) (reverse from)).

Lemma normalize_segments_walk raw : normalize_segments raw = walk [] raw.
Proof. done. Qed.

Lemma push_segment_clean out seg :
  Forall clean_name out → "/"%byte ∉ seg → Forall clean_name (push_segment out seg).
Proof.
  intros HF Hs. unfold push_segment. case_decide as H1; [done|].
  case_decide as H2; [by destruct HF|]. constructor; [|done].
  unfold clean_name. tauto.
Qed.

Lemma fold_push_clean segs out :
  Forall clean_name out → Forall (λ s, "/"%byte ∉ s) segs →
  Forall clean_name (fold_left push_segment segs out).
Proof.
  revert out. induction segs as [|s segs IH]; intros out Ho Hs; [done|].
  apply Forall_cons in Hs as [Hs Hss]. cbn. apply IH; auto using push_segment_clean.
Qed.

Lemma walk_clean from raw : Forall clean_name from → Forall clean_name (walk from raw).
Proof.
  intros H. unfold walk. apply Forall_reverse, fold_push_clean.
  - by apply Forall_reverse.
  - apply split_on_pieces.
Qed.

Lemma normalize_segments_clean raw : Forall clean_name (normalize_segments raw).
Proof. rewrite normalize_segments_walk. apply walk_clean. constructor. Qed.

Lemma fold_push_id segs out :
  Forall clean_name segs → fold_left push_segment segs out = reverse segs ++ out.
Proof.
  revert out. induction segs as [|s segs IH]; intros out Hs; [done|].
  apply Forall_cons in Hs as [(H1 & H2 & H3 & _) Hs]. cbn [fold_left].
  rewrite IH by done. unfold push_segment.
  rewrite decide_False by tauto. rewrite decide_False by done.
  by rewrite reverse_cons, <-app_assoc.
Qed.

Lemma fold_push_nil_seg out : push_segment out [] = out.
Proof. unfold push_segment. by rewrite decide_True by auto. Qed.

Lemma clean_no_sep segs : Forall clean_name segs → Forall (λ s, "/"%byte ∉ s) segs.
Proof. intros H. apply (Forall_impl _ _ _ H). by intros s (_ & _ & _ & ?). Qed.

Lemma split_join_clean segs :
  Forall clean_name segs →
  fold_left push_segment (split_on "/"%byte (join (bs "/") segs)) [] = reverse segs.
Proof.
  intros H. destruct segs as [|s segs]; [done|].
  change (bs "/") with ["/"%byte].
  rewrite split_join by (done || by apply clean_no_sep).
  rewrite fold_push_id by done. by rewrite app_nil_r.
Qed.

(** A resolved path resolves to itself. *)

Lemma normalize_segments_idem raw :
  normalize_segments (normalize_path raw) = normalize_segments raw.
Proof.
  unfold normalize_path. pose proof (normalize_segments_clean raw) as Hc.
  set (segs := normalize_segments raw) in *.
  destruct (starts_with raw (bs "/")); unfold normalize_segments.
  - cbn [split_on]. rewrite decide_True by done. cbn [fold_left].
    rewrite fold_push_nil_seg. rewrite split_join_clean by done.
    apply reverse_involutive.
  - rewrite split_join_clean by done. apply reverse_involutive.
Qed.

Lemma has_root_cons raw : has_root raw = true ↔ ∃ t, raw = "/"%byte :: t.
Proof.
  unfold has_root. rewrite starts_with_prefix. split.
  - intros [k ->]. eauto.
  - intros [t ->]. by exists t.
Qed.

Lemma normalize_path_rooted raw :
  has_root raw = true → normalize_path raw = "/"%byte :: join (bs "/") (normalize_segments raw).
Proof. unfold has_root, normalize_path. by intros ->. Qed.

(** The key of a rooted path is its resolved names. *)

Lemma filter_clean segs :
  Forall clean_name segs → filter (λ part : list byte, part ≠ []) segs = segs.
Proof.
  induction 1 as [|s segs Hs _ IH]; [done|].
  rewrite filter_cons_True by apply Hs. by rewrite IH.
Qed.

Lemma filter_split_join segs :
  Forall clean_name segs →
  filter (λ part : list byte, part ≠ []) (split_on "/"%byte (join (bs "/") segs)) = segs.
Proof.
  intros H. destruct segs as [|s segs]; [done|].
  change (bs "/") with ["/"%byte].
  rewrite split_join by (done || by apply clean_no_sep). by apply filter_clean.
Qed.

Lemma posix_key_rooted raw :
  has_root raw = true →
  posix_key (normalize_path raw) = {| root := bs "/"; parts := normalize_segments raw |}.
Proof.
  intros H. rewrite normalize_path_rooted by done. unfold posix_key.
  change (bs "/") with ["/"%byte] at 1. cbn [strip_pre]. rewrite decide_True by done.
  f_equal. apply filter_split_join, normalize_segments_clean.
Qed.

Lemma join_head_clean segs t :
  Forall clean_name segs → join (bs "/") segs ≠ "/"%byte :: t.
Proof.
  intros H. destruct H as [|s segs (Hs & _ & _ & Hn) _]; [done|].
  destruct s as [|b s]; [done|]. apply not_elem_of_cons in Hn as [Hb _].
  destruct segs; cbn; congruence.
Qed.

Lemma posix_key_unrooted raw :
  has_root raw = false → root (posix_key (normalize_path raw)) = [].
Proof.
  unfold has_root. intros H. unfold normalize_path. rewrite H. unfold posix_key.
  destruct (strip_pre (bs "/") _) as [r|] eqn:E; [|done].
  apply strip_pre_Some in E. exfalso.
  eapply join_head_clean; [apply normalize_segments_clean|exact E].
Qed.

(** ** Paths as text, for the [*] grants *)

(** The names [segs], each followed by [/]. *)

Definition path_text (segs : list (list byte)) : list byte :=
  concat ((λ s, s ++ bs "/") <$> segs).

(** A directory's text with its trailing separator: [/] for the root,
    [/a/b/] for [a; b]. *)

Definition dir_text (segs : list (list byte)) : list byte := "/"%byte :: path_text segs.

Lemma path_text_cons s segs : path_text (s :: segs) = s ++ "/"%byte :: path_text segs.
Proof. unfold path_text. cbn [fmap list_fmap concat]. by rewrite <-app_assoc. Qed.

Lemma app_sep_inv (sep : byte) d s X Y :
  sep ∉ d → sep ∉ s → d ++ sep :: X = s ++ sep :: Y → d = s ∧ X = Y.
Proof.
  revert s. induction d as [|a d IH]; intros [|b s] Hd Hs E; cbn in E.
  - by injection E.
  - injection E as <- _. by apply not_elem_of_cons in Hs as [? _].
  - injection E as -> _. by apply not_elem_of_cons in Hd as [? _].
  - injection E as -> E. apply not_elem_of_cons in Hd as [_ Hd], Hs as [_ Hs].
    by destruct (IH s Hd Hs E) as [-> ->].
Qed.

Lemma sep_prefix (sep : byte) d s X Y :
  sep ∉ d → sep ∉ s →
  d ++ sep :: X `prefix_of` s ++ sep :: Y ↔ d = s ∧ X `prefix_of` Y.
Proof.
  intros Hd Hs. split.
  - intros [k E]. rewrite <-app_assoc in E. cbn in E.
    apply app_sep_inv in E as [-> ->]; [|done..]. split; [done|by exists k].
  - intros [-> [k ->]]. exists k. by rewrite <-app_assoc.
Qed.

Lemma nosep_prefix (sep : byte) start s Y :
  sep ∉ start → start `prefix_of` s ++ sep :: Y ↔ start `prefix_of` s.
Proof.
  intros Hs. split; [|intros ?; by apply prefix_app_r].
  revert s. induction start as [|a start IH]; intros s H; [apply prefix_nil|].
  apply not_elem_of_cons in Hs as [Ha Hs]. destruct s as [|b s].
  - cbn in H. by apply prefix_cons_inv_1 in H.
  - cbn in H. pose proof (prefix_cons_inv_1 _ _ _ _ H). subst b.
    apply prefix_cons. apply IH; [done|]. by apply prefix_cons_inv_2 in H.
Qed.

(** A cut of a path's text falls in some directory, after the start of a
    name. *)

Lemma cut_path segs pre :
  Forall clean_name segs → pre `prefix_of` join (bs "/") segs →
  ∃ ds start, pre = path_text ds ++ start ∧ Forall clean_name ds ∧ "/"%byte ∉ start.
Proof.
  revert pre. induction segs as [|s segs IH]; intros pre HF Hp.
  - apply prefix_nil_inv in Hp. subst. exists [], []. split_and!; auto using not_elem_of_nil.
  - apply Forall_cons in HF as [Hs HF].
    assert (Hnosep : pre `prefix_of` s →
      ∃ ds start, pre = path_text ds ++ start ∧ Forall clean_name ds ∧ "/"%byte ∉ start).
    { intros Hps. exists [], pre. split_and!; [done|constructor|].
      intros Hin. apply (proj2 (proj2 (proj2 Hs))). by eapply elem_of_prefix. }
    destruct segs as [|s' segs]; [by apply Hnosep|].
    rewrite join_cons in Hp by done. change (bs "/") with ["/"%byte] in Hp. cbn [app] in Hp.
    destruct (decide ("/"%byte ∈ pre)) as [Hin|Hin]; [|apply Hnosep; by eapply nosep_prefix].
    apply list_elem_of_In, in_split in Hin as (a & b & ->).
    destruct (split_once "/"%byte (a ++ "/"%byte :: b)) as [[d X]|] eqn:E.
    2: { apply split_once_None in E. destruct E. apply elem_of_app. right. left. }
    apply split_once_Some in E as [E Hd]. rewrite E in *.
    apply sep_prefix in Hp as [-> Hp]; [|done|apply Hs].
    destruct (IH X HF Hp) as (ds & start & -> & Hds & Hst).
    exists (s :: ds), start. rewrite path_text_cons, <-app_assoc.
    split_and!; auto.
Qed.

Lemma split_path_text segs :
  Forall clean_name segs → split_on "/"%byte (path_text segs) = segs ++ [[]].
Proof.
  induction 1 as [|s segs Hs _ IH]; [done|].
  rewrite path_text_cons, split_on_app_sep by apply Hs. by rewrite IH.
Qed.

Lemma posix_key_dir_text segs :
  Forall clean_name segs → posix_key (dir_text segs) = {| root := bs "/"; parts := segs |}.
Proof.
  intros H. unfold posix_key, dir_text. change (bs "/") with ["/"%byte].
  cbn [strip_pre]. rewrite decide_True by done. f_equal.
  rewrite split_path_text by done. rewrite filter_app, filter_clean by done.
  apply app_nil_r.
Qed.

(** The text reading of a [*] grant agrees with the component reading. *)

Lemma star_match segs ds start :
  Forall clean_name segs → Forall clean_name ds → "/"%byte ∉ start →
  dir_text ds ++ start `prefix_of` dir_text segs ↔
  ds `prefix_of` segs ∧
  (start = [] ∨ ∃ part, segs !! length ds = Some part ∧ start `prefix_of` part).
Proof.
  intros Hsegs Hds Hst. unfold dir_text. cbn [app].
  transitivity (path_text ds ++ start `prefix_of` path_text segs).
  { split; [by intros ?%prefix_cons_inv_2|apply prefix_cons]. }
  revert segs Hsegs. induction Hds as [|d ds Hd _ IH]; intros segs Hsegs.
  - cbn [path_text concat fmap list_fmap app length].
    destruct Hsegs as [|s segs Hs _].
    + split; [intros ->%prefix_nil_inv; auto using prefix_nil|].
      intros [_ [->|(? & ? & _)]]; [done|discriminate].
    + rewrite path_text_cons, nosep_prefix by done. cbn. split.
      * intros H. split; [apply prefix_nil|]. eauto.
      * intros [_ [->|(? & [= <-] & H)]]; [apply prefix_nil|done].
  - rewrite path_text_cons, <-app_assoc. cbn [app length].
    destruct Hsegs as [|s segs Hs Hsegs].
    + split; [intros H%prefix_nil_inv; by destruct d|].
      intros [H%prefix_nil_inv _]. done.
    + rewrite path_text_cons, sep_prefix by (apply Hd || apply Hs).
      rewrite IH by done. cbn. split.
      * intros [-> [? ?]]. split; [by apply prefix_cons|done].
      * intros [H ?]. pose proof (prefix_cons_inv_1 _ _ _ _ H).
        apply prefix_cons_inv_2 in H. done.
Qed.

(** ** What one entry covers *)

(** node's reading of a rooted entry: its resolved text up to the first [*]
    starts the directory text of the paths it admits; with no [*], its names
    are the first names of theirs. *)

Definition covers (entry : list byte) (segs : list (list byte)) : Prop :=
  match split_once "*"%byte (normalize_path entry) with
  | Some (before_star, _) => before_star `prefix_of` dir_text segs
  | None => normalize_segments entry `prefix_of` segs
  end.

#[global] Instance covers_dec entry segs : Decision (covers entry segs).
Proof. unfold covers. destruct (split_once _ _) as [[??]|]; apply _. Defined.

Definition entry_admits (item : list byte) (target : FsKey) : bool :=
  match fs_entry_key item with
  | Some entry => FsGrant_admits entry target
  | None => false
  end.

Lemma entry_key_plain entry :
  has_root entry = true → "*"%byte ∉ normalize_path entry →
  fs_entry_key entry =
  Some {| key := {| root := bs "/"; parts := normalize_segments entry |}; star := None |}.
Proof.
  intros Hr Hs. unfold fs_entry_key. rewrite (proj2 (find_byte_None _ _) Hs).
  unfold plain_key. rewrite decide_False by (by rewrite normalize_path_rooted).
  cbn. by rewrite posix_key_rooted.
Qed.

Lemma entry_key_star entry before_star after_star :
  has_root entry = true →
  normalize_path entry = before_star ++ ("*"%byte :: after_star) → "*"%byte ∉ before_star →
  ∃ ds start, before_star = dir_text ds ++ start ∧ Forall clean_name ds ∧ ("/"%byte ∉ start) ∧
  fs_entry_key entry =
  Some {| key := {| root := bs "/"; parts := ds |}; star := Some start |}.
Proof.
  intros Hr E Hs. pose proof (normalize_segments_clean entry) as Hc.
  pose proof (normalize_path_rooted entry Hr) as En.
  destruct before_star as [|b pre].
  { rewrite E in En. discriminate. }
  assert (b = "/"%byte) as -> by (rewrite E in En; by injection En).
  destruct (cut_path (normalize_segments entry) pre Hc) as (ds & start & -> & Hds & Hst).
  { exists ("*"%byte :: after_star). rewrite E in En. by injection En. }
  exists ds, start. split_and!; [done..|]. unfold fs_entry_key.
  set (prefix := "/"%byte :: path_text ds ++ start) in *.
  assert (find_byte "*"%byte (normalize_path entry) = Some (length prefix)) as ->.
  { apply find_byte_split. rewrite E. eauto. }
  rewrite E, take_app_length.
  assert (Hlast : ∃ a, dir_text ds = a ++ bs "/").
  { clear. unfold dir_text. induction ds as [|d ds [a IH]] using rev_ind; [by exists []|].
    unfold path_text. rewrite fmap_app, concat_app. cbn [fmap list_fmap concat].
    rewrite app_nil_r. exists ("/"%byte :: path_text ds ++ d).
    cbn. by rewrite <-!app_assoc. }
  destruct Hlast as [a Ha].
  assert (Hp : prefix = a ++ "/"%byte :: start).
  { unfold prefix. rewrite app_comm_cons. fold (dir_text ds). rewrite Ha.
    by rewrite <-app_assoc. }
  assert (rfind_byte "/"%byte prefix = Some (length a)) as ->.
  { apply rfind_byte_split. rewrite Hp. eauto. }
  assert (S (length a) = length (dir_text ds)) as ->.
  { rewrite Ha, length_app. cbn. lia. }
  assert (prefix = dir_text ds ++ start) as -> by done.
  rewrite take_app_length, drop_app_length. unfold plain_key.
  rewrite decide_False by done. cbn [mbind option_bind].
  by rewrite posix_key_dir_text.
Qed.

Lemma bool_decide_list_eq (a : list byte) : bool_decide (a = a) = true.
Proof. by apply bool_decide_eq_true. Qed.

Lemma entry_admits_spec entry segs :
  has_root entry = true → Forall clean_name segs →
  entry_admits entry {| root := bs "/"; parts := segs |} = true ↔ covers entry segs.
Proof.
  intros Hr Hc. unfold entry_admits, covers.
  destruct (split_once "*"%byte (normalize_path entry)) as [[before after]|] eqn:E.
  - apply split_once_Some in E as [E Hs].
    destruct (entry_key_star _ _ _ Hr E Hs) as (ds & start & -> & Hds & Hst & ->).
    rewrite star_match by done. unfold FsGrant_admits. cbn [star key root parts].
    rewrite bool_decide_eq_false_2 by done. cbn [andb].
    rewrite bool_decide_eq_true_2 by done. cbn [andb].
    rewrite andb_true_iff, orb_true_iff, starts_with_prefix, bool_decide_eq_true.
    destruct (segs !! length ds) as [part|] eqn:El.
    + rewrite starts_with_prefix. naive_solver.
    + naive_solver.
  - apply split_once_None in E. rewrite entry_key_plain by done.
    unfold FsGrant_admits, FsKey_admits. cbn [star key root parts].
    rewrite bool_decide_eq_false_2 by done. cbn [andb].
    rewrite bool_decide_eq_true_2 by done. cbn [andb].
    apply starts_with_prefix.
Qed.

(** ** Relative paths *)

Lemma split_on_app sep a b :
  split_on sep (a ++ sep :: b) = split_on sep a ++ split_on sep b.
Proof.
  induction a as [|x a IH]; cbn.
  - by rewrite decide_True.
  - case_decide; [by rewrite IH|]. rewrite IH.
    destruct (split_on sep a) eqn:E; [by apply split_on_ne in E|]. done.
Qed.

Definition seg_stack (raw : list byte) : list (list byte) :=
  fold_left push_segment (split_on "/"%byte raw) [].

Lemma path_push_stack d c :
  d ≠ [] → "/"%byte ∉ c → seg_stack (path_push d c) = push_segment (seg_stack d) c.
Proof.
  intros Hd Hc. unfold path_push, seg_stack. rewrite decide_False by done.
  destruct (ends_with d (bs "/")) eqn:E.
  - apply ends_with_suffix in E as [d' ->]. change (bs "/") with ["/"%byte].
    rewrite <-app_assoc. cbn [app]. rewrite !split_on_app, (split_on_none _ c) by done.
    cbn [split_on]. rewrite !fold_left_app. cbn [fold_left].
    by rewrite fold_push_nil_seg.
  - change (bs "/") with ["/"%byte]. cbn [app].
    by rewrite split_on_app, (split_on_none _ c), fold_left_app by done.
Qed.

Lemma path_push_app d c : d ≠ [] → ∃ k, path_push d c = d ++ k.
Proof.
  intros. unfold path_push. rewrite decide_False by done.
  destruct (ends_with d _); eauto.
Qed.

Lemma fold_path_push comps d :
  d ≠ [] → Forall (λ c, "/"%byte ∉ c) comps →
  seg_stack (fold_left path_push comps d) = fold_left push_segment comps (seg_stack d)
  ∧ ∃ k, fold_left path_push comps d = d ++ k.
Proof.
  revert d. induction comps as [|c comps IH]; intros d Hd HF; cbn [fold_left].
  - split; [done|]. exists []. by rewrite app_nil_r.
  - apply Forall_cons in HF as [Hc HF]. destruct (path_push_app d c Hd) as [k Hk].
    destruct (IH (path_push d c)) as [IH1 [k' IH2]]; [rewrite Hk; by destruct d|done|].
    rewrite IH1, path_push_stack by done. split; [done|].
    exists (k ++ k'). by rewrite IH2, Hk, <-app_assoc.
Qed.

Lemma fold_components raw out :
  fold_left push_segment (path_components raw) out
  = fold_left push_segment (split_on "/"%byte raw) out.
Proof.
  unfold path_components. generalize (split_on "/"%byte raw) as segs. intros segs.
  revert out. induction segs as [|s segs IH]; intros out; [done|].
  rewrite filter_cons. case_decide as H; cbn [fold_left]; rewrite IH; [done|].
  f_equal. unfold push_segment. rewrite decide_True; [done|].
  destruct (decide (s = [])); [auto|]. destruct (decide (s = bs ".")); [auto|]. tauto.
Qed.

Lemma components_no_sep raw : Forall (λ c, "/"%byte ∉ c) (path_components raw).
Proof.
  apply Forall_forall. intros c [_ Hc]%list_elem_of_filter.
  pose proof (split_on_pieces "/"%byte raw) as H. rewrite Forall_forall in H. by apply H.
Qed.

(** A relative path is resolved as a walk from the current directory. *)

Lemma resolve_relative d raw :
  has_root d = true → has_root raw = false →
  has_root (resolve_against_cwd (Some d) raw) = true ∧
  normalize_segments (resolve_against_cwd (Some d) raw) = walk (normalize_segments d) raw.
Proof.
  intros Hd Hr. assert (Hne : d ≠ []) by (by apply has_root_cons in Hd as [? ->]).
  assert (Hrooted : ∀ k, has_root (d ++ k) = true).
  { intros k. apply has_root_cons in Hd as [t ->]. apply has_root_cons. cbn. eauto. }
  unfold resolve_against_cwd. rewrite Hr. case_decide as E.
  { subst. split; [done|]. unfold walk. cbn [split_on fold_left].
    by rewrite fold_push_nil_seg, reverse_involutive. }
  unfold path_absolute. cbn [mbind option_bind].
  destruct (fold_path_push (path_components raw) d Hne (components_no_sep raw))
    as [H1 [k H2]].
  assert (Hwalk : reverse (seg_stack (fold_left path_push (path_components raw) d))
                  = walk (normalize_segments d) raw).
  { rewrite H1, fold_components. unfold walk, normalize_segments.
    by rewrite reverse_involutive. }
  destruct (ends_with raw (bs "/")).
  - destruct (path_push_app (d ++ k) []) as [k' Hk']; [by destruct d|].
    rewrite H2 in *. split; [by rewrite Hk', <-app_assoc|].
    rewrite <-Hwalk. change (reverse (seg_stack (path_push (d ++ k) []))
                             = reverse (seg_stack (d ++ k))).
    rewrite path_push_stack by (apply not_elem_of_nil || by destruct d).
    by rewrite fold_push_nil_seg.
  - split; [by rewrite H2|]. exact Hwalk.
Qed.

Lemma resolve_has_root d raw :
  has_root d = true → has_root (resolve_against_cwd (Some d) raw) = true.
Proof.
  intros Hd. destruct (has_root raw) eqn:E.
  - unfold resolve_against_cwd. by rewrite E.
  - by apply resolve_relative.
Qed.

(** ** The gates *)

(** The fs side of a permission option, as node reads it: [cwd0] is the
    directory the process started in, [target] the path the op hands the OS,
    resolved against the directory of the moment. *)

Definition fs_option_allows (d0 : list byte) (o : BoolOrList) (resolved : list byte) : Prop :=
  match o with
  | BBool b => b = true
  | BList l =>
      has_root resolved = true ∧
      Exists (λ e, e ≠ [] ∧ covers (resolve_against_cwd (Some d0) e)
                                   (normalize_segments resolved)) l
  end.

#[global] Instance fs_option_allows_dec d0 o resolved :
  Decision (fs_option_allows d0 o resolved).
Proof. unfold fs_option_allows. destruct o; apply _. Defined.

Lemma entry_admits_nil target : entry_admits [] target = false.
Proof. done. Qed.

Lemma entry_admits_unrooted entry target :
  has_root entry = true → root target = [] → entry_admits entry target = false.
Proof.
  intros Hr Ht. unfold entry_admits.
  destruct (split_once "*"%byte (normalize_path entry)) as [[before after]|] eqn:E.
  - apply split_once_Some in E as [E Hs].
    destruct (entry_key_star _ _ _ Hr E Hs) as (ds & start & -> & _ & _ & ->).
    unfold FsGrant_admits. cbn [star key root parts]. by rewrite Ht.
  - apply split_once_None in E. rewrite entry_key_plain by done.
    unfold FsGrant_admits, FsKey_admits. cbn [star key root parts]. by rewrite Ht.
Qed.

Lemma admits_key_list l target :
  admits_key (List l) target = true ↔ Exists (λ e, entry_admits e target = true) l.
Proof.
  rewrite Exists_exists. unfold admits_key. rewrite existsb_exists.
  by setoid_rewrite list_elem_of_In.
Qed.

Lemma allows_fs_path_spec d0 cwd o t :
  has_root d0 = true →
  allows_fs_path cwd (fs_grant (Some d0) o) t = true
  ↔ fs_option_allows d0 o (resolve_against_cwd cwd t).
Proof.
  intros Hd0. unfold fs_grant. destruct o as [[]|l]; cbn [from_bool_or_list]; [done|done|].
  case_decide as Hl.
  { subst. cbn. split; [done|]. intros [_ H]. by apply Exists_nil in H. }
  unfold allows_fs_path, fs_target_key, fs_option_allows. rewrite admits_key_list.
  set (r := resolve_against_cwd cwd t).
  rewrite Exists_fmap, !Exists_exists. unfold compose.
  split.
  - intros (e & He & H). case_decide as E; [by subst|].
    assert (Hr : has_root (resolve_against_cwd (Some d0) e) = true) by by apply resolve_has_root.
    destruct (has_root r) eqn:Hroot.
    2: { by rewrite entry_admits_unrooted in H by auto using posix_key_unrooted. }
    rewrite posix_key_rooted in H by done.
    apply entry_admits_spec in H; eauto using normalize_segments_clean.
  - intros [Hroot (e & He & Hne & H)]. exists e. split; [done|].
    rewrite decide_False, posix_key_rooted by done.
    apply entry_admits_spec; auto using resolve_has_root, normalize_segments_clean.
Qed.

(** The fs gates, both branches: with a permission set built in a
    process started in [d0], reading (writing) the path [t] is granted exactly
    when the option is [true], or it is a list with a non-empty entry whose
    reading from [d0] covers the names [t] resolves to from the current
    directory; otherwise the denial names the scope and the path as given. *)
Lemma fs_gates_spec d0 cwd o t :
  has_root d0 = true →
  let r := resolve_against_cwd cwd t in
  let p := from_opts (Some d0) (Some o) in
  check_read cwd p t =
    (if decide (fs_option_allows d0 (o_read o) r) then Ok tt
     else Err {| permission := "FileSystemRead"; resource := t |}) ∧
  check_write cwd p t =
    (if decide (fs_option_allows d0 (o_write o) r) then Ok tt
     else Err {| permission := "FileSystemWrite"; resource := t |}).
Proof.
  intros Hd0 r p. unfold check_read, check_write, gate. cbn [from_opts read write p].
  split; (case_decide as H; [rewrite (proj2 (allows_fs_path_spec d0 cwd _ t Hd0) H)|]; [done|]).
  all: destruct (allows_fs_path _ _ _) eqn:E; [|done]; destruct H;
    by apply allows_fs_path_spec.
Qed.

(** ** Confinement on a file system without symbolic links

    How the OS walks a path from the directory [stack] (names, newest first):
    every step needs the current place to be a directory ([is_dir]), [.] and
    an empty segment stay, [..] goes up (and stays at the root), and a name
    goes down. *)

Section OsWalk.
Variable is_dir : list (list byte) → bool.

Fixpoint os_steps (segs : list (list byte)) (stack : list (list byte))
  : option (list (list byte)) :=
  match segs with
  | [] => Some stack
  | seg :: segs =>
      if is_dir (reverse stack) then os_steps segs (push_segment stack seg) else None
  end.

(** The place a path names to a process in [cwd]: a rooted one is walked
    from the root. *)

Definition os_open (cwd : list (list byte)) (t : list byte) : option (list (list byte)) :=
  reverse <$> os_steps (split_on "/"%byte t)
                       (if has_root t then [] else reverse cwd).

Lemma os_steps_fold segs stack r :
  os_steps segs stack = Some r → r = fold_left push_segment segs stack.
Proof.
  revert stack. induction segs as [|seg segs IH]; intros stack; cbn.
  - by intros [= ->].
  - destruct (is_dir _); [apply IH|done].
Qed.

Lemma os_open_resolves d t r :
  has_root d = true → os_open (normalize_segments d) t = Some r →
  r = normalize_segments (resolve_against_cwd (Some d) t).
Proof.
  intros Hd. unfold os_open. intros (x & Hx & ->)%fmap_Some.
  apply os_steps_fold in Hx. destruct (has_root t) eqn:Ht.
  - unfold resolve_against_cwd. by rewrite Ht, Hx.
  - rewrite (proj2 (resolve_relative d t Hd Ht)), Hx. done.
Qed.

(** No path escapes a grant: on a file system without symbolic links, when
    a list of entries without [*], as the process started in [d0] reads it,
    covers what [t] resolves to from [d], then wherever the OS walk of [t]
    ends -- through any mix of [.], [..], repeated or trailing separators --
    is below the place one of the entries named at startup, and that place's
    names are resolved ones. *)
Lemma granted_path_is_confined d0 d l t place :
  has_root d0 = true → has_root d = true →
  Forall (λ e, "*"%byte ∉ normalize_path (resolve_against_cwd (Some d0) e)) l →
  fs_option_allows d0 (BList l) (resolve_against_cwd (Some d) t) →
  os_open (normalize_segments d) t = Some place →
  ∃ e below, e ∈ l ∧
    place = normalize_segments (resolve_against_cwd (Some d0) e) ++ below ∧
    Forall clean_name place.
Proof.
  intros Hd0 Hd Hstar Ha Ho. apply os_open_resolves in Ho as ->; [|done].
  destruct Ha as [_ (e & He & _ & Hcov)%Exists_exists].
  rewrite Forall_forall in Hstar. specialize (Hstar e He).
  unfold covers in Hcov. rewrite (proj2 (split_once_None _ _) Hstar) in Hcov.
  destruct Hcov as [below E]. exists e, below. split_and!; [done|done|].
  apply normalize_segments_clean.
Qed.
End OsWalk.

(** ** Pipes *)

Lemma is_all_spec p : is_all p = true ↔ p = All.
Proof. by destruct p. Qed.

(** The pipe gate decides and names one path: with nothing restricted
    the path is used as given; otherwise the gate succeeds exactly when the
    path holds no NUL byte and its resolution against the current directory is
    granted by net (an entry that is exactly this pipe) and by both fs
    grants, and it answers with that resolution. *)
Lemma check_pipe_spec cwd p path r :
  check_pipe cwd p path = Ok r ↔
  (net p = All ∧ read p = All ∧ write p = All ∧ r = path) ∨
  (¬ (net p = All ∧ read p = All ∧ write p = All) ∧ (x00 ∉ path) ∧
   r = resolve_against_cwd cwd path ∧ allows_net_path (net p) r = true ∧
   allows_fs_path cwd (read p) r = true ∧ allows_fs_path cwd (write p) r = true).
Proof.
  unfold check_pipe, is_named_pipe_namespace, contains. cbn [negb andb].
  destruct (decide (net p = All ∧ read p = All ∧ write p = All)) as [(E1 & E2 & E3)|Hr].
  { rewrite E1, E2, E3. cbn. destruct (bool_decide _); split.
    all: try (intros [= <-]; by left).
    all: intros [(_ & _ & _ & ->)|[H _]]; [done|by destruct H]. }
  destruct (bool_decide (x00 ∈ path)) eqn:Enul; bools.
  { destruct (net p), (read p), (write p); split; try discriminate; try tauto.
    all: intros [(? & ? & ? & _)|(_ & ? & _)]; done. }
  assert (is_all (net p) && negb (negb (is_all (read p) && is_all (write p))) = false) as ->.
  { destruct (net p), (read p), (write p); try done; tauto. }
  destruct (allows_net_path _ _) eqn:En; cbn [negb].
  2: { split; [done|]. intros [?|(_ & _ & -> & ? & _)]; [tauto|congruence]. }
  destruct (allows_fs_path cwd (read p) _) eqn:Erd; cbn [negb].
  2: { split; [done|]. intros [?|(_ & _ & -> & _ & ? & _)]; [tauto|congruence]. }
  destruct (allows_fs_path cwd (write p) _) eqn:Ewr; cbn [negb].
  2: { split; [done|]. intros [?|(_ & _ & -> & _ & _ & ?)]; [tauto|congruence]. }
  split; [intros [= <-]; right; by split_and!|].
  intros [?|(_ & _ & -> & _)]; [tauto|done].
Qed.

(** ** The gates on paths *)

(** C1. With a permission set built in a process started in [d0], reading
    (writing) the path [t] is granted exactly when the option is [true], or it
    is a list with a non-empty entry whose reading from [d0] covers the names
    [t] resolves to from the current directory; otherwise the denial names the
    scope and the path as given.  An entry without [*] covers the paths whose
    first names are its own, so never a sibling; one with [*] covers those
    whose text starts with what precedes its first [*], so [/tmp/a*] covers
    [/tmp/abc].  The pipe gate decides and names one path: with nothing
    restricted the path is used as given; otherwise the gate succeeds exactly
    when the path holds no NUL byte and its resolution against the current
    directory is granted by net (an entry that is exactly this pipe) and by
    both fs grants, and it answers with that resolution.
    And when no entry of a list has a [*], no path escapes its grant, read or
    write, on a file system without symbolic links: wherever the OS walk of a
    path the gate grants ends -- through any mix of [.], [..], repeated or
    trailing separators -- is below the place one of the entries named at
    startup, and that place's names are resolved ones. *)
Theorem path_gates_spec d0 cwd o t :
  has_root d0 = true →
  let r := resolve_against_cwd cwd t in
  let p := from_opts (Some d0) (Some o) in
  check_read cwd p t =
    (if decide (fs_option_allows d0 (o_read o) r) then Ok tt
     else Err {| permission := "FileSystemRead"; resource := t |}) ∧
  check_write cwd p t =
    (if decide (fs_option_allows d0 (o_write o) r) then Ok tt
     else Err {| permission := "FileSystemWrite"; resource := t |}) ∧
  (∀ path, check_pipe cwd p t = Ok path ↔
    (net p = All ∧ read p = All ∧ write p = All ∧ path = t) ∨
    (¬ (net p = All ∧ read p = All ∧ write p = All) ∧ (x00 ∉ t) ∧
     path = r ∧ allows_net_path (net p) path = true ∧
     allows_fs_path cwd (read p) path = true ∧ allows_fs_path cwd (write p) path = true)) ∧
  (∀ is_dir d l place, has_root d = true → cwd = Some d →
   o_read o = BList l ∧ check_read cwd p t = Ok tt ∨
   o_write o = BList l ∧ check_write cwd p t = Ok tt →
   Forall (λ e, "*"%byte ∉ normalize_path (resolve_against_cwd (Some d0) e)) l →
   os_open is_dir (normalize_segments d) t = Some place →
   ∃ e below, e ∈ l ∧
     place = normalize_segments (resolve_against_cwd (Some d0) e) ++ below ∧ Forall clean_name place).
Proof.
  intros Hd0 r p. destruct (fs_gates_spec d0 cwd o t Hd0) as [H1 H2].
  split_and!; [done|done|intros path; apply check_pipe_spec|].
  subst p r. intros is_dir d l place Hd -> Hc Hstar Ho. eapply granted_path_is_confined; [done..| |done].
  destruct Hc as [[<- Hc]|[<- Hc]]; [rewrite H1 in Hc|rewrite H2 in Hc]; by case_decide.
Qed.

Lemma path_gates_spec_witness :
  let o l := {| o_read := BList l; o_write := BBool false; o_net := BBool true; o_env := BBool true;
                o_ffi := BBool true; o_child := BBool true; o_worker := BBool true |} in
  let p l := from_opts (Some (bs "/work")) (Some (o l)) in
  has_root (bs "/work") = true ∧
  check_read (Some (bs "/tmp")) (p [bs "box"; bs "/srv*"]) (bs "../work/box/./f") = Ok tt ∧
  check_read None (p [bs "box"; bs "/srv*"]) (bs "/srv-2/x") = Ok tt ∧
  check_read None (p [bs "box"; bs "/srv*"]) (bs "/work/box/../secret")
    = Err {| permission := "FileSystemRead"; resource := bs "/work/box/../secret" |} ∧
  ∃ e below, e ∈ [bs "box"] ∧
    [bs "work"; bs "box"; bs "f"]
      = normalize_segments (resolve_against_cwd (Some (bs "/work")) e) ++ below ∧
    Forall clean_name [bs "work"; bs "box"; bs "f"].
Proof.
  intros o p. subst p o. split; [reflexivity|]. split_and!.
  - rewrite (proj1 (path_gates_spec (bs "/work") _ _ _ eq_refl)). vm_compute. reflexivity.
  - rewrite (proj1 (path_gates_spec (bs "/work") _ _ _ eq_refl)). vm_compute. reflexivity.
  - rewrite (proj1 (path_gates_spec (bs "/work") _ _ _ eq_refl)). vm_compute. reflexivity.
  - pose (o := {| o_read := BList [bs "box"]; o_write := BBool false; o_net := BBool true; o_env := BBool true;
                  o_ffi := BBool true; o_child := BBool true; o_worker := BBool true |}).
    refine (proj2 (proj2 (proj2 (path_gates_spec (bs "/work") (Some (bs "/work/sub")) o (bs "..//box/./f") eq_refl)))
      (λ _, true) (bs "/work/sub") [bs "box"] [bs "work"; bs "box"; bs "f"] eq_refl eq_refl (or_introl (conj eq_refl _)) _ _).
    + vm_compute. reflexivity.
    + apply (bool_decide_unpack _). vm_compute. exact I.
    + vm_compute. reflexivity.
Defined.

(** ** The query API *)

Lemma gate_ok b name res : gate b name res = Ok tt ↔ b = true.
Proof. by destruct b. Qed.

Lemma granted_iff (b : bool) :
  (if b then "granted" else "denied") = "granted" ↔ b = true.
Proof. by destruct b. Qed.

(** [permissions.query] answers as the gates do: for every category a
    scoped query says [granted] exactly when the gate of that category grants
    the same argument; any other name is [denied]. *)
Lemma query_state_agrees cwd p t :
  let q name := query_state cwd p name (Some t) in
  (q "read" = "granted" ↔ check_read cwd p (fs_os_path t) = Ok tt) ∧
  (q "write" = "granted" ↔ check_write cwd p (fs_os_path t) = Ok tt) ∧
  (q "net" = "granted" ↔ check_net p t = Ok tt) ∧
  (q "env" = "granted" ↔ check_env p t = Ok tt) ∧
  (q "child" = "granted" ↔ check_child p t = Ok tt) ∧
  (q "ffi" = "granted" ↔ check_ffi p t = Ok tt) ∧
  (q "worker" = "granted" ↔ check_worker p t = Ok tt) ∧
  (∀ name, name ∉ ["read"; "write"; "net"; "env"; "child"; "ffi"; "worker"] →
           q name = "denied").
Proof.
  intros q. unfold check_read, check_write, check_net, check_env, check_child, check_ffi, check_worker.
  rewrite !gate_ok. split_and!; intros.
  1-7: exact (granted_iff _).
  unfold q, query_state. repeat (rewrite decide_False by set_solver). done.
Qed.
