(* ===== verification/PermissionsNet.v ===== *)
(** * PermissionsNet: what the net grants admit

    The two net matchers -- [allows_net], asked about the text [host:port] by
    the raw sockets, and [allows_net_target], asked about the two halves by
    the HTTP clients -- against one reading of an entry: it is the host
    itself, or the host, [:] and the port's decimal digits. *)

From S2P Require Import Prelude RustStd StdNet Permissions.

(** ** Ports *)

Definition is_u16 (port : Z) : Prop := (0 ≤ port ≤ u16_max)%Z.

Lemma canonical_port_spec text port :
  canonical_port text = Some port ↔ is_u16 port ∧ text = dec_text port.
Proof.
  unfold canonical_port, is_u16. split.
  - destruct (negb _ && _ && _) eqn:E; [|done]. bools. rename H into E1. rename H0 into Hc.
    rewrite parse_uint_digits by done. rewrite bool_decide_eq_true_2 by done. cbn [andb].
    destruct (Z.leb_spec (dec_value text) u16_max) as [Hle|]; [|done]. intros [= <-].
    pose proof (dec_value_nonneg text ltac:(done)). split; [lia|].
    destruct text as [|d l]; [done|]. symmetry. apply dec_text_dec_value; [done|].
    apply orb_true_iff in Hc as [Hc|Hc]; bools.
    + injection Hc as -> ->. by right.
    + left. intros ->. done.
  - intros [Hp ->]. destruct (dec_text_spec port ltac:(lia)) as (Hv & Hd & Hne).
    rewrite Hd, bool_decide_eq_false_2 by done. cbn [negb andb].
    assert (bool_decide (dec_text port = bs "0") || negb (starts_with (dec_text port) (bs "0"))
            = true) as ->.
    { destruct (decide (port = 0%Z)) as [->|Hz]; [done|].
      destruct (dec_text_head port ltac:(lia)) as (d & l & -> & Hd0).
      apply orb_true_iff. right. apply negb_true_iff, not_true_iff_false.
      rewrite starts_with_prefix. intros [k Hk]. by injection Hk. }
    by apply parse_uint_dec_text.
Qed.

(** ** Entries for a plain host *)

(** An entry admits [host] on [port]. *)

Definition net_entry_admits (host : list byte) (port : Z) (entry : list byte) : Prop :=
  entry = host ∨ entry = host ++ bs ":" ++ dec_text port.

#[global] Instance net_entry_admits_dec host port entry :
  Decision (net_entry_admits host port entry).
Proof. unfold net_entry_admits. apply _. Defined.

Lemma existsb_Exists {A} (f : A → bool) (P : A → Prop) l :
  (∀ x, f x = true ↔ P x) → existsb f l = true ↔ Exists P l.
Proof.
  intros H. rewrite existsb_exists, Exists_exists. setoid_rewrite H.
  by setoid_rewrite list_elem_of_In.
Qed.

Lemma allows_net_target_plain l host port :
  is_u16 port → host ≠ [] → "%"%byte ∉ host →
  allows_net_target (List l) host port = true ↔ Exists (net_entry_admits host port) l.
Proof.
  intros Hp Hne Hpct. unfold allows_net_target, contains.
  rewrite decide_False, bool_decide_eq_false_2 by done.
  apply existsb_Exists. intros entry. unfold net_entry_admits.
  rewrite orb_true_iff, bool_decide_eq_true.
  destruct (strip_pre host entry) as [rest|] eqn:E.
  - apply strip_pre_Some in E as ->.
    destruct (strip_pre (bs ":") rest) as [p|] eqn:E2.
    + apply strip_pre_Some in E2 as ->. rewrite bool_decide_eq_true, canonical_port_spec.
      split; [naive_solver|]. intros [?|H]; [auto|]. right.
      split; [done|]. by apply app_inv_head, app_inv_head in H.
    + split; [naive_solver|]. intros [?|H]; [auto|]. right. exfalso.
      apply app_inv_head in H as ->. by rewrite strip_pre_app in E2.
  - split; [naive_solver|]. intros [?|H]; [auto|]. right. exfalso.
    subst entry. by rewrite strip_pre_app in E.
Qed.

(** ** Hosts as a URL spells them *)

(** What the WHATWG parser serializes a host to: a bracketed IPv6 literal, or
    a name or IPv4 address without a colon. *)

Definition url_host (host : list byte) : Prop :=
  ((":"%byte ∉ host) ∧ starts_with host (bs "[") = false) ∨
  (∃ inner, host = bs "[" ++ inner ++ bs "]" ∧ "]"%byte ∉ inner).

Lemma colon_not_in_digits l : forallb is_ascii_digit l = true → ":"%byte ∉ l.
Proof.
  intros H Hin. rewrite forallb_forall in H.
  apply list_elem_of_In in Hin. apply H in Hin. by vm_compute in Hin.
Qed.

Lemma bracketed_host inner s :
  "]"%byte ∉ inner →
  let host := bs "[" ++ inner ++ bs "]" in
  starts_with (host ++ s) (bs "[") = true ∧
  find_byte "]"%byte (host ++ s) = Some (S (length inner)) ∧
  S (S (length inner)) = length host.
Proof.
  intros Hi host. split_and!.
  - apply starts_with_prefix. unfold host. rewrite <-!app_assoc. by eexists.
  - apply find_byte_split. exists (bs "[" ++ inner), s. unfold host.
    rewrite <-!app_assoc. split_and!; [done|done|].
    apply not_elem_of_cons. by split.
  - unfold host. rewrite !length_app. cbn. lia.
Qed.

Lemma host_of_target host port :
  is_u16 port → url_host host → host_of (host ++ bs ":" ++ dec_text port) = host.
Proof.
  intros Hp Hu. destruct (dec_text_spec port) as (Hv & Hd & Hne); [unfold is_u16 in Hp; lia|].
  unfold host_of. destruct Hu as [[Hc Hb]|(inner & -> & Hi)].
  - assert (starts_with (host ++ bs ":" ++ dec_text port) (bs "[") = false) as ->.
    { apply not_true_iff_false. rewrite starts_with_prefix. intros [k Hk].
      destruct host as [|b host]; [done|]. apply not_true_iff_false in Hb. apply Hb.
      apply starts_with_prefix. injection Hk as -> _. by exists host. }
    assert (rsplit_once ":"%byte (host ++ bs ":" ++ dec_text port)
            = Some (host, dec_text port)) as ->.
    { apply rsplit_once_Some. split; [done|by apply colon_not_in_digits]. }
    unfold contains. by rewrite bool_decide_eq_false_2.
  - destruct (bracketed_host inner (bs ":" ++ dec_text port) Hi) as (-> & -> & Hlen).
    rewrite Hlen, drop_app_length, take_app_length, strip_pre_app.
    unfold is_port. rewrite (bool_decide_eq_false_2 (dec_text port = [])), Hd by done.
    rewrite parse_uint_dec_text by done.
    rewrite (bool_decide_eq_true_2 (is_Some (Some port))) by (by eexists).
    by rewrite orb_true_r.
Qed.

Lemma host_of_host host : url_host host → host_of host = host.
Proof.
  unfold host_of. intros [[Hc Hb]|(inner & -> & Hi)].
  - by rewrite Hb, (proj2 (rsplit_once_None _ _) Hc).
  - destruct (bracketed_host inner [] Hi) as (H1 & H2 & Hlen).
    rewrite app_nil_r in H1, H2. rewrite H1, H2, Hlen.
    destruct (_ || _); [|done]. by rewrite take_ge.
Qed.

Lemma allows_net_plain l host port :
  is_u16 port → url_host host → "%"%byte ∉ host →
  allows_net (List l) (host ++ bs ":" ++ dec_text port) = true
  ↔ Exists (net_entry_admits host port) l.
Proof.
  intros Hp Hu Hpct. unfold allows_net, contains.
  assert (Hd : "%"%byte ∉ host ++ bs ":" ++ dec_text port).
  { rewrite !not_elem_of_app. split_and!; [done|set_solver|].
    destruct (dec_text_spec port) as (_ & Hd & _); [unfold is_u16 in Hp; lia|].
    intros Hin%list_elem_of_In. rewrite forallb_forall in Hd. by apply Hd in Hin. }
  rewrite bool_decide_eq_false_2 by done. apply existsb_Exists. intros entry.
  rewrite host_of_target by done. unfold net_entry_admits.
  case_decide as E1; [naive_solver|]. case_decide as E2.
  - rewrite bool_decide_eq_true. naive_solver.
  - split; [done|]. intros [->|?]; [|done]. by rewrite host_of_host in E2.
Qed.

(** ** Addresses with a zone *)

(** An entry admits the address [ip] and zone [z] on [port]: host-only, or
    the same followed by [:] and the port's digits. *)

Definition zoned_entry_grants (ip : list Z) (z : list byte) (port : Z) (entry : list byte)
  : Prop :=
  ∃ entry_zone, parse_zoned entry = Some (ip, entry_zone) ∧
  ((is_port_scoped_zone entry_zone = false ∧ entry_zone = z) ∨
   entry_zone = z ++ bs ":" ++ dec_text port).

Lemma zoned_entry_admits_spec entry ip z port :
  is_u16 port → zoned_entry_admits entry ip z port = true ↔ zoned_entry_grants ip z port entry.
Proof.
  intros Hp. unfold zoned_entry_admits, zoned_entry_grants.
  destruct (parse_zoned entry) as [[eip ez]|]; [|naive_solver].
  destruct (bool_decide (eip = ip)) eqn:Eip; bools; cbn [negb]; [subst eip|naive_solver].
  destruct (dec_text_spec port) as (_ & Hd & Hne); [unfold is_u16 in Hp; lia|].
  assert (Hscoped : is_port_scoped_zone (z ++ bs ":" ++ dec_text port) = true ∧
    rsplit_once ":"%byte (z ++ bs ":" ++ dec_text port) = Some (z, dec_text port)).
  { assert (E : rsplit_once ":"%byte (z ++ bs ":" ++ dec_text port) = Some (z, dec_text port)).
    { apply rsplit_once_Some. split; [done|by apply colon_not_in_digits]. }
    unfold is_port_scoped_zone. rewrite E, Hd, bool_decide_eq_false_2 by done. done. }
  destruct Hscoped as [Hs1 Hs2].
  destruct (rsplit_once ":"%byte ez) as [[head tail]|] eqn:Er.
  - destruct (is_port_scoped_zone ez) eqn:Es.
    + rewrite andb_true_iff, !bool_decide_eq_true, canonical_port_spec. split.
      * intros [-> [_ ->]]. exists ez. split; [done|]. right.
        by apply rsplit_once_Some in Er as [-> _].
      * intros (ez' & [= <-] & [[? _]|E]); [congruence|]. subst ez.
        rewrite Hs2 in Er. by injection Er as <- <-.
    + rewrite bool_decide_eq_true. split.
      * intros ->. exists z. auto.
      * intros (ez' & [= <-] & [[_ ?]|E]); [done|]. subst ez. congruence.
  - rewrite bool_decide_eq_true. unfold is_port_scoped_zone. split.
    + intros ->. exists z. rewrite Er. auto.
    + intros (ez' & [= <-] & [[_ ?]|E]); [done|]. subst ez. congruence.
Qed.

(** ** The two matchers agree *)

(** Every host a connection is checked as: a URL host, or an address with a
    zone ([fe80::1%1]). *)

Definition net_host (host : list byte) : Prop :=
  host ≠ [] ∧ (url_host host ∨ "%"%byte ∈ host).

(** What a list of entries admits for it. *)

Definition net_list_admits (l : list (list byte)) (host : list byte) (port : Z) : Prop :=
  if decide ("%"%byte ∈ host) then
    ∃ ip z, parse_zoned host = Some (ip, z) ∧ Exists (zoned_entry_grants ip z port) l
  else Exists (net_entry_admits host port) l.

Lemma allows_net_target_list l host port :
  is_u16 port → host ≠ [] →
  allows_net_target (List l) host port = true ↔ net_list_admits l host port.
Proof.
  intros Hp Hne. unfold net_list_admits. case_decide as Hz.
  - unfold allows_net_target, contains.
    rewrite decide_False, bool_decide_eq_true_2 by done.
    destruct (parse_zoned host) as [[ip z]|] eqn:E; [|naive_solver].
    rewrite (existsb_Exists _ (zoned_entry_grants ip z port))
      by (intros; by apply zoned_entry_admits_spec).
    naive_solver.
  - by apply allows_net_target_plain.
Qed.

(** C2. One grant, one reading.  Take a host as connections are checked as it --
    one the URL parser gives, so without a colon or in brackets, or an address
    with a zone -- and any port.  Then the raw sockets' matcher on the text
    [host:port] and the HTTP clients' matcher on the two halves give the same
    verdict, and it is the reading of the entries: exactly the host (any
    port), or exactly the host with that port in decimal -- never a prefix, a
    subdomain or another port; an address with a zone is compared as address
    and zone.  A bare IPv6 address such as [::1] is not such a host: see
    [bare_ipv6_differs]. *)
Theorem net_matchers_agree l host port :
  is_u16 port → net_host host →
  allows_net (List l) (host ++ bs ":" ++ dec_text port) = allows_net_target (List l) host port ∧
  (allows_net_target (List l) host port = true ↔ net_list_admits l host port).
Proof.
  intros Hp [Hne Hu]. split; [|by apply allows_net_target_list].
  destruct (decide ("%"%byte ∈ host)) as [Hz|Hz].
  - unfold allows_net at 1, contains.
    rewrite bool_decide_eq_true_2 by (rewrite elem_of_app; auto).
    destruct (dec_text_spec port) as (_ & Hd & _); [unfold is_u16 in Hp; lia|].
    assert (rsplit_once ":"%byte (host ++ bs ":" ++ dec_text port)
            = Some (host, dec_text port)) as ->.
    { apply rsplit_once_Some. split; [done|by apply colon_not_in_digits]. }
    cbn [mbind option_bind]. by rewrite (proj2 (canonical_port_spec _ port)).
  - destruct Hu as [Hu|]; [|done]. apply eq_true_iff_eq.
    by rewrite allows_net_plain, allows_net_target_plain.
Qed.

Lemma net_matchers_agree_witness :
  (is_u16 8080 ∧ net_host (bs "[::1]")) ∧
  allows_net (List [bs "a.example"; bs "[::1]:8080"]) (bs "[::1]:8080") = true ∧
  allows_net (List [bs "api.github.com"]) (bs "api.github.com.attacker.net:443") = false ∧
  allows_net (List [bs "fe80::1%1:8080"]) (bs "fe80:0::1%1:8080") = true.
Proof.
  assert (H : is_u16 8080 ∧ net_host (bs "[::1]")).
  { split; [unfold is_u16, u16_max; lia|]. split; [done|]. left. right. exists (bs "::1").
    split; [done|]. apply (bool_decide_unpack _). vm_compute. exact I. }
  split; [exact H|]. split_and!.
  - change (bs "[::1]:8080") with (bs "[::1]" ++ bs ":" ++ dec_text 8080) at 2.
    rewrite (proj1 (net_matchers_agree _ _ _ (proj1 H) (proj2 H))). reflexivity.
  - reflexivity.
  - vm_compute. reflexivity.
Defined.

(** A blank list item ([--allow-net=a.example,]) and the empty host: the
    halves matcher refuses it whatever the list, the text matcher reads
    [:80] as the empty host and finds the blank entry. *)

Lemma blank_entry_and_empty_host :
  allows_net_target (List [bs "a.example"; []]) [] 80 = false ∧
  allows_net (List [bs "a.example"; []]) (bs ":80") = true.
Proof. split; reflexivity. Qed.

(** A bare IPv6 address is no [net_host]: joined with a port by [:], as a
    socket's check does, it reads as another address, and no entry that is the
    address admits it, while the matcher on the two halves knows it. *)

Lemma bare_ipv6_differs :
  allows_net_target (List [bs "::1"]) (bs "::1") 80 = true ∧
  allows_net (List [bs "::1"; bs "[::1]"]) (bs "::1:80") = false.
Proof. split; vm_compute; reflexivity. Qed.
