(* ===== verification/HttpHead.v ===== *)
(** * HttpHead: the request-head rules of [oam_core/src/http_head.rs]

    node's rules for an inbound HTTP/1 request head, on top of hyper's parser:
    the size count, the request target's form, the framing rules for
    [Content-Length] and [Transfer-Encoding], and bare LF line endings.  The
    head is the bytes hyper parsed.  The process-wide limits
    ([set_max_http_header_size], [set_insecure_http_parser]) are the two
    fields of [Process]. *)

From S2P Require Import Prelude RustStd.

Local Open Scope Z_scope.

(** ** Data *)

Definition DEFAULT_MAX_HEADER_SIZE : Z := 16 * 1024.
Definition DEFAULT_MAX_HEADERS_COUNT : Z := 1000.
Definition HEADER_BATCH : Z := 32.

Record HeadPolicy : Type := {
  max_header_size : Z;
  lenient : bool;
  max_headers_count : Z
}.

Inductive HeadError : Type :=
| BadRequest (rule : string)
| HeaderOverflow.

#[global] Instance HeadError_eq_dec : EqDecision HeadError.
Proof. solve_decision. Defined.

Definition status (e : HeadError) : Z :=
  match e with
  | BadRequest _ => 400
  | HeaderOverflow => 431
  end.

(** ** The process-wide settings *)

Record Process : Type := { MAX_HEADER_SIZE : Z; INSECURE_PARSER : bool }.

Definition Process_initial : Process :=
  {| MAX_HEADER_SIZE := DEFAULT_MAX_HEADER_SIZE; INSECURE_PARSER := false |}.

Definition set_max_http_header_size (limit : Z) (p : Process) : Process :=
  {| MAX_HEADER_SIZE := limit; INSECURE_PARSER := INSECURE_PARSER p |}.

Definition max_http_header_size (p : Process) : Z := MAX_HEADER_SIZE p.

Definition set_insecure_http_parser (on : bool) (p : Process) : Process :=
  {| MAX_HEADER_SIZE := MAX_HEADER_SIZE p; INSECURE_PARSER := on |}.

Definition insecure_http_parser (p : Process) : bool := INSECURE_PARSER p.

Definition process_default (p : Process) : HeadPolicy :=
  {| max_header_size := max_http_header_size p;
     lenient := insecure_http_parser p;
     max_headers_count := DEFAULT_MAX_HEADERS_COUNT |}.

(** ** The [--max-http-header-size] flag *)

(** The digit loop: [None] for the early return on overflow. *)

Fixpoint flag_digits (value : Z) (l : list byte) : option Z :=
  match l with
  | [] => Some value
  | b :: t =>
      if negb (is_ascii_digit b) then Some value
      else
        let next := value * 10 + digit_value b in
        if (u64_max <? value * 10) || (u64_max <? next) then None
        else flag_digits next t
  end.

Definition parse_max_header_size_flag (raw : list byte) : Z :=
  let s := trim_start raw in
  let '(negative, digits) :=
    match s with
    | "-"%byte :: t => (true, t)
    | "+"%byte :: t => (false, t)
    | _ => (false, s)
    end in
  match flag_digits 0 digits with
  | None => u64_max
  | Some value => if (negative : bool) then wrap_u 64 (- value) else value
  end.

(** ** The policy's derived limits ([usize] is 64 bits wide) *)

Definition saturating (max z : Z) : Z := Z.min z max.

Definition read_buffer_limit (self : HeadPolicy) : Z :=
  let FLOOR := 64 * 1024 in
  Z.max (saturating u64_max (max_header_size self * 4)) FLOOR.

Definition max_parsed_headers (self : HeadPolicy) : Z :=
  read_buffer_limit self / 4 + HEADER_BATCH.

Definition header_field_limit (self : HeadPolicy) (sent : Z) : option Z :=
  if max_headers_count self =? 0 then None
  else
    let cap := max_headers_count self in
    if cap <? sent then Some cap else None.

(** ** Lines and values *)

Definition CRLF : list byte := [x0d; x0a].
Definition LF : list byte := [x0a].

Definition strip_eol (line : list byte) : list byte :=
  let line := match strip_suf LF line with Some l => l | None => line end in
  match strip_suf [x0d] line with Some l => l | None => line end.

Definition is_ows (b : byte) : bool := bool_decide (b = " "%byte) || bool_decide (b = x09).

Definition trim_leading_ows (v : list byte) : list byte :=
  match position (λ b, negb (is_ows b)) v with
  | Some start => drop start v
  | None => drop (length v) v
  end.

Definition trim_ows (v : list byte) : list byte :=
  let v := trim_leading_ows v in
  match rposition (λ b, negb (is_ows b)) v with
  | Some i => take (S i) v
  | None => take 0 v
  end.

(** [str::from_utf8] of a slice of ASCII digits always succeeds. *)

Definition is_content_length (v : list byte) : bool :=
  let v := trim_ows v in
  negb (bool_decide (v = [])) && forallb is_ascii_digit v
  && bool_decide (is_Some (parse_uint u64_max v)).

Definition is_request_target (target : list byte) : bool :=
  match target with
  | [] => false
  | b :: _ =>
      if bool_decide (b = "/"%byte) || bool_decide (b = "*"%byte) then true
      else if is_ascii_alphabetic b then
        let scheme := match position (λ b, negb (is_ascii_alphabetic b)) target with
                      | Some n => n
                      | None => length target
                      end in
        match strip_pre (bs "://") (drop scheme target) with
        | None => false
        | Some rest =>
            let authority :=
              match position (λ b, bool_decide (b = "/"%byte) || bool_decide (b = "?"%byte)) rest with
              | Some n => n
              | None => length rest
              end in
            negb (contains (take authority rest) "#"%byte)
        end
      else false
  end.

Definition split_request_line (line : list byte) : list byte * list byte :=
  let text := strip_eol line in
  match find_byte " "%byte text, rfind_byte " "%byte text with
  | Some first, Some last =>
      if decide (first < last)%nat
      then (take first text, drop (S first) (take last text))
      else (take first text, [])
  | Some first, None => (take first text, [])
  | None, _ => (text, [])
  end.

Definition is_blank_line (l : list byte) : bool :=
  bool_decide (l = CRLF) || bool_decide (l = LF).

Definition request_target (head : list byte) : option (list byte) :=
  request_line ← List.find (λ l, negb (is_blank_line l)) (split_inclusive x0a head);
  let '(_, target) := split_request_line request_line in
  if decide (target = []) then None else Some target.

(** ** [check_request_head] *)

Definition bare_lf (line : list byte) : bool := ends_with line LF && negb (ends_with line CRLF).

(** [add]: the running count, refused as soon as it reaches the limit. *)

Definition add (limit count n : Z) : result HeadError Z :=
  let count := saturating u64_max (count + n) in
  if limit <=? count then Err HeaderOverflow else Ok count.

(** The loop's variables. *)

Record Scan : Type := {
  count : Z;
  content_lengths : Z;
  transfer_encoding : bool;
  chunked : bool
}.

Definition parse_field (line : list byte) : list byte * list byte :=
  let text := strip_eol line in
  let colon := match find_byte ":"%byte text with Some n => n | None => 0%nat end in
  (take colon text, trim_leading_ows (drop (S colon) text)).

(** The loop over the codings of one [Transfer-Encoding] value. *)

Fixpoint scan_codings (strict chunked : bool) (codings : list (list byte))
  : result HeadError bool :=
  match codings with
  | [] => Ok chunked
  | coding :: rest =>
      if decide (coding = []) then scan_codings strict chunked rest
      else if strict && chunked then Err (BadRequest "Transfer-Encoding after chunked")
      else scan_codings strict (eq_ignore_ascii_case coding (bs "chunked")) rest
  end.

(** The body of the loop over header lines. *)

Definition header_line (strict : bool) (limit : Z) (st : Scan) (line : list byte)
  : result HeadError Scan :=
  let '(name, value) := parse_field line in
  c ← add limit (count st) (Z.of_nat (length name));
  c ← add limit c (Z.of_nat (length value));
  if strict && bare_lf line then Err (BadRequest "bare LF line ending")
  else if eq_ignore_ascii_case name (bs "content-length") then
    let n := content_lengths st + 1 in
    if 1 <? n then Err (BadRequest "duplicate Content-Length")
    else if strict && transfer_encoding st
    then Err (BadRequest "Content-Length with Transfer-Encoding")
    else if negb (is_content_length value) then Err (BadRequest "invalid Content-Length")
    else Ok {| count := c; content_lengths := n;
               transfer_encoding := transfer_encoding st; chunked := chunked st |}
  else if eq_ignore_ascii_case name (bs "transfer-encoding") then
    if decide (trim_ows value = [])
    then Ok {| count := c; content_lengths := content_lengths st;
               transfer_encoding := transfer_encoding st; chunked := chunked st |}
    else if strict && (0 <? content_lengths st)
    then Err (BadRequest "Transfer-Encoding with Content-Length")
    else
      ch ← scan_codings strict (chunked st) (trim_ows <$> split_on ","%byte value);
      Ok {| count := c; content_lengths := content_lengths st;
            transfer_encoding := true; chunked := ch |}
  else Ok {| count := c; content_lengths := content_lengths st;
             transfer_encoding := transfer_encoding st; chunked := chunked st |}.

Fixpoint header_lines (strict : bool) (limit : Z) (st : Scan) (lines : list (list byte))
  : result HeadError Scan :=
  match lines with
  | [] => Ok st
  | line :: rest =>
      if is_blank_line line then
        if strict && bare_lf line then Err (BadRequest "bare LF line ending") else Ok st
      else
        st ← header_line strict limit st line;
        header_lines strict limit st rest
  end.

(** [while lines.peek() is an empty line { lines.next() }]. *)

Fixpoint skip_blank (lines : list (list byte)) : list (list byte) :=
  match lines with
  | line :: rest => if is_blank_line line then skip_blank rest else lines
  | [] => []
  end.

Definition check_request_head (head : list byte) (policy : HeadPolicy)
  : result HeadError unit :=
  let limit := max_header_size policy in
  let strict := negb (lenient policy) in
  match skip_blank (split_inclusive x0a head) with
  | [] => Ok tt
  | request_line :: lines =>
      let '(method, target) := split_request_line request_line in
      c ← add limit 0 (Z.of_nat (length target));
      if negb (bool_decide (method = bs "CONNECT")) && negb (is_request_target target)
      then Err (BadRequest "request target form")
      else if strict && bare_lf request_line then Err (BadRequest "bare LF line ending")
      else
        st ← header_lines strict limit
               {| count := c; content_lengths := 0; transfer_encoding := false;
                  chunked := false |} lines;
        if transfer_encoding st && negb (chunked st)
        then Err (BadRequest "Transfer-Encoding not ending in chunked")
        else Ok tt
  end.

(** ** Upgrades and header values *)

(** One header of [is_upgrade]'s loop. *)

Definition upgrade_step (acc : bool * bool) (header : list byte * list byte) : bool * bool :=
  let '(upgrade, connection_upgrade) := acc in
  let '(name, value) := header in
  if eq_ignore_ascii_case name (bs "upgrade") then (true, connection_upgrade)
  else if eq_ignore_ascii_case name (bs "connection") then
    (upgrade, connection_upgrade
              || existsb (λ token, eq_ignore_ascii_case (trim_ows token) (bs "upgrade"))
                         (split_on ","%byte value))
  else (upgrade, connection_upgrade).

Definition is_upgrade (headers : list (list byte * list byte)) : bool :=
  let '(upgrade, connection_upgrade) := fold_left upgrade_step headers (false, false) in
  upgrade && connection_upgrade.

(** A JS string as its code points; [latin1_bytes] is one byte for each. *)

Definition latin1_byte (c : Z) : option byte :=
  if decide (0 <= c < 256) then Some (z2b c) else None.

Definition latin1_bytes (text : list Z) : option (list byte) := mapM latin1_byte text.

Section HeaderValue.
(** [http::HeaderValue::from_bytes]. *)
Variable HeaderValue : Type.
Variable from_bytes : list byte → option HeaderValue.

Definition latin1_header_value (text : list Z) : option HeaderValue :=
  if forallb (λ c, c <? 128) text then from_bytes (z2b <$> text)
  else b ← latin1_bytes text; from_bytes b.
End HeaderValue.

(** ** [parse_request_head] *)

Record ParsedHead : Type := {
  ph_method : list byte;
  ph_target : list byte;
  http10 : bool;
  ph_headers : list (list byte * list byte)
}.

(** What [httparse::Request::parse] answers, with room for [max_headers]
    fields. *)

Record HttparseRequest : Type := {
  hp_method : option (list byte);
  hp_path : option (list byte);
  hp_version : option Z;
  hp_headers : list (list byte * list byte)
}.

Inductive HttparseResult : Type :=
| Complete (len : nat) (req : HttparseRequest)
| Partial
| TooManyHeaders
| Malformed.

Section ParseRequestHead.
Variable httparse_parse : nat → list byte → HttparseResult.

Definition MAX_HEADERS : nat := 100.

Definition parse_request_head (head : list byte) (policy : HeadPolicy)
  : result HeadError ParsedHead :=
  match httparse_parse MAX_HEADERS head with
  | Complete len req =>
      if decide (len = length head) then
        _ ← check_request_head head policy;
        Ok {| ph_method := default [] (hp_method req);
              ph_target := default [] (hp_path req);
              http10 := bool_decide (hp_version req = Some 0);
              ph_headers := (λ h, (h.1, from_utf8_lossy h.2)) <$> hp_headers req |}
      else Err (BadRequest "bytes after the head")
  | Partial => Err (BadRequest "incomplete head")
  | TooManyHeaders => Err HeaderOverflow
  | Malformed => Err (BadRequest "malformed head")
  end.
End ParseRequestHead.
