(* ===== verification/HttpHeadSpec.v ===== *)
(** * HttpHeadSpec: which heads [check_request_head] accepts

    A declarative reading of the head -- its header block as a list of fields
    -- the rules as conditions on it, and the theorem that the one-pass scan
    accepts exactly the heads that meet them; then what that means for a
    request body's framing, and the limits derived from a policy. *)

From S2P Require Import Prelude RustStd HttpHead.

Local Open Scope Z_scope.

(** ** Heads of the repository's own tests *)

Definition head_of (lines : list string) : list byte :=
  concat ((λ l, bs l ++ CRLF) <$> lines) ++ CRLF.

Definition strict_policy : HeadPolicy := process_default Process_initial.
Definition lenient_policy : HeadPolicy :=
  process_default (set_insecure_http_parser true Process_initial).

Example plain_get : check_request_head (head_of ["GET / HTTP/1.1"; "Host: a"]) strict_policy = Ok tt.
Proof. vm_compute. reflexivity. Qed.
Example cl_and_te :
  check_request_head
    (head_of ["POST / HTTP/1.1"; "Content-Length: 3"; "Transfer-Encoding: chunked"]) strict_policy
  = Err (BadRequest "Transfer-Encoding with Content-Length").
Proof. vm_compute. reflexivity. Qed.
Example two_cl_lenient :
  check_request_head
    (head_of ["POST / HTTP/1.1"; "Content-Length: 3"; "Content-Length: 3"]) lenient_policy
  = Err (BadRequest "duplicate Content-Length").
Proof. vm_compute. reflexivity. Qed.
Example gzip_then_chunked :
  check_request_head
    (head_of ["POST / HTTP/1.1"; "Transfer-Encoding: gzip, chunked"]) strict_policy = Ok tt.
Proof. vm_compute. reflexivity. Qed.
Example authority_form :
  check_request_head (head_of ["GET host:443 HTTP/1.1"]) strict_policy
  = Err (BadRequest "request target form").
Proof. vm_compute. reflexivity. Qed.

(** ** The header block *)

Definition field : Type := list byte * list byte.

Definition is_cl (f : field) : bool := eq_ignore_ascii_case f.1 (bs "content-length").

(** A [Transfer-Encoding] with an empty value does not count. *)

Definition is_te (f : field) : bool :=
  eq_ignore_ascii_case f.1 (bs "transfer-encoding") && negb (bool_decide (trim_ows f.2 = [])).

Definition field_size (f : field) : Z := Z.of_nat (length f.1) + Z.of_nat (length f.2).

Definition is_chunked (coding : list byte) : bool := eq_ignore_ascii_case coding (bs "chunked").

Definition codings_of (f : field) : list (list byte) :=
  filter (λ c, c ≠ []) (trim_ows <$> split_on ","%byte f.2).

(** The lines up to the empty one, and that one. *)

Fixpoint block (lines : list (list byte)) : list (list byte) :=
  match lines with
  | [] => []
  | l :: rest => if is_blank_line l then [] else l :: block rest
  end.

Fixpoint terminator (lines : list (list byte)) : list (list byte) :=
  match lines with
  | [] => []
  | l :: rest => if is_blank_line l then [l] else terminator rest
  end.

Definition fields (lines : list (list byte)) : list field := parse_field <$> block lines.

Definition cls (fs : list field) : list field := filter (λ f, is_cl f = true) fs.
Definition tes (fs : list field) : list field := filter (λ f, is_te f = true) fs.
Definition codings (fs : list field) : list (list byte) := concat (codings_of <$> tes fs).

Definition sum_list_Z (l : list Z) : Z := fold_right Z.add 0 l.
Definition size (fs : list field) : Z := sum_list_Z (field_size <$> fs).

(** The rules a header block must meet. *)

Record block_ok (strict : bool) (limit start : Z) (ls : list (list byte)) : Prop := {
  ok_size : start + size (parse_field <$> ls) < limit;
  ok_lf : strict = true → Forall (λ l, bare_lf l = false) ls;
  ok_one_cl : (length (cls (parse_field <$> ls)) ≤ 1)%nat;
  ok_cl : Forall (λ f, is_content_length f.2 = true) (cls (parse_field <$> ls));
  ok_cl_te : strict = true → cls (parse_field <$> ls) = [] ∨ tes (parse_field <$> ls) = [];
  ok_codings : strict = true →
    Forall (λ c, is_chunked c = false) (removelast (codings (parse_field <$> ls)))
}.

(** The scan's variables after a block. *)

Definition last_chunked (ch : bool) (cs : list (list byte)) : bool :=
  match last cs with
  | Some c => is_chunked c
  | None => ch
  end.

Definition scan_of (start : Z) (fs : list field) : Scan :=
  {| count := start + size fs;
     content_lengths := Z.of_nat (length (cls fs));
     transfer_encoding := negb (bool_decide (tes fs = []));
     chunked := last_chunked false (codings fs) |}.

(** ** Appending one field *)

Lemma size_cons f fs : size (f :: fs) = field_size f + size fs.
Proof. done. Qed.

Lemma size_snoc fs f : size (fs ++ [f]) = size fs + field_size f.
Proof.
  induction fs as [|g fs IH]; cbn [app]; rewrite ?size_cons, ?IH; [|lia].
  change (size []) with 0. lia.
Qed.

Lemma size_nonneg fs : 0 ≤ size fs.
Proof.
  induction fs as [|g fs IH]; rewrite ?size_cons; [done|]. unfold field_size. lia.
Qed.

Lemma cls_snoc fs f : cls (fs ++ [f]) = cls fs ++ (if is_cl f then [f] else []).
Proof. unfold cls. rewrite filter_app. f_equal. cbn. by destruct (is_cl f). Qed.

Lemma tes_snoc fs f : tes (fs ++ [f]) = tes fs ++ (if is_te f then [f] else []).
Proof. unfold tes. rewrite filter_app. f_equal. cbn. by destruct (is_te f). Qed.

Lemma codings_snoc fs f :
  codings (fs ++ [f]) = codings fs ++ (if is_te f then codings_of f else []).
Proof.
  unfold codings. rewrite tes_snoc, fmap_app, concat_app.
  destruct (is_te f); cbn; by rewrite ?app_nil_r.
Qed.

(** ** The codings of one value *)

Lemma removelast_snoc {A} (l : list A) x : removelast (l ++ [x]) = l.
Proof. apply removelast_last. Qed.

Lemma removelast_app_cons {A} (l : list A) x k :
  removelast (l ++ x :: k) = l ++ removelast (x :: k).
Proof. by apply removelast_app. Qed.

Lemma scan_codings_spec strict ch cs r :
  scan_codings strict ch cs = Ok r ↔
  let ne := filter (λ c, c ≠ []) cs in
  r = last_chunked ch ne ∧
  (strict = true → ne ≠ [] → ch = false ∧ Forall (λ c, is_chunked c = false) (removelast ne)).
Proof.
  cbv zeta. revert ch. induction cs as [|c cs IH]; intros ch.
  { cbn. split; [intros [= ->]; split; [done|by intros]|by intros [-> _]]. }
  cbn [scan_codings]. rewrite filter_cons.
  destruct (decide (c = [])) as [->|Hc].
  { rewrite decide_False by tauto. apply IH. }
  rewrite decide_True by done. fold (is_chunked c).
  destruct (strict && ch) eqn:E.
  { bools. subst. split; [done|]. intros [_ H]. destruct (H eq_refl) as [? _]; done. }
  rewrite IH. unfold last_chunked. rewrite last_cons.
  destruct (filter (λ c, c ≠ []) cs) as [|c' ne] eqn:Ef.
  - cbn. split.
    + intros [-> H]. split; [done|]. intros -> _. cbn in E. auto.
    + intros [-> H]. split; [done|]. done.
  - destruct (last (c' :: ne)) as [x|] eqn:El; [|by apply last_None in El].
    cbn [removelast]. split.
    + intros [-> H]. split; [done|]. intros -> _. cbn in E.
      destruct (H eq_refl ltac:(done)) as [H1 H2]. split; [done|]. by constructor.
    + intros [-> H]. split; [done|]. intros -> _.
      destruct (H eq_refl ltac:(done)) as [H1 H2]. by apply Forall_cons in H2.
Qed.

(** ** One step of the scan *)

Lemma add_spec limit c n c' :
  limit ≤ u64_max → add limit c n = Ok c' ↔ c' = c + n ∧ c + n < limit.
Proof.
  intros Hl. unfold add, saturating. destruct (Z.leb_spec limit (Z.min (c + n) u64_max)).
  - split; [done|lia].
  - split; [intros [= <-]; lia|intros [-> ?]; f_equal; lia].
Qed.

Lemma cl_not_te f : is_cl f = true → eq_ignore_ascii_case f.1 (bs "transfer-encoding") = false.
Proof.
  unfold is_cl, eq_ignore_ascii_case. intros H. bools.
  apply bool_decide_eq_false. rewrite H. by vm_compute.
Qed.

Lemma last_chunked_app ch cs cs' :
  last_chunked ch (cs ++ cs') = last_chunked (last_chunked ch cs) cs'.
Proof.
  unfold last_chunked. rewrite last_app. by destruct (last cs').
Qed.

Lemma last_chunked_no cs :
  Forall (λ c, is_chunked c = false) (removelast cs) →
  last_chunked false cs = false ↔ Forall (λ c, is_chunked c = false) cs.
Proof.
  destruct cs as [|c cs _] using rev_ind; [done|]. rewrite removelast_snoc. intros H.
  unfold last_chunked. rewrite last_snoc, Forall_app, Forall_singleton. tauto.
Qed.

Lemma codings_step strict cs f r :
  (strict = true → Forall (λ c, is_chunked c = false) (removelast cs)) →
  scan_codings strict (last_chunked false cs) (trim_ows <$> split_on ","%byte f.2) = Ok r ↔
  r = last_chunked false (cs ++ codings_of f) ∧
  (strict = true → Forall (λ c, is_chunked c = false) (removelast (cs ++ codings_of f))).
Proof.
  intros Hcs. rewrite scan_codings_spec. cbv zeta. fold (codings_of f).
  rewrite last_chunked_app.
  destruct (codings_of f) as [|c ne] eqn:E.
  - rewrite app_nil_r. split; intros [-> _]; (split; [done|]); auto. done.
  - rewrite removelast_app_cons. split; intros [-> H]; (split; [done|]).
    + intros Hs. destruct (H Hs) as [H1 H2]; [done|].
      apply Forall_app. split; [|done]. by apply last_chunked_no; auto.
    + intros Hs _. specialize (H Hs). apply Forall_app in H as [H1 H2].
      split; [|done]. apply last_chunked_no; auto.
Qed.

Section Step.
Variables (strict : bool) (limit start : Z) (ls : list (list byte)) (l : list byte).
Hypothesis limit_u64 : limit ≤ u64_max.
Hypothesis so_far : block_ok strict limit start ls.

Let fs := parse_field <$> ls.
Let f := parse_field l.

(** The rules the next line must meet. *)

Definition line_ok : Prop :=
  start + size fs + field_size f < limit ∧
  (strict = true → bare_lf l = false) ∧
  (is_cl f = true → cls fs = [] ∧ (strict = true → tes fs = []) ∧
                    is_content_length f.2 = true) ∧
  (is_te f = true → (strict = true → cls fs = []) ∧
     (strict = true →
      Forall (λ c, is_chunked c = false) (removelast (codings fs ++ codings_of f)))).

Lemma block_ok_snoc : block_ok strict limit start (ls ++ [l]) ↔ line_ok.
Proof.
  destruct so_far as [H1 H2 H3 H4 H5 H6]. fold fs in H1, H3, H4, H5, H6. split.
  - intros [K1 K2 K3 K4 K5 K6]. rewrite fmap_app in *. fold fs in K1, K3, K4, K5, K6.
    change (parse_field <$> [l]) with [f] in *.
    rewrite size_snoc in K1. rewrite cls_snoc in *. rewrite tes_snoc in K5.
    rewrite codings_snoc in K6. unfold line_ok. split_and!; [lia|..].
    + intros Hs. specialize (K2 Hs). apply Forall_app in K2 as [_ K2].
      by apply Forall_cons in K2 as [K2 _].
    + intros Hcl. rewrite Hcl in *. rewrite length_app in K3. cbn in K3.
      split_and!; [apply nil_length_inv; lia| |].
      * intros Hs. destruct (K5 Hs) as [K|K]; [by apply app_eq_nil in K as [_ ?]|].
        by apply app_eq_nil in K as [? _].
      * apply Forall_app in K4 as [_ K4]. by apply Forall_cons in K4 as [K4 _].
    + intros Hte. rewrite Hte in *. split; [|done].
      intros Hs. destruct (K5 Hs) as [K|K]; [by apply app_eq_nil in K as [? _]|].
      by apply app_eq_nil in K as [_ ?].
  - intros (K1 & K2 & K3 & K4).
    split; rewrite ?fmap_app; fold fs; change (parse_field <$> [l]) with [f].
    + rewrite size_snoc. lia.
    + intros Hs. apply Forall_app. split; [auto|]. constructor; [auto|done].
    + rewrite cls_snoc. destruct (is_cl f) eqn:Hcl; [|by rewrite app_nil_r].
      by rewrite (proj1 (K3 eq_refl)).
    + rewrite cls_snoc. destruct (is_cl f) eqn:Hcl; [|by rewrite app_nil_r].
      apply Forall_app. split; [done|]. constructor; [|done]. apply (K3 eq_refl).
    + intros Hs. rewrite cls_snoc, tes_snoc.
      destruct (is_cl f) eqn:Hcl, (is_te f) eqn:Hte; rewrite ?app_nil_r.
      * unfold is_te in Hte. by rewrite cl_not_te in Hte.
      * right. by apply (K3 eq_refl).
      * left. by apply (K4 eq_refl).
      * auto.
    + intros Hs. rewrite codings_snoc. destruct (is_te f) eqn:Hte; rewrite ?app_nil_r; [|auto].
      by apply (K4 eq_refl).
Qed.

(** The count of the field, and the two framing branches. *)

Lemma count_field (k : Z → result HeadError Scan) st' :
  (c ← add limit (start + size fs) (Z.of_nat (length f.1));
   c ← add limit c (Z.of_nat (length f.2)); k c) = Ok st' ↔
  start + size fs + field_size f < limit ∧ k (start + size (fs ++ [f])) = Ok st'.
Proof.
  rewrite bind_Ok. setoid_rewrite bind_Ok. setoid_rewrite add_spec; [|done..].
  assert (start + size (fs ++ [f]) =
          start + size fs + Z.of_nat (length f.1) + Z.of_nat (length f.2)) as ->.
  { rewrite size_snoc. unfold field_size. lia. }
  unfold field_size. split.
  - intros (c1 & [-> ?] & c & [-> ?] & ?). split; [lia|done].
  - intros [? ?]. eexists. split; [split; [done|lia]|]. eexists. split; [split; [done|lia]|done].
Qed.

Definition after (c : Z) : Scan :=
  {| count := c; content_lengths := content_lengths (scan_of start (fs ++ [f]));
     transfer_encoding := transfer_encoding (scan_of start (fs ++ [f]));
     chunked := chunked (scan_of start (fs ++ [f])) |}.

Lemma cl_branch c st' :
  is_cl f = true →
  (if 1 <? Z.of_nat (length (cls fs)) + 1 then Err (BadRequest "duplicate Content-Length")
   else if strict && negb (bool_decide (tes fs = []))
   then Err (BadRequest "Content-Length with Transfer-Encoding")
   else if negb (is_content_length f.2) then Err (BadRequest "invalid Content-Length")
   else Ok {| count := c; content_lengths := Z.of_nat (length (cls fs)) + 1;
              transfer_encoding := negb (bool_decide (tes fs = []));
              chunked := last_chunked false (codings fs) |}) = Ok st' ↔
  (cls fs = [] ∧ (strict = true → tes fs = []) ∧ is_content_length f.2 = true) ∧ st' = after c.
Proof.
  intros Hcl. assert (is_te f = false) as Hte by (unfold is_te; by rewrite cl_not_te).
  unfold after, scan_of. cbn [content_lengths transfer_encoding chunked].
  rewrite cls_snoc, tes_snoc, codings_snoc, Hcl, Hte, !app_nil_r, length_app. cbn [length].
  rewrite Nat2Z.inj_add. change (Z.of_nat 1) with 1.
  destruct (Z.ltb_spec 1 (Z.of_nat (length (cls fs)) + 1)).
  { split; [done|]. intros ((E & _) & _). rewrite E in *. cbn in *. lia. }
  assert (cls fs = []) as Hnil by (apply nil_length_inv; lia). rewrite Hnil.
  destruct (strict && negb (bool_decide (tes fs = []))) eqn:Et.
  { split; [done|]. bools. intros ((_ & Ht & _) & _). by specialize (Ht ltac:(done)). }
  destruct (is_content_length f.2); cbn [negb].
  - split; [|by intros [_ ->]]. intros [= <-]. split_and!; [done| |done|done].
    intros ->. cbn in Et. by bools.
  - split; [done|]. by intros ((_ & _ & ?) & _).
Qed.

Lemma te_branch c st' :
  is_te f = true → is_cl f = false →
  (if strict && (0 <? Z.of_nat (length (cls fs)))
   then Err (BadRequest "Transfer-Encoding with Content-Length")
   else
     ch ← scan_codings strict (last_chunked false (codings fs)) (trim_ows <$> split_on ","%byte f.2);
     Ok {| count := c; content_lengths := Z.of_nat (length (cls fs));
           transfer_encoding := true; chunked := ch |}) = Ok st' ↔
  ((strict = true → cls fs = []) ∧
   (strict = true →
    Forall (λ c, is_chunked c = false) (removelast (codings fs ++ codings_of f)))) ∧ st' = after c.
Proof.
  intros Hte Hcl. destruct so_far as [_ _ _ _ _ H6]. fold fs in H6.
  unfold after, scan_of. cbn [content_lengths transfer_encoding chunked].
  rewrite cls_snoc, tes_snoc, codings_snoc, Hcl, Hte, !app_nil_r.
  rewrite bool_decide_eq_false_2 by (intros E; by apply app_eq_nil in E as [_ ?]).
  destruct (strict && (0 <? Z.of_nat (length (cls fs)))) eqn:Ecl.
  { split; [done|]. bools. intros ((Hn & _) & _). rewrite Hn in * by done. cbn in *. lia. }
  pose proof (λ r, codings_step strict (codings fs) f r H6) as Hcs.
  rewrite bind_Ok. setoid_rewrite Hcs. split.
  - intros (r & [-> Hr] & [= <-]). split; [|done]. split; [|done].
    intros Hs. rewrite Hs in Ecl. cbn in Ecl. bools. apply nil_length_inv. lia.
  - intros [[_ Hr] ->]. eauto.
Qed.

Lemma after_plain c :
  is_cl f = false → is_te f = false →
  after c = {| count := c; content_lengths := Z.of_nat (length (cls fs));
               transfer_encoding := negb (bool_decide (tes fs = []));
               chunked := last_chunked false (codings fs) |}.
Proof.
  intros Hcl Hte. unfold after, scan_of. cbn [content_lengths transfer_encoding chunked].
  by rewrite cls_snoc, tes_snoc, codings_snoc, Hcl, Hte, !app_nil_r.
Qed.

Lemma header_line_spec st' :
  header_line strict limit (scan_of start fs) l = Ok st' ↔
  line_ok ∧ st' = scan_of start (fs ++ [f]).
Proof.
  change (scan_of start (fs ++ [f])) with (after (start + size (fs ++ [f]))).
  unfold header_line. fold f. rewrite (surjective_pairing f).
  cbn [count scan_of content_lengths transfer_encoding chunked].
  rewrite count_field. unfold line_ok.
  assert (strict && bare_lf l = false ↔ (strict = true → bare_lf l = false)) as Hlf
    by (destruct strict, (bare_lf l); naive_solver).
  destruct (strict && bare_lf l) eqn:Elf.
  { split; [by intros [_ ?]|]. intros ((_ & H & _) & _). by apply Hlf in H. }
  assert (strict = true → bare_lf l = false) as Hbare by by apply Hlf.
  change (eq_ignore_ascii_case f.1 (bs "content-length")) with (is_cl f).
  destruct (is_cl f) eqn:Hcl.
  { cbv zeta. rewrite cl_branch by done. assert (is_te f = false) as Hte.
    { unfold is_te. by rewrite cl_not_te. }
    rewrite Hte. naive_solver. }
  destruct (is_te f) eqn:Hte.
  - pose proof Hte as Hte'. unfold is_te in Hte'. bools.
    match goal with H : eq_ignore_ascii_case _ _ = true |- _ => rewrite H end.
    rewrite decide_False by done. rewrite te_branch by done. naive_solver.
  - rewrite after_plain by done. unfold is_te in Hte.
    destruct (eq_ignore_ascii_case f.1 (bs "transfer-encoding")); cbn [andb] in Hte.
    + apply negb_false_iff, bool_decide_eq_true in Hte. rewrite decide_True by done.
      split; naive_solver.
    + split; naive_solver.
Qed.
End Step.

(** ** The whole block *)

Lemma size_app fs gs : size (fs ++ gs) = size fs + size gs.
Proof.
  induction fs as [|g fs IH]; cbn [app]; rewrite ?size_cons, ?IH; [|lia].
  change (size []) with 0. lia.
Qed.

Lemma codings_app fs gs : codings (fs ++ gs) = codings fs ++ codings gs.
Proof. unfold codings, tes. by rewrite filter_app, fmap_app, concat_app. Qed.

Lemma Forall_removelast_app {A} (P : A → Prop) l k :
  Forall P (removelast (l ++ k)) → Forall P (removelast l).
Proof.
  destruct k as [|x k]; [by rewrite app_nil_r|].
  rewrite removelast_app_cons. intros [H _]%Forall_app.
  destruct l as [|y l _] using rev_ind; [done|].
  rewrite removelast_snoc. by apply Forall_app in H as [? _].
Qed.

Lemma block_ok_prefix strict limit start a b :
  block_ok strict limit start (a ++ b) → block_ok strict limit start a.
Proof.
  intros [H1 H2 H3 H4 H5 H6].
  rewrite fmap_app in *. rewrite size_app in H1. rewrite codings_app in H6.
  unfold cls, tes in *. rewrite filter_app in *. rewrite length_app in H3.
  pose proof (size_nonneg (parse_field <$> b)). split.
  - lia.
  - intros Hs. by apply Forall_app in H2 as [? _].
  - unfold cls. lia.
  - by apply Forall_app in H4 as [? _].
  - intros Hs. rewrite filter_app in H5.
    destruct (H5 Hs) as [H7|H7]; apply app_eq_nil in H7 as [? _]; auto.
  - intros Hs. eapply Forall_removelast_app, H6, Hs.
Qed.

Lemma header_lines_spec strict limit start ls lines st :
  limit ≤ u64_max → block_ok strict limit start ls →
  header_lines strict limit (scan_of start (parse_field <$> ls)) lines = Ok st ↔
  block_ok strict limit start (ls ++ block lines) ∧
  (strict = true → Forall (λ l, bare_lf l = false) (terminator lines)) ∧
  st = scan_of start (parse_field <$> (ls ++ block lines)).
Proof.
  intros Hl. revert ls. induction lines as [|l lines IH]; intros ls Hok; cbn.
  { rewrite app_nil_r. split; [intros [= <-]; auto|]. by intros (_ & _ & ->). }
  destruct (is_blank_line l) eqn:Eb.
  - rewrite app_nil_r. destruct (strict && bare_lf l) eqn:E.
    + bools. split; [done|]. intros (_ & K & _). specialize (K ltac:(done)).
      apply Forall_cons in K as [K _]. congruence.
    + split; [|by intros (_ & _ & ->)]. intros [= <-]. split_and!; [done| |done].
      intros ->. cbn in E. by repeat constructor.
  - rewrite bind_Ok. setoid_rewrite header_line_spec; [|done..].
    setoid_rewrite <-block_ok_snoc; [|done].
    change (l :: block lines) with ([l] ++ block lines). rewrite app_assoc. split.
    + intros (st1 & [Hok' ->] & H).
      change [parse_field l] with (parse_field <$> [l]) in H.
      rewrite <-fmap_app in H. by apply IH in H.
    + intros H. exists (scan_of start (parse_field <$> (ls ++ [l]))).
      assert (Hok' : block_ok strict limit start (ls ++ [l]))
        by (eapply block_ok_prefix; apply H).
      split; [split; [done|by rewrite fmap_app]|]. by apply IH.
Qed.

(** ** Accepted heads *)

(** The rules for the request line and the header block after it. *)

Record head_ok (strict : bool) (limit : Z) (request_line : list byte)
  (lines : list (list byte)) : Prop := {
  ok_target : (split_request_line request_line).1 = bs "CONNECT"
              ∨ is_request_target (split_request_line request_line).2 = true;
  ok_line_endings : strict = true →
    Forall (λ l, bare_lf l = false) (request_line :: terminator lines);
  ok_block : block_ok strict limit
               (Z.of_nat (length (split_request_line request_line).2)) (block lines);
  ok_final_coding : tes (fields lines) ≠ [] →
    last_chunked false (codings (fields lines)) = true
}.

Lemma scan_of_nil start :
  scan_of start [] = {| count := start; content_lengths := 0; transfer_encoding := false;
                        chunked := false |}.
Proof. unfold scan_of. change (size []) with 0. by rewrite Z.add_0_r. Qed.

Lemma accepted_head_iff head policy :
  max_header_size policy ≤ u64_max →
  check_request_head head policy = Ok tt ↔
  match skip_blank (split_inclusive x0a head) with
  | [] => True
  | request_line :: lines =>
      head_ok (negb (lenient policy)) (max_header_size policy) request_line lines
  end.
Proof.
  intros Hl. unfold check_request_head. destruct (skip_blank _) as [|rl lines]; [done|].
  set (strict := negb (lenient policy)). set (limit := max_header_size policy) in *.
  destruct (split_request_line rl) as [method target] eqn:Erl.
  rewrite bind_Ok. setoid_rewrite add_spec; [|done]. rewrite Z.add_0_l.
  set (start := Z.of_nat (length target)).
  assert (Hempty : start < limit → block_ok strict limit start []).
  { intros. split; cbn; try done; [lia|lia|auto]. }
  pose proof (λ st H, header_lines_spec strict limit start [] lines st Hl (Hempty H)) as Hs.
  cbn [app] in Hs. fold (fields lines) in Hs.
  change (parse_field <$> []) with (@nil field) in Hs. split.
  - intros (c & [-> Hlt] & H).
    destruct (negb (bool_decide _) && _) eqn:Et; [done|].
    destruct (strict && bare_lf rl) eqn:Elf; [done|].
    rewrite scan_of_nil in Hs. apply bind_Ok in H as (st & Hh & H).
    apply Hs in Hh as (Hb & Ht & ->); [|done]. cbn in H.
    split; rewrite ?Erl; cbn [fst snd].
    + destruct (decide (method = bs "CONNECT")); [auto|].
      rewrite bool_decide_eq_false_2 in Et by done. cbn in Et. bools. auto.
    + intros Hst. constructor; [|auto]. rewrite Hst in Elf. done.
    + done.
    + intros Hne. rewrite bool_decide_eq_false_2 in H by done. cbn in H.
      by destruct (last_chunked _ _).
  - intros [H1 H2 H3 H4]. rewrite Erl in *. cbn [fst snd] in *. fold start in H3.
    assert (Hlt : start < limit).
    { pose proof (ok_size _ _ _ _ H3). pose proof (size_nonneg (parse_field <$> block lines)).
      lia. }
    exists start. split; [done|].
    assert (negb (bool_decide (method = bs "CONNECT")) && negb (is_request_target target)
            = false) as ->.
    { destruct H1 as [->| ->]; [done|apply andb_false_r]. }
    assert (strict && bare_lf rl = false) as ->.
    { destruct strict; [|done]. specialize (H2 eq_refl). by apply Forall_cons in H2 as [-> _]. }
    rewrite scan_of_nil in Hs. apply bind_Ok.
    exists (scan_of start (fields lines)). split.
    + apply Hs; [done|]. split_and!; [done| |done]. intros Hst.
      specialize (H2 Hst). by apply Forall_cons in H2 as [_ H2].
    + cbn. destruct (bool_decide (tes (fields lines) = [])) eqn:E; [done|]. bools.
      by rewrite H4.
Qed.

(** C3. The one-pass scan accepts exactly the heads that meet node's rules:
    the request target's form; in strict mode CRLF on every line of the head;
    the counted bytes (target, names, values) under the limit; at most one
    [Content-Length], a valid one; in strict mode no [Content-Length] next to
    a non-empty [Transfer-Encoding], and no coding after [chunked] in the
    concatenation of all of them; and [chunked] last when there is a
    [Transfer-Encoding]. *)
Theorem check_request_head_spec head policy :
  max_header_size policy ≤ u64_max →
  check_request_head head policy = Ok tt ↔
  match skip_blank (split_inclusive x0a head) with
  | [] => True
  | request_line :: lines =>
      head_ok (negb (lenient policy)) (max_header_size policy) request_line lines
  end.
Proof. apply accepted_head_iff. Qed.

Lemma check_request_head_spec_witness :
  head_ok true 16384 (bs "GET / HTTP/1.1" ++ CRLF) [bs "Content-Length: 0" ++ CRLF; CRLF].
Proof.
  refine (proj1 (check_request_head_spec
                   (head_of ["GET / HTTP/1.1"; "Content-Length: 0"]) strict_policy _) _).
  - done.
  - vm_compute. reflexivity.
Defined.

(** ** Framing *)

(** The header block of a head, after its request line. *)

Definition head_fields (head : list byte) : list field :=
  match skip_blank (split_inclusive x0a head) with
  | [] => []
  | _ :: lines => fields lines
  end.

(** How the body of a request with these fields ends, read three ways a
    recipient may read it. *)

Inductive Framing : Type :=
| NoBody
| Length (n : Z)
| Chunked.

#[global] Instance Framing_eq_dec : EqDecision Framing.
Proof. solve_decision. Defined.

Definition length_framing (f : option field) : Framing :=
  match f with
  | Some f => match parse_uint u64_max (trim_ows f.2) with
              | Some n => Length n
              | None => NoBody
              end
  | None => NoBody
  end.

(** [Transfer-Encoding] wins when any of its codings is [chunked], else the
    [Content-Length] [pick] chooses. *)

Definition framing_te_first (pick : list field → option field) (fs : list field) : Framing :=
  if existsb is_chunked (codings fs) then Chunked else length_framing (pick (cls fs)).

(** Only a final [chunked] counts. *)

Definition framing_te_final (pick : list field → option field) (fs : list field) : Framing :=
  if last_chunked false (codings fs) then Chunked else length_framing (pick (cls fs)).

(** [Content-Length] wins. *)

Definition framing_cl_first (pick : list field → option field) (fs : list field) : Framing :=
  match pick (cls fs) with
  | Some f => length_framing (Some f)
  | None => if existsb is_chunked (codings fs) then Chunked else NoBody
  end.

(** A choice among equals: it takes one of the fields when there is one. *)

Definition picks (pick : list field → option field) : Prop :=
  pick [] = None ∧ ∀ f, pick [f] = Some f.

(** No request smuggling through the framing headers: for a head the strict
    check accepts, every reading of its body's end agrees -- whichever
    [Content-Length] is picked, whether [Transfer-Encoding] or
    [Content-Length] wins, and whether any [chunked] or only the final one
    counts; and a [Content-Length] read is a u64. *)
Lemma framing_is_unambiguous head policy pick pick' :
  max_header_size policy ≤ u64_max → lenient policy = false →
  check_request_head head policy = Ok tt → picks pick → picks pick' →
  framing_te_first pick (head_fields head) = framing_te_final pick' (head_fields head) ∧
  framing_te_first pick (head_fields head) = framing_cl_first pick' (head_fields head) ∧
  (framing_te_first pick (head_fields head) = NoBody ↔
   cls (head_fields head) = [] ∧ tes (head_fields head) = []).
Proof.
  intros Hl Hs Hc [Hp0 Hp1] [Hq0 Hq1]. apply accepted_head_iff in Hc; [|done].
  rewrite Hs in Hc. unfold head_fields.
  unfold framing_te_first, framing_te_final, framing_cl_first.
  destruct (skip_blank _) as [|rl lines].
  { change (cls []) with (@nil field). by rewrite Hp0, Hq0. }
  destruct Hc as [_ _ [_ _ H3 H4 H5 H6] H7]. fold (fields lines) in *.
  specialize (H5 eq_refl). specialize (H6 eq_refl).
  destruct (decide (tes (fields lines) = [])) as [Ht|Ht].
  - assert (Hcod : codings (fields lines) = []) by (unfold codings; by rewrite Ht).
    rewrite Hcod, Ht. cbn.
    destruct (cls (fields lines)) as [|f [|g fs]]; cbn in H3; [by rewrite Hp0, Hq0| |lia].
    rewrite Hp1, Hq1. apply Forall_cons in H4 as [H4 _]. cbn.
    unfold is_content_length in H4. bools.
    destruct (parse_uint u64_max (trim_ows f.2)) as [n|]; [naive_solver|by destruct H].
  - specialize (H7 Ht). destruct H5 as [H5|]; [|done].
    assert (Hex : existsb is_chunked (codings (fields lines)) = true).
    { unfold last_chunked in H7. destruct (last (codings (fields lines))) as [c|] eqn:El; [|done].
      apply existsb_exists. exists c. split; [|done].
      by apply list_elem_of_In, last_Some_elem_of. }
    rewrite Hex, H7, H5, Hq0. split_and!; [done|done|]. split; [done|tauto].
Qed.

(** ** The target JS sees *)

Lemma find_skip_blank lines :
  List.find (λ l, negb (is_blank_line l)) lines = List.hd_error (skip_blank lines).
Proof. induction lines as [|l lines IH]; cbn; [done|]. by destruct (is_blank_line l). Qed.

(** The request target handed to the handler is the one that was
    checked: for an accepted head, [req.url] is shorter than the limit and, for
    a method other than CONNECT, it is in origin form, starts with [*], or is
    an absolute form whose authority holds no [#]. *)
Lemma request_target_was_checked head policy t :
  max_header_size policy ≤ u64_max →
  check_request_head head policy = Ok tt → request_target head = Some t →
  Z.of_nat (length t) < max_header_size policy ∧
  ∃ request_line method, List.hd_error (skip_blank (split_inclusive x0a head)) = Some request_line ∧
    split_request_line request_line = (method, t) ∧
    (method = bs "CONNECT" ∨ is_request_target t = true).
Proof.
  intros Hl Hc. apply accepted_head_iff in Hc; [|done].
  unfold request_target. rewrite find_skip_blank.
  destruct (skip_blank _) as [|rl lines]; [done|]. cbn.
  destruct Hc as [H1 _ Hb _]. destruct (split_request_line rl) as [method target] eqn:E.
  cbn [fst snd] in *. case_decide; [done|]. intros [= <-].
  pose proof (ok_size _ _ _ _ Hb). pose proof (size_nonneg (parse_field <$> block lines)).
  split; [lia|]. eauto.
Qed.

(** ** Derived limits *)

(** Sizing the parser from the byte budget loses no head: every head the
    check accepts whose field names are not empty has fewer fields than hyper
    is allowed to parse, and its counted bytes fit hyper's read buffer. *)
Lemma accepted_head_fits_parser head policy :
  max_header_size policy ≤ 2 ^ 62 →
  check_request_head head policy = Ok tt →
  Forall (λ f, f.1 ≠ []) (head_fields head) →
  Z.of_nat (length (head_fields head)) < max_parsed_headers policy ∧
  size (head_fields head) < read_buffer_limit policy.
Proof.
  intros Hl Hc Hn. assert (Hu : max_header_size policy ≤ u64_max) by (unfold u64_max; lia).
  assert (Hbuf : max_header_size policy * 4 ≤ read_buffer_limit policy + 4 ∧
                 max_header_size policy ≤ read_buffer_limit policy ∧
                 64 * 1024 ≤ read_buffer_limit policy).
  { unfold read_buffer_limit, saturating, u64_max. lia. }
  assert (Hmax : max_header_size policy ≤ max_parsed_headers policy).
  { unfold max_parsed_headers, HEADER_BATCH. Z.div_mod_to_equations. lia. }
  assert (H64 : 0 < max_parsed_headers policy).
  { unfold max_parsed_headers, HEADER_BATCH. Z.div_mod_to_equations. lia. }
  assert (Hlen : Z.of_nat (length (head_fields head)) ≤ size (head_fields head)).
  { clear - Hn. induction Hn as [|f fs Hf _ IH]; [done|]. rewrite size_cons. cbn [length].
    unfold field_size. destruct f as [[|b n] v]; [done|]. cbn. lia. }
  apply accepted_head_iff in Hc; [|done]. unfold head_fields in *.
  destruct (skip_blank _) as [|rl lines]; [cbn; change (size []) with 0; lia|].
  destruct Hc as [_ _ Hb _]. pose proof (ok_size _ _ _ _ Hb). fold (fields lines) in *. lia.
Qed.

(** C4. What an accepted head is safe for.  In strict mode -- not with
    [insecureHTTPParser], where a head may have both a length and a coding --
    every reading of where its body ends agrees, whichever [Content-Length] is
    picked, whether [Transfer-Encoding] or [Content-Length] wins, and whether
    any [chunked] or only the final one counts, so nothing is smuggled past a
    reader that decides otherwise.  In either mode the request target handed
    to the handler is the one that was checked.  And in either mode, when no
    field's name is empty, it has fewer fields than hyper is allowed to parse
    and fits hyper's read buffer, both sized from the same policy. *)


