(* ===== verification/Inflate.v ===== *)
(** * Inflate: [oam_core/src/inflate.rs]

    [Inflater] is raw deflate over miniz_oxide's core decoder with the
    history held here; [NodeInflate] is node:zlib's inflate streams, the gzip,
    zlib and raw wrappers framed byte by byte, over it.

    The decoder ([miniz_oxide::inflate::core::decompress]), the Adler-32
    ([mz_adler32_oxide]) and the CRC ([flate2::Crc]) are other crates: they are
    the operations of the classes [Miniz] and [Checksums] below. *)

From S2P Require Import Prelude RustStd.

(** ** The crates underneath *)

(** miniz's status codes ([TINFLStatus]). *)

Inductive TINFLStatus : Type :=
| TDone
| NeedsMoreInput
| HasMoreOutput
| Adler32Mismatch
| Failed
| OtherStatus.

#[global] Instance TINFLStatus_eq_dec : EqDecision TINFLStatus.
Proof. solve_decision. Defined.

(** [decompress core src out out_pos flags]: the status, the bytes consumed
    and produced, the core after, and the output buffer after. *)

Class Miniz : Type := {
  DecompressorOxide : Type;
  core_default : DecompressorOxide;
  core_init : DecompressorOxide → DecompressorOxide;
  decompress : DecompressorOxide → list byte → list byte → nat → Z →
               TINFLStatus * nat * nat * DecompressorOxide * list byte
}.

Class Checksums : Type := {
  adler32 : Z → list byte → Z;
  Crc : Type;
  crc_new : Crc;
  crc_update : Crc → list byte → Crc;
  crc_sum : Crc → Z;
  crc_amount : Crc → Z
}.

(** Documented behaviour of the decoder in its non-wrapping mode: it reads at
    most the input it is given, writes only inside the buffer, from [out_pos]
    on, and reports how much. *)

Class MinizLaws `{Miniz} : Prop := {
  decompress_bounds core src out pos flags st consumed produced core' out' :
    pos ≤ length out →
    decompress core src out pos flags = (st, consumed, produced, core', out') →
    consumed ≤ length src ∧ produced ≤ length out - pos ∧
    length out' = length out ∧ take pos out' = take pos out
}.

(** The checksums are [u32]s and streaming: feeding nothing changes nothing,
    and feeding two pieces is feeding their concatenation. *)

Class ChecksumLaws `{Checksums} : Prop := {
  crc_update_nil c : crc_update c [] = c;
  crc_update_app c a b : crc_update (crc_update c a) b = crc_update c (a ++ b);
  adler32_nil s : (0 ≤ s < 2 ^ 32)%Z → adler32 s [] = s;
  adler32_app s a b : adler32 (adler32 s a) b = adler32 s (a ++ b);
  crc_sum_u32 c : (0 ≤ crc_sum c < 2 ^ 32)%Z;
  crc_amount_u32 c : (0 ≤ crc_amount c < 2 ^ 32)%Z;
  adler32_u32 s l : (0 ≤ s < 2 ^ 32)%Z → (0 ≤ adler32 s l < 2 ^ 32)%Z
}.

(** ** [Inflater] *)

Definition WINDOW : nat := Z.to_nat 32768.
Definition STEP_OUT : nat := Z.to_nat 16384.

Inductive InflateFailure : Type :=
| DataCheck
| TooFarBack
| InvalidData.

(** The flag bits of miniz's core decoder. *)

Definition TINFL_FLAG_PARSE_ZLIB_HEADER : Z := 1.
Definition TINFL_FLAG_HAS_MORE_INPUT : Z := 2.
Definition TINFL_FLAG_USING_NON_WRAPPING_OUTPUT_BUF : Z := 4.
Definition TINFL_FLAG_COMPUTE_ADLER32 : Z := 8.
Definition TINFL_FLAG_IGNORE_ADLER32 : Z := 64.

Section Inflater.
Context `{Miniz}.

Record Inflater : Type := {
  core : DecompressorOxide;
  hist : list byte;
  pos : nat;
  zlib : bool
}.

Definition Inflater_new (zlib : bool) : Inflater :=
  {| core := core_default; hist := replicate (WINDOW + STEP_OUT) x00; pos := 0; zlib := zlib |}.

Definition Inflater_reset (self : Inflater) : Inflater :=
  {| core := core_init (core self); hist := hist self; pos := 0; zlib := zlib self |}.

(** [buf[at..at + src.len()].copy_from_slice(src)]. *)

Definition copy_into (buf : list byte) (at_ : nat) (src : list byte) : list byte :=
  take at_ buf ++ src ++ drop (at_ + length src) buf.

Definition Inflater_prime (self : Inflater) (dictionary : list byte) : Inflater :=
  let tail := drop (length dictionary - WINDOW) dictionary in
  {| core := core self; hist := copy_into (hist self) 0 tail; pos := length tail;
     zlib := zlib self |}.

(** Slide the last window to the front when [room] more bytes do not fit. *)

Definition slide (self : Inflater) (room : nat) : Inflater :=
  if decide (length (hist self) < pos self + room) then
    {| core := core self;
       hist := copy_into (hist self) 0 (take WINDOW (drop (pos self - WINDOW) (hist self)));
       pos := WINDOW; zlib := zlib self |}
  else self.

Definition step_flags (self : Inflater) : Z :=
  Z.lor (Z.lor TINFL_FLAG_USING_NON_WRAPPING_OUTPUT_BUF TINFL_FLAG_HAS_MORE_INPUT)
        (if zlib self then Z.lor TINFL_FLAG_PARSE_ZLIB_HEADER TINFL_FLAG_COMPUTE_ADLER32
         else TINFL_FLAG_IGNORE_ADLER32).

Definition reaches_before_start (self : Inflater) (core0 : DecompressorOxide)
  (src : list byte) (room : nat) (flags : Z) (produced : nat) : bool :=
  let padded := replicate WINDOW x00 ++ take (pos self) (hist self) ++ replicate room x00 in
  let '(status, _, rerun, _, _) := decompress core0 src padded (WINDOW + pos self) flags in
  negb (bool_decide (status = Failed)) || bool_decide (produced < rerun).

(** [step]: the bytes written to [dst] (of length [dst_len]) come back with
    the number consumed and whether the stream ended.  The state is the one
    the call leaves, failure or not. *)

Definition Inflater_step (self : Inflater) (src : list byte) (dst_len : nat)
  : Inflater * result InflateFailure (nat * list byte * bool) :=
  let room := min dst_len STEP_OUT in
  let self := slide self room in
  let flags := step_flags self in
  let before := if decide (pos self < WINDOW) then Some (core self) else None in
  let out := take (pos self + room) (hist self) in
  let '(status, consumed, produced, core', out') :=
    decompress (core self) src out (pos self) flags in
  let hist' := out' ++ drop (pos self + room) (hist self) in
  let after p := {| core := core'; hist := hist'; pos := p; zlib := zlib self |} in
  match status with
  | TDone | NeedsMoreInput | HasMoreOutput =>
      (after (pos self + produced),
       Ok (consumed, take produced (drop (pos self) hist'), bool_decide (status = TDone)))
  | Adler32Mismatch => (after (pos self), Err DataCheck)
  | Failed | OtherStatus =>
      let too_far := match before with
                     | Some core0 =>
                         reaches_before_start (after (pos self)) core0 src room flags produced
                     | None => false
                     end in
      (after (pos self), Err (if (too_far : bool) then TooFarBack else InvalidData))
  end.
End Inflater.

(** ** [ZlibError] *)

Record ZlibError : Type := { code : string; errno : Z; message : string }.

#[global] Instance ZlibError_eq_dec : EqDecision ZlibError.
Proof. solve_decision. Defined.

Definition data_error (message : string) : ZlibError :=
  {| code := "Z_DATA_ERROR"; errno := -3; message := message |}.
Definition UNEXPECTED_EOF : ZlibError :=
  {| code := "Z_BUF_ERROR"; errno := -5; message := "unexpected end of file" |}.
Definition NEED_DICT : ZlibError :=
  {| code := "Z_NEED_DICT"; errno := 2; message := "Missing dictionary" |}.
Definition BAD_DICT : ZlibError :=
  {| code := "Z_NEED_DICT"; errno := 2; message := "Bad dictionary" |}.

Definition from_failure (failure : InflateFailure) : ZlibError :=
  match failure with
  | DataCheck => data_error "incorrect data check"
  | TooFarBack => data_error "invalid distance too far back"
  | InvalidData => data_error "invalid deflate data"
  end.

(** ** [NodeInflate] *)

Inductive Wrap : Type := WGzip | WZlib | WRaw | WAuto.

#[global] Instance Wrap_eq_dec : EqDecision Wrap.
Proof. solve_decision. Defined.

Definition GZ_FHCRC : Z := 2.
Definition GZ_FEXTRA : Z := 4.
Definition GZ_FNAME : Z := 8.
Definition GZ_FCOMMENT : Z := 16.
Definition GZ_RESERVED : Z := 224.
Definition ZLIB_FDICT : Z := 32.

(** [byte & mask != 0]. *)

Definition has_flag (b : byte) (mask : Z) : bool := negb (Z.land (b2z b) mask =? 0)%Z.

Inductive At : Type :=
| Head0
| Head1
| DictId (n : nat)
| GzCm
| GzFlg
| GzFixed (n : nat)
| GzXlenLo
| GzXlenHi
| GzExtra (n : Z)
| GzName
| GzComment
| GzHcrcLo
| GzHcrcHi
| Body
| ZlibTrailer (n : nat)
| GzTrailer (n : nat)
| Between
| Done.

#[global] Instance At_eq_dec : EqDecision At.
Proof. solve_decision. Defined.

(** A failure a caller sees, or a panic ([unreachable!], an index out of
    range). *)

Inductive Fault : Type :=
| Zlib (e : ZlibError)
| Panic.

Section NodeInflate.
Context `{Miniz} `{Checksums}.

Inductive Check : Type :=
| CNone
| CAdler (sum : Z)
| CCrc (crc : Crc).

Record NodeInflate : Type := {
  wrap : Wrap;
  at_ : At;
  members : bool;
  inflate : Inflater;
  check : Check;
  header_crc : Crc;
  held : byte;
  flags : byte;
  xlen : Z;
  trailer : list byte;
  dictionary : option (list byte)
}.

(** Field updates. *)

Definition set_at (a : At) (s : NodeInflate) : NodeInflate :=
  {| wrap := wrap s; at_ := a; members := members s; inflate := inflate s; check := check s;
     header_crc := header_crc s; held := held s; flags := flags s; xlen := xlen s;
     trailer := trailer s; dictionary := dictionary s |}.
Definition set_members (m : bool) (s : NodeInflate) : NodeInflate :=
  {| wrap := wrap s; at_ := at_ s; members := m; inflate := inflate s; check := check s;
     header_crc := header_crc s; held := held s; flags := flags s; xlen := xlen s;
     trailer := trailer s; dictionary := dictionary s |}.
Definition set_inflate (i : Inflater) (s : NodeInflate) : NodeInflate :=
  {| wrap := wrap s; at_ := at_ s; members := members s; inflate := i; check := check s;
     header_crc := header_crc s; held := held s; flags := flags s; xlen := xlen s;
     trailer := trailer s; dictionary := dictionary s |}.
Definition set_check (c : Check) (s : NodeInflate) : NodeInflate :=
  {| wrap := wrap s; at_ := at_ s; members := members s; inflate := inflate s; check := c;
     header_crc := header_crc s; held := held s; flags := flags s; xlen := xlen s;
     trailer := trailer s; dictionary := dictionary s |}.
Definition set_header_crc (c : Crc) (s : NodeInflate) : NodeInflate :=
  {| wrap := wrap s; at_ := at_ s; members := members s; inflate := inflate s; check := check s;
     header_crc := c; held := held s; flags := flags s; xlen := xlen s;
     trailer := trailer s; dictionary := dictionary s |}.
Definition set_held (b : byte) (s : NodeInflate) : NodeInflate :=
  {| wrap := wrap s; at_ := at_ s; members := members s; inflate := inflate s; check := check s;
     header_crc := header_crc s; held := b; flags := flags s; xlen := xlen s;
     trailer := trailer s; dictionary := dictionary s |}.
Definition set_flags (b : byte) (s : NodeInflate) : NodeInflate :=
  {| wrap := wrap s; at_ := at_ s; members := members s; inflate := inflate s; check := check s;
     header_crc := header_crc s; held := held s; flags := b; xlen := xlen s;
     trailer := trailer s; dictionary := dictionary s |}.
Definition set_xlen (x : Z) (s : NodeInflate) : NodeInflate :=
  {| wrap := wrap s; at_ := at_ s; members := members s; inflate := inflate s; check := check s;
     header_crc := header_crc s; held := held s; flags := flags s; xlen := x;
     trailer := trailer s; dictionary := dictionary s |}.
Definition set_trailer (t : list byte) (s : NodeInflate) : NodeInflate :=
  {| wrap := wrap s; at_ := at_ s; members := members s; inflate := inflate s; check := check s;
     header_crc := header_crc s; held := held s; flags := flags s; xlen := xlen s;
     trailer := t; dictionary := dictionary s |}.
Definition set_dictionary (d : option (list byte)) (s : NodeInflate) : NodeInflate :=
  {| wrap := wrap s; at_ := at_ s; members := members s; inflate := inflate s; check := check s;
     header_crc := header_crc s; held := held s; flags := flags s; xlen := xlen s;
     trailer := trailer s; dictionary := d |}.

Definition with_dictionary (wrap : Wrap) (dict : option (list byte)) : NodeInflate :=
  let dict := match dict with Some [] => None | d => d end in
  let fresh := Inflater_new false in
  let '(inf, kept) :=
    match wrap, dict with
    | WRaw, Some d => (Inflater_prime fresh d, None)
    | (WZlib | WAuto), Some d => (fresh, Some d)
    | _, _ => (fresh, None)
    end in
  {| wrap := wrap; at_ := if decide (wrap = WRaw) then Body else Head0;
     members := bool_decide (wrap = WGzip); inflate := inf; check := CNone;
     header_crc := crc_new; held := x00; flags := x00; xlen := 0;
     trailer := replicate 8 x00; dictionary := kept |}.

Definition NodeInflate_new (wrap : Wrap) : NodeInflate := with_dictionary wrap None.

Definition is_complete (s : NodeInflate) : bool :=
  match at_ s with
  | Between | Done => true
  | _ => false
  end.

Definition finish (s : NodeInflate) : result ZlibError unit :=
  if is_complete s then Ok tt else Err UNEXPECTED_EOF.

Definition after_stream (s : NodeInflate) : At := if members s then Between else Done.

Definition after_comment (s : NodeInflate) : At :=
  if has_flag (flags s) GZ_FHCRC then GzHcrcLo else Body.

Definition after_name (s : NodeInflate) : At :=
  if has_flag (flags s) GZ_FCOMMENT then GzComment else after_comment s.

Definition after_extra (s : NodeInflate) : At :=
  if has_flag (flags s) GZ_FNAME then GzName else after_name s.

Definition fail (s : NodeInflate) (e : ZlibError) : NodeInflate * result Fault unit :=
  (s, Err (Zlib e)).

Definition go (s : NodeInflate) (a : At) : NodeInflate * result Fault unit :=
  (set_at a s, Ok tt).

Definition zlib_header (s : NodeInflate) (cmf flg : byte) : NodeInflate * result Fault unit :=
  if negb ((Z.lor (Z.shiftl (b2z cmf) 8) (b2z flg)) `mod` 31 =? 0)%Z
  then fail s (data_error "incorrect header check")
  else if negb (Z.land (b2z cmf) 15 =? 8)%Z
  then fail s (data_error "unknown compression method")
  else if (15 <? Z.shiftr (b2z cmf) 4 + 8)%Z
  then fail s (data_error "invalid window size")
  else if has_flag flg ZLIB_FDICT then go s (DictId 0)
  else go (set_check (CAdler 1) s) Body.

Definition preset_dictionary (s : NodeInflate) : NodeInflate * result Fault unit :=
  match dictionary s with
  | None => fail s NEED_DICT
  | Some d =>
      let s := set_dictionary None s in
      if negb (adler32 1 d =? from_be_bytes (take 4 (trailer s)))%Z then fail s BAD_DICT
      else go (set_check (CAdler 1) (set_inflate (Inflater_prime (inflate s) d) s)) Body
  end.

(** Whether a byte read in this state is covered by the gzip header CRC. *)

Definition in_header_crc (a : At) : bool :=
  match a with
  | Head0 | Head1 | GzCm | GzFlg | GzFixed _ | GzXlenLo | GzXlenHi | GzExtra _ | GzName
  | GzComment => true
  | _ => false
  end.

(** [self.trailer[n] = b]: an index past the array panics. *)

Definition put_trailer (s : NodeInflate) (n : nat) (b : byte)
  (k : NodeInflate → NodeInflate * result Fault unit) : NodeInflate * result Fault unit :=
  if decide (n < length (trailer s)) then k (set_trailer (<[n := b]> (trailer s)) s)
  else (s, Err Panic).

Definition header_byte (s : NodeInflate) (b : byte) : NodeInflate * result Fault unit :=
  let s := if in_header_crc (at_ s)
           then set_header_crc (crc_update (header_crc s) [b]) s else s in
  match at_ s with
  | Head0 => go (set_held b s) Head1
  | Head1 =>
      let gzip_ok := bool_decide (wrap s = WGzip) || bool_decide (wrap s = WAuto) in
      if gzip_ok && bool_decide (held s = x1f) && bool_decide (b = x8b) then
        go (set_check (CCrc crc_new) (set_members true s)) GzCm
      else if decide (wrap s = WGzip) then fail s (data_error "incorrect header check")
      else zlib_header s (held s) b
  | DictId n =>
      put_trailer s n b (λ s,
        if decide (n < 3) then go s (DictId (n + 1)) else preset_dictionary s)
  | GzCm => go (set_held b s) GzFlg
  | GzFlg =>
      if negb (bool_decide (held s = x08)) then fail s (data_error "unknown compression method")
      else if has_flag b GZ_RESERVED then fail s (data_error "unknown header flags set")
      else go (set_flags b s) (GzFixed 6)
  | GzFixed n =>
      if decide (1 < n) then go s (GzFixed (n - 1))
      else if has_flag (flags s) GZ_FEXTRA then go s GzXlenLo
      else go s (after_extra s)
  | GzXlenLo => go (set_xlen (b2z b) s) GzXlenHi
  | GzXlenHi =>
      let s := set_xlen (Z.lor (xlen s) (Z.shiftl (b2z b) 8)) s in
      if (xlen s =? 0)%Z then go s (after_extra s) else go s (GzExtra (xlen s))
  | GzExtra n => if (1 <? n)%Z then go s (GzExtra (n - 1)) else go s (after_extra s)
  | GzName => if decide (b = x00) then go s (after_name s) else go s GzName
  | GzComment => if decide (b = x00) then go s (after_comment s) else go s GzComment
  | GzHcrcLo => go (set_held b s) GzHcrcHi
  | GzHcrcHi =>
      if negb (from_le_bytes [held s; b] =? Z.land (crc_sum (header_crc s)) 65535)%Z
      then fail s (data_error "header crc mismatch")
      else go s Body
  | ZlibTrailer n =>
      put_trailer s n b (λ s,
        if decide (n < 3) then go s (ZlibTrailer (n + 1))
        else
          let stored := from_be_bytes (take 4 (trailer s)) in
          match check s with
          | CAdler sum =>
              if (sum =? stored)%Z then go s (after_stream s)
              else fail s (data_error "incorrect data check")
          | _ => fail s (data_error "incorrect data check")
          end)
  | GzTrailer n =>
      put_trailer s n b (λ s,
        match check s with
        | CCrc crc =>
            if decide (n + 1 = 4) then
              if negb (from_le_bytes (take 4 (trailer s)) =? crc_sum crc)%Z
              then fail s (data_error "incorrect data check")
              else go s (GzTrailer 4)
            else if decide (n + 1 = 8) then
              if negb (from_le_bytes (drop 4 (trailer s)) =? crc_amount crc)%Z
              then fail s (data_error "incorrect length check")
              else go s (after_stream s)
            else go s (GzTrailer (n + 1))
        | _ => (s, Err Panic)
        end)
  | Body | Between | Done => (s, Err Panic)
  end.

(** What one turn of [step]'s loop does: return, or go round again with
    more of [src] consumed. *)

Inductive Turn : Type :=
| Return (r : result Fault (nat * list byte))
| Again (consumed : nat).

Definition feed_check (c : Check) (produced : list byte) : Check :=
  match c with
  | CNone => CNone
  | CAdler adler => CAdler (adler32 adler produced)
  | CCrc crc => CCrc (crc_update crc produced)
  end.

Definition trailer_state (c : Check) : At :=
  match c with
  | CNone => Done
  | CAdler _ => ZlibTrailer 0
  | CCrc _ => GzTrailer 0
  end.

Definition body_turn (s : NodeInflate) (src : list byte) (dst_len consumed : nat)
  : NodeInflate * Turn :=
  let '(inf, r) := Inflater_step (inflate s) (drop consumed src) dst_len in
  let s := set_inflate inf s in
  match r with
  | Err e => (s, Return (Err (Zlib (from_failure e))))
  | Ok (used, produced, ended) =>
      let consumed := consumed + used in
      let s := set_check (feed_check (check s) produced) s in
      let s := if (ended : bool) then set_at (trailer_state (check s)) s else s in
      if bool_decide (0 < length produced) || negb ended
      then (s, Return (Ok (consumed, produced)))
      else (s, Again consumed)
  end.

Definition turn (s : NodeInflate) (src : list byte) (dst_len consumed : nat)
  : NodeInflate * Turn :=
  match at_ s with
  | Done => (s, Return (Ok (length src, [])))
  | Body => body_turn s src dst_len consumed
  | Between =>
      match src !! consumed with
      | None => (s, Return (Ok (consumed, [])))
      | Some b =>
          if decide (b = x00) then (set_at Done s, Again consumed)
          else (set_header_crc crc_new (set_check CNone
                  (set_inflate (Inflater_reset (inflate s)) (set_at Head0 s))),
                Again consumed)
      end
  | _ =>
      match src !! consumed with
      | None => (s, Return (Ok (consumed, [])))
      | Some b =>
          match header_byte s b with
          | (s, Ok _) => (s, Again (S consumed))
          | (s, Err e) => (s, Return (Err e))
          end
      end
  end.

(** [step]: [None] when [fuel] turns are not enough. *)

Fixpoint step_loop (fuel : nat) (s : NodeInflate) (src : list byte) (dst_len consumed : nat)
  : NodeInflate * option (result Fault (nat * list byte)) :=
  match fuel with
  | O => (s, None)
  | S fuel =>
      match turn s src dst_len consumed with
      | (s, Return r) => (s, Some r)
      | (s, Again consumed) => step_loop fuel s src dst_len consumed
      end
  end.

Definition step_fuel (src : list byte) : nat := 3 * length src + 3.

Definition step (s : NodeInflate) (src : list byte) (dst_len : nat)
  : NodeInflate * option (result Fault (nat * list byte)) :=
  step_loop (step_fuel src) s src dst_len 0.
End NodeInflate.
