(* ===== verification/InflateSpec.v ===== *)
(** * InflateSpec: what the inflate streams guarantee

    - the history of [Inflater] is exact;
    - a step of [NodeInflate] returns, panics nowhere and stays inside both
      buffers, in every state a stream can reach;
    - the bytes of every gzip header of RFC 1952 lead to the body, and a
      member's eight trailer bytes are accepted exactly when they are its CRC
      and length;
    - the zlib header is accepted exactly under RFC 1950. *)

From S2P Require Import Prelude RustStd Inflate.

(** ** A decoder and checksums to run the examples with

    Blocks of one byte [n] (not zero) and then [n] bytes of data; a zero byte
    ends the stream, and once over it says so again and moves nothing, until
    it is reset.  Enough of the decoder's interface for the laws to hold and
    the wrappers to be run. *)

Module Toy.
Definition toy_n (left have room : nat) : nat := min left (min have room).

Lemma toy_n_le left have room : toy_n left have room ≤ have ∧ toy_n left have room ≤ room.
Proof. unfold toy_n. lia. Qed.

Definition toy_decompress (core : option nat) (src out : list byte) (pos : nat) (flags : Z)
  : TINFLStatus * nat * nat * option nat * list byte :=
  let room := length out - pos in
  match core, src with
  | None, _ => (TDone, 0, 0, None, out)
  | Some O, [] => (NeedsMoreInput, 0, 0, Some 0, out)
  | Some O, x00 :: _ => (TDone, 1, 0, None, out)
  | Some O, b :: _ => (NeedsMoreInput, 1, 0, Some (Z.to_nat (b2z b)), out)
  | Some (S _ as left), _ =>
      let n := toy_n left (length src) room in
      (if decide (n = left) then NeedsMoreInput
       else if decide (n = room) then HasMoreOutput else NeedsMoreInput,
       n, n, Some (left - n), take pos out ++ take n src ++ drop (pos + n) out)
  end.

#[global] Instance miniz : Miniz := {|
  DecompressorOxide := option nat;
  core_default := Some 0;
  core_init := λ _, Some 0;
  decompress := toy_decompress
|}.

#[global] Instance miniz_laws : MinizLaws.
Proof.
  constructor. intros core src out pos flags st c p core' out' Hpos.
  cbn [decompress miniz]. unfold toy_decompress.
  destruct core as [[|left]|]; [destruct src as [|b src]; [|destruct b]| |]; intros [= <- <- <- <- <-];
    try (split_and!; cbn [length]; [lia|lia|done|done]).
  pose proof (toy_n_le (S left) (length src) (length out - pos)) as [].
  split_and!; [lia|lia| |].
  - rewrite !length_app, !length_take, length_drop. lia.
  - rewrite take_app_le by (rewrite length_take; lia). rewrite take_take. f_equal. lia.
Qed.

(** The sum of the bytes, and their number, modulo [2^32]. *)

Definition u32 (z : Z) : Z := wrap_u 32 z.

Definition sum_of (l : list byte) : Z := foldr (λ b a, b2z b + a)%Z 0%Z l.

Lemma sum_of_app l l' : (sum_of (l ++ l') = sum_of l + sum_of l')%Z.
Proof. unfold sum_of. induction l as [|b l IH]; cbn; [done|]. rewrite IH. lia. Qed.

Lemma u32_range z : (0 ≤ u32 z < 2 ^ 32)%Z.
Proof. apply Z.mod_pos_bound. lia. Qed.

#[global] Instance checksums : Checksums := {|
  adler32 := λ s l, u32 (s + sum_of l);
  Crc := list byte;
  crc_new := [];
  crc_update := app;
  crc_sum := λ l, u32 (sum_of l);
  crc_amount := λ l, u32 (Z.of_nat (length l))
|}.

#[global] Instance checksum_laws : ChecksumLaws.
Proof.
  constructor; intros; cbn [crc_update crc_sum crc_amount adler32 checksums];
    [apply app_nil_r|by rewrite app_assoc| | |apply u32_range..].
  { unfold sum_of, u32, wrap_u. cbn [foldr]. rewrite Z.add_0_r. by apply Z.mod_small. }
  rewrite sum_of_app. unfold u32, wrap_u. rewrite Zplus_mod_idemp_l. f_equal. lia.
Qed.
End Toy.

(** ** [Inflater]: the history *)

Section History.
Context `{MinizLaws}.

(** [seen] is everything the stream has put in its window: the primed part
    of a dictionary, then the output. *)

Definition history_ok (seen : list byte) (self : Inflater) : Prop :=
  length (hist self) = WINDOW + STEP_OUT ∧
  pos self ≤ length (hist self) ∧
  (∃ gone, seen = gone ++ take (pos self) (hist self)) ∧
  (pos self = length seen ∨ WINDOW ≤ pos self).

Lemma length_copy_into buf n src :
  n + length src ≤ length buf → length (copy_into buf n src) = length buf.
Proof.
  intros. unfold copy_into. rewrite !length_app, length_take, length_drop. lia.
Qed.

Lemma take_copy_into0 buf src : take (length src) (copy_into buf 0 src) = src.
Proof. unfold copy_into. by rewrite take_0, app_nil_l, take_app_length. Qed.

Lemma new_history z : history_ok [] (Inflater_new z).
Proof.
  unfold history_ok, Inflater_new; cbn [hist pos]. rewrite length_replicate.
  split_and!; [done|lia|by exists []|by left].
Qed.

Lemma reset_history seen self : history_ok seen self → history_ok [] (Inflater_reset self).
Proof.
  intros (Hl & _). unfold history_ok, Inflater_reset; cbn [hist pos].
  split_and!; [done|lia|by exists []|by left].
Qed.

(** The part of a dictionary the window keeps. *)

Definition dict_tail (d : list byte) : list byte := drop (length d - WINDOW) d.

Lemma length_dict_tail d : length (dict_tail d) ≤ WINDOW.
Proof. unfold dict_tail. rewrite length_drop. lia. Qed.

Lemma prime_history seen self d :
  history_ok seen self → history_ok (dict_tail d) (Inflater_prime self d).
Proof.
  intros (Hl & _). pose proof (length_dict_tail d) as Ht.
  unfold history_ok, Inflater_prime; cbn [hist pos]. fold (dict_tail d).
  rewrite length_copy_into by (rewrite Hl; lia).
  split_and!; [done|rewrite Hl; lia| |by left].
  exists []. by rewrite take_copy_into0.
Qed.

(** Sliding keeps the history, and never computes [pos - WINDOW] below
    zero. *)

Lemma slide_history seen self room :
  room ≤ STEP_OUT → history_ok seen self →
  history_ok seen (slide self room) ∧
  pos (slide self room) + room ≤ length (hist (slide self room)) ∧
  (length (hist self) < pos self + room → WINDOW ≤ pos self) ∧
  zlib (slide self room) = zlib self ∧ core (slide self room) = core self.
Proof.
  intros Hr (Hl & Hp & (gone & Hs) & Hx). unfold slide.
  destruct (decide _) as [Hlt|Hge].
  2:{ split; [by split_and!; eauto|]. split_and!; [lia|lia|done|done]. }
  assert (WINDOW ≤ pos self) as HW by lia.
  set (w := take WINDOW (drop (pos self - WINDOW) (hist self))).
  assert (length w = WINDOW) as Hw.
  { unfold w. rewrite length_take, length_drop. lia. }
  cbn [pos hist zlib core]. split; [|split_and!; [|done|done|done]].
  - unfold history_ok; cbn [hist pos]. rewrite length_copy_into by lia.
    split_and!; [done|lia| |by right].
    exists (gone ++ take (pos self - WINDOW) (hist self)).
    rewrite <-Hw at 2. rewrite take_copy_into0, Hs, <-app_assoc. f_equal.
    unfold w. rewrite <-(take_drop (pos self - WINDOW) (take (pos self) (hist self))).
    rewrite take_take, Nat.min_l by lia. f_equal.
    rewrite take_drop_commute. do 2 f_equal. lia.
  - rewrite length_copy_into by lia. lia.
Qed.

Definition step_output (r : result InflateFailure (nat * list byte * bool)) : list byte :=
  match r with
  | Ok (_, out, _) => out
  | Err _ => []
  end.

Definition step_used (r : result InflateFailure (nat * list byte * bool)) : nat :=
  match r with
  | Ok (n, _, _) => n
  | Err _ => 0
  end.

(** The outcomes of a step over the slid buffer, with the decoder's laws
    applied. *)

Lemma step_history seen self src dst_len self' r :
  history_ok seen self → Inflater_step self src dst_len = (self', r) →
  history_ok (seen ++ step_output r) self' ∧
  length (step_output r) ≤ min dst_len STEP_OUT ∧ step_used r ≤ length src ∧
  zlib self' = zlib self.
Proof.
  intros Hok. unfold Inflater_step.
  set (room := min dst_len STEP_OUT).
  destruct (slide_history seen self room) as (Hsl & Hroom & _ & Hz & _); [lia|done|].
  set (sl := slide self room) in *. clearbody sl.
  destruct Hsl as (Hl & Hp & (gone & Hs) & Hx).
  set (out := take (pos sl + room) (hist sl)).
  assert (length out = pos sl + room) as Ho by (unfold out; rewrite length_take; lia).
  destruct (decompress _ _ _ _ _) as [[[[st c] p] core'] out'] eqn:Hd.
  apply decompress_bounds in Hd as (Hc & Hpr & Hol & Hot); [|lia].
  set (h' := out' ++ drop (pos sl + room) (hist sl)).
  assert (length h' = WINDOW + STEP_OUT) as Hh'.
  { unfold h'. rewrite length_app, length_drop. lia. }
  assert (take (pos sl) h' = take (pos sl) (hist sl)) as Ht.
  { unfold h'. rewrite take_app_le, Hot by lia. unfold out. rewrite take_take. f_equal. lia. }
  assert (∀ n core'' z, n ≤ room →
    history_ok (seen ++ take n (drop (pos sl) h'))
      {| core := core''; hist := h'; pos := pos sl + n; zlib := z |}) as Hgrow.
  { intros n core'' z Hn. unfold history_ok; cbn [hist pos]. split_and!; [done|lia| |].
    - exists gone. rewrite Hs, <-app_assoc, <-Ht. f_equal.
      by rewrite <-(take_drop (pos sl) (take (pos sl + n) h')), take_take,
        Nat.min_l, take_drop_commute by lia.
    - rewrite length_app, length_take, length_drop. lia. }
  assert (∀ core'' z,
    history_ok (seen ++ []) {| core := core''; hist := h'; pos := pos sl; zlib := z |}) as Hstay.
  { intros core'' z. specialize (Hgrow 0 core'' z ltac:(lia)).
    by rewrite take_0, Nat.add_0_r in Hgrow. }
  destruct st; intros [= <- <-]; cbn [step_output step_used hist pos zlib length];
    (split_and!; [by auto with lia|rewrite ?length_take, ?length_drop; lia|lia|done]).
Qed.

(** A run: one step per (input, output room), each from the state the last
    one left. *)

Fixpoint Inflater_run (self : Inflater) (calls : list (list byte * nat)) : Inflater * list byte :=
  match calls with
  | [] => (self, [])
  | (src, dst_len) :: calls =>
      let '(self, r) := Inflater_step self src dst_len in
      let '(self, out) := Inflater_run self calls in
      (self, step_output r ++ out)
  end.

Lemma run_history calls seen self :
  history_ok seen self →
  history_ok (seen ++ (Inflater_run self calls).2) (Inflater_run self calls).1.
Proof.
  revert seen self. induction calls as [|[src n] calls IH]; intros seen self Hok; cbn.
  { by rewrite app_nil_r. }
  destruct (Inflater_step self src n) as [self1 r] eqn:Hs.
  apply step_history with (seen := seen) in Hs as (Hok1 & _); [|done].
  specialize (IH _ _ Hok1). destruct (Inflater_run self1 calls) as [self2 out].
  cbn in *. by rewrite app_assoc.
Qed.

(** Reading [dist] back from [pos] in an exact history. *)

Lemma history_lookup seen self dist :
  history_ok seen self → 1 ≤ dist ≤ min (length seen) WINDOW →
  dist ≤ pos self ∧ hist self !! (pos self - dist) = seen !! (length seen - dist).
Proof.
  intros (Hl & Hp & (gone & Hs) & Hx) Hd.
  assert (length seen = length gone + pos self) as Hlen.
  { rewrite Hs at 1. rewrite length_app, length_take. lia. }
  assert (dist ≤ pos self) as Hle by lia. split; [done|].
  rewrite Hlen, Hs, lookup_app_r, lookup_take_lt by lia. f_equal. lia.
Qed.

(** C5. The window is exact: after a dictionary and any sequence of steps,
    with any inputs and output rooms and whether they failed or not, the
    byte [dist] before the write position is the stream's byte [dist] back,
    for every distance up to the window and the bytes seen so far; a buffer
    shorter than the window holds the whole stream, so a copy from before
    its first byte falls off the front and cannot read another stream's
    bytes; and the buffer never grows. *)

Theorem inflater_window_exact (z : bool) (d : list byte) (calls : list (list byte * nat)) :
  let '(self, out) := Inflater_run (Inflater_prime (Inflater_new z) d) calls in
  let seen := dict_tail d ++ out in
  length (hist self) = WINDOW + STEP_OUT ∧
  pos self ≤ length (hist self) ∧
  (pos self = length seen ∨ WINDOW ≤ pos self ∧ WINDOW ≤ length seen) ∧
  ∀ dist, 1 ≤ dist ≤ min (length seen) WINDOW →
    dist ≤ pos self ∧ hist self !! (pos self - dist) = seen !! (length seen - dist).
Proof.
  pose proof (run_history calls (dict_tail d) (Inflater_prime (Inflater_new z) d)
    (prime_history _ _ d (new_history z))) as Hok.
  destruct (Inflater_run _ calls) as [self out]; cbn [fst snd] in Hok. cbn zeta.
  split_and!; [apply Hok..| |by intros; apply history_lookup].
  destruct Hok as (Hl & Hp & (gone & Hs) & [Hx|Hx]); [by left|right]. split; [done|].
  rewrite Hs, length_app, length_take. lia.
Qed.
End History.

Lemma inflater_window_exact_witness :
  let '(self, out) := Inflater_run (H := Toy.miniz)
    (Inflater_prime (Inflater_new false) (bs "abc")) [([x02; x64], 9); ([x64; x65; x00], 9)] in
  out = bs "de" ∧ hist self !! (pos self - 3) = Some "c"%byte.
Proof.
  pose proof (inflater_window_exact (H := Toy.miniz) false (bs "abc")
    [([x02; x64], 9); ([x64; x65; x00], 9)]) as Hw.
  destruct (Inflater_run _ _) as [self out] eqn:E.
  assert (out = bs "de") as ->.
  { change out with (self, out).2. rewrite <-E. vm_compute. reflexivity. }
  split; [reflexivity|].
  destruct Hw as (_ & _ & _ & Hw). destruct (Hw 3) as [_ ->]; [vm_compute; lia|reflexivity].
Defined.

(** ** [NodeInflate]: no panic, no endless loop *)

Section Streams.
Context `{MinizLaws} `{Checksums}.

Definition at_ok (s : NodeInflate) : Prop :=
  match at_ s with
  | DictId n | ZlibTrailer n => n ≤ 3
  | GzTrailer n => n ≤ 7 ∧ ∃ crc, check s = CCrc crc
  | GzFixed n => 1 ≤ n ≤ 6
  | GzXlenHi => (0 ≤ xlen s < 256)%Z
  | GzExtra n => (1 ≤ n ≤ u16_max)%Z
  | _ => True
  end.

Definition stream_ok (s : NodeInflate) : Prop :=
  (∃ seen, history_ok seen (inflate s)) ∧ length (trailer s) = 8 ∧ at_ok s.

Definition header_state (a : At) : Prop :=
  match a with
  | Body | Between | Done => False
  | _ => True
  end.

Lemma with_dictionary_ok wrap dict : stream_ok (with_dictionary wrap dict).
Proof.
  unfold stream_ok, at_ok, with_dictionary.
  destruct wrap, dict as [[|x d]|]; cbn [at_ inflate trailer decide Wrap_eq_dec];
    (split_and!; [|done|done]);
    first [by eexists; apply new_history | by eexists; eapply prime_history, new_history].
Qed.

(** The states the optional header fields lead to carry no counter. *)

Lemma after_extra_cases (P : At → Prop) s :
  P GzName → P GzComment → P GzHcrcLo → P Body →
  P (after_extra s) ∧ P (after_name s) ∧ P (after_comment s).
Proof.
  intros. unfold after_extra, after_name, after_comment.
  by repeat (case_match || split).
Qed.

Lemma at_ok_after s s' :
  at_ok (set_at (after_extra s') s) ∧ at_ok (set_at (after_name s') s) ∧
  at_ok (set_at (after_comment s') s).
Proof. apply (after_extra_cases (λ a, at_ok (set_at a s))); done. Qed.

Lemma at_ok_after_stream s s' : at_ok (set_at (after_stream s') s).
Proof. unfold after_stream. by case_match. Qed.

Lemma xlen_le a b :
  (Z.lor (b2z a) (Z.shiftl (b2z b) 8) = from_le_bytes [a; b])%Z.
Proof.
  assert (all_bytes (λ a, all_bytes (λ b,
    Z.lor (b2z a) (Z.shiftl (b2z b) 8) =? from_le_bytes [a; b])%Z) = true) as Hall
    by (vm_compute; reflexivity).
  apply (all_bytes_spec _ a), (all_bytes_spec _ b) in Hall. by apply Z.eqb_eq in Hall.
Qed.

Lemma xlen_bounds x b :
  (0 ≤ x < 256)%Z → (0 ≤ Z.lor x (Z.shiftl (b2z b) 8) ≤ u16_max)%Z.
Proof.
  intros Hx. rewrite <-(Z.mod_small x 256), <-b2z_z2b, xlen_le by done.
  pose proof (from_le_bytes_range [z2b x; b]). cbn [length] in *. unfold u16_max. lia.
Qed.

Lemma stream_ok_put s n b :
  stream_ok s → stream_ok (set_trailer (<[n:=b]> (trailer s)) s).
Proof.
  intros (Hh & Ht & Ha). split_and!; [done| |done]. cbn. by rewrite length_insert.
Qed.

(** Every outcome of [header_byte] is one of these. *)

Definition safe_outcome (p : NodeInflate * result Fault unit) : Prop :=
  stream_ok p.1 ∧ p.2 ≠ Err Panic.

Lemma safe_fail s e : stream_ok s → safe_outcome (fail s e).
Proof. by split. Qed.

Lemma safe_go s a :
  (∃ seen, history_ok seen (inflate s)) → length (trailer s) = 8 →
  at_ok (set_at a s) → safe_outcome (go s a).
Proof. by repeat split. Qed.

Lemma safe_put s n b k :
  length (trailer s) = 8 → n ≤ 7 →
  safe_outcome (k (set_trailer (<[n:=b]> (trailer s)) s)) → safe_outcome (put_trailer s n b k).
Proof. intros Hl Hn Hk. unfold put_trailer. rewrite decide_True by lia. done. Qed.

Lemma safe_zlib_header s cmf flg :
  stream_ok s → safe_outcome (zlib_header s cmf flg).
Proof.
  intros Hs. pose proof Hs as (Hh & Ht & Ha). unfold zlib_header.
  repeat case_match; first [by apply safe_fail | by apply safe_go; [..|cbv; lia]].
Qed.

Lemma safe_preset_dictionary s :
  stream_ok s → safe_outcome (preset_dictionary s).
Proof.
  intros Hs. pose proof Hs as ([seen Hh] & Ht & Ha). unfold preset_dictionary.
  repeat case_match; first [by apply safe_fail | apply safe_go; cbn; eauto using prime_history].
Qed.

Lemma safe_header_byte s b :
  stream_ok s → header_state (at_ s) → safe_outcome (header_byte s b).
Proof.
  intros Hs Hst. unfold header_byte.
  set (s0 := if in_header_crc (at_ s) then _ else s).
  assert (stream_ok s0 ∧ at_ s0 = at_ s) as [Hs0 Hat].
  { unfold s0. case_match; [|done]. by destruct Hs as (? & ? & ?). }
  clearbody s0. clear Hs. rewrite <-Hat in Hst. clear Hat s. rename s0 into s.
  pose proof Hs0 as (Hh & Ht & Ha). unfold at_ok in Ha.
  destruct (at_ s) eqn:Eat; cbn in Hst; try done.
  all: repeat case_match;
    first [by apply safe_fail
          | by apply safe_go; [..|first [apply at_ok_after | apply at_ok_after_stream | cbn; lia]]
          | by apply safe_zlib_header
          | idtac].
  3:{ apply safe_go; [done..|]. apply b2z_range. }
  3:{ apply safe_go; [done..|]. cbn in *. bools. pose proof (xlen_bounds (xlen s) b Ha). lia. }
  all: apply safe_put; [done|lia|].
  2:{ apply safe_preset_dictionary. by apply stream_ok_put. }
  all: try destruct Ha as [? [crc Hc]]; cbn [check set_trailer]; rewrite ?Hc; repeat case_match;
    first [by apply safe_fail; apply stream_ok_put
          | apply safe_go; [done|by cbn; rewrite length_insert|];
            first [apply at_ok_after_stream | cbn; eauto with lia]].
Qed.

(** ** The loop of [step]

    A turn either consumes a byte, or goes from [Body] or [Between] to a
    state it does not come back from without consuming one. *)

Definition rank (a : At) : nat :=
  match a with
  | Done => 0
  | Body | Between => 2
  | _ => 1
  end.

Definition turns_left (s : NodeInflate) (src : list byte) (c : nat) : nat :=
  3 * (length src - c) + rank (at_ s).

(** What a call returning [r] after [c] bytes promises. *)

Definition step_ok (s' : NodeInflate) (src : list byte) (n c : nat)
  (r : result Fault (nat * list byte)) : Prop :=
  stream_ok s' ∧
  match r with
  | Ok (c', out) =>
      c ≤ c' ≤ length src ∧ length out ≤ n ∧
      (c' = c → c < length src → out = [] → at_ s' = Body)
  | Err e => e ≠ Panic
  end.

Lemma rank_le a : rank a ≤ 2.
Proof. destruct a; cbn; lia. Qed.

Lemma step_ok_weaken s' src n c c2 r : c ≤ c2 → step_ok s' src n c2 r → step_ok s' src n c r.
Proof.
  intros Hc [Hok Hr]. split; [done|]. destruct r as [[c' out]|e]; [|done].
  destruct Hr as (? & ? & Hz). split_and!; [lia..|done|]. intros -> ? ?. apply Hz; [lia|lia|done].
Qed.

Definition turn_ok (s : NodeInflate) (src : list byte) (n c : nat)
  (t : NodeInflate * Turn) : Prop :=
  match t.2 with
  | Return r => step_ok t.1 src n c r
  | Again c' => stream_ok t.1 ∧ c ≤ c' ≤ length src ∧ turns_left t.1 src c' < turns_left s src c
  end.

Lemma body_turn_ok s src n c :
  stream_ok s → at_ s = Body → c ≤ length src → turn_ok s src n c (body_turn s src n c).
Proof.
  intros ((seen & Hh) & Ht & Ha) Hat Hc. unfold body_turn.
  destruct (Inflater_step _ _ _) as [inf r] eqn:Hs.
  apply (step_history seen) in Hs as (Hh' & Hout & Hused & _); [|done].
  rewrite length_drop in Hused. unfold turn_ok, turns_left. rewrite Hat.
  destruct r as [[[used out] ended]|e]; cbn [step_output step_used] in *.
  2:{ cbn. split; [|done]. by split_and!; [eexists| |unfold at_ok; cbn; rewrite Hat]. }
  set (s1 := set_check _ _).
  assert (inflate s1 = inf ∧ trailer s1 = trailer s ∧ at_ s1 = Body) as (Hi & Htr & Hat1)
    by done.
  clearbody s1. destruct ended; cbn [negb orb].
  - assert (stream_ok (set_at (trailer_state (check s1)) s1)) as Hok.
    { split_and!; cbn; [rewrite Hi; by eexists|by rewrite Htr|].
      unfold at_ok, trailer_state. destruct (check s1) eqn:Ec; cbn; rewrite ?Ec; eauto with lia. }
    destruct (bool_decide_reflect (0 < length out)); cbn [orb fst snd].
    { split; [done|]. split_and!; [lia..|]. intros _ _ ->. cbn in *. lia. }
    split_and!; [done|lia|lia|]. cbn [fst at_ set_at].
    destruct (check s1); cbn [rank trailer_state]; lia.
  - rewrite orb_true_r. cbn. split; [|by split_and!; [lia..|]].
    split_and!; [rewrite Hi; by eexists|by rewrite Htr|]. unfold at_ok. by rewrite Hat1.
Qed.

Lemma header_turn_ok s src n c :
  stream_ok s → header_state (at_ s) → c ≤ length src → turn_ok s src n c (turn s src n c).
Proof.
  intros Hs Hst Hc.
  assert (turn s src n c =
    match src !! c with
    | None => (s, Return (Ok (c, [])))
    | Some b => match header_byte s b with
                | (s, Ok _) => (s, Again (S c))
                | (s, Err e) => (s, Return (Err e))
                end
    end) as -> by (unfold turn; by destruct (at_ s)).
  unfold turn_ok, turns_left. destruct (src !! c) as [b|] eqn:Eb.
  - apply lookup_lt_Some in Eb.
    pose proof (safe_header_byte s b Hs Hst) as [Hok Hnp].
    destruct (header_byte s b) as [s' [[]|e]]; cbn in *; [|split; [done|congruence]].
    pose proof (rank_le (at_ s')). split_and!; [done|lia..|].
    assert (1 ≤ rank (at_ s)); [|lia]. revert Hst. clear. destruct (at_ s); cbn; lia.
  - apply lookup_ge_None in Eb. cbn. split; [done|]. split_and!; cbn; [lia..|]. intros. lia.
Qed.

Lemma turn_is_ok s src n c :
  stream_ok s → c ≤ length src → turn_ok s src n c (turn s src n c).
Proof.
  intros Hs Hc. pose proof Hs as ((seen & Hh) & Ht & Ha).
  destruct (at_ s) eqn:Eat; try (apply header_turn_ok; [done|by rewrite Eat|done]);
    unfold turn; rewrite Eat.
  - by apply body_turn_ok.
  - unfold turn_ok, turns_left. rewrite Eat.
    destruct (src !! c) as [b|] eqn:Eb.
    + apply lookup_lt_Some in Eb. case_decide; cbn [fst snd].
      * by split_and!; [split_and!; [eexists| |]|lia..|cbn; lia].
      * split_and!; [split_and!; [|done|done]|lia..|cbn; lia].
        eexists. by eapply reset_history.
    + apply lookup_ge_None in Eb. cbn. split; [done|]. split_and!; cbn; [lia..|]. intros. lia.
  - cbn. split; [done|]. split_and!; cbn; [lia..|]. intros. lia.
Qed.

Lemma step_loop_ok fuel s src n c :
  stream_ok s → c ≤ length src → turns_left s src c < fuel →
  ∃ s' r, step_loop fuel s src n c = (s', Some r) ∧ step_ok s' src n c r.
Proof.
  revert s c. induction fuel as [|fuel IH]; intros s c Hs Hc Hf; [lia|]. cbn.
  pose proof (turn_is_ok s src n c Hs Hc) as Ht. unfold turn_ok in Ht.
  destruct (turn s src n c) as [s1 [r|c1]]; cbn [fst snd] in Ht; [eauto|].
  destruct Ht as (Hs1 & Hc1 & Hl). destruct (IH s1 c1) as (s' & r & -> & Hr); [done|lia..|].
  exists s', r. split; [done|]. eapply step_ok_weaken; [|done]. lia.
Qed.

Lemma step_is_ok s src n :
  stream_ok s → ∃ s' r, step s src n = (s', Some r) ∧ step_ok s' src n 0 r.
Proof.
  intros Hs. apply step_loop_ok; [done|lia|].
  unfold turns_left, step_fuel. pose proof (rank_le (at_ s)). lia.
Qed.

(** The stream after a sequence of calls, whatever they returned. *)

Definition stream_after (s : NodeInflate) (calls : list (list byte * nat)) : NodeInflate :=
  foldl (λ s call, (step s call.1 call.2).1) s calls.

Lemma stream_after_ok s calls : stream_ok s → stream_ok (stream_after s calls).
Proof.
  revert s. induction calls as [|[src n] calls IH]; intros s Hs; [done|].
  apply (IH (step s src n).1). destruct (step_is_ok s src n Hs) as (s' & r & E & [? _]). by rewrite E.
Qed.

(** C6. For every wrapper and dictionary, after any sequence of calls and
    on any input, [step] returns (the fuel of the loop is enough), without
    reaching an [unreachable!] or indexing past [trailer]; it consumes no
    more than its input and produces no more than the room it was given.
    And it answers (0, 0) to input it was given only from inside the
    deflate data: a header or trailer byte is always consumed or refused. *)

Theorem inflate_step_total (wrap : Wrap) (dict : option (list byte))
  (calls : list (list byte * nat)) (src : list byte) (dst_len : nat) :
  ∃ s' r, step (stream_after (with_dictionary wrap dict) calls) src dst_len = (s', Some r) ∧
    match r with
    | Ok (consumed, out) =>
        consumed ≤ length src ∧ length out ≤ dst_len ∧
        (consumed = 0 → out = [] → src ≠ [] → at_ s' = Body)
    | Err e => e ≠ Panic
    end.
Proof.
  destruct (step_is_ok (stream_after (with_dictionary wrap dict) calls) src dst_len)
    as (s' & r & -> & _ & Hr); [by apply stream_after_ok, with_dictionary_ok|].
  exists s', r. split; [done|]. destruct r as [[c out]|e]; [|done].
  destruct Hr as (? & ? & Hz). split_and!; [lia..|]. intros -> ? Hne. apply Hz; [done| |done].
  destruct src; cbn; [done|lia].
Qed.
End Streams.

(** A gzip member of the two bytes "hi", then a second, empty one. *)

Definition toy_gzip : list byte :=
  [x1f; x8b; x08; x00; x00; x00; x00; x00; x00; xff; x02; x68; x69; x00;
   xd1; x00; x00; x00; x02; x00; x00; x00].

Lemma inflate_step_total_witness :
  ∃ s' r, step (H := Toy.miniz) (H0 := Toy.checksums)
      (stream_after (with_dictionary WAuto None) [(take 12 toy_gzip, 100)])
      (drop 11 toy_gzip) 100 = (s', Some r) ∧ r ≠ Err Panic.
Proof.
  destruct (inflate_step_total (H := Toy.miniz) (H1 := Toy.checksums) WAuto None
    [(take 12 toy_gzip, 100)] (drop 11 toy_gzip) 100) as (s' & r & E & Hr).
  exists s', r. split; [exact E|]. destruct r; congruence.
Defined.

(** ** The gzip header of RFC 1952 *)

Record GzHeader : Type := {
  gz_flags : byte;
  gz_fixed : list byte;      (* MTIME, XFL, OS *)
  gz_extra : list byte;
  gz_name : list byte;
  gz_comment : list byte
}.

Definition gz_field (flags : byte) (mask : Z) (l : list byte) : list byte :=
  if has_flag flags mask then l else [].

Definition gz_wf (h : GzHeader) : Prop :=
  has_flag (gz_flags h) GZ_RESERVED = false ∧ length (gz_fixed h) = 6 ∧
  (Z.of_nat (length (gz_extra h)) ≤ u16_max)%Z ∧ (x00 ∉ gz_name h) ∧ (x00 ∉ gz_comment h).

Definition gz_covered (h : GzHeader) : list byte :=
  [x1f; x8b; x08; gz_flags h] ++ gz_fixed h ++
  gz_field (gz_flags h) GZ_FEXTRA
    (to_le_bytes 2 (Z.of_nat (length (gz_extra h))) ++ gz_extra h) ++
  gz_field (gz_flags h) GZ_FNAME (gz_name h ++ [x00]) ++
  gz_field (gz_flags h) GZ_FCOMMENT (gz_comment h ++ [x00]).

Section GzipFraming.
Context `{Miniz} `{ChecksumLaws}.

(** The two low bytes of the CRC of what came before (FHCRC). *)

Definition crc16 (c : Crc) : list byte := to_le_bytes 2 (Z.land (crc_sum c) 65535).

Definition gz_render (h : GzHeader) : list byte :=
  gz_covered h ++ gz_field (gz_flags h) GZ_FHCRC (crc16 (crc_update crc_new (gz_covered h))).

(** Feeding header or trailer bytes one after another, as the loop of
    [step] does. *)

Fixpoint header_bytes (s : NodeInflate) (l : list byte) : NodeInflate * result Fault unit :=
  match l with
  | [] => (s, Ok tt)
  | b :: l =>
      match header_byte s b with
      | (s, Ok _) => header_bytes s l
      | (s, Err e) => (s, Err e)
      end
  end.

Lemma header_bytes_app s l l' :
  header_bytes s (l ++ l') =
  match header_bytes s l with
  | (s, Ok _) => header_bytes s l'
  | (s, Err e) => (s, Err e)
  end.
Proof.
  revert s. induction l as [|b l IH]; intros s; [done|]. cbn -[header_byte].
  destruct (header_byte s b) as [s1 [[]|e]]; [apply IH|done].
Qed.

(** [l] takes [s] through the rest of its gzip header to the body, with
    nothing but the header's own fields changed. *)

Definition leads (s : NodeInflate) (l : list byte) : Prop :=
  ∃ s', header_bytes s l = (s', Ok tt) ∧ at_ s' = Body ∧ check s' = check s ∧
        inflate s' = inflate s ∧ members s' = members s ∧ trailer s' = trailer s.

(** A state moved to [a] by bytes [l] covered by the header CRC. *)

Definition adv (s : NodeInflate) (a : At) (l : list byte) : NodeInflate :=
  set_at a (set_header_crc (crc_update (header_crc s) l) s).

Lemma leads_nil s : leads s [] ↔ at_ s = Body.
Proof.
  split; [|by eexists]. intros (s' & [= <-] & ? & _). done.
Qed.

Lemma leads_cons_go s b l s1 :
  header_byte s b = (s1, Ok tt) → check s1 = check s → inflate s1 = inflate s →
  members s1 = members s → trailer s1 = trailer s → leads s (b :: l) ↔ leads s1 l.
Proof.
  intros Hb Hc Hi Hm Ht. unfold leads. cbn -[header_byte]. rewrite Hb, Hc, Hi, Hm, Ht. done.
Qed.

Lemma leads_cons_err s b l s1 e : header_byte s b = (s1, Err e) → ¬ leads s (b :: l).
Proof. intros Hb (s' & Hl & _). cbn -[header_byte] in Hl. by rewrite Hb in Hl. Qed.

Lemma leads_body s l : at_ s = Body → leads s l ↔ l = [].
Proof.
  intros Ha. split; [|intros ->; by apply leads_nil]. destruct l as [|b l]; [done|].
  intros Hl. exfalso. revert Hl. eapply leads_cons_err. unfold header_byte. rewrite Ha. cbn.
  by rewrite Ha.
Qed.

(** One byte in each state of the header. *)

Ltac one_byte Ha := unfold header_byte; rewrite Ha; cbn [in_header_crc at_ set_header_crc];
  rewrite Ha; repeat (first [rewrite decide_True by done | rewrite decide_False by done]).

Lemma crc16_two a b c :
  (from_le_bytes [a; b] =? Z.land (crc_sum c) 65535)%Z = true ↔ [a; b] = crc16 c.
Proof.
  rewrite Z.eqb_eq. unfold crc16. apply (from_le_bytes_eq [a; b]). cbn [length].
  change 65535%Z with (Z.ones 16). rewrite Z.land_ones by lia.
  pose proof (Z.mod_pos_bound (crc_sum c) (2 ^ 16) ltac:(lia)). lia.
Qed.

Lemma leads_hcrc s l : at_ s = GzHcrcLo → leads s l ↔ l = crc16 (header_crc s).
Proof.
  intros Ha. destruct l as [|a l].
  { rewrite leads_nil, Ha. unfold crc16. split; [done|]. intros E. discriminate. }
  rewrite (leads_cons_go s a l (set_at GzHcrcHi (set_held a s))); [|by one_byte Ha|done..].
  destruct l as [|b l].
  { rewrite leads_nil. unfold crc16. split; [done|]. intros E. discriminate. }
  assert (header_byte (set_at GzHcrcHi (set_held a s)) b =
    (if negb (from_le_bytes [a; b] =? Z.land (crc_sum (header_crc s)) 65535)%Z
     then fail (set_at GzHcrcHi (set_held a s)) (data_error "header crc mismatch")
     else go (set_at GzHcrcHi (set_held a s)) Body)) as Hb by done.
  pose proof (crc16_two a b (header_crc s)) as H16.
  destruct (_ =? _)%Z; cbn [negb] in Hb.
  - erewrite leads_cons_go, leads_body by done. destruct H16 as [H16 _].
    rewrite <-H16 by done. split; [by intros ->|by intros [= ->]].
  - split; [intros Hl; exfalso; eapply leads_cons_err; done|].
    intros E. exfalso. assert (l = []) as ->.
    { unfold crc16 in E. by injection E. }
    destruct H16 as [_ H16]. by apply H16 in E.
Qed.

Lemma leads_after_comment s crc l :
  leads (set_at (after_comment s) (set_header_crc crc s)) l ↔
  l = gz_field (flags s) GZ_FHCRC (crc16 crc).
Proof.
  unfold after_comment, gz_field. case_match; [by rewrite leads_hcrc|by rewrite leads_body].
Qed.

Lemma adv_adv s a a' l l' : adv (adv s a l) a' l' = adv s a' (l ++ l').
Proof. unfold adv, set_at, set_header_crc; cbn. by rewrite crc_update_app. Qed.

Lemma leads_adv s a b l :
  header_byte s b = (adv s a [b], Ok tt) → leads s (b :: l) ↔ leads (adv s a [b]) l.
Proof. intros Hb. by apply leads_cons_go. Qed.

(** A zero-terminated field. *)

Lemma leads_zstring s l (a : At) (k : NodeInflate → At) :
  a ≠ Body → at_ s = a → (∀ s l, k (adv s a l) = k s) →
  (∀ s b, at_ s = a → header_byte s b =
     (adv s (if decide (b = x00) then k s else a) [b], Ok tt)) →
  leads s l ↔ ∃ t r, (x00 ∉ t) ∧ l = (t ++ [x00]) ++ r ∧ leads (adv s (k s) (t ++ [x00])) r.
Proof.
  intros Hne Ha Hk Hb. revert s Ha. induction l as [|b l IH]; intros s Ha.
  { rewrite leads_nil, Ha. split; [done|]. intros ([|] & r & _ & E & _); discriminate. }
  rewrite leads_adv by (by apply Hb). destruct (decide (b = x00)) as [->|Hz].
  - split.
    + intros Hl. exists [], l. split_and!; [apply not_elem_of_nil|done..].
    + intros ([|c t] & r & Hn & E & Hl); cbn in E; injection E; [by intros ->|].
      intros _ <-. by destruct Hn; left.
  - rewrite IH by done. split; intros (t & r & Hn & E & Hl).
    + exists (b :: t), r. split_and!; [by apply not_elem_of_cons|by rewrite E|].
      by rewrite Hk, adv_adv in Hl.
    + destruct t as [|c t]; cbn in E; injection E; [by intros _ ->|]. intros El <-.
      exists t, r. apply not_elem_of_cons in Hn as [_ Hn]. rewrite Hk, adv_adv. done.
Qed.

Lemma leads_comment s l :
  at_ s = GzComment →
  leads s l ↔ ∃ t, (x00 ∉ t) ∧ l = (t ++ [x00]) ++
    gz_field (flags s) GZ_FHCRC (crc16 (crc_update (header_crc s) (t ++ [x00]))).
Proof.
  intros Ha. rewrite (leads_zstring s l GzComment after_comment); [|done..|].
  - setoid_rewrite leads_after_comment. split; [intros (t & r & ? & -> & ->)|intros (t & ? & ->)]; eauto.
  - intros s' b Ha'. one_byte Ha'. by destruct (decide (b = x00)).
Qed.

Lemma leads_after_name s crc l :
  leads (set_at (after_name s) (set_header_crc crc s)) l ↔
  ∃ t, (x00 ∉ t) ∧
    let m := gz_field (flags s) GZ_FCOMMENT (t ++ [x00]) in
    l = m ++ gz_field (flags s) GZ_FHCRC (crc16 (crc_update crc m)).
Proof.
  unfold after_name, gz_field at 1 3. case_match; [by rewrite leads_comment|].
  rewrite leads_after_comment, crc_update_nil. cbn [app].
  split; [intros ->; exists []|by intros (t & _ & ->)]. split; [apply not_elem_of_nil|done].
Qed.

Lemma leads_name s l :
  at_ s = GzName →
  leads s l ↔ ∃ n t, (x00 ∉ n) ∧ (x00 ∉ t) ∧
    let m := (n ++ [x00]) ++ gz_field (flags s) GZ_FCOMMENT (t ++ [x00]) in
    l = m ++ gz_field (flags s) GZ_FHCRC (crc16 (crc_update (header_crc s) m)).
Proof.
  intros Ha. rewrite (leads_zstring s l GzName after_name); [|done..|].
  - setoid_rewrite leads_after_name. cbv zeta. setoid_rewrite crc_update_app.
    setoid_rewrite <-(app_assoc (_ ++ [x00])).
    split; [intros (n & r & ? & -> & t & ? & ->)|intros (n & t & ? & ? & ->)]; eauto 8.
  - intros s' b Ha'. one_byte Ha'. by destruct (decide (b = x00)).
Qed.

(** The name, comment and CRC that end a header whose flags are [f], after
    bytes with CRC [crc]. *)

Definition gz_tail (f : byte) (crc : Crc) (n t : list byte) : list byte :=
  let m := gz_field f GZ_FNAME (n ++ [x00]) ++ gz_field f GZ_FCOMMENT (t ++ [x00]) in
  m ++ gz_field f GZ_FHCRC (crc16 (crc_update crc m)).

Lemma leads_after_extra s crc l :
  leads (set_at (after_extra s) (set_header_crc crc s)) l ↔
  ∃ n t, (x00 ∉ n) ∧ (x00 ∉ t) ∧ l = gz_tail (flags s) crc n t.
Proof.
  unfold after_extra, gz_tail, gz_field at 1 4. case_match; [by rewrite leads_name|].
  rewrite leads_after_name. cbn [app].
  split; [intros (t & ? & ->); exists [], t|intros (n & t & ? & ? & ->); eauto].
  split_and!; [apply not_elem_of_nil|done..].
Qed.

(** A field of [n] bytes. *)

Lemma leads_counted {N : Type} (st : N → At) (count : N → nat) (prev : N → N)
  (k : NodeInflate → At) s l n :
  (∀ n, st n ≠ Body) → (∀ n, 2 ≤ count n → count (prev n) = count n - 1) →
  (∀ s l n, k (adv s (st n) l) = k s) →
  (∀ s b n, at_ s = st n → header_byte s b =
     (adv s (if decide (2 ≤ count n) then st (prev n) else k s) [b], Ok tt)) →
  at_ s = st n → 1 ≤ count n →
  leads s l ↔ ∃ e r, length e = count n ∧ l = e ++ r ∧ leads (adv s (k s) e) r.
Proof.
  intros Hne Hp Hk Hb. revert s n. induction l as [|b l IH]; intros s n Ha Hn.
  { rewrite leads_nil, Ha. split; [intros E; by apply Hne in E|].
    intros ([|] & r & ? & E & _); [cbn in *; lia|discriminate]. }
  rewrite leads_adv by (by apply Hb). destruct (decide (2 ≤ count n)) as [H2|H2].
  - rewrite (IH _ (prev n)) by (done || (rewrite Hp; lia)). rewrite Hp by done.
    split; intros (e & r & Hl & E & Hr).
    + exists (b :: e), r. split_and!; [cbn; lia|by rewrite E|]. by rewrite Hk, adv_adv in Hr.
    + destruct e as [|c e]; [cbn in Hl; lia|]. cbn in E. injection E as -> ->.
      exists e, r. rewrite Hk, adv_adv. cbn in Hl. split_and!; [lia|done..].
  - split.
    + intros Hl. exists [b], l. split_and!; [cbn; lia|done..].
    + intros ([|c [|d e]] & r & Hl & E & Hr); cbn in Hl; [lia| |lia].
      cbn in E. by injection E as -> ->.
Qed.

Lemma leads_extra s l n :
  at_ s = GzExtra n → (1 ≤ n)%Z →
  leads s l ↔ ∃ e a t, Z.of_nat (length e) = n ∧ (x00 ∉ a) ∧ (x00 ∉ t) ∧
    l = e ++ gz_tail (flags s) (crc_update (header_crc s) e) a t.
Proof.
  intros Ha Hn. rewrite (leads_counted GzExtra Z.to_nat (λ n, n - 1)%Z after_extra s l n);
    [|done|lia|done| |done|lia].
  - setoid_rewrite leads_after_extra.
    split; [intros (e & r & ? & -> & a & t & ? & ? & ->)|intros (e & a & t & ? & ? & ? & ->)].
    + exists e, a, t. split_and!; [lia|done..].
    + exists e. eexists. split_and!; [lia|done|]. eauto.
  - intros s' b m Ha'. one_byte Ha'. destruct (1 <? m)%Z eqn:E1; bools;
      [rewrite decide_True by lia|rewrite decide_False by lia]; done.
Qed.

Definition gz_extra_field (e : list byte) : list byte :=
  to_le_bytes 2 (Z.of_nat (length e)) ++ e.

Lemma length_extra_eq a b (e : list byte) :
  from_le_bytes [a; b] = Z.of_nat (length e) ↔
  (Z.of_nat (length e) ≤ u16_max)%Z ∧ [a; b] = to_le_bytes 2 (Z.of_nat (length e)).
Proof.
  pose proof (from_le_bytes_range [a; b]) as Hr. cbn [length] in Hr. unfold u16_max.
  split.
  - intros E. split; [lia|]. rewrite <-E. symmetry. apply (to_from_le_bytes [a; b]).
  - intros [? E]. rewrite E. apply from_to_le_bytes. lia.
Qed.

Lemma leads_xlen s l :
  at_ s = GzXlenLo →
  leads s l ↔ ∃ e a t, (Z.of_nat (length e) ≤ u16_max)%Z ∧ (x00 ∉ a) ∧ (x00 ∉ t) ∧
    l = gz_extra_field e ++
        gz_tail (flags s) (crc_update (header_crc s) (gz_extra_field e)) a t.
Proof.
  intros Ha. unfold gz_extra_field. destruct l as [|lo l].
  { rewrite leads_nil, Ha. split; [done|]. intros (? & ? & ? & _ & _ & _ & [=]). }
  erewrite leads_cons_go; [|by one_byte Ha|done..]. destruct l as [|hi l].
  { rewrite leads_nil. split; [done|]. intros (? & ? & ? & _ & _ & _ & [=]). }
  set (s1 := set_at GzXlenHi _).
  set (s2 := set_xlen (Z.lor (b2z lo) (Z.shiftl (b2z hi) 8))
               (set_header_crc (crc_update (header_crc s1) [hi]) s1)).
  assert (xlen s2 = from_le_bytes [lo; hi]) as Hx by apply xlen_le.
  assert (header_crc s2 = crc_update (header_crc s) [lo; hi]) as Hc by apply crc_update_app.
  assert (header_byte s1 hi =
    if (xlen s2 =? 0)%Z then go s2 (after_extra s2) else go s2 (GzExtra (xlen s2))) as Hb by done.
  pose proof (from_le_bytes_range [lo; hi]) as Hr.
  assert (leads s1 (hi :: l) ↔ ∃ e a t, Z.of_nat (length e) = xlen s2 ∧ (x00 ∉ a) ∧ (x00 ∉ t) ∧
    l = e ++ gz_tail (flags s) (crc_update (header_crc s2) e) a t) as ->.
  { destruct (xlen s2 =? 0)%Z eqn:E0; rewrite ?E0 in Hb; bools; erewrite leads_cons_go; [|exact Hb|try done..].
    - rewrite (leads_after_extra s2 (header_crc s2)). split.
      + intros (a & t & ? & ? & ->). exists [], a, t. by rewrite crc_update_nil.
      + intros (e & a & t & ? & ? & ? & ->). assert (e = []) as -> by (destruct e; cbn in *; lia || done).
        rewrite crc_update_nil. eauto.
    - by rewrite (leads_extra _ l (xlen s2)) by (done || lia). }
  rewrite Hx, Hc. split.
  - intros (e & a & t & He & ? & ? & ->). symmetry in He. apply length_extra_eq in He as [? E].
    exists e, a, t. rewrite <-E. split_and!; [done..|].
    cbn [app]. by rewrite crc_update_app.
  - intros (e & a & t & ? & ? & ? & E). exists e, a, t.
    rewrite <-(app_assoc _ e) in E. cbn [to_le_bytes app] in E. injection E as E1 E2 ->.
    assert ([lo; hi] = to_le_bytes 2 (Z.of_nat (length e))) as E by (cbn; by rewrite E1, E2).
    split_and!; [symmetry; by apply length_extra_eq|done..|].
    rewrite E, crc_update_app. done.
Qed.

(** What follows the fixed part of a header, and the whole of it. *)

Definition gz_rest (f : byte) (crc : Crc) (e a t : list byte) : list byte :=
  let m := gz_field f GZ_FEXTRA (gz_extra_field e) in m ++ gz_tail f (crc_update crc m) a t.

Lemma leads_fixed s l :
  at_ s = GzFixed 6 →
  leads s l ↔ ∃ x e a t, length x = 6 ∧ (Z.of_nat (length e) ≤ u16_max)%Z ∧
    (x00 ∉ a) ∧ (x00 ∉ t) ∧ l = x ++ gz_rest (flags s) (crc_update (header_crc s) x) e a t.
Proof.
  intros Ha.
  rewrite (leads_counted GzFixed (λ n, n) pred
    (λ s, if has_flag (flags s) GZ_FEXTRA then GzXlenLo else after_extra s) s l 6);
    [|done|intros; cbn; lia|done| |done|lia].
  - unfold gz_rest, gz_field at 1 2.
    destruct (has_flag (flags s) GZ_FEXTRA).
    + setoid_rewrite (λ x l, leads_xlen (adv s GzXlenLo x) l eq_refl). split.
      * intros (x & r & ? & -> & e & a & t & ? & ? & ? & ->). by exists x, e, a, t.
      * intros (x & e & a & t & ? & ? & ? & ? & ->). eauto 12.
    + setoid_rewrite leads_after_extra. split.
      * intros (x & r & ? & -> & a & t & ? & ? & ->). exists x, [], a, t.
        rewrite crc_update_nil. done.
      * intros (x & e & a & t & ? & ? & ? & ? & ->). rewrite crc_update_nil. eauto 12.
  - intros s' b m Ha'. one_byte Ha'. destruct (decide (1 < m)) as [Hm|Hm].
    + rewrite decide_True by lia. do 3 f_equal. by rewrite Nat.sub_1_r.
    + rewrite decide_False by lia. cbn [flags set_header_crc]. by case_match.
Qed.

Lemma gz_render_rest h :
  gz_render h = [x1f; x8b; x08; gz_flags h] ++ gz_fixed h ++
    gz_rest (gz_flags h) (crc_update crc_new ([x1f; x8b; x08; gz_flags h] ++ gz_fixed h))
      (gz_extra h) (gz_name h) (gz_comment h).
Proof.
  unfold gz_render, gz_covered, gz_rest, gz_tail, gz_extra_field. cbv zeta.
  by rewrite !crc_update_app, <-!app_assoc.
Qed.

(** Nothing but the header's own fields changes on the way. *)

Definition gz_state (a : At) : Prop :=
  match a with
  | GzCm | GzFlg | GzFixed _ | GzXlenLo | GzXlenHi | GzExtra _ | GzName | GzComment | GzHcrcLo
  | GzHcrcHi | Body => True
  | _ => False
  end.

Definition kept (s s' : NodeInflate) : Prop :=
  check s' = check s ∧ inflate s' = inflate s ∧ members s' = members s ∧ trailer s' = trailer s.

Lemma gz_byte_kept s b s' :
  gz_state (at_ s) → header_byte s b = (s', Ok tt) → gz_state (at_ s') ∧ kept s s'.
Proof.
  assert (∀ s, gz_state (after_extra s) ∧ gz_state (after_name s) ∧ gz_state (after_comment s))
    as Hafter by (intros; by apply after_extra_cases).
  assert (∀ s1 s1' a, gz_state a → kept s s1 → go s1 a = (s1', Ok tt) →
    gz_state (at_ s1') ∧ kept s s1') as Hgo by (by intros s1 s1' a ? ? [= <-]).
  intros Hg. unfold header_byte. destruct (at_ s) eqn:Ha; cbn in Hg; try done;
    cbn [in_header_crc at_ set_header_crc]; rewrite Ha; repeat case_match; intros E;
    first [discriminate | eapply Hgo; [..|exact E]; first [done | apply Hafter]].
Qed.

Lemma gz_bytes_kept s l s' :
  gz_state (at_ s) → header_bytes s l = (s', Ok tt) → kept s s'.
Proof.
  revert s. induction l as [|b l IH]; intros s Hg; cbn -[header_byte]; [by intros [= <-]|].
  destruct (header_byte s b) as [s1 [[]|e]] eqn:E; [|done]. intros El.
  apply gz_byte_kept in E as [Hg1 (? & ? & ? & ?)]; [|done].
  apply IH in El as (? & ? & ? & ?); [|done]. unfold kept. split_and!; congruence.
Qed.

Lemma leads_accepts s l :
  gz_state (at_ s) → leads s l ↔ ∃ s', header_bytes s l = (s', Ok tt) ∧ at_ s' = Body.
Proof.
  intros Hg. split; [intros (s' & ? & ? & _); eauto|]. intros (s' & Hl & ?).
  exists s'. pose proof (gz_bytes_kept s l s' Hg Hl) as (? & ? & ? & ?). done.
Qed.

(** A stream about to read a gzip member's header. *)

Definition at_member (s : NodeInflate) : Prop :=
  wrap s = WGzip ∧ at_ s = Head0 ∧ header_crc s = crc_new.

(** The four bytes before the fixed part. *)

Definition after_magic (s : NodeInflate) (f : byte) : NodeInflate :=
  set_at (GzFixed 6) (set_flags f (set_held x08 (set_check (CCrc crc_new) (set_members true
    (set_header_crc (crc_update crc_new [x1f; x8b; x08; f]) s))))).

Lemma byte_head0 s b :
  at_ s = Head0 → header_byte s b = (adv (set_held b s) Head1 [b], Ok tt).
Proof. intros Ha. by one_byte Ha. Qed.

Lemma byte_head1 s b :
  at_ s = Head1 → wrap s = WGzip →
  header_byte s b =
    if bool_decide (held s = x1f) && bool_decide (b = x8b)
    then (adv (set_check (CCrc crc_new) (set_members true s)) GzCm [b], Ok tt)
    else fail (set_header_crc (crc_update (header_crc s) [b]) s)
           (data_error "incorrect header check").
Proof.
  intros Ha Hw. one_byte Ha. cbn [wrap set_header_crc held]. rewrite Hw. cbn [orb].
  by destruct (_ && _).
Qed.

Lemma byte_cm s b : at_ s = GzCm → header_byte s b = (adv (set_held b s) GzFlg [b], Ok tt).
Proof. intros Ha. by one_byte Ha. Qed.

Lemma byte_flg s b :
  at_ s = GzFlg →
  (header_byte s b).2 = Ok tt → held s = x08 ∧ has_flag b GZ_RESERVED = false.
Proof.
  intros Ha. one_byte Ha. cbn [held set_header_crc]. repeat case_match; bools; done.
Qed.

Lemma byte_flg_ok s b :
  at_ s = GzFlg → held s = x08 → has_flag b GZ_RESERVED = false →
  header_byte s b = (adv (set_flags b s) (GzFixed 6) [b], Ok tt).
Proof. intros Ha Hh Hf. one_byte Ha. cbn [held set_header_crc]. by rewrite Hh, Hf. Qed.

Lemma magic_bytes s f :
  at_member s → has_flag f GZ_RESERVED = false →
  header_bytes s [x1f; x8b; x08; f] = (after_magic s f, Ok tt).
Proof.
  intros (Hw & Ha & Hc) Hf.
  assert (crc_update crc_new [x1f; x8b; x08; f] =
    crc_update (crc_update (crc_update (crc_update (header_crc s) [x1f]) [x8b]) [x08]) [f])
    as Hcrc by (by rewrite Hc, !crc_update_app).
  unfold after_magic. rewrite Hcrc. cbn [header_bytes].
  rewrite byte_head0, byte_head1 by done. cbn [held adv set_held set_at set_header_crc].
  rewrite !bool_decide_true by done. cbn [andb]. rewrite byte_cm, byte_flg_ok by done.
  reflexivity.
Qed.

Lemma magic_needed s l s' :
  at_member s → header_bytes s l = (s', Ok tt) → at_ s' = Body →
  ∃ f r, has_flag f GZ_RESERVED = false ∧ l = [x1f; x8b; x08; f] ++ r.
Proof.
  intros (Hw & Ha & Hc). destruct l as [|b0 l]; cbn [header_bytes]; [intros [= <-]; congruence|].
  rewrite byte_head0 by done. destruct l as [|b1 l]; cbn [header_bytes]; [by intros [= <-]|].
  rewrite byte_head1 by done. cbn [held adv set_held set_at set_header_crc].
  destruct (_ && _) eqn:E; [|done]. bools. subst.
  destruct l as [|b2 l]; cbn [header_bytes]; [by intros [= <-]|]. rewrite byte_cm by done.
  destruct l as [|b3 l]; cbn [header_bytes]; [by intros [= <-]|].
  set (s3 := adv _ _ _). pose proof (byte_flg s3 b3 eq_refl) as Hf.
  destruct (header_byte s3 b3) as [s4 [[]|e]]; [|done]. intros _ _.
  destruct (Hf eq_refl) as [E8 Hres]. cbn in E8. subst. by exists b3, l.
Qed.

(** From the start of a member, a gunzip stream reads [l] to the first
    byte of the deflate data exactly when [l] is a gzip header as RFC 1952
    lays it out: the magic, method 8, no reserved flag, the six fixed
    bytes, then the extra field, name, comment and header CRC the flags
    announce, in that order, the CRC the right one.  The data then feeds a
    fresh CRC, with the inflater untouched. *)

Lemma gzip_header_language (s : NodeInflate) (l : list byte) :
  at_member s →
  ((∃ s', header_bytes s l = (s', Ok tt) ∧ at_ s' = Body) ↔ ∃ h, gz_wf h ∧ l = gz_render h) ∧
  (∀ s', header_bytes s l = (s', Ok tt) → at_ s' = Body →
    check s' = CCrc crc_new ∧ inflate s' = inflate s ∧ members s' = true).
Proof.
  intros Hs.
  assert (∀ f r, has_flag f GZ_RESERVED = false →
    header_bytes s ([x1f; x8b; x08; f] ++ r) = header_bytes (after_magic s f) r) as Hm.
  { intros f r Hf. by rewrite header_bytes_app, magic_bytes. }
  split; [split|].
  - intros (s' & Hl & Hb). destruct (magic_needed s l s' Hs Hl Hb) as (f & r & Hf & ->).
    rewrite Hm in Hl by done.
    assert (leads (after_magic s f) r) as Hr by (apply leads_accepts; [done|eauto]).
    apply leads_fixed in Hr as (x & e & a & t & ? & ? & ? & ? & ->); [|done].
    exists {| gz_flags := f; gz_fixed := x; gz_extra := e; gz_name := a; gz_comment := t |}.
    split; [by split_and!|]. rewrite gz_render_rest. cbn -[app gz_rest].
    by rewrite crc_update_app.
  - intros (h & (Hf & ? & ? & ? & ?) & ->). rewrite gz_render_rest, Hm by done.
    apply leads_accepts; [done|]. apply leads_fixed; [done|].
    eexists _, _, _, _. split_and!; [..|by rewrite <-crc_update_app]; done.
  - intros s' Hl Hb. destruct (magic_needed s l s' Hs Hl Hb) as (f & r & Hf & ->).
    rewrite Hm in Hl by done. apply gz_bytes_kept in Hl as (-> & -> & -> & _); done.
Qed.

(** ** The trailer of a member *)

Definition turn_output (t : Turn) : list byte :=
  match t with
  | Return (Ok (_, out)) => out
  | _ => []
  end.

(** One member from its first body byte on: the turns of the body, over any
    inputs and rooms, then the bytes of the trailer.  [out] is what the
    member has produced and [tr] the trailer bytes read. *)

Inductive member_run (s0 : NodeInflate) : list byte → list byte → NodeInflate → Prop :=
| member_start : member_run s0 [] [] s0
| member_body out tr s src n c s' t :
    member_run s0 out tr s → at_ s = Body → body_turn s src n c = (s', t) →
    (∀ e, t ≠ Return (Err e)) → member_run s0 (out ++ turn_output t) tr s'
| member_trailer out tr s b s' k :
    member_run s0 out tr s → at_ s = GzTrailer k → header_byte s b = (s', Ok tt) →
    member_run s0 out (tr ++ [b]) s'.

Definition gz_trailer (data : list byte) : list byte :=
  to_le_bytes 4 (crc_sum (crc_update crc_new data)) ++
  to_le_bytes 4 (crc_amount (crc_update crc_new data)).

Definition trailer_inv (out tr : list byte) (s : NodeInflate) : Prop :=
  check s = CCrc (crc_update crc_new out) ∧ length (trailer s) = 8 ∧
  match at_ s with
  | Body => tr = []
  | GzTrailer n => n ≤ 7 ∧ length tr = n ∧ take n (trailer s) = tr ∧
                   (4 ≤ n → take 4 tr = take 4 (gz_trailer out))
  | Between | Done => tr = gz_trailer out
  | _ => False
  end.

Lemma body_turn_check s src n c s' t crc :
  body_turn s src n c = (s', t) → (∀ e, t ≠ Return (Err e)) → at_ s = Body → check s = CCrc crc →
  check s' = CCrc (crc_update crc (turn_output t)) ∧ trailer s' = trailer s ∧
  (at_ s' = Body ∨ at_ s' = GzTrailer 0).
Proof.
  intros E Hne Ha Hc. unfold body_turn in E.
  destruct (Inflater_step _ _ _) as [inf [[[used out] ended]|e]].
  2:{ injection E as <- <-. by destruct (Hne (Zlib (from_failure e))). }
  cbn [check set_inflate] in E. rewrite Hc in E. cbn [feed_check] in E.
  destruct (bool_decide_reflect (0 < length out)) as [Hl|Hl], ended; cbn in E;
    injection E as <- <-; cbn; auto.
  assert (out = []) as -> by (destruct out; cbn in *; [done|lia]). auto.
Qed.

Lemma trailer_byte s n b s' crc :
  at_ s = GzTrailer n → n ≤ 7 → length (trailer s) = 8 → check s = CCrc crc →
  header_byte s b = (s', Ok tt) →
  check s' = CCrc crc ∧ trailer s' = <[n:=b]> (trailer s) ∧
  (n = 3 → take 4 (trailer s') = to_le_bytes 4 (crc_sum crc)) ∧
  if decide (n = 7) then is_complete s' = true ∧ drop 4 (trailer s') = to_le_bytes 4 (crc_amount crc)
  else at_ s' = GzTrailer (n + 1).
Proof.
  intros Ha Hn Ht Hc E. unfold header_byte, put_trailer in E.
  rewrite Ha in E. cbn [in_header_crc] in E. rewrite Ha, decide_True in E by lia.
  cbn [check set_trailer trailer] in E. rewrite Hc in E.
  destruct (decide (n = 7)) as [->|H7].
  - rewrite decide_False, decide_True in E by lia.
    destruct (negb _) eqn:En; [done|]. bools.
    apply from_le_bytes_eq in En.
    2:{ rewrite length_drop, length_insert, Ht. apply crc_amount_u32. }
    rewrite length_drop, length_insert, Ht in En. injection E as <-. cbn.
    split_and!; [done..| |done]. unfold is_complete, after_stream. cbn. by destruct (members s).
  - destruct (decide (n + 1 = 4)) as [H4|H4].
    + destruct (negb _) eqn:En; [done|]. bools. apply from_le_bytes_eq in En.
      2:{ rewrite length_take, length_insert, Ht. apply crc_sum_u32. }
      rewrite length_take, length_insert, Ht in En. injection E as <-.
      split_and!; [done..|]. cbn. by rewrite H4.
    + rewrite decide_False in E by lia. injection E as <-. split_and!; [done..| |done]. lia.
Qed.

Lemma gz_trailer_parts out :
  take 4 (gz_trailer out) = to_le_bytes 4 (crc_sum (crc_update crc_new out)) ∧
  drop 4 (gz_trailer out) = to_le_bytes 4 (crc_amount (crc_update crc_new out)).
Proof. done. Qed.

Lemma member_run_inv s0 out tr s :
  at_ s0 = Body → check s0 = CCrc crc_new → length (trailer s0) = 8 →
  member_run s0 out tr s → trailer_inv out tr s.
Proof.
  intros Ha0 Hc0 Ht0. induction 1 as [|out tr s src n c s' t _ IH Ha E Hne
                                      |out tr s b s' k _ IH Ha E].
  - unfold trailer_inv. by rewrite Ha0, crc_update_nil.
  - destruct IH as (Hc & Ht & Htr). rewrite Ha in Htr. subst tr.
    apply (body_turn_check _ _ _ _ _ _ _ E) in Hc as (Hc' & Ht' & Ha'); [|done..].
    unfold trailer_inv. rewrite Hc', Ht', crc_update_app. split_and!; [done..|].
    destruct Ha' as [-> | ->]; [done|]. split_and!; [lia|done..|lia].
  - destruct IH as (Hc & Ht & Htr). rewrite Ha in Htr. destruct Htr as (Hk & Hl & Htr & H4).
    pose proof (trailer_byte _ _ _ _ _ Ha Hk Ht Hc E) as (Hc' & Ht' & H3 & Hlast).
    unfold trailer_inv. rewrite Hc', Ht', length_insert. split_and!; [done..|].
    assert (take (S k) (trailer s') = tr ++ [b]) as Htake.
    { rewrite Ht', (take_S_r _ _ b), take_insert_ge, Htr; [done|lia|].
      apply list_lookup_insert_eq. lia. }
    assert (3 ≤ k → take 4 (tr ++ [b]) = take 4 (gz_trailer out)) as H4'.
    { intros Hk3. rewrite <-Htake, take_take, Nat.min_l by lia.
      destruct (decide (k = 3)) as [->|]; [by rewrite H3|].
      rewrite <-H4, <-Htr, take_take, Nat.min_l, Ht', take_insert_ge by lia. done. }
    destruct (decide (k = 7)) as [->|H7].
    + destruct Hlast as [Hdone Hd].
      assert (tr ++ [b] = gz_trailer out) as Heq.
      { rewrite <-(take_drop 4 (tr ++ [b])), H4' by lia.
        rewrite <-Htake, (take_ge (trailer s')) by (rewrite Ht', length_insert; lia). rewrite Hd.
        apply (take_drop 4 (gz_trailer out)). }
      unfold is_complete in Hdone. by destruct (at_ s').
    + rewrite Hlast. split_and!; [lia|rewrite length_app; cbn; lia| |].
      * rewrite <-Ht', Nat.add_1_r. exact Htake.
      * intros. apply H4'. lia.
Qed.

Lemma member_trailer_bytes s0 out tr s l s' k crc :
  member_run s0 out tr s → at_ s = GzTrailer k → k + length l ≤ 8 → length (trailer s) = 8 →
  check s = CCrc crc → header_bytes s l = (s', Ok tt) → member_run s0 out (tr ++ l) s'.
Proof.
  revert tr s k. induction l as [|b l IH]; intros tr s k Hr Ha Hk Ht Hc E; cbn [header_bytes] in E.
  { injection E as <-. by rewrite app_nil_r. }
  cbn [length] in Hk. destruct (header_byte s b) as [s1 [[]|e]] eqn:Eb; [|done].
  pose proof (member_trailer _ _ _ _ _ _ _ Hr Ha Eb) as Hr1.
  apply (trailer_byte _ _ _ _ _ Ha ltac:(lia) Ht Hc) in Eb as (Hc1 & Ht1 & _ & Hlast).
  destruct (decide (k = 7)) as [->|].
  - assert (l = []) as -> by (destruct l; cbn in *; [done|lia]). by injection E as <-.
  - rewrite cons_middle, app_assoc. eapply (IH _ s1 (k + 1)); try done; [lia|].
    by rewrite Ht1, length_insert.
Qed.

(** A gzip member ends well only when its data was checked: whatever
    the inputs and rooms its body was decoded with, a stream that gets from
    the first byte of the member's data past its trailer has read exactly
    the CRC-32 and the length of the bytes it handed out.  *)

Lemma member_checked (s0 : NodeInflate) (out tr : list byte) (s : NodeInflate) :
  at_ s0 = Body → check s0 = CCrc crc_new → length (trailer s0) = 8 →
  member_run s0 out tr s → is_complete s = true → tr = gz_trailer out.
Proof.
  intros Ha Hc Ht Hr Hd. apply member_run_inv in Hr as (_ & _ & Htr); [|done..].
  unfold is_complete in Hd. by destruct (at_ s).
Qed.

(** ** The zlib header of RFC 1950 *)

Definition zlib_valid (cmf flg : byte) : Prop :=
  ((256 * b2z cmf + b2z flg) `mod` 31 = 0 ∧ b2z cmf `mod` 16 = 8 ∧ b2z cmf `div` 16 ≤ 7)%Z.

Lemma zlib_bits cmf flg :
  (Z.lor (Z.shiftl (b2z cmf) 8) (b2z flg) = 256 * b2z cmf + b2z flg ∧
   Z.land (b2z cmf) 15 = b2z cmf `mod` 16 ∧ Z.shiftr (b2z cmf) 4 = b2z cmf `div` 16)%Z.
Proof.
  split_and!.
  - rewrite Z.lor_comm, xlen_le. cbn [from_le_bytes]. lia.
  - change 15%Z with (Z.ones 4). by rewrite Z.land_ones by lia.
  - by rewrite Z.shiftr_div_pow2 by lia.
Qed.

Lemma zlib_header_outcome s cmf flg :
  (zlib_valid cmf flg →
     zlib_header s cmf flg = if has_flag flg ZLIB_FDICT then go s (DictId 0)
                             else go (set_check (CAdler 1) s) Body) ∧
  (¬ zlib_valid cmf flg → ∃ m, zlib_header s cmf flg = fail s (data_error m)).
Proof.
  unfold zlib_header, zlib_valid. destruct (zlib_bits cmf flg) as (-> & -> & ->).
  repeat case_match; bools; split; intros; destruct_and?; try lia; eauto; exfalso; naive_solver lia.
Qed.

(** A zlib stream that has read nothing. *)

Definition at_zlib (s : NodeInflate) : Prop :=
  wrap s = WZlib ∧ at_ s = Head0 ∧ length (trailer s) = 8.

Lemma zlib_two_bytes s cmf flg :
  at_zlib s → ∃ s1, header_bytes s [cmf; flg] =
    match zlib_header s1 cmf flg with
    | (s, Ok _) => (s, Ok tt)
    | (s, Err e) => (s, Err e)
    end ∧ trailer s1 = trailer s ∧ dictionary s1 = dictionary s ∧ inflate s1 = inflate s.
Proof.
  intros (Hw & Ha & _). cbn [header_bytes]. rewrite byte_head0 by done.
  set (s1 := adv _ _ _). exists (set_header_crc (crc_update (header_crc s1) [flg]) s1).
  split; [|done]. assert (wrap s1 = WZlib) as Hw1 by done.
  unfold header_byte. change (at_ s1) with Head1. cbn [in_header_crc].
  change (at_ (set_header_crc _ s1)) with Head1. change (wrap (set_header_crc _ s1)) with (wrap s1).
  by rewrite Hw1.
Qed.

Lemma dict_id_bytes s a b c d :
  at_ s = DictId 0 → length (trailer s) = 8 →
  ∃ s1, header_bytes s [a; b; c; d] =
    match preset_dictionary s1 with
    | (s, Ok _) => (s, Ok tt)
    | (s, Err e) => (s, Err e)
    end ∧ take 4 (trailer s1) = [a; b; c; d] ∧ dictionary s1 = dictionary s ∧
    inflate s1 = inflate s.
Proof.
  intros Ha Ht.
  assert (∀ s n b, at_ s = DictId n → n < 3 → length (trailer s) = 8 →
    header_byte s b = (set_at (DictId (n + 1)) (set_trailer (<[n:=b]> (trailer s)) s), Ok tt)) as Hb.
  { intros s' n x Ha' Hn Ht'. one_byte Ha'. unfold put_trailer.
    by rewrite decide_True, decide_True by lia. }
  assert (∀ s b, at_ s = DictId 3 → length (trailer s) = 8 →
    header_byte s b = preset_dictionary (set_trailer (<[3:=b]> (trailer s)) s)) as Hd.
  { intros s' x Ha' Ht'. one_byte Ha'. unfold put_trailer.
    by rewrite decide_True, decide_False by lia. }
  cbn [header_bytes]. rewrite (Hb _ 0) by (done || lia).
  rewrite (Hb _ 1) by (done || (cbn; rewrite ?length_insert; lia)).
  rewrite (Hb _ 2) by (done || (cbn; rewrite ?length_insert; lia)).
  rewrite Hd by (done || (cbn; rewrite ?length_insert; lia)).
  eexists. split; [reflexivity|]. split; [|done]. cbn.
  destruct (trailer s) as [|? [|? [|? [|? ?]]]]; try discriminate. done.
Qed.

(** [l] takes [s] to the first byte of the deflate data, through [s']. *)

Definition reads (s : NodeInflate) (l : list byte) (s' : NodeInflate) : Prop :=
  header_bytes s l = (s', Ok tt) ∧ at_ s' = Body.

Lemma reads_body s l s' : at_ s = Body → reads s l s' ↔ l = [] ∧ s' = s.
Proof.
  intros Ha. split; [|by intros [-> ->]]. destruct l as [|b l]; [by intros [[= <-] _]|].
  intros [E _]. exfalso. cbn [header_bytes] in E. unfold header_byte in E. rewrite Ha in E.
  cbn in E. by rewrite Ha in E.
Qed.

Lemma reads_app s p s1 l s' :
  header_bytes s p = (s1, Ok tt) → reads s (p ++ l) s' ↔ reads s1 l s'.
Proof. intros E. unfold reads. by rewrite header_bytes_app, E. Qed.

Lemma reads_app_err s p s1 e l s' : header_bytes s p = (s1, Err e) → ¬ reads s (p ++ l) s'.
Proof. intros E [Hr _]. by rewrite header_bytes_app, E in Hr. Qed.

Lemma dict_id_short s l s' :
  at_ s = DictId 0 → length (trailer s) = 8 → reads s l s' → 4 ≤ length l.
Proof.
  intros Ha Ht [E Hb]. destruct (decide (4 ≤ length l)) as [|Hl]; [done|exfalso].
  assert (∀ n s, at_ s = DictId n → n + length l ≤ 3 → length (trailer s) = 8 →
    header_bytes s l = (s', Ok tt) → False) as Hgo; [|by apply (Hgo 0 s); [|lia|..]].
  clear s Ha Ht E Hl. induction l as [|b l IH]; intros n s Ha Hl Ht E.
  { injection E as ->. congruence. }
  cbn [header_bytes] in E. cbn [length] in Hl.
  assert (header_byte s b = (set_at (DictId (n + 1)) (set_trailer (<[n:=b]> (trailer s)) s), Ok tt))
    as Hbyte.
  { one_byte Ha. unfold put_trailer. by rewrite decide_True, decide_True by lia. }
  rewrite Hbyte in E. eapply (IH (n + 1)); [..|exact E]; [done|lia|]. cbn. by rewrite length_insert.
Qed.

(** The dictionary part of a header: the stream's dictionary by its Adler-32. *)

Lemma reads_dict_id s l s' :
  at_ s = DictId 0 → length (trailer s) = 8 → reads s l s' →
  ∃ d, dictionary s = Some d ∧ l = to_be_bytes 4 (adler32 1 d) ∧ check s' = CAdler 1 ∧
       inflate s' = Inflater_prime (inflate s) d.
Proof.
  intros Ha Ht Hr. pose proof (dict_id_short s l s' Ha Ht Hr).
  destruct l as [|a [|b [|c [|d l]]]]; cbn in *; try lia. clear H2.
  destruct (dict_id_bytes s a b c d Ha Ht) as (s1 & E & Htk & Hd & Hi).
  change (a :: b :: c :: d :: l) with ([a; b; c; d] ++ l) in *.
  unfold preset_dictionary in E. rewrite Hd in E.
  destruct (dictionary s) as [dict|]; [|by destruct (reads_app_err _ _ _ _ _ _ E Hr)].
  cbn [trailer set_dictionary] in E. rewrite Htk in E.
  destruct (negb _) eqn:En; [by destruct (reads_app_err _ _ _ _ _ _ E Hr)|]. bools.
  rewrite (reads_app _ _ _ _ _ E) in Hr. apply reads_body in Hr as [-> ->]; [|done].
  exists dict. split; [done|]. cbn. rewrite Hi. split; [|done].
  symmetry in En. apply from_be_bytes_eq in En; [done|]. apply adler32_u32. lia.
Qed.

Lemma dict_id_reads s d :
  at_ s = DictId 0 → length (trailer s) = 8 → dictionary s = Some d →
  ∃ s', reads s (to_be_bytes 4 (adler32 1 d)) s'.
Proof.
  intros Ha Ht Hd. pose proof (adler32_u32 1 d ltac:(lia)) as Hr.
  pose proof (from_to_be_bytes 4 (adler32 1 d) ltac:(lia)) as Hf.
  pose proof (length_to_be_bytes 4 (adler32 1 d)) as Hl.
  destruct (to_be_bytes 4 (adler32 1 d)) as [|x0 [|x1 [|x2 [|x3 [|]]]]]; try discriminate.
  destruct (dict_id_bytes s x0 x1 x2 x3 Ha Ht) as (s1 & E & Htk & Hd1 & Hi).
  unfold preset_dictionary in E. rewrite Hd1, Hd in E. cbn [trailer set_dictionary] in E.
  rewrite Htk, Hf, Z.eqb_refl in E. eexists. split; [exact E|done].
Qed.

(** Both directions for the first two bytes. *)

Lemma zlib_reads_head s l s' :
  at_zlib s → reads s l s' → ∃ cmf flg r, l = [cmf; flg] ++ r ∧ zlib_valid cmf flg ∧
    if has_flag flg ZLIB_FDICT
    then ∃ d, dictionary s = Some d ∧ r = to_be_bytes 4 (adler32 1 d) ∧
              check s' = CAdler 1 ∧ inflate s' = Inflater_prime (inflate s) d
    else r = [] ∧ check s' = CAdler 1 ∧ inflate s' = inflate s.
Proof.
  intros Hz Hr. pose proof Hz as (Hw & Ha & Ht).
  destruct l as [|cmf [|flg l]].
  { destruct Hr as [[= <-] ?]. congruence. }
  { destruct Hr as [Hr Hb]. cbn [header_bytes] in Hr. rewrite byte_head0 in Hr by done.
    by injection Hr as <-. }
  change (cmf :: flg :: l) with ([cmf; flg] ++ l) in Hr. exists cmf, flg, l. split; [done|].
  destruct (zlib_two_bytes s cmf flg Hz) as (s1 & E & Ht1 & Hd1 & Hi1).
  destruct (zlib_header_outcome s1 cmf flg) as [Hok Hbad].
  assert (zlib_valid cmf flg) as Hv.
  { destruct (decide (zlib_valid cmf flg)) as [|Hn]; [done|exfalso].
    destruct (Hbad Hn) as [m Hm]. rewrite Hm in E. by destruct (reads_app_err _ _ _ _ _ _ E Hr). }
  split; [done|]. rewrite (Hok Hv) in E. destruct (has_flag flg ZLIB_FDICT).
  - rewrite (reads_app _ _ _ _ _ E) in Hr. apply reads_dict_id in Hr; [|done|by cbn; rewrite Ht1].
    cbn [dictionary inflate set_at] in Hr. by rewrite Hd1, Hi1 in Hr.
  - rewrite (reads_app _ _ _ _ _ E) in Hr. apply reads_body in Hr as [-> ->]; done.
Qed.

Lemma zlib_head_reads s cmf flg :
  at_zlib s → zlib_valid cmf flg → ∃ s1, header_bytes s [cmf; flg] = (s1, Ok tt) ∧
    at_ s1 = (if has_flag flg ZLIB_FDICT then DictId 0 else Body) ∧
    trailer s1 = trailer s ∧ dictionary s1 = dictionary s.
Proof.
  intros Hz Hv. destruct (zlib_two_bytes s cmf flg Hz) as (s1 & -> & Ht1 & Hd1 & Hi1).
  destruct (zlib_header_outcome s1 cmf flg) as [Hok _]. rewrite (Hok Hv).
  destruct (has_flag flg ZLIB_FDICT); eexists; split; done.
Qed.

(** A zlib stream reads [l] to the first byte of the deflate data
    exactly when [l] is a header of RFC 1950 (a multiple of 31, method 8, a
    window of at most 32 KiB), followed, when it asks for a preset
    dictionary, by the big-endian Adler-32 of the stream's own dictionary.
    The data then feeds a fresh Adler-32, and the window holds the
    dictionary exactly when the header asked for it. *)

Lemma zlib_header_language (s : NodeInflate) (l : list byte) :
  at_zlib s →
  ((∃ s', reads s l s') ↔
    ∃ cmf flg, zlib_valid cmf flg ∧
      if has_flag flg ZLIB_FDICT
      then ∃ d, dictionary s = Some d ∧ l = [cmf; flg] ++ to_be_bytes 4 (adler32 1 d)
      else l = [cmf; flg]) ∧
  (∀ s', reads s l s' → check s' = CAdler 1 ∧
    inflate s' = match l with
                 | [_; _] => inflate s
                 | _ => from_option (Inflater_prime (inflate s)) (inflate s) (dictionary s)
                 end).
Proof.
  intros Hz. pose proof Hz as (Hw & Ha & Ht). split; [split|].
  - intros [s' Hr]. apply zlib_reads_head in Hr as (cmf & flg & r & -> & Hv & Hf); [|done].
    exists cmf, flg. split; [done|]. destruct (has_flag flg ZLIB_FDICT).
    + destruct Hf as (d & ? & -> & _). eauto.
    + destruct Hf as (-> & _). done.
  - intros (cmf & flg & Hv & Hf). destruct (zlib_head_reads s cmf flg Hz Hv) as (s1 & E & Ha1 & Ht1 & Hd1).
    destruct (has_flag flg ZLIB_FDICT).
    + destruct Hf as (d & Hd & ->). setoid_rewrite reads_app; [|exact E].
      apply dict_id_reads; congruence.
    + subst l. exists s1. by rewrite <-(app_nil_r [cmf; flg]), reads_app, reads_body.
  - intros s' Hr. apply zlib_reads_head in Hr as (cmf & flg & r & -> & Hv & Hf); [|done].
    destruct (has_flag flg ZLIB_FDICT).
    + destruct Hf as (d & -> & -> & -> & ->). split; [done|].
      pose proof (length_to_be_bytes 4 (adler32 1 d)).
      by destruct (to_be_bytes 4 (adler32 1 d)).
    + by destruct Hf as (-> & -> & ->).
Qed.

(** ** Trailers that are right are accepted *)

Lemma trailer_next s n b crc :
  at_ s = GzTrailer n → n ≤ 7 → length (trailer s) = 8 → check s = CCrc crc →
  let t := <[n:=b]> (trailer s) in
  (n = 3 → from_le_bytes (take 4 t) = crc_sum crc) →
  (n = 7 → from_le_bytes (drop 4 t) = crc_amount crc) →
  header_byte s b =
    (set_at (if decide (n = 7) then after_stream s else GzTrailer (n + 1)) (set_trailer t s), Ok tt).
Proof.
  intros Ha Hn Ht Hc t H3 H7. one_byte Ha. unfold put_trailer. rewrite decide_True by lia.
  subst t. cbn [check set_trailer trailer]. rewrite Hc.
  destruct (decide (n + 1 = 4)) as [E|E].
  { rewrite decide_False, H3, Z.eqb_refl by lia. replace n with 3 by lia. done. }
  destruct (decide (n + 1 = 8)) as [E8|E8].
  { rewrite decide_True, H7, Z.eqb_refl by lia. done. }
  rewrite decide_False by lia. done.
Qed.

Lemma after_stream_complete s a : a = after_stream s → is_complete (set_at a s) = true.
Proof. intros ->. unfold is_complete, after_stream. cbn. by destruct (members s). Qed.

Lemma gz_trailer_accepted s crc :
  at_ s = GzTrailer 0 → length (trailer s) = 8 → check s = CCrc crc →
  ∃ s', header_bytes s (to_le_bytes 4 (crc_sum crc) ++ to_le_bytes 4 (crc_amount crc)) = (s', Ok tt) ∧
        is_complete s' = true.
Proof.
  intros Ha Ht Hc.
  pose proof (from_to_le_bytes 4 _ (crc_sum_u32 crc)) as H4.
  pose proof (from_to_le_bytes 4 _ (crc_amount_u32 crc)) as H8.
  remember (to_le_bytes 4 (crc_sum crc)) as l4 eqn:E4.
  remember (to_le_bytes 4 (crc_amount crc)) as l8 eqn:E8.
  assert (length l4 = 4 ∧ length l8 = 4) as [Hl4 Hl8] by (by rewrite E4, E8, !length_to_le_bytes).
  clear E4 E8.
  destruct l4 as [|a0 [|a1 [|a2 [|a3 [|]]]]]; try discriminate.
  destruct l8 as [|a4 [|a5 [|a6 [|a7 [|]]]]]; try discriminate.
  destruct (trailer s) as [|t0 [|t1 [|t2 [|t3 [|t4 [|t5 [|t6 [|t7 [|]]]]]]]]] eqn:Et; try discriminate.
  cbn [app header_bytes].
  rewrite (trailer_next s 0 a0 crc Ha) by (rewrite ?Et; done || lia). rewrite Et. cbn [decide insert list_insert Nat.eq_dec].
  do 7 (erewrite trailer_next; [|done|lia|done|exact Hc|cbn; done|cbn; done];
        cbn [header_bytes trailer set_at set_trailer insert list_insert]).
  eexists. split; [reflexivity|]. by apply after_stream_complete.
Qed.

Lemma zlib_trailer_accepted s adler :
  at_ s = ZlibTrailer 0 → length (trailer s) = 8 → check s = CAdler adler →
  (0 ≤ adler < 2 ^ 32)%Z →
  ∃ s', header_bytes s (to_be_bytes 4 adler) = (s', Ok tt) ∧ is_complete s' = true.
Proof.
  intros Ha Ht Hc Hr.
  pose proof (from_to_be_bytes 4 _ Hr) as H4. pose proof (length_to_be_bytes 4 adler) as Hl.
  destruct (to_be_bytes 4 adler) as [|a0 [|a1 [|a2 [|a3 [|]]]]]; try discriminate.
  assert (∀ s n b, at_ s = ZlibTrailer n → n < 3 → length (trailer s) = 8 → header_byte s b =
    (set_at (ZlibTrailer (n + 1)) (set_trailer (<[n:=b]> (trailer s)) s), Ok tt)) as Hb.
  { intros s' n x Ha' Hn Ht'. one_byte Ha'. unfold put_trailer.
    by rewrite decide_True, decide_True by lia. }
  cbn [header_bytes]. rewrite (Hb _ 0) by (done || lia).
  rewrite (Hb _ 1) by (done || (cbn; rewrite ?length_insert; lia)).
  rewrite (Hb _ 2) by (done || (cbn; rewrite ?length_insert; lia)).
  set (s3 := set_at (ZlibTrailer (2 + 1)) _).
  assert (header_byte s3 a3 = let s4 := set_trailer (<[3:=a3]> (trailer s3)) s3 in
    go s4 (after_stream s4)) as ->.
  { unfold header_byte. change (at_ s3) with (ZlibTrailer 3). cbn [in_header_crc].
    change (at_ s3) with (ZlibTrailer 3). cbv iota. unfold put_trailer.
    rewrite decide_True by (unfold s3; cbn; rewrite !length_insert; lia).
    rewrite decide_False by lia. change (check (set_trailer _ s3)) with (check s). rewrite Hc.
    assert (take 4 (trailer (set_trailer (<[3:=a3]> (trailer s3)) s3)) = [a0; a1; a2; a3]) as ->.
    { unfold s3. cbn. destruct (trailer s) as [|? [|? [|? [|? ?]]]]; try discriminate. done. }
    by rewrite H4, Z.eqb_refl. }
  cbv zeta. eexists. split; [reflexivity|]. by apply after_stream_complete.
Qed.
(** ** Both headers *)

(** C7. What the header automata accept.  From the start of a member, a gunzip
    stream reads [l] to the first byte of the deflate data exactly when [l] is
    a gzip header as RFC 1952 lays it out: the magic, method 8, no reserved
    flag, the six fixed bytes, then the extra field, name, comment and header
    CRC the flags announce, in that order, the CRC the right one.  A zlib
    stream does exactly when [l] is a header of RFC 1950 (a multiple of 31,
    method 8, a window of at most 32 KiB), followed, when it asks for a preset
    dictionary, by the Adler-32 of the stream's own.  The data then feeds a
    fresh checksum, and the window holds the dictionary exactly when the
    header asked for it.  And a gzip member ends well only when its data was
    checked: whatever the inputs and rooms its body was decoded with, a stream
    that gets from the first byte of the member's data past its trailer has
    read exactly the CRC-32 and the length of the bytes it handed out. *)

Theorem framing_exact (s : NodeInflate) (l : list byte) :
  (at_member s →
   ((∃ s', header_bytes s l = (s', Ok tt) ∧ at_ s' = Body) ↔ ∃ h, gz_wf h ∧ l = gz_render h) ∧
   (∀ s', header_bytes s l = (s', Ok tt) → at_ s' = Body →
     check s' = CCrc crc_new ∧ inflate s' = inflate s ∧ members s' = true)) ∧
  (at_zlib s →
   ((∃ s', reads s l s') ↔
     ∃ cmf flg, zlib_valid cmf flg ∧
       if has_flag flg ZLIB_FDICT
       then ∃ d, dictionary s = Some d ∧ l = [cmf; flg] ++ to_be_bytes 4 (adler32 1 d)
       else l = [cmf; flg]) ∧
   (∀ s', reads s l s' → check s' = CAdler 1 ∧
     inflate s' = match l with
                  | [_; _] => inflate s
                  | _ => from_option (Inflater_prime (inflate s)) (inflate s) (dictionary s)
                  end)) ∧
  (∀ s0 out tr s', at_ s0 = Body → check s0 = CCrc crc_new → length (trailer s0) = 8 →
     member_run s0 out tr s' → is_complete s' = true → tr = gz_trailer out).
Proof. split_and!; [apply gzip_header_language|apply zlib_header_language|apply member_checked]. Qed.
End GzipFraming.

(** ** The theorems on a concrete stream *)

Section Examples.
#[local] Existing Instances Toy.miniz Toy.checksums.

(** A header with a name and its CRC. *)

Definition named_header : GzHeader :=
  {| gz_flags := x0a; gz_fixed := replicate 6 x00; gz_extra := []; gz_name := bs "a.txt";
     gz_comment := [] |}.
End Examples.

Lemma member_checked_example :
  ∃ s0 s tr, member_run (H := Toy.miniz) (H0 := Toy.checksums) s0 (bs "hi") tr s ∧
    is_complete s = true ∧ tr = gz_trailer (H0 := Toy.checksums) (bs "hi").
Proof.
  set (s0 := (header_bytes (H := Toy.miniz) (H0 := Toy.checksums) (NodeInflate_new WGzip)
                (take 10 toy_gzip)).1).
  set (b1 := body_turn s0 [x02; x68; x69; x00] 5 0).
  set (b2 := body_turn b1.1 [x68; x69; x00] 5 0).
  set (b3 := body_turn b2.1 [x00] 5 0).
  set (s := (header_bytes b3.1 (drop 14 toy_gzip)).1).
  assert (member_run s0 (bs "hi") [] b3.1) as Hb.
  { change (bs "hi") with (((([] ++ turn_output b1.2) ++ turn_output b2.2) ++ turn_output b3.2)).
    apply (member_body s0 _ [] b2.1 [x00] 5 0 b3.1 b3.2);
      [|vm_compute; reflexivity|apply surjective_pairing|vm_compute; intros ? [=]].
    apply (member_body s0 _ [] b1.1 [x68; x69; x00] 5 0 b2.1 b2.2);
      [|vm_compute; reflexivity|apply surjective_pairing|vm_compute; intros ? [=]].
    apply (member_body s0 _ [] s0 [x02; x68; x69; x00] 5 0 b1.1 b1.2);
      [|vm_compute; reflexivity|apply surjective_pairing|vm_compute; intros ? [=]].
    apply member_start. }
  assert ((header_bytes b3.1 (drop 14 toy_gzip)).2 = Ok tt) as Hok by (vm_compute; reflexivity).
  assert (member_run s0 (bs "hi") ([] ++ drop 14 toy_gzip) s) as Hrun.
  { apply (member_trailer_bytes s0 (bs "hi") [] b3.1 (drop 14 toy_gzip) s 0 (bs "hi") Hb).
    1:{ vm_compute; reflexivity. }
    1:{ apply (bool_decide_unpack _). vm_compute. exact I. }
    1:{ vm_compute; reflexivity. }
    1:{ assert (match check b3.1 with CCrc c => bool_decide (c = bs "hi") | _ => false end = true)
          as Hc by (vm_compute; reflexivity).
        destruct (check b3.1) as [|?|c]; [discriminate..|]. apply bool_decide_eq_true in Hc.
        by rewrite Hc. }
    rewrite <-Hok. apply surjective_pairing. }
  assert (is_complete s = true) as Hdone by (vm_compute; reflexivity).
  exists s0, s, (drop 14 toy_gzip). split; [exact Hrun|]. split; [exact Hdone|].
  apply (member_checked s0 (bs "hi") _ s); [vm_compute; reflexivity|reflexivity|..].
  - vm_compute. reflexivity.
  - exact Hrun.
  - exact Hdone.
Defined.

Lemma framing_exact_witness :
  (∃ s', header_bytes (H := Toy.miniz) (H0 := Toy.checksums) (NodeInflate_new WGzip)
           (gz_render named_header) = (s', Ok tt) ∧ at_ s' = Body) ∧
  ∃ s', reads (H := Toy.miniz) (H0 := Toy.checksums) (with_dictionary WZlib (Some (bs "ab")))
    ([x78; xbb] ++ [x00; x00; x00; xc4]) s'.
Proof.
  split.
  - apply (proj1 (proj1 (framing_exact (H := Toy.miniz) (H0 := Toy.checksums) (NodeInflate_new WGzip)
      (gz_render named_header)) ltac:(repeat split))).
    exists named_header. split; [|reflexivity].
    apply (bool_decide_unpack _). vm_compute. exact I.
  - apply (proj1 (proj1 (proj2 (framing_exact (H := Toy.miniz) (H0 := Toy.checksums)
      (with_dictionary WZlib (Some (bs "ab"))) _)) ltac:(repeat split))).
    exists x78, xbb. split; [apply (bool_decide_unpack _); vm_compute; exact I|].
    exists (bs "ab"). split; reflexivity.
Defined.
