(* ===== verification/Deflate.v ===== *)
(** * Deflate: [oam_core/src/deflate.rs]

    [NodeDeflate] writes node:zlib's gzip, zlib and raw streams: the wrappers'
    headers and trailers are written here around the raw deflate data of
    miniz_oxide's compressor, which is another crate and so the operations of
    the class [MinizDeflate].  The checksums are those of [Inflate]. *)

From S2P Require Import Prelude RustStd Inflate.

(** ** The compressor underneath *)

Inductive MZFlush : Type := FNone | FPartial | FSync | FFull | FFinish.

#[global] Instance MZFlush_eq_dec : EqDecision MZFlush.
Proof. solve_decision. Defined.

(** [mz_deflate core input room flush]: the core after, the bytes consumed,
    the bytes written (at most [room]) and whether the status was
    [Ok(StreamEnd)]. *)

Class MinizDeflate : Type := {
  CompressorOxide : Type;
  comp_default : CompressorOxide;
  set_raw_format_and_level : CompressorOxide → Z → CompressorOxide;
  set_compression_level_raw : CompressorOxide → Z → CompressorOxide;
  mz_deflate : CompressorOxide → list byte → nat → MZFlush →
               CompressorOxide * nat * list byte * bool
}.

(** zlib's documented contract of [deflate], for a compressor used as it asks.

    [fed]: new, or called so far without Z_FINISH.  [finishing core input]: in
    a run of Z_FINISH calls with [input] still to be read, none of which has
    ended the stream.  [settles]: repeating the call with what is left of the
    input, each time with room for more than six bytes and the room filled,
    comes to an end; a sync flush into less room can write its marker over
    and over, and so can one that is begun again. *)

Section Contract.
Context `{MinizDeflate}.

Inductive fed : CompressorOxide → Prop :=
| fed_new level : fed (set_raw_format_and_level comp_default level)
| fed_call core input room flush core' consumed written ended :
    fed core → flush ≠ FFinish →
    mz_deflate core input room flush = (core', consumed, written, ended) → fed core'
| fed_level core level : fed core → fed (set_compression_level_raw core level).

Inductive finishing : CompressorOxide → list byte → Prop :=
| finishing_first core input : fed core → finishing core input
| finishing_more core input room core' consumed written :
    finishing core input → mz_deflate core input room FFinish = (core', consumed, written, false) →
    finishing core' (drop consumed input).

Definition callable (flush : MZFlush) (core : CompressorOxide) (input : list byte) : Prop :=
  if decide (flush = FFinish) then finishing core input else fed core.

Inductive settles (flush : MZFlush) : CompressorOxide → list byte → Prop :=
| settles_after core input :
    (∀ room core' consumed written, 6 < room →
       mz_deflate core input room flush = (core', consumed, written, false) →
       length written = room → settles flush core' (drop consumed input)) →
    settles flush core input.

End Contract.

(** It reads no more than it was given and writes no more than there is room
    for; it stops only when the input is used up or the output full; the end
    of the stream comes only under Z_FINISH, with all the input used, and does
    come there once there is room left; and every call settles. *)

Class MinizDeflateLaws `{MinizDeflate} : Prop := {
  deflate_bounds core input room flush core' consumed written ended :
    mz_deflate core input room flush = (core', consumed, written, ended) →
    consumed ≤ length input ∧ length written ≤ room;
  deflate_works core input room flush core' consumed written ended :
    callable flush core input →
    mz_deflate core input room flush = (core', consumed, written, ended) →
    length written < room → consumed = length input;
  deflate_ends core input room flush core' consumed written ended :
    callable flush core input →
    mz_deflate core input room flush = (core', consumed, written, ended) →
    ended = true → flush = FFinish ∧ consumed = length input;
  deflate_finishes core input room core' consumed written ended :
    finishing core input →
    mz_deflate core input room FFinish = (core', consumed, written, ended) →
    length written < room → ended = true;
  deflate_settles core input flush : callable flush core input → settles flush core input
}.

(** ** The wrappers *)

Inductive Format : Type := Gzip | Deflate | DeflateRaw.

#[global] Instance Format_eq_dec : EqDecision Format.
Proof. solve_decision. Defined.

(** [Format::parse]. *)

Definition Format_parse (name : string) : option Format :=
  if decide (name = "gzip") then Some Gzip
  else if decide (name = "deflate") then Some Deflate
  else if decide (name = "deflateRaw") then Some DeflateRaw
  else None.

Definition Z_SYNC_FLUSH : Z := 2.
Definition Z_FINISH : Z := 4.

(** [u8::try_from(level).ok().filter(|l| *l <= 9).unwrap_or(6)]. *)

Definition miniz_level (level : Z) : Z :=
  if (0 <=? level)%Z && (level <=? 255)%Z && (level <=? 9)%Z then level else 6%Z.

Definition gzip_header (level : Z) : list byte :=
  let xfl := if (9 <=? level)%Z then x02
             else if (level =? 0)%Z || (level =? 1)%Z then x04
             else x00 in
  [x1f; x8b; x08; x00; x00; x00; x00; x00; xfl; xff].

Definition deflate_zlib_header (level : Z) (fdict : bool) : list byte :=
  let flevel := (if (level =? 0) || (level =? 1) then 0
                 else if (2 <=? level) && (level <=? 5) then 1
                 else if (7 <=? level) && (level <=? 9) then 3
                 else 2)%Z in
  let header := Z.lor (Z.lor 30720 (Z.shiftl flevel 6)) (if fdict then 32 else 0) in
  let header := wrap_u 16 (header + (31 - header `mod` 31)) in
  to_be_bytes 2 header.

(** The wrapper a format's streams are inflated with ([decompress_capped] in
    [oam_core/src/lib.rs]). *)

Definition wrap_of (format : Format) : Wrap :=
  match format with
  | Gzip => WGzip
  | Deflate => WZlib
  | DeflateRaw => WRaw
  end.

Section NodeDeflate.
Context `{MinizDeflate} `{Checksums}.

Inductive Trailer : Type :=
| TNone
| TAdler (adler : Z)
| TGzip (crc : Crc).

Record NodeDeflate : Type := {
  comp : CompressorOxide;
  sums : Trailer;
  pending : list byte;
  pending_at : nat;
  ended : bool;
  scratch : list byte
}.

Definition mz_flush (flush : Z) : MZFlush :=
  if (flush =? 1)%Z then FPartial
  else if (flush =? 2)%Z then FSync
  else if (flush =? 3)%Z then FFull
  else if (flush =? 4)%Z then FFinish
  else FNone.

(** [prime]: the dictionary through the compressor under a sync flush, the
    output dropped; [None] when [fuel] turns are not enough. *)

Fixpoint deflate_prime (fuel : nat) (core : CompressorOxide) (tail : list byte) (room : nat)
  : option CompressorOxide :=
  match fuel with
  | O => None
  | S fuel =>
      let '(core, consumed, written, _) := mz_deflate core tail room FSync in
      let tail := drop consumed tail in
      if decide (tail = [] ∧ length written < room) then Some core
      else deflate_prime fuel core tail room
  end.

(** The last window of a dictionary. *)

Definition dictionary_tail (d : list byte) : list byte := drop (length d - WINDOW) d.

Definition used_dictionary (format : Format) (d : option (list byte)) : option (list byte) :=
  match d with
  | Some [] => None
  | Some d => if decide (format = Gzip) then None else Some d
  | None => None
  end.

Definition stream_header (format : Format) (level : Z) (d : option (list byte)) : list byte :=
  match format with
  | Deflate => deflate_zlib_header level (bool_decide (is_Some d)) ++
               from_option (λ d, to_be_bytes 4 (adler32 1 d)) [] d
  | DeflateRaw => []
  | Gzip => gzip_header level
  end.

Definition first_sums (format : Format) : Trailer :=
  match format with
  | Deflate => TAdler 1
  | DeflateRaw => TNone
  | Gzip => TGzip crc_new
  end.

Definition NodeDeflate_new (fuel : nat) (format : Format) (level : Z) (d : option (list byte))
  : option NodeDeflate :=
  let level := miniz_level level in
  let d := used_dictionary format d in
  let core := set_raw_format_and_level comp_default level in
  core ← match d with
         | Some d => let tail := dictionary_tail d in
                     deflate_prime fuel core tail (length tail + 64)
         | None => Some core
         end;
  Some {| comp := core;
          sums := first_sums format;
          pending := stream_header format level d;
          pending_at := 0; ended := false; scratch := [] |}.

(** [drain] into [room] bytes: what it wrote. *)

Definition drain (s : NodeDeflate) (room : nat) : NodeDeflate * list byte :=
  let left := drop (pending_at s) (pending s) in
  let n := min (length left) room in
  ({| comp := comp s; sums := sums s; pending := pending s; pending_at := pending_at s + n;
      ended := ended s; scratch := scratch s |}, take n left).

Definition feed_trailer (t : Trailer) (data : list byte) : Trailer :=
  match t with
  | TNone => TNone
  | TAdler adler => TAdler (adler32 adler data)
  | TGzip crc => TGzip (crc_update crc data)
  end.

Definition trailer_bytes (t : Trailer) : list byte :=
  match t with
  | TNone => []
  | TAdler adler => to_be_bytes 4 adler
  | TGzip crc => to_le_bytes 4 (crc_sum crc) ++ to_le_bytes 4 (crc_amount crc)
  end.

(** [deflate] into [room] bytes: the bytes consumed, and those written. *)

Definition NodeDeflate_deflate (s : NodeDeflate) (input : list byte) (room : nat) (flush : Z)
  : NodeDeflate * nat * list byte :=
  let '(s, head) := drain s room in
  if ended s || bool_decide (length head = room) then (s, 0, head)
  else
    let '(core, consumed, written, stream_end) :=
      mz_deflate (comp s) input (room - length head) (mz_flush flush) in
    let sums := feed_trailer (sums s) (take consumed input) in
    let after pending ended :=
      {| comp := core; sums := sums; pending := pending; pending_at := pending_at s;
         ended := ended; scratch := scratch s |} in
    if stream_end : bool then
      let '(s, tail) :=
        drain (after (pending s ++ trailer_bytes sums) true)
              (room - length head - length written) in
      (s, consumed, head ++ written ++ tail)
    else (after (pending s) (ended s), consumed, head ++ written).

(** [deflate_vec], its loop over the scratch buffer [buf]. *)

Fixpoint deflate_loop (fuel : nat) (s : NodeDeflate) (input : list byte) (flush : Z)
  (buf out : list byte) : option (NodeDeflate * list byte * list byte) :=
  match fuel with
  | O => None
  | S fuel =>
      let '(s, consumed, written) := NodeDeflate_deflate s input (length buf) flush in
      let input := drop consumed input in
      let buf := written ++ drop (length written) buf in
      let out := out ++ written in
      if decide (input = [] ∧ length written < length buf) then Some (s, buf, out)
      else deflate_loop fuel s input flush buf out
  end.

Definition set_scratch (b : list byte) (s : NodeDeflate) : NodeDeflate :=
  {| comp := comp s; sums := sums s; pending := pending s; pending_at := pending_at s;
     ended := ended s; scratch := b |}.

Definition set_comp (c : CompressorOxide) (s : NodeDeflate) : NodeDeflate :=
  {| comp := c; sums := sums s; pending := pending s; pending_at := pending_at s;
     ended := ended s; scratch := scratch s |}.

Definition deflate_vec (fuel : nat) (s : NodeDeflate) (input : list byte) (flush : Z)
  : option (NodeDeflate * list byte) :=
  let buf := match scratch s with [] => replicate STEP_OUT x00 | b => b end in
  '(s, buf, out) ← deflate_loop fuel (set_scratch [] s) input flush buf [];
  Some (set_scratch buf s, out).

Definition params (fuel : nat) (s : NodeDeflate) (level : option Z)
  : option (NodeDeflate * list byte) :=
  '(s, flushed) ← deflate_vec fuel s [] Z_SYNC_FLUSH;
  Some (match level with
        | Some level => set_comp (set_compression_level_raw (comp s) (miniz_level level)) s
        | None => s
        end, flushed).

Definition finish_vec (fuel : nat) (s : NodeDeflate) (input : list byte)
  : option (NodeDeflate * list byte) := deflate_vec fuel s input Z_FINISH.

(** [StreamCompressor]: the node:zlib streams over it ([zlib] in
    [oam_core/src/lib.rs]), and the one-shot [compress_capped]. *)

Inductive CompressorOp : Type :=
| WriteChunk (chunk : list byte)
| Params (level : option Z).

Definition compressor_op (fuel : nat) (s : NodeDeflate) (op : CompressorOp)
  : option (NodeDeflate * list byte) :=
  match op with
  | WriteChunk chunk => deflate_vec fuel s chunk 0
  | Params level => params fuel s level
  end.

Definition compressor_finish (fuel : nat) (s : NodeDeflate) : option (NodeDeflate * list byte) :=
  finish_vec fuel s [].

Definition compress_capped (fuel : nat) (bytes : list byte) (format : Format) (level : Z)
  (max_output : option nat) (d : option (list byte)) : option (result string (list byte)) :=
  s ← NodeDeflate_new fuel format level d;
  '(_, out) ← finish_vec fuel s bytes;
  Some (match max_output with
        | Some cap => if decide (cap < length out)
                      then Err "zlib output exceeds maxOutputLength"%string else Ok out
        | None => Ok out
        end).
End NodeDeflate.
