(* ===== verification/DeflateSpec.v ===== *)
(** * DeflateSpec: what the deflate streams guarantee

    - however a stream is written, flushed, re-levelled and drained, its bytes
      are the wrapper's header, the compressor's data and, at its end, the
      checksum trailer of the data it consumed, each exactly once;
    - the loops end, using all their input, and a finished stream is complete;
    - the inflate streams read these wrappers back, for every level and
      dictionary. *)

From S2P Require Import Prelude RustStd Inflate InflateSpec Deflate.

(** ** A compressor to run the examples with

    The format the decoder of [InflateSpec.Toy] reads: blocks of one byte,
    ended by a zero.  It holds back what there is no room for; a sync flush
    writes a marker, and writes it again each time it is begun again;
    and once the stream has ended, nothing more is read or written. *)

Module ToyDeflate.
Record Comp : Type := { due : list byte; ending : bool; over : bool }.

Definition toy_block (b : byte) : list byte := [x01; b].

Definition marker : list byte := [x01; x00].

(** What is due, the input taken in. *)

Definition toy_due (c : Comp) (input : list byte) (flush : MZFlush) : list byte :=
  due c ++ (input ≫= toy_block) ++
  match flush with
  | FFinish => if ending c then [] else [x00]
  | FSync | FFull => if decide (due c = [] ∨ input ≠ []) then marker else []
  | _ => []
  end.

Definition toy_mz_deflate (c : Comp) (input : list byte) (room : nat) (flush : MZFlush)
  : Comp * nat * list byte * bool :=
  let fin := bool_decide (flush = FFinish) in
  if over c then (c, 0, [], fin)
  else
    let all := toy_due c input flush in
    let done := fin && bool_decide (length all ≤ room) in
    ({| due := drop room all; ending := ending c || fin; over := done |}, length input, take room all, done).

#[global] Instance miniz_deflate : MinizDeflate := {|
  CompressorOxide := Comp;
  comp_default := {| due := []; ending := false; over := false |};
  set_raw_format_and_level := λ c _, c;
  set_compression_level_raw := λ c _, c;
  mz_deflate := toy_mz_deflate
|}.

Lemma toy_fed (c : Comp) : fed c → over c = false ∧ ending c = false.
Proof.
  induction 1 as [|c input room flush c' consumed written e _ [Ho He] Hf Hd|]; [done| |done].
  cbn [mz_deflate miniz_deflate] in Hd. unfold toy_mz_deflate in Hd. rewrite Ho in Hd.
  injection Hd as <- _ _ _. cbn. by rewrite He, bool_decide_false.
Qed.

Lemma toy_finishing (c : Comp) input : finishing c input → over c = false.
Proof.
  induction 1 as [c input Hf|c input room c' consumed written _ Ho Hd]; [by apply toy_fed in Hf as []|].
  cbn [mz_deflate miniz_deflate] in Hd. unfold toy_mz_deflate in Hd. rewrite Ho in Hd.
  by injection Hd as <- _ _ E.
Qed.

Lemma toy_callable flush (c : Comp) input : callable flush c input → over c = false.
Proof. unfold callable. case_decide; [apply toy_finishing|]. by intros [? _]%toy_fed. Qed.

(** After a call has taken its input in, the queue only gets shorter, until it
    is empty; and then a flush writes its marker, which is shorter than any
    room that settles. *)

Lemma toy_settles flush (c : Comp) input : settles flush c input.
Proof.
  assert (∀ n (c : Comp), length (due c) ≤ n → settles flush c []) as Hempty.
  { clear c input. induction n as [|n IH]; intros c Hn; constructor; intros room c' consumed written Hr Hd Hw;
      rewrite drop_nil; cbn [mz_deflate miniz_deflate] in Hd; unfold toy_mz_deflate in Hd;
      (destruct (over c); [injection Hd as <- <- <- _; cbn in Hw; lia|]);
      injection Hd as <- <- <- _; rewrite length_take in Hw; unfold toy_due in *;
      rewrite !length_app in Hw; cbn [length mbind list_bind app] in *.
    - exfalso. destruct (due c); [|cbn in Hn; lia]. destruct flush; cbn in Hw; repeat case_match; cbn in *; lia.
    - apply IH. cbn [due]. rewrite length_drop, length_app. cbn [length app].
      destruct (due c) as [|b q] eqn:E; destruct flush; cbn in *; repeat case_match; cbn in *; lia. }
  constructor. intros room c' consumed written _ Hd _. cbn [mz_deflate miniz_deflate] in Hd.
  unfold toy_mz_deflate in Hd. destruct (over c) eqn:Ho.
  - injection Hd as <- <- <- _. rewrite drop_0.
    constructor. intros room' c' consumed' written' Hr Hd Hw. cbn [mz_deflate miniz_deflate] in Hd.
    unfold toy_mz_deflate in Hd. rewrite Ho in Hd. injection Hd as _ _ <- _. cbn in Hw. lia.
  - injection Hd as <- <- _ _. rewrite drop_all. by eapply Hempty.
Qed.

#[global] Instance miniz_deflate_laws : MinizDeflateLaws.
Proof.
  constructor; intros *; cbn [mz_deflate miniz_deflate].
  - unfold toy_mz_deflate. destruct (over core); intros [= <- <- <- <-]; [cbn; lia|]. rewrite length_take. lia.
  - intros Ho%toy_callable. unfold toy_mz_deflate. rewrite Ho. by intros [= <- <- <- <-].
  - intros Ho%toy_callable. unfold toy_mz_deflate. rewrite Ho. intros [= <- <- <- <-] E.
    by apply andb_true_iff in E as [?%bool_decide_eq_true _].
  - intros Ho%toy_finishing. unfold toy_mz_deflate. rewrite Ho. intros [= <- <- <- <-].
    rewrite length_take. intros Hl. by rewrite !bool_decide_true by (done || lia).
  - intros _. apply toy_settles.
Qed.
End ToyDeflate.

(** ** The shape of a stream *)

Section Shape.
Context `{MinizDeflate} `{ChecksumLaws}.

Definition undrained (s : NodeDeflate) : list byte := drop (pending_at s) (pending s).

(** What the compressor itself writes in a call. *)

Definition raw_part (s : NodeDeflate) (input : list byte) (room : nat) (flush : Z) : list byte :=
  let '(s, head) := drain s room in
  if ended s || bool_decide (length head = room) then []
  else (mz_deflate (comp s) input (room - length head) (mz_flush flush)).1.2.

(** A stream in use: calls of [deflate] with any input, room and flush, and
    level changes, in any order.  [out] is what the calls returned, [data]
    what they consumed and [raw] what the compressor wrote. *)

Inductive deflate_run (s0 : NodeDeflate) :
  list byte → list byte → list byte → NodeDeflate → Prop :=
| run_start : deflate_run s0 [] [] [] s0
| run_call out data raw s input room flush s' consumed written :
    deflate_run s0 out data raw s →
    NodeDeflate_deflate s input room flush = (s', consumed, written) →
    deflate_run s0 (out ++ written) (data ++ take consumed input)
      (raw ++ raw_part s input room flush) s'
| run_level out data raw s level :
    deflate_run s0 out data raw s →
    deflate_run s0 out data raw (set_comp (set_compression_level_raw (comp s) level) s)
| run_scratch out data raw s b :
    deflate_run s0 out data raw s → deflate_run s0 out data raw (set_scratch b s).

Definition stream_trailer (format : Format) (data : list byte) : list byte :=
  trailer_bytes (feed_trailer (first_sums format) data).

Definition sums_ok (t : Trailer) : Prop :=
  match t with
  | TAdler adler => (0 ≤ adler < 2 ^ 32)%Z
  | _ => True
  end.

Lemma feed_trailer_nil t : sums_ok t → feed_trailer t [] = t.
Proof. destruct t; cbn; intros; f_equal; auto using adler32_nil, crc_update_nil. Qed.

Lemma feed_trailer_app t a b : feed_trailer (feed_trailer t a) b = feed_trailer t (a ++ b).
Proof. destruct t; cbn; f_equal; auto using adler32_app, crc_update_app. Qed.

Definition shape_ok (format : Format) (header out data raw : list byte) (s : NodeDeflate) : Prop :=
  sums s = feed_trailer (first_sums format) data ∧ pending_at s ≤ length (pending s) ∧
  out ++ undrained s = header ++ raw ++ (if ended s then stream_trailer format data else []).

Lemma drain_spec s room s' head :
  drain s room = (s', head) →
  undrained s = head ++ undrained s' ∧ length head ≤ room ∧
  (length head ≠ room → undrained s' = []) ∧ 
  (pending_at s ≤ length (pending s) → pending_at s' ≤ length (pending s')) ∧
  comp s' = comp s ∧ sums s' = sums s ∧ ended s' = ended s ∧ pending s' = pending s.
Proof.
  unfold drain, undrained. intros [= <- <-]. cbn [pending pending_at comp sums ended].
  set (left := drop (pending_at s) (pending s)).
  assert (drop (pending_at s + min (length left) room) (pending s) =
          drop (min (length left) room) left) as -> by (unfold left; by rewrite drop_drop).
  assert (length left = length (pending s) - pending_at s) as Hl by apply length_drop.
  rewrite length_take. split_and!; [by rewrite take_drop|lia| |lia|done..].
  intros Hne. apply drop_ge. lia.
Qed.

Lemma shape_call format header out data raw s input room flush s' consumed written :
  shape_ok format header out data raw s →
  NodeDeflate_deflate s input room flush = (s', consumed, written) →
  shape_ok format header (out ++ written) (data ++ take consumed input)
    (raw ++ raw_part s input room flush) s'.
Proof.
  intros (Hsums & Hat & Hout) E. unfold NodeDeflate_deflate, raw_part in *.
  destruct (drain s room) as [s1 head] eqn:Ed.
  apply drain_spec in Ed as (Hu & Hl & Hfull & Hat1 & Hc1 & Hs1 & He1 & Hp1).
  destruct (ended s1 || bool_decide (length head = room)) eqn:Estop.
  { injection E as <- <- <-. rewrite take_0, !app_nil_r. unfold shape_ok.
    rewrite Hs1, He1, <-app_assoc, <-Hu. auto. }
  bools. assert (undrained s1 = []) as Hnone by auto. rewrite Hnone, app_nil_r in Hu.
  assert (pending_at s1 = length (pending s1)) as Hend.
  { specialize (Hat1 Hat). assert (length (undrained s1) = 0) as Hz by (by rewrite Hnone).
    unfold undrained in Hz. rewrite length_drop in Hz. lia. }
  rewrite Hu in Hout. rewrite <-He1, H2, app_nil_r in Hout.
  destruct (mz_deflate _ _ _ _) as [[[core c] w] fin] eqn:Ez. cbn [fst snd].
  assert (feed_trailer (sums s1) (take c input) =
          feed_trailer (first_sums format) (data ++ take c input)) as Hfeed
    by (by rewrite Hs1, Hsums, feed_trailer_app).
  destruct fin.
  - destruct (drain _ _) as [s2 tail] eqn:Ed2. injection E as <- <- <-.
    apply drain_spec in Ed2 as (Hu2 & _ & _ & Hat2 & _ & Hs2 & He2 & Hp2).
    cbn [sums ended pending pending_at undrained] in *. unfold shape_ok.
    rewrite Hs2, He2, Hfeed. split_and!; [done|apply Hat2; rewrite length_app; lia|].
    unfold undrained at 1 in Hu2. cbn [pending pending_at] in Hu2.
    rewrite Hend, drop_app_length, Hfeed in Hu2.
    unfold stream_trailer. rewrite Hu2, <-!app_assoc, (app_assoc out), Hout, <-!app_assoc. done.
  - injection E as <- <- <-. unfold shape_ok, undrained. cbn [sums ended pending pending_at].
    rewrite H2, Hend, drop_all, !app_nil_r. split_and!; [done|lia|].
    by rewrite (app_assoc out), Hout, <-app_assoc.
Qed.
End Shape.

Section Streams.
Context `{MinizDeflateLaws} `{ChecksumLaws}.

Lemma run_trans s0 out1 data1 raw1 s1 out2 data2 raw2 s2 :
  deflate_run s0 out1 data1 raw1 s1 → deflate_run s1 out2 data2 raw2 s2 →
  deflate_run s0 (out1 ++ out2) (data1 ++ data2) (raw1 ++ raw2) s2.
Proof.
  intros H1'. induction 1; rewrite ?app_nil_r, ?app_assoc; eauto using deflate_run.
Qed.

Lemma run_shape s0 format header out data raw s :
  shape_ok format header [] [] [] s0 → deflate_run s0 out data raw s →
  shape_ok format header out data raw s.
Proof. intros H0'. induction 1; eauto using shape_call. Qed.

Lemma new_shape fuel format level d s0 :
  NodeDeflate_new fuel format level d = Some s0 →
  shape_ok format (stream_header format (miniz_level level) (used_dictionary format d)) [] [] [] s0
  ∧ ended s0 = false.
Proof.
  unfold NodeDeflate_new. intros E. apply bind_Some in E as (core & _ & [= <-]).
  split; [|done]. split_and!; cbn; [|lia|by rewrite app_nil_r].
  rewrite feed_trailer_nil; [done|]. destruct format; cbn; lia.
Qed.

(** Whatever calls a stream gets (any inputs, output rooms and flushes,
    level changes in between), the bytes handed out and those still held
    back are the wrapper's header, then exactly what the compressor wrote,
    then, once the data has ended, the trailer of the data consumed:
    nothing is lost, repeated or reordered, however small the buffers. *)

Lemma deflate_stream_shape (fuel : nat) (format : Format) (level : Z) (d : option (list byte))
  (s0 s : NodeDeflate) (out data raw : list byte) :
  NodeDeflate_new fuel format level d = Some s0 → deflate_run s0 out data raw s →
  out ++ undrained s =
    stream_header format (miniz_level level) (used_dictionary format d) ++ raw ++
    (if ended s then stream_trailer format data else []).
Proof.
  intros Hn Hr. apply new_shape in Hn as [Hn _]. by apply (run_shape _ _ _ _ _ _ _ Hn) in Hr as (_ & _ & ?).
Qed.

(** ** The loops end *)

Lemma trailer_bytes_le t : length (trailer_bytes t) ≤ 8.
Proof.
  destruct t; cbn [trailer_bytes length];
    rewrite ?length_app, ?length_to_be_bytes, ?length_to_le_bytes; lia.
Qed.

(** A call on a stream that has not ended, with room for what is held back:
    the compressor gets the rest of the room. *)

Lemma deflate_call s input room flush s' c w :
  pending_at s ≤ length (pending s) → ended s = false → length (undrained s) < room →
  NodeDeflate_deflate s input room flush = (s', c, w) →
  ∃ core' c' w' fin tail,
    mz_deflate (comp s) input (room - length (undrained s)) (mz_flush flush) = (core', c', w', fin) ∧
    c = c' ∧ w = undrained s ++ w' ++ tail ∧ length w ≤ room ∧ comp s' = core' ∧ ended s' = fin ∧
    pending_at s' ≤ length (pending s') ∧ (length w < room → undrained s' = []) ∧
    (fin = false → tail = [] ∧ undrained s' = []).
Proof.
  intros Hat He Hroom E. unfold NodeDeflate_deflate in E.
  destruct (drain s room) as [s1 head] eqn:Ed.
  apply drain_spec in Ed as (Hu & Hl & Hfull & Hat1 & Hc1 & _ & He1 & _). specialize (Hat1 Hat).
  assert (length head ≠ room) as Hne by (rewrite Hu, length_app in Hroom; lia).
  assert (undrained s1 = []) as Hnone by auto. rewrite Hnone, app_nil_r in Hu. rewrite Hu.
  rewrite He1, He, bool_decide_false, Hc1 in E by done. cbn [orb] in E.
  assert (pending_at s1 = length (pending s1)) as Hend.
  { apply (f_equal length) in Hnone. unfold undrained in Hnone. rewrite length_drop in Hnone. cbn in Hnone. lia. }
  destruct (mz_deflate _ _ _ _) as [[[core c'] w'] fin] eqn:Ez.
  pose proof (deflate_bounds _ _ _ _ _ _ _ _ Ez) as [_ Hwb]. destruct fin.
  - destruct (drain _ _) as [s2 tail] eqn:Ed2. injection E as <- <- <-.
    apply drain_spec in Ed2 as (Hu2 & Hl2 & Hfull2 & Hat2 & Hc2 & _ & He2 & _).
    cbn [comp ended pending pending_at] in *. rewrite Hend in Hat2.
    exists core, c', w', true, tail. split_and!; try done.
    + rewrite !length_app. lia.
    + apply Hat2. rewrite length_app. lia.
    + rewrite !length_app. intros ?. apply Hfull2. lia.
  - injection E as <- <- <-. exists core, c', w', false, []. rewrite app_nil_r.
    unfold undrained. cbn [comp ended pending pending_at]. rewrite Hend, drop_all.
    split_and!; try done; rewrite ?length_app; lia.
Qed.

(** What the loop of [deflate_vec] leaves, from [s], when it is over. *)

Definition loop_ends (s : NodeDeflate) (input : list byte) (flush : Z) (buf : list byte) : Prop :=
  ∃ s' buf' w raw fuel0,
    (∀ fuel out, fuel0 ≤ fuel → deflate_loop fuel s input flush buf out = Some (s', buf', out ++ w)) ∧
    length buf' = length buf ∧ deflate_run s w input raw s' ∧ undrained s' = [] ∧
    pending_at s' ≤ length (pending s') ∧ ended s' = bool_decide (flush = Z_FINISH) ∧
    (ended s' = false → fed (comp s')).

Definition put_bytes (w buf : list byte) : list byte := w ++ drop (length w) buf.

Lemma length_put_bytes w buf : length w ≤ length buf → length (put_bytes w buf) = length buf.
Proof. intros ?. unfold put_bytes. rewrite length_app, length_drop. lia. Qed.

(** One turn of it: the last, or one more. *)

Lemma loop_last s input flush buf s' c w :
  NodeDeflate_deflate s input (length buf) flush = (s', c, w) →
  drop c input = [] → length w < length buf → undrained s' = [] →
  pending_at s' ≤ length (pending s') → ended s' = bool_decide (flush = Z_FINISH) →
  (ended s' = false → fed (comp s')) → loop_ends s input flush buf.
Proof.
  intros E Hin Hw Hu Hat He Hf. eexists s', (put_bytes w buf), w, _, 1.
  split; [|split; [apply length_put_bytes; lia|]; split; [|done]].
  - intros [|fuel] out Hfuel; [lia|]. cbn [deflate_loop]. rewrite E. fold (put_bytes w buf).
    rewrite length_put_bytes by lia. by rewrite decide_True.
  - pose proof (run_call s [] [] [] s input (length buf) flush s' c w (run_start s) E) as Hr.
    cbn [app] in Hr. rewrite <-(take_drop c input) at 1. by rewrite Hin, app_nil_r.
Qed.

Lemma loop_more s input flush buf s' c w :
  NodeDeflate_deflate s input (length buf) flush = (s', c, w) → length w = length buf →
  loop_ends s' (drop c input) flush (put_bytes w buf) → loop_ends s input flush buf.
Proof.
  intros E Hw (s2 & buf' & w' & raw & fuel0 & Hl & Hb & Hr & Hrest).
  eexists s2, buf', (w ++ w'), _, (S fuel0).
  split; [|split; [by rewrite Hb, length_put_bytes by lia|]; split; [|exact Hrest]].
  - intros [|fuel] out Hfuel; [lia|]. cbn [deflate_loop]. rewrite E. fold (put_bytes w buf).
    rewrite length_put_bytes by lia. rewrite decide_False by lia. rewrite Hl by lia. by rewrite app_assoc.
  - pose proof (run_call s [] [] [] s input (length buf) flush s' c w (run_start s) E) as Hc.
    pose proof (run_trans _ _ _ _ _ _ _ _ _ Hc Hr) as Ht. cbn [app] in Ht. by rewrite take_drop in Ht.
Qed.

(** After the stream has ended only the trailer is left. *)

Lemma ended_loop s flush buf :
  pending_at s ≤ length (pending s) → ended s = true → flush = Z_FINISH → 0 < length buf →
  loop_ends s [] flush buf.
Proof.
  intros Hat He Hf Hb. remember (length (undrained s)) as n eqn:Hn.
  revert s buf Hat He Hb Hn. induction (lt_wf n) as [n _ IH]; intros s buf Hat He Hb ->.
  destruct (NodeDeflate_deflate s [] (length buf) flush) as [[s' c] w] eqn:E. pose proof E as E'.
  unfold NodeDeflate_deflate in E'. destruct (drain s (length buf)) as [s1 head] eqn:Ed.
  apply drain_spec in Ed as (Hu & Hl & Hfull & Hat1 & _ & _ & He1 & _).
  rewrite He1, He in E'. cbn [orb] in E'. injection E' as -> <- ->.
  apply (f_equal length) in Hu as Hlen. rewrite length_app in Hlen.
  destruct (decide (length w = length buf)) as [Hw|Hw].
  - eapply loop_more; [exact E|done|]. rewrite drop_nil.
    eapply (IH (length (undrained s'))); [lia|by apply Hat1|congruence| |done].
    rewrite length_put_bytes; lia.
  - eapply loop_last; [exact E|apply drop_nil|lia|by apply Hfull|by apply Hat1| |by rewrite He1, He].
    by rewrite He1, He, bool_decide_true.
Qed.

Lemma mz_flush_finish flush : mz_flush flush = FFinish ↔ flush = Z_FINISH.
Proof. unfold mz_flush. repeat case_match; bools; subst; try done; split; intros; subst; done. Qed.

Lemma live_loop s input flush buf :
  pending_at s ≤ length (pending s) → ended s = false → length (undrained s) + 6 < length buf →
  callable (mz_flush flush) (comp s) input → loop_ends s input flush buf.
Proof.
  intros Hat He Hroom Hcall. pose proof (deflate_settles _ _ _ Hcall) as Hset.
  remember (comp s) as core eqn:Hcomp. revert s buf Hcomp Hat He Hroom Hcall.
  induction Hset as [core input _ IH]; intros s buf -> Hat He Hroom Hcall.
  destruct (NodeDeflate_deflate s input (length buf) flush) as [[s' c] w] eqn:E.
  pose proof E as Hd. apply deflate_call in Hd as
    (core' & c' & w' & fin & tail & Hz & -> & -> & Hle & Hc & He' & Hat' & Hu' & Hlive); [|done|done|lia].
  pose proof (deflate_bounds _ _ _ _ _ _ _ _ Hz) as [_ Hwb].
  destruct fin.
  - destruct (deflate_ends _ _ _ _ _ _ _ _ Hcall Hz eq_refl) as [Hf ->].
    apply mz_flush_finish in Hf. set (w := undrained s ++ w' ++ tail) in *.
    destruct (decide (length w = length buf)) as [Hw|Hw].
    + eapply loop_more; [exact E|done|]. rewrite drop_all. apply ended_loop; [done..|].
      rewrite length_put_bytes; lia.
    + eapply loop_last; [exact E|apply drop_all|lia|apply Hu'; lia|done| |congruence].
      by rewrite He', (bool_decide_true _ Hf).
  - destruct (Hlive eq_refl) as [-> Hnone]. rewrite app_nil_r in *.
    destruct (decide (length w' = length buf - length (undrained s))) as [Hw|Hw].
    + eapply loop_more; [exact E|rewrite length_app; lia|].
      eapply IH; [|exact Hz|done|done|done|done| |]; [lia|rewrite Hnone, length_put_bytes;
        [cbn; lia|rewrite length_app; lia]|].
      unfold callable in *. case_decide as Hf; [rewrite Hf in Hz; by eapply finishing_more|].
      eapply fed_call; [exact Hcall|exact Hf|exact Hz].
    + assert (length w' < length buf - length (undrained s)) as Hlt by lia.
      pose proof (deflate_works _ _ _ _ _ _ _ _ Hcall Hz Hlt) as ->.
      assert (mz_flush flush ≠ FFinish) as Hnf.
      { intros Hf. unfold callable in Hcall. rewrite decide_True in Hcall by done. rewrite Hf in Hz.
        by pose proof (deflate_finishes _ _ _ _ _ _ _ Hcall Hz Hlt). }
      eapply loop_last; [exact E|apply drop_all|rewrite length_app; lia|done|done| |].
      * rewrite He', bool_decide_false; [done|]. by rewrite <-mz_flush_finish.
      * intros _. unfold callable in Hcall. rewrite decide_False in Hcall by done. rewrite Hc. by eapply fed_call.
Qed.

Lemma deflate_prime_total core tail room :
  6 < room → fed core → ∃ core' fuel0, fed core' ∧
    ∀ fuel, fuel0 ≤ fuel → deflate_prime fuel core tail room = Some core'.
Proof.
  intros Hr Hfed.
  assert (callable FSync core tail) as Hcall by done. apply deflate_settles in Hcall as Hset.
  revert Hfed Hcall. induction Hset as [core tail _ IH]; intros Hfed Hcall.
  destruct (mz_deflate core tail room FSync) as [[[core1 c] w] e] eqn:Ez.
  pose proof (deflate_bounds _ _ _ _ _ _ _ _ Ez) as [_ Hw].
  assert (e = false) as ->.
  { destruct e; [|done]. by destruct (deflate_ends _ _ _ _ _ _ _ _ Hcall Ez eq_refl) as [? _]. }
  assert (fed core1) as Hfed1 by (by eapply (fed_call core tail room FSync)).
  destruct (decide (drop c tail = [] ∧ length w < room)) as [Hd|Hd].
  - exists core1, 1. split; [done|]. intros [|fuel] Hf; [lia|]. cbn. by rewrite Ez, decide_True.
  - assert (length w = room) as Hfull.
    { destruct (decide (length w < room)) as [Hlt|]; [|lia]. destruct Hd. split; [|done].
      rewrite (deflate_works _ _ _ _ _ _ _ _ Hcall Ez Hlt). apply drop_all. }
    destruct (IH room core1 c w Hr Ez Hfull Hfed1 Hfed1) as (core' & fuel0 & Hf' & Hp).
    exists core', (S fuel0). split; [done|]. intros [|fuel] Hf; [lia|].
    cbn. rewrite Ez, decide_False by done. apply Hp. lia.
Qed.

(** A stream between two calls of [deflate_vec]. *)

Record between_calls (s : NodeDeflate) : Prop := {
  ready_at : pending_at s ≤ length (pending s);
  ready_live : ended s = false;
  ready_held : length (undrained s) ≤ 10;
  ready_fed : fed (comp s);
  ready_scratch : scratch s = [] ∨ length (scratch s) = STEP_OUT
}.

Lemma stream_header_le format level d : length (stream_header format level d) ≤ 10.
Proof.
  destruct format; cbn [stream_header]; [cbn; lia| |cbn; lia].
  rewrite length_app. unfold deflate_zlib_header. rewrite length_to_be_bytes.
  destruct d; cbn [from_option length]; rewrite ?length_to_be_bytes; lia.
Qed.

Lemma new_total format level d :
  ∃ s0 fuel0, between_calls s0 ∧ ∀ fuel, fuel0 ≤ fuel → NodeDeflate_new fuel format level d = Some s0.
Proof.
  unfold NodeDeflate_new. set (core := set_raw_format_and_level comp_default (miniz_level level)).
  assert (∃ core' fuel0, fed core' ∧ ∀ fuel, fuel0 ≤ fuel →
    match used_dictionary format d with
    | Some d => deflate_prime fuel core (dictionary_tail d) (length (dictionary_tail d) + 64)
    | None => Some core
    end = Some core') as (core' & fuel0 & Hfed & Hp).
  { destruct (used_dictionary format d) as [d'|]; [|exists core, 0; by split; [apply fed_new|]].
    apply deflate_prime_total; [lia|apply fed_new]. }
  eexists _, fuel0. split; [|intros fuel Hf; cbn zeta; rewrite Hp by exact Hf; reflexivity].
  split; cbn; [lia|done|rewrite drop_0; apply stream_header_le|done|by left].
Qed.

(** A call of [deflate_vec] on a stream in use: it takes all of [input],
    leaves nothing undrained, and ends the stream exactly under Z_FINISH. *)

Lemma deflate_vec_total s input flush :
  between_calls s →
  ∃ s' w raw fuel0, (∀ fuel, fuel0 ≤ fuel → deflate_vec fuel s input flush = Some (s', w)) ∧
    deflate_run s w input raw s' ∧ undrained s' = [] ∧
    ended s' = bool_decide (flush = Z_FINISH) ∧ (ended s' = false → between_calls s').
Proof.
  intros [Hat He Hheld Hfed Hscr]. unfold deflate_vec.
  set (buf := match scratch s with [] => _ | _ => _ end).
  assert (length buf = STEP_OUT) as Hb.
  { unfold buf. destruct (scratch s); [apply length_replicate|]. by destruct Hscr. }
  assert (6 < STEP_OUT - 10) as Hso by (unfold STEP_OUT; lia).
  destruct (live_loop (set_scratch [] s) input flush buf)
    as (s' & buf' & w & raw & fuel0 & Hl & Hlb & Hrun & Hu & Hat' & Hend & Hf'); [done|done| | |].
  { change (undrained (set_scratch [] s)) with (undrained s). lia. }
  { unfold callable. case_decide; [by apply finishing_first|done]. }
  exists (set_scratch buf' s'), w, raw, fuel0. split; [|split_and!; [|done|done|]].
  - intros fuel Hf. by rewrite Hl.
  - pose proof (run_trans s [] [] [] (set_scratch [] s) w input raw s'
      (run_scratch _ _ _ _ _ _ (run_start s)) Hrun) as Hr.
    apply (run_scratch _ _ _ _ _ buf' Hr).
  - intros He'. split; [done|done| |by apply Hf'|right; cbn; congruence].
    change (undrained (set_scratch buf' s')) with (undrained s'). rewrite Hu. cbn. lia.
Qed.

(** The streams of node:zlib: a sequence of writes and [params()] calls,
    then the end. *)

Fixpoint compressor_ops (fuel : nat) (s : NodeDeflate) (ops : list CompressorOp)
  : option (NodeDeflate * list byte) :=
  match ops with
  | [] => compressor_finish fuel s
  | op :: ops =>
      '(s, out) ← compressor_op fuel s op;
      '(s, rest) ← compressor_ops fuel s ops;
      Some (s, out ++ rest)
  end.

Definition op_data (op : CompressorOp) : list byte :=
  match op with
  | WriteChunk chunk => chunk
  | Params _ => []
  end.

Lemma compressor_op_total s op :
  between_calls s →
  ∃ s' w raw fuel0, (∀ fuel, fuel0 ≤ fuel → compressor_op fuel s op = Some (s', w)) ∧
    deflate_run s w (op_data op) raw s' ∧ between_calls s'.
Proof.
  intros Hs. destruct op as [chunk|level]; cbn [compressor_op op_data].
  - destruct (deflate_vec_total s chunk 0 Hs) as (s' & w & raw & f & Hv & Hr & _ & Hend & Hs').
    exists s', w, raw, f. split_and!; [done..|by apply Hs'].
  - destruct (deflate_vec_total s [] Z_SYNC_FLUSH Hs) as (s' & w & raw & f & Hv & Hr & _ & Hend & Hs').
    eexists _, w, raw, f. split; [intros fuel Hf; unfold params; by rewrite (Hv fuel Hf)|].
    specialize (Hs' Hend). destruct level as [level|]; [|done]. split; [by apply run_level|].
    destruct Hs'. split; try done. by apply fed_level.
Qed.

Lemma compressor_ops_total s ops :
  between_calls s →
  ∃ s' w raw fuel0, (∀ fuel, fuel0 ≤ fuel → compressor_ops fuel s ops = Some (s', w)) ∧
    deflate_run s w (ops ≫= op_data) raw s' ∧ undrained s' = [] ∧ ended s' = true.
Proof.
  revert s. induction ops as [|op ops IH]; intros s Hs.
  - destruct (deflate_vec_total s [] Z_FINISH Hs) as (s' & w & raw & f & Hv & Hr & Hu & Hend & _).
    by exists s', w, raw, f.
  - destruct (compressor_op_total s op Hs) as (s1 & w1 & raw1 & f1 & Ho & Hr1 & Hs1).
    destruct (IH s1 Hs1) as (s' & w & raw & f & Hops & Hr & Hu & Hend).
    exists s', (w1 ++ w), (raw1 ++ raw), (max f1 f). split_and!; [|by eapply run_trans|done..].
    intros fuel Hf. cbn [compressor_ops]. rewrite (Ho fuel) by lia. cbn. by rewrite (Hops fuel) by lia.
Qed.

(** A stream that is written in any chunks, with [params()] calls
    between them, and then ended, returns from every call (given fuel for
    its finite output) and has produced, in order, the header, deflate data
    and the trailer of all the chunks together; nothing is left to drain. *)

Lemma compressor_stream_complete (format : Format) (level : Z) (d : option (list byte))
  (ops : list CompressorOp) :
  ∃ fuel0, ∀ fuel, fuel0 ≤ fuel → ∃ s0 s raw,
    NodeDeflate_new fuel format level d = Some s0 ∧
    compressor_ops fuel s0 ops =
      Some (s, stream_header format (miniz_level level) (used_dictionary format d) ++ raw ++
               stream_trailer format (ops ≫= op_data)) ∧
    undrained s = [].
Proof.
  destruct (new_total format level d) as (s0 & f0 & Hready & Hnew).
  destruct (new_shape f0 format level d s0) as [Hs0 _]; [by apply Hnew|].
  destruct (compressor_ops_total s0 ops Hready) as (s & w & raw & f & Hops & Hr & Hu & Hend).
  exists (max f0 f). intros fuel Hf. exists s0, s, raw.
  rewrite Hnew by lia. split; [done|]. rewrite Hops by lia. split; [|done]. do 2 f_equal.
  apply (run_shape _ _ _ _ _ _ _ Hs0) in Hr as (_ & _ & Hout).
  by rewrite Hu, Hend, app_nil_r in Hout.
Qed.

(** C8. Whatever calls a stream gets (any inputs, output rooms and flushes,
    level changes in between), the bytes handed out and those still held
    back are the wrapper's header, then exactly what the compressor wrote,
    then, once the data has ended, the trailer of the data consumed: nothing
    is lost, repeated or reordered, however small the buffers.  And a stream
    that is written in any chunks, with [params()] calls between them, and
    then ended, returns from every call, given a compressor that keeps the
    contract [MinizDeflateLaws] of zlib's documentation, and has produced, in order, the header, deflate data and the trailer of
    all the chunks together, with nothing left to drain. *)

End Streams.

(** ** Read back by the inflate streams *)

Lemma miniz_level_range level : (0 ≤ miniz_level level ≤ 9)%Z.
Proof. unfold miniz_level. repeat case_match; bools; lia. Qed.

(** Every zlib header written is one RFC 1950 allows, its FDICT bit the one
    asked for. *)

Lemma written_zlib_header level fdict :
  (0 ≤ level ≤ 9)%Z →
  ∃ cmf flg, deflate_zlib_header level fdict = [cmf; flg] ∧ zlib_valid cmf flg ∧
    has_flag flg ZLIB_FDICT = fdict.
Proof.
  intros Hl.
  assert (Forall (λ l, ∀ fd : bool, bool_decide
    (zlib_valid (nth 0 (deflate_zlib_header l fd) x00) (nth 1 (deflate_zlib_header l fd) x00) ∧
     has_flag (nth 1 (deflate_zlib_header l fd) x00) ZLIB_FDICT = fd) = true)
    (seqZ 0 10)) as Hall by (repeat constructor; intros []; vm_compute; reflexivity).
  rewrite Forall_forall in Hall. specialize (Hall level ltac:(apply elem_of_seqZ; lia) fdict).
  apply bool_decide_eq_true in Hall.
  assert (length (deflate_zlib_header level fdict) = 2) as H2 by apply length_to_be_bytes.
  destruct (deflate_zlib_header level fdict) as [|cmf [|flg [|]]]; try discriminate.
  by exists cmf, flg.
Qed.

Section ReadBack.
Context `{Miniz} `{ChecksumLaws}.

(** The body of a stream: turns only. *)

Lemma body_run_check s1 data tr s2 :
  at_ s1 = Body → member_run s1 data tr s2 → tr = [] →
  (check s1 = CNone ∨ (∃ a, check s1 = CAdler a ∧ (0 ≤ a < 2 ^ 32)%Z) ∨ ∃ c, check s1 = CCrc c) →
  check s2 = feed_check (check s1) data ∧ trailer s2 = trailer s1 ∧
  (at_ s2 = Body ∨ at_ s2 = trailer_state (check s2)).
Proof.
  intros Ha1 Hrun Htr Hcheck. induction Hrun as [|out tr s src n c s' t _ IH Ha E Hne|].
  - split_and!; [|done|by left].
    destruct Hcheck as [-> |[(a & -> & ?)|[c ->]]]; cbn; f_equal; symmetry;
      auto using adler32_nil, crc_update_nil.
  - destruct (IH Htr) as (Hc & Ht & _). unfold body_turn in E.
    destruct (Inflater_step _ _ _) as [inf [[[used o] fin]|e]].
    2:{ injection E as <- <-. by destruct (Hne (Zlib (from_failure e))). }
    assert (feed_check (check s) o = feed_check (check s1) (out ++ o)) as Hf.
    { rewrite Hc. destruct (check s1); cbn; f_equal; auto using adler32_app, crc_update_app. }
    cbn [check set_inflate] in E. rewrite Hf in E.
    destruct (bool_decide_reflect (0 < length o)) as [Hl|Hl], fin; cbn in E;
      injection E as <- <-; cbn; auto.
    assert (o = []) as -> by (destruct o; cbn in *; [done|lia]). auto.
  - by destruct tr.
Qed.

Lemma gzip_header_read level s :
  at_member s → ∃ s1, reads s (gzip_header level) s1 ∧ check s1 = CCrc crc_new ∧
    inflate s1 = inflate s ∧ trailer s1 = trailer s.
Proof.
  intros Hs. unfold gzip_header. set (xfl := if (9 <=? level)%Z then _ else _).
  change [x1f; x8b; x08; x00; x00; x00; x00; x00; xfl; xff] with
    ([x1f; x8b; x08; x00] ++ [x00; x00; x00; x00; xfl; xff]).
  assert (leads (after_magic s x00) [x00; x00; x00; x00; xfl; xff]) as Hl.
  { apply leads_fixed; [done|]. exists [x00; x00; x00; x00; xfl; xff], [], [], [].
    split_and!; [done|cbv; discriminate|apply not_elem_of_nil..|reflexivity]. }
  destruct Hl as (s1 & Hb & Ha & Hc & Hi & _ & Ht). exists s1. split_and!; [|done..].
  apply (reads_app _ _ (after_magic s x00)); [by apply magic_bytes|done].
Qed.

(** Reading header bytes never changes the length of the trailer buffer. *)

Lemma header_bytes_trailer s l : length (trailer (header_bytes s l).1) = length (trailer s).
Proof.
  assert (∀ s b, length (trailer (header_byte s b).1) = length (trailer s)) as Hb.
  { clear. intros s b. unfold header_byte, put_trailer, zlib_header, preset_dictionary.
    repeat case_match; cbn; rewrite ?length_insert; done. }
  revert s. induction l as [|b l IH]; intros s; cbn [header_bytes]; [done|].
  specialize (Hb s b). destruct (header_byte s b) as [s1 [[]|e]]; cbn in *; [|done].
  by rewrite IH.
Qed.

Lemma zlib_header_read level d :
  let s := with_dictionary WZlib d in let ud := used_dictionary Deflate d in
  ∃ s1, reads s (stream_header Deflate (miniz_level level) ud) s1 ∧
    inflate s1 = from_option (Inflater_prime (Inflater_new false)) (Inflater_new false) ud ∧
    check s1 = CAdler 1.
Proof.
  intros s ud.
  assert (at_zlib s ∧ dictionary s = ud ∧ inflate s = Inflater_new false) as (Hz & Hd & Hi)
    by (by unfold s, ud; destruct d as [[|? ?]|]).
  unfold stream_header.
  destruct (written_zlib_header (miniz_level level) (bool_decide (is_Some ud)))
    as (cmf & flg & -> & Hv & Hf); [apply miniz_level_range|].
  assert (∃ s1, reads s ([cmf; flg] ++ from_option (λ d, to_be_bytes 4 (adler32 1 d)) [] ud) s1)
    as [s1 Hr].
  { destruct (zlib_head_reads s cmf flg Hz Hv) as (s1 & E & Ha1 & Ht1 & Hd1). rewrite Hf in Ha1.
    setoid_rewrite reads_app; [|exact E]. rewrite Hd in Hd1.
    destruct ud as [ud|]; cbn [from_option] in *.
    - apply dict_id_reads; [done|by rewrite Ht1; apply Hz|done].
    - exists s1. by apply reads_body. }
  exists s1. split; [done|].
  destruct (zlib_reads_head s _ s1 Hz Hr) as (cmf' & flg' & r & Heq & _ & Hcase).
  injection Heq as <- <- _. rewrite Hf in Hcase. rewrite Hd, Hi in Hcase.
  destruct ud as [ud|]; cbn in Hcase |- *.
  - destruct Hcase as (d' & [= <-] & _ & ? & ?). done.
  - by destruct Hcase as (_ & ? & ?).
Qed.

Lemma header_read format level d :
  let s := with_dictionary (wrap_of format) d in
  ∃ s1, reads s (stream_header format (miniz_level level) (used_dictionary format d)) s1 ∧
    inflate s1 = from_option (Inflater_prime (Inflater_new false)) (Inflater_new false)
                   (used_dictionary format d) ∧
    check s1 = match format with Gzip => CCrc crc_new | Deflate => CAdler 1 | DeflateRaw => CNone end.
Proof.
  destruct format; cbn [wrap_of].
  - assert (at_member (with_dictionary WGzip d) ∧ used_dictionary Gzip d = None ∧
      inflate (with_dictionary WGzip d) = Inflater_new false) as (Hm & -> & Hi)
      by (by destruct d as [[|? ?]|]).
    destruct (gzip_header_read (miniz_level level) _ Hm) as (s1 & ? & ? & Hi1 & _).
    exists s1. rewrite Hi1, Hi. split; [assumption|]. split; [reflexivity|assumption].
  - apply zlib_header_read.
  - exists (with_dictionary WRaw d).
    destruct d as [[|? ?]|]; (split; [split; reflexivity|split; reflexivity]).
Qed.

(** C9. The wrappers are read back: for every format, level and dictionary,
    an inflate stream of the matching wrapper and the same dictionary reads
    the header written to the first byte of the deflate data, its window
    primed exactly when the deflater used the dictionary; and once that
    data has inflated to [data], by any sequence of turns, the trailer
    written for [data] completes the stream. *)

Theorem wrapper_round_trip (format : Format) (level : Z) (d : option (list byte)) :
  ∃ s1, reads (with_dictionary (wrap_of format) d)
          (stream_header format (miniz_level level) (used_dictionary format d)) s1 ∧
    inflate s1 = from_option (Inflater_prime (Inflater_new false)) (Inflater_new false)
                   (used_dictionary format d) ∧
    ∀ data s2, member_run s1 data [] s2 → at_ s2 ≠ Body →
      ∃ s3, header_bytes s2 (stream_trailer format data) = (s3, Ok tt) ∧ is_complete s3 = true.
Proof.
  destruct (header_read format level d) as (s1 & Hreads & Hinf & Hc).
  exists s1. split; [assumption|]. split; [assumption|]. intros data s2 Hrun Hne.
  assert (length (trailer s1) = 8) as Hlen.
  { pose proof (header_bytes_trailer (with_dictionary (wrap_of format) d) (stream_header format
      (miniz_level level) (used_dictionary format d))) as Hl. rewrite (proj1 Hreads) in Hl.
    cbn [fst] in Hl. rewrite Hl. by destruct format, d as [[|? ?]|]. }
  destruct (body_run_check s1 data [] s2 (proj2 Hreads) Hrun eq_refl) as (Hc2 & Ht2 & [Hb|Hat]);
    [destruct format; rewrite Hc; eauto 6 with lia|done|].
  rewrite Hc in Hc2. unfold stream_trailer.
  destruct format; cbn [feed_check first_sums feed_trailer trailer_bytes] in *; rewrite Hc2 in Hat.
  - apply gz_trailer_accepted; [done|congruence|done].
  - apply zlib_trailer_accepted; [done|congruence|done|]. apply adler32_u32. lia.
  - exists s2. split; [done|]. unfold is_complete. by rewrite Hat.
Qed.
End ReadBack.

(** ** The theorems on a concrete stream *)

(** A gzip stream of "hi" through a three-byte buffer. *)

Definition toy_stream : NodeDeflate (H := ToyDeflate.miniz_deflate) (H0 := Toy.checksums) :=
  default {| comp := comp_default; sums := TNone; pending := []; pending_at := 0;
             ended := false; scratch := [] |} (NodeDeflate_new 1 Gzip 9 None).

Definition toy_call1 := NodeDeflate_deflate toy_stream (bs "hi") 3 Z_FINISH.
Definition toy_call2 := NodeDeflate_deflate toy_call1.1.1 (bs "hi") 14 Z_FINISH.


Lemma wrapper_round_trip_witness :
  ∃ s1, reads (H := Toy.miniz) (H0 := Toy.checksums) (with_dictionary WZlib (Some (bs "ab")))
          [x78; xbb; x00; x00; x00; xc4] s1.
Proof.
  destruct (wrapper_round_trip (H := Toy.miniz) (H0 := Toy.checksums) Deflate 6 (Some (bs "ab"))) as (s1 & Hr & _).
  exists s1. exact Hr.
Defined.
