(* ===== verification/SourceMap.v ===== *)
(** * SourceMap: [oam_loader/src/sourcemap.rs]

    The process-wide registry from a generated file to its source map, decoded
    on first use, and the greatest-lower-bound lookup behind every stack
    trace.  Reading the JSON around the [mappings] string is serde_json's work
    and so a parameter ([json_mappings]).  [i64] additions wrap, as a release
    build's do. *)

From S2P Require Import Prelude RustStd.

(** ** Data *)

Record Seg : Type := { gen_col : Z; src_line : Z; src_col : Z }.

#[global] Instance Seg_eq_dec : EqDecision Seg.
Proof. solve_decision. Defined.

Definition DecodedMap : Type := list (list Seg).

Inductive Entry : Type :=
| Raw (json : list byte)
| Decoded (map : DecodedMap)
| Invalid.

(** ** The VLQ decoder *)

Definition base64_value (b : byte) : option Z :=
  let z := b2z b in
  if (65 <=? z)%Z && (z <=? 90)%Z then Some (z - 65)%Z
  else if (97 <=? z)%Z && (z <=? 122)%Z then Some (z - 97 + 26)%Z
  else if (48 <=? z)%Z && (z <=? 57)%Z then Some (z - 48 + 52)%Z
  else if (z =? 43)%Z then Some 62%Z
  else if (z =? 47)%Z then Some 63%Z
  else None.

Definition CONTINUATION : Z := 32.

(** The state of [decode_vlq]'s loop. *)

Record Vlq : Type := { fields : list Z; value : Z; shift : Z; in_field : bool }.

Definition vlq_start : Vlq := {| fields := []; value := 0; shift := 0; in_field := false |}.

Definition vlq_byte (st : Vlq) (b : byte) : option Vlq :=
  digit ← base64_value b;
  if (62 <? shift st)%Z then None
  else
    let value' := wrap_i64 (value st +
      wrap_i64 (Z.shiftl (Z.land digit (CONTINUATION - 1)) (shift st))) in
    if (Z.land digit CONTINUATION =? 0)%Z then
      let negative := (Z.land value' 1 =? 1)%Z in
      let magnitude := Z.shiftr value' 1 in
      Some {| fields := fields st ++ [if negative then (- magnitude)%Z else magnitude];
              value := 0; shift := 0; in_field := false |}
    else Some {| fields := fields st; value := value'; shift := shift st + 5; in_field := true |}.

Fixpoint vlq_bytes (st : Vlq) (l : list byte) : option Vlq :=
  match l with
  | [] => Some st
  | b :: l => st ← vlq_byte st b; vlq_bytes st l
  end.

Definition decode_vlq (seg : list byte) : option (list Z) :=
  st ← vlq_bytes vlq_start seg;
  if in_field st || bool_decide (fields st = []) then None else Some (fields st).

(** ** The mappings *)

(** What carries over from segment to segment: the source index, line and
    column for the whole string, the generated column within a line. *)

Record Cursor : Type := { c_index : Z; c_line : Z; c_col : Z; c_gen : Z }.

Definition u32_try_from (z : Z) : option Z :=
  if (0 <=? z)%Z && (z <=? u32_max)%Z then Some z else None.

Definition map_segment (c : Cursor) (seg : list byte) : option (Cursor * list Seg) :=
  fs ← decode_vlq seg;
  match fs with
  | [g] => Some ({| c_index := c_index c; c_line := c_line c; c_col := c_col c;
                    c_gen := wrap_i64 (c_gen c + g) |}, [])
  | [g; i; l; k] | [g; i; l; k; _] =>
      let c := {| c_index := wrap_i64 (c_index c + i); c_line := wrap_i64 (c_line c + l);
                  c_col := wrap_i64 (c_col c + k); c_gen := wrap_i64 (c_gen c + g) |} in
      if (c_gen c <? 0)%Z || (c_line c <? 0)%Z || (c_col c <? 0)%Z || (c_index c <? 0)%Z then None
      else
        g ← u32_try_from (c_gen c);
        l ← u32_try_from (c_line c);
        k ← u32_try_from (c_col c);
        Some (c, [{| gen_col := g; src_line := l; src_col := k |}])
  | _ => None
  end.

Fixpoint map_segments (c : Cursor) (segs : list (list byte)) : option (Cursor * list Seg) :=
  match segs with
  | [] => Some (c, [])
  | seg :: segs =>
      '(c, s) ← map_segment c seg;
      '(c, rest) ← map_segments c segs;
      Some (c, s ++ rest)
  end.

Definition new_line (c : Cursor) : Cursor :=
  {| c_index := c_index c; c_line := c_line c; c_col := c_col c; c_gen := 0 |}.

Definition map_group (c : Cursor) (group : list byte) : option (Cursor * list Seg) :=
  if decide (group = []) then Some (new_line c, [])
  else map_segments (new_line c) (split_on ","%byte group).

Fixpoint map_groups (c : Cursor) (groups : list (list byte)) : option DecodedMap :=
  match groups with
  | [] => Some []
  | group :: groups =>
      '(c, segs) ← map_group c group;
      lines ← map_groups c groups;
      Some (segs :: lines)
  end.

Definition cursor_start : Cursor := {| c_index := 0; c_line := 0; c_col := 0; c_gen := 0 |}.

Definition decode_mappings (mappings : list byte) : option DecodedMap :=
  map_groups cursor_start (split_on ";"%byte mappings).

(** ** The lookup *)

Definition map_position (map : DecodedMap) (line column : Z) : option (Z * Z) :=
  segs ← map !! Z.to_nat (line - 1);
  match partition_point (λ s, gen_col s <=? column)%Z segs with
  | O => None
  | S idx => seg ← segs !! idx; Some (wrap_u 32 (src_line seg + 1), src_col seg)
  end.

Notation Registry := (gmap (list Z) Entry).

Section Registry.
Context (json_mappings : list byte → option (list byte)).

Definition decode (json : list byte) : option DecodedMap :=
  mappings ← json_mappings json; decode_mappings mappings.

(** The key of a file: its name, as numbers, which have a map. *)

Definition file_key (file : list byte) : list Z := b2z <$> file.

Definition record (table : Registry) (file json : list byte) : Registry :=
  <[file_key file := Raw json]> table.

Definition decode_entry (e : Entry) : Entry :=
  match e with
  | Raw json => match decode json with
                | Some map => Decoded map
                | None => Invalid
                end
  | e => e
  end.

Definition lookup_position (table : Registry) (file : list byte) (line column : Z)
  : Registry * option (Z * Z) :=
  if (line =? 0)%Z then (table, None)
  else
    match table !! file_key file with
    | None => (table, None)
    | Some entry =>
        let entry := decode_entry entry in
        (<[file_key file := entry]> table,
         match entry with
         | Decoded map => map_position map line column
         | _ => None
         end)
    end.
End Registry.
