(* ===== verification/SourceMapSpec.v ===== *)
(** * SourceMapSpec: what source-map lookups guarantee

    - the VLQ decoder inverts the standard encoder on every field of up to 62
      bits, and the decoder of [mappings] inverts the encoder of whole
      maps;
    - the binary search finds the greatest segment at or before a column, and
      a lookup answers from the latest map recorded for its file, whatever was
      looked up before. *)

From S2P Require Import Prelude RustStd SourceMap.

(** ** The encoder *)

Definition base64_char (d : Z) : byte :=
  nth (Z.to_nat d) (bs "ABCDEFGHIJKLMNOPQRSTUVWXYZabcdefghijklmnopqrstuvwxyz0123456789+/") x00.

Fixpoint vlq_digits (fuel : nat) (n : Z) : list Z :=
  match fuel with
  | O => []
  | S fuel => if (n <? 32)%Z then [n] else (n `mod` 32 + 32)%Z :: vlq_digits fuel (n `div` 32)
  end.

(** The sign goes to the lowest bit. *)

Definition zigzag (z : Z) : Z := if (z <? 0)%Z then (2 * - z + 1)%Z else (2 * z)%Z.

Definition encode_field (z : Z) : list byte := base64_char <$> vlq_digits 13 (zigzag z).

Definition encode_vlq (fs : list Z) : list byte := fs ≫= encode_field.

(** A field the encoder can write in 13 digits. *)

Definition vlq_range (z : Z) : Prop := (- 2 ^ 62 < z < 2 ^ 62)%Z.

Example encode_vlq_ex : encode_vlq [0; 16; -1; 1000]%Z = bs "AgBDw+B".
Proof. vm_compute. reflexivity. Qed.

Lemma base64_digit d :
  (0 ≤ d < 64)%Z →
  base64_value (base64_char d) = Some d ∧ Z.land d (CONTINUATION - 1) = (d `mod` 32)%Z ∧
  (Z.land d CONTINUATION =? 0)%Z = (d <? 32)%Z ∧
  base64_char d ≠ ","%byte ∧ base64_char d ≠ ";"%byte.
Proof.
  intros Hd.
  assert (Forall (λ d, bool_decide (base64_value (base64_char d) = Some d ∧
    Z.land d (CONTINUATION - 1) = (d `mod` 32)%Z ∧
    (Z.land d CONTINUATION =? 0)%Z = (d <? 32)%Z ∧
    base64_char d ≠ ","%byte ∧ base64_char d ≠ ";"%byte) = true) (seqZ 0 64)) as Hall
    by (repeat constructor).
  rewrite Forall_forall in Hall. specialize (Hall d ltac:(apply elem_of_seqZ; lia)).
  by apply bool_decide_eq_true in Hall.
Qed.

(** The signed value of an accumulated field. *)

Definition unzigzag (w : Z) : Z :=
  if (Z.land w 1 =? 1)%Z then (- Z.shiftr w 1)%Z else Z.shiftr w 1.

Lemma unzigzag_zigzag z : unzigzag (zigzag z) = z.
Proof.
  assert (∀ w, Z.land w 1 = w `mod` 2 ∧ Z.shiftr w 1 = w `div` 2)%Z as Hbits.
  { intros w. split; [apply (Z.land_ones w 1); lia|by rewrite Z.shiftr_div_pow2]. }
  unfold unzigzag. destruct (Hbits (zigzag z)) as [-> ->]. unfold zigzag.
  destruct (z <? 0)%Z eqn:E; bools.
  - rewrite (Z.mul_comm 2), Z.add_comm, Z_mod_plus_full, Z.div_add by lia.
    change (1 `mod` 2 =? 1)%Z with true. change (1 `div` 2)%Z with 0%Z. cbv iota. lia.
  - rewrite (Z.mul_comm 2), Z_mod_mult, Z.div_mul by lia. done.
Qed.

Lemma zigzag_range z : vlq_range z → (0 ≤ zigzag z < 2 ^ 63)%Z.
Proof. unfold vlq_range, zigzag. destruct (z <? 0)%Z eqn:E; bools; lia. Qed.

Lemma vlq_digits_range fuel n d : (0 ≤ n)%Z → d ∈ vlq_digits fuel n → (0 ≤ d < 64)%Z.
Proof.
  revert n. induction fuel as [|fuel IH]; intros n Hn; cbn; [by intros ?%not_elem_of_nil|].
  destruct (n <? 32)%Z eqn:E; bools; rewrite ?list_elem_of_singleton, ?elem_of_cons.
  - lia.
  - pose proof (Z.mod_pos_bound n 32 ltac:(lia)). intros [->|Hd]; [lia|].
    apply (IH (n `div` 32)%Z); [by apply Z.div_pos; lia|done].
Qed.

(** Decoding the digits of [n] from a state that holds the bits below
    [shift]. *)

Lemma vlq_bytes_field fuel n st rest :
  (0 ≤ value st < 2 ^ shift st)%Z → (0 ≤ shift st ≤ 62)%Z → (0 ≤ n < 32 ^ Z.of_nat fuel)%Z →
  (value st + n * 2 ^ shift st < 2 ^ 63)%Z → 0 < fuel →
  vlq_bytes st ((base64_char <$> vlq_digits fuel n) ++ rest) =
  vlq_bytes {| fields := fields st ++ [unzigzag (value st + n * 2 ^ shift st)%Z];
               value := 0; shift := 0; in_field := false |} rest.
Proof.
  revert n st. induction fuel as [|fuel IH]; intros n st Hv Hs Hn Hb Hf; [lia|].
  cbn [vlq_digits]. destruct (n <? 32)%Z eqn:E; bools.
  - destruct (base64_digit n ltac:(lia)) as (Hd & Hl & Hc & _).
    cbn [fmap list_fmap app vlq_bytes]. unfold vlq_byte. rewrite Hd. cbn [mbind option_bind].
    destruct (62 <? shift st)%Z eqn:E62; bools; [lia|].
    rewrite Hl, Hc, Z.mod_small, (proj2 (Z.ltb_lt n 32)), Z.shiftl_mul_pow2 by lia.
    assert (0 ≤ n * 2 ^ shift st)%Z by (apply Z.mul_nonneg_nonneg; lia).
    rewrite (wrap_i64_id (n * 2 ^ shift st)) by (unfold i64_range; lia).
    rewrite wrap_i64_id by (unfold i64_range; lia). done.
  - pose proof (Z.mod_pos_bound n 32 ltac:(lia)) as Hm. pose proof (Z.div_mod n 32 ltac:(lia)) as Hdm.
    destruct (base64_digit (n `mod` 32 + 32)%Z ltac:(lia)) as (Hd & Hl & Hc & _).
    rewrite fmap_cons. cbn [app vlq_bytes]. unfold vlq_byte at 1. rewrite Hd. cbn [mbind option_bind].
    destruct (62 <? shift st)%Z eqn:E62; bools; [lia|].
    assert (0 < 2 ^ shift st)%Z as Hp by (apply Z.pow_pos_nonneg; lia).
    assert (n `mod` 32 * 2 ^ shift st ≤ n * 2 ^ shift st)%Z
      by (apply Z.mul_le_mono_nonneg_r; lia).
    assert (0 ≤ n `mod` 32 * 2 ^ shift st)%Z by (apply Z.mul_nonneg_nonneg; lia).
    rewrite Hl, Hc. replace ((n `mod` 32 + 32) `mod` 32)%Z with (n `mod` 32)%Z
      by (symmetry; rewrite <-(Z.mul_1_l 32) at 2; by rewrite Z_mod_plus_full, Z.mod_mod by lia).
    rewrite (proj2 (Z.ltb_ge _ 32)), Z.shiftl_mul_pow2 by lia.
    rewrite (wrap_i64_id (n `mod` 32 * 2 ^ shift st)) by (unfold i64_range; lia).
    rewrite wrap_i64_id by (unfold i64_range; lia).
    assert (2 ^ (shift st + 5) = 2 ^ shift st * 32)%Z as Hp5 by (rewrite Z.pow_add_r by lia; done).
    assert (value st + n `mod` 32 * 2 ^ shift st + n `div` 32 * 2 ^ (shift st + 5) =
            value st + n * 2 ^ shift st)%Z as Hval.
    { rewrite Hp5. generalize dependent (n `div` 32)%Z. intros q Hq. rewrite Hq at 2. ring. }
    cbv beta iota zeta. cbn [mbind option_bind]. rewrite IH; cbn [value shift fields].
    + by rewrite Hval.
    + rewrite Hp5. nia.
    + split; [lia|]. destruct (decide (shift st + 5 ≤ 62)%Z) as [|Hbig]; [done|exfalso].
      assert (2 ^ 63 ≤ 2 ^ (shift st + 5))%Z by (apply Z.pow_le_mono_r; lia). nia.
    + rewrite Nat2Z.inj_succ, Z.pow_succ_r in Hn by lia.
      split; [apply Z.div_pos; lia|apply Z.div_lt_upper_bound; lia].
    + lia.
    + destruct fuel; [cbn in Hn; lia|lia].
Qed.

Lemma vlq_bytes_encoded fs st rest :
  value st = 0%Z → shift st = 0%Z → Forall vlq_range fs →
  vlq_bytes st (encode_vlq fs ++ rest) =
  vlq_bytes {| fields := fields st ++ fs; value := 0; shift := 0;
               in_field := match fs with [] => in_field st | _ => false end |} rest.
Proof.
  revert st. induction fs as [|z fs IH]; intros st Hv Hs Hf.
  { rewrite app_nil_r. destruct st; cbn in *; by subst. }
  apply Forall_cons in Hf as [Hz Hfs]. pose proof (zigzag_range z Hz) as Hr.
  unfold encode_vlq. cbn [mbind list_bind]. rewrite <-app_assoc. fold (encode_vlq fs).
  unfold encode_field. rewrite (vlq_bytes_field 13 (zigzag z)).
  - rewrite IH by done. cbn [fields]. rewrite Hv, Hs, Z.mul_1_r, Z.add_0_l, unzigzag_zigzag.
    rewrite <-app_assoc. by destruct fs.
  - rewrite Hv, Hs. done.
  - lia.
  - split; [lia|]. eapply Z.lt_le_trans; [apply Hr|by vm_compute].
  - rewrite Hv, Hs. lia.
  - lia.
Qed.

Lemma decode_encode_vlq fs :
  fs ≠ [] → Forall vlq_range fs → decode_vlq (encode_vlq fs) = Some fs.
Proof.
  intros Hne Hf. unfold decode_vlq. rewrite <-(app_nil_r (encode_vlq fs)).
  rewrite vlq_bytes_encoded by done. cbn. by destruct fs.
Qed.

(** Decoding a segment gives back the fields it was encoded from, for any
    number of fields of up to 62 bits of magnitude and either sign: within
    that range the 64-bit accumulator never wraps and the cap on the shift is
    never reached. *)

Lemma vlq_round_trip (fs : list Z) :
  fs ≠ [] → Forall (λ z, - 2 ^ 62 < z < 2 ^ 62)%Z fs → decode_vlq (encode_vlq fs) = Some fs.
Proof.
  intros Hne Hf. apply decode_encode_vlq; [done|].
  eapply Forall_impl; [exact Hf|]. intros z Hz. exact Hz.
Qed.

(** ** Whole maps *)

Definition seg_fields (c : Cursor) (s : Seg) : list Z :=
  [gen_col s - c_gen c; 0; src_line s - c_line c; src_col s - c_col c]%Z.

Definition seg_cursor (c : Cursor) (s : Seg) : Cursor :=
  {| c_index := c_index c; c_line := src_line s; c_col := src_col s; c_gen := gen_col s |}.

Fixpoint encode_segs (c : Cursor) (segs : list Seg) : list (list byte) :=
  match segs with
  | [] => []
  | s :: segs => encode_vlq (seg_fields c s) :: encode_segs (seg_cursor c s) segs
  end.

Fixpoint encode_lines (c : Cursor) (lines : DecodedMap) : list (list byte) :=
  match lines with
  | [] => []
  | segs :: lines =>
      join [","%byte] (encode_segs (new_line c) segs) ::
      encode_lines (foldl seg_cursor (new_line c) segs) lines
  end.

Definition encode_map (m : DecodedMap) : list byte :=
  join [";"%byte] (encode_lines cursor_start m).

(** The values of a map are [u32]s. *)

Definition u32_range (z : Z) : Prop := (0 ≤ z ≤ u32_max)%Z.

Definition seg_ok (s : Seg) : Prop :=
  u32_range (gen_col s) ∧ u32_range (src_line s) ∧ u32_range (src_col s).

#[global] Instance seg_ok_dec s : Decision (seg_ok s).
Proof. unfold seg_ok, u32_range. apply _. Defined.

Definition map_ok (m : DecodedMap) : Prop := m ≠ [] ∧ Forall (Forall seg_ok) m.

Definition cursor_ok (c : Cursor) : Prop :=
  c_index c = 0%Z ∧ u32_range (c_line c) ∧ u32_range (c_col c) ∧ u32_range (c_gen c).

Lemma u32_try_from_ok z : u32_range z → u32_try_from z = Some z.
Proof.
  intros [? ?]. unfold u32_try_from. rewrite !(proj2 (Z.leb_le _ _)) by lia. done.
Qed.

Lemma map_segment_encoded c s :
  cursor_ok c → seg_ok s → map_segment c (encode_vlq (seg_fields c s)) = Some (seg_cursor c s, [s]).
Proof.
  intros (Hi & Hl & Hk & Hg) (Hsg & Hsl & Hsk). unfold map_segment.
  rewrite decode_encode_vlq; [|done|].
  - cbn [mbind option_bind seg_fields c_gen c_index c_line c_col]. rewrite Hi.
    replace (c_gen c + (gen_col s - c_gen c))%Z with (gen_col s) by lia.
    replace (c_line c + (src_line s - c_line c))%Z with (src_line s) by lia.
    replace (c_col c + (src_col s - c_col c))%Z with (src_col s) by lia.
    unfold u32_range, u32_max in *.
    rewrite !wrap_i64_id by (unfold i64_range; lia).
    rewrite !(proj2 (Z.ltb_ge _ _)) by lia. cbn [orb].
    rewrite !u32_try_from_ok by done. cbn. unfold seg_cursor. rewrite Hi. by destruct s.
  - unfold u32_range, u32_max, vlq_range in *. repeat constructor; lia.
Qed.

Lemma seg_cursor_ok c s : cursor_ok c → seg_ok s → cursor_ok (seg_cursor c s).
Proof. intros (? & ? & ? & ?) (? & ? & ?). by split_and!. Qed.

Lemma new_line_ok c : cursor_ok c → cursor_ok (new_line c).
Proof. intros (? & ? & ? & ?). by split_and!. Qed.

Lemma segs_cursor_ok c segs :
  cursor_ok c → Forall seg_ok segs → cursor_ok (foldl seg_cursor c segs).
Proof.
  intros Hc Hs. revert c Hc. induction Hs; intros c Hc; cbn; [done|]. eauto using seg_cursor_ok.
Qed.

Lemma map_segments_encoded c segs :
  cursor_ok c → Forall seg_ok segs →
  map_segments c (encode_segs c segs) = Some (foldl seg_cursor c segs, segs).
Proof.
  intros Hc Hs. revert c Hc. induction Hs as [|s segs Hs _ IH]; intros c Hc;
    cbn [encode_segs map_segments foldl]; [done|].
  rewrite map_segment_encoded by done. cbn [mbind option_bind].
  rewrite IH by (by apply seg_cursor_ok). done.
Qed.

(** No encoded segment holds a separator. *)

Lemma encode_vlq_chars fs b :
  Forall vlq_range fs → b ∈ encode_vlq fs → b ≠ ","%byte ∧ b ≠ ";"%byte.
Proof.
  intros Hf Hb. unfold encode_vlq in Hb. apply list_elem_of_bind in Hb as (z & Hb & Hz).
  rewrite Forall_forall in Hf. specialize (Hf z Hz). pose proof (zigzag_range z Hf).
  apply list_elem_of_fmap in Hb as (d & -> & Hd). apply vlq_digits_range in Hd; [|lia].
  by destruct (base64_digit d Hd) as (_ & _ & _ & ?).
Qed.

Lemma seg_fields_range c s : cursor_ok c → seg_ok s → Forall vlq_range (seg_fields c s).
Proof.
  intros (? & ? & ? & ?) (? & ? & ?). unfold u32_range, u32_max, vlq_range in *.
  repeat constructor; lia.
Qed.

Lemma encode_segs_chars c segs p :
  cursor_ok c → Forall seg_ok segs → p ∈ encode_segs c segs →
  p ≠ [] ∧ ∀ b, b ∈ p → b ≠ ","%byte ∧ b ≠ ";"%byte.
Proof.
  intros Hc Hs. revert c Hc. induction Hs as [|s segs Hs _ IH]; intros c Hc; cbn [encode_segs].
  { by intros ?%not_elem_of_nil. }
  intros [->|Hp]%elem_of_cons; [|by apply (IH (seg_cursor c s)); [apply seg_cursor_ok|]].
  split; [|intros b; by apply encode_vlq_chars, seg_fields_range].
  intros E. apply (f_equal decode_vlq) in E.
  by rewrite decode_encode_vlq in E by (done || by apply seg_fields_range).
Qed.

Lemma map_group_encoded c segs :
  cursor_ok c → Forall seg_ok segs →
  map_group c (join [","%byte] (encode_segs (new_line c) segs)) =
  Some (foldl seg_cursor (new_line c) segs, segs).
Proof.
  intros Hc Hs.
  pose proof (new_line_ok c Hc) as Hn.
  unfold map_group. destruct segs as [|s segs].
  { by rewrite decide_True. }
  assert (Forall (λ p, (","%byte ∉ p)) (encode_segs (new_line c) (s :: segs))) as Hsep.
  { apply Forall_forall. intros p Hp Hb.
    destruct (encode_segs_chars _ _ _ Hn Hs Hp) as [_ Hch]. by destruct (Hch _ Hb). }
  rewrite decide_False.
  - rewrite split_join by done. by apply map_segments_encoded.
  - cbn [encode_segs].
    assert (encode_vlq (seg_fields (new_line c) s) ≠ []) as Hne.
    { eapply encode_segs_chars; [exact Hn|exact Hs|left]. }
    destruct (encode_segs (seg_cursor (new_line c) s) segs); [done|].
    rewrite join_cons by done. by destruct (encode_vlq _).
Qed.

Lemma map_groups_encoded c m :
  cursor_ok c → Forall (Forall seg_ok) m → map_groups c (encode_lines c m) = Some m.
Proof.
  intros Hc Hm. revert c Hc. induction Hm as [|segs m Hs _ IH]; intros c Hc;
    cbn [encode_lines map_groups]; [done|].
  rewrite map_group_encoded by done. cbn [mbind option_bind]. rewrite IH; [done|].
  apply segs_cursor_ok; [by apply new_line_ok|done].
Qed.

Lemma encode_lines_chars c m p :
  cursor_ok c → Forall (Forall seg_ok) m → p ∈ encode_lines c m → ";"%byte ∉ p.
Proof.
  intros Hc Hm. revert c Hc. induction Hm as [|segs m Hs _ IH]; intros c Hc; cbn [encode_lines].
  { by intros ?%not_elem_of_nil. }
  pose proof (new_line_ok c Hc) as Hn.
  intros [->|Hp]%elem_of_cons; [|by eapply IH; [apply segs_cursor_ok|]].
  intros [Hsep|(q & Hq & Hb)]%elem_of_join; [by apply list_elem_of_singleton in Hsep|].
  destruct (encode_segs_chars _ _ _ Hn Hs Hq) as [_ Hch]. by destruct (Hch _ Hb).
Qed.

Lemma decode_encode_map m : map_ok m → decode_mappings (encode_map m) = Some m.
Proof.
  intros [Hne Hm]. unfold decode_mappings, encode_map.
  assert (cursor_ok cursor_start) as Hc by (repeat split; cbn; unfold u32_max; lia).
  rewrite split_join.
  - by apply map_groups_encoded.
  - by destruct m.
  - apply Forall_forall. intros p Hp. by eapply encode_lines_chars.
Qed.

(** Decoding is the inverse of encoding on whole maps: any map of at least
    one line, with empty lines anywhere and positions in any order over the
    whole [u32] range, is decoded from its [mappings] string exactly, the
    running source position carried across lines and the generated column
    restarted on each. *)

Lemma mappings_round_trip (m : DecodedMap) :
  m ≠ [] → Forall (Forall seg_ok) m → decode_mappings (encode_map m) = Some m.
Proof. intros Hne Hm. by apply decode_encode_map. Qed.

(** Two lines around an empty one. *)

Definition sample_map : DecodedMap :=
  [[{| gen_col := 0; src_line := 0; src_col := 0 |}; {| gen_col := 9; src_line := 4; src_col := 2 |}];
   [];
   [{| gen_col := 3; src_line := 2; src_col := 4294967295 |}]]%Z.

(** ** The registry *)

(** The reference answer: the last segment at or before the column. *)

Definition glb (segs : list Seg) (column : Z) : option Seg :=
  last (filter (λ s, gen_col s ≤ column)%Z segs).

Definition seg_le (s t : Seg) : Prop := (gen_col s ≤ gen_col t)%Z.

Definition sorted_map (m : DecodedMap) : Prop := Forall (StronglySorted seg_le) m.

Lemma sorted_split segs column :
  StronglySorted seg_le segs →
  ∃ b, segs = filter (λ s, gen_col s ≤ column)%Z segs ++ b ∧
       Forall (λ s, (gen_col s <=? column)%Z = false) b.
Proof.
  induction 1 as [|s segs Hs IH Hall]; [by exists []|].
  rewrite filter_cons. destruct (decide (gen_col s ≤ column)%Z) as [Hle|Hgt].
  - destruct IH as (b & E & Hb). exists b. cbn. by rewrite <-E.
  - exists (s :: segs).
    assert (Forall (λ s, (gen_col s <=? column)%Z = false) segs) as Hnone.
    { eapply Forall_impl; [exact Hall|]. intros t Ht. unfold seg_le in Ht. apply Z.leb_gt. lia. }
    split; [|constructor; [apply Z.leb_gt; lia|done]].
    assert (filter (λ s, gen_col s ≤ column)%Z segs = []) as ->; [|done].
    clear -Hnone. induction Hnone as [|t segs Ht _ IH]; [done|].
    rewrite filter_cons, decide_False by (apply Z.leb_gt in Ht; lia). done.
Qed.

Lemma map_position_glb m line column :
  sorted_map m →
  map_position m line column =
    segs ← m !! Z.to_nat (line - 1);
    s ← glb segs column;
    Some (wrap_u 32 (src_line s + 1), src_col s).
Proof.
  intros Hm. unfold map_position. destruct (m !! _) as [segs|] eqn:El; [|done].
  cbn [mbind option_bind]. unfold sorted_map in Hm. rewrite Forall_lookup in Hm.
  destruct (sorted_split segs column (Hm _ _ El)) as (b & E & Hb).
  unfold glb. set (a := filter _ segs) in *.
  assert (Forall (λ s, (gen_col s <=? column)%Z = true) a) as Ha.
  { apply Forall_forall. intros s Hs. unfold a in Hs. apply list_elem_of_filter in Hs as [? _].
    by apply Z.leb_le. }
  rewrite E at 1. rewrite (partition_point_spec _ _ _ Ha Hb).
  clearbody a. clear Ha. destruct a as [|s a _] using rev_ind; [done|].
  rewrite length_app, Nat.add_1_r, last_snoc. cbn [mbind option_bind].
  assert (segs !! length a = Some s) as ->; [|done].
  rewrite E, <-app_assoc. by apply list_lookup_middle.
Qed.

Inductive MapOp : Type :=
| OpRecord (file json : list byte)
| OpLookup (file : list byte) (line column : Z).

Section RegistrySpec.
Context (json_mappings : list byte → option (list byte)).

Definition map_op (table : Registry) (op : MapOp) : Registry :=
  match op with
  | OpRecord file json => record table file json
  | OpLookup file line column => (lookup_position json_mappings table file line column).1
  end.

(** The map recorded last for a file. *)

Definition last_record (file : list byte) (ops : list MapOp) : option (list byte) :=
  foldl (λ acc op, match op with
                   | OpRecord f json => if decide (f = file) then Some json else acc
                   | OpLookup _ _ _ => acc
                   end) None ops.

(** What the registry holds for a file: its last map, decoded or not. *)

Definition holds (table : Registry) (file : list byte) (j : option (list byte)) : Prop :=
  match j with
  | None => table !! file_key file = None
  | Some j => table !! file_key file = Some (Raw j) ∨
              table !! file_key file = Some (decode_entry json_mappings (Raw j))
  end.

Lemma file_key_inj f g : file_key f = file_key g → f = g.
Proof. unfold file_key. apply (inj (fmap b2z)). Qed.

Lemma decode_entry_idem e :
  decode_entry json_mappings (decode_entry json_mappings e) = decode_entry json_mappings e.
Proof. destruct e as [j| |]; [|done..]. cbn. by destruct (decode json_mappings j). Qed.

Lemma lookup_holds table file j f line column :
  holds table file j → holds (lookup_position json_mappings table f line column).1 file j.
Proof.
  intros Hh. unfold lookup_position. destruct (line =? 0)%Z; [done|].
  destruct (table !! file_key f) as [e|] eqn:Ee; [|done]. cbn [fst].
  destruct (decide (f = file)) as [->|Hne].
  - destruct j as [j|]; unfold holds in *; [|congruence]. right. rewrite lookup_insert_eq.
    destruct Hh as [Hh|Hh]; rewrite Ee in Hh; injection Hh as ->; [done|]. f_equal.
    apply (decode_entry_idem (Raw j)).
  - assert (file_key f ≠ file_key file) by (intros E; by apply file_key_inj in E).
    unfold holds in *. destruct j; by rewrite lookup_insert_ne by done.
Qed.

Lemma record_holds table file j f json :
  holds table file j →
  holds (record table f json) file (if decide (f = file) then Some json else j).
Proof.
  intros Hh. unfold record. destruct (decide (f = file)) as [->|Hne].
  - left. apply lookup_insert_eq.
  - assert (file_key f ≠ file_key file) by (intros E; by apply file_key_inj in E).
    unfold holds in *. destruct j; by rewrite lookup_insert_ne by done.
Qed.

Lemma ops_hold file ops : holds (foldl map_op ∅ ops) file (last_record file ops).
Proof.
  unfold last_record. induction ops as [|op ops IH] using rev_ind; [apply lookup_empty|].
  rewrite !foldl_app. cbn [foldl]. destruct op as [f json|f line column]; cbn [map_op].
  - by apply record_holds.
  - by apply lookup_holds.
Qed.

(** After any records and lookups, of any files and in any order, a lookup
    answers from the map recorded last for its file, decoded once or again:
    the source position of the greatest segment at or before the column on
    that generated line, and nothing when there is no such line or segment,
    no map, or one that does not decode, provided the segments of each line
    are in order (what the binary search needs). *)

Lemma lookup_answers (ops : list MapOp) (file : list byte) (line column : Z) :
  (∀ j m, last_record file ops = Some j → decode json_mappings j = Some m → sorted_map m) →
  (lookup_position json_mappings (foldl map_op ∅ ops) file line column).2 =
    if (line =? 0)%Z then None
    else
      j ← last_record file ops;
      m ← decode json_mappings j;
      segs ← m !! Z.to_nat (line - 1);
      s ← glb segs column;
      Some (wrap_u 32 (src_line s + 1), src_col s).
Proof.
  intros Hsorted. pose proof (ops_hold file ops) as Hh. unfold lookup_position.
  destruct (line =? 0)%Z; [done|]. destruct (last_record file ops) as [j|] eqn:Ej; cbn in Hh.
  2:{ by rewrite Hh. }
  assert (∃ e, foldl map_op ∅ ops !! file_key file = Some e ∧
    decode_entry json_mappings e = decode_entry json_mappings (Raw j)) as (e & -> & He).
  { destruct Hh as [-> | ->]; eexists; split; [done..|done|]. apply (decode_entry_idem (Raw j)). }
  cbn [snd]. rewrite He. cbn [decode_entry mbind option_bind].
  destruct (decode json_mappings j) as [m|] eqn:Em; [|done].
  by apply map_position_glb, (Hsorted j).
Qed.

(** C10. Decoding is the inverse of encoding on whole maps: any map of at least
    one line, with empty lines anywhere and positions in any order over the
    whole [u32] range, is decoded from its [mappings] string exactly, the
    running source position carried across lines and the generated column
    restarted on each.  And after any records and lookups, of any files and in
    any order, a lookup answers from the map recorded last for its file,
    decoded once or again: the source position of the greatest segment at or
    before the column on that generated line, and nothing when there is no
    such line or segment, no map, or one that does not decode, provided the
    segments of each line are in order (what the binary search needs). *)

Theorem source_positions_exact :
  (∀ m, m ≠ [] → Forall (Forall seg_ok) m → decode_mappings (encode_map m) = Some m) ∧
  (∀ (ops : list MapOp) file line column,
     (∀ j m, last_record file ops = Some j → decode json_mappings j = Some m → sorted_map m) →
     (lookup_position json_mappings (foldl map_op ∅ ops) file line column).2 =
       if (line =? 0)%Z then None
       else
         j ← last_record file ops;
         m ← decode json_mappings j;
         segs ← m !! Z.to_nat (line - 1);
         s ← glb segs column;
         Some (wrap_u 32 (src_line s + 1), src_col s)).
Proof. split; [exact mappings_round_trip|exact lookup_answers]. Qed.
End RegistrySpec.

(** A registry whose "JSON" is the mappings string itself. *)

Lemma source_positions_exact_witness :
  decode_mappings (encode_map sample_map) = Some sample_map ∧
  (lookup_position Some
     (foldl (map_op Some) ∅ [OpRecord (bs "a.ts") (encode_map sample_map); OpLookup (bs "a.ts") 2 0;
                             OpRecord (bs "b.ts") (bs "?")]) (bs "a.ts") 1 12).2 = Some (5, 2)%Z.
Proof.
  split.
  - apply (proj1 (source_positions_exact Some)); [discriminate|].
    apply (bool_decide_unpack _). vm_compute. exact I.
  - rewrite (proj2 (source_positions_exact Some)).
    + vm_compute. reflexivity.
    + intros j m Hj Hm. vm_compute in Hj. injection Hj as <-. vm_compute in Hm. injection Hm as <-.
      repeat constructor; vm_compute; discriminate.
Defined.

(** The decoder does not put segments in order, nor refuse those that are not:
    a negative column delta is accepted, and the lookup then misses the
    segment that starts exactly at the column. *)

Example unsorted_segments :
  ∃ m, decode_mappings (bs "KAAA,FAAC,KAAC") = Some m ∧
       gen_col <$> default [] (m !! 0) = [5; 3; 8]%Z.
Proof. eexists. split; vm_compute; reflexivity. Qed.

(** A segment on source line [2^32 - 1] is reported as line 0. *)

Example last_line_wraps :
  map_position [[{| gen_col := 0; src_line := u32_max; src_col := 7 |}]] 1 0 = Some (0, 7)%Z.
Proof. vm_compute. reflexivity. Qed.
