(* ===== verification/Names.v ===== *)
(** * Names: [oam_core/src/tls/names.rs]

    A certificate's names as Node prints and matches them: the DER reader, the
    printers of [subjectaltname] and [infoAccess], libuv's address reader and
    printer, and the identity a host is checked against.  The certificate
    itself is parsed by the x509_parser crate: what the code reads of it is
    the record [X509Certificate], and the parser a parameter.  A Rust [String]
    is its UTF-8 bytes. *)

From S2P Require Import Prelude RustStd StdNet.

(** ** DER *)

Record Der : Type := { tag : byte; content : list byte; raw : list byte }.

#[global] Instance Der_eq_dec : EqDecision Der.
Proof. solve_decision. Defined.

Definition read_len (l : list byte) : option (nat * list byte) :=
  match l with
  | [] => None
  | first :: rest =>
      if (Z.land (b2z first) 128 =? 0)%Z then Some (Z.to_nat (b2z first), rest)
      else
        let count := Z.to_nat (Z.land (b2z first) 127) in
        if bool_decide (count = 0) || bool_decide (4 < count) || bool_decide (length rest < count)
        then None
        else
          let len := fold_left (λ acc b, Z.lor (Z.shiftl acc 8) (b2z b)) (take count rest) 0%Z in
          Some (Z.to_nat len, drop count rest)
  end.

Definition read_der (input : list byte) : option (Der * list byte) :=
  match input with
  | [] => None
  | t :: rest =>
      if (Z.land (b2z t) 31 =? 31)%Z then None
      else
        '(len, rest) ← read_len rest;
        if decide (length rest < len) then None
        else
          let header := length input - length rest in
          Some ({| tag := t; content := take len rest; raw := take (header + len) input |},
                drop len rest)
  end.

(** [der_items]: each element takes at least two bytes, so [fuel] is the
    length of the input. *)

Fixpoint der_items_loop (fuel : nat) (l : list byte) : option (list Der) :=
  match l with
  | [] => Some []
  | _ =>
      match fuel with
      | O => None
      | S fuel =>
          '(item, rest) ← read_der l;
          items ← der_items_loop fuel rest;
          Some (item :: items)
      end
  end.

Definition der_items (l : list byte) : option (list Der) := der_items_loop (length l) l.

(** ** Object identifiers *)

Record OidState : Type := { arcs : list Z; acc : Z; first_arc : bool }.

Definition oid_byte (st : OidState) (b : byte) : OidState :=
  let a := Z.lor (wrap_u 128 (Z.shiftl (acc st) 7)) (Z.land (b2z b) 127) in
  if negb (Z.land (b2z b) 128 =? 0)%Z then
    {| arcs := arcs st; acc := a; first_arc := first_arc st |}
  else if first_arc st then
    {| arcs := arcs st ++ (if (a <? 80)%Z then [a `div` 40; a `mod` 40]%Z else [2; a - 80]%Z);
       acc := 0; first_arc := false |}
  else {| arcs := arcs st ++ [a]; acc := 0; first_arc := false |}.

Definition oid_text (content : list byte) : list byte :=
  join (bs ".")
    (dec_text <$> arcs (fold_left oid_byte content {| arcs := []; acc := 0; first_arc := true |})).

Definition short_names : list (string * string) :=
  [("2.5.4.3", "CN"); ("2.5.4.4", "SN"); ("2.5.4.5", "serialNumber"); ("2.5.4.6", "C");
   ("2.5.4.7", "L"); ("2.5.4.8", "ST"); ("2.5.4.9", "street"); ("2.5.4.10", "O");
   ("2.5.4.11", "OU"); ("2.5.4.12", "title"); ("2.5.4.13", "description");
   ("2.5.4.15", "businessCategory"); ("2.5.4.17", "postalCode"); ("2.5.4.41", "name");
   ("2.5.4.42", "GN"); ("2.5.4.43", "initials"); ("2.5.4.44", "generationQualifier");
   ("2.5.4.46", "dnQualifier"); ("2.5.4.65", "pseudonym"); ("2.5.4.97", "organizationIdentifier");
   ("0.9.2342.19200300.100.1.1", "UID"); ("0.9.2342.19200300.100.1.25", "DC");
   ("1.2.840.113549.1.9.1", "emailAddress"); ("1.3.6.1.4.1.311.60.2.1.1", "jurisdictionL");
   ("1.3.6.1.4.1.311.60.2.1.2", "jurisdictionST"); ("1.3.6.1.4.1.311.60.2.1.3", "jurisdictionC")]%string.

Definition attr_short_name (oid : list byte) : option (list byte) :=
  '(_, n) ← list_find (λ p, bs p.1 = oid) short_names; Some (bs n.2).

(** ** Strings *)

Definition char_width (t : byte) : option nat :=
  match t with
  | x0c => Some 0
  | x12 | x13 | x14 | x16 | x17 | x18 | x1a => Some 1
  | x1c => Some 4
  | x1e => Some 2
  | _ => None
  end.

(** [content.chunks(width)]. *)

Fixpoint chunks_loop (fuel width : nat) (l : list byte) : list (list byte) :=
  match fuel, l with
  | S fuel, _ :: _ => take width l :: chunks_loop fuel width (drop width l)
  | _, _ => []
  end.

Definition chunks (width : nat) (l : list byte) : list (list byte) := chunks_loop (length l) width l.

Definition wide_chars (content : list byte) (width : nat) : option (list Z) :=
  if decide (length content `mod` width = 0) then Some (from_be_bytes <$> chunks width content)
  else None.

(** [char::from_u32] and [char::encode_utf8]. *)

Definition is_char (c : Z) : bool :=
  ((0 <=? c) && (c <? 55296) || (57344 <=? c) && (c <=? 1114111))%Z.

Definition encode_utf8 (c : Z) : list byte :=
  if (c <? 128)%Z then [z2b c]
  else if (c <? 2048)%Z then [z2b (192 + c `div` 64); z2b (128 + c `mod` 64)]
  else if (c <? 65536)%Z then
    [z2b (224 + c `div` 4096); z2b (128 + (c `div` 64) `mod` 64); z2b (128 + c `mod` 64)]
  else
    [z2b (240 + c `div` 262144); z2b (128 + (c `div` 4096) `mod` 64);
     z2b (128 + (c `div` 64) `mod` 64); z2b (128 + c `mod` 64)].

(** A byte per character: [bytes.iter().map(|&b| char::from(b)).collect()]. *)

Definition latin1_string (l : list byte) : list byte := l ≫= λ b, encode_utf8 (b2z b).

Definition asn1_string_to_utf8 (t : byte) (content : list byte) : option (list byte) :=
  width ← char_width t;
  match width with
  | 0 => from_utf8 content
  | 1 => Some (latin1_string content)
  | width =>
      cs ← wide_chars content width;
      if forallb is_char cs then Some (cs ≫= encode_utf8) else None
  end.

Definition is_safe_byte (utf8 : bool) (c : byte) : bool :=
  if bool_decide (c ∈ [x22; x5c; x2c; x27]) then false
  else if utf8 then (32 <=? b2z c)%Z && negb (b2z c =? 127)%Z
  else (32 <=? b2z c)%Z && (b2z c <=? 126)%Z.

Definition is_safe_alt_name (name : list byte) (utf8 : bool) : bool :=
  forallb (is_safe_byte utf8) name.

Definition escape_byte (utf8 : bool) (c : byte) : list byte :=
  if decide (c = x5c) then [x5c; x5c]
  else if decide (c = x22) then [x5c; x22]
  else if ((32 <=? b2z c)%Z && negb (bool_decide (c = x2c)) && (b2z c <=? 126)%Z)
          || (utf8 && negb (Z.land (b2z c) 128 =? 0)%Z) then [c]
  else [x5c; "u"%byte] ++ pad_left 4 "0"%byte (hex_text (b2z c)).

(** [print_alt_name], the bytes it appends. *)

Definition print_alt_name (name : list byte) (utf8 : bool) (prefix : option (list byte)) : list byte :=
  let pre := from_option (λ p, p ++ bs ":") [] prefix in
  if is_safe_alt_name name utf8 then pre ++ name
  else [x22] ++ pre ++ (name ≫= escape_byte utf8) ++ [x22].

(** ** Directory names *)

Definition escape_2253 (c : byte) (first last : bool) : list byte :=
  let escaped := bool_decide (c ∈ [x2c; x2b; x22; x5c; x3c; x3e; x3b])
                 || (first && bool_decide (c ∈ [x23; x20]))
                 || (last && bool_decide (c = x20)) in
  if escaped then [x5c; c] else [c].

Definition print_char (width : nat) (c : Z) (first last : bool) : list byte :=
  if bool_decide (width = 0) || (c <? 128)%Z then
    let b := z2b c in
    if (b2z b <? 128)%Z then escape_2253 b first last else [b]
  else if is_char c then encode_utf8 c
  else REPLACEMENT.

Definition print_chars (width : nat) (cs : list Z) : list byte :=
  concat (imap (λ i c,
    let last := bool_decide (i + 1 = length cs) in
    let first := bool_decide (i = 0) && negb last in
    print_char width c first last) cs).

Definition print_name_value (value : Der) (known_field : bool) : list byte :=
  match (if known_field then char_width (tag value) else None) with
  | None => bs "#" ++ (raw value ≫= λ b, pad_left 2 "0"%byte (HEX_text (b2z b)))
  | Some width =>
      let narrow := b2z <$> content value in
      let cs := match width with
                | 0 | 1 => narrow
                | width => default narrow (wide_chars (content value) width)
                end in
      print_chars width cs
  end.

Definition name_attribute (attribute : Der) : option (Der * Der) :=
  if negb (bool_decide (tag attribute = x30)) then None
  else
    parts ← der_items (content attribute);
    match parts with
    | [oid; value] => if decide (tag oid = x06) then Some (oid, value) else None
    | _ => None
    end.

Definition name_rdn (set : nat) (rdn : Der) : option (list (nat * Der * Der)) :=
  if negb (bool_decide (tag rdn = x31)) then None
  else
    attributes ← der_items (content rdn);
    entries ← mapM name_attribute attributes;
    Some ((λ p, (set, p.1, p.2)) <$> entries).

Definition name_entries (name : Der) : option (list (nat * Der * Der)) :=
  if negb (bool_decide (tag name = x30)) then None
  else
    rdns ← der_items (content name);
    entries ← mapM (λ p, name_rdn p.1 p.2) (imap pair rdns);
    Some (concat entries).

Fixpoint print_entries (previous : option nat) (entries : list (nat * Der * Der)) : list byte :=
  match entries with
  | [] => []
  | (set, oid, value) :: entries =>
      let dotted := oid_text (content oid) in
      let short := attr_short_name dotted in
      match previous with
      | Some p => if decide (p = set) then bs "+" else bs ","
      | None => []
      end ++ default dotted short ++ bs "=" ++
      print_name_value value (bool_decide (is_Some short)) ++
      print_entries (Some set) entries
  end.

Definition print_directory_name (name : Der) : option (list byte) :=
  entries ← name_entries name; Some (print_entries None (reverse entries)).

(** ** General names *)

Inductive GeneralName : Type :=
| Other (type_id : list byte) (value : Der)
| Email (bytes : list byte)
| Dns (bytes : list byte)
| X400
| Directory (name : Der)
| EdiParty
| Uri (bytes : list byte)
| Ip (bytes : list byte)
| Registered (oid : list byte).

Definition general_name (item : Der) : option GeneralName :=
  match tag item with
  | xa0 =>
      parts ← der_items (content item);
      match parts with
      | [type_id; explicit] =>
          if negb (bool_decide (tag type_id = x06)) || negb (bool_decide (tag explicit = xa0))
          then None
          else
            '(value, rest) ← read_der (content explicit);
            if decide (rest = []) then Some (Other (content type_id) value) else None
      | _ => None
      end
  | x81 => Some (Email (content item))
  | x82 => Some (Dns (content item))
  | xa3 => Some X400
  | xa4 =>
      '(name, rest) ← read_der (content item);
      if negb (bool_decide (rest = [])) then None
      else _ ← print_directory_name name; Some (Directory name)
  | xa5 => Some EdiParty
  | x86 => Some (Uri (content item))
  | x87 => Some (Ip (content item))
  | x88 => Some (Registered (content item))
  | _ => None
  end.

Definition general_names (der : list byte) : option (list GeneralName) :=
  '(seq, _) ← read_der der;
  if negb (bool_decide (tag seq = x30)) then None
  else items ← der_items (content seq); mapM general_name items.

Definition other_prefixes : list (string * (string * bool)) :=
  [("1.3.6.1.5.5.7.8.9", ("SmtpUTF8Mailbox", true)); ("1.3.6.1.5.5.7.8.5", ("XmppAddr", true));
   ("1.3.6.1.5.5.7.8.7", ("SRVName", false)); ("1.3.6.1.4.1.311.20.2.3", ("UPN", true));
   ("1.3.6.1.5.5.7.8.8", ("NAIRealm", true))]%string.

Definition other_name_prefix (type_id : list byte) : option (list byte * bool) :=
  '(_, (_, (p, u))) ← list_find (λ e, bs e.1 = oid_text type_id) other_prefixes; Some (bs p, u).

Definition dotted_quad (a b c d : byte) : list byte :=
  join (bs ".") (dec_text <$> [b2z a; b2z b; b2z c; b2z d]).

Definition ip_entry_text (bytes : list byte) : list byte :=
  match bytes with
  | [a; b; c; d] => dotted_quad a b c d
  | _ =>
      if decide (length bytes = 16) then
        join (bs ":") ((λ pair, HEX_text (from_be_bytes pair)) <$> chunks 2 bytes)
      else bs "<invalid length=" ++ dec_text (Z.of_nat (length bytes)) ++ bs ">"
  end.

Definition general_name_bytes (name : GeneralName) : list byte :=
  match name with
  | Dns bytes => bs "DNS:" ++ print_alt_name bytes false None
  | Email bytes => bs "email:" ++ print_alt_name bytes false None
  | Uri bytes => bs "URI:" ++ print_alt_name bytes false None
  | Directory der =>
      bs "DirName:" ++
      match print_directory_name der with
      | Some text => print_alt_name text true None
      | None => bs "<unsupported>"
      end
  | Ip bytes => bs "IP Address:" ++ ip_entry_text bytes
  | Registered oid => bs "Registered ID:" ++ oid_text oid
  | Other type_id value =>
      match other_name_prefix type_id with
      | Some (prefix, unicode) =>
          if decide (tag value = if (unicode : bool) then x0c else x16)
          then bs "othername:" ++ print_alt_name (content value) unicode (Some prefix)
          else bs "othername:<unsupported>"
      | None => bs "othername:<unsupported>"
      end
  | X400 => bs "X400Name:<unsupported>"
  | EdiParty => bs "EdiPartyName:<unsupported>"
  end.

Definition general_name_text (name : GeneralName) : list byte :=
  from_utf8_lossy (general_name_bytes name).

Definition alt_names_text (ext_value : list byte) : option (list byte) :=
  names ← general_names ext_value; Some (join (bs ", ") (general_name_text <$> names)).

Definition info_access_line (description : Der) : option (list byte) :=
  parts ← der_items (content description);
  match parts with
  | [method; location] =>
      if negb (bool_decide (tag description = x30)) || negb (bool_decide (tag method = x06)) then None
      else
        let oid := oid_text (content method) in
        let name := if decide (oid = bs "1.3.6.1.5.5.7.48.1") then bs "OCSP"
                    else if decide (oid = bs "1.3.6.1.5.5.7.48.2") then bs "CA Issuers"
                    else oid in
        location ← general_name location;
        Some (name ++ bs " - " ++ general_name_text location)
  | _ => None
  end.

Definition info_access_text (ext_value : list byte) : option (list byte) :=
  '(seq, _) ← read_der ext_value;
  if negb (bool_decide (tag seq = x30)) then None
  else
    descriptions ← der_items (content seq);
    lines ← mapM info_access_line descriptions;
    Some (join [x0a] lines).
