(* ===== verification/Inet.v ===== *)
(** * Inet: the addresses of [oam_core/src/tls/names.rs]

    libuv's [inet_pton] and [inet_ntop] as the file writes them out, and
    Node's [canonicalizeIP] over them.  Arrays of bytes are lists of the
    array's length; the loops carry the locals of the code. *)

From S2P Require Import Prelude RustStd StdNet Names.

(** ** IPv4 *)

Record Pton4 : Type := { p4_out : list byte; octets : nat; saw_digit : bool; current : Z }.

Definition pton4_byte (st : Pton4) (ch : byte) : option Pton4 :=
  if is_ascii_digit ch then
    let next := (current st * 10 + (b2z ch - 48))%Z in
    if saw_digit st && (current st =? 0)%Z then None
    else if (255 <? next)%Z then None
    else
      let octets := if saw_digit st then octets st else S (octets st) in
      if negb (saw_digit st) && bool_decide (4 < octets) then None
      else Some {| p4_out := <[octets - 1 := z2b next]> (p4_out st); octets := octets;
                   saw_digit := true; current := next |}
  else if bool_decide (ch = "."%byte) && saw_digit st then
    if decide (octets st = 4) then None
    else Some {| p4_out := p4_out st; octets := octets st; saw_digit := false; current := 0 |}
  else None.

Fixpoint pton4_loop (st : Pton4) (l : list byte) : option Pton4 :=
  match l with
  | [] => Some st
  | ch :: l => st ← pton4_byte st ch; pton4_loop st l
  end.

Definition pton4_start : Pton4 :=
  {| p4_out := replicate 4 x00; octets := 0; saw_digit := false; current := 0 |}.

Definition inet_pton4 (text : list byte) : option (list byte) :=
  st ← pton4_loop pton4_start text;
  if decide (octets st = 4) then Some (p4_out st) else None.

(** ** IPv6 *)

Record Pton6 : Type := {
  p6_out : list byte; tp : nat; colon : option nat; token_start : nat; seen_digits : nat; group : Z
}.

(** [out[tp] = (value >> 8) as u8; out[tp + 1] = value as u8; tp += 2]. *)

Definition put_group (st : Pton6) (token_start : nat) : Pton6 :=
  {| p6_out := <[S (tp st) := z2b (group st)]> (<[tp st := z2b (Z.shiftr (group st) 8)]> (p6_out st));
     tp := tp st + 2; colon := colon st; token_start := token_start; seen_digits := 0; group := 0 |}.

(** The loop at index [i] of [src], [rest] being what follows it. *)

Fixpoint pton6_loop (src : list byte) (st : Pton6) (i : nat) (rest : list byte) : option Pton6 :=
  match rest with
  | [] => Some st
  | ch :: rest =>
      let i := S i in
      match to_digit 16 ch with
      | Some digit =>
          if decide (4 < S (seen_digits st)) then None
          else pton6_loop src
                 {| p6_out := p6_out st; tp := tp st; colon := colon st;
                    token_start := token_start st; seen_digits := S (seen_digits st);
                    group := Z.lor (Z.shiftl (group st) 4) digit |} i rest
      | None =>
          if decide (ch = ":"%byte) then
            if decide (seen_digits st = 0) then
              match colon st with
              | Some _ => None
              | None =>
                  pton6_loop src
                    {| p6_out := p6_out st; tp := tp st; colon := Some (tp st); token_start := i;
                       seen_digits := 0; group := group st |} i rest
              end
            else if decide (i = length src) then None
            else if decide (16 < tp st + 2) then None
            else pton6_loop src (put_group st i) i rest
          else if bool_decide (ch = "."%byte) && bool_decide (tp st + 4 ≤ 16) then
            v4 ← inet_pton4 (drop (token_start st) src);
            Some {| p6_out := take (tp st) (p6_out st) ++ v4 ++ drop (tp st + 4) (p6_out st);
                    tp := tp st + 4; colon := colon st; token_start := token_start st;
                    seen_digits := 0; group := group st |}
          else None
      end
  end.

(** [for k in 1..=moved]: the groups after the [::] move to the end. *)

Definition shift_groups (out : list byte) (colon moved : nat) : list byte :=
  fold_left (λ out k,
    match out !! (colon + moved - k) with
    | Some b => <[colon + moved - k := x00]> (<[16 - k := b]> out)
    | None => out
    end) (seq 1 moved) out.

Definition pton6_start : Pton6 :=
  {| p6_out := replicate 16 x00; tp := 0; colon := None; token_start := 0; seen_digits := 0;
     group := 0 |}.

Definition inet_pton6 (text : list byte) : option (list byte) :=
  text ← match find_byte "%"%byte text with
         | Some at_ => if decide (45 < at_) then None else Some (take at_ text)
         | None => Some text
         end;
  src ← match text with
        | ":"%byte :: (":"%byte :: _) as src => Some src
        | ":"%byte :: _ => None
        | _ => Some text
        end;
  st ← pton6_loop src pton6_start 0 src;
  st ← (if decide (0 < seen_digits st) then
          if decide (16 < tp st + 2) then None else Some (put_group st (token_start st))
        else Some st);
  match colon st with
  | Some colon =>
      if decide (tp st = 16) then None
      else Some (shift_groups (p6_out st) colon (tp st - colon))
  | None => if decide (tp st = 16) then Some (p6_out st) else None
  end.

(** ** Printing *)

Record Runs : Type := { best_base : option nat; best_len : nat; cur_base : option nat; cur_len : nat }.

(** A run that ended at the current word. *)

Definition close_run (r : Runs) : Runs :=
  match cur_base r with
  | Some base =>
      if bool_decide (best_base r = None) || bool_decide (best_len r < cur_len r)
      then {| best_base := Some base; best_len := cur_len r; cur_base := None; cur_len := cur_len r |}
      else {| best_base := best_base r; best_len := best_len r; cur_base := None; cur_len := cur_len r |}
  | None => r
  end.

Definition run_word (r : Runs) (iw : nat * Z) : Runs :=
  if (iw.2 =? 0)%Z then
    {| best_base := best_base r; best_len := best_len r;
       cur_base := match cur_base r with None => Some iw.1 | b => b end;
       cur_len := match cur_base r with None => 1 | Some _ => S (cur_len r) end |}
  else close_run r.

Definition zero_run (words : list Z) : option (nat * nat) :=
  let r := close_run (fold_left run_word (imap pair words)
    {| best_base := None; best_len := 0; cur_base := None; cur_len := 0 |}) in
  if decide (best_len r < 2) then None
  else base ← best_base r; Some (base, best_len r).

(** The printing loop from word [i] on. *)

Fixpoint print_words (fuel i : nat) (run : option (nat * nat)) (words : list Z) (bytes : list byte)
  : list byte :=
  match fuel with
  | O =>
      match run with
      | Some (base, len) => if decide (base + len = 8) then bs ":" else []
      | None => []
      end
  | S fuel =>
      let inside := match run with
                    | Some (base, len) => bool_decide (base ≤ i ∧ i < base + len)
                    | None => false
                    end in
      if inside then
        (if decide (fst <$> run = Some i) then bs ":" else []) ++
        print_words fuel (S i) run words bytes
      else
        (if decide (i = 0) then [] else bs ":") ++
        if bool_decide (i = 6) &&
           match run with
           | Some (0, len) =>
               bool_decide (len = 6) || (bool_decide (len = 7) && negb (nth 7 words 0 =? 1)%Z)
               || (bool_decide (len = 5) && (nth 5 words 0 =? 65535)%Z)
           | _ => false
           end
        then dotted_quad (nth 12 bytes x00) (nth 13 bytes x00) (nth 14 bytes x00) (nth 15 bytes x00)
        else hex_text (nth i words 0%Z) ++ print_words fuel (S i) run words bytes
  end.

Definition inet_ntop6 (bytes : list byte) : list byte :=
  let words := from_be_bytes <$> chunks 2 bytes in
  print_words 8 0 (zero_run words) words bytes.

Definition ip_text (bytes : list byte) : option (list byte) :=
  match bytes with
  | [a; b; c; d] => Some (dotted_quad a b c d)
  | _ => if decide (length bytes = 16) then Some (inet_ntop6 bytes) else None
  end.

Definition canonicalize_ip (text : list byte) : option (list byte) :=
  match inet_pton4 text with
  | Some v4 => ip_text v4
  | None => v6 ← inet_pton6 text; Some (inet_ntop6 v6)
  end.

Example canonical_1 : canonicalize_ip (bs "2001:DB8:0::1") = Some (bs "2001:db8::1").
Proof. vm_compute. reflexivity. Qed.
Example canonical_2 : canonicalize_ip (bs "::ffff:1.2.3.4%eth0") = Some (bs "::ffff:1.2.3.4").
Proof. vm_compute. reflexivity. Qed.
Example canonical_3 : canonicalize_ip (bs "1:0:0:2:0:0:0:3") = Some (bs "1:0:0:2::3").
Proof. vm_compute. reflexivity. Qed.
Example canonical_4 : canonicalize_ip (bs "01.2.3.4") = None.
Proof. vm_compute. reflexivity. Qed.
Example canonical_5 : canonicalize_ip (bs "::") = Some (bs "::").
Proof. vm_compute. reflexivity. Qed.
