(* ===== verification/Identity.v ===== *)
(** * Identity: who a server certificate is for

    [HostIdentity] of [oam_core/src/tls/names.rs] and the port of Node's
    [tls.checkServerIdentity] in [oam_core/src/tls.rs].  The parsed
    certificate is x509_parser's; the record below holds what the code reads
    of it. *)

From S2P Require Import Prelude RustStd StdNet Names Inet.

(** An attribute of the subject: its type as dotted text, the tag number and
    the bytes of its value. *)

Record Attribute : Type := { attr_type : list byte; attr_tag : Z; attr_data : list byte }.

Record X509Certificate : Type := {
  extensions : list (list byte * list byte);
  subject : list (list Attribute)
}.

Record HostIdentity : Type := {
  alt_names : option (list byte);
  dns_names : list (list byte);
  ips : list (list byte);
  cn : option (list (list byte))
}.

Definition HostIdentity_default : HostIdentity :=
  {| alt_names := None; dns_names := []; ips := []; cn := None |}.

Definition extension_value (cert : X509Certificate) (oid : list byte) : option (list byte) :=
  '(_, e) ← list_find (λ e, e.1 = oid) (extensions cert); Some e.2.

Definition dns_name (name : GeneralName) : option (list byte) :=
  match name with
  | Dns bytes => Some (latin1_string bytes)
  | _ => None
  end.

Definition ip_name (name : GeneralName) : option (list byte) :=
  match name with
  | Ip bytes => Some (default [] (ip_text bytes))
  | _ => None
  end.

(** The subject's attributes in order: each must convert, and the CNs are
    kept. *)

Definition attribute_text (a : Attribute) : option (list byte) :=
  asn1_string_to_utf8 (z2b (attr_tag a)) (attr_data a).

Definition subject_cn (attributes : list Attribute) : option (list (list byte)) :=
  let convertible := forallb (λ a, bool_decide (is_Some (attribute_text a))) attributes in
  let cn := omap (λ a, if decide (attr_type a = bs "2.5.4.3") then attribute_text a else None)
                 attributes in
  if convertible && bool_decide (cn ≠ []) then Some cn else None.

Definition from_certificate (cert : X509Certificate) : HostIdentity :=
  let names := ext ← extension_value cert (bs "2.5.29.17"); general_names ext in
  {| alt_names := names ← names; Some (join (bs ", ") (general_name_text <$> names));
     dns_names := omap dns_name (default [] names);
     ips := omap ip_name (default [] names);
     cn := subject_cn (concat (subject cert)) |}.

Definition from_der (parse : list byte → option X509Certificate) (der : list byte) : HostIdentity :=
  match parse der with
  | Some cert => from_certificate cert
  | None => HostIdentity_default
  end.

(** ** [tls.checkServerIdentity] *)

Definition unfqdn (host : list byte) : list byte :=
  default host (strip_suf (bs ".") host).

Definition split_host (host : list byte) : list (list byte) :=
  split_on "."%byte (lowercase (unfqdn host)).

(** [s.contains(p)] for a string pattern. *)

Fixpoint contains_str (l p : list byte) : bool :=
  starts_with l p ||
  match l with
  | [] => false
  | _ :: l => contains_str l p
  end.

(** A label with a character outside [U+0021..=U+007F]: in UTF-8, with a byte
    outside that range. *)

Definition is_bad (s : list byte) : bool :=
  existsb (λ b, negb ((33 <=? b2z b)%Z && (b2z b <=? 127)%Z)) s.

Definition host_matches (host_parts : list (list byte)) (pattern : list byte) (wildcards : bool) : bool :=
  if decide (pattern = []) then false
  else
    let pattern_parts := split_host pattern in
    if negb (bool_decide (length host_parts = length pattern_parts)) then false
    else if existsb (λ p, bool_decide (p = [])) pattern_parts then false
    else if existsb is_bad pattern_parts then false
    else if negb (bool_decide (drop 1 host_parts = drop 1 pattern_parts)) then false
    else
      match host_parts, pattern_parts with
      | host_subdomain :: _, pattern_subdomain :: _ =>
          match split_on "*"%byte pattern_subdomain with
          | [_] => bool_decide (host_subdomain = pattern_subdomain)
          | parts =>
              if contains_str pattern_subdomain (bs "xn--")
              then bool_decide (host_subdomain = pattern_subdomain)
              else if negb wildcards then false
              else
                match parts with
                | [prefix; suffix] =>
                    if decide (length pattern_parts ≤ 2) then false
                    else if decide (length host_subdomain < length prefix + length suffix) then false
                    else starts_with host_subdomain prefix && ends_with host_subdomain suffix
                | _ => false
                end
          end
      | _, _ => false
      end.

Definition check_identity (hostname : list byte) (identity : HostIdentity) : option (list byte) :=
  let hostname := unfqdn hostname in
  let cns := default [] (cn identity) in
  let has_cn := bool_decide (1 < length cns) ||
                match cns with
                | c :: _ => bool_decide (c ≠ [])
                | [] => false
                end in
  let '(valid, reason) :=
    match canonicalize_ip hostname with
    | Some wanted =>
        (bool_decide (wanted ∈ ips identity),
         bs "IP: " ++ hostname ++ bs " is not in the cert's list: " ++ join (bs ", ") (ips identity))
    | None =>
        if bool_decide (dns_names identity ≠ []) || has_cn then
          let host_parts := split_host hostname in
          if decide (dns_names identity ≠ []) then
            (existsb (λ pattern, host_matches host_parts pattern true) (dns_names identity),
             bs "Host: " ++ hostname ++ bs ". is not in the cert's altnames: " ++
             default [] (alt_names identity))
          else
            (existsb (λ pattern, host_matches host_parts pattern true) cns,
             bs "Host: " ++ hostname ++ bs ". is not cert's CN: " ++ join (bs ",") cns)
        else (false, bs "Cert does not contain a DNS name")
    end in
  if (valid : bool) then None else Some reason.

Inductive ServerName : Type :=
| DnsName (name : list byte)
| IpAddress (octets : list byte)
| OtherServerName.

Definition server_hostname (server_name : ServerName) : list byte :=
  match server_name with
  | DnsName dns => dns
  | IpAddress octets => default [] (ip_text octets)
  | OtherServerName => []
  end.

Definition check_server_identity (parse : list byte → option X509Certificate)
  (server_name : ServerName) (der : list byte) : result (string * list byte) unit :=
  match check_identity (server_hostname server_name) (from_der parse der) with
  | None => Ok tt
  | Some reason =>
      Err ("ERR_TLS_CERT_ALTNAME_INVALID"%string,
           bs "Hostname/IP does not match certificate's altnames: " ++ reason)
  end.

Example wildcard_1 : host_matches (split_host (bs "A.example.com.")) (bs "*.Example.com") true = true.
Proof. vm_compute. reflexivity. Qed.
Example wildcard_2 : host_matches (split_host (bs "a.b.example.com")) (bs "*.example.com") true = false.
Proof. vm_compute. reflexivity. Qed.
