(* ===== verification/IdentitySpec.v ===== *)
(** * IdentitySpec: what the certificate names guarantee

    - the DER reader inverts the encoder and accounts for every byte;
    - the printed [subjectaltname] splits back into its entries, and the DNS
      names Node's JavaScript reads off it are those read off the DER;
    - a host matches a name exactly under the rules of RFC 6125 as Node applies
      them, and a certificate is accepted exactly when one of the names it is
      allowed to speak for matches. *)

From S2P Require Import Prelude RustStd StdNet Names Inet Identity.

(** ** DER *)

(** The encoder: a definite length, in the fewest bytes. *)

Definition der_length (n : Z) : list byte :=
  if (n <? 128)%Z then [z2b n]
  else if (n <? 256)%Z then x81 :: to_be_bytes 1 n
  else if (n <? 65536)%Z then x82 :: to_be_bytes 2 n
  else if (n <? 16777216)%Z then x83 :: to_be_bytes 3 n
  else x84 :: to_be_bytes 4 n.

Definition tlv (t : byte) (c : list byte) : list byte :=
  t :: der_length (Z.of_nat (length c)) ++ c.

Definition low_tag (t : byte) : bool := negb (Z.land (b2z t) 31 =? 31)%Z.

Lemma testbit_above z k n : (0 ≤ z < 2 ^ k)%Z → (0 ≤ k ≤ n)%Z → Z.testbit z n = false.
Proof.
  intros Hz Hk. destruct (Z.eq_dec z 0%Z) as [->|]; [apply Z.bits_0|].
  apply Z.bits_above_log2; [lia|]. apply Z.log2_lt_pow2; [lia|].
  eapply Z.lt_le_trans; [apply Hz|]. apply Z.pow_le_mono_r; lia.
Qed.

Lemma fold_be l a :
  (0 ≤ a)%Z →
  fold_left (λ acc b, Z.lor (Z.shiftl acc 8) (b2z b)) l a =
  (a * 256 ^ Z.of_nat (length l) + from_be_bytes l)%Z.
Proof.
  revert a. induction l as [|b l IH]; intros a Ha; cbn [fold_left length].
  { change (from_be_bytes []) with 0%Z. cbn. lia. }
  pose proof (b2z_range b) as Hb.
  assert (Z.lor (Z.shiftl a 8) (b2z b) = a * 256 + b2z b)%Z as Hor.
  { pose proof (Z.add_lor_land (Z.shiftl a 8) (b2z b)) as Hadd.
    assert (Z.land (Z.shiftl a 8) (b2z b) = 0)%Z as Hz;
      [|rewrite Hz, Z.shiftl_mul_pow2 in Hadd by lia; rewrite Z.shiftl_mul_pow2 by lia; lia].
    apply Z.bits_inj'. intros n Hn. rewrite Z.land_spec, Z.bits_0.
    destruct (Z.ltb_spec n 8).
    - by rewrite Z.shiftl_spec_low.
    - by rewrite (testbit_above (b2z b) 8 n), andb_false_r by lia. }
  rewrite Hor, IH by lia. unfold from_be_bytes at 2. rewrite reverse_cons.
  assert (∀ u v, from_le_bytes (u ++ v) =
    (from_le_bytes u + 256 ^ Z.of_nat (length u) * from_le_bytes v)%Z) as Happ.
  { clear. intros u v. induction u as [|x u IH]; cbn [app from_le_bytes length].
    - cbn. lia.
    - rewrite IH, Nat2Z.inj_succ, Z.pow_succ_r by lia. lia. }
  rewrite Happ, length_reverse, Nat2Z.inj_succ, Z.pow_succ_r by lia.
  cbn [from_le_bytes]. unfold from_be_bytes. lia.
Qed.

Lemma read_der_length n rest :
  (0 ≤ n < 2 ^ 32)%Z → read_len (der_length n ++ rest) = Some (Z.to_nat n, rest).
Proof.
  intros Hn.
  assert (∀ k (t : byte), (Z.land (b2z t) 128 =? 0)%Z = false → Z.to_nat (Z.land (b2z t) 127) = k →
    1 ≤ k ≤ 4 → (n < 256 ^ Z.of_nat k)%Z →
    read_len ((t :: to_be_bytes k n) ++ rest) = Some (Z.to_nat n, rest)) as Hlong.
  { intros k t Ht Hk Hk4 Hlt. cbn [app read_len]. rewrite Ht, Hk.
    pose proof (length_to_be_bytes k n) as Hl.
    rewrite !bool_decide_false by (rewrite ?length_app; lia). cbn [orb].
    rewrite take_app_length', drop_app_length' by done.
    rewrite fold_be, from_to_be_bytes by lia. done. }
  unfold der_length. repeat case_match; bools.
  - cbn [app read_len]. rewrite b2z_z2b, Z.mod_small by lia.
    assert (Z.land n 128 = 0)%Z as ->; [|done].
    change 128%Z with (2 ^ 7)%Z. rewrite <-(Z.mul_1_l (2 ^ 7)), <-Z.shiftl_mul_pow2 by lia.
    apply Z.bits_inj'. intros m Hm. rewrite Z.land_spec, Z.bits_0.
    destruct (Z.ltb_spec m 7); [by rewrite Z.shiftl_spec_low, andb_false_r|].
    by rewrite (testbit_above n 7 m) by lia.
  - apply (Hlong 1); [done..|lia|lia].
  - apply (Hlong 2); [done..|lia|lia].
  - apply (Hlong 3); [done..|lia|lia].
  - apply (Hlong 4); [done..|lia|lia].
Qed.

Definition tlv_ok (p : byte * list byte) : Prop :=
  low_tag p.1 = true ∧ (Z.of_nat (length p.2) < 2 ^ 32)%Z.

Definition tlv_item (p : byte * list byte) : Der :=
  {| tag := p.1; content := p.2; raw := tlv p.1 p.2 |}.

Lemma read_der_tlv p rest :
  tlv_ok p → read_der (tlv p.1 p.2 ++ rest) = Some (tlv_item p, rest).
Proof.
  destruct p as [t c]. intros [Ht Hc]. cbn [fst snd] in *. unfold low_tag in Ht. bools.
  apply Z.eqb_neq in Ht. unfold tlv. cbn [app read_der]. rewrite Ht, <-app_assoc.
  rewrite read_der_length by lia. cbn [mbind option_bind]. rewrite Nat2Z.id.
  rewrite decide_False by (rewrite length_app; lia).
  rewrite take_app_length, drop_app_length. unfold tlv_item, tlv. do 3 f_equal.
  set (h := der_length _). cbn [length]. rewrite !length_app.
  change (t :: h ++ c ++ rest) with ((t :: h) ++ c ++ rest). rewrite app_assoc.
  rewrite take_app_length'; [done|]. cbn [length app]. rewrite length_app. cbn. lia.
Qed.

Lemma read_der_raw l d rest :
  read_der l = Some (d, rest) → l = raw d ++ rest ∧ 2 ≤ length (raw d) ∧
  ∃ h, raw d = h ++ content d.
Proof.
  destruct l as [|t l]; [done|]. cbn [read_der]. case_match; [done|].
  destruct (read_len l) as [[len r]|] eqn:El; [|done]. cbn [mbind option_bind].
  case_decide as Hlen; [done|]. intros [= <- <-]. cbn [raw content].
  assert (∃ h, l = h ++ r ∧ 1 ≤ length h) as (h & -> & Hh).
  { unfold read_len in El. destruct l as [|first l]; [done|]. repeat case_match; try done.
    - injection El as _ <-. by exists [first].
    - injection El as _ <-. exists (first :: take (Z.to_nat (Z.land (b2z first) 127)) l).
      cbn. rewrite take_drop. split; [done|lia]. }
  cbn [length]. rewrite length_app.
  replace (S (length h + length r) - length r + len) with (S (length h) + len) by lia.
  change (t :: h ++ r) with ((t :: h) ++ r).
  assert (take (S (length h) + len) ((t :: h) ++ r) = (t :: h) ++ take len r) as ->.
  { rewrite take_app. cbn [length]. rewrite take_ge by (cbn; lia). do 2 f_equal. lia. }
  split_and!.
  - by rewrite <-app_assoc, take_drop.
  - rewrite length_app. cbn. lia.
  - eauto.
Qed.

Lemma der_items_loop_tlv fuel items :
  Forall tlv_ok items → length (items ≫= λ p, tlv p.1 p.2) ≤ fuel →
  der_items_loop fuel (items ≫= λ p, tlv p.1 p.2) = Some (tlv_item <$> items).
Proof.
  revert fuel. induction items as [|p items IH]; intros fuel Hok Hf; [by destruct fuel|].
  apply Forall_cons in Hok as [Hp Hok]. cbn [mbind list_bind] in *.
  rewrite length_app in Hf. assert (1 ≤ length (tlv p.1 p.2)) by (cbn; lia).
  destruct fuel as [|fuel]; [lia|].
  assert (∀ l, der_items_loop (S fuel) (tlv p.1 p.2 ++ l) =
    '(item, rest) ← read_der (tlv p.1 p.2 ++ l);
    items ← der_items_loop fuel rest; Some (item :: items)) as -> by done.
  rewrite read_der_tlv by done. cbn [mbind option_bind].
  change (list_bind _ _ (λ p, tlv p.1 p.2) items) with (items ≫= λ p, tlv p.1 p.2) in *.
  rewrite IH by (done || lia). done.
Qed.

Lemma der_items_loop_raw fuel l items :
  der_items_loop fuel l = Some items → l = concat (raw <$> items).
Proof.
  revert l items. induction fuel as [|fuel IH]; intros [|t l] items E; cbn [der_items_loop] in E;
    try (by injection E as <-); [done|].
  apply bind_Some in E as ([d rest] & Ed & E). apply bind_Some in E as (ds & Eds & [= <-]).
  apply read_der_raw in Ed as (-> & _). apply IH in Eds as ->. done.
Qed.

(** C11. The DER reader and the encoder agree: a sequence of elements with low
    tags and lengths below [2^32], each length in its shortest form, is read
    back element by element, header bytes included; and whatever sequence the
    reader accepts, its elements are the input, every byte in one of them. *)

Theorem der_round_trip (items : list (byte * list byte)) (l : list byte) (ds : list Der) :
  Forall tlv_ok items →
  der_items (items ≫= λ p, tlv p.1 p.2) = Some (tlv_item <$> items) ∧
  (der_items l = Some ds → concat (raw <$> ds) = l ∧ Forall (λ d, ∃ h, raw d = h ++ content d) ds).
Proof.
  intros Hok. split; [by apply der_items_loop_tlv|]. unfold der_items.
  intros E. split; [by apply der_items_loop_raw in E|]. revert E. generalize (length l). intros fuel.
  revert l ds. induction fuel as [|fuel IH]; intros [|t l] ds E; cbn [der_items_loop] in E;
    try (by injection E as <-; constructor); [done|].
  apply bind_Some in E as ([d rest] & Ed & E). apply bind_Some in E as (ds' & Eds & [= <-]).
  apply read_der_raw in Ed as (_ & _ & ?). constructor; eauto.
Qed.

Lemma der_round_trip_witness :
  der_items (tlv x82 (bs "a.example") ++ tlv x87 (replicate 130 x00)) =
  Some [tlv_item (x82, bs "a.example"); tlv_item (x87, replicate 130 x00)].
Proof.
  apply (der_round_trip [(x82, bs "a.example"); (x87, replicate 130 x00)] [] []).
  repeat constructor.
Defined.

(** ** Printed names *)

(** How Node's JavaScript reads a [subjectaltname] back: it splits the list at
    its commas and unquotes an entry that is a JSON string literal.
    Characters are UTF-16 code units. *)

Definition split_list (text : list byte) : list (list byte) :=
  match split_on ","%byte text with
  | [] => []
  | p :: ps => p :: (drop 1 <$> ps)
  end.

Definition hex4 (a b c d : byte) : option Z :=
  a ← to_digit 16 a; b ← to_digit 16 b; c ← to_digit 16 c; d ← to_digit 16 d;
  Some (((a * 16 + b) * 16 + c) * 16 + d)%Z.

Fixpoint unescape (l : list byte) : option (list Z) :=
  match l with
  | [] => None
  | b :: t =>
      if decide (b = x22) then if decide (t = []) then Some [] else None
      else if decide (b = x5c) then
        match t with
        | e :: t' =>
            if decide (e = x5c ∨ e = x22) then cons (b2z e) <$> unescape t'
            else if decide (e = "u"%byte) then
              match t' with
              | h1 :: h2 :: h3 :: h4 :: t'' => v ← hex4 h1 h2 h3 h4; cons v <$> unescape t''
              | _ => None
              end
            else None
        | [] => None
        end
      else cons (b2z b) <$> unescape t
  end.

Definition read_name (entry : list byte) : option (list Z) :=
  match entry with
  | b :: t => if decide (b = x22) then unescape t else Some (b2z <$> entry)
  | [] => Some []
  end.

Definition node_dns (entry : list byte) : option (list Z) :=
  name ← strip_pre (bs "DNS:") entry; read_name name.

(** A string of UTF-16 code units below 256, in UTF-8. *)

Definition units_string (cs : list Z) : list byte := cs ≫= encode_utf8.

(** *** Escapes *)

Lemma hex4_byte c :
  ∃ h1 h2 h3 h4, pad_left 4 "0"%byte (hex_text (b2z c)) = [h1; h2; h3; h4] ∧
                 hex4 h1 h2 h3 h4 = Some (b2z c).
Proof.
  assert ((match pad_left 4 "0"%byte (hex_text (b2z c)) with
           | [h1; h2; h3; h4] => bool_decide (hex4 h1 h2 h3 h4 = Some (b2z c))
           | _ => false
           end) = true) as Hc by (byte_sweep c).
  destruct (pad_left _ _ _) as [|h1 [|h2 [|h3 [|h4 [|]]]]]; try done.
  apply bool_decide_eq_true in Hc. eauto 8.
Qed.

Lemma unescape_escape c t :
  unescape (escape_byte false c ++ t) = cons (b2z c) <$> unescape t.
Proof.
  unfold escape_byte. destruct (decide (c = x5c)) as [->|H5]; [done|].
  destruct (decide (c = x22)) as [->|H2]; [done|]. case_match.
  - cbn [app unescape]. by rewrite !decide_False.
  - destruct (hex4_byte c) as (h1 & h2 & h3 & h4 & -> & Hv). cbn [app unescape].
    rewrite decide_False, decide_True, decide_False, decide_True by (done || by intros []).
    by rewrite Hv.
Qed.

Lemma escape_no_comma utf8 c : x2c ∉ escape_byte utf8 c.
Proof.
  apply (bool_decide_eq_true (x2c ∉ escape_byte utf8 c)).
  destruct utf8; revert c; intros c; byte_sweep c.
Qed.

Lemma escape_ascii c : forallb is_ascii (escape_byte false c) = true.
Proof. byte_sweep c. Qed.

Lemma unescape_escaped name : unescape ((name ≫= escape_byte false) ++ [x22]) = Some (b2z <$> name).
Proof.
  induction name as [|c name IH]; [done|]. cbn [mbind list_bind].
  rewrite <-app_assoc, unescape_escape. by rewrite IH.
Qed.

Lemma is_safe_byte_spec utf8 c :
  is_safe_byte utf8 c = true → c ≠ x22 ∧ c ≠ x2c ∧ (utf8 = false → is_ascii c = true).
Proof.
  intros Hs. unfold is_safe_byte in Hs. case_bool_decide as Hin; [done|].
  rewrite !not_elem_of_cons in Hin. destruct Hin as (? & _ & ? & _). split_and!; [done..|].
  intros ->. bools. unfold is_ascii. apply Z.ltb_lt. lia.
Qed.

Lemma print_alt_name_no_comma name utf8 prefix :
  x2c ∉ default [] prefix → x2c ∉ print_alt_name name utf8 prefix.
Proof.
  intros Hp. unfold print_alt_name.
  assert (x2c ∉ from_option (λ p, p ++ bs ":") [] prefix) as Hpre.
  { destruct prefix as [p|]; cbn in *; [|done]. rewrite elem_of_app, list_elem_of_singleton. by intros [?|?]. }
  destruct (is_safe_alt_name name utf8) eqn:Hs; rewrite !elem_of_app.
  - intros [?|Hin]; [done|]. unfold is_safe_alt_name in Hs. rewrite forallb_forall in Hs.
    apply list_elem_of_In, Hs, is_safe_byte_spec in Hin. tauto.
  - rewrite !list_elem_of_singleton. intros [?|[?|[Hin|?]]]; try done.
    apply list_elem_of_bind in Hin as (c & Hin & _). by apply escape_no_comma in Hin.
Qed.

Lemma read_printed_name name : read_name (print_alt_name name false None) = Some (b2z <$> name).
Proof.
  unfold print_alt_name. destruct (is_safe_alt_name name false) eqn:Hs; cbn [from_option app].
  - destruct name as [|c name]; [done|]. cbn in Hs. bools.
    apply is_safe_byte_spec in H as (Hq & _). cbn [read_name]. by rewrite decide_False.
  - cbn [read_name]. by rewrite decide_True, unescape_escaped.
Qed.

Lemma print_alt_name_ascii name : forallb is_ascii (print_alt_name name false None) = true.
Proof.
  unfold print_alt_name. destruct (is_safe_alt_name name false) eqn:Hs; cbn [from_option app].
  - unfold is_safe_alt_name in Hs. rewrite forallb_forall in *. intros c Hc.
    apply Hs, is_safe_byte_spec in Hc as (_ & _ & Ha). auto.
  - assert (forallb is_ascii (name ≫= escape_byte false) = true) as Hn.
    { clear. induction name as [|c name IH]; [done|]. cbn [mbind list_bind].
      by rewrite forallb_app, escape_ascii, IH. }
    cbn [forallb]. by rewrite forallb_app, Hn.
Qed.

(** *** No entry holds a comma *)

Lemma in_base_alnum upper base z b :
  (2 ≤ base ≤ 16)%Z → b ∈ in_base upper base z → is_ascii_alphanumeric b = true.
Proof.
  intros Hb. unfold in_base. rewrite list_elem_of_fmap. intros (d & -> & Hd).
  assert (0 ≤ d < 16)%Z as Hr.
  { revert Hd. generalize (S (Z.to_nat (Z.log2 z))). intros fuel.
    assert (∀ fuel z acc, (∀ e, e ∈ acc → 0 ≤ e < 16)%Z →
      d ∈ to_digits fuel base z acc → 0 ≤ d < 16)%Z as Hgo; [|by apply Hgo; intros ? ?%not_elem_of_nil].
    clear -Hb. induction fuel as [|fuel IH]; intros z acc Hacc; cbn [to_digits]; [auto|].
    assert (∀ e, e ∈ (z `mod` base)%Z :: acc → 0 ≤ e < 16)%Z as Hacc'.
    { intros e [->|?]%elem_of_cons; [|auto]. pose proof (Z.mod_pos_bound z base ltac:(lia)). lia. }
    case_decide; [apply Hacc'|apply IH, Hacc']. }
  assert (Forall (λ d, is_ascii_alphanumeric (digit_char upper d) = true) (seqZ 0 16)) as Hall
    by (destruct upper; repeat constructor).
  rewrite Forall_forall in Hall. apply Hall, elem_of_seqZ. lia.
Qed.

Lemma join_no_comma sep ps :
  x2c ∉ sep → Forall (λ p, x2c ∉ p) ps → x2c ∉ join sep ps.
Proof.
  intros Hs Hps [?|(p & Hp & Hin)]%elem_of_join; [done|].
  rewrite Forall_forall in Hps. by apply Hps in Hp.
Qed.

Lemma number_no_comma upper base z : (2 ≤ base ≤ 16)%Z → x2c ∉ in_base upper base z.
Proof. intros Hb Hin. by apply in_base_alnum in Hin. Qed.

Lemma oid_text_no_comma content : x2c ∉ oid_text content.
Proof.
  apply join_no_comma; [by apply (bool_decide_unpack _)|].
  apply Forall_fmap, Forall_forall. intros z _. apply number_no_comma. lia.
Qed.

Lemma ip_entry_no_comma bytes : x2c ∉ ip_entry_text bytes.
Proof.
  assert (∀ a b c d, x2c ∉ dotted_quad a b c d) as Hquad.
  { intros. apply join_no_comma; [by apply (bool_decide_unpack _)|].
    apply Forall_fmap, Forall_forall. intros z _. apply number_no_comma. lia. }
  assert (x2c ∉ (if decide (length bytes = 16)
    then join (bs ":") ((λ pair, HEX_text (from_be_bytes pair)) <$> chunks 2 bytes)
    else bs "<invalid length=" ++ dec_text (Z.of_nat (length bytes)) ++ bs ">")) as Hrest.
  { case_decide.
    - apply join_no_comma; [by apply (bool_decide_unpack _)|].
      apply Forall_fmap, Forall_forall. intros z _. apply number_no_comma. lia.
    - rewrite !elem_of_app. intros [?|[Hin|?]].
      + revert select (x2c ∈ _). by apply (bool_decide_unpack _).
      + revert Hin. apply number_no_comma. lia.
      + revert select (x2c ∈ _). by apply (bool_decide_unpack _). }
  unfold ip_entry_text. by destruct bytes as [|? [|? [|? [|? [|? ?]]]]].
Qed.

Lemma literal_no_comma (l : list byte) : forallb (λ b, negb (bool_decide (b = x2c))) l = true → x2c ∉ l.
Proof.
  rewrite forallb_forall. intros Hl Hin. apply list_elem_of_In, Hl in Hin. by bools.
Qed.

Lemma other_name_prefix_no_comma type_id p u :
  other_name_prefix type_id = Some (p, u) → x2c ∉ p.
Proof.
  unfold other_name_prefix. intros E. apply bind_Some in E as ([i [o [p' u']]] & Hf & [= <- <-]).
  apply list_find_Some in Hf as (Hl & _). apply literal_no_comma.
  apply list_elem_of_lookup_2 in Hl. unfold other_prefixes in Hl.
  repeat (apply elem_of_cons in Hl as [Hl|Hl]; [by injection Hl as -> -> ->|]).
  by apply not_elem_of_nil in Hl.
Qed.

Lemma general_name_no_comma name : x2c ∉ general_name_text name.
Proof.
  unfold general_name_text. rewrite from_utf8_lossy_ascii_elem by done.
  assert (∀ p l, forallb (λ b, negb (bool_decide (b = x2c))) p = true → x2c ∉ l → x2c ∉ p ++ l) as Happ.
  { intros p l Hp Hl. rewrite elem_of_app. intros [Hin|?]; [|done]. by apply literal_no_comma in Hp. }
  destruct name; cbn [general_name_bytes]; try (apply Happ; [done|]);
    try (by apply literal_no_comma).
  - destruct (other_name_prefix type_id) as [[p u]|] eqn:Ep; [|by apply literal_no_comma].
    apply other_name_prefix_no_comma in Ep. case_decide; [|by apply literal_no_comma].
    apply Happ; [done|]. by apply print_alt_name_no_comma.
  - apply print_alt_name_no_comma, not_elem_of_nil.
  - apply print_alt_name_no_comma, not_elem_of_nil.
  - destruct (print_directory_name name); [|by apply literal_no_comma].
    apply print_alt_name_no_comma, not_elem_of_nil.
  - apply print_alt_name_no_comma, not_elem_of_nil.
  - apply ip_entry_no_comma.
  - apply oid_text_no_comma.
Qed.

Lemma split_list_join entries :
  entries ≠ [] → Forall (λ p, x2c ∉ p) entries → split_list (join (bs ", ") entries) = entries.
Proof.
  intros Hne Hf.
  assert (∀ p ps, x2c ∉ p → Forall (λ p, x2c ∉ p) ps →
    split_on ","%byte (join (bs ", ") (p :: ps)) = p :: ((λ p, x20 :: p) <$> ps)) as Hgo.
  { clear. intros p ps. revert p. induction ps as [|q ps IH]; intros p Hp Hps.
    - by apply split_on_none.
    - apply Forall_cons in Hps as [Hq Hps]. rewrite join_cons by done.
      change (bs ", " ++ ?l) with (x2c :: x20 :: l). rewrite split_on_app_sep by done.
      f_equal. cbn [split_on]. rewrite decide_False, IH by done. done. }
  destruct entries as [|p ps]; [done|]. apply Forall_cons in Hf as [Hp Hps].
  unfold split_list. rewrite Hgo by done. f_equal.
  rewrite <-list_fmap_compose. rewrite <-(list_fmap_id ps) at 2. by apply list_fmap_ext.
Qed.

(** What an entry gives when it is read back: a DNS name its bytes, any other
    name nothing. *)

Definition dns_units (name : GeneralName) : option (list Z) :=
  match name with
  | Dns bytes => Some (b2z <$> bytes)
  | _ => None
  end.

Lemma strip_other (p l : list byte) :
  forallb is_ascii p = true → strip_pre (bs "DNS:") p = None → 4 ≤ length p →
  strip_pre (bs "DNS:") (from_utf8_lossy (p ++ l)) = None.
Proof.
  intros Ha Hs Hl. rewrite from_utf8_lossy_ascii_app by done.
  destruct p as [|a [|b [|c [|d p]]]]; cbn [length] in Hl; try lia.
  cbn in Hs |- *. repeat case_decide; done.
Qed.

Lemma node_dns_entry name : node_dns (general_name_text name) = dns_units name.
Proof.
  unfold node_dns, general_name_text.
  assert (∀ p l, forallb is_ascii p = true → strip_pre (bs "DNS:") p = None → 4 ≤ length p →
    (strip_pre (bs "DNS:") (from_utf8_lossy (p ++ l)) ≫= read_name) = None) as Hother.
  { intros. by rewrite strip_other. }
  assert (∀ p, forallb is_ascii p = true → strip_pre (bs "DNS:") p = None → 4 ≤ length p →
    (strip_pre (bs "DNS:") (from_utf8_lossy p) ≫= read_name) = None) as Halone.
  { intros p Ha Hs Hl. rewrite <-(app_nil_r p). by apply Hother. }
  destruct name; cbn [general_name_bytes dns_units];
    try (apply Hother; [done|done|cbn; lia]); try (apply Halone; [done|done|cbn; lia]).
  - repeat case_match; first [apply Hother; [done|done|cbn; lia]|apply Halone; [done|done|cbn; lia]].
  - rewrite from_utf8_lossy_ascii_app, strip_pre_app by done. cbn [mbind option_bind].
    rewrite from_utf8_lossy_ascii by apply print_alt_name_ascii. apply read_printed_name.
Qed.

(** C12. The printed list is as good as the certificate: split at its commas,
    [subjectaltname] gives back exactly the entries printed, and the DNS
    names that Node's JavaScript then reads off it (unquoting what was
    quoted) are the DNS names of the DER, byte for byte and in order: no
    other kind of name, whatever it contains, is read as one. *)

Theorem printed_names_agree (cert : X509Certificate) (text : list byte) :
  alt_names (from_certificate cert) = Some text →
  dns_names (from_certificate cert) = units_string <$> omap node_dns (split_list text) ∧
  ∃ names, extension_value cert (bs "2.5.29.17") ≫= general_names = Some names ∧
    (names ≠ [] → split_list text = general_name_text <$> names).
Proof.
  unfold from_certificate. cbn [alt_names dns_names].
  destruct (extension_value cert (bs "2.5.29.17") ≫= general_names) as [names|]; [|done].
  change (default [] (Some names)) with names. cbn [mbind option_bind]. intros [= <-].
  assert (Forall (λ p, x2c ∉ p) (general_name_text <$> names)) as Hf.
  { apply Forall_fmap, Forall_forall. intros name _. apply general_name_no_comma. }
  assert (omap dns_name names = units_string <$> omap dns_units names) as Hunits.
  { clear. induction names as [|name names IH]; [done|]. cbn. rewrite IH.
    destruct name; cbn; try done. f_equal. unfold latin1_string, units_string.
    clear. induction bytes as [|b bytes IH]; [done|]. cbn [mbind list_bind fmap list_fmap].
    f_equal. exact IH. }
  split.
  - destruct names as [|name names]; [done|]. rewrite split_list_join by done. rewrite Hunits. f_equal.
    generalize (name :: names). clear. intros names. induction names as [|name names IH]; [done|].
    cbn [omap list_omap fmap list_fmap]. rewrite node_dns_entry.
    change (list_fmap _ _ general_name_text names) with (general_name_text <$> names).
    by rewrite <-IH.
  - exists names. split; [done|]. intros Hne. apply split_list_join; [|done].
    by intros ?%fmap_nil_inv.
Qed.

(** A certificate whose URI tries to pass for a second DNS name. *)

Definition sneaky_uri : list byte := bs "http://x, DNS:victim.example".

Definition sneaky_cert : X509Certificate :=
  {| extensions := [(bs "2.5.29.17", tlv x30 (tlv x86 sneaky_uri ++ tlv x82 (bs "a.example")))];
     subject := [] |}.

Lemma printed_names_agree_witness :
  ∃ text, alt_names (from_certificate sneaky_cert) = Some text ∧
    [bs "a.example"] = units_string <$> omap node_dns (split_list text).
Proof.
  exists (bs "URI:" ++ [x22] ++ bs "http://x\u002c DNS:victim.example" ++ [x22] ++ bs ", DNS:a.example").
  split; [vm_compute; reflexivity|].
  apply (proj1 (printed_names_agree sneaky_cert _ ltac:(vm_compute; reflexivity))).
Defined.

(** ** Matching a host *)

Definition good_label (p : list byte) : Prop := p ≠ [] ∧ is_bad p = false.

(** The leftmost label, under the rules for wildcards; [t] is what follows it
    in the pattern. *)

Inductive first_label_matches (t : list (list byte)) (h p : list byte) : Prop :=
| label_exact : h = p → "*"%byte ∉ p ∨ contains_str p (bs "xn--") = true → first_label_matches t h p
| label_wild a m b :
    p = a ++ "*"%byte :: b → "*"%byte ∉ a → "*"%byte ∉ b → contains_str p (bs "xn--") = false →
    h = a ++ m ++ b → 2 ≤ length t → first_label_matches t h p.

Lemma split_star p :
  (∃ x, split_on "*"%byte p = [x] ∧ x = p ∧ "*"%byte ∉ p) ∨
  (∃ a b, split_on "*"%byte p = [a; b] ∧ p = a ++ "*"%byte :: b ∧ ("*"%byte ∉ a) ∧ ("*"%byte ∉ b)) ∨
  (∃ a b c l, split_on "*"%byte p = a :: b :: c :: l ∧ "*"%byte ∈ p ∧
     ∀ u v, p = u ++ "*"%byte :: v → "*"%byte ∉ u → "*"%byte ∈ v).
Proof.
  pose proof (join_split "*"%byte p) as Hj. pose proof (split_on_pieces "*"%byte p) as Hf.
  pose proof (split_on_ne "*"%byte p) as Hne.
  destruct (split_on "*"%byte p) as [|a [|b [|c l]]] eqn:Es; [done|..].
  - left. exists a. cbn in Hj. subst a. apply Forall_cons in Hf as [? _]. done.
  - right; left. exists a, b. cbn in Hj. apply Forall_cons in Hf as [? Hf].
    apply Forall_cons in Hf as [? _]. done.
  - right; right. exists a, b, c, l. split; [done|]. split.
    { rewrite <-Hj, join_cons by done. rewrite !elem_of_app. right. left. left. }
    intros u v -> Hu.
    rewrite split_on_app_sep in Es by done. injection Es as -> Es.
    destruct (decide ("*"%byte ∈ v)) as [|Hn]; [done|].
    by rewrite split_on_none in Es by done.
Qed.

Lemma wild_match (a b h : list byte) :
  (¬ length h < length a + length b ∧ starts_with h a = true ∧ ends_with h b = true) ↔
  ∃ m, h = a ++ m ++ b.
Proof.
  rewrite starts_with_prefix, ends_with_suffix. split.
  - intros (Hl & [x ->] & [y Hy]). rewrite length_app in Hl.
    apply app_eq_inv in Hy as [(k & -> & ->)|(k & -> & ->)]; [|by exists k].
    rewrite !length_app in Hl. destruct k; cbn in Hl; [|lia]. exists []. by rewrite app_nil_r.
  - intros [m ->]. split_and!.
    + rewrite !length_app. lia.
    + by exists (m ++ b).
    + exists (a ++ m). by rewrite app_assoc.
Qed.

Lemma existsb_false {A} (f : A → bool) l : existsb f l = false ↔ Forall (λ x, f x = false) l.
Proof.
  induction l as [|x l IH]; cbn; [by split; [constructor|]|].
  rewrite orb_false_iff, Forall_cons, IH. done.
Qed.

Definition host_rule (host_parts : list (list byte)) (pattern : list byte) : Prop :=
  pattern ≠ [] ∧ ∃ h p t, host_parts = h :: t ∧ split_host pattern = p :: t ∧
    Forall good_label (p :: t) ∧ first_label_matches t h p.

Lemma first_label_spec (t : list (list byte)) h p :
  (match split_on "*"%byte p with
   | [_] => bool_decide (h = p)
   | parts =>
       if contains_str p (bs "xn--") then bool_decide (h = p)
       else if negb true then false
       else match parts with
            | [prefix; suffix] =>
                if decide (length (p :: t) ≤ 2) then false
                else if decide (length h < length prefix + length suffix) then false
                else starts_with h prefix && ends_with h suffix
            | _ => false
            end
   end) = true ↔ first_label_matches t h p.
Proof.
  destruct (split_star p) as [(x & -> & -> & Hn)|[(a & b & -> & Hp & Ha & Hb)|(a & b & c & l & -> & Hin & Hmany)]].
  - rewrite bool_decide_eq_true. split; [intros ->; apply label_exact; auto|].
    intros [?|a m b -> _ _ _ _ _]; [done|]. exfalso. apply Hn. rewrite elem_of_app. right. left.
  - cbn [negb]. destruct (contains_str p (bs "xn--")) eqn:Ex.
    { rewrite bool_decide_eq_true. split; [intros ->; apply label_exact; auto|].
      intros [?|? ? ? _ _ _ ? _ _]; [done|congruence]. }
    case_decide as Ht; cbn [length] in Ht.
    { split; [done|]. intros [_ [Hs|?]|]; [|congruence|lia]. exfalso. apply Hs. subst p.
      rewrite elem_of_app. right. left. }
    assert (first_label_matches t h p ↔ ∃ m, h = a ++ m ++ b) as ->.
    { split.
      - intros [_ [Hs|?]|a' m b' Hp' Ha' Hb' _ -> _]; [|congruence|].
        { exfalso. apply Hs. subst p. rewrite elem_of_app. right. left. }
        rewrite Hp in Hp'.
        assert (split_on "*"%byte (a ++ "*"%byte :: b) = split_on "*"%byte (a' ++ "*"%byte :: b')) as E
          by (by rewrite Hp').
        rewrite !split_on_app_sep, !split_on_none in E by done. injection E as -> ->. eauto.
      - intros [m ->]. by eapply label_wild; [..|lia]. }
    rewrite <-wild_match. case_decide; [split; [done|by intros [? _]]|rewrite andb_true_iff; tauto].
  - cbn [negb]. destruct (contains_str p (bs "xn--")) eqn:Ex.
    { rewrite bool_decide_eq_true. split; [intros ->; apply label_exact; auto|].
      intros [?|? ? ? _ _ _ ? _ _]; [done|congruence]. }
    split; [done|]. intros [_ [Hs|?]|u m v Hp Hu Hv _ _ _]; [|congruence|].
    + done.
    + exfalso. by apply Hv, (Hmany u).
Qed.

(** A host matches a name of the certificate exactly when, label by label
    and ignoring case and one trailing dot, they are equal, or the name's
    leftmost label holds one [*] standing for part of the host's leftmost
    label, with at least two labels after it: a wildcard never covers a dot,
    never stands for a whole top-level domain's names, and is an ordinary
    character in a label with an A-label's [xn--].  A name with an empty
    label, a space, a control character or anything outside ASCII matches
    nothing. *)

Lemma host_matches_spec (host_parts : list (list byte)) (pattern : list byte) :
  host_matches host_parts pattern true = true ↔ host_rule host_parts pattern.
Proof.
  unfold host_matches, host_rule. case_decide as Hp; [by split; [|intros [? _]]|].
  assert (∀ l, existsb (λ p, bool_decide (p = [])) l = false ∧ existsb is_bad l = false ↔
    Forall good_label l) as Hgood.
  { intros l. rewrite !existsb_false, <-Forall_and. apply Forall_iff.
    intros q. unfold good_label. by rewrite bool_decide_eq_false. }
  specialize (Hgood (split_host pattern)). pose proof (split_on_ne "."%byte (lowercase (unfqdn pattern))) as Hne.
  fold (split_host pattern) in Hne.
  destruct (split_host pattern) as [|p t] eqn:Es; [done|].
  destruct (existsb (λ p, bool_decide (p = [])) (p :: t)), (existsb is_bad (p :: t)) eqn:Eb;
    try (split; [by repeat case_match|]; intros (_ & h & p' & t' & _ & [= <- <-] & Hg & _);
         apply Hgood in Hg as [? ?]; congruence).
  destruct host_parts as [|h th].
  { split; [done|]. by intros (_ & h & ? & ? & [=] & _). }
  case_bool_decide as Hlen; cbn [negb].
  2:{ split; [done|]. intros (_ & h' & p' & t' & [= <- <-] & [= <- ->] & _). done. }
  cbn [drop]. rewrite !drop_0. case_bool_decide as Ht; cbn [negb].
  2:{ split; [done|]. intros (_ & h' & p' & t' & [= <- <-] & [= <- ->] & _). done. }
  subst th. etrans; [apply first_label_spec|]. split.
  - intros Hf. split; [done|]. exists h, p, t. split_and!; [done..|by apply Hgood|done].
  - intros (_ & h' & p' & t' & [= <- <-] & [= <-] & _ & Hf). done.
Qed.

(** ** Accepting a certificate *)

Lemma dotted_quad_ne a b c d : dotted_quad a b c d ≠ [].
Proof.
  unfold dotted_quad. cbn [fmap list_fmap]. rewrite join_cons by done.
  intros E. apply app_eq_nil in E as [E _]. by apply in_base_ne in E.
Qed.

Lemma inet_ntop6_ne bytes : inet_ntop6 bytes ≠ [].
Proof.
  unfold inet_ntop6. generalize (from_be_bytes <$> chunks 2 bytes). intros words.
  cbn [print_words]. destruct (zero_run words) as [[base len]|].
  - case_bool_decide as Hin.
    + assert (base = 0) as -> by lia. rewrite decide_True by done. done.
    + rewrite bool_decide_false by done. cbn [andb]. intros E.
      apply app_eq_nil in E as [_ E]. apply app_eq_nil in E as [E _]. by apply in_base_ne in E.
  - rewrite bool_decide_false by done. cbn [andb]. intros E.
    apply app_eq_nil in E as [_ E]. apply app_eq_nil in E as [E _]. by apply in_base_ne in E.
Qed.

Lemma ip_text_ne bytes text : ip_text bytes = Some text → text ≠ [].
Proof.
  assert ((if decide (length bytes = 16) then Some (inet_ntop6 bytes) else None) = Some text →
    text ≠ []) as Hlong by (case_decide; [|done]; intros [= <-]; apply inet_ntop6_ne).
  unfold ip_text. destruct bytes as [|? [|? [|? [|? [|? ?]]]]]; try exact Hlong.
  intros [= <-]. apply dotted_quad_ne.
Qed.

Lemma canonicalize_ip_ne text ip : canonicalize_ip text = Some ip → ip ≠ [].
Proof.
  unfold canonicalize_ip. destruct (inet_pton4 text); [apply ip_text_ne|].
  intros E. apply bind_Some in E as (v6 & _ & [= <-]). apply inet_ntop6_ne.
Qed.

Lemma elem_of_ips (names : list GeneralName) ip :
  ip ≠ [] → ip ∈ omap ip_name names ↔ ∃ bytes, Ip bytes ∈ names ∧ ip_text bytes = Some ip.
Proof.
  intros Hne. rewrite list_elem_of_omap. split.
  - intros (name & Hin & E). destruct name; try done. injection E as E. exists bytes. split; [done|].
    destruct (ip_text bytes); cbn in E; congruence.
  - intros (bytes & Hin & E). exists (Ip bytes). split; [done|]. cbn. by rewrite E.
Qed.

Lemma elem_of_dns (names : list GeneralName) s :
  s ∈ omap dns_name names ↔ ∃ bytes, Dns bytes ∈ names ∧ s = latin1_string bytes.
Proof.
  rewrite list_elem_of_omap. split.
  - intros (name & Hin & E). destruct name; try done. injection E as <-. eauto.
  - intros (bytes & Hin & ->). by exists (Dns bytes).
Qed.

Lemma existsb_exists_elem {A} (f : A → bool) l : existsb f l = true ↔ ∃ x, x ∈ l ∧ f x = true.
Proof. rewrite existsb_exists. by setoid_rewrite list_elem_of_In. Qed.

(** The names a certificate may be accepted under for a host that is an
    address, or a name. *)

Definition certified (cert : X509Certificate) (host : list byte) : Prop :=
  let names := default [] (extension_value cert (bs "2.5.29.17") ≫= general_names) in
  match canonicalize_ip host with
  | Some ip => ∃ bytes, Ip bytes ∈ names ∧ ip_text bytes = Some ip
  | None =>
      (∃ bytes, Dns bytes ∈ names ∧ host_rule (split_host host) (latin1_string bytes)) ∨
      ((∀ bytes, Dns bytes ∉ names) ∧
       ∃ cns c, subject_cn (concat (subject cert)) = Some cns ∧ c ∈ cns ∧ host_rule (split_host host) c)
  end.

Lemma check_identity_spec host cert :
  check_identity host (from_certificate cert) = None ↔ certified cert (unfqdn host).
Proof.
  unfold check_identity, certified, from_certificate. cbn [ips dns_names cn alt_names].
  set (names := default [] (extension_value cert (bs "2.5.29.17") ≫= general_names)).
  destruct (canonicalize_ip (unfqdn host)) as [ip|] eqn:Eip.
  { apply canonicalize_ip_ne in Eip. rewrite <-elem_of_ips by done.
    case_bool_decide; by split. }
  setoid_rewrite <-host_matches_spec.
  destruct (decide (omap dns_name names ≠ [])) as [Hd|Hd].
  - rewrite bool_decide_true by done. cbn [orb].
    destruct (existsb _ _) eqn:Ex.
    + split; [intros _|done]. left. apply existsb_exists_elem in Ex as (s & Hs & Hm).
      apply elem_of_dns in Hs as (bytes & ? & ->). eauto.
    + split; [done|]. intros [(bytes & Hin & Hm)|[Hno _]]; exfalso.
      * rewrite existsb_false, Forall_forall in Ex. rewrite (Ex (latin1_string bytes)) in Hm; [done|].
        apply elem_of_dns. eauto.
      * apply Hd. destruct (omap dns_name names) as [|s l] eqn:Eo; [done|]. exfalso.
        assert (s ∈ omap dns_name names) as Hs by (rewrite Eo; left).
        apply elem_of_dns in Hs as (bytes & Hin & _). by apply (Hno bytes).
  - assert (omap dns_name names = []) as Ho by (destruct (omap dns_name names); [done|by destruct Hd]).
    assert (∀ bytes, Dns bytes ∉ names) as Hno.
    { intros bytes Hin. assert (latin1_string bytes ∈ omap dns_name names) as Hs
        by (apply elem_of_dns; eauto). rewrite Ho in Hs. by apply not_elem_of_nil in Hs. }
    rewrite bool_decide_false by done. cbn [orb].
    destruct (subject_cn (concat (subject cert))) as [cns|]; cbn [default from_option id].
    2:{ cbn. split; [done|]. intros [(bytes & Hin & _)|(_ & ? & ? & [=] & _)]. by destruct (Hno bytes). }
    assert ((∃ c, c ∈ cns ∧ host_matches (split_host (unfqdn host)) c true = true) →
      bool_decide (1 < length cns) || match cns with c :: _ => bool_decide (c ≠ []) | [] => false end = true)
      as Hhas.
    { intros (c & Hin & Hm). destruct cns as [|c1 [|c2 cns]]; [by apply not_elem_of_nil in Hin| |done].
      apply list_elem_of_singleton in Hin as ->. rewrite orb_true_iff. right.
      apply bool_decide_eq_true. intros ->. done. }
    destruct (_ || _) eqn:Ehas.
    + destruct (existsb _ cns) eqn:Ex.
      * split; [intros _|done]. right. split; [done|].
        apply existsb_exists_elem in Ex as (c & Hs & Hm). eauto.
      * split; [done|]. intros [(bytes & Hin & _)|(_ & ? & c & [= <-] & Hin & Hm)]; exfalso.
        -- by destruct (Hno bytes).
        -- rewrite existsb_false, Forall_forall in Ex. by rewrite (Ex c Hin) in Hm.
    + split; [done|]. intros [(bytes & Hin & _)|(_ & ? & c & [= <-] & Hin & Hm)]; exfalso.
      * by destruct (Hno bytes).
      * assert (false = true) as Hf by (apply Hhas; eauto). done.
Qed.

(** C13. A certificate is accepted for a server exactly when it parses and one
    of its names speaks for the host: for an address (in any of its
    spellings), an IP entry that is that address; for a name, a DNS entry
    that matches it, and the subject's CN only when the certificate has no
    DNS entry at all.  Nothing else in the certificate can make it pass.  A
    name matches when, label by label and ignoring case and one trailing dot,
    it equals the host, or its leftmost label holds one [*] standing for part
    of the host's leftmost label, with at least two labels after it: a
    wildcard never covers a dot, never stands for a whole top-level domain's
    names, and is an ordinary character in a label with an A-label's [xn--];
    a name with an empty label, a space, a control character or anything
    outside ASCII matches nothing. *)

Theorem server_identity_exact (parse : list byte → option X509Certificate)
  (server_name : ServerName) (der : list byte) :
  check_server_identity parse server_name der = Ok tt ↔
  ∃ cert, parse der = Some cert ∧ certified cert (unfqdn (server_hostname server_name)).
Proof.
  unfold check_server_identity, from_der. destruct (parse der) as [cert|].
  - pose proof (check_identity_spec (server_hostname server_name) cert) as Hspec.
    destruct (check_identity _ _); split.
    + done.
    + intros (cert' & [= <-] & Hc). by apply Hspec in Hc.
    + intros _. exists cert. split; [done|]. by apply Hspec.
    + done.
  - split; [|by intros (? & [=] & _)]. unfold check_identity, HostIdentity_default. cbn.
    by destruct (canonicalize_ip _).
Qed.

Example sneaky_accepted :
  check_server_identity (λ _, Some sneaky_cert) (DnsName (bs "A.example.")) [] = Ok tt.
Proof. vm_compute. reflexivity. Qed.

Example sneaky_refused :
  is_ok (check_server_identity (λ _, Some sneaky_cert) (DnsName (bs "victim.example")) []) = false.
Proof. vm_compute. reflexivity. Qed.
