(* ===== verification/Redirect.v ===== *)
(** * Redirect: [oam_core/src/http_client/prepare.rs] and [redirect.rs]

    What a fetch sends first, and what it decides about a 3xx.  The [url]
    crate's URLs, the [http] crate's URIs and header map and the small parsers
    used on the way (method, header name and value, percent-decoding, Base64)
    are other crates: they are the operations of the classes below.  A method,
    a header name and a header value are their bytes. *)

From S2P Require Import Prelude RustStd HttpHead.

(** ** The crates underneath *)

Class UrlOps : Type := {
  Url : Type;
  Host : Type;
  Host_eq_dec :: EqDecision Host;
  url_parse : list byte → option Url;
  url_join : Url → list byte → option Url;
  url_scheme : Url → list byte;
  url_host : Url → option Host;
  url_host_str : Url → option (list byte);
  url_port : Url → option Z;
  url_port_or_known_default : Url → option Z;
  url_username : Url → list byte;
  url_password : Url → option (list byte);
  url_fragment : Url → option (list byte);
  url_set_fragment : Url → option (list byte) → Url;
  url_set_username : Url → list byte → Url;
  url_set_password : Url → option (list byte) → Url;
  url_set_scheme : Url → list byte → Url;
  url_set_host : Url → option (list byte) → Url;
  url_set_port : Url → option Z → Url;
  url_until_username : Url → list byte;
  url_host_to_query : Url → list byte;
  Uri : Type;
  uri_try_from : list byte → option Uri;
  uri_host : Uri → option (list byte)
}.

Class HeaderOps : Type := {
  HeaderMap : Type;
  hm_empty : HeaderMap;
  hm_iter : HeaderMap → list (list byte * list byte);
  get_all : HeaderMap → list byte → list (list byte);
  hm_remove : HeaderMap → list byte → HeaderMap;
  hm_insert : HeaderMap → list byte → list byte → HeaderMap;
  try_insert : HeaderMap → list byte → list byte → option HeaderMap;
  try_append : HeaderMap → list byte → list byte → option HeaderMap;
  method_from_bytes : list byte → option (list byte);
  header_name_from_bytes : list byte → option (list byte);
  header_value_from_bytes : list byte → option (list byte);
  percent_decode_utf8 : list byte → option (list byte);
  base64_encode : list byte → list byte;
  base64_decode : list byte → option (list byte)
}.

(** The header map's documented behaviour, name by name. *)

Class HeaderLaws `{HeaderOps} : Prop := {
  get_empty n : get_all hm_empty n = [];
  get_remove h n m : get_all (hm_remove h n) m = if decide (n = m) then [] else get_all h m;
  get_insert h n v m : get_all (hm_insert h n v) m = if decide (n = m) then [v] else get_all h m;
  get_try_insert h n v h' m :
    try_insert h n v = Some h' →
    get_all h' m = if decide (n = m) then [v] else get_all h m;
  get_append h n v h' m :
    try_append h n v = Some h' →
    get_all h' m = if decide (n = m) then get_all h m ++ [v] else get_all h m;
  header_name_lowercases n m : header_name_from_bytes n = Some m → m = lowercase n
}.

(** ** Origins and ports *)

Section Origin.
Context `{UrlOps}.

Definition is_http (scheme : list byte) : bool :=
  bool_decide (scheme = bs "http") || bool_decide (scheme = bs "https").

Definition origin_eq (a b : Url) : bool :=
  bool_decide (url_scheme a = url_scheme b) && bool_decide (url_host a = url_host b)
  && bool_decide (url_port_or_known_default a = url_port_or_known_default b).

Definition BAD_PORTS : list Z :=
  [1; 7; 9; 11; 13; 15; 17; 19; 20; 21; 22; 23; 25; 37; 42; 43; 53; 69; 77; 79; 87; 95; 101; 102;
   103; 104; 109; 110; 111; 113; 115; 117; 119; 123; 135; 137; 139; 143; 161; 179; 389; 427; 465;
   512; 513; 514; 515; 526; 530; 531; 532; 540; 548; 554; 556; 563; 587; 601; 636; 989; 990; 993;
   995; 1719; 1720; 1723; 2049; 3659; 4045; 4190; 5060; 5061; 6000; 6566; 6665; 6666; 6667; 6668;
   6669; 6679; 6697; 10080]%Z.

Definition is_bad_port (url : Url) : bool :=
  is_http (url_scheme url) &&
  match url_port url with
  | Some port => binary_search_ok BAD_PORTS port
  | None => false
  end.
End Origin.

(** The setters' documented behaviour: a setter changes its own part only; and
    of an http or https URL with a host, setting an empty username or no
    password takes what was there away.  (A text that is set may be read back
    percent-encoded; nothing here sets one.) *)

Class UrlLaws `{UrlOps} : Prop := {
  set_fragment_scheme u f : url_scheme (url_set_fragment u f) = url_scheme u;
  set_fragment_username u f : url_username (url_set_fragment u f) = url_username u;
  set_fragment_password u f : url_password (url_set_fragment u f) = url_password u;
  set_username_scheme u n : url_scheme (url_set_username u n) = url_scheme u;
  set_username_host u n : url_host (url_set_username u n) = url_host u;
  set_username_empty u :
    is_http (url_scheme u) = true → is_Some (url_host u) → url_username (url_set_username u []) = [];
  set_password_scheme u p : url_scheme (url_set_password u p) = url_scheme u;
  set_password_username u p : url_username (url_set_password u p) = url_username u;
  set_password_none u :
    is_http (url_scheme u) = true → is_Some (url_host u) → url_password (url_set_password u None) = None
}.

(** ** [prepare] *)

Definition AUTHORIZATION : list byte := bs "authorization".
Definition PROXY_AUTHORIZATION : list byte := bs "proxy-authorization".
Definition COOKIE : list byte := bs "cookie".
Definition HOST : list byte := bs "host".
Definition ACCEPT : list byte := bs "accept".
Definition USER_AGENT : list byte := bs "user-agent".
Definition ACCEPT_ENCODING : list byte := bs "accept-encoding".
Definition CONTENT_LENGTH : list byte := bs "content-length".
Definition TRANSFER_ENCODING : list byte := bs "transfer-encoding".
Definition DEFAULT_ACCEPT_ENCODING : list byte := bs "gzip,deflate".

Inductive PrepareError : Type :=
| Builder
| InvalidMethod (method : list byte)
| TooManyHeaders.

Section Prepare.
Context `{UrlOps} `{HeaderOps}.

Record Prepared : Type := { p_url : Url; p_method : list byte; p_headers : HeaderMap }.

Definition to_uri (url : Url) : option Uri :=
  uri_try_from (url_until_username url ++ url_host_to_query url).

Definition host_for_connect (uri : Uri) : option (list byte) :=
  host ← uri_host uri;
  Some (default host (h ← strip_pre (bs "[") host; strip_suf (bs "]") h)).

Definition parse_url (raw : list byte) : option Url :=
  url ← url_parse raw;
  if is_http (url_scheme url) && bool_decide (is_Some (url_host url)) then
    _ ← to_uri url; Some url
  else None.

Definition take_userinfo (url : Url) : Url * option (list byte) :=
  if bool_decide (url_username url = []) && bool_decide (url_password url = None) then (url, None)
  else
    let username := percent_decode_utf8 (url_username url) in
    let password := p ← url_password url; percent_decode_utf8 p in
    (url_set_password (url_set_username url []) None,
     username ← username;
     if bool_decide (username = []) && bool_decide (password = None) then None
     else
       let raw := username ++ bs ":" ++ default [] password in
       header_value_from_bytes (bs "Basic " ++ base64_encode raw)).

(** The caller's headers: names as given, values as code points. *)

Fixpoint append_headers (headers : HeaderMap) (user_headers : list (list byte * list Z))
  : result PrepareError HeaderMap :=
  match user_headers with
  | [] => Ok headers
  | (name, value) :: rest =>
      name ← ok_or (header_name_from_bytes name) Builder;
      value ← ok_or (latin1_header_value (list byte) header_value_from_bytes value) Builder;
      headers ← ok_or (try_append headers name value) TooManyHeaders;
      append_headers headers rest
  end.

(** A default, for a name that is absent. *)

Definition add_default (headers : HeaderMap) (name value : list byte) : result PrepareError HeaderMap :=
  if bool_decide (get_all headers name = []) then ok_or (try_insert headers name value) TooManyHeaders
  else Ok headers.

Definition prepare (raw_url method : list byte) (user_headers : list (list byte * list Z))
  (default_headers : bool) (user_agent : list byte) : result PrepareError Prepared :=
  method ← ok_or (method_from_bytes method) (InvalidMethod method);
  url ← ok_or (parse_url raw_url) Builder;
  let '(url, basic) := take_userinfo url in
  headers ← match basic with
            | Some basic =>
                if existsb (λ h, eq_ignore_ascii_case h.1 AUTHORIZATION) user_headers
                then Ok hm_empty
                else ok_or (try_append hm_empty AUTHORIZATION basic) TooManyHeaders
            | None => Ok hm_empty
            end;
  headers ← append_headers headers user_headers;
  headers ← (if default_headers then
               headers ← add_default headers ACCEPT (bs "*/*");
               headers ← add_default headers USER_AGENT user_agent;
               add_default headers ACCEPT_ENCODING DEFAULT_ACCEPT_ENCODING
             else Ok headers);
  Ok {| p_url := url; p_method := method; p_headers := headers |}.
End Prepare.

(** ** [redirect] *)

Definition MAX_REDIRECTS : Z := 20.

Definition INVALID_URL : string := "Invalid URL".
Definition BAD_SCHEME : string := "URL scheme must be a HTTP(S) scheme".
Definition COUNT_EXCEEDED : string := "redirect count exceeded".
Definition CREDENTIALS : list byte :=
  bs "cross origin not allowed for request mode " ++ [x22] ++ bs "cors" ++ [x22].
Definition BAD_PORT : string := "bad port".
Definition UNEXPECTED_REDIRECT : string := "unexpected redirect".

Inductive RedirectBody : Type :=
| Replayable
| Streamed
| StreamedFetch
| UndiciReplayable
| UndiciIterable.

#[global] Instance RedirectBody_eq_dec : EqDecision RedirectBody.
Proof. solve_decision. Defined.

Inductive Rules : Type := RFetch | RUndici.

Definition is_redirect_status (status : Z) : bool :=
  bool_decide (status ∈ [301; 302; 303; 307; 308]%Z).

Definition GET : list byte := bs "GET".
Definition HEAD : list byte := bs "HEAD".
Definition POST : list byte := bs "POST".

Definition rewrites_to_get (status : Z) (method : list byte) (rules : Rules) : bool :=
  match rules with
  | RUndici => (status =? 303)%Z && bool_decide (method ≠ HEAD)
  | RFetch =>
      (((status =? 301)%Z || (status =? 302)%Z) && bool_decide (method = POST))
      || ((status =? 303)%Z && bool_decide (method ≠ GET) && bool_decide (method ≠ HEAD))
  end.

Section Redirects.
Context `{UrlOps} `{HeaderOps}.

Inductive Next : Type :=
| Done
| Follow (url : Url) (method : list byte) (drop_body : bool)
| ReturnResponse
| Fail (message : list byte)
| InvalidLocation (input : list byte).

(** [location]: repeated lines joined with ", ". *)

Definition location (headers : HeaderMap) : option (list byte) :=
  match get_all headers (bs "location") with
  | [] => None
  | [first] => Some first
  | values => header_value_from_bytes (join (bs ", ") values)
  end.

Definition bad_edge (b : option byte) : bool :=
  bool_decide (b = Some x09) || bool_decide (b = Some x20).

Definition resolve_location (raw : list byte) (current : Url) : result (option (list byte)) Url :=
  if bad_edge (head raw) || bad_edge (last raw)
     || existsb (λ b, bool_decide (b ∈ [x00; x0d; x0a])) raw
  then Err None
  else
    let text := from_utf8_lossy raw in
    ok_or (url_join current text) (Some text).

Definition nonempty (f : option (list byte)) : option (list byte) :=
  match f with
  | Some [] => None
  | f => f
  end.

Definition inherit_fragment (target current : Url) : Url :=
  if decide (nonempty (url_fragment target) = None)
  then url_set_fragment target (nonempty (url_fragment current)) else target.

Definition rules_of (body : RedirectBody) : Rules :=
  match body with
  | UndiciReplayable | UndiciIterable => RUndici
  | _ => RFetch
  end.

Definition next (status : Z) (method : list byte) (current : Url) (location : option (list byte))
  (redirects_so_far : Z) (body : RedirectBody) : Next :=
  if negb (is_redirect_status status) then Done
  else
    match location with
    | None => Done
    | Some location =>
        if decide (body = Streamed) then ReturnResponse
        else
          match resolve_location location current with
          | Err (Some input) => InvalidLocation input
          | Err None => Fail (bs INVALID_URL)
          | Ok target =>
              if negb (is_http (url_scheme target)) then Fail (bs BAD_SCHEME)
              else if (MAX_REDIRECTS <=? redirects_so_far)%Z then Fail (bs COUNT_EXCEEDED)
              else if negb (bool_decide (url_username target = []))
                      || bool_decide (is_Some (url_password target)) then Fail CREDENTIALS
              else
                let target := inherit_fragment target current in
                if bool_decide (body = StreamedFetch) && negb (status =? 303)%Z then Fail []
                else
                  let rewrite := rewrites_to_get status method (rules_of body) in
                  if negb rewrite && bool_decide (body = StreamedFetch) then ReturnResponse
                  else if is_bad_port target then Fail (bs BAD_PORT)
                  else if rewrite then Follow target GET true
                  else Follow target method false
          end
    end.

Definition body_headers : list (list byte) :=
  [bs "content-encoding"; bs "content-language"; bs "content-location"; bs "content-type";
   CONTENT_LENGTH; TRANSFER_ENCODING].

Definition origin_headers : list (list byte) := [AUTHORIZATION; PROXY_AUTHORIZATION; COOKIE; HOST].

Definition apply (headers : HeaderMap) (from to : Url) (drop_body : bool) : HeaderMap :=
  let headers := if drop_body then foldl hm_remove headers body_headers else headers in
  if negb (origin_eq from to) then foldl hm_remove headers origin_headers else headers.

End Redirects.
