(* ===== verification/Fetch.v ===== *)
(** * Fetch: the request loop of [oam_core/src/http_client/send.rs]

    [fetch] prepares the request and [run] drives it hop by hop.  The loop is
    the machine [fetch_step]: a state is where the loop stands, an event is
    what the world answers there (the pool's and the proxy's answers for a
    hop, what became of a send, the script's answer to a parked fetch), and
    each step says which requests it handed to the transport for good.

    Not in the state: the transport, the route, the timers and the cancel
    registration, which only decide what the world answers, the decoding
    options, which only [respond] reads, and [defer_head].  The streamed
    body's slot is [StreamSlot] of [body.rs], over the map of body channels
    the script shares. *)

From S2P Require Import Prelude RustStd HttpHead Permissions Redirect.

(** ** [StreamSlot]: a streamed body's receiver

    A channel is whether its sender and its receiver are still there. *)

Definition Outbound : Type := gmap Z (bool * bool).

Inductive SlotState : Type := Untaken | Taken | Dead.

#[global] Instance SlotState_eq_dec : EqDecision SlotState.
Proof. solve_decision. Defined.

Record StreamSlot : Type := { handle : Z; slot_state : SlotState }.

Definition StreamSlot_new (handle : Z) : StreamSlot :=
  {| handle := handle; slot_state := Untaken |}.

Definition set_state (slot : StreamSlot) (s : SlotState) : StreamSlot :=
  {| handle := handle slot; slot_state := s |}.

Definition drop_receiver (h : Z) (outbound : Outbound) : Outbound :=
  match outbound !! h with
  | Some (true, _) => <[h := (true, false)]> outbound
  | Some (false, _) => delete h outbound
  | None => outbound
  end.

(** Whether the receiver was there, the slot and the channels afterwards. *)

Definition take (slot : StreamSlot) (outbound : Outbound) : bool * StreamSlot * Outbound :=
  if decide (slot_state slot ≠ Untaken) then (false, slot, outbound)
  else
    (match outbound !! handle slot with
     | Some (_, receiver) => receiver
     | None => false
     end,
     set_state slot Taken, drop_receiver (handle slot) outbound).

Definition slot_request_failed (slot : StreamSlot) (outbound : Outbound) : StreamSlot * Outbound :=
  (set_state slot Dead, delete (handle slot) outbound).

Definition drop_slot (slot : StreamSlot) (outbound : Outbound) : Outbound :=
  if decide (slot_state slot ≠ Untaken) then outbound else drop_receiver (handle slot) outbound.

(** ** [BodySource] *)

Inductive BodySource : Type :=
| Empty
| Full (bytes : list byte)
| Stream (slot : StreamSlot).

Inductive ReqBody : Type :=
| empty_body
| full_body (bytes : list byte)
| channel_body (handle : Z).

Definition replayable (s : BodySource) : bool :=
  match s with
  | Stream _ => false
  | _ => true
  end.

(** The body for the next send, or [None]: the stream is unknown. *)

Definition build (s : BodySource) (outbound : Outbound) : option ReqBody * BodySource * Outbound :=
  match s with
  | Empty => (Some empty_body, s, outbound)
  | Full bytes => (Some (full_body bytes), s, outbound)
  | Stream slot =>
      match take slot outbound with
      | (true, slot', outbound') => (Some (channel_body (handle slot)), Stream slot', outbound')
      | (false, slot', outbound') => (None, Stream slot', outbound')
      end
  end.

Definition request_failed (s : BodySource) (outbound : Outbound) : Outbound :=
  match s with
  | Stream slot => snd (slot_request_failed slot outbound)
  | _ => outbound
  end.

Definition drop_source (s : BodySource) (outbound : Outbound) : Outbound :=
  match s with
  | Stream slot => drop_slot slot outbound
  | _ => outbound
  end.

Definition is_idempotent (method : list byte) : bool :=
  bool_decide (method = GET) || bool_decide (method = HEAD) || bool_decide (method = bs "PUT")
  || bool_decide (method = bs "DELETE") || bool_decide (method = bs "OPTIONS")
  || bool_decide (method = bs "TRACE").

(** ** The loop's state *)

Definition MAX_H2_RETRIES : Z := 2.
Definition ABORTED : list byte := bs "fetch: aborted".

Inductive RedirectMode : Type := MFollow | MManual | MError.

Record Resends : Type := { h2 : Z; stale : bool }.

Definition Resends_default : Resends := {| h2 := 0; stale := false |}.

Inductive Wants : Type := Addresses | Connection.

#[global] Instance Wants_eq_dec : EqDecision Wants.
Proof. solve_decision. Defined.

Section Loop.
Context `{UrlOps} `{HeaderOps}.

(** What goes to the transport.  [rq_hop] is the URL of the hop it was built
    for, which the request itself does not carry. *)

Record Request : Type := {
  rq_hop : Url;
  rq_method : list byte;
  rq_uri : Uri;
  rq_headers : HeaderMap;
  rq_body : ReqBody
}.

Record LoopState : Type := {
  method : list byte;
  current : Url;
  pin : option Url;
  carried : HeaderMap;
  source : BodySource;
  hops : Z;
  redirect : RedirectMode;
  net_check : option (list byte → Z → verdict);
  max_header_size : Z;
  undici_head : bool;
  fetch_rules : bool;
  iterable_body : bool;
  unsent : option Request;
  resends : Resends
}.

Definition set_source (st : LoopState) (s : BodySource) : LoopState :=
  {| method := method st; current := current st; pin := pin st; carried := carried st;
     source := s; hops := hops st; redirect := redirect st; net_check := net_check st;
     max_header_size := max_header_size st; undici_head := undici_head st;
     fetch_rules := fetch_rules st; iterable_body := iterable_body st; unsent := unsent st;
     resends := resends st |}.

Definition set_unsent (st : LoopState) (r : option Request) : LoopState :=
  {| method := method st; current := current st; pin := pin st; carried := carried st;
     source := source st; hops := hops st; redirect := redirect st; net_check := net_check st;
     max_header_size := max_header_size st; undici_head := undici_head st;
     fetch_rules := fetch_rules st; iterable_body := iterable_body st; unsent := r;
     resends := resends st |}.

Definition set_resends (st : LoopState) (r : Resends) : LoopState :=
  {| method := method st; current := current st; pin := pin st; carried := carried st;
     source := source st; hops := hops st; redirect := redirect st; net_check := net_check st;
     max_header_size := max_header_size st; undici_head := undici_head st;
     fetch_rules := fetch_rules st; iterable_body := iterable_body st; unsent := unsent st;
     resends := r |}.

(** ** What the world answers *)

Record Response : Type := {
  status : Z;
  headers : HeaderMap;
  is_http2 : bool;
  reason : option (list byte)
}.

(** A failed send, as the loop asks about it. *)

Record SendError : Type := {
  is_h2_retryable : bool;
  is_incomplete_message : bool;
  on_reused_connection : bool;
  response_started : bool;
  send_outcome : list byte
}.

Inductive Sent : Type :=
| Cancelled
| HeadersLate
| NeedsLookup (key host : list byte) (returned : bool)
| SendFailed (e : SendError)
| Answered (response : Response) (cancelled_after : bool).

Inductive Event : Type :=
| EHop (connection_needed : option (list byte)) (lookup_needed : option (list byte * list byte))
       (proxy_authorization : option (list byte))
| ESend (sent : Sent)
| EContinue (answer : result (list byte) unit)
| ESupply
| EAbandon
| EScript (outbound : Outbound).

Inductive Outcome : Type :=
| Failed (text : list byte)
| AccessDenied (denial : PermissionDenial)
| HeadersTimedOut
| NodeFailed (code message : list byte)
| BadLocation (input : list byte) (base : Url)
| Responded (response : Response) (url : Url) (redirected : bool)
| Abandoned.

Inductive Machine : Type :=
| MHop (st : LoopState)
| MSend (st : LoopState) (uri : Uri) (hop_headers : HeaderMap)
| MParked (st : LoopState) (wants : Wants) (key host : list byte)
| MEnded (o : Outcome).
End Loop.

(** ** The loop's pieces *)

Section Run.
Context `{UrlOps} `{HeaderOps}.
Context (canonical_reason : Z → option (list byte)).

(** The head's size as the API that sent the request counts it. *)

Definition head_count (r : Response) (undici_head : bool) : Z :=
  foldr Z.add 0%Z
    ((λ nv, Z.of_nat (length nv.1 + length nv.2)) <$> hm_iter (headers r))
  + (if negb undici_head && negb (is_http2 r) then
       Z.of_nat (length (match reason r with
                         | Some reason => reason
                         | None => default [] (canonical_reason (status r))
                         end))
     else 0).

Definition response_head_overflow (r : Response) (limit : Z) (undici_head : bool)
  : option Outcome :=
  if (head_count r undici_head <? limit)%Z then None
  else Some (if undici_head
             then NodeFailed (bs "UND_ERR_HEADERS_OVERFLOW") (bs "Headers Overflow Error")
             else NodeFailed (bs "HPE_HEADER_OVERFLOW") (bs "Parse Error: Header overflow")).

Definition net_denial (check : option (list byte → Z → verdict)) (url : Url)
  : option PermissionDenial :=
  check ← check;
  match check (default [] (url_host_str url)) (default 0%Z (url_port_or_known_default url)) with
  | Ok _ => None
  | Err denial => Some denial
  end.

Definition pin_origin (origin : list byte) : result (list byte) Url :=
  match url_parse origin with
  | Some url =>
      if is_http (url_scheme url) && bool_decide (is_Some (url_host url)) then Ok url
      else Err (bs "fetch: invalid dispatcher origin " ++ origin)
  | None => Err (bs "fetch: invalid dispatcher origin " ++ origin)
  end.

Definition pinned_url (url pin : Url) : Url :=
  url_set_port (url_set_host (url_set_scheme url (url_scheme pin)) (url_host_str pin))
    (url_port pin).

Definition hop_target (st : LoopState) : Url :=
  match pin st with
  | Some pin => pinned_url (current st) pin
  | None => current st
  end.

(** A failure that fails the streamed body with it, and one that only drops
    the state. *)

Definition fail_with (st : LoopState) (o : Outcome) (outbound : Outbound) : Machine * Outbound :=
  (MEnded o, request_failed (source st) outbound).

Definition drop_with (st : LoopState) (o : Outcome) (outbound : Outbound) : Machine * Outbound :=
  (MEnded o, drop_source (source st) outbound).

(** The host a connector is asked for, unbracketed. *)

Definition connect_host (target : Url) : list byte :=
  let hostname := default [] (url_host_str target) in
  default hostname (h ← strip_pre (bs "[") hostname; strip_suf (bs "]") h).

(** The top of the loop: the net grant, the URI, the two hooks, and the
    headers of the hop. *)

Definition start_hop (st : LoopState) (outbound : Outbound) (connection_needed : option (list byte))
  (lookup_needed : option (list byte * list byte)) (proxy_authorization : option (list byte))
  : Machine * Outbound :=
  let target := hop_target st in
  match net_denial (net_check st) target with
  | Some denial => fail_with st (AccessDenied denial) outbound
  | None =>
      match to_uri target with
      | None => drop_with st (Failed (bs "builder error")) outbound
      | Some uri =>
          match connection_needed, unsent st, lookup_needed with
          | Some key, _, _ => (MParked st Connection key (connect_host target), outbound)
          | None, None, Some (key, host) => (MParked st Addresses key host, outbound)
          | None, _, _ =>
              match proxy_authorization with
              | Some auth =>
                  if bool_decide (get_all (carried st) PROXY_AUTHORIZATION = []) then
                    match try_insert (carried st) PROXY_AUTHORIZATION auth with
                    | Some headers => (MSend st uri headers, outbound)
                    | None => drop_with st (Failed (bs "fetch: too many request headers")) outbound
                    end
                  else (MSend st uri (carried st), outbound)
              | None => (MSend st uri (carried st), outbound)
              end
          end
      end
  end.

(** The request of a send: the one handed back unsent, or a new one. *)

Definition next_request (st : LoopState) (uri : Uri) (hop_headers : HeaderMap) (outbound : Outbound)
  : result (list byte) Request * LoopState * Outbound :=
  match unsent st with
  | Some request => (Ok request, set_unsent st None, outbound)
  | None =>
      match build (source st) outbound with
      | (Some body, source', outbound') =>
          (Ok {| rq_hop := current st; rq_method := method st; rq_uri := uri;
                 rq_headers := hop_headers; rq_body := body |},
           set_source st source', outbound')
      | (None, source', outbound') =>
          (Err (bs "fetch: unknown body stream " ++
                match source' with
                | Stream slot => dec_text (handle slot)
                | _ => []
                end),
           set_source st source', outbound')
      end
  end.

(** Whether a failed send is tried again, and the allowance it leaves. *)

Definition retry (st : LoopState) (e : SendError) : option Resends :=
  if (h2 (resends st) <? MAX_H2_RETRIES)%Z && replayable (source st) && is_h2_retryable e then
    Some {| h2 := (h2 (resends st) + 1)%Z; stale := stale (resends st) |}
  else if negb (stale (resends st)) && replayable (source st) && is_idempotent (method st)
          && is_incomplete_message e && on_reused_connection e && negb (response_started e) then
    Some {| h2 := h2 (resends st); stale := true |}
  else None.

Definition redirect_body (st : LoopState) : RedirectBody :=
  match replayable (source st), fetch_rules st with
  | true, false => if undici_head st then UndiciReplayable else Replayable
  | true, true => Replayable
  | false, true => StreamedFetch
  | false, false => if iterable_body st then UndiciIterable else Streamed
  end.

(** [Next::Follow]: the state of the next hop. *)

Definition follow (st : LoopState) (url : Url) (method' : list byte) (drop_body : bool)
  (outbound : Outbound) : LoopState * Outbound :=
  let carried := apply (carried st) (current st) url drop_body in
  let spent := negb drop_body && bool_decide (redirect_body st = UndiciIterable) in
  ({| method := method'; current := url; pin := pin st;
      carried := if spent
                 then hm_insert (hm_remove carried TRANSFER_ENCODING) CONTENT_LENGTH (bs "0")
                 else carried;
      source := if drop_body || spent then Empty else source st;
      hops := wrap_u 32 (hops st + 1); redirect := redirect st; net_check := net_check st;
      max_header_size := max_header_size st; undici_head := undici_head st;
      fetch_rules := fetch_rules st; iterable_body := iterable_body st; unsent := unsent st;
      resends := Resends_default |},
   if drop_body || spent then drop_source (source st) outbound else outbound).

(** A response head: refused for its size, answered with, failed, or
    followed. *)

Definition on_response (st : LoopState) (r : Response) (cancelled_after : bool)
  (outbound : Outbound) : Machine * Outbound :=
  match response_head_overflow r (max_header_size st) (undici_head st) with
  | Some refusal => fail_with st refusal outbound
  | None =>
      let answer := drop_with st (Responded r (url_set_fragment (current st) None)
                                            (0 <? hops st)%Z) outbound in
      match redirect st, is_redirect_status (status r) with
      | MManual, _ => answer
      | MError, true => fail_with st (Failed (bs UNEXPECTED_REDIRECT)) outbound
      | MError, false | MFollow, _ =>
          match next (status r) (method st) (current st) (location (headers r)) (hops st)
                     (redirect_body st) with
          | Done | ReturnResponse => answer
          | Fail text => fail_with st (Failed text) outbound
          | InvalidLocation input => fail_with st (BadLocation input (current st)) outbound
          | Follow url method' drop_body =>
              if cancelled_after then fail_with st (Failed ABORTED) outbound
              else
                let '(st', outbound') := follow st url method' drop_body outbound in
                (MHop st', outbound')
          end
      end
  end.

(** One send, up to what the loop does with its result.  The last component
    is what the transport kept: a request that needs a lookup is not sent, and
    comes back if the error holds it. *)

Definition one_send (st : LoopState) (uri : Uri) (hop_headers : HeaderMap) (outbound : Outbound)
  (sent : Sent) : Machine * Outbound * list Request :=
  match next_request st uri hop_headers outbound with
  | (Err text, st, outbound) => (drop_with st (Failed text) outbound, [])
  | (Ok request, st, outbound) =>
      match sent with
      | NeedsLookup key host returned =>
          (MParked (set_unsent st (if (returned : bool) then Some request else None))
             Addresses key host, outbound, [])
      | Cancelled => (fail_with st (Failed ABORTED) outbound, [request])
      | HeadersLate => (fail_with st HeadersTimedOut outbound, [request])
      | SendFailed e =>
          match retry st e with
          | Some resends => (MSend (set_resends st resends) uri hop_headers, outbound, [request])
          | None => (fail_with st (Failed (send_outcome e)) outbound, [request])
          end
      | Answered r cancelled_after => (on_response st r cancelled_after outbound, [request])
      end
  end.

(** ** The machine

    [None]: the event is not one the state waits for. A fetch parked for one
    kind of answer is left alone by the other. *)

Definition fetch_step (m : Machine) (outbound : Outbound) (e : Event)
  : option (Machine * Outbound * list Request) :=
  match m, e with
  | _, EScript outbound' => Some (m, outbound', [])
  | MHop st, EHop connection_needed lookup_needed proxy_authorization =>
      Some (start_hop st outbound connection_needed lookup_needed proxy_authorization, [])
  | MSend st uri hop_headers, ESend sent => Some (one_send st uri hop_headers outbound sent)
  | MParked st Addresses _ _, EContinue (Ok _) => Some (MHop st, outbound, [])
  | MParked st Addresses _ _, EContinue (Err text) =>
      Some (drop_with st (Failed text) outbound, [])
  | MParked st Connection _ _, ESupply => Some (MHop st, outbound, [])
  | MParked st _ _ _, EAbandon => Some (drop_with st Abandoned outbound, [])
  | _, _ => None
  end.

(** A whole fetch under a sequence of events: where it ends up and every
    request it sent, in order. *)

Fixpoint fetch_run (m : Machine) (outbound : Outbound) (es : list Event)
  : option (Machine * Outbound * list Request) :=
  match es with
  | [] => Some (m, outbound, [])
  | e :: es =>
      '(m1, o1, sent1) ← fetch_step m outbound e;
      '(m2, o2, sent2) ← fetch_run m1 o1 es;
      Some (m2, o2, sent1 ++ sent2)
  end.

(** ** [fetch] *)

Record FetchRequest : Type := {
  fr_url : list byte;
  fr_method : option (list byte);
  fr_headers : list (list byte * list Z);
  fr_body : option (list byte);
  fr_body_base64 : option (list byte);
  fr_body_stream : option Z;
  fr_default_headers : bool;
  fr_fetch_semantics : bool;
  fr_dispatch_semantics : bool;
  fr_pin_origin : option (list byte);
  fr_redirect : RedirectMode;
  fr_max_header_size : option Z;
  fr_iterable_body : bool
}.

Definition prepare_error_text (e : PrepareError) : list byte :=
  match e with
  | Builder => bs "builder error"
  | InvalidMethod m => bs "fetch: invalid method '" ++ m ++ bs "'"
  | TooManyHeaders => bs "fetch: too many request headers"
  end.

Definition request_source (req : FetchRequest) : result (list byte) BodySource :=
  match fr_body_stream req, fr_body req, fr_body_base64 req with
  | Some h, _, _ => Ok (Stream (StreamSlot_new h))
  | None, Some body, _ => Ok (Full body)
  | None, None, Some encoded =>
      bytes ← ok_or (base64_decode encoded) (bs "fetch: malformed base64 body");
      Ok (Full bytes)
  | None, None, None => Ok Empty
  end.

Definition initial_state (req : FetchRequest) (user_agent : list byte) (process_max : Z)
  (net_check : option (list byte → Z → verdict)) : result (list byte) LoopState :=
  prepared ←
    match prepare (fr_url req) (default GET (fr_method req)) (fr_headers req)
                  (fr_default_headers req) user_agent with
    | Ok p => Ok p
    | Err e => Err (prepare_error_text e)
    end;
  if fr_fetch_semantics req && is_bad_port (p_url prepared) then Err (bs BAD_PORT)
  else
    source ← request_source req;
    pin ← match fr_pin_origin req with
          | None => Ok None
          | Some origin => Some <$> pin_origin origin
          end;
    Ok {| method := p_method prepared; current := p_url prepared; pin := pin;
          carried := p_headers prepared; source := source; hops := 0;
          redirect := fr_redirect req; net_check := net_check;
          max_header_size := default process_max (fr_max_header_size req);
          undici_head := fr_fetch_semantics req || fr_dispatch_semantics req;
          fetch_rules := fr_fetch_semantics req; iterable_body := fr_iterable_body req;
          unsent := None; resends := Resends_default |}.

(** The stream is claimed first, so an early return releases its receiver. *)

Definition fetch (req : FetchRequest) (user_agent : list byte) (process_max : Z)
  (net_check : option (list byte → Z → verdict)) (outbound : Outbound) : Machine * Outbound :=
  match initial_state req user_agent process_max net_check with
  | Ok st => (MHop st, outbound)
  | Err text =>
      (MEnded (Failed text),
       match fr_body_stream req with
       | Some h => drop_slot (StreamSlot_new h) outbound
       | None => outbound
       end)
  end.

(** [fetch], then the loop under a sequence of events. *)

Definition run_fetch (req : FetchRequest) (user_agent : list byte) (process_max : Z)
  (net_check : option (list byte → Z → verdict)) (outbound : Outbound) (es : list Event)
  : option (Machine * Outbound * list Request) :=
  let '(m, outbound) := fetch req user_agent process_max net_check outbound in
  fetch_run m outbound es.
End Run.
