(* ===== verification/FetchSpec.v ===== *)
(** * FetchSpec: what a fetch may send

    The loop of [Fetch] as a step relation, and by induction on its runs: how
    many requests a fetch sends, to which hosts, with whose credentials, on
    which URLs, and that a streamed body goes out once.  Last, the header list
    [prepare] starts it with. *)

From S2P Require Import Prelude RustStd HttpHead Permissions Redirect Fetch.

(** ** The step relation *)

Section Steps.
Context `{UrlOps} `{HeaderOps}.
Context (canonical_reason : Z → option (list byte)).

Definition hop_headers_of (st : LoopState) (hh : HeaderMap) : Prop :=
  hh = carried st ∨ ∃ auth, try_insert (carried st) PROXY_AUTHORIZATION auth = Some hh.

Inductive fstep : Machine → list Request → Machine → Prop :=
| s_stay m : fstep m [] m
| s_end m o : fstep m [] (MEnded o)
| s_park st w k h : fstep (MHop st) [] (MParked st w k h)
| s_resume st w k h : fstep (MParked st w k h) [] (MHop st)
| s_go st uri hh :
    net_denial (net_check st) (hop_target st) = None →
    to_uri (hop_target st) = Some uri →
    hop_headers_of st hh →
    fstep (MHop st) [] (MSend st uri hh)
| s_back st uri hh o r st1 o1 (returned : bool) k h :
    next_request st uri hh o = (Ok r, st1, o1) →
    fstep (MSend st uri hh) []
          (MParked (set_unsent st1 (if returned then Some r else None)) Addresses k h)
| s_last st uri hh o r st1 o1 out :
    next_request st uri hh o = (Ok r, st1, o1) →
    fstep (MSend st uri hh) [r] (MEnded out)
| s_retry st uri hh o r st1 o1 e rs :
    next_request st uri hh o = (Ok r, st1, o1) →
    retry st1 e = Some rs →
    fstep (MSend st uri hh) [r] (MSend (set_resends st1 rs) uri hh)
| s_follow st uri hh o r st1 o1 code loc url m d st2 o2 :
    next_request st uri hh o = (Ok r, st1, o1) →
    next code (method st1) (current st1) loc (hops st1) (redirect_body st1) = Follow url m d →
    follow st1 url m d o1 = (st2, o2) →
    fstep (MSend st uri hh) [r] (MHop st2).

#[local] Hint Constructors fstep : oam.

Lemma start_hop_fstep st o c l p m' o' :
  start_hop st o c l p = (m', o') → fstep (MHop st) [] m'.
Proof.
  unfold start_hop, fail_with, drop_with.
  destruct (net_denial _ _) eqn:Hn; [intros [= <- <-]; constructor|].
  destruct (to_uri _) as [uri|] eqn:Hu; [|intros [= <- <-]; constructor].
  assert (∀ hh, hop_headers_of st hh → fstep (MHop st) [] (MSend st uri hh)) as Hgo
    by (intros hh; by apply s_go).
  assert (hop_headers_of st (carried st)) as Hc by by left.
  destruct c, (unsent st), l as [[]|], p as [auth|];
    repeat match goal with
    | |- context [bool_decide ?P] => destruct (bool_decide P)
    | |- context [try_insert ?a ?b ?c] => destruct (try_insert a b c) eqn:?
    end; intros [= <- <-];
    first [apply s_end | apply s_park | apply Hgo; first [done | right; eauto]].
Qed.

Lemma on_response_cases st r c o m' o' :
  on_response canonical_reason st r c o = (m', o') →
  (∃ out, m' = MEnded out) ∨
  (∃ url m d st2, m' = MHop st2 ∧
     next (status r) (method st) (current st) (location (headers r)) (hops st) (redirect_body st)
       = Follow url m d ∧
     follow st url m d o = (st2, o')).
Proof.
  unfold on_response, fail_with, drop_with.
  destruct (response_head_overflow _ _ _); [intros [= <- <-]; eauto|].
  destruct (redirect st), (is_redirect_status (status r));
    try (intros [= <- <-]; by eauto);
    (destruct (next _ _ _ _ _ _) eqn:Hn; try (intros [= <- <-]; by eauto);
     destruct c; [intros [= <- <-]; by eauto|];
     destruct (follow _ _ _ _ _) eqn:Hf; intros [= <- <-]; right; do 4 eexists;
     split_and!; [done|done|exact Hf]).
Qed.

Lemma fetch_step_fstep m o e m' o' sent :
  fetch_step canonical_reason m o e = Some (m', o', sent) → fstep m sent m'.
Proof.
  destruct m as [st|st uri hh|st w k h|out], e as [c l p|s|[]| | |o2]; cbn [fetch_step];
    try destruct w; try (intros [= <- <- <-]; constructor); try done.
  - destruct (start_hop _ _ _ _ _) eqn:Hs. intros [= <- <- <-]. by eapply start_hop_fstep.
  - unfold one_send.
    destruct (next_request st uri hh o) as [[[r|t] st1] o1] eqn:Hr; cycle 1.
    { intros [= <- <- <-]. constructor. }
    destruct s as [| |k h ret|e|resp c].
    + intros [= <- <- <-]. eauto with oam.
    + intros [= <- <- <-]. eauto with oam.
    + intros [= <- <- <-]. eauto with oam.
    + destruct (retry st1 e) eqn:He; intros [= <- <- <-]; eauto with oam.
    + destruct (on_response _ st1 resp c o1) as [m1 o3] eqn:Ho. intros [= <- <- <-].
      apply on_response_cases in Ho as [[out ->]|(url & m & d & st2 & -> & Hn & Hf)];
        eauto with oam.
Qed.

(** A relation that composes along a run holds of the run. *)

Lemma fetch_run_ind (R : Machine → list Request → Machine → Prop) :
  (∀ m, R m [] m) →
  (∀ m1 s1 m2 s2 m3, fstep m1 s1 m2 → R m1 s1 m2 → R m2 s2 m3 → R m1 (s1 ++ s2) m3) →
  (∀ m1 s m2, fstep m1 s m2 → R m1 s m2) →
  ∀ es m o m' o' sent,
    fetch_run canonical_reason m o es = Some (m', o', sent) → R m sent m'.
Proof.
  intros Hnil Happ Hstep es. induction es as [|e es IH]; intros m o m' o' sent.
  { by intros [= <- <- <-]. }
  cbn [fetch_run]. intros ([[m1 o1] s1] & Hs & ([[m2 o2] s2] & Hr & [= <- <- <-])%bind_Some)%bind_Some.
  apply fetch_step_fstep in Hs. eauto.
Qed.

(** The common case: an invariant of the machine that makes every request
    sent satisfy [P]. *)

Lemma fetch_run_safe (I : Machine → Prop) (P : Request → Prop) :
  (∀ m s m', fstep m s m' → I m → I m' ∧ Forall P s) →
  ∀ es m o m' o' sent,
    I m → fetch_run canonical_reason m o es = Some (m', o', sent) → I m' ∧ Forall P sent.
Proof.
  intros Hstep es m o m' o' sent Hm Hrun. revert Hm.
  pattern m, sent, m'.
  refine (fetch_run_ind (λ m s m', I m → I m' ∧ Forall P s) _ _ _ es m o m' o' sent Hrun).
  - by split.
  - intros m1 s1 m2 s2 m3 _ H1 H2 Hm. destruct (H1 Hm) as [Hm2 Hs1].
    destruct (H2 Hm2). split; [done|]. by apply Forall_app.
  - exact Hstep.
Qed.

(** What a send leaves of the state. *)

Lemma next_request_cases st uri hh o r st1 o1 :
  next_request st uri hh o = (Ok r, st1, o1) →
  unsent st1 = None ∧
  (unsent st = Some r ∧ st1 = set_unsent st None ∨
   unsent st = None ∧
   ∃ body s', build (source st) o = (Some body, s', o1) ∧ st1 = set_source st s' ∧
     r = {| rq_hop := current st; rq_method := method st; rq_uri := uri;
            rq_headers := hh; rq_body := body |}).
Proof.
  unfold next_request. destruct (unsent st) as [r0|] eqn:Hu.
  { intros [= -> <- <-]. split; [done|by left]. }
  destruct (build (source st) o) as [[[body|] s'] o'] eqn:Hb; intros [= <- <- <-].
  split; [exact Hu|]. right. eauto 10.
Qed.
End Steps.

(** ** Invariants of the machine *)

Section Invariants.
Context `{UrlOps} `{HeaderOps}.

(** An invariant of the loop's state and of a send in progress. *)

Definition m_inv (I : LoopState → Prop) (J : LoopState → Uri → HeaderMap → Prop) (m : Machine)
  : Prop :=
  match m with
  | MHop st | MParked st _ _ _ => I st
  | MSend st uri hh => I st ∧ J st uri hh
  | MEnded _ => True
  end.

(** [P] of the requests sent follows from an [I] that [next_request], [retry]
    and [follow] preserve. *)

Lemma m_inv_step (I : LoopState → Prop) (J : LoopState → Uri → HeaderMap → Prop)
    (P : Request → Prop) :
  (∀ st uri hh,
     net_denial (net_check st) (hop_target st) = None → to_uri (hop_target st) = Some uri →
     hop_headers_of st hh → I st → J st uri hh) →
  (∀ st uri hh o r st1 o1,
     next_request st uri hh o = (Ok r, st1, o1) → I st → J st uri hh →
     P r ∧ I st1 ∧ J st1 uri hh ∧ I (set_unsent st1 (Some r))) →
  (∀ st uri hh rs e, retry st e = Some rs → I st → J st uri hh →
     I (set_resends st rs) ∧ J (set_resends st rs) uri hh) →
  (∀ st code loc url m d o st2 o2,
     next code (method st) (current st) loc (hops st) (redirect_body st) = Follow url m d →
     follow st url m d o = (st2, o2) → unsent st = None → I st → I st2) →
  ∀ m s m', fstep m s m' → m_inv I J m → m_inv I J m' ∧ Forall P s.
Proof.
  intros Hgo Hsend Hretry Hfollow m s m' Hstep.
  destruct Hstep as [m|m o|st w k h|st w k h|st uri hh Hn Hu Hh
    |st uri hh o r st1 o1 ret k h Hr|st uri hh o r st1 o1 out Hr|st uri hh o r st1 o1 e rs Hr He
    |st uri hh o r st1 o1 code loc url m d st2 o2 Hr Hx Hf]; cbn [m_inv];
    try (intros; split; [by auto | by apply Forall_nil_2]).
  - intros [Hi Hj]. destruct (Hsend _ _ _ _ _ _ _ Hr Hi Hj) as (HP & Hi1 & Hj1 & Hu1).
    split; [|done]. destruct ret; [done|].
    apply next_request_cases in Hr as [Hn _]. destruct st1; cbn in *. by subst.
  - intros [Hi Hj]. destruct (Hsend _ _ _ _ _ _ _ Hr Hi Hj) as (HP & Hi1 & Hj1 & Hu1). by auto.
  - intros [Hi Hj]. destruct (Hsend _ _ _ _ _ _ _ Hr Hi Hj) as (HP & Hi1 & Hj1 & Hu1).
    split; [by eapply Hretry|by auto].
  - intros [Hi Hj]. destruct (Hsend _ _ _ _ _ _ _ Hr Hi Hj) as (HP & Hi1 & Hj1 & Hu1).
    apply next_request_cases in Hr as [Hn _]. split; [|by auto]. by eapply Hfollow.
Qed.

(** [next] follows only what it may. *)

Lemma next_Follow code m cur loc n body url m' d :
  next code m cur loc n body = Follow url m' d →
  (n < MAX_REDIRECTS)%Z ∧ is_bad_port url = false ∧
  (body ≠ Streamed ∧ (body = StreamedFetch → d = true)) ∧
  ∃ target, url = inherit_fragment target cur ∧ is_http (url_scheme target) = true ∧
    url_username target = [] ∧ url_password target = None.
Proof.
  unfold next. destruct (negb _); [done|]. destruct loc as [loc|]; [|done].
  destruct (decide _) as [|Hb]; [done|].
  destruct (resolve_location loc cur) as [target|[]]; [|done..].
  destruct (is_http (url_scheme target)) eqn:Hs; [cbn [negb]|done].
  destruct (MAX_REDIRECTS <=? n)%Z eqn:Hm; [done|].
  destruct (bool_decide (url_username target = [])) eqn:Hu; [cbn [negb orb]|done].
  destruct (bool_decide (is_Some (url_password target))) eqn:Hp; [done|].
  destruct (bool_decide (body = StreamedFetch) && _) eqn:Hf; [done|].
  destruct (negb _ && _) eqn:Hg; [done|].
  destruct (is_bad_port _) eqn:Hbad; [done|].
  apply bool_decide_eq_true in Hu. apply bool_decide_eq_false, eq_None_not_Some in Hp.
  intros Hn. split; [lia|]. split; [|split; [split|]].
  - by destruct (rewrites_to_get _ _ _); injection Hn as <- <- <-.
  - done.
  - intros ->. rewrite bool_decide_true, andb_true_r in Hg by done.
    by destruct (rewrites_to_get _ _ _); [injection Hn as <- <- <-|].
  - exists target. by destruct (rewrites_to_get _ _ _); injection Hn as <- <- <-.
Qed.

Lemma follow_eq st url m d o st2 o2 :
  follow st url m d o = (st2, o2) →
  method st2 = m ∧ current st2 = url ∧ pin st2 = pin st ∧ net_check st2 = net_check st ∧
  hops st2 = wrap_u 32 (hops st + 1) ∧ unsent st2 = unsent st ∧ resends st2 = Resends_default ∧
  fetch_rules st2 = fetch_rules st ∧
  source st2 = (if d || (negb d && bool_decide (redirect_body st = UndiciIterable))
                then Empty else source st).
Proof. unfold follow. by intros [= <- _]. Qed.
End Invariants.

(** ** How many requests *)

Section Bound.
Context `{UrlOps} `{HeaderOps}.

(** Sends left in this hop, and in the hops after it. *)

Definition hop_budget (st : LoopState) : Z :=
  1 + (MAX_H2_RETRIES - h2 (resends st)) + (if stale (resends st) then 0 else 1).

Definition budget (m : Machine) : Z :=
  match m with
  | MHop st | MParked st _ _ _ | MSend st _ _ =>
      (MAX_REDIRECTS - hops st) * (MAX_H2_RETRIES + 2) + hop_budget st
  | MEnded _ => 0
  end.

Definition counted (st : LoopState) : Prop :=
  (0 ≤ hops st ≤ MAX_REDIRECTS ∧ 0 ≤ h2 (resends st) ≤ MAX_H2_RETRIES)%Z.

Definition counted_m : Machine → Prop := m_inv counted (λ _ _ _, True).

Lemma next_request_counts st uri hh o r st1 o1 :
  next_request st uri hh o = (r, st1, o1) →
  hops st1 = hops st ∧ resends st1 = resends st.
Proof.
  unfold next_request. destruct (unsent st); [by intros [= <- <- <-]|].
  by destruct (build _ _) as [[[]]]; intros [= <- <- <-].
Qed.

Lemma budget_nonneg m : counted_m m → (0 ≤ budget m)%Z.
Proof.
  assert (∀ st, counted st →
    (0 ≤ (MAX_REDIRECTS - hops st) * (MAX_H2_RETRIES + 2) + hop_budget st)%Z) as Hst.
  { unfold counted, hop_budget, MAX_REDIRECTS, MAX_H2_RETRIES. intros st Hc.
    destruct (stale (resends st)); lia. }
  destruct m; cbn [counted_m m_inv budget]; [auto|intros []; auto|auto|lia].
Qed.

Lemma retry_spends st e rs :
  counted st → retry st e = Some rs →
  counted (set_resends st rs) ∧ (hop_budget (set_resends st rs) + 1 ≤ hop_budget st)%Z.
Proof.
  unfold counted, retry, hop_budget, MAX_H2_RETRIES. intros Hc.
  destruct ((h2 (resends st) <? 2)%Z && replayable (source st) && is_h2_retryable e) eqn:Hh2.
  { apply andb_true_iff in Hh2 as [[Hlt _]%andb_true_iff _]. intros [= <-]. cbn. lia. }
  destruct (stale (resends st)); cbn [negb andb]; [done|].
  case_match; [|done]. intros [= <-]. cbn. lia.
Qed.

Lemma fstep_budget m s m' :
  fstep m s m' → counted_m m →
  counted_m m' ∧ (Z.of_nat (length s) + budget m' ≤ budget m)%Z.
Proof.
  intros Hstep Hm. pose proof (budget_nonneg m Hm) as Hnn. revert Hm Hnn.
  destruct Hstep as [m|m o|st w k h|st w k h|st uri hh Hn Hu Hh
    |st uri hh o r st1 o1 ret k h Hr|st uri hh o r st1 o1 out Hr|st uri hh o r st1 o1 e rs Hr He
    |st uri hh o r st1 o1 code loc url m d st2 o2 Hr Hx Hf];
    unfold counted_m; cbn [m_inv budget length]; intros Hm Hnn;
    try (destruct Hm as [Hm _]; destruct (next_request_counts _ _ _ _ _ _ _ Hr) as [E1 E2]).
  1-5: split; [by auto|lia].
  - unfold counted, hop_budget in *. cbn [set_unsent hops resends]. rewrite E1, E2.
    split; [done|lia].
  - unfold counted, hop_budget, MAX_REDIRECTS, MAX_H2_RETRIES in *.
    split; [done|]. destruct (stale _); lia.
  - assert (counted st1) as Hc1 by (unfold counted in *; by rewrite E1, E2).
    destruct (retry_spends _ _ _ Hc1 He) as [Hc2 Hb]. split; [by auto|].
    unfold hop_budget in *. rewrite E2 in Hb. cbn [set_resends hops]. rewrite E1. cbn in *. lia.
  - apply next_Follow in Hx as (Hlt & _). apply follow_eq in Hf as (_ & _ & _ & _ & Hh & _ & Hr2 & _).
    unfold counted, hop_budget, MAX_REDIRECTS, MAX_H2_RETRIES, wrap_u in *.
    rewrite Hh, Hr2, E1 in *. rewrite Z.mod_small by lia. cbn.
    destruct (stale (resends st)); lia.
Qed.

Lemma initial_state_fresh req ua pm nc st :
  initial_state req ua pm nc = Ok st →
  hops st = 0%Z ∧ resends st = Resends_default ∧ unsent st = None ∧ net_check st = nc.
Proof.
  unfold initial_state. intros Hi. apply bind_Ok in Hi as (p & _ & Hi).
  destruct (_ && _); [done|].
  apply bind_Ok in Hi as (src & _ & Hi). apply bind_Ok in Hi as (pn & _ & Hi).
  by injection Hi as <-.
Qed.

(** However the servers answer, whatever fails, is retried, parks and
    resumes, a fetch sends at most 84 requests: 21 hops, each with one send,
    two HTTP/2 retries and one resend after a stale connection; and it never
    counts more than 20 redirects. *)

Lemma request_bound (canonical_reason : Z → option (list byte)) req ua pm nc o es m o' sent :
  run_fetch canonical_reason req ua pm nc o es = Some (m, o', sent) →
  (Z.of_nat (length sent) ≤ (MAX_REDIRECTS + 1) * (MAX_H2_RETRIES + 2))%Z ∧
  match m with
  | MHop st | MParked st _ _ _ | MSend st _ _ => (hops st ≤ MAX_REDIRECTS)%Z
  | MEnded _ => True
  end.
Proof.
  unfold run_fetch. destruct (fetch req ua pm nc o) as [m0 o0] eqn:Hf. intros Hrun.
  assert (counted_m m0 ∧ (budget m0 ≤ (MAX_REDIRECTS + 1) * (MAX_H2_RETRIES + 2))%Z) as [Hc Hb].
  { unfold fetch in Hf. destruct (initial_state _ _ _ _) as [st|] eqn:Hi; injection Hf as <- <-.
    - apply initial_state_fresh in Hi as (Hh & Hr & _).
      unfold counted_m, counted, hop_budget, MAX_REDIRECTS, MAX_H2_RETRIES.
      cbn [m_inv budget]. unfold hop_budget, MAX_REDIRECTS, MAX_H2_RETRIES.
      rewrite Hh, Hr. cbn [Resends_default h2 stale]. lia.
    - done. }
  assert (counted_m m ∧ (Z.of_nat (length sent) + budget m ≤ budget m0)%Z) as [Hm Hs].
  { revert Hc. pattern m0, sent, m.
    refine (fetch_run_ind canonical_reason (λ m s m', counted_m m → counted_m m' ∧
      (Z.of_nat (length s) + budget m' ≤ budget m)%Z) _ _ _ es _ _ _ _ _ Hrun).
    - intros m1 Hm1. split; [done|]. cbn [length]. lia.
    - intros m1 s1 m2 s2 m3 _ H1 H2 Hm1. destruct (H1 Hm1) as [Hm2 ?]. destruct (H2 Hm2).
      split; [done|]. rewrite length_app. lia.
    - apply fstep_budget. }
  pose proof (budget_nonneg m Hm). split; [lia|].
  destruct m; cbn in Hm; unfold counted in Hm; try lia; done.
Qed.
End Bound.

(** ** Whose credentials *)

Section Credentials.
Context `{HU : UrlOps} `{HL : HeaderLaws}.
Context (home : Url).

(** The request's own headers among the ones a change of origin strips; the
    proxy's is set per hop. *)

Definition origin_bound : list (list byte) := [AUTHORIZATION; COOKIE; HOST].

Definition bare (h : HeaderMap) : Prop := ∀ n, n ∈ origin_bound → get_all h n = [].

Definition same_bound (h h' : HeaderMap) : Prop :=
  ∀ n, n ∈ origin_bound → get_all h n = get_all h' n.

Definition at_home (r : Request) : Prop := origin_eq home (rq_hop r) = true.
Definition bare_request (r : Request) : Prop := bare (rq_headers r).

Lemma get_removes l h n :
  get_all (foldl hm_remove h l) n = if decide (n ∈ l) then [] else get_all h n.
Proof.
  revert h. induction l as [|x l IH]; intros h; cbn [foldl].
  { by rewrite decide_False by apply not_elem_of_nil. }
  rewrite IH, get_remove. repeat case_decide; set_solver.
Qed.

Lemma apply_strips h from to d :
  (bare h → bare (apply h from to d)) ∧ (origin_eq from to = false → bare (apply h from to d)).
Proof.
  unfold apply. split.
  - intros Hb n Hn. destruct (negb _); rewrite ?get_removes; [by case_decide; [|destruct d;
      rewrite ?get_removes; try case_decide; auto]|].
    destruct d; rewrite ?get_removes; try case_decide; auto.
  - intros Ho n Hn. rewrite Ho. cbn [negb]. rewrite get_removes, decide_True; [done|].
    revert n Hn. apply Forall_forall. by repeat constructor; apply (bool_decide_unpack _).
Qed.

Lemma origin_eq_trans a b c : origin_eq a b = true → origin_eq b c = true → origin_eq a c = true.
Proof.
  unfold origin_eq. rewrite !andb_true_iff, !bool_decide_eq_true.
  intros [[-> ->] ->] [[-> ->] ->]. done.
Qed.

Lemma follow_strips st url m d o st2 o2 :
  follow st url m d o = (st2, o2) →
  (bare (carried st) → bare (carried st2)) ∧
  (origin_eq (current st) url = false → bare (carried st2)).
Proof.
  intros Hf. destruct (apply_strips (carried st) (current st) url d) as [Ha Hb].
  assert (bare (apply (carried st) (current st) url d) → bare (carried st2)) as Hc.
  { injection Hf as <- _. cbn [carried]. destruct (_ && _); [|done].
    intros Hc n Hn. rewrite get_insert, get_remove.
    rewrite decide_False by (intros <-; revert Hn; by apply (bool_decide_unpack _)).
    case_decide; auto. }
  auto.
Qed.

(** What the loop keeps: its URL is at home or its headers are bare, and a
    request waiting to be sent has the hop's URL and headers. *)

Definition homed (st : LoopState) : Prop :=
  (origin_eq home (current st) = true ∨ bare (carried st)) ∧
  (∀ r, unsent st = Some r → rq_hop r = current st ∧ same_bound (rq_headers r) (carried st)).

Definition homed_m : Machine → Prop :=
  m_inv homed (λ st _ hh, same_bound hh (carried st)).

Definition bare_m : Machine → Prop := m_inv (λ st, bare (carried st)) (λ _ _ _, True).

(** Once a request has left home, it and all that follow are bare. *)

Fixpoint left_bare (sent : list Request) : Prop :=
  match sent with
  | [] => True
  | r :: rest => (at_home r ∨ Forall bare_request sent) ∧ left_bare rest
  end.

Definition homed_run (m : Machine) (s : list Request) (m' : Machine) : Prop :=
  homed_m m →
  homed_m m' ∧ left_bare s ∧ (bare_m m → bare_m m' ∧ Forall bare_request s) ∧
  (Forall at_home s ∨ bare_m m').

Lemma same_bound_bare h h' : same_bound h h' → bare h' → bare h.
Proof. intros He Hb n Hn. rewrite He; auto. Qed.

Lemma hop_headers_bound st hh : hop_headers_of st hh → same_bound hh (carried st).
Proof.
  intros [->|(auth & Hi)]; [done|]. intros n Hn. rewrite (get_try_insert _ _ _ _ _ Hi).
  rewrite decide_False; [done|]. intros <-. revert Hn. by apply (bool_decide_unpack _).
Qed.

Lemma send_homed st uri hh o r st1 o1 :
  next_request st uri hh o = (Ok r, st1, o1) → homed st → same_bound hh (carried st) →
  carried st1 = carried st ∧ current st1 = current st ∧ unsent st1 = None ∧
  rq_hop r = current st ∧ same_bound (rq_headers r) (carried st).
Proof.
  intros Hr [_ Hu] Hh. apply next_request_cases in Hr as [Hn [[Hr ->]|(_ & body & s' & _ & -> & ->)]].
  - destruct (Hu r Hr). done.
  - done.
Qed.

(** A step that sends [r] and goes on to [m']. *)

Lemma homed_emit st uri hh o r st1 o1 m' :
  next_request st uri hh o = (Ok r, st1, o1) →
  (homed st1 → same_bound hh (carried st1) → homed_m m') → (bare (carried st1) → bare_m m') →
  homed_run (MSend st uri hh) [r] m'.
Proof.
  intros Hr Hm' Hb' [Hm Hh].
  destruct (send_homed _ _ _ _ _ _ _ Hr Hm Hh) as (E1 & E2 & E3 & E4 & E5).
  assert (homed st1) as H1.
  { unfold homed. rewrite E1, E2, E3. destruct Hm. done. }
  assert (bare (carried st) → bare_m m' ∧ Forall bare_request [r]) as Hbare.
  { intros Hc. split; [by apply Hb'; rewrite E1|]. apply Forall_singleton.
    by eapply same_bound_bare. }
  assert (Forall at_home [r] ∨ bare_m m' ∧ Forall bare_request [r]) as Hor.
  { destruct Hm as [[Ho|Hc] _]; [left|auto]. apply Forall_singleton. unfold at_home. by rewrite E4. }
  assert (same_bound hh (carried st1)) by by rewrite E1.
  split; [auto|]. split; [|split; [intros [Hc _]; auto|tauto]]. cbn [left_bare]. split; [|done].
  destruct Hor as [Ho|[_ Ho]]; [left; by apply Forall_singleton|by right].
Qed.

Lemma homed_step m s m' : fstep m s m' → homed_run m s m'.
Proof.
  destruct 1 as [m|m o|st w k h|st w k h|st uri hh Hn Hu Hh
    |st uri hh o r st1 o1 ret k h Hr|st uri hh o r st1 o1 out Hr|st uri hh o r st1 o1 e rs Hr He
    |st uri hh o r st1 o1 code loc url m d st2 o2 Hr Hx Hf].
  1-5: intros Hm; (split; [|split; [done|split; [intros Hb; split; [|done]|by left]]]);
    unfold homed_m, bare_m in *; cbn [m_inv] in *; try tauto.
  - split; [done|by apply hop_headers_bound].
  - intros [Hm Hh].
    destruct (send_homed _ _ _ _ _ _ _ Hr Hm Hh) as (E1 & E2 & _ & E3 & E4).
    unfold homed_m, bare_m, homed. cbn [m_inv left_bare set_unsent carried current unsent].
    rewrite E1, E2. destruct Hm as [Hm _].
    split; [split; [done|]|split; [done|split; [|by left]]].
    + intros r'. destruct ret; [by intros [= <-]|done].
    + intros [Hb _]. by split.
  - by eapply homed_emit.
  - eapply homed_emit; [done|..]; unfold homed_m, bare_m; by cbn [m_inv].
  - eapply homed_emit; [done|..]; unfold homed_m, bare_m; cbn [m_inv];
      destruct (follow_strips _ _ _ _ _ _ _ Hf) as [Hs1 Hs2]; [|done].
    intros [Ho _] _. apply next_request_cases in Hr as [Hu _].
    apply follow_eq in Hf as (_ & Hc & _ & _ & _ & Hu2 & _). unfold homed. rewrite Hc, Hu2, Hu.
    split; [|done]. destruct (origin_eq (current st1) url) eqn:Heq; [|by right; apply Hs2].
    destruct Ho as [Ho|Ho]; [left; by eapply origin_eq_trans|right; by apply Hs1].
Qed.

Lemma left_bare_app s1 s2 :
  left_bare s1 → left_bare s2 → (Forall at_home s1 ∨ Forall bare_request s2) →
  left_bare (s1 ++ s2).
Proof.
  intros H1 H2 [Hor|Hor].
  - clear H1. induction Hor; [done|]. cbn [app left_bare]. auto.
  - induction s1 as [|r s1 IH]; [done|]. cbn [app left_bare] in *. destruct H1 as [Hr H1].
    split; [|auto]. destruct Hr; [by left|right]. by rewrite app_comm_cons, Forall_app.
Qed.

Lemma left_bare_elem before r after :
  left_bare (before ++ r :: after) → origin_eq home (rq_hop r) = false →
  Forall bare_request (r :: after).
Proof.
  induction before as [|x before IH]; cbn [app left_bare]; intros [Hx Hl] Ho; [|auto].
  destruct Hx as [Hx|]; [|done]. unfold at_home in Hx. congruence.
Qed.

Lemma homed_run_app m1 s1 m2 s2 m3 :
  homed_run m1 s1 m2 → homed_run m2 s2 m3 → homed_run m1 (s1 ++ s2) m3.
Proof.
  intros R1 R2 Hm1. destruct (R1 Hm1) as (Hm2 & L1 & B1 & O1), (R2 Hm2) as (Hm3 & L2 & B2 & O2).
  rewrite !Forall_app. split; [done|]. split; [|split; [|tauto]].
  - apply left_bare_app; tauto.
  - tauto.
Qed.
End Credentials.

(** C15.  Credentials stay home: once a hop leaves the origin of the fetch's
    URL, that request and every later one, back at the first origin too,
    carries no [authorization], no [cookie] and no [host] the script set. *)

Theorem credentials_stay_home `{UrlOps} `{HeaderLaws} (canonical_reason : Z → option (list byte))
    req ua pm nc o es m o' before r after st0 r' n :
  initial_state req ua pm nc = Ok st0 →
  run_fetch canonical_reason req ua pm nc o es = Some (m, o', before ++ r :: after) →
  origin_eq (current st0) (rq_hop r) = false →
  r' ∈ r :: after →
  n ∈ [AUTHORIZATION; COOKIE; HOST] →
  get_all (rq_headers r') n = [].
Proof.
  unfold run_fetch, fetch. intros Hi. rewrite Hi. intros Hrun Ho Hr' Hn.
  assert (homed_run (current st0) (MHop st0) (before ++ r :: after) m) as HR.
  { eapply (fetch_run_ind canonical_reason (homed_run (current st0))); [..|exact Hrun].
    - intros m1 Hm1. split; [done|]. split; [done|]. split; [done|by left].
    - intros m1 s1 m2 s2 m3 _. apply homed_run_app.
    - apply homed_step. }
  destruct HR as (_ & Hl & _).
  { apply initial_state_fresh in Hi as (_ & _ & Hu & _). split; [left|by rewrite Hu].
    unfold origin_eq. by rewrite !bool_decide_true. }
  apply left_bare_elem in Hl; [|done]. rewrite Forall_forall in Hl.
  by apply Hl.
Qed.

(** ** Which hosts *)

Section Granted.
Context `{UrlOps} `{HeaderOps}.
Context (nc : option (list byte → Z → verdict)).
Context (pinned : option Url).

Definition target_of (hop : Url) : Url :=
  match pinned with
  | Some pin => pinned_url hop pin
  | None => hop
  end.

Definition granted (r : Request) : Prop :=
  to_uri (target_of (rq_hop r)) = Some (rq_uri r) ∧ net_denial nc (target_of (rq_hop r)) = None.

Definition granted_st (st : LoopState) : Prop :=
  net_check st = nc ∧ pin st = pinned ∧
  ∀ r, unsent st = Some r → rq_hop r = current st ∧ granted r.

Lemma granted_step m s m' :
  let I := m_inv granted_st (λ st uri _, to_uri (target_of (current st)) = Some uri ∧
                                         net_denial nc (target_of (current st)) = None) in
  fstep m s m' → I m → I m' ∧ Forall granted s.
Proof.
  apply m_inv_step.
  - intros st uri hh Hn Hu _ (Hc & Hp & _). unfold hop_target, target_of in *. subst. done.
  - intros st uri hh o r st1 o1 Hr (Hn & Hp & Hu) Hj.
    assert (rq_hop r = current st ∧ granted r) as [Hc Hg].
    { apply next_request_cases in Hr as [_ [[Hr ->]|(_ & body & s' & _ & -> & ->)]]; auto. }
    assert (net_check st1 = nc ∧ pin st1 = pinned ∧ current st1 = current st ∧ unsent st1 = None)
      as (? & ? & Hc1 & Hu1).
    { by apply next_request_cases in Hr as [? [[_ ->]|(_ & body & s' & _ & -> & _)]]. }
    split; [done|]. rewrite Hc1. split; [|split; [done|]].
    + split_and!; [done..|]. by rewrite Hu1.
    + split_and!; [done..|]. intros r'. cbn [set_unsent unsent current]. rewrite Hc1.
      by intros [= <-].
  - done.
  - intros st code loc url m0 d o st2 o2 _ Hf Hu (Hn & Hp & _).
    apply follow_eq in Hf as (_ & _ & Hp2 & Hn2 & _ & Hu2 & _).
    unfold granted_st. rewrite Hn2, Hp2, Hu2, Hu. done.
Qed.
End Granted.

Lemma net_denial_grant `{UrlOps} perms url :
  net_denial (fetch_net_check perms) url = None →
  check_net_target perms (default [] (url_host_str url))
    (default 0%Z (url_port_or_known_default url)) = Ok tt.
Proof.
  unfold net_denial, fetch_net_check. destruct (net perms) eqn:Hp; cbn.
  - unfold check_net_target, gate, allows_net_target. by rewrite Hp.
  - by destruct (check_net_target _ _ _) as [[]|].
  - by destruct (check_net_target _ _ _) as [[]|].
Qed.

(** Under a set of permissions, every request a fetch sends, redirects
    and resends included, goes to a host and port its net grant admits: those
    of the URL the request's URI was made from, the hop's own or its path at
    the pinned origin. *)

Lemma every_request_was_granted `{UrlOps} `{HeaderOps}
    (canonical_reason : Z → option (list byte)) req ua pm perms o es m o' sent st0 r :
  initial_state req ua pm (fetch_net_check perms) = Ok st0 →
  run_fetch canonical_reason req ua pm (fetch_net_check perms) o es = Some (m, o', sent) →
  r ∈ sent →
  let target := target_of (pin st0) (rq_hop r) in
  to_uri target = Some (rq_uri r) ∧
  check_net_target perms (default [] (url_host_str target))
    (default 0%Z (url_port_or_known_default target)) = Ok tt.
Proof.
  unfold run_fetch, fetch. intros Hi. rewrite Hi. intros Hrun Hr.
  apply (fetch_run_safe _ _ _ (granted_step (fetch_net_check perms) (pin st0))) in Hrun as [_ Hs].
  - rewrite Forall_forall in Hs. destruct (Hs r Hr) as [Hu Hn].
    split; [done|by apply net_denial_grant].
  - apply initial_state_fresh in Hi as (_ & _ & Hu & Hn). unfold granted_st. cbn [m_inv].
    by rewrite Hu.
Qed.

(** ** Which URLs *)

Lemma BAD_PORTS_sorted : StronglySorted Z.le BAD_PORTS.
Proof. apply Sorted_StronglySorted; [typeclasses eauto|]. repeat constructor; lia. Qed.

Section Urls.
Context `{HL : UrlLaws} `{HeaderOps}.

Lemma is_bad_port_spec url :
  is_bad_port url = true ↔
  is_http (url_scheme url) = true ∧ ∃ p, url_port url = Some p ∧ p ∈ BAD_PORTS.
Proof.
  unfold is_bad_port. rewrite andb_true_iff. apply and_iff_compat_l.
  destruct (url_port url) as [p|]; [|naive_solver].
  rewrite (binary_search_ok_spec BAD_PORTS p BAD_PORTS_sorted). naive_solver.
Qed.

Definition clean_url (u : Url) : Prop :=
  is_http (url_scheme u) = true ∧ url_username u = [] ∧ url_password u = None.

Lemma inherit_fragment_clean target cur : clean_url target → clean_url (inherit_fragment target cur).
Proof.
  unfold inherit_fragment, clean_url. case_decide; [|done].
  by rewrite set_fragment_scheme, set_fragment_username, set_fragment_password.
Qed.

Lemma prepare_url_clean raw m hs d ua p : prepare raw m hs d ua = Ok p → clean_url (p_url p).
Proof.
  unfold prepare. intros Hp. apply bind_Ok in Hp as (m' & _ & Hp).
  apply bind_Ok in Hp as (url & Hurl & Hp).
  assert (is_http (url_scheme url) = true ∧ is_Some (url_host url)) as [Hs Hh].
  { destruct (parse_url raw) as [u|] eqn:E; [|done]. injection Hurl as ->.
    unfold parse_url in E. apply bind_Some in E as (u & _ & E).
    destruct (_ && _) eqn:Hc; [|done]. apply bind_Some in E as (? & _ & [= ->]).
    by apply andb_true_iff in Hc as [? ?%bool_decide_eq_true]. }
  destruct (take_userinfo url) as [url' basic] eqn:Hu.
  apply bind_Ok in Hp as (h1 & _ & Hp). apply bind_Ok in Hp as (h2 & _ & Hp).
  apply bind_Ok in Hp as (h3 & _ & [= <-]). cbn [p_url].
  unfold take_userinfo in Hu. destruct (_ && _) eqn:Hc.
  - injection Hu as <- <-. by apply andb_true_iff in Hc as [?%bool_decide_eq_true ?%bool_decide_eq_true].
  - injection Hu as <- _. unfold clean_url.
    rewrite set_password_scheme, set_username_scheme, set_password_username, set_username_empty by done.
    by rewrite set_password_none by (by rewrite ?set_username_scheme, ?set_username_host).
Qed.

Definition url_st (strict : bool) (st : LoopState) : Prop :=
  (clean_url (current st) ∧ (strict = true → is_bad_port (current st) = false)) ∧
  ∀ r, unsent st = Some r → rq_hop r = current st.

Lemma url_step strict m s m' :
  let P r := clean_url (rq_hop r) ∧ (strict = true → is_bad_port (rq_hop r) = false) in
  let I := m_inv (url_st strict) (λ _ _ _, True) in
  fstep m s m' → I m → I m' ∧ Forall P s.
Proof.
  apply m_inv_step.
  - done.
  - intros st uri hh o r st1 o1 Hr [Hc Hu] _. apply next_request_cases in Hr as [Hn Hr].
    assert (rq_hop r = current st ∧ current st1 = current st) as [E1 E2].
    { destruct Hr as [[Hr ->]|(_ & body & s' & _ & -> & ->)]; auto. }
    unfold url_st. cbn [set_unsent current unsent]. rewrite E1, E2, Hn.
    split_and!; try tauto; [done|]. by intros r' [= <-].
  - done.
  - intros st code loc url m0 d o st2 o2 Hn Hf Hu [Hc _].
    apply next_Follow in Hn as (_ & Hb & _ & target & -> & Ht).
    apply follow_eq in Hf as (_ & Hc2 & _ & _ & _ & Hu2 & _).
    unfold url_st. rewrite Hc2, Hu2, Hu. split; [|done].
    split; [by apply inherit_fragment_clean|done].
Qed.
End Urls.

(** Every request a fetch sends is for an http or https URL with no
    userinfo left in it, and, under the fetch rules, never for a port on the
    Fetch Standard's list of bad ports; the first hop and every redirect. *)

Lemma every_url_is_sound `{UrlLaws} `{HeaderOps} (canonical_reason : Z → option (list byte))
    req ua pm nc o es m o' sent r :
  run_fetch canonical_reason req ua pm nc o es = Some (m, o', sent) →
  r ∈ sent →
  (url_scheme (rq_hop r) = bs "http" ∨ url_scheme (rq_hop r) = bs "https") ∧
  url_username (rq_hop r) = [] ∧ url_password (rq_hop r) = None ∧
  (fr_fetch_semantics req = true → ∀ p, url_port (rq_hop r) = Some p → p ∉ BAD_PORTS).
Proof.
  unfold run_fetch, fetch. destruct (initial_state req ua pm nc) as [st0|e] eqn:Hi.
  2:{ intros Hrun Hr.
      apply (fetch_run_safe _ (λ m, ∃ o, m = MEnded o) (λ _, False)) in Hrun as [_ Hs]; [|..].
      - rewrite Forall_forall in Hs. by apply Hs in Hr.
      - intros m1 s m2 Hstep [o1 ->]. inversion Hstep; subst; eauto.
      - eauto. }
  intros Hrun Hr.
  apply (fetch_run_safe _ _ _ (url_step (fr_fetch_semantics req))) in Hrun as [_ Hs].
  - rewrite Forall_forall in Hs. destruct (Hs r Hr) as ((Hh & Hu & Hp) & Hb).
    split_and!; [|done|done|].
    + unfold is_http in Hh. apply orb_true_iff in Hh as [?%bool_decide_eq_true|?%bool_decide_eq_true]; auto.
    + intros Hf p Hport Hin. specialize (Hb Hf).
      rewrite (proj2 (is_bad_port_spec (rq_hop r))) in Hb; [done|eauto].
  - pose proof Hi as (_ & _ & Hu & _)%initial_state_fresh. unfold initial_state in Hi.
    apply bind_Ok in Hi as (p & Hp & Hi).
    destruct (prepare _ _ _ _ _) as [p'|] eqn:Hprep; [|done]. injection Hp as ->.
    destruct (_ && _) eqn:Hb; [done|]. apply bind_Ok in Hi as (src & _ & Hi).
    apply bind_Ok in Hi as (pn & _ & [= <-]). split; [|by rewrite Hu].
    split; [by eapply prepare_url_clean|]. intros Hf. by rewrite Hf in Hb.
Qed.

(** C16.  Under a set of permissions, every request a fetch sends, redirects
    and resends included, goes to a host and port its net grant admits: those
    of the URL the request's URI was made from, the hop's own or its path at
    the pinned origin.  And every one is for an http or https URL with no
    userinfo left in it, and, under the fetch rules, never for a port on the
    Fetch Standard's list of bad ports. *)

Theorem every_request_allowed `{UrlLaws} `{HeaderOps} (canonical_reason : Z → option (list byte))
    req ua pm perms o es m o' sent st0 r :
  initial_state req ua pm (fetch_net_check perms) = Ok st0 →
  run_fetch canonical_reason req ua pm (fetch_net_check perms) o es = Some (m, o', sent) →
  r ∈ sent →
  let target := target_of (pin st0) (rq_hop r) in
  (to_uri target = Some (rq_uri r) ∧
   check_net_target perms (default [] (url_host_str target))
     (default 0%Z (url_port_or_known_default target)) = Ok tt) ∧
  (url_scheme (rq_hop r) = bs "http" ∨ url_scheme (rq_hop r) = bs "https") ∧
  url_username (rq_hop r) = [] ∧ url_password (rq_hop r) = None ∧
  (fr_fetch_semantics req = true → ∀ p, url_port (rq_hop r) = Some p → p ∉ BAD_PORTS).
Proof.
  intros Hi Hr Hin. split; [by eapply every_request_was_granted|by eapply every_url_is_sound].
Qed.

(** ** A streamed body *)

Section Streamed.
Context `{UrlOps} `{HeaderOps}.

Definition is_channel (b : ReqBody) : bool :=
  match b with
  | channel_body _ => true
  | _ => false
  end.

Definition channels (sent : list Request) : nat :=
  length (filter (λ r, is_channel (rq_body r) = true) sent).

(** A stream still to be sent: in the slot, or in a request handed back. *)

Definition untaken (s : BodySource) : bool :=
  match s with
  | Stream slot => bool_decide (slot_state slot = Untaken)
  | _ => false
  end.

Definition pending_streams (st : LoopState) : nat :=
  (if untaken (source st) then 1 else 0) +
  match unsent st with
  | Some r => if is_channel (rq_body r) then 1 else 0
  | None => 0
  end.

Definition pending_m (m : Machine) : nat :=
  match m with
  | MHop st | MParked st _ _ _ | MSend st _ _ => pending_streams st
  | MEnded _ => 0
  end.

Lemma build_streams s o body s' o' :
  build s o = (Some body, s', o') →
  (if is_channel body then 1 else 0) + (if untaken s' then 1 else 0) ≤ (if untaken s then 1 else 0).
Proof.
  destruct s as [|b|slot]; [by intros [= <- <- _]..|].
  cbn [build]. unfold take. case_decide as Hd; [done|].
  destruct (o !! handle slot) as [[? []]|]; intros [= <- <- _].
  cbn [is_channel untaken set_state slot_state].
  rewrite (bool_decide_true (slot_state slot = Untaken)) by done. done.
Qed.

Lemma next_request_streams st uri hh o r st1 o1 :
  next_request st uri hh o = (Ok r, st1, o1) →
  (if is_channel (rq_body r) then 1 else 0) + pending_streams st1 ≤ pending_streams st.
Proof.
  intros Hr. apply next_request_cases in Hr as [_ [[Hu ->]|(Hu & body & s' & Hb & -> & ->)]].
  - unfold pending_streams. cbn. rewrite Hu. lia.
  - apply build_streams in Hb. unfold pending_streams. cbn. rewrite Hu. lia.
Qed.

Lemma channels_one r : channels [r] = if is_channel (rq_body r) then 1 else 0.
Proof. unfold channels. rewrite filter_cons, filter_nil. by destruct (is_channel _). Qed.

Lemma streams_step m s m' : fstep m s m' → channels s + pending_m m' ≤ pending_m m.
Proof.
  destruct 1 as [m|m o|st w k h|st w k h|st uri hh Hn Hu Hh
    |st uri hh o r st1 o1 ret k h Hr|st uri hh o r st1 o1 out Hr|st uri hh o r st1 o1 e rs Hr He
    |st uri hh o r st1 o1 code loc url m d st2 o2 Hr Hx Hf]; cbn [pending_m];
    try (unfold channels; cbn; lia);
    pose proof (next_request_streams _ _ _ _ _ _ _ Hr) as Hs.
  - apply next_request_cases in Hr as [Hu _]. unfold pending_streams in *.
    rewrite Hu in Hs. cbn. destruct ret; lia.
  - rewrite channels_one. lia.
  - rewrite channels_one. unfold pending_streams in *. cbn. lia.
  - rewrite channels_one. apply next_request_cases in Hr as [Hu _].
    apply follow_eq in Hf as (_ & _ & _ & _ & _ & Hu2 & _ & _ & Hsrc).
    unfold pending_streams in *. rewrite Hu2, Hsrc, Hu in *. destruct (_ || _); cbn; lia.
Qed.

(** In the machine's states, a stream that is not in a request handed back is
    still in its slot, so long as the transport hands such requests back. *)

Definition stream_ready (st : LoopState) : Prop :=
  ∀ slot, source st = Stream slot → unsent st = None → slot_state slot = Untaken.

Definition hands_back (e : Event) : Prop :=
  match e with
  | ESend (NeedsLookup _ _ returned) => returned = true
  | _ => True
  end.

Lemma replayable_ready st : replayable (source st) = true → stream_ready st.
Proof. intros Hr slot Hs. by rewrite Hs in Hr. Qed.

Lemma follow_replayable st code loc url m d o st2 o2 :
  next code (method st) (current st) loc (hops st) (redirect_body st) = Follow url m d →
  follow st url m d o = (st2, o2) → replayable (source st2) = true.
Proof.
  intros (_ & _ & [Hb Hd] & _)%next_Follow (_ & _ & _ & _ & _ & _ & _ & _ & ->)%follow_eq.
  destruct d; [done|]. cbn [orb negb andb]. case_bool_decide as Hu; [done|].
  unfold redirect_body in *. destruct (replayable (source st)); [done|].
  destruct (fetch_rules st); [by discriminate Hd|]. by destruct (iterable_body st).
Qed.

Lemma ready_step canonical_reason m o e m' o' sent :
  let I := m_inv stream_ready (λ _ _ _, True) in
  fetch_step canonical_reason m o e = Some (m', o', sent) → hands_back e → I m → I m'.
Proof.
  cbn [m_inv]. intros Hs He Hm.
  destruct m as [st|st uri hh|st w k h|out], e as [c l p|s|[]| | |o2]; cbn [fetch_step] in Hs;
    try destruct w; try done; try (injection Hs as <- _ _; done).
  - injection Hs as Hs _. destruct (start_hop _ _ _ _ _) as [m1 o1] eqn:E. injection Hs as <- _.
    apply start_hop_fstep in E. by inversion E; subst.
  - destruct Hm as [Hm _]. injection Hs as Hs. unfold one_send in Hs.
    destruct (next_request st uri hh o) as [[[r|t] st1] o1] eqn:Hr;
      [|injection Hs as <- _ _; done].
    destruct s as [| |k h ret|e|resp c]; try (injection Hs as <- _ _; done).
    + injection Hs as <- _ _. cbn in He. rewrite He. by intros slot _.
    + destruct (retry st1 e) eqn:Hre; injection Hs as <- _ _; [|done]. split; [|done].
      apply replayable_ready. unfold retry in Hre. cbn [set_resends source].
      destruct (replayable (source st1)); [done|]. by rewrite !andb_false_r in Hre.
    + destruct (on_response _ st1 resp c o1) as [m1 o3] eqn:Ho. injection Hs as <- _ _.
      apply on_response_cases in Ho as [[out ->]|(url & m & d & st2 & -> & Hn & Hf)]; [done|].
      apply replayable_ready. by eapply follow_replayable.
Qed.

Lemma ready_run canonical_reason es m o m' o' sent :
  let I := m_inv stream_ready (λ _ _ _, True) in
  fetch_run canonical_reason m o es = Some (m', o', sent) → Forall hands_back es → I m → I m'.
Proof.
  intros I Hrun Hes. revert m o sent Hrun. induction Hes as [|e es He _ IH]; intros m o sent.
  { by intros [= <- <- <-]. }
  cbn [fetch_run]. intros ([[m1 o1] s1] & Hs & ([[m2 o2] s2] & Hr & [= <- <- <-])%bind_Some)%bind_Some Hm.
  eapply IH; [done|]. by eapply ready_step.
Qed.

Lemma initial_streams req ua pm nc st :
  initial_state req ua pm nc = Ok st →
  pending_streams st ≤ (match fr_body_stream req with Some _ => 1 | None => 0 end) ∧
  stream_ready st.
Proof.
  intros Hi. pose proof Hi as (_ & _ & Hu & _)%initial_state_fresh. unfold initial_state in Hi.
  apply bind_Ok in Hi as (p & _ & Hi). destruct (_ && _); [done|].
  apply bind_Ok in Hi as (src & Hsrc & Hi). apply bind_Ok in Hi as (pn & _ & [= <-]).
  unfold pending_streams, stream_ready. rewrite Hu. cbn [source]. unfold request_source in Hsrc.
  destruct (fr_body_stream req).
  { injection Hsrc as <-. split; [done|]. by intros slot [= <-]. }
  assert (untaken src = false ∧ ∀ slot, src ≠ Stream slot) as [-> Hne].
  { destruct (fr_body req); [by injection Hsrc as <-|].
    destruct (fr_body_base64 req); [|by injection Hsrc as <-].
    by apply bind_Ok in Hsrc as (? & _ & [= <-]). }
  split; [done|]. intros slot E. by apply Hne in E.
Qed.
End Streamed.

(** A streamed body goes out once: of all the requests of a fetch, at
    most one carries the stream, whatever is redirected, retried, parked and
    resumed, and only if the fetch was given one.  And the loop does not ask
    for it twice: if the transport hands back what it did not send, a send
    that takes the stream finds its slot untaken. *)

Lemma stream_sent_once `{UrlOps} `{HeaderOps} (canonical_reason : Z → option (list byte))
    req ua pm nc o es m o' sent :
  run_fetch canonical_reason req ua pm nc o es = Some (m, o', sent) →
  length (filter (λ r, is_channel (rq_body r) = true) sent) ≤
    match fr_body_stream req with Some _ => 1 | None => 0 end ∧
  (Forall hands_back es →
   ∀ st uri hh slot,
     m = MSend st uri hh → source st = Stream slot → unsent st = None →
     slot_state slot = Untaken).
Proof.
  unfold run_fetch. destruct (fetch req ua pm nc o) as [m0 o0] eqn:Hf. intros Hrun.
  assert (channels sent + pending_m m ≤ pending_m m0) as Hle.
  { eapply (fetch_run_ind canonical_reason (λ m s m', channels s + pending_m m' ≤ pending_m m));
      [done| |apply streams_step|exact Hrun].
    intros m1 s1 m2 s2 m3 _ H1 H2. unfold channels in *. rewrite filter_app, length_app. lia. }
  assert (pending_m m0 ≤ (match fr_body_stream req with Some _ => 1 | None => 0 end) ∧
          m_inv stream_ready (λ _ _ _, True) m0) as [Hp0 Hi0].
  { unfold fetch in Hf. destruct (initial_state _ _ _ _) as [st|] eqn:Hi; injection Hf as <- _.
    - by apply initial_streams in Hi.
    - cbn. split; [lia|done]. }
  unfold channels in Hle. split; [lia|]. intros Hes st uri hh slot ->.
  apply (ready_run _ _ _ _ _ _ _ Hrun Hes) in Hi0 as [Hi0 _]. apply Hi0.
Qed.

(** C14.  What a fetch sends is bounded.  However the servers answer, whatever
    fails, is retried, parks and resumes, it sends at most 84 requests: 21
    hops, each with one send, two HTTP/2 retries and one resend after a stale
    connection; it never counts more than 20 redirects; of all its requests at
    most one carries the streamed body, and only if the fetch was given one;
    and the loop does not ask for the stream twice: if the transport hands back
    what it did not send, a send that takes the stream finds its slot
    untaken. *)

Theorem fetch_sends_bounded `{UrlOps} `{HeaderOps} (canonical_reason : Z → option (list byte))
    req ua pm nc o es m o' sent :
  run_fetch canonical_reason req ua pm nc o es = Some (m, o', sent) →
  (Z.of_nat (length sent) ≤ (MAX_REDIRECTS + 1) * (MAX_H2_RETRIES + 2))%Z ∧
  match m with
  | MHop st | MParked st _ _ _ | MSend st _ _ => (hops st ≤ MAX_REDIRECTS)%Z
  | MEnded _ => True
  end ∧
  length (filter (λ r, is_channel (rq_body r) = true) sent) ≤
    match fr_body_stream req with Some _ => 1 | None => 0 end ∧
  (Forall hands_back es →
   ∀ st uri hh slot,
     m = MSend st uri hh → source st = Stream slot → unsent st = None →
     slot_state slot = Untaken).
Proof.
  intros Hr. destruct (request_bound _ _ _ _ _ _ _ _ _ _ Hr). split_and!; try done; by eapply stream_sent_once.
Qed.

(** ** The headers a request starts with *)

Section Headers.
Context `{HU : UrlOps} `{HL : HeaderLaws}.

(** The script's values for a header, in its order. *)

Definition user_values (hs : list (list byte * list Z)) (n : list byte) : list (list byte) :=
  omap (λ h, if decide (lowercase h.1 = n)
             then latin1_header_value (list byte) header_value_from_bytes h.2 else None) hs.

Definition default_value (user_agent n : list byte) : option (list byte) :=
  if decide (n = ACCEPT) then Some (bs "*/*")
  else if decide (n = USER_AGENT) then Some user_agent
  else if decide (n = ACCEPT_ENCODING) then Some DEFAULT_ACCEPT_ENCODING
  else None.

Definition names (hs : list (list byte * list Z)) (n : list byte) : Prop :=
  Exists (λ h, lowercase h.1 = n) hs.

#[export] Instance names_dec hs n : Decision (names hs n).
Proof. unfold names. apply _. Defined.

Lemma append_headers_get hs h h' n :
  append_headers h hs = Ok h' → get_all h' n = get_all h n ++ user_values hs n.
Proof.
  revert h. induction hs as [|[name value] hs IH]; intros h.
  { intros [= ->]. by rewrite app_nil_r. }
  cbn [append_headers]. intros Ha. apply bind_Ok in Ha as (name' & Hn & Ha).
  apply bind_Ok in Ha as (value' & Hv & Ha). apply bind_Ok in Ha as (h1 & Hh & Ha).
  destruct (header_name_from_bytes name) as [nm|] eqn:En; [|done]. injection Hn as ->.
  destruct (latin1_header_value _ _ value) as [v|] eqn:Ev; [|done]. injection Hv as ->.
  destruct (try_append h name' value') as [h2|] eqn:Et; [|done]. injection Hh as ->.
  rewrite (IH _ Ha), (get_append _ _ _ _ _ Et), (header_name_lowercases _ _ En).
  unfold user_values. cbn [omap list_omap fst snd]. rewrite Ev.
  case_decide as Hd; [|done]. by rewrite <-app_assoc.
Qed.

Lemma user_values_nil hs n : ¬ names hs n → user_values hs n = [].
Proof.
  induction hs as [|h hs IH]; [done|]. unfold names, user_values in *. rewrite Exists_cons.
  intros Hn. cbn [omap list_omap]. rewrite decide_False by tauto. apply IH. tauto.
Qed.

Lemma add_default_get h n v h' m :
  add_default h n v = Ok h' →
  get_all h' m = if decide (m = n ∧ get_all h n = []) then [v] else get_all h m.
Proof.
  unfold add_default. case_bool_decide as He.
  - destruct (try_insert h n v) as [h1|] eqn:Ei; intros [= <-].
    rewrite (get_try_insert _ _ _ _ _ Ei). repeat case_decide; naive_solver.
  - intros [= <-]. rewrite decide_False; naive_solver.
Qed.

Lemma existsb_names hs n :
  lowercase n = n → existsb (λ h, eq_ignore_ascii_case h.1 n) hs = bool_decide (names hs n).
Proof.
  intros Hl. apply eq_true_iff_eq. rewrite bool_decide_eq_true, existsb_exists.
  unfold names. rewrite Exists_exists. unfold eq_ignore_ascii_case. rewrite Hl.
  setoid_rewrite bool_decide_eq_true. by setoid_rewrite list_elem_of_In.
Qed.

Lemma basic_get basic hs h n :
  match basic with
  | Some basic =>
      if existsb (λ h, eq_ignore_ascii_case h.1 AUTHORIZATION) hs
      then Ok hm_empty
      else ok_or (try_append hm_empty AUTHORIZATION basic) TooManyHeaders
  | None => Ok hm_empty
  end = Ok h →
  get_all h n = if decide (n = AUTHORIZATION ∧ ¬ names hs n) then option_list basic else [].
Proof.
  rewrite existsb_names by reflexivity. destruct basic as [b|].
  - case_bool_decide as Hn.
    + intros [= <-]. rewrite get_empty, decide_False; naive_solver.
    + destruct (try_append _ _ _) as [h1|] eqn:Et; intros [= <-].
      rewrite (get_append _ _ _ _ _ Et), get_empty.
      repeat case_decide; naive_solver.
  - intros [= <-]. rewrite get_empty. by case_decide.
Qed.

Lemma defaults_get (defaults : bool) h user_agent h' n :
  (if defaults then
     headers ← add_default h ACCEPT (bs "*/*");
     headers ← add_default headers USER_AGENT user_agent;
     add_default headers ACCEPT_ENCODING DEFAULT_ACCEPT_ENCODING
   else Ok h) = Ok h' →
  get_all h' n = if decide (get_all h n = [] ∧ defaults = true)
                 then option_list (default_value user_agent n) else get_all h n.
Proof.
  destruct defaults; cycle 1.
  { intros [= <-]. rewrite decide_False; [done|naive_solver]. }
  intros Ha. apply bind_Ok in Ha as (h1 & H1 & Ha). apply bind_Ok in Ha as (h2 & H2 & H3).
  rewrite (add_default_get _ _ _ _ _ H3), !(add_default_get _ _ _ _ _ H2), !(add_default_get _ _ _ _ _ H1).
  unfold default_value.
  rewrite !(decide_False (P := ACCEPT_ENCODING = _ ∧ _)) by (intros [? _]; discriminate).
  rewrite !(decide_False (P := USER_AGENT = _ ∧ _)) by (intros [? _]; discriminate).
  destruct (decide (n = ACCEPT)) as [->|Ha]; [|destruct (decide (n = USER_AGENT)) as [->|Hu];
    [|destruct (decide (n = ACCEPT_ENCODING)) as [->|He]]];
    repeat case_decide; naive_solver.
Qed.
End Headers.

(** C17.  The headers of a prepared request, name by name: the script's values
    in its order, one per field it gave; before them, for [authorization] only
    and only if the script gave none, the credential in the URL; and if there
    is none at all, the default of [accept], [user-agent] and
    [accept-encoding]. *)

Theorem prepared_headers `{UrlOps} `{HeaderLaws} raw m hs defaults user_agent p url n :
  prepare raw m hs defaults user_agent = Ok p →
  parse_url raw = Some url →
  let given := user_values hs n in
  let own :=
    if decide (n = AUTHORIZATION ∧ ¬ names hs n) then option_list (snd (take_userinfo url))
    else given in
  get_all (p_headers p) n =
    if decide (own = [] ∧ defaults = true) then option_list (default_value user_agent n) else own.
Proof.
  intros Hp Hurl given own. unfold prepare in Hp. apply bind_Ok in Hp as (m' & _ & Hp).
  rewrite Hurl in Hp. cbn [ok_or mbind result_bind] in Hp.
  destruct (take_userinfo url) as [url' basic] eqn:Hu.
  apply bind_Ok in Hp as (h1 & Hb & Hp). apply bind_Ok in Hp as (h2 & Ha & Hp).
  apply bind_Ok in Hp as (h3 & Hd & [= <-]). cbn [p_headers snd] in *.
  rewrite (defaults_get _ _ _ _ _ Hd).
  assert (get_all h2 n = own) as ->; [|done].
  rewrite (append_headers_get _ _ _ _ Ha), (basic_get _ _ _ _ Hb). subst own given.
  case_decide as Hn; [|done]. rewrite user_values_nil by tauto. by rewrite app_nil_r.
Qed.

(** ** An instance

    Three known URLs and a header map that is a list of fields. *)

Module Toy.

Record ToyUrl : Type := {
  t_scheme : list byte; t_host : list byte; t_port : option Z; t_user : list byte;
  t_pass : option (list byte); t_frag : option (list byte)
}.

Definition toy_url (host : list byte) (user : list byte) : ToyUrl :=
  {| t_scheme := bs "http"; t_host := host; t_port := None; t_user := user;
     t_pass := None; t_frag := None |}.

Definition known : list (list byte * ToyUrl) :=
  [(bs "http://a/", toy_url (bs "a") []); (bs "http://b/", toy_url (bs "b") []);
   (bs "http://me@a/", toy_url (bs "a") (bs "me"))].

Definition toy_parse (raw : list byte) : option ToyUrl :=
  snd <$> List.find (λ e, bool_decide (e.1 = raw)) known.

#[export] Instance ToyUrlOps : UrlOps := {|
  Url := ToyUrl; Host := list byte; url_parse := toy_parse; url_join := λ _ raw, toy_parse raw;
  url_scheme := t_scheme; url_host := λ u, Some (t_host u); url_host_str := λ u, Some (t_host u);
  url_port := t_port;
  url_port_or_known_default := λ u, Some (default 80%Z (t_port u));
  url_username := t_user; url_password := t_pass; url_fragment := t_frag;
  url_set_fragment := λ u f,
    {| t_scheme := t_scheme u; t_host := t_host u; t_port := t_port u; t_user := t_user u;
       t_pass := t_pass u; t_frag := f |};
  url_set_username := λ u n,
    {| t_scheme := t_scheme u; t_host := t_host u; t_port := t_port u; t_user := n;
       t_pass := t_pass u; t_frag := t_frag u |};
  url_set_password := λ u p,
    {| t_scheme := t_scheme u; t_host := t_host u; t_port := t_port u; t_user := t_user u;
       t_pass := match p with Some [] => None | _ => p end; t_frag := t_frag u |};
  url_set_scheme := λ u _, u; url_set_host := λ u _, u; url_set_port := λ u _, u;
  url_until_username := λ u, t_scheme u ++ bs "://"; url_host_to_query := t_host;
  Uri := list byte; uri_try_from := Some; uri_host := Some
|}.

#[export] Instance ToyUrlLaws : UrlLaws.
Proof. by split. Qed.

Definition toy_remove (h : list (list byte * list byte)) (n : list byte) :=
  filter (λ f : list byte * list byte, f.1 ≠ n) h.

#[export] Instance ToyHeaderOps : HeaderOps := {|
  HeaderMap := list (list byte * list byte); hm_empty := []; hm_iter := id;
  get_all := λ h n, snd <$> filter (λ f : list byte * list byte, f.1 = n) h;
  hm_remove := toy_remove; hm_insert := λ h n v, toy_remove h n ++ [(n, v)];
  try_insert := λ h n v, Some (toy_remove h n ++ [(n, v)]);
  try_append := λ h n v, Some (h ++ [(n, v)]);
  method_from_bytes := Some; header_name_from_bytes := λ n, Some (lowercase n);
  header_value_from_bytes := Some; percent_decode_utf8 := Some;
  base64_encode := id; base64_decode := Some
|}.

Lemma toy_get_remove (h : list (list byte * list byte)) n m :
  get_all (toy_remove h n) m = if decide (n = m) then [] else get_all h m.
Proof.
  cbn. unfold toy_remove. rewrite list_filter_filter.
  case_decide as Hd; [subst|].
  - induction h as [|[k v] h IH]; [done|]. rewrite filter_cons. rewrite decide_False; [done|cbn; tauto].
  - f_equal. apply list_filter_iff. intros [k v]. cbn. naive_solver.
Qed.

Lemma toy_get_app (h : list (list byte * list byte)) n v m :
  get_all (h ++ [(n, v)]) m = get_all h m ++ (if decide (n = m) then [v] else []).
Proof.
  cbn. rewrite filter_app, fmap_app. f_equal. rewrite filter_cons, filter_nil. cbn.
  by repeat case_decide.
Qed.

#[export] Instance ToyHeaderLaws : HeaderLaws.
Proof.
  split.
  - done.
  - apply toy_get_remove.
  - intros h n v m. cbn [hm_insert ToyHeaderOps]. rewrite toy_get_app, toy_get_remove.
    by case_decide; [|rewrite app_nil_r].
  - intros h n v h' m [= <-]. rewrite toy_get_app, toy_get_remove.
    by case_decide; [|rewrite app_nil_r].
  - intros h n v h' m [= <-]. rewrite toy_get_app. by case_decide; [|rewrite app_nil_r].
  - by intros n m [= <-].
Qed.

(** A fetch of [http://me@a/] with a streamed body, sent to [b] and back by a
    303 and a 302. *)

Definition request : FetchRequest :=
  {| fr_url := bs "http://me@a/"; fr_method := Some POST; fr_headers := []; fr_body := None;
     fr_body_base64 := None; fr_body_stream := Some 7%Z; fr_default_headers := true;
     fr_fetch_semantics := true; fr_dispatch_semantics := false; fr_pin_origin := None;
     fr_redirect := MFollow; fr_max_header_size := None; fr_iterable_body := false |}.

Definition answer (status : Z) (to : list byte) : Event :=
  ESend (Answered {| status := status; headers := [(bs "location", to)]; is_http2 := false;
                     reason := None |} false).

Definition go : Event := EHop None None None.

Definition events : list Event :=
  [go; answer 303 (bs "http://b/"); go; answer 302 (bs "http://a/"); go; answer 200 []].

Definition no : BoolOrList := BBool false.

Definition perms : Permissions :=
  from_opts None (Some {| o_read := no; o_write := no; o_net := BList [bs "a"; bs "b:80"];
                          o_env := no; o_ffi := no; o_child := no; o_worker := no |}).

Definition run (nc : option (list byte → Z → verdict)) : option (Machine * Outbound * list Request) :=
  run_fetch (λ _, None) request (bs "oam") 16384 nc {[7%Z := (true, true)]} events.
End Toy.

#[local] Existing Instances Toy.ToyUrlOps Toy.ToyUrlLaws Toy.ToyHeaderOps Toy.ToyHeaderLaws.

(** The run, seen through a boolean test that evaluates it. *)

Lemma toy_run_shape nc (test : LoopState → Request → Request → Request → bool) :
  match initial_state Toy.request (bs "oam") 16384 nc, Toy.run nc with
  | Ok st0, Some (_, _, [r1; r2; r3]) => test st0 r1 r2 r3
  | _, _ => false
  end = true →
  ∃ st0 m o r1 r2 r3,
    initial_state Toy.request (bs "oam") 16384 nc = Ok st0 ∧
    Toy.run nc = Some (m, o, [r1; r2; r3]) ∧ test st0 r1 r2 r3 = true.
Proof.
  destruct (initial_state _ _ _ _) as [st0|]; [|done].
  destruct (Toy.run nc) as [[[m o] [|r1 [|r2 [|r3 [|]]]]]|]; try done. eauto 10.
Qed.

Lemma fetch_sends_bounded_witness :
  ∃ m o r1 r2 r3, Toy.run None = Some (m, o, [r1; r2; r3]) ∧
    is_channel (rq_body r1) = true ∧
    length (filter (λ r, is_channel (rq_body r) = true) [r1; r2; r3]) ≤ 1.
Proof.
  destruct (toy_run_shape None (λ _ r1 _ _, is_channel (rq_body r1)))
    as (st0 & m & o & r1 & r2 & r3 & _ & Hr & Ht); [vm_compute; reflexivity|].
  exists m, o, r1, r2, r3. split; [exact Hr|]. split; [exact Ht|].
  destruct (fetch_sends_bounded (λ _, None) Toy.request (bs "oam") 16384 None
              {[7%Z := (true, true)]} Toy.events m o [r1; r2; r3] Hr) as (_ & _ & Hs & _).
  exact Hs.
Defined.

Lemma credentials_stay_home_witness :
  ∃ m o r1 r2 r3, Toy.run None = Some (m, o, [r1; r2; r3]) ∧
    get_all (rq_headers r1) AUTHORIZATION = [bs "Basic me:"] ∧
    url_host (rq_hop r3) = url_host (rq_hop r1) ∧
    get_all (rq_headers r3) AUTHORIZATION = [].
Proof.
  destruct (toy_run_shape None (λ st0 r1 r2 r3,
      bool_decide (get_all (rq_headers r1) AUTHORIZATION = [bs "Basic me:"]) &&
      bool_decide (url_host (rq_hop r3) = url_host (rq_hop r1)) &&
      negb (origin_eq (current st0) (rq_hop r2))))
    as (st0 & m & o & r1 & r2 & r3 & Hi & Hr & Ht); [vm_compute; reflexivity|].
  apply andb_true_iff in Ht as [[H1 H2]%andb_true_iff H3].
  apply bool_decide_eq_true in H1, H2. apply negb_true_iff in H3.
  exists m, o, r1, r2, r3. split; [exact Hr|]. split; [exact H1|]. split; [exact H2|].
  apply (credentials_stay_home (λ _, None) Toy.request (bs "oam") 16384 None
           {[7%Z := (true, true)]} Toy.events m o [r1] r2 [r3] st0 r3 AUTHORIZATION Hi Hr H3).
  - right. left.
  - left.
Defined.

Lemma every_request_allowed_witness :
  ∃ m o r1 r2 r3, Toy.run (fetch_net_check Toy.perms) = Some (m, o, [r1; r2; r3]) ∧
    url_host_str (rq_hop r2) = Some (bs "b") ∧
    check_net_target Toy.perms (bs "b") 80 = Ok tt.
Proof.
  destruct (toy_run_shape (fetch_net_check Toy.perms) (λ st0 r1 r2 r3,
      bool_decide (url_host_str (rq_hop r2) = Some (bs "b")) &&
      bool_decide (url_port_or_known_default (rq_hop r2) = Some 80%Z) &&
      match pin st0 with None => true | Some _ => false end))
    as (st0 & m & o & r1 & r2 & r3 & Hi & Hr & Ht); [vm_compute; reflexivity|].
  apply andb_true_iff in Ht as [[H1 H2]%andb_true_iff H3].
  apply bool_decide_eq_true in H1, H2. destruct (pin st0) eqn:Hp; [discriminate|].
  exists m, o, r1, r2, r3. split; [exact Hr|]. split; [exact H1|].
  pose proof (every_request_allowed (λ _, None) Toy.request (bs "oam") 16384 Toy.perms
    {[7%Z := (true, true)]} Toy.events m o [r1; r2; r3] st0 r2 Hi Hr ltac:(right; left)) as [[_ Hg] _].
  rewrite Hp in Hg. cbn [target_of] in Hg. rewrite H1, H2 in Hg. exact Hg.
Defined.

Lemma prepared_headers_witness :
  ∃ p, prepare (bs "http://me@a/") POST [(bs "Accept", [42])%Z] true (bs "oam") = Ok p ∧
    get_all (p_headers p) ACCEPT = [bs "*"].
Proof.
  destruct (prepare (bs "http://me@a/") POST [(bs "Accept", [42])%Z] true (bs "oam"))
    as [p|e] eqn:Hp.
  2:{ exfalso. assert (is_ok (prepare (bs "http://me@a/") POST [(bs "Accept", [42])%Z] true (bs "oam"))
        = true) as Hok by (vm_compute; reflexivity). rewrite Hp in Hok. discriminate. }
  exists p. split; [reflexivity|].
  exact (prepared_headers (bs "http://me@a/") POST [(bs "Accept", [42])%Z] true (bs "oam")
           p (Toy.toy_url (bs "a") (bs "me")) ACCEPT Hp eq_refl).
Defined.
