(* ===== verification/Decode.v ===== *)
(** * Decode: [oam_core/src/http_client/decode.rs]

    The body of a fetch's response: [plan] chooses the content codings from
    the headers, and [Decoder] undoes them, a chunk at a time.

    A stage's [Window] is the bytes between its [start] and its [end]; its
    buffer is [OUT_CAP] long.  An index out of range, a subtraction below zero
    and a false [debug_assert] are panics, and [None] in [pull] that or too
    little fuel.  Deflate is [Inflate]'s [Inflater]; the
    brotli and zstd decoders are other crates, the classes [Brotli] and
    [Zstd]. *)

From S2P Require Import Prelude RustStd Inflate.

(** ** The crates underneath *)

Inductive BrotliResult : Type :=
| ResultFailure
| ResultSuccess
| BNeedsMoreInput
| BNeedsMoreOutput.

(** [BrotliDecompressStream]: the result, the bytes read, the bytes written to
    an output of the given length, and the state after; and the name and value
    of the [error_code] a state holds. *)

Class Brotli : Type := {
  BrotliState : Type;
  brotli_new : BrotliState;
  brotli_decompress : BrotliState → list byte → nat → BrotliResult * nat * list byte * BrotliState;
  brotli_error : BrotliState → list byte * Z
}.

(** [decompress_stream]: libzstd's return code, the bytes read and written. *)

Class Zstd : Type := {
  DCtx : Type;
  dctx_create : DCtx;
  decompress_stream : DCtx → list byte → nat → result Z Z * nat * list byte * DCtx;
  get_error_name : Z → list byte
}.

(** ** The plan *)

Definition MAX_CODINGS : nat := 5.
Definition OUT_CAP : nat := Z.to_nat 16384.

Inductive Coding : Type := Gzip | Deflate | Br | Zst.

#[global] Instance Coding_eq_dec : EqDecision Coding.
Proof. solve_decision. Defined.

Inductive Plan : Type :=
| Identity
| Decode (codings : list Coding)
| TooMany (n : nat).

Definition js_ws (b : byte) : bool :=
  in_range 9 13 b || bool_decide (b = x20) || bool_decide (b = xa0).

Fixpoint trim_js_start (l : list byte) : list byte :=
  match l with
  | c :: l' => if js_ws c then trim_js_start l' else l
  | [] => []
  end.

Definition trim_js_whitespace (s : list byte) : list byte :=
  reverse (trim_js_start (reverse (trim_js_start s))).

Definition coding_of (zstd : bool) (token : list byte) : option Coding :=
  let token := trim_js_whitespace token in
  if eq_ignore_ascii_case token (bs "gzip") || eq_ignore_ascii_case token (bs "x-gzip") then Some Gzip
  else if eq_ignore_ascii_case token (bs "deflate") then Some Deflate
  else if eq_ignore_ascii_case token (bs "br") then Some Br
  else if zstd && eq_ignore_ascii_case token (bs "zstd") then Some Zst
  else None.

Definition plan (method : list byte) (status : Z) (encodings : list (list byte)) (zstd : bool) : Plan :=
  if bool_decide (method = bs "HEAD") || bool_decide (method = bs "CONNECT")
     || bool_decide (status ∈ [101; 204; 205; 304]%Z) then Identity
  else
    let joined := join (bs ", ") encodings in
    if decide (joined = []) then Identity
    else
      let tokens := split_on ","%byte joined in
      if decide (MAX_CODINGS < length tokens) then TooMany (length tokens)
      else match mapM (coding_of zstd) tokens with
           | Some codings => Decode codings
           | None => Identity
           end.

(** ** Errors *)

Record DecodeError : Type := {
  dmessage : list byte;
  node : option (list byte * Z)
}.

Definition zlib_error (message : string) : DecodeError :=
  {| dmessage := bs message; node := Some (bs "Z_DATA_ERROR", (-3)%Z) |}.

Definition strip_decoder (name : list byte) : list byte :=
  default name (strip_pre (bs "BROTLI_DECODER") name).

Definition brotli_failure (e : list byte * Z) : DecodeError :=
  {| dmessage := bs "Decompression failed"; node := Some (bs "ERR_" ++ strip_decoder e.1, e.2) |}.

Definition internal_error (message : string) : DecodeError :=
  {| dmessage := bs message; node := None |}.

Definition node_code (e : DecodeError) : option (list byte * Z) := node e.

(** [0usize.wrapping_sub(code) as i32], and node's name for it. *)

Definition error_errno (code : Z) : Z :=
  let low := wrap_u 32 (- code) in if (low <? 2 ^ 31)%Z then low else (low - 2 ^ 32)%Z.

Definition zstd_names : list (Z * string) :=
  [(0, "ZSTD_error_no_error"); (10, "ZSTD_error_prefix_unknown");
   (12, "ZSTD_error_version_unsupported"); (14, "ZSTD_error_frameParameter_unsupported");
   (16, "ZSTD_error_frameParameter_windowTooLarge"); (20, "ZSTD_error_corruption_detected");
   (22, "ZSTD_error_checksum_wrong"); (24, "ZSTD_error_literals_headerWrong");
   (30, "ZSTD_error_dictionary_corrupted"); (32, "ZSTD_error_dictionary_wrong");
   (34, "ZSTD_error_dictionaryCreation_failed"); (40, "ZSTD_error_parameter_unsupported");
   (41, "ZSTD_error_parameter_combination_unsupported");
   (42, "ZSTD_error_parameter_outOfBound"); (44, "ZSTD_error_tableLog_tooLarge");
   (46, "ZSTD_error_maxSymbolValue_tooLarge"); (48, "ZSTD_error_maxSymbolValue_tooSmall");
   (50, "ZSTD_error_stabilityCondition_notRespected"); (60, "ZSTD_error_stage_wrong");
   (62, "ZSTD_error_init_missing"); (64, "ZSTD_error_memory_allocation");
   (66, "ZSTD_error_workSpace_tooSmall"); (70, "ZSTD_error_dstSize_tooSmall");
   (72, "ZSTD_error_srcSize_wrong"); (74, "ZSTD_error_dstBuffer_null");
   (80, "ZSTD_error_noForwardProgress_destFull");
   (82, "ZSTD_error_noForwardProgress_inputEmpty")]%Z%string.

Definition error_name (errno : Z) : list byte :=
  match list_find (λ e, e.1 = errno) zstd_names with
  | Some (_, (_, name)) => bs name
  | None => bs "ZSTD_error_GENERIC"
  end.

(** ** Gzip

    Framed here as zlib's inflate.c does, over raw inflate. *)

Definition FTEXT_RESERVED : Z := 224.
Definition FHCRC : Z := 2.
Definition FEXTRA : Z := 4.
Definition FNAME : Z := 8.
Definition FCOMMENT : Z := 16.

Inductive Gz : Type :=
| Id1
| Id2
| Cm
| Flg
| Fixed (n : nat)
| XlenLo
| XlenHi
| Extra (n : Z)
| Name
| Comment
| HcrcLo
| HcrcHi
| GBody
| Trailer (n : nat)
| GBetween
| Ignore.

#[global] Instance Gz_eq_dec : EqDecision Gz.
Proof. solve_decision. Defined.

(** A failure, or a panic. *)

Inductive DFault : Type :=
| DErr (e : DecodeError)
| DPanic.

Section Stages.
Context `{HM : Miniz, HC : Checksums, HB : Brotli, HZ : Zstd}.

Definition zstd_failure (code : Z) : DecodeError :=
  {| dmessage := get_error_name code;
     node := Some (error_name (error_errno code), error_errno code) |}.

Definition inflate_error (e : InflateFailure) : DecodeError :=
  match e with
  | DataCheck => zlib_error "incorrect data check"
  | TooFarBack => zlib_error "invalid distance too far back"
  | InvalidData => zlib_error "invalid deflate data"
  end.

(** [Inflater::step], into [OUT_CAP] bytes. *)

Definition dstep (i : Inflater) (src : list byte) : Inflater * result DFault (nat * list byte * bool) :=
  let '(i, r) := Inflater_step i src (min OUT_CAP OUT_CAP) in
  (i, match r with
      | Ok x => Ok x
      | Err e => Err (DErr (inflate_error e))
      end).

Record GzipStage : Type := {
  gz_at : Gz;
  gz_inflate : Inflater;
  gz_crc : Crc;
  gz_header_crc : Crc;
  gz_held : byte;
  gz_flags : byte;
  gz_xlen : Z;
  gz_trailer : list byte
}.

Definition GzipStage_new : GzipStage :=
  {| gz_at := Id1; gz_inflate := Inflater_new false; gz_crc := crc_new; gz_header_crc := crc_new;
     gz_held := x00; gz_flags := x00; gz_xlen := 0; gz_trailer := replicate 8 x00 |}.

Definition gz_goto (a : Gz) (s : GzipStage) : GzipStage :=
  {| gz_at := a; gz_inflate := gz_inflate s; gz_crc := gz_crc s; gz_header_crc := gz_header_crc s;
     gz_held := gz_held s; gz_flags := gz_flags s; gz_xlen := gz_xlen s; gz_trailer := gz_trailer s |}.

Definition gz_sum (c : Crc) (s : GzipStage) : GzipStage :=
  {| gz_at := gz_at s; gz_inflate := gz_inflate s; gz_crc := gz_crc s; gz_header_crc := c;
     gz_held := gz_held s; gz_flags := gz_flags s; gz_xlen := gz_xlen s; gz_trailer := gz_trailer s |}.

Definition gz_hold (b : byte) (s : GzipStage) : GzipStage :=
  {| gz_at := gz_at s; gz_inflate := gz_inflate s; gz_crc := gz_crc s; gz_header_crc := gz_header_crc s;
     gz_held := b; gz_flags := gz_flags s; gz_xlen := gz_xlen s; gz_trailer := gz_trailer s |}.

Definition gz_flag (b : byte) (s : GzipStage) : GzipStage :=
  {| gz_at := gz_at s; gz_inflate := gz_inflate s; gz_crc := gz_crc s; gz_header_crc := gz_header_crc s;
     gz_held := gz_held s; gz_flags := b; gz_xlen := gz_xlen s; gz_trailer := gz_trailer s |}.

Definition gz_len (n : Z) (s : GzipStage) : GzipStage :=
  {| gz_at := gz_at s; gz_inflate := gz_inflate s; gz_crc := gz_crc s; gz_header_crc := gz_header_crc s;
     gz_held := gz_held s; gz_flags := gz_flags s; gz_xlen := n; gz_trailer := gz_trailer s |}.

Definition gz_put (t : list byte) (s : GzipStage) : GzipStage :=
  {| gz_at := gz_at s; gz_inflate := gz_inflate s; gz_crc := gz_crc s; gz_header_crc := gz_header_crc s;
     gz_held := gz_held s; gz_flags := gz_flags s; gz_xlen := gz_xlen s; gz_trailer := t |}.

Definition gz_feed (i : Inflater) (out : list byte) (s : GzipStage) : GzipStage :=
  {| gz_at := gz_at s; gz_inflate := i; gz_crc := crc_update (gz_crc s) out;
     gz_header_crc := gz_header_crc s; gz_held := gz_held s; gz_flags := gz_flags s;
     gz_xlen := gz_xlen s; gz_trailer := gz_trailer s |}.

(** A step that fails leaves the inflater, and feeds nothing. *)

Definition gz_spent (i : Inflater) (s : GzipStage) : GzipStage :=
  {| gz_at := gz_at s; gz_inflate := i; gz_crc := gz_crc s; gz_header_crc := gz_header_crc s;
     gz_held := gz_held s; gz_flags := gz_flags s; gz_xlen := gz_xlen s; gz_trailer := gz_trailer s |}.

Definition next_member (s : GzipStage) : GzipStage :=
  {| gz_at := Id1; gz_inflate := Inflater_reset (gz_inflate s); gz_crc := crc_new;
     gz_header_crc := crc_new; gz_held := gz_held s; gz_flags := gz_flags s; gz_xlen := gz_xlen s;
     gz_trailer := gz_trailer s |}.

Definition gz_after_comment (s : GzipStage) : Gz := if has_flag (gz_flags s) FHCRC then HcrcLo else GBody.

Definition gz_after_name (s : GzipStage) : Gz :=
  if has_flag (gz_flags s) FCOMMENT then Comment else gz_after_comment s.

Definition gz_after_extra (s : GzipStage) : Gz :=
  if has_flag (gz_flags s) FNAME then Name else gz_after_name s.

(** [byte]: one header or trailer byte. *)

Definition sums_header (a : Gz) : bool :=
  match a with
  | HcrcLo | HcrcHi | Trailer _ => false
  | _ => true
  end.

Definition gz_go (s : GzipStage) (a : Gz) : GzipStage * result DFault unit := (gz_goto a s, Ok tt).

Definition gz_fail (s : GzipStage) (message : string) : GzipStage * result DFault unit :=
  (s, Err (DErr (zlib_error message))).

Definition gz_trailer_byte (s : GzipStage) (n : nat) (b : byte) : GzipStage * result DFault unit :=
  if decide (n < length (gz_trailer s)) then
    let s := gz_put (<[n := b]> (gz_trailer s)) s in
    if decide (n + 1 = 4) then
      if negb (from_le_bytes (take 4 (gz_trailer s)) =? crc_sum (gz_crc s))%Z
      then gz_fail s "incorrect data check"
      else gz_go s (Trailer 4)
    else if decide (n + 1 = 8) then
      if negb (from_le_bytes (drop 4 (gz_trailer s)) =? crc_amount (gz_crc s))%Z
      then gz_fail s "incorrect length check"
      else gz_go s GBetween
    else gz_go s (Trailer (n + 1))
  else (s, Err DPanic).

Definition gz_byte (s : GzipStage) (b : byte) : GzipStage * result DFault unit :=
  let s := if sums_header (gz_at s) then gz_sum (crc_update (gz_header_crc s) [b]) s else s in
  match gz_at s with
  | Id1 => gz_go (gz_hold b s) Id2
  | Id2 =>
      if negb (bool_decide (gz_held s = x1f)) || negb (bool_decide (b = x8b))
      then gz_fail s "incorrect header check"
      else gz_go s Cm
  | Cm => gz_go (gz_hold b s) Flg
  | Flg =>
      if negb (bool_decide (gz_held s = x08)) then gz_fail s "unknown compression method"
      else if has_flag b FTEXT_RESERVED then gz_fail s "unknown header flags set"
      else gz_go (gz_flag b s) (Fixed 6)
  | Fixed n =>
      if decide (1 < n) then gz_go s (Fixed (n - 1))
      else if has_flag (gz_flags s) FEXTRA then gz_go s XlenLo
      else gz_go s (gz_after_extra s)
  | XlenLo => gz_go (gz_len (b2z b) s) XlenHi
  | XlenHi =>
      let s := gz_len (Z.lor (gz_xlen s) (Z.shiftl (b2z b) 8)) s in
      if (gz_xlen s =? 0)%Z then gz_go s (gz_after_extra s) else gz_go s (Extra (gz_xlen s))
  | Extra n => if (1 <? n)%Z then gz_go s (Extra (n - 1)) else gz_go s (gz_after_extra s)
  | Name => if decide (b = x00) then gz_go s (gz_after_name s) else gz_go s Name
  | Comment => if decide (b = x00) then gz_go s (gz_after_comment s) else gz_go s Comment
  | HcrcLo => gz_go (gz_hold b s) HcrcHi
  | HcrcHi =>
      if negb (from_le_bytes [gz_held s; b] =? Z.land (crc_sum (gz_header_crc s)) 65535)%Z
      then gz_fail s "header crc mismatch"
      else gz_go s GBody
  | Trailer n => gz_trailer_byte s n b
  | GBody | GBetween | Ignore => (s, Err DPanic)
  end.

(** One turn of [run]'s loop. *)

Inductive GTurn : Type :=
| GReturn (r : result DFault (nat * list byte))
| GAgain (consumed : nat).

Definition gz_turn (s : GzipStage) (src : list byte) (consumed : nat) : GzipStage * GTurn :=
  match gz_at s with
  | Ignore => (s, GReturn (Ok (length src, [])))
  | GBody =>
      let '(i, r) := dstep (gz_inflate s) (drop consumed src) in
      match r with
      | Err e => (gz_spent i s, GReturn (Err e))
      | Ok (used, out, ended) =>
          let s := gz_feed i out s in
          let s := if (ended : bool) then gz_goto (Trailer 0) s else s in
          if bool_decide (0 < length out) || negb ended
          then (s, GReturn (Ok (consumed + used, out)))
          else (s, GAgain (consumed + used))
      end
  | GBetween =>
      match src !! consumed with
      | None => (s, GReturn (Ok (consumed, [])))
      | Some b => (if decide (b = x00) then gz_goto Ignore s else next_member s, GAgain consumed)
      end
  | _ =>
      match src !! consumed with
      | None => (s, GReturn (Ok (consumed, [])))
      | Some b =>
          match gz_byte s b with
          | (s, Ok _) => (s, GAgain (S consumed))
          | (s, Err e) => (s, GReturn (Err e))
          end
      end
  end.

Fixpoint gz_loop (fuel : nat) (s : GzipStage) (src : list byte) (consumed : nat)
  : GzipStage * option (result DFault (nat * list byte)) :=
  match fuel with
  | O => (s, None)
  | S fuel =>
      match gz_turn s src consumed with
      | (s, GReturn r) => (s, Some r)
      | (s, GAgain consumed) => gz_loop fuel s src consumed
      end
  end.

Definition GzipStage_run (s : GzipStage) (src : list byte)
  : GzipStage * option (result DFault (nat * list byte)) :=
  gz_loop (3 * length src + 3) s src 0.

(** ** Deflate *)

Inductive DeflateStage : Type :=
| Detect
| DInflate (i : Inflater)
| DDone
| DOverrun.

Definition DeflateStage_run (s : DeflateStage) (src : list byte)
  : DeflateStage * result DFault (nat * list byte) :=
  let s :=
    match s, src with
    | Detect, first :: _ => DInflate (Inflater_new (Z.land (b2z first) 15 =? 8)%Z)
    | s, _ => s
    end in
  match s with
  | Detect => (s, Ok (0, []))
  | DInflate i =>
      let '(i, r) := dstep i src in
      match r with
      | Err e => (DInflate i, Err e)
      | Ok (used, out, ended) => (if (ended : bool) then DDone else DInflate i, Ok (used, out))
      end
  | _ => (match src with [] => s | _ => DOverrun end, Ok (length src, []))
  end.

(** ** Brotli *)

Record BrotliStage : Type := {
  br_state : BrotliState;
  br_done : bool;
  br_overrun : bool
}.

Definition BrotliStage_new : BrotliStage :=
  {| br_state := brotli_new; br_done := false; br_overrun := false |}.

Definition BrotliStage_run (s : BrotliStage) (src : list byte)
  : BrotliStage * result DFault (nat * list byte) :=
  if br_done s then
    ({| br_state := br_state s; br_done := true;
        br_overrun := br_overrun s || negb (bool_decide (src = [])) |}, Ok (length src, []))
  else
    let '(result, read, out, state) := brotli_decompress (br_state s) src OUT_CAP in
    match result with
    | ResultFailure =>
        ({| br_state := state; br_done := br_done s; br_overrun := br_overrun s |},
         Err (DErr (brotli_failure (brotli_error state))))
    | ResultSuccess =>
        ({| br_state := state; br_done := true; br_overrun := bool_decide (read < length src) |},
         Ok (length src, out))
    | BNeedsMoreInput | BNeedsMoreOutput =>
        ({| br_state := state; br_done := br_done s; br_overrun := br_overrun s |}, Ok (read, out))
    end.

(** ** Zstd *)

Record ZstdStage : Type := {
  zs_dctx : DCtx;
  zs_overrun : bool;
  zs_full : bool;
  zs_used : nat
}.

Definition ZstdStage_new : ZstdStage :=
  {| zs_dctx := dctx_create; zs_overrun := false; zs_full := false; zs_used := 0 |}.

Definition ZstdStage_run (s : ZstdStage) (src : list byte)
  : ZstdStage * result DFault (nat * list byte) :=
  if zs_overrun s then (s, Ok (length src, []))
  else if bool_decide (src = []) && negb (zs_full s) then (s, Ok (0, []))
  else if decide (OUT_CAP < zs_used s) then (s, Err DPanic)
  else
    let room := min (OUT_CAP - zs_used s) OUT_CAP in
    let '(result, read, out, dctx) := decompress_stream (zs_dctx s) src room in
    let full := bool_decide (length out = room) in
    let s := {| zs_dctx := dctx; zs_overrun := false; zs_full := full;
                zs_used := if full then 0 else zs_used s + length out |} in
    match result with
    | Err code => (s, Err (DErr (zstd_failure code)))
    | Ok hint =>
        if bool_decide (hint = 0%Z) && bool_decide (read < length src) && bool_decide (length out < room)
        then ({| zs_dctx := dctx; zs_overrun := true; zs_full := zs_full s; zs_used := zs_used s |},
              Ok (length src, out))
        else (s, Ok (read, out))
    end.

(** ** Stages *)

Inductive Stage : Type :=
| SGzip (s : GzipStage)
| SDeflate (s : DeflateStage)
| SBrotli (s : BrotliStage)
| SZstd (s : ZstdStage).

Definition Stage_new (c : Coding) : Stage :=
  match c with
  | Gzip => SGzip GzipStage_new
  | Deflate => SDeflate Detect
  | Br => SBrotli BrotliStage_new
  | Zst => SZstd ZstdStage_new
  end.

Definition stage_overrun (s : Stage) : bool :=
  match s with
  | SGzip s => bool_decide (gz_at s = Ignore)
  | SDeflate s => match s with DOverrun => true | _ => false end
  | SBrotli s => br_overrun s
  | SZstd s => zs_overrun s
  end.

Definition stage_run (s : Stage) (src : list byte) : Stage * option (result DFault (nat * list byte)) :=
  match s with
  | SGzip s => prod_map SGzip id (GzipStage_run s src)
  | SDeflate s => prod_map SDeflate Some (DeflateStage_run s src)
  | SBrotli s => prod_map SBrotli Some (BrotliStage_run s src)
  | SZstd s => prod_map SZstd Some (ZstdStage_run s src)
  end.

(** ** The decoder *)

Record Decoder : Type := {
  stages : list Stage;
  windows : list (list byte);
  derror : option DecodeError;
  overrun : option nat;
  done : bool
}.

Definition Decoder_new (codings : list Coding) : Decoder :=
  {| stages := Stage_new <$> reverse codings; windows := (λ _, []) <$> codings; derror := None;
     overrun := None; done := false |}.

Definition set_stage (j : nat) (s : Stage) (d : Decoder) : Decoder :=
  {| stages := <[j := s]> (stages d); windows := windows d; derror := derror d; overrun := overrun d;
     done := done d |}.

Definition set_window (j : nat) (w : list byte) (d : Decoder) : Decoder :=
  {| stages := stages d; windows := <[j := w]> (windows d); derror := derror d; overrun := overrun d;
     done := done d |}.

Definition set_overrun (o : option nat) (d : Decoder) : Decoder :=
  {| stages := stages d; windows := windows d; derror := derror d; overrun := o; done := done d |}.

Definition set_error (e : DecodeError) (d : Decoder) : Decoder :=
  {| stages := stages d; windows := windows d; derror := Some e; overrun := overrun d; done := done d |}.

Definition set_done (d : Decoder) : Decoder :=
  {| stages := stages d; windows := windows d; derror := derror d; overrun := overrun d; done := true |}.

(** [self.overrun.max(Some(j))]. *)

Definition raise_overrun (o : option nat) (j : nat) : option nat := Some (max (default 0 o) j).

(** What stage [j] reads. *)

Definition source (d : Decoder) (input : list byte) (j : nat) : option (list byte) :=
  match j with
  | O => Some input
  | S i => windows d !! i
  end.

(** One turn of [pull]'s loop at stage [j]: the decoder and the input after,
    and the stage to turn to or the answer.  A [debug_assert] that fails is a
    panic. *)

Inductive PullTurn : Type :=
| PAnswer (r : result DecodeError bool)
| PGoto (j : nat).

Definition pull_turn (k j : nat) (d : Decoder) (input : list byte)
  : option (Decoder * list byte * PullTurn) :=
  src ← source d input j;
  st ← stages d !! j;
  dst ← windows d !! j;
  guard (dst = []);;
  let '(st, r) := stage_run st src in
  r ← r;
  let d := set_stage j st (set_window j [] d) in
  match r with
  | Err DPanic => None
  | Err (DErr e) => Some (d, input, PAnswer (Err e))
  | Ok (consumed, out) =>
      guard (consumed ≤ length src ∧ length out ≤ OUT_CAP);;
      let '(d, input) :=
        match j with
        | O => (d, drop consumed input)
        | S i => (set_window i (drop consumed src) d, input)
        end in
      let d := set_window j out d in
      let d := if stage_overrun st then set_overrun (raise_overrun (overrun d) j) d else d in
      if decide (0 < length out) then
        Some (d, input, if decide (j = k) then PAnswer (Ok true) else PGoto (j + 1))
      else if decide (consumed = 0) then
        if decide (length src ≠ 0) then
          Some (d, input, PAnswer (Err (internal_error "decoder made no progress")))
        else if bool_decide (j = 0) || from_option (λ o, bool_decide (j ≤ o + 1)) false (overrun d)
        then Some (d, input, PAnswer (Ok false))
        else Some (d, input, PGoto (j - 1))
      else Some (d, input, PGoto j)
  end.

Fixpoint pull (fuel k j : nat) (d : Decoder) (input : list byte)
  : option (Decoder * list byte * result DecodeError bool) :=
  match fuel with
  | O => None
  | S fuel =>
      '(d, input, t) ← pull_turn k j d input;
      match t with
      | PAnswer r => Some (d, input, r)
      | PGoto j => pull fuel k j d input
      end
  end.

(** [push]: the decoder and the input after, and the chunk. *)

Definition push (fuel : nat) (d : Decoder) (input : list byte)
  : option (Decoder * list byte * result DecodeError (option (list byte))) :=
  match derror d with
  | Some e => Some (d, input, Err e)
  | None =>
      if done d then Some (d, [], Ok None)
      else
        match length (stages d) with
        | O =>
            Some (d, drop OUT_CAP input,
                  Ok (match input with [] => None | _ => Some (take OUT_CAP input) end))
        | S last =>
            w ← windows d !! last;
            '(d, input, r) ←
              (if decide (w = []) then pull fuel last last d input else Some (d, input, Ok true));
            match r with
            | Ok true => w ← windows d !! last; Some (set_window last [] d, input, Ok (Some w))
            | Ok false =>
                match overrun d with
                | Some _ => Some (set_done d, [], Ok None)
                | None => Some (d, input, Ok None)
                end
            | Err e => Some (set_error e d, input, Err e)
            end
        end
  end.

Definition dfinish (fuel : nat) (d : Decoder)
  : option (Decoder * result DecodeError (option (list byte))) :=
  '(d, _, r) ← push fuel d []; Some (d, r).
End Stages.
