(* ===== verification/DecodeSpec.v ===== *)
(** * DecodeSpec: gzip, twice

    The gzip framing of a fetch's body and the gunzip of node:zlib are written
    separately, over one inflater; they are one machine. *)

From S2P Require Import Prelude RustStd Inflate Decode.

(** ** [GzipStage] against the gzip stream of [NodeInflate] *)

Definition at_of (a : Gz) : At :=
  match a with
  | Id1 => Head0
  | Id2 => Head1
  | Cm => GzCm
  | Flg => GzFlg
  | Fixed n => GzFixed n
  | XlenLo => GzXlenLo
  | XlenHi => GzXlenHi
  | Extra n => GzExtra n
  | Name => GzName
  | Comment => GzComment
  | HcrcLo => GzHcrcLo
  | HcrcHi => GzHcrcHi
  | GBody => Body
  | Trailer n => GzTrailer n
  | GBetween => Between
  | Ignore => Done
  end.

Section Gunzip.
Context `{HM : Miniz, HC : Checksums}.

(** The checksum of the member: [NodeInflate] starts it after the magic. *)

Definition check_of (g : GzipStage) : Check :=
  match gz_at g with
  | Id1 | Id2 => CNone
  | _ => CCrc (gz_crc g)
  end.

Record Sim (s : NodeInflate) (g : GzipStage) : Prop := {
  sim_wrap : wrap s = WGzip;
  sim_members : members s = true;
  sim_at : at_ s = at_of (gz_at g);
  sim_inflate : inflate s = gz_inflate g;
  sim_check : check s = check_of g;
  sim_fresh : check_of g = CNone → gz_crc g = crc_new;
  sim_header_crc : header_crc s = gz_header_crc g;
  sim_held : held s = gz_held g;
  sim_flags : flags s = gz_flags g;
  sim_xlen : xlen s = gz_xlen g;
  sim_trailer : trailer s = gz_trailer g
}.

(** The same failure, as each reports it. *)

Definition same_fault (f : Fault) (d : DFault) : Prop :=
  match f, d with
  | Zlib e, DErr e' => dmessage e' = bs (message e) ∧ node e' = Some (bs (code e), errno e)
  | Panic, DPanic => True
  | _, _ => False
  end.

Definition agree {A} (r : result Fault A) (r' : result DFault A) : Prop :=
  match r, r' with
  | Ok a, Ok b => a = b
  | Err f, Err d => same_fault f d
  | _, _ => False
  end.

Lemma Sim_new : Sim (NodeInflate_new WGzip) GzipStage_new.
Proof. done. Qed.

Ltac sim_open s g :=
  destruct s as [w0 at0 mem0 inf0 chk0 hc0 he0 fl0 xl0 tr0 di0];
  destruct g as [ga gi gcrc ghc gh gf gx gt]; intros [H1 H2 H3 H4 H5 H6 H7 H8 H9 H10 H11];
  cbn in H1, H2, H3, H4, H5, H6, H7, H8, H9, H10, H11; subst.

(** Every field agrees, and so does the answer. *)

Ltac sim_close := first [done | split; [split; cbn; (done || auto)|cbn; (done || by split)]].

Lemma after_extra_sim s g :
  Sim s g → after_extra s = at_of (gz_after_extra g) ∧ after_name s = at_of (gz_after_name g) ∧
  after_comment s = at_of (gz_after_comment g).
Proof.
  intros [_ _ _ _ _ _ _ _ Hf _ _].
  unfold after_extra, after_name, after_comment, gz_after_extra, gz_after_name, gz_after_comment.
  rewrite Hf. change GZ_FNAME with FNAME. change GZ_FCOMMENT with FCOMMENT. change GZ_FHCRC with FHCRC.
  split; [|split]; repeat (destruct (has_flag _ _)); done.
Qed.

(** A jump to the state after the header's optional fields. *)

Lemma goto_sim s g a :
  Sim s g → check_of g = CCrc (gz_crc g) → a ≠ Id1 → a ≠ Id2 →
  Sim (set_at (at_of a) s) (gz_goto a g).
Proof.
  intros [H1 H2 H3 H4 H5 H6 H7 H8 H9 H10 H11] Hc Ha1 Ha2.
  assert (check_of (gz_goto a g) = CCrc (gz_crc g)) as E by by destruct a.
  split; try done; [by rewrite E, <-Hc|by rewrite E].
Qed.

Lemma goto_after_sim s g :
  Sim s g → check_of g = CCrc (gz_crc g) →
  Sim (set_at (after_extra s) s) (gz_goto (gz_after_extra g) g) ∧
  Sim (set_at (after_name s) s) (gz_goto (gz_after_name g) g) ∧
  Sim (set_at (after_comment s) s) (gz_goto (gz_after_comment g) g).
Proof.
  intros H Hc. destruct (after_extra_sim s g H) as (-> & -> & ->).
  assert (∀ a, a = gz_after_extra g ∨ a = gz_after_name g ∨ a = gz_after_comment g → a ≠ Id1 ∧ a ≠ Id2) as Ha.
  { unfold gz_after_extra, gz_after_name, gz_after_comment. intros a.
    repeat (destruct (has_flag _ _)); intros [-> | [-> | ->]]; done. }
  split; [|split]; apply goto_sim; try done; apply Ha; auto.
Qed.

Ltac sim_jump := split; [|done]; apply goto_after_sim; [split; cbn; (done || auto)|done].

Lemma byte_sim s g b :
  Sim s g → gz_at g ∉ [GBody; GBetween; Ignore] →
  Sim (header_byte s b).1 (gz_byte g b).1 ∧ agree (header_byte s b).2 (gz_byte g b).2.
Proof.
  sim_open s g. intros Hat.
  destruct ga as [| | | |n| | |n| | | | | |n| |]; cbn in *; try set_solver;
    change GZ_FNAME with FNAME; change GZ_FCOMMENT with FCOMMENT; change GZ_FHCRC with FHCRC;
    change GZ_FEXTRA with FEXTRA; change GZ_RESERVED with FTEXT_RESERVED.
  - sim_close.
  - rewrite (H6 eq_refl). rewrite (bool_decide_true (WGzip = WGzip)) by done. cbn [orb andb].
    rewrite decide_True by done.
    destruct (bool_decide (gh = x1f)), (bool_decide (b = x8b)); cbn; sim_close.
  - sim_close.
  - destruct (bool_decide (gh = x08)); [|sim_close]. cbn. destruct (has_flag b FTEXT_RESERVED); sim_close.
  - destruct (decide (1 < n)); [sim_close|]. destruct (has_flag gf FEXTRA); [sim_close|].
    sim_jump.
  - sim_close.
  - destruct (_ =? 0)%Z; [sim_jump|sim_close].
  - destruct (1 <? n)%Z; [sim_close|sim_jump].
  - destruct (decide (b = x00)); [sim_jump|sim_close].
  - destruct (decide (b = x00)); [sim_jump|sim_close].
  - sim_close.
  - destruct (_ =? _)%Z; cbn; sim_close.
  - unfold put_trailer, gz_trailer_byte. cbn. case_decide as Hn; [|sim_close]. cbn.
    destruct (decide (n + 1 = 4)); [destruct (_ =? _)%Z; cbn; sim_close|].
    destruct (decide (n + 1 = 8)); [destruct (_ =? _)%Z; cbn; sim_close|]. sim_close.
Qed.

Definition turns_agree (t : NodeInflate * Turn) (t' : GzipStage * GTurn) : Prop :=
  Sim t.1 t'.1 ∧
  match t.2, t'.2 with
  | Return r, GReturn r' => agree r r'
  | Again c, GAgain c' => c = c'
  | _, _ => False
  end.

Lemma from_failure_same e : same_fault (Zlib (from_failure e)) (DErr (inflate_error e)).
Proof. by destruct e. Qed.

Lemma dstep_eq i src :
  dstep i src =
  (let '(i, r) := Inflater_step i src OUT_CAP in
   (i, match r with Ok x => Ok x | Err e => Err (DErr (inflate_error e)) end)).
Proof. unfold dstep. by rewrite Nat.min_id. Qed.

Lemma body_sim s g src c :
  Sim s g → gz_at g = GBody → turns_agree (turn s src OUT_CAP c) (gz_turn g src c).
Proof.
  sim_open s g. cbn. intros ->. unfold turn, gz_turn, body_turn. cbn [at_ gz_at inflate gz_inflate at_of].
  rewrite dstep_eq. destruct (Inflater_step gi (drop c src) OUT_CAP) as [i [[[used out] ended]|e]].
  - cbn [check set_inflate check_of gz_at feed_check set_check].
    destruct ended, (bool_decide (0 < length out)); cbn; (split; [split; cbn; (done || auto)|done]).
  - split; [by split|]. apply from_failure_same.
Qed.

Lemma header_turn_sim s g (src : list byte) c :
  Sim s g → gz_at g ∉ [GBody; GBetween; Ignore] →
  turns_agree
    (match src !! c with
     | None => (s, Return (Ok (c, [])))
     | Some b => match header_byte s b with
                 | (s, Ok _) => (s, Again (S c))
                 | (s, Err e) => (s, Return (Err e))
                 end
     end)
    (match src !! c with
     | None => (g, GReturn (Ok (c, [])))
     | Some b => match gz_byte g b with
                 | (g, Ok _) => (g, GAgain (S c))
                 | (g, Err e) => (g, GReturn (Err e))
                 end
     end).
Proof.
  intros H Hat. destruct (src !! c) as [b|]; [|done]. destruct (byte_sim s g b H Hat) as [HS HA].
  destruct (header_byte s b) as [s' [u|f]], (gz_byte g b) as [g' [u'|f']]; cbn in HS, HA; done.
Qed.

Lemma turn_sim s g src c : Sim s g → turns_agree (turn s src OUT_CAP c) (gz_turn g src c).
Proof.
  intros H. pose proof (sim_at _ _ H) as Ha. pose proof (header_turn_sim s g src c H) as Hh.
  unfold turn, gz_turn. rewrite Ha.
  destruct (gz_at g) as [| | | |n| | |n| | | | | |n| |] eqn:E; cbn [at_of];
    try (apply Hh; by apply (bool_decide_unpack _)).
  - pose proof (body_sim s g src c H E) as Hb. unfold turn, gz_turn in Hb. by rewrite Ha, E in Hb.
  - destruct (src !! c) as [b|]; [|done]. destruct (decide (b = x00)); (split; [|done]).
    + apply (goto_sim _ _ Ignore); try done. unfold check_of. by rewrite E.
    + destruct H as [H1 H2 H3 H4 H5 H6 H7 H8 H9 H10 H11]. split; cbn; try done. by rewrite H4.
  - done.
Qed.

Lemma loop_sim fuel s g src c :
  Sim s g →
  Sim (step_loop fuel s src OUT_CAP c).1 (gz_loop fuel g src c).1 ∧
  match (step_loop fuel s src OUT_CAP c).2, (gz_loop fuel g src c).2 with
  | Some r, Some r' => agree r r'
  | None, None => True
  | _, _ => False
  end.
Proof.
  revert s g c. induction fuel as [|fuel IH]; intros s g c H; [done|]. cbn [step_loop gz_loop].
  destruct (turn_sim s g src c H) as [HS HT].
  destruct (turn s src OUT_CAP c) as [s' [r|c1]], (gz_turn g src c) as [g' [r'|c2]]; cbn in HS, HT; try done.
  subst. by apply IH.
Qed.

Lemma run_sim s g src :
  Sim s g →
  Sim (step s src OUT_CAP).1 (GzipStage_run g src).1 ∧
  match (step s src OUT_CAP).2, (GzipStage_run g src).2 with
  | Some r, Some r' => agree r r'
  | None, None => True
  | _, _ => False
  end.
Proof. apply loop_sim. Qed.

(** The answers to a sequence of inputs. *)

Fixpoint node_answers (s : NodeInflate) (srcs : list (list byte))
  : list (option (result Fault (nat * list byte))) :=
  match srcs with
  | [] => []
  | src :: srcs => (step s src OUT_CAP).2 :: node_answers (step s src OUT_CAP).1 srcs
  end.

Fixpoint gz_answers (g : GzipStage) (srcs : list (list byte))
  : list (option (result DFault (nat * list byte))) :=
  match srcs with
  | [] => []
  | src :: srcs => (GzipStage_run g src).2 :: gz_answers (GzipStage_run g src).1 srcs
  end.

Definition same_answer (r : option (result Fault (nat * list byte)))
  (r' : option (result DFault (nat * list byte))) : Prop :=
  match r, r' with
  | Some r, Some r' => agree r r'
  | None, None => True
  | _, _ => False
  end.

Lemma answers_sim s g srcs : Sim s g → Forall2 same_answer (node_answers s srcs) (gz_answers g srcs).
Proof.
  revert s g. induction srcs as [|src srcs IH]; intros s g H; cbn; [constructor|].
  destruct (run_sim s g src H) as [HS HA]. constructor; [done|by apply IH].
Qed.

(** C24. A gzip response body is decoded exactly as node:zlib's gunzip decodes
    it: fed the same inputs, whatever they are and however they are cut, the
    decoder stage of a fetch and the gunzip stream give, call by call, the
    same bytes, have read the same amount, and fail at the same byte with the
    same message, code and number. *)

Theorem gunzip_twins (srcs : list (list byte)) :
  Forall2 same_answer (node_answers (NodeInflate_new WGzip) srcs) (gz_answers GzipStage_new srcs).
Proof. apply answers_sim, Sim_new. Qed.
End Gunzip.
