(* ===== verification/DecodePull.v ===== *)
(** * DecodePull: a response body is decoded in bounded steps

    [Decoder::push] always returns, with a chunk no longer than the cap, with
    the input used up, or with a failure node has a code for.  The loop of
    [pull] is bounded because a decoder's output is: each stage's state has a
    weight, what it can still write unread, and every byte read adds at most
    [gain] to it. *)

From S2P Require Import Prelude RustStd Inflate InflateSpec Decode DecodeSpec.

(** ** What the decoders promise

    The deflate, brotli and zstd decoders read what they are given and write
    where they are told; a call with input and room either moves or fails,
    unless the deflate decoder has said that its stream is over, after which
    it answers that again and moves nothing; and the expansion of each format
    is bounded: a deflate match is at most 258 bytes, a brotli meta-block at
    most 2^24, a zstd block at most 2^17. *)

Definition went_on (st : TINFLStatus) : bool :=
  match st with
  | TDone | NeedsMoreInput | HasMoreOutput => true
  | _ => false
  end.

(** A deflate decoder that has not answered [TDone] since it was new or reset,
    always called with [flags]. *)

Inductive unfinished `{Miniz} (flags : Z) : DecompressorOxide → Prop :=
| unfinished_default : unfinished flags core_default
| unfinished_init c : unfinished flags (core_init c)
| unfinished_call core src out pos st c p core' out' :
    unfinished flags core → decompress core src out pos flags = (st, c, p, core', out') →
    st ≠ TDone → unfinished flags core'.

Class CodecLaws `{HM : Miniz, HB : Brotli, HZ : Zstd} : Type := {
  gain : nat;
  mweight : DecompressorOxide → nat;
  bweight : BrotliState → nat;
  zweight : DCtx → nat;
  mweight_default : mweight core_default ≤ gain;
  mweight_init c : mweight (core_init c) ≤ gain;
  miniz_expands core src out pos flags st c p core' out' :
    decompress core src out pos flags = (st, c, p, core', out') → went_on st = true →
    mweight core' + p ≤ mweight core + gain * c;
  miniz_moves core src out pos flags st c p core' out' :
    unfinished flags core →
    decompress core src out pos flags = (st, c, p, core', out') → went_on st = true →
    src ≠ [] → pos < length out → 0 < c ∨ 0 < p;
  brotli_bounds s src room res read out s' :
    brotli_decompress s src room = (res, read, out, s') → read ≤ length src ∧ length out ≤ room;
  brotli_expands s src room res read out s' :
    brotli_decompress s src room = (res, read, out, s') →
    bweight s' + length out ≤ bweight s + gain * read;
  brotli_more_input s src room read out s' :
    brotli_decompress s src room = (BNeedsMoreInput, read, out, s') → read = length src;
  brotli_more_output s src room read out s' :
    brotli_decompress s src room = (BNeedsMoreOutput, read, out, s') → length out = room;
  zstd_bounds s src room res read out s' :
    decompress_stream s src room = (res, read, out, s') → read ≤ length src ∧ length out ≤ room;
  zstd_expands s src room res read out s' :
    decompress_stream s src room = (res, read, out, s') →
    zweight s' + length out ≤ zweight s + gain * read;
  zstd_moves s src room hint read out s' :
    decompress_stream s src room = (Ok hint, read, out, s') →
    src ≠ [] → 0 < room → 0 < read ∨ 0 < length out
}.

Section Pull.
Context `{HM : Miniz, HML : !MinizLaws, HC : Checksums, HB : Brotli, HZ : Zstd, HL : !CodecLaws}.

(** ** One stage *)

(** What a step returning [r] promises: no panic, and either a failure node
    has a code for, or bytes within bounds, some of them when there was input. *)

Definition good_step (src : list byte) (r : result DFault (nat * list byte)) : Prop :=
  match r with
  | Ok (c, out) => c ≤ length src ∧ length out ≤ OUT_CAP ∧ (src ≠ [] → 0 < c ∨ 0 < length out)
  | Err (DErr e) => node_code e ≠ None
  | Err DPanic => False
  end.

Definition spent (w w' : nat) (r : result DFault (nat * list byte)) : Prop :=
  match r with
  | Ok (c, out) => w' + length out ≤ w + gain * c
  | Err _ => True
  end.

Lemma inflate_error_node e : node_code (inflate_error e) ≠ None.
Proof. by destruct e. Qed.

(** An inflater whose stream has not ended. *)

Definition live (i : Inflater) : Prop := unfinished (step_flags i) (core i).

Lemma slide_kept i room : core (slide i room) = core i ∧ step_flags (slide i room) = step_flags i.
Proof. unfold slide. by case_decide. Qed.

Lemma inflater_step_live i src n i' r :
  live i → Inflater_step i src n = (i', r) →
  match r with
  | Ok (_, _, true) => True
  | _ => live i'
  end.
Proof.
  unfold live, Inflater_step. set (room := min n STEP_OUT).
  intros Hu. destruct (slide_kept i room) as [Ec Ef]. rewrite <-Ec, <-Ef in Hu. set (sl := slide i room) in *.
  destruct (decompress _ _ _ _ _) as [[[[st c'] p] core'] out'] eqn:Hd.
  assert (st ≠ TDone → unfinished (step_flags sl) core') as Hk by by eapply unfinished_call.
  destruct st; intros [= <- <-]; try exact I; by apply Hk.
Qed.

Lemma inflater_step_moves seen i src n i' c out e :
  history_ok seen i → live i → 0 < n → Inflater_step i src n = (i', Ok (c, out, e)) →
  (src ≠ [] → 0 < c ∨ 0 < length out) ∧
  mweight (core i') + length out ≤ mweight (core i) + gain * c.
Proof.
  intros Hok Hlive Hn. unfold Inflater_step. set (room := min n STEP_OUT).
  destruct (slide_kept i room) as [Ec Ef]. unfold live in Hlive. rewrite <-Ec, <-Ef in Hlive.
  assert (0 < room) as Hr by (unfold room, STEP_OUT; lia).
  destruct (slide_history seen i room) as (Hsl & Hroom & _ & _ & <-); [unfold room; lia|done|].
  set (sl := slide i room) in *. clearbody sl. destruct Hsl as (Hl & Hp & _).
  destruct (decompress _ _ _ _ _) as [[[[st c'] p] core'] out'] eqn:Hd.
  pose proof (miniz_expands _ _ _ _ _ _ _ _ _ _ Hd) as He.
  pose proof (miniz_moves _ _ _ _ _ _ _ _ _ _ Hlive Hd) as Hm.
  apply decompress_bounds in Hd as (Hc & Hpr & Hol & _); rewrite length_take in *; [|lia].
  destruct st; cbn [went_on] in *; intros [= <- <- <- <-]; cbn [core];
    rewrite length_take, length_drop, length_app, length_drop;
    specialize (He eq_refl); specialize (Hm eq_refl); split; try lia;
    intros Hsrc; specialize (Hm Hsrc ltac:(lia)); lia.
Qed.

Lemma dstep_ok seen i src i' r :
  history_ok seen i → live i → dstep i src = (i', r) →
  (∃ seen', history_ok seen' i') ∧
  match r with
  | Ok (_, _, true) => True
  | _ => live i'
  end ∧
  match r with
  | Ok (c, out, _) =>
      c ≤ length src ∧ length out ≤ OUT_CAP ∧ (src ≠ [] → 0 < c ∨ 0 < length out) ∧
      mweight (core i') + length out ≤ mweight (core i) + gain * c
  | Err (DErr e) => node_code e ≠ None
  | Err DPanic => False
  end.
Proof.
  intros Hok Hlive. unfold dstep. rewrite Nat.min_id.
  destruct (Inflater_step i src OUT_CAP) as [i1 r1] eqn:Hs. intros [= <- <-].
  destruct (step_history seen i src OUT_CAP i1 r1 Hok Hs) as (Hh & Hout & Hc & _).
  split; [by eexists|]. split; [apply inflater_step_live in Hs; [|done]; by destruct r1|].
  destruct r1 as [[[c out] e]|e]; [|apply inflate_error_node].
  destruct (inflater_step_moves seen i src OUT_CAP i1 c out e) as [Hm He];
    [done|done|unfold OUT_CAP; lia|done|]. cbn in Hout, Hc. split_and!; [lia..|done|lia].
Qed.

(** ** Gzip *)

(** What the inflater may still write; it is not run again before the reset
    in the states after the body. *)

Definition gz_weight (g : GzipStage) : nat :=
  match gz_at g with
  | Id1 | Trailer _ | GBetween | Ignore => 0
  | _ => mweight (core (gz_inflate g))
  end.

(** Its body has not ended; the rest of the stage never runs it again. *)

Definition after_body (a : Gz) : bool :=
  match a with
  | Trailer _ | GBetween | Ignore => true
  | _ => false
  end.

Definition gz_fresh (g : GzipStage) : Prop :=
  (gz_at g = Id1 → mweight (core (gz_inflate g)) ≤ gain) ∧
  (after_body (gz_at g) = false → live (gz_inflate g)).

Definition gz_hist (g : GzipStage) : Prop := ∃ seen, history_ok seen (gz_inflate g).

Lemma gz_byte_keeps g b g' r :
  gz_byte g b = (g', r) →
  gz_inflate g' = gz_inflate g ∧ (gz_at g' = Id1 → False) ∧
  (after_body (gz_at g') = false → after_body (gz_at g) = false) ∧
  (gz_at g ≠ Id1 → gz_weight g' ≤ gz_weight g).
Proof.
  unfold gz_byte, gz_trailer_byte, gz_go, gz_fail, gz_weight, gz_after_extra, gz_after_name, gz_after_comment.
  destruct g as [a i c hc h f x t]; cbn [gz_at].
  destruct a; cbn [sums_header gz_sum gz_at]; repeat (case_decide || case_match);
    intros [= <- <-]; cbn; try done.
Qed.

(** A call of [run], from [c0] bytes read. *)

Definition gz_ran (g : GzipStage) (c0 : nat) (src : list byte) (g' : GzipStage)
  (r : result DFault (nat * list byte)) : Prop :=
  gz_fresh g' ∧ gz_hist g' ∧
  match r with
  | Ok (c, out) =>
      c0 ≤ c ≤ length src ∧ length out ≤ OUT_CAP ∧
      gz_weight g' + length out ≤ gz_weight g + gain * (c - c0) ∧
      (c0 < length src → c0 < c ∨ 0 < length out)
  | Err _ => True
  end.

Definition gz_turned (g : GzipStage) (c0 : nat) (src : list byte) (t : GzipStage * GTurn) : Prop :=
  match t.2 with
  | GReturn r => gz_ran g c0 src t.1 r
  | GAgain c =>
      gz_fresh t.1 ∧ gz_hist t.1 ∧ c0 ≤ c ≤ length src ∧
      gz_weight t.1 ≤ gz_weight g + gain * (c - c0)
  end.

Lemma gz_body_ok g src c :
  gz_fresh g → gz_hist g → gz_at g = GBody → c ≤ length src → gz_turned g c src (gz_turn g src c).
Proof.
  intros [_ Hlv] [seen Hh] Hat Hc. unfold gz_turn. rewrite Hat in *.
  destruct (dstep _ _) as [i r] eqn:Hs. apply (dstep_ok seen) in Hs as (Hh' & Hlv' & Hr); [|done|by apply Hlv].
  destruct r as [[[used out] ended]|e]; [|by split_and!; [split; cbn; [congruence|]| |]].
  destruct Hr as (Hu & Ho & Hm & Hw). rewrite length_drop in Hu.
  assert (c < length src → 0 < used ∨ 0 < length out) as Hm'.
  { intros Hlt. apply Hm. intros Hnil%(f_equal length). rewrite length_drop in Hnil. cbn in Hnil. lia. }
  set (s1 := gz_feed i out g).
  assert (gz_inflate s1 = i ∧ gz_at s1 = GBody) as [Hi Ha] by done. clearbody s1.
  set (s2 := if ended then gz_goto (Trailer 0) s1 else s1).
  assert (gz_inflate s2 = i ∧ gz_at s2 = (if ended then Trailer 0 else GBody)) as [Hi2 Ha2]
    by (by subst s2; destruct ended).
  clearbody s2.
  assert (gz_fresh s2 ∧ gz_hist s2) as [Hf2 Hh2].
  { unfold gz_fresh, gz_hist. rewrite Ha2, Hi2. by destruct ended. }
  assert (gz_weight s2 + length out ≤ gz_weight g + gain * used) as Hw2.
  { unfold gz_weight. rewrite Ha2, Hi2, Hat. destruct ended; lia. }
  destruct (_ || _); cbn; unfold gz_ran; rewrite Nat.add_sub'; split_and!; try done; lia.
Qed.

Lemma gz_weight_le g : gz_weight g ≤ mweight (core (gz_inflate g)).
Proof. unfold gz_weight. destruct (gz_at g); lia. Qed.

Lemma gz_dry g src c : gz_fresh g → gz_hist g → src !! c = None → c ≤ length src →
  gz_turned g c src (g, GReturn (Ok (c, []))).
Proof. intros Hf Hh Hn%lookup_ge_None Hc. unfold gz_turned, gz_ran. cbn. split_and!; try done; lia. Qed.

Lemma gz_header_ok g src c :
  gz_fresh g → gz_hist g → c ≤ length src →
  gz_turned g c src
    (match src !! c with
     | None => (g, GReturn (Ok (c, [])))
     | Some b => match gz_byte g b with
                 | (g, Ok _) => (g, GAgain (S c))
                 | (g, Err e) => (g, GReturn (Err e))
                 end
     end).
Proof.
  intros Hf Hh Hc. destruct (src !! c) as [b|] eqn:Hb; [|by apply gz_dry].
  apply lookup_lt_Some in Hb. destruct (gz_byte g b) as [g' r] eqn:Hg.
  apply gz_byte_keeps in Hg as (Hi & Hid & Haf & Hw).
  assert (gz_fresh g' ∧ gz_hist g') as [Hf' Hh'].
  { unfold gz_fresh, gz_hist. rewrite Hi. split; [|done]. split; [by intros ?%Hid|]. by intros ?%Haf%Hf. }
  destruct r; [|by cbn; split_and!]. cbn. split_and!; try done; try lia.
  replace (S c - c) with 1 by lia. destruct (decide (gz_at g = Id1)) as [E|E].
  - pose proof (gz_weight_le g') as Hle. rewrite Hi in Hle. pose proof (proj1 Hf E). lia.
  - specialize (Hw E). lia.
Qed.

Lemma gz_turn_ok g src c :
  gz_fresh g → gz_hist g → c ≤ length src → gz_turned g c src (gz_turn g src c).
Proof.
  intros Hf Hh Hc. destruct (decide (gz_at g = GBody)) as [Hb|Hb]; [by apply gz_body_ok|].
  pose proof (gz_header_ok g src c Hf Hh Hc) as Hhd. unfold gz_turn.
  destruct (gz_at g) eqn:Hat; try done.
  - destruct (src !! c) as [b|] eqn:Hx; [|by apply gz_dry].
    apply lookup_lt_Some in Hx. destruct Hh as [seen Hh].
    case_decide; unfold gz_turned; cbn; (split_and!; [| |lia|lia|unfold gz_weight; cbn; lia]).
    + by split.
    + by exists seen.
    + split; [intros _; apply mweight_init|intros _; apply unfinished_init].
    + exists []. by eapply reset_history.
  - unfold gz_turned, gz_ran. cbn [fst snd length].
    split_and!; try done; try lia; apply Nat.add_le_mono; [done|apply Nat.le_0_l].
Qed.

Lemma gz_loop_ok fuel g src c g' r :
  gz_fresh g → gz_hist g → c ≤ length src → gz_loop fuel g src c = (g', Some r) →
  gz_ran g c src g' r.
Proof.
  revert g c. induction fuel as [|fuel IH]; intros g c Hf Hh Hc; [done|]. cbn [gz_loop].
  pose proof (gz_turn_ok g src c Hf Hh Hc) as Ht. unfold gz_turned in Ht.
  destruct (gz_turn g src c) as [g1 [r1|c1]]; cbn [fst snd] in Ht; [by intros [= <- <-]|].
  destruct Ht as (Hf1 & Hh1 & Hc1 & Hw1). intros Hl.
  apply IH in Hl as (Hf' & Hh' & Hr); [|done..|lia]. unfold gz_ran. split_and!; [done..|].
  destruct r as [[c2 out]|]; [|done]. destruct Hr as (Hc2 & Ho & Hw & Hm).
  replace (c2 - c) with ((c1 - c) + (c2 - c1)) by lia. split_and!; try lia.
Qed.

(** ** Any stage *)

Definition gz_ok (g : GzipStage) : Prop :=
  gz_fresh g ∧ ∃ s, Sim s g ∧ stream_ok s.

Definition stage_ok (s : Stage) : Prop :=
  match s with
  | SGzip g => gz_ok g
  | SDeflate (DInflate i) => (∃ seen, history_ok seen i) ∧ live i
  | SDeflate _ => True
  | SBrotli _ => True
  | SZstd z => zs_used z < OUT_CAP
  end.

Definition weight (s : Stage) : nat :=
  match s with
  | SGzip g => gz_weight g
  | SDeflate Detect => gain
  | SDeflate (DInflate i) => mweight (core i)
  | SDeflate _ => 0
  | SBrotli b => bweight (br_state b)
  | SZstd z => zweight (zs_dctx z)
  end.

Lemma Stage_new_ok c : stage_ok (Stage_new c).
Proof.
  destruct c; cbn; try done; [|unfold OUT_CAP; lia].
  split; [split; [intros _; apply mweight_default|intros _; apply unfinished_default]|].
  exists (NodeInflate_new WGzip). split; [apply Sim_new|apply with_dictionary_ok].
Qed.

(** What running a stage promises. *)

Definition stage_ran (s : Stage) (src : list byte)
  (t : Stage * option (result DFault (nat * list byte))) : Prop :=
  ∃ s' r, t = (s', Some r) ∧ stage_ok s' ∧ good_step src r ∧ spent (weight s) (weight s') r.

Lemma gzip_run_ok g src : gz_ok g → stage_ran (SGzip g) src (stage_run (SGzip g) src).
Proof.
  intros (Hf & s & HS & Hs). destruct (step_is_ok s src OUT_CAP Hs) as (s' & r & He & Hs' & Hr).
  destruct (run_sim s g src HS) as [HS' Hag]. rewrite He in HS', Hag. cbn [fst snd] in HS', Hag.
  cbn [stage_run]. destruct (GzipStage_run g src) as [g' [r'|]] eqn:Hg; [|done]. cbn in HS', Hag.
  assert (gz_hist g) as Hh by (destruct Hs as [Hh _]; unfold gz_hist; by rewrite <-(sim_inflate _ _ HS)).
  apply gz_loop_ok in Hg as (Hf' & Hh' & Hran); [|done..|lia].
  exists (SGzip g'), r'. split; [done|]. split; [split; [done|by exists s']|].
  destruct r as [[c out]|f], r' as [[c' out']|f']; cbn in Hag; try done.
  - destruct Hran as (Hc & Ho & Hw & Hm). rewrite Nat.sub_0_r in Hw.
    split; [split_and!; [lia|done|]|done]. intros Hsrc. apply Hm. destruct src; [done|cbn; lia].
  - split; [|done]. destruct f as [e|], f' as [e'|]; cbn in Hag |- *; try done.
    unfold node_code. destruct Hag as [_ ->]. done.
Qed.

(** A stage past the end of its stream drops its input. *)

Lemma swallowed s s' src :
  stage_ok s' → weight s' ≤ weight s → stage_ran s src (s', Some (Ok (length src, []))).
Proof.
  intros Hs Hw. do 2 eexists. split; [done|]. split; [done|]. split.
  - split_and!; [done|apply Nat.le_0_l|]. intros Hsrc. left. destruct src; [done|cbn; lia].
  - cbn [spent length]. rewrite Nat.add_0_r. by apply Nat.le_trans with (1 := Hw), Nat.le_add_r.
Qed.

Lemma idle s : stage_ok s → stage_ran s [] (s, Some (Ok (0, []))).
Proof. intros Hs. by apply (swallowed s s []). Qed.

Lemma inflating_ok s i seen src :
  history_ok seen i → live i → mweight (core i) ≤ weight s →
  stage_ran s src (prod_map SDeflate Some (DeflateStage_run (DInflate i) src)).
Proof.
  intros Hh Hlv Hw. unfold DeflateStage_run.
  replace (match src with [] | _ => DInflate i end) with (DInflate i) by (by destruct src).
  destruct (dstep i src) as [i' r] eqn:Hs. apply (dstep_ok seen) in Hs as (Hh' & Hlv' & Hr); [|done..].
  destruct r as [[[c out] ended]|[e|]]; [|by do 2 eexists|done].
  destruct Hr as (Hc & Ho & Hm & He). do 2 eexists. split; [done|]. split; [by destruct ended|].
  split; [done|]. destruct ended; cbn; lia.
Qed.

Lemma deflate_run_ok s src :
  stage_ok (SDeflate s) → stage_ran (SDeflate s) src (stage_run (SDeflate s) src).
Proof.
  intros Hs. cbn [stage_run]. destruct s as [|i| |].
  - destruct src as [|b src]; [by apply idle|].
    eapply (inflating_ok _ (Inflater_new _));
      [apply new_history|apply unfinished_default|apply mweight_default].
  - destruct Hs as [[seen Hh] Hlv]. by eapply inflating_ok.
  - by destruct src; apply swallowed.
  - by destruct src; apply swallowed.
Qed.

Lemma brotli_run_ok s src : stage_ran (SBrotli s) src (stage_run (SBrotli s) src).
Proof.
  cbn [stage_run]. unfold BrotliStage_run. destruct (br_done s); [by apply swallowed|].
  destruct (brotli_decompress _ _ _) as [[[res read] out] st] eqn:Hb.
  pose proof (brotli_bounds _ _ _ _ _ _ _ Hb) as [Hr Ho].
  pose proof (brotli_expands _ _ _ _ _ _ _ Hb) as He.
  destruct res; do 2 eexists; (split; [done|]); (split; [done|]).
  - done.
  - split; [split_and!; [done..|]|].
    + intros Hsrc. left. destruct src; [done|cbn; lia].
    + cbn. pose proof (Nat.mul_le_mono_l _ _ gain Hr). lia.
  - apply brotli_more_input in Hb as ->. split; [split_and!; [done..|]|done].
    intros Hsrc. left. destruct src; [done|cbn; lia].
  - apply brotli_more_output in Hb. split; [split_and!; [done..|]|done].
    intros _. right. rewrite Hb. unfold OUT_CAP. lia.
Qed.

Lemma zstd_run_ok s src :
  stage_ok (SZstd s) → stage_ran (SZstd s) src (stage_run (SZstd s) src).
Proof.
  intros Hu. cbn [stage_run stage_ok] in *. unfold ZstdStage_run.
  destruct (zs_overrun s); [by apply swallowed|].
  destruct (bool_decide (src = []) && negb (zs_full s)) eqn:E.
  { apply andb_true_iff in E as [->%bool_decide_eq_true _]. by apply idle. }
  clear E. rewrite decide_False by lia. set (room := min (OUT_CAP - zs_used s) OUT_CAP).
  assert (0 < room ∧ zs_used s + room ≤ OUT_CAP) as [Hr0 Hr] by (unfold room; lia). clearbody room.
  destruct (decompress_stream _ _ _) as [[[res read] out] dctx] eqn:Hd.
  pose proof (zstd_bounds _ _ _ _ _ _ _ Hd) as [Hrd Ho].
  pose proof (zstd_expands _ _ _ _ _ _ _ Hd) as He.
  set (used := if bool_decide (length out = room) then 0 else zs_used s + length out).
  assert (used < OUT_CAP) as Hused by (subst used; case_bool_decide; lia). clearbody used.
  destruct res as [hint|code]; [|by do 2 eexists]. pose proof (zstd_moves _ _ _ _ _ _ _ Hd) as Hm.
  cbn [zs_full zs_used]. destruct (_ && _); do 2 eexists; (split; [done|]); (split; [exact Hused|]).
  - split; [split_and!; [done|lia|]|].
    + intros Hsrc. left. destruct src; [done|cbn; lia].
    + cbn. pose proof (Nat.mul_le_mono_l _ _ gain Hrd). lia.
  - split; [split_and!; [done|lia|auto]|done].
Qed.

Lemma stage_run_ok s src : stage_ok s → stage_ran s src (stage_run s src).
Proof.
  destruct s; intros Hs;
    [by apply gzip_run_ok|by apply deflate_run_ok|apply brotli_run_ok|by apply zstd_run_ok].
Qed.

(** ** The chain

    What is left to do: a byte that stage [j] has still to read counts for more
    than all it can become downstream. *)

Fixpoint price (n : nat) : nat :=
  match n with
  | O => 0
  | S n => (price n + 1) * gain + 1
  end.

Fixpoint load (input : list byte) (ss : list Stage) (ws : list (list byte)) : nat :=
  match ss, ws with
  | s :: ss, w :: ws =>
      (price (length ss) + 1) * weight s + price (S (length ss)) * length input + load w ss ws
  | _, _ => 0
  end.

Lemma load_input w ss ws :
  length ws = length ss → load w ss ws = load [] ss ws + price (length ss) * length w.
Proof. destruct ss as [|s ss], ws as [|w' ws]; try done; intros _; cbn [load length]; lia. Qed.

Lemma load_turn j input ss ws s s' src c out :
  length ws = length ss → ss !! j = Some s → ws !! j = Some [] →
  match j with 0 => Some input | S i => ws !! i end = Some src →
  c ≤ length src → weight s' + length out ≤ weight s + gain * c →
  load (match j with 0 => drop c input | S _ => input end) (<[j := s']> ss)
       (match j with 0 => <[0 := out]> ws | S i => <[S i := out]> (<[i := drop c src]> ws) end)
    + (c + length out) ≤ load input ss ws.
Proof.
  revert input ss ws. induction j as [|j IH]; intros input [|s0 ss] [|w0 ws] Hl Hs Hw Hsrc Hc He; try done.
  - cbn in Hs, Hw, Hsrc. simplify_eq. cbn [list_insert insert load length] in *.
    rewrite (load_input out ss), length_drop by congruence.
    change (price (S (length ss))) with ((price (length ss) + 1) * gain + 1).
    apply (Nat.mul_le_mono_l _ _ (price (length ss) + 1)) in He.
    assert (length src = c + (length src - c)) as Hsplit by lia.
    set (r := length src - c) in *. clearbody r. rewrite Hsplit. lia.
  - assert (match j with 0 => Some w0 | S i => ws !! i end = Some src) as Hsrc' by (by destruct j).
    specialize (IH w0 ss ws ltac:(cbn in Hl; lia) Hs Hw Hsrc' Hc He).
    change (<[S j := s']> (s0 :: ss)) with (s0 :: <[j := s']> ss).
    destruct j as [|j]; [cbn in Hsrc; simplify_eq|].
    + change (<[1 := out]> (<[0 := drop c src]> (src :: ws))) with (drop c src :: <[0 := out]> ws).
      cbn [load]. rewrite length_insert. lia.
    + change (<[S (S j) := out]> (<[S j := drop c src]> (w0 :: ws)))
        with (w0 :: <[S j := out]> (<[j := drop c src]> ws)).
      cbn [load]. rewrite length_insert. lia.
Qed.

(** Where [pull] may be at stage [j]: nothing is waiting from there on, so
    clearing the window drops nothing. *)

Record chain_ok (d : Decoder) : Prop := {
  chain_len : length (windows d) = length (stages d);
  chain_stages : Forall stage_ok (stages d);
  chain_windows : Forall (λ w, length w ≤ OUT_CAP) (windows d)
}.

Record pull_at (k j : nat) (d : Decoder) : Prop := {
  at_chain : chain_ok d;
  at_last : length (stages d) = S k;
  at_stage : j ≤ k;
  at_empty i : j ≤ i ≤ k → windows d !! i = Some []
}.

Definition left_to_do (k j : nat) (d : Decoder) (input : list byte) : nat :=
  load input (stages d) (windows d) * S k + j.

(** What an answer promises. *)

Definition answered (k : nat) (d : Decoder) (input : list byte) (r : result DecodeError bool) : Prop :=
  match r with
  | Ok true => ∃ w, windows d !! k = Some w ∧ w ≠ []
  | Ok false => input = [] ∨ overrun d ≠ None
  | Err e => node_code e ≠ None
  end.

Record kept (d : Decoder) (input : list byte) (d' : Decoder) (input' : list byte) : Prop := {
  kept_chain : chain_ok d';
  kept_len : length (stages d') = length (stages d);
  kept_error : derror d' = derror d;
  kept_input : ∃ used, input = used ++ input'
}.

Definition turned (k j : nat) (d : Decoder) (input : list byte) (d' : Decoder) (input' : list byte)
  (t : PullTurn) : Prop :=
  match t with
  | PAnswer r => answered k d' input' r
  | PGoto j' => pull_at k j' d' ∧ left_to_do k j' d' input' < left_to_do k j d input
  end.

(** The decoder after stage [j] read [c] bytes of [src] and wrote [out]. *)

Definition next_windows (j c : nat) (src out : list byte) (ws : list (list byte)) : list (list byte) :=
  match j with
  | O => <[0 := out]> ws
  | S i => <[S i := out]> (<[i := drop c src]> ws)
  end.

Definition next_input (j c : nat) (input : list byte) : list byte :=
  match j with
  | O => drop c input
  | S _ => input
  end.

Record moved (k j c : nat) (src out : list byte) (d : Decoder) (input : list byte) (d' : Decoder)
  : Prop := {
  moved_kept : kept d input d' (next_input j c input);
  moved_load : load (next_input j c input) (stages d') (windows d') + (c + length out)
               ≤ load input (stages d) (windows d);
  moved_out : windows d' !! j = Some out;
  moved_down i : j < i ≤ k → windows d' !! i = Some [];
  moved_up i : j = S i → windows d' !! i = Some (drop c src)
}.

Lemma moved_ok k j c src out s s' d input d' :
  pull_at k j d → stages d !! j = Some s → source d input j = Some src →
  stage_ok s' → good_step src (Ok (c, out)) → spent (weight s) (weight s') (Ok (c, out)) →
  stages d' = <[j := s']> (stages d) → windows d' = next_windows j c src out (windows d) →
  derror d' = derror d →
  moved k j c src out d input d'.
Proof.
  intros [[Hlen Hst Hwin] Hk Hj Hemp] Hs Hsrc Hs' (Hc & Ho & _) Hsp Hds Hdw Hde.
  pose proof (Hemp j ltac:(lia)) as Hw.
  split.
  - split; [split|by rewrite Hds, length_insert|done|].
    + rewrite Hds, Hdw. unfold next_windows. destruct j; rewrite !length_insert; lia.
    + rewrite Hds. by apply Forall_insert.
    + rewrite Hdw. unfold next_windows. destruct j as [|i]; [by apply Forall_insert|].
      apply Forall_insert; [|done]. apply Forall_insert; [done|]. rewrite length_drop.
      apply (Forall_lookup_1 _ _ _ _ Hwin) in Hsrc. lia.
    + unfold next_input. destruct j; [|by exists []]. eexists. symmetry. apply take_drop.
  - rewrite Hds, Hdw. apply (load_turn j input _ _ s s' src c out); done.
  - rewrite Hdw. unfold next_windows.
    destruct j; apply list_lookup_insert_eq; rewrite ?length_insert; lia.
  - intros i Hi. rewrite Hdw. unfold next_windows.
    destruct j; rewrite !list_lookup_insert_ne by lia; apply Hemp; lia.
  - intros i ->. rewrite Hdw. cbn [next_windows]. rewrite list_lookup_insert_ne by lia.
    apply list_lookup_insert_eq. lia.
Qed.

(** The stage [pull] turns to next. *)

Definition next_turn (k j c : nat) (src out : list byte) (d' : Decoder) : PullTurn :=
  if decide (0 < length out) then if decide (j = k) then PAnswer (Ok true) else PGoto (j + 1)
  else if decide (c = 0) then
    if decide (length src ≠ 0) then PAnswer (Err (internal_error "decoder made no progress"))
    else if bool_decide (j = 0) || from_option (λ o, bool_decide (j ≤ o + 1)) false (overrun d')
    then PAnswer (Ok false)
    else PGoto (j - 1)
  else PGoto j.

Lemma goto_ok k j j' c src out d input d' :
  pull_at k j d → moved k j c src out d input d' → j' ≤ k →
  (∀ i, j' ≤ i ≤ k → windows d' !! i = Some []) → (0 < c + length out ∨ j' < j) →
  turned k j d input d' (next_input j c input) (PGoto j').
Proof.
  intros Hat Hm Hj' He Hless. split.
  - split; [apply Hm|rewrite (kept_len _ _ _ _ (moved_kept _ _ _ _ _ _ _ _ Hm)); apply Hat|done|done].
  - unfold left_to_do. pose proof (moved_load _ _ _ _ _ _ _ _ Hm). pose proof (at_stage _ _ _ Hat). nia.
Qed.

Lemma turned_next k j c src out d input d' :
  pull_at k j d → source d input j = Some src →
  (src ≠ [] → 0 < c ∨ 0 < length out) → c ≤ length src →
  moved k j c src out d input d' →
  turned k j d input d' (next_input j c input) (next_turn k j c src out d').
Proof.
  intros Hat Hsrc Hmove Hc Hm. pose proof (at_stage _ _ _ Hat) as Hj. unfold next_turn.
  case_decide as Ho.
  { case_decide as Hk.
    - subst. exists out. split; [apply Hm|]. intros ->. cbn in Ho. lia.
    - eapply goto_ok; [done..|lia| |lia]. intros i Hi. apply Hm. lia. }
  destruct out; [|cbn in Ho; lia].
  case_decide as Hc0; [|eapply goto_ok; [done..| |lia]].
  2:{ intros i Hi. destruct (decide (i = j)) as [->|]; apply Hm. lia. }
  subst. destruct src as [|b src]; [|destruct Hmove; cbn in *; [done|lia..]].
  rewrite decide_False by (cbn; lia).
  destruct (bool_decide (j = 0) || _) eqn:E.
  - apply orb_true_iff in E as [E%bool_decide_eq_true|E]; [left|right].
    + subst. cbn in Hsrc |- *. by simplify_eq.
    + by destruct (overrun d').
  - apply orb_false_iff in E as [E%bool_decide_eq_false _]. destruct j as [|j]; [done|].
    rewrite Nat.sub_succ, Nat.sub_0_r. eapply goto_ok; [done..|lia| |lia].
    intros i Hi. destruct (decide (i = j)) as [->|]; [by apply (moved_up _ _ _ _ _ _ _ _ Hm)|].
    destruct (decide (i = S j)) as [->|]; apply Hm. lia.
Qed.

Lemma pull_turn_ok k j d input :
  pull_at k j d →
  ∃ d' input' t, pull_turn k j d input = Some (d', input', t) ∧
    kept d input d' input' ∧ turned k j d input d' input' t.
Proof.
  intros Hat. pose proof Hat as [[Hlen Hst Hwin] Hk Hj Hemp].
  destruct (lookup_lt_is_Some_2 (stages d) j) as [s Hs]; [lia|].
  assert (∃ src, source d input j = Some src) as [src Hsrc].
  { destruct j as [|i]; [by eexists|]. cbn. apply lookup_lt_is_Some_2. lia. }
  pose proof (Hemp j ltac:(lia)) as Hw.
  destruct (stage_run_ok s src) as (s' & r & Hrun & Hs' & Hgood & Hspent).
  { by eapply Forall_lookup_1. }
  unfold pull_turn. rewrite Hsrc, Hs, Hw. cbn [mbind option_bind]. rewrite option_guard_True by done.
  rewrite Hrun. cbn [mbind option_bind].
  destruct r as [[c out]|[e|]]; [| |done].
  2:{ do 3 eexists. split; [done|]. split; [|done]. split; cbn.
      - split; cbn; [by rewrite !length_insert|by apply Forall_insert|].
        apply Forall_insert; [done|apply Nat.le_0_l].
      - apply length_insert.
      - done.
      - by exists []. }
  rewrite option_guard_True by (destruct Hgood as (? & ? & _); done).
  set (p := match j with 0 => _ | S _ => _ end). cbv beta.
  assert (∃ d1, p = (d1, next_input j c input) ∧ stages d1 = <[j := s']> (stages d) ∧
    windows (set_window j out d1) = next_windows j c src out (windows d) ∧ derror d1 = derror d)
    as (d1 & -> & Hd1s & Hd1w & Hd1e).
  { subst p. destruct j as [|i]; eexists; (split; [done|]);
      cbn [stages windows derror set_window set_stage next_windows];
      by rewrite (list_insert_id (windows d) _ []) by done. }
  cbn [mbind option_bind].
  set (d2 := if stage_overrun s' then _ else _).
  assert (moved k j c src out d input d2) as Hm.
  { apply (moved_ok k j c src out s s'); try done; subst d2; destruct (stage_overrun s');
      first [exact Hd1s|exact Hd1w|exact Hd1e]. }
  clearbody d2. destruct Hgood as (Hc & Ho & Hmove).
  exists d2, (next_input j c input), (next_turn k j c src out d2).
  split_and!; [|apply Hm|by apply turned_next].
  unfold next_turn. by repeat (case_decide || destruct (_ || _)).
Qed.

(** Enough turns for what is left to do. *)

Lemma pull_ok m k j d input :
  pull_at k j d → left_to_do k j d input ≤ m →
  ∃ d' input' r, (∀ fuel, m < fuel → pull fuel k j d input = Some (d', input', r)) ∧
    kept d input d' input' ∧ answered k d' input' r.
Proof.
  revert j d input. induction m as [m IH] using lt_wf_ind. intros j d input Hat Hm.
  destruct (pull_turn_ok k j d input Hat) as (d1 & input1 & t & Ht & Hk & Htn).
  destruct t as [r|j'].
  - exists d1, input1, r. split; [|done]. intros [|fuel] Hf; [lia|]. cbn [pull]. by rewrite Ht.
  - destruct Htn as [Hat1 Hl]. destruct (IH (m - 1)) with (j := j') (d := d1) (input := input1)
      as (d' & input' & r & Hp & Hk' & Ha); [lia|done|lia|].
    exists d', input', r. split; [|split; [|done]].
    + intros [|fuel] Hf; [lia|]. cbn [pull]. rewrite Ht. apply Hp. lia.
    + destruct Hk as [? ? ? [u ->]], Hk' as [? ? ? [u' ->]].
      split; [done|congruence|congruence|exists (u ++ u'); by rewrite app_assoc].
Qed.

(** ** [push] *)

(** The decoders a response body's decoder can become. *)

Inductive reached (codings : list Coding) : Decoder → Prop :=
| reached_new : reached codings (Decoder_new codings)
| reached_push fuel d input d' input' r :
    reached codings d → push fuel d input = Some (d', input', r) → reached codings d'.

(** An answer of [push]: a chunk within the cap, all the input read, or a
    failure of node's, which every later call repeats. *)

Definition pushed (d' : Decoder) (input' : list byte) (r : result DecodeError (option (list byte))) : Prop :=
  match r with
  | Ok (Some chunk) => 1 ≤ length chunk ≤ OUT_CAP
  | Ok None => input' = []
  | Err e => node_code e ≠ None ∧ derror d' = Some e
  end.

Definition decoder_ok (d : Decoder) : Prop :=
  chain_ok d ∧ (∀ e, derror d = Some e → node_code e ≠ None).

Definition push_fuel (d : Decoder) (input : list byte) : nat :=
  S (left_to_do (length (stages d) - 1) (length (stages d) - 1) d input).

Lemma window_filled k d input w :
  chain_ok d → length (stages d) = S k → windows d !! k = Some w →
  ∃ d' input' r,
    (∀ fuel, push_fuel d input ≤ fuel →
      (if decide (w = []) then pull fuel k k d input else Some (d, input, Ok true))
      = Some (d', input', r)) ∧
    kept d input d' input' ∧ answered k d' input' r.
Proof.
  intros Hch Hlen Hw. case_decide as Hn.
  - subst. destruct (pull_ok (left_to_do k k d input) k k d input) as (d' & i' & r & Hp & Hpost); [|done|].
    { split; [done..|]. intros i Hi. by replace i with k by lia. }
    exists d', i', r. split; [|done]. intros fuel Hf. apply Hp. unfold push_fuel in Hf.
    by rewrite Hlen, Nat.sub_succ, Nat.sub_0_r in Hf.
  - exists d, input, (Ok true). split; [done|]. split; [by split; [| | |exists []]|by exists w].
Qed.

Definition taken (k : nat) (d : Decoder) (input : list byte) (r : result DecodeError bool)
  : option (Decoder * list byte * result DecodeError (option (list byte))) :=
  match r with
  | Ok true => w ← windows d !! k; Some (set_window k [] d, input, Ok (Some w))
  | Ok false =>
      match overrun d with
      | Some _ => Some (set_done d, [], Ok None)
      | None => Some (d, input, Ok None)
      end
  | Err e => Some (set_error e d, input, Err e)
  end.

Lemma answer_taken k d input d1 input1 r1 :
  derror d = None → kept d input d1 input1 → answered k d1 input1 r1 →
  ∃ d' input' r, taken k d1 input1 r1 = Some (d', input', r) ∧
    decoder_ok d' ∧ (∃ used, input = used ++ input') ∧ pushed d' input' r.
Proof.
  intros He [Hch Hl Hd Hin] Ha. rewrite He in Hd. destruct r1 as [[]|e]; cbn [taken].
  - destruct Ha as (w & Hw & Hne). rewrite Hw. do 3 eexists. split; [done|]. split_and!; [|done|].
    + destruct Hch as [Hc1 Hc2 Hc3]. split; cbn; [|by rewrite Hd]. split; cbn; [|done|].
      * by rewrite length_insert.
      * apply Forall_insert; [done|apply Nat.le_0_l].
    + apply (Forall_lookup_1 _ _ _ _ (chain_windows _ Hch)) in Hw.
      destruct w; [done|cbn [pushed length] in *; lia].
  - destruct (overrun d1) eqn:Ho; do 3 eexists; (split; [done|]).
    + split_and!; [|exists input; by rewrite app_nil_r|done]. split; cbn; [|by rewrite Hd]. by destruct Hch.
    + split_and!; [by split; [|by rewrite Hd]|done|]. by destruct Ha as [->|?].
  - do 3 eexists. split; [done|]. split_and!; [|done|done].
    split; cbn; [by destruct Hch|]. by intros ? [= <-].
Qed.

Lemma push_ok d input :
  decoder_ok d →
  ∃ d' input' r, (∀ fuel, push_fuel d input ≤ fuel → push fuel d input = Some (d', input', r)) ∧
    decoder_ok d' ∧ (∃ used, input = used ++ input') ∧ pushed d' input' r.
Proof.
  intros Hok. pose proof Hok as [Hch Herr]. unfold push. destruct (derror d) as [e|] eqn:He.
  { do 3 eexists. split; [done|]. split_and!; [done|by exists []|by split; [apply Herr|]]. }
  destruct (done d).
  { do 3 eexists. split; [done|]. split_and!; [done|exists input; by rewrite app_nil_r|done]. }
  destruct (length (stages d)) as [|k] eqn:Hlen.
  { do 3 eexists. split; [done|]. split_and!; [done|eexists; symmetry; apply take_drop|].
    destruct input as [|b input]; [done|].
    cbn [pushed]. rewrite length_take. unfold OUT_CAP. cbn [length]. lia. }
  destruct (lookup_lt_is_Some_2 (windows d) k) as [w Hw]; [rewrite (chain_len _ Hch); lia|].
  rewrite Hw. cbn [mbind option_bind].
  destruct (window_filled k d input w) as (d1 & input1 & r1 & Hp & Hk & Ha); [done..|].
  destruct (answer_taken k d input d1 input1 r1) as (d' & input' & r & Ht & Hpost); [done..|].
  exists d', input', r. split; [|done]. intros fuel Hf. rewrite Hp by done. exact Ht.
Qed.

Lemma pull_mono fuel fuel' k j d input x :
  pull fuel k j d input = Some x → fuel ≤ fuel' → pull fuel' k j d input = Some x.
Proof.
  revert fuel' j d input. induction fuel as [|fuel IH]; intros fuel' j d input Hp Hle; [done|].
  destruct fuel' as [|fuel']; [lia|]. cbn [pull] in Hp |- *.
  destruct (pull_turn k j d input) as [[[d1 input1] [r|j']]|]; try done. apply IH; [done|lia].
Qed.

Lemma push_mono fuel fuel' d input x :
  push fuel d input = Some x → fuel ≤ fuel' → push fuel' d input = Some x.
Proof.
  unfold push. intros Hp Hle. destruct (derror d); [done|]. destruct (done d); [done|].
  destruct (length (stages d)) as [|k]; [done|]. destruct (windows d !! k) as [w|]; [|done].
  cbn [mbind option_bind] in *. case_decide; [|done].
  destruct (pull fuel k k d input) as [y|] eqn:Hy; [|done]. by rewrite (pull_mono _ _ _ _ _ _ _ Hy Hle).
Qed.

Lemma Decoder_new_ok codings : decoder_ok (Decoder_new codings).
Proof.
  split; [|done]. split; cbn.
  - rewrite !length_fmap, length_reverse. done.
  - apply Forall_fmap, Forall_true. intros. apply Stage_new_ok.
  - apply Forall_fmap, Forall_true. intros. apply Nat.le_0_l.
Qed.

Lemma reached_ok codings d : reached codings d → decoder_ok d.
Proof.
  induction 1 as [|fuel d input d' input' r _ IH Hp]; [apply Decoder_new_ok|].
  destruct (push_ok d input IH) as (d1 & i1 & r1 & Hall & Hok & _).
  specialize (Hall (max fuel (push_fuel d input)) ltac:(lia)).
  apply (push_mono _ (max fuel (push_fuel d input))) in Hp; [|lia]. by simplify_eq.
Qed.

(** C25. Decoding a response body always comes to an answer, and a bounded one.
    Whatever the content codings, the bytes received and the calls made so far,
    [push] returns: with a chunk of one to [OUT_CAP] bytes, with nothing and
    all the input used, or with a failure that has a code of node's and that
    the decoder keeps.  What it left of the input is the end of it; no stage
    is run over a window that still holds data, none gets stuck, and a deflate
    decoder that has ended is not run again before it is reset.  Assumed is of
    the decoders what [CodecLaws] says. *)

Theorem push_answers (codings : list Coding) (d : Decoder) (input : list byte) :
  reached codings d →
  ∃ d' input' r, (∀ fuel, push_fuel d input ≤ fuel → push fuel d input = Some (d', input', r)) ∧
    (∃ used, input = used ++ input') ∧ pushed d' input' r.
Proof.
  intros Hr. destruct (push_ok d input (reached_ok _ _ Hr)) as (d' & i' & r & Hp & _ & Hpost).
  by exists d', i', r.
Qed.
End Pull.

(** ** The laws can hold

    The toy deflate decoder with copying brotli and zstd decoders. *)

Module ToyCodecs.
#[global] Instance brotli : Brotli := {|
  BrotliState := unit;
  brotli_new := tt;
  brotli_decompress := λ s src room,
    (if decide (length src ≤ room) then BNeedsMoreInput else BNeedsMoreOutput,
     min (length src) room, take room src, s);
  brotli_error := λ _, (bs "BROTLI_DECODER_ERROR_UNREACHABLE", (-31)%Z)
|}.

#[global] Instance zstd : Zstd := {|
  DCtx := unit;
  dctx_create := tt;
  decompress_stream := λ s src room, (Ok 1%Z, min (length src) room, take room src, s);
  get_error_name := λ _, bs "Error (generic)"
|}.

Lemma toy_expands core src out pos flags st c p core' out' :
  Toy.toy_decompress core src out pos flags = (st, c, p, core', out') →
  p ≤ c ∧ (core ≠ None → src ≠ [] → pos < length out → 0 < c ∨ 0 < p) ∧ (st ≠ TDone → core' ≠ None).
Proof.
  unfold Toy.toy_decompress, Toy.toy_n.
  destruct core as [[|left]|]; [destruct src as [|b src]; [|destruct b]| |]; intros [= <- <- <- <- <-];
    (split; [lia|split; [intros Hc Hs Hp|congruence]]); try done; try lia.
  left. destruct src; [done|]. cbn [length].
  destruct (_ `min` _) eqn:E; lia.
Qed.

Lemma toy_unfinished flags (core : option nat) : unfinished (H := Toy.miniz) flags core → core ≠ None.
Proof.
  induction 1 as [| |core src out pos st c p core' out' _ _ Hd Hst]; [done..|].
  apply (toy_expands core src out pos flags st c p core' out') in Hd as (_ & _ & H). by apply H.
Qed.

#[global] Instance codec_laws : CodecLaws (HM := Toy.miniz).
Proof.
  refine {| gain := 1; mweight := λ _, 0; bweight := λ _, 0; zweight := λ _, 0 |};
    cbn [decompress Toy.miniz brotli_decompress brotli decompress_stream zstd].
  - lia.
  - lia.
  - intros * [H _]%toy_expands _. lia.
  - intros * Hu%toy_unfinished (_ & H & _)%toy_expands _. by apply H.
  - intros * [= <- <- <- <-]. rewrite length_take. lia.
  - intros * [= <- <- <- <-]. rewrite length_take. lia.
  - intros *. case_decide; intros [= <- <- <-]. lia.
  - intros *. case_decide; intros [= <- <- <-]. rewrite length_take. lia.
  - intros * [= <- <- <- <-]. rewrite length_take. lia.
  - intros * [= <- <- <- <-]. rewrite length_take. lia.
  - intros * [= <- <- <- <-] Hs Hr. destruct src; [done|]. cbn [length]. lia.
Defined.
End ToyCodecs.

Section Examples.
#[local] Existing Instances Toy.miniz Toy.checksums.

(** A gzip body sent as brotli, in two frames. *)

Definition two_frames
  : option (result DecodeError (option (list byte)) * result DecodeError (option (list byte))) :=
  '(d, _, r) ← push 1000 (Decoder_new [Gzip; Br]) (take 5 toy_gzip);
  '(_, _, r') ← push (push_fuel d (drop 5 toy_gzip)) d (drop 5 toy_gzip);
  Some (r, r').

Lemma two_frames_decode : two_frames = Some (Ok None, Ok (Some (bs "hi"))).
Proof. vm_compute. reflexivity. Qed.

Lemma push_answers_witness :
  ∃ d d' input', reached [Gzip; Br] d ∧
    push (push_fuel d (drop 5 toy_gzip)) d (drop 5 toy_gzip) = Some (d', input', Ok (Some (bs "hi"))) ∧
    pushed d' input' (Ok (Some (bs "hi"))).
Proof.
  pose proof two_frames_decode as E. unfold two_frames in E.
  destruct (push 1000 (Decoder_new [Gzip; Br]) (take 5 toy_gzip)) as [[[d i] r]|] eqn:E1; [|discriminate E].
  cbn [mbind option_bind] in E.
  assert (reached [Gzip; Br] d) as Hr by (eapply reached_push; [apply reached_new|exact E1]).
  destruct (push_answers [Gzip; Br] d (drop 5 toy_gzip) Hr) as (d' & i' & r' & Hp & _ & Hpost).
  specialize (Hp _ (Nat.le_refl _)). rewrite Hp in E. cbn [mbind option_bind] in E.
  injection E as _ ->. exists d, d', i'. split; [exact Hr|]. split; [exact Hp|exact Hpost].
Defined.
End Examples.
