(* ===== verification/Pool.v ===== *)
(** * Pool: [oam_core/src/http_client/pool.rs]

    The connection pool of a fetch: which connection a request goes out on,
    when it is kept, and when it is closed.

    Many tasks share a pool.  A task is a machine whose states are the places
    it can be interrupted at: an await, or the point before it takes one of
    the pool's locks.  [sys_step] lets one task take one step, or the world do
    something (time passes, a peer closes, bytes arrive), so a run is any
    interleaving.  An [Instant] or a [Duration] is its nanoseconds.

    A connection is its number; what hyper and the kernel know about it is its
    [ConnState], which the world changes.  [opened_for] is the key it was
    dialled under, which no operation reads. *)

From S2P Require Import Prelude RustStd StdNet HttpHead Permissions Redirect Fetch.

(** ** Time *)

Definition millis (n : Z) : Z := (n * 1000000)%Z.

Definition FRESH_GATE : Z := millis 1.
Definition SETTLE : Z := millis 250.
Definition DISTRUST : Z := millis 60000.
Definition DEFAULT_IDLE_TIMEOUT : Z := millis 90000.
Definition MIN_REAP_TICK : Z := millis 90.
Definition MAX_ATTEMPTS : nat := 3.

Definition saturating_duration_since (now earlier : Z) : Z := Z.max 0 (now - earlier).

Definition fresh_delay (parked_at now window : Z) : option Z :=
  let age := saturating_duration_since now parked_at in
  if (age <? window)%Z then Some (window - age)%Z else None.

(** [checked_sub], and the rest when it is not zero. *)

Definition idle_left (timeout now parked_at : Z) : option Z :=
  let remaining := (timeout - saturating_duration_since now parked_at)%Z in
  if (0 <? remaining)%Z then Some remaining else None.

(** ** What the transport is asked

    The parts of an [http::Uri] and the errors of the crates below. *)

Inductive Alpn : Type := ANone | Http1 | AllowH2.

#[global] Instance Alpn_eq_dec : EqDecision Alpn.
Proof. solve_decision. Defined.

#[global] Instance Alpn_countable : Countable Alpn.
Proof.
  refine (inj_countable' (λ a, match a with ANone => 0 | Http1 => 1 | AllowH2 => 2 end)
    (λ n, match n with 0 => ANone | 1 => Http1 | _ => AllowH2 end) _).
  by intros [].
Defined.

Class PoolOps `{UrlOps} : Type := {
  Scheme : Type;
  Scheme_eq_dec :: EqDecision Scheme;
  Scheme_countable :: Countable Scheme;
  HTTPS : Scheme;
  scheme_str : Scheme → list byte;
  Authority : Type;
  Authority_eq_dec :: EqDecision Authority;
  Authority_countable :: Countable Authority;
  uri_scheme : Uri → option Scheme;
  uri_authority : Uri → option Authority;
  uri_port_u16 : Uri → option Z;
  uri_path_and_query : Uri → option (list byte);
  uri_origin : Scheme → Authority → Uri;
  uri_of_path : list byte → Uri;
  uri_of_authority : Authority → Uri;
  uri_default : Uri;
  header_value_from_str : list byte → option (list byte);
  header_to_str : list byte → option (list byte);
  BoxError : Type;
  box_text : list byte → BoxError;
  HyperError : Type;
  is_user : HyperError → bool
}.

Section Pool.
Context `{HU : UrlOps} `{HH : HeaderOps} `{HP : !PoolOps}.

Definition PoolKey : Type := Scheme * Authority * Alpn.

(** ** Connections *)

Record ConnState : Type := {
  opened_for : PoolKey;
  is_h2_conn : bool;
  is_closed : bool;
  peer_closed : bool;
  closed_here : bool;
  uses : Z;
  read_bytes : Z;
  leases : option Z
}.

Abbreviation Net := (gmap nat ConnState).

Definition set_closed (c : ConnState) : ConnState :=
  {| opened_for := opened_for c; is_h2_conn := is_h2_conn c; is_closed := true;
     peer_closed := peer_closed c; closed_here := closed_here c; uses := uses c;
     read_bytes := read_bytes c; leases := leases c |}.

Definition set_peer_closed (c : ConnState) : ConnState :=
  {| opened_for := opened_for c; is_h2_conn := is_h2_conn c; is_closed := is_closed c;
     peer_closed := true; closed_here := closed_here c; uses := uses c;
     read_bytes := read_bytes c; leases := leases c |}.

Definition set_closed_here (c : ConnState) : ConnState :=
  {| opened_for := opened_for c; is_h2_conn := is_h2_conn c; is_closed := is_closed c;
     peer_closed := peer_closed c; closed_here := true; uses := uses c;
     read_bytes := read_bytes c; leases := leases c |}.

Definition add_read (n : Z) (c : ConnState) : ConnState :=
  {| opened_for := opened_for c; is_h2_conn := is_h2_conn c; is_closed := is_closed c;
     peer_closed := peer_closed c; closed_here := closed_here c; uses := uses c;
     read_bytes := (read_bytes c + n)%Z; leases := leases c |}.

Definition add_use (c : ConnState) : ConnState :=
  {| opened_for := opened_for c; is_h2_conn := is_h2_conn c; is_closed := is_closed c;
     peer_closed := peer_closed c; closed_here := closed_here c; uses := (uses c + 1)%Z;
     read_bytes := read_bytes c; leases := leases c |}.

Definition add_lease (c : ConnState) : ConnState :=
  {| opened_for := opened_for c; is_h2_conn := is_h2_conn c; is_closed := is_closed c;
     peer_closed := peer_closed c; closed_here := closed_here c; uses := uses c;
     read_bytes := read_bytes c; leases := (λ n, n + 1)%Z <$> leases c |}.

(** A read of a flag of a connection; every connection a task holds is there. *)

Definition flag (f : ConnState → bool) (net : Net) (c : nat) : bool :=
  match net !! c with
  | Some s => f s
  | None => true
  end.

Record ConnStats : Type := { stats_of : nat; read_at_checkout : option Z }.

Definition read_count (net : Net) (c : nat) : Z :=
  match net !! c with
  | Some s => read_bytes s
  | None => 0%Z
  end.

Definition clone_stats (net : Net) (s : ConnStats) : ConnStats :=
  {| stats_of := stats_of s;
     read_at_checkout := Some (default (read_count net (stats_of s)) (read_at_checkout s)) |}.

Definition count_one (net : Net) (s : ConnStats) : Net * bool :=
  (alter add_use (stats_of s) net,
   match net !! stats_of s with
   | Some c => (0 <? uses c)%Z
   | None => false
   end).

Definition stats_response_started (net : Net) (s : ConnStats) : bool :=
  match read_at_checkout s with
  | Some at_ => (at_ <? read_count net (stats_of s))%Z
  | None => true
  end.

(** The facts about a connection a response carries: its closer's number and
    which checkout this is. *)

Record ConnInfo : Type := { connection : option nat; lease : option Z }.

Definition take_lease (net : Net) (i : ConnInfo) : Net * ConnInfo :=
  match connection i with
  | Some c =>
      match net !! c ≫= leases with
      | Some n => (alter add_lease c net, {| connection := connection i; lease := Some (n + 1)%Z |})
      | None => (net, i)
      end
  | None => (net, i)
  end.

(** ** The pool *)

Record IdleH1 : Type := {
  sender : nat;
  idle_stats : ConnStats;
  idle_info : ConnInfo;
  idle_proxied : bool;
  parked_at : Z
}.

Record H2Entry : Type := {
  h2_sender : nat;
  h2_stats : ConnStats;
  h2_info : ConnInfo;
  h2_proxied : bool
}.

Record PoolInner : Type := {
  idle : gmap PoolKey (list IdleH1);
  h2s : gmap PoolKey H2Entry;
  idle_timeout : option Z;
  generation : Z;
  reaper_started : bool;
  early : gmap PoolKey Z
}.

Definition PoolInner_new (idle_timeout : option Z) : PoolInner :=
  {| idle := ∅; h2s := ∅; idle_timeout := idle_timeout; generation := 0; reaper_started := false;
     early := ∅ |}.

Definition set_idle (m : gmap PoolKey (list IdleH1)) (p : PoolInner) : PoolInner :=
  {| idle := m; h2s := h2s p; idle_timeout := idle_timeout p; generation := generation p;
     reaper_started := reaper_started p; early := early p |}.

Definition set_h2s (m : gmap PoolKey H2Entry) (p : PoolInner) : PoolInner :=
  {| idle := idle p; h2s := m; idle_timeout := idle_timeout p; generation := generation p;
     reaper_started := reaper_started p; early := early p |}.

Definition set_generation (g : Z) (p : PoolInner) : PoolInner :=
  {| idle := idle p; h2s := h2s p; idle_timeout := idle_timeout p; generation := g;
     reaper_started := reaper_started p; early := early p |}.

Definition set_reaper_started (p : PoolInner) : PoolInner :=
  {| idle := idle p; h2s := h2s p; idle_timeout := idle_timeout p; generation := generation p;
     reaper_started := true; early := early p |}.

Definition set_early (m : gmap PoolKey Z) (p : PoolInner) : PoolInner :=
  {| idle := idle p; h2s := h2s p; idle_timeout := idle_timeout p; generation := generation p;
     reaper_started := reaper_started p; early := m |}.

Definition is_dead (net : Net) (e : IdleH1) : bool :=
  flag is_closed net (sender e) || flag peer_closed net (stats_of (idle_stats e)).

Definition settling (net : Net) (now : Z) (e : IdleH1) : bool :=
  negb (is_dead net e) && (saturating_duration_since now (parked_at e) <? SETTLE)%Z.

Definition saw_an_early_close (now : Z) (key : PoolKey) (p : PoolInner) : PoolInner :=
  set_early (<[key := (now + DISTRUST)%Z]> (filter (λ ku, (now < ku.2)%Z) (early p))) p.

Definition closes_early (p : PoolInner) (key : PoolKey) (now : Z) : bool :=
  match early p !! key with
  | Some until => (now <? until)%Z
  | None => false
  end.

(** [park], under the lock; [marked] was read before it. *)

Definition park (net : Net) (marked : bool) (key : PoolKey) (entry : IdleH1) (now : Z)
  (p : PoolInner) : PoolInner * bool :=
  let deque := default [] (idle p !! key) in
  if marked && from_option (settling net now) false (last deque) then (p, false)
  else (set_idle (<[key := deque ++ [entry]]> (idle p)) p, true).

(** [clear_expired]: the idle connections and the h2 ones that stay, and how
    long until the next one expires. *)

Definition stays (net : Net) (timeout now : Z) (e : IdleH1) : option Z :=
  match idle_left timeout now (parked_at e) with
  | Some remaining => if flag is_closed net (sender e) then None else Some remaining
  | None => None
  end.

Definition reap_deque (net : Net) (timeout now : Z) (deque : list IdleH1) : option (list IdleH1) :=
  match filter (λ e, is_Some (stays net timeout now e)) deque with
  | [] => None
  | kept => Some kept
  end.

Definition next_expiry (net : Net) (timeout now : Z) (deque : list IdleH1) (next : Z) : Z :=
  foldr (λ e next, match stays net timeout now e with
                   | Some remaining => Z.min next remaining
                   | None => next
                   end) next deque.

Definition clear_expired (net : Net) (timeout now : Z) (p : PoolInner) : PoolInner * Z :=
  let next := map_fold (λ _ deque next, next_expiry net timeout now deque next) timeout (idle p) in
  let p := set_idle (omap (reap_deque net timeout now) (idle p)) p in
  (set_h2s (filter (λ ke, flag is_closed net (h2_sender ke.2) = false) (h2s p)) p, next).

(** ** Checking a connection out *)

Inductive Proto : Type :=
| PH1 (sender : nat) (stats : ConnStats)
| PH2 (sender : nat).

Record Conn : Type := {
  proto : Proto;
  conn_stats : ConnStats;
  conn_info : ConnInfo;
  proxied : bool;
  is_h2 : bool;
  conn_key : PoolKey;
  parked_for : option Z
}.

Definition reuse_h2 (net : Net) (key : PoolKey) (p : PoolInner) : PoolInner * option Conn :=
  match h2s p !! key with
  | None => (p, None)
  | Some entry =>
      if flag is_closed net (h2_sender entry) then (set_h2s (delete key (h2s p)) p, None)
      else
        (p, Some {| proto := PH2 (h2_sender entry); conn_stats := clone_stats net (h2_stats entry);
                    conn_info := h2_info entry; proxied := h2_proxied entry; is_h2 := true;
                    conn_key := key; parked_for := None |})
  end.

(** [reuse_h1] in three pieces: the entry it takes, under the lock; what it
    makes of it; and what it makes of it after the wait. *)

Definition pop_idle (net : Net) (marked : bool) (now : Z) (key : PoolKey) (p : PoolInner)
  : PoolInner * option IdleH1 :=
  match idle p !! key with
  | None => (p, None)
  | Some deque =>
      if marked && from_option (settling net now) false (head deque) then (p, None)
      else
        match deque with
        | [] => (set_idle (delete key (idle p)) p, None)
        | [e] => (set_idle (delete key (idle p)) p, Some e)
        | e :: rest => (set_idle (<[key := rest]> (idle p)) p, Some e)
        end
  end.

Definition hand_out (net : Net) (key : PoolKey) (parked_for : Z) (e : IdleH1) : Conn :=
  {| proto := PH1 (sender e) (idle_stats e); conn_stats := clone_stats net (idle_stats e);
     conn_info := idle_info e; proxied := idle_proxied e; is_h2 := false; conn_key := key;
     parked_for := Some parked_for |}.

Inductive Reuse : Type :=
| RContinue
| RWait (parked_for delay : Z)
| RConn (c : Conn).

Definition look_at (net : Net) (clock now : Z) (key : PoolKey) (e : IdleH1) (p : PoolInner)
  : PoolInner * Reuse :=
  let expired :=
    match idle_timeout p with
    | Some timeout => negb (bool_decide (is_Some (idle_left timeout now (parked_at e))))
    | None => false
    end in
  if (expired : bool) then (p, RContinue)
  else
    let parked_for := saturating_duration_since now (parked_at e) in
    if is_dead net e then
      (if (parked_for <? SETTLE)%Z && negb (flag closed_here net (stats_of (idle_stats e)))
       then saw_an_early_close clock key p else p, RContinue)
    else
      match fresh_delay (parked_at e) now FRESH_GATE with
      | Some delay => (p, RWait parked_for delay)
      | None => (p, RConn (hand_out net key parked_for e))
      end.

Definition look_again (net : Net) (clock : Z) (key : PoolKey) (parked_for : Z) (e : IdleH1)
  (p : PoolInner) : PoolInner * Reuse :=
  if is_dead net e then
    (if negb (flag closed_here net (stats_of (idle_stats e)))
     then saw_an_early_close clock key p else p, RContinue)
  else (p, RConn (hand_out net key parked_for e)).

(** ** [has_idle] *)

Fixpoint would_reuse (net : Net) (timeout now : Z) (marked : bool) (deque : list IdleH1) : bool :=
  match deque with
  | [] => false
  | e :: rest =>
      if negb (bool_decide (is_Some (idle_left timeout now (parked_at e)))) then
        would_reuse net timeout now marked rest
      else if is_dead net e then
        would_reuse net timeout now
          (marked || ((saturating_duration_since now (parked_at e) <? SETTLE)%Z
                      && negb (flag closed_here net (stats_of (idle_stats e))))) rest
      else negb (marked && settling net now e)
  end.

Definition pool_key (uri : Uri) (alpn : Alpn) : option PoolKey :=
  scheme ← uri_scheme uri;
  authority ← uri_authority uri;
  Some (scheme, authority, if decide (scheme = HTTPS) then alpn else ANone).

Definition has_idle (net : Net) (now : Z) (p : PoolInner) (uri : Uri) (alpn : Alpn) : bool :=
  match pool_key uri alpn, idle_timeout p with
  | Some key, Some timeout =>
      match h2s p !! key with
      | Some entry =>
          negb (flag is_closed net (h2_sender entry))
          || would_reuse net timeout now (closes_early p key now) (default [] (idle p !! key))
      | None => would_reuse net timeout now (closes_early p key now) (default [] (idle p !! key))
      end
  | _, _ => false
  end.

(** ** The request on its way *)

(** [Connection: close] among the values. *)

Definition is_blank (b : byte) : bool := in_range 9 13 b || bool_decide (b = x20).

Fixpoint drop_blank (l : list byte) : list byte :=
  match l with
  | b :: l' => if is_blank b then drop_blank l' else l
  | [] => []
  end.

Definition trim (l : list byte) : list byte := reverse (drop_blank (reverse (drop_blank l))).

Definition CONNECTION : list byte := bs "connection".
Definition LOCATION : list byte := bs "location".

Definition says_close (headers : HeaderMap) : bool :=
  existsb (λ value,
    match header_to_str value with
    | Some text => existsb (λ token, eq_ignore_ascii_case (trim token) (bs "close")) (split_on ","%byte text)
    | None => false
    end) (get_all headers CONNECTION).

Definition retires_for_the_hop (response : Response) (method : list byte) (rules : Rules) : bool :=
  is_redirect_status (status response)
  && negb (bool_decide (get_all (headers response) LOCATION = []))
  && negb (rewrites_to_get (status response) method rules).

Definition domain_as_uri (key : PoolKey) : Uri := uri_origin key.1.1 key.1.2.

Definition uri_scheme_str (uri : Uri) : option (list byte) := scheme_str <$> uri_scheme uri.

Definition non_default_port (uri : Uri) : option Z :=
  port ← uri_port_u16 uri;
  let secure := bool_decide (uri_scheme_str uri = Some (bs "https"))
                || bool_decide (uri_scheme_str uri = Some (bs "wss")) in
  if ((port =? 443)%Z && secure) || ((port =? 80)%Z && negb secure) then None else Some port.

Definition origin_form (uri : Uri) : Uri :=
  match uri_path_and_query uri with
  | Some path => if decide (path = bs "/") then uri_default else uri_of_path path
  | None => uri_default
  end.

Definition authority_form (uri : Uri) : Uri :=
  match uri_authority uri with
  | Some authority => uri_of_authority authority
  | None => uri
  end.

Definition rewrite_request_uri (uri : Uri) (is_h2 proxied is_connect : bool) : Uri :=
  if is_h2 then uri
  else if is_connect then authority_form uri
  else if proxied then uri
  else origin_form uri.

(** ** [Dispatched] of [sent.rs]: what a request's signal says *)

Record Checkouts : Type := {
  count : Z;
  on_connection : bool;
  checkout_connection : option nat;
  body_open : bool
}.

Definition awaiting_head (c : Checkouts) : bool := on_connection c && negb (body_open c).

Definition fire_on (connection : option nat) (c : Checkouts) : Checkouts :=
  {| count := (count c + 1)%Z; on_connection := true; checkout_connection := connection;
     body_open := body_open c |}.

Definition dispatch_unsent (c : Checkouts) : Checkouts :=
  {| count := count c; on_connection := false; checkout_connection := checkout_connection c;
     body_open := body_open c |}.

Record PoolRequest : Type := {
  pr_method : list byte;
  pr_uri : Uri;
  pr_headers : HeaderMap;
  pr_dispatched : option Checkouts;
  pr_awaits_body : option bool
}.

Definition set_pr_uri (u : Uri) (r : PoolRequest) : PoolRequest :=
  {| pr_method := pr_method r; pr_uri := u; pr_headers := pr_headers r;
     pr_dispatched := pr_dispatched r; pr_awaits_body := pr_awaits_body r |}.

Definition set_pr_headers (h : HeaderMap) (r : PoolRequest) : PoolRequest :=
  {| pr_method := pr_method r; pr_uri := pr_uri r; pr_headers := h;
     pr_dispatched := pr_dispatched r; pr_awaits_body := pr_awaits_body r |}.

Definition set_pr_dispatched (f : Checkouts → Checkouts) (r : PoolRequest) : PoolRequest :=
  {| pr_method := pr_method r; pr_uri := pr_uri r; pr_headers := pr_headers r;
     pr_dispatched := f <$> pr_dispatched r; pr_awaits_body := pr_awaits_body r |}.

Definition set_pr_awaits_body (o : option bool) (r : PoolRequest) : PoolRequest :=
  {| pr_method := pr_method r; pr_uri := pr_uri r; pr_headers := pr_headers r;
     pr_dispatched := pr_dispatched r; pr_awaits_body := o |}.

Definition set_host_header (is_h2 : bool) (r : PoolRequest) : PoolRequest :=
  if is_h2 || negb (bool_decide (get_all (pr_headers r) HOST = [])) then r
  else
    match uri_host (pr_uri r) with
    | None => r
    | Some hostname =>
        let value := match non_default_port (pr_uri r) with
                     | Some port => hostname ++ bs ":" ++ dec_text port
                     | None => hostname
                     end in
        match header_value_from_str value with
        | Some header => set_pr_headers (hm_insert (pr_headers r) HOST header) r
        | None => r
        end
    end.

(** [HeadAwaitsBody::prime]: how the body began. *)

Inductive Primed : Type :=
| PrimedFirst
| PrimedEnd
| PrimedErr (e : BoxError).

Definition prime_end (empty_content_length : bool) (r : PoolRequest) : PoolRequest :=
  let headers := hm_remove (pr_headers r) TRANSFER_ENCODING in
  set_pr_headers
    (if empty_content_length && bool_decide (get_all headers CONTENT_LENGTH = [])
     then hm_insert headers CONTENT_LENGTH (bs "0") else headers) r.

(** ** [Pool::request]'s own state *)

Record HookPin : Type := { pin_key : list byte }.

Record Dial : Type := { dial_alpn : Alpn; dial_pin : option HookPin }.

Record LookupNeeded : Type := { lookup_key : list byte; lookup_host : list byte }.

Definition authority_key (uri : Uri) : option (list byte) :=
  host ← host_for_connect uri;
  let port := default (if decide (uri_scheme_str uri = Some (bs "https")) then 443 else 80)%Z
                      (uri_port_u16 uri) in
  Some (lowercase host ++ bs ":" ++ dec_text port).

Definition needs_lookup (hooked : bool) (uri : Uri) : option LookupNeeded :=
  if hooked then
    host ← host_for_connect uri;
    if decide (is_Some (parse_ip host)) then None
    else key ← authority_key uri; Some {| lookup_key := key; lookup_host := host |}
  else None.

Inductive PoolError : Type :=
| EConnect (e : BoxError)
| EConnectLookup (needed : LookupNeeded)
| ESendError (e : HyperError)
| EBody (e : BoxError).

Record PoolFail : Type := {
  error : PoolError;
  reused : bool;
  fail_response_started : bool;
  fail_conn : option ConnInfo;
  returned : option PoolRequest
}.

Definition connect_fail (e : PoolError) (returned : option PoolRequest) : PoolFail :=
  {| error := e; reused := false; fail_response_started := false; fail_conn := None;
     returned := returned |}.

(** Where a request stands.  An answer carries the connection's facts and, for
    h1, the task that settles it. *)

Inductive Pc : Type :=
| PcCheckout
| PcMark
| PcPop (now : Z) (marked : bool)
| PcLook (now : Z) (marked : bool) (e : IdleH1)
| PcGate (until : Z) (marked : bool) (parked_for : Z) (e : IdleH1)
| PcDial
| PcConnecting
| PcHave (c : Conn)
| PcPrime (c : Conn)
| PcSend (c : Conn)
| PcDone (r : result PoolFail (Response * ConnInfo * option nat)).

Record Req : Type := {
  req : PoolRequest;
  key : PoolKey;
  original_uri : Uri;
  is_connect : bool;
  unresendable : option (Rules * list byte);
  close_requested : bool;
  dial : Dial;
  allow_reuse : bool;
  attempts : nat;
  pc : Pc
}.

Definition set_pc (c : Pc) (r : Req) : Req :=
  {| req := req r; key := key r; original_uri := original_uri r; is_connect := is_connect r;
     unresendable := unresendable r; close_requested := close_requested r; dial := dial r;
     allow_reuse := allow_reuse r; attempts := attempts r; pc := c |}.

Definition set_req (q : PoolRequest) (r : Req) : Req :=
  {| req := q; key := key r; original_uri := original_uri r; is_connect := is_connect r;
     unresendable := unresendable r; close_requested := close_requested r; dial := dial r;
     allow_reuse := allow_reuse r; attempts := attempts r; pc := pc r |}.

Definition set_dial (d : Dial) (r : Req) : Req :=
  {| req := req r; key := key r; original_uri := original_uri r; is_connect := is_connect r;
     unresendable := unresendable r; close_requested := close_requested r; dial := d;
     allow_reuse := allow_reuse r; attempts := attempts r; pc := pc r |}.

(** The next attempt, which opens a connection; or the end of the loop. *)

Definition retries_exhausted : PoolFail :=
  connect_fail (EConnect (box_text (bs "connection retries exhausted"))) None.

Definition try_again (r : Req) : Req :=
  {| req := req r; key := key r; original_uri := original_uri r; is_connect := is_connect r;
     unresendable := unresendable r; close_requested := close_requested r; dial := dial r;
     allow_reuse := false; attempts := pred (attempts r);
     pc := if decide (pred (attempts r) = 0) then PcDone (Err retries_exhausted) else PcCheckout |}.

(** The request as it is made: before the loop, or over at once. *)

Definition Req_new (q : PoolRequest) (close : bool) (d : Dial) (follows : option Rules)
  : result PoolFail Req :=
  match pool_key (pr_uri q) (dial_alpn d) with
  | None =>
      Err (connect_fail (EConnect (box_text (bs "request url has no scheme or authority"))) None)
  | Some k =>
      Ok {| req := q; key := k; original_uri := pr_uri q;
            is_connect := bool_decide (pr_method q = bs "CONNECT");
            unresendable := if is_idempotent (pr_method q) then None
                            else (λ rules, (rules, pr_method q)) <$> follows;
            close_requested := close; dial := d;
            allow_reuse := bool_decide (dial_pin d = None); attempts := MAX_ATTEMPTS;
            pc := PcCheckout |}
  end.
End Pool.
