(* ===== verification/PoolSys.v ===== *)
(** * PoolSys: the pool and the tasks that share it

    The second half of [http_client/pool.rs]: requests, the tasks that park a
    connection once its response is drained, the reaper, and [destroy], all on
    one pool.  [sys_step] is what one event does to the whole. *)

From S2P Require Import Prelude RustStd HttpHead Permissions Redirect Fetch Pool.

Section System.
Context `{HU : UrlOps} `{HH : HeaderOps} `{HP : !PoolOps}.

Abbreviation Net := (gmap nat ConnState).

(** ** Tasks *)

(** The task [on_success] spawns.  [PkReady] waits for the response to drain;
    [PkPush] has read the marks and is before the idle lock. *)

Inductive ParkPc : Type :=
| PkReady
| PkPush (now : Z) (marked : bool).

Record ParkTask : Type := {
  pk_sender : nat;
  pk_stats : ConnStats;
  pk_key : PoolKey;
  pk_info : ConnInfo;
  pk_proxied : bool;
  should_park : bool;
  gen_id : Z;
  pk_pc : ParkPc
}.

Definition set_pk_pc (c : ParkPc) (t : ParkTask) : ParkTask :=
  {| pk_sender := pk_sender t; pk_stats := pk_stats t; pk_key := pk_key t; pk_info := pk_info t;
     pk_proxied := pk_proxied t; should_park := should_park t; gen_id := gen_id t; pk_pc := c |}.

(** The locks [destroy] has still to take. *)

Inductive DestroyPc : Type := DIdle | DH2.

Record Sys : Type := {
  clock : Z;
  net : Net;
  pool : PoolInner;
  hooked : bool;
  reqs : gmap nat Req;
  parks : gmap nat ParkTask;
  destroys : gmap nat DestroyPc;
  reaper : option Z;
  next_conn : nat;
  next_park : nat
}.

Definition Sys_new (hooked : bool) (idle_timeout : option Z) : Sys :=
  {| clock := 0; net := ∅; pool := PoolInner_new idle_timeout; hooked := hooked; reqs := ∅;
     parks := ∅; destroys := ∅; reaper := None; next_conn := 0; next_park := 0 |}.

Definition set_clock (c : Z) (s : Sys) : Sys :=
  {| clock := c; net := net s; pool := pool s; hooked := hooked s; reqs := reqs s; parks := parks s;
     destroys := destroys s; reaper := reaper s; next_conn := next_conn s; next_park := next_park s |}.

Definition set_net (n : Net) (s : Sys) : Sys :=
  {| clock := clock s; net := n; pool := pool s; hooked := hooked s; reqs := reqs s; parks := parks s;
     destroys := destroys s; reaper := reaper s; next_conn := next_conn s; next_park := next_park s |}.

Definition set_pool (p : PoolInner) (s : Sys) : Sys :=
  {| clock := clock s; net := net s; pool := p; hooked := hooked s; reqs := reqs s; parks := parks s;
     destroys := destroys s; reaper := reaper s; next_conn := next_conn s; next_park := next_park s |}.

Definition set_reqs (m : gmap nat Req) (s : Sys) : Sys :=
  {| clock := clock s; net := net s; pool := pool s; hooked := hooked s; reqs := m; parks := parks s;
     destroys := destroys s; reaper := reaper s; next_conn := next_conn s; next_park := next_park s |}.

Definition set_parks (m : gmap nat ParkTask) (s : Sys) : Sys :=
  {| clock := clock s; net := net s; pool := pool s; hooked := hooked s; reqs := reqs s; parks := m;
     destroys := destroys s; reaper := reaper s; next_conn := next_conn s; next_park := next_park s |}.

Definition set_destroys (m : gmap nat DestroyPc) (s : Sys) : Sys :=
  {| clock := clock s; net := net s; pool := pool s; hooked := hooked s; reqs := reqs s;
     parks := parks s; destroys := m; reaper := reaper s; next_conn := next_conn s;
     next_park := next_park s |}.

Definition set_reaper (w : option Z) (s : Sys) : Sys :=
  {| clock := clock s; net := net s; pool := pool s; hooked := hooked s; reqs := reqs s;
     parks := parks s; destroys := destroys s; reaper := w; next_conn := next_conn s;
     next_park := next_park s |}.

Definition put_req (t : nat) (r : Req) (s : Sys) : Sys := set_reqs (<[t := r]> (reqs s)) s.

(** A connection dialled now: nothing has happened on it. *)

Definition add_conn (c : ConnState) (s : Sys) : Sys :=
  {| clock := clock s; net := <[next_conn s := c]> (net s); pool := pool s; hooked := hooked s;
     reqs := reqs s; parks := parks s; destroys := destroys s; reaper := reaper s;
     next_conn := S (next_conn s); next_park := next_park s |}.

Definition spawn_park (t : ParkTask) (s : Sys) : Sys :=
  {| clock := clock s; net := net s; pool := pool s; hooked := hooked s; reqs := reqs s;
     parks := <[next_park s := t]> (parks s); destroys := destroys s; reaper := reaper s;
     next_conn := next_conn s; next_park := S (next_park s) |}.

(** Dropping an h1 sender closes its connection. *)

Definition drop_sender (c : nat) (s : Sys) : Sys := set_net (alter set_closed c (net s)) s.

Definition drop_proto (p : Proto) (s : Sys) : Sys :=
  match p with
  | PH1 c _ => drop_sender c s
  | PH2 _ => s
  end.

Definition drop_entries (l : list IdleH1) (n : Net) : Net :=
  foldr (λ e n, alter set_closed (sender e) n) n l.

(** ** Events *)

Inductive SendOutcome : Type :=
| SOk (response : Response)
| SUnsent (e : HyperError)
| SSent (e : HyperError).

Inductive Event : Type :=
| ETick (d : Z)
| EClose (c : nat)
| EPeerClose (c : nat)
| ECloseHere (c : nat)
| ERead (c : nat) (n : Z)
| ERequest (t : nat) (q : PoolRequest) (close : bool) (d : Dial) (follows : option Rules)
| ERun (t : nat)
| EDialled (t : nat) (r : result BoxError (bool * bool * bool))
| EPrimed (t : nat) (o : Primed)
| ESent (t : nat) (o : SendOutcome)
| EReady (p : nat) (ok : bool)
| EPush (p : nat)
| EReap
| EDestroy (t : nat)
| EDestroyRun (t : nat).

(** ** The steps of a request *)

Definition done (r : result PoolFail (Response * ConnInfo * option nat)) (q : Req) : Req :=
  set_pc (PcDone r) q.

(** [checkout] up to the dial; an entry that is not taken is dropped. *)

Definition reuse_step (t : nat) (q : Req) (e : IdleH1) (p : PoolInner) (marked : bool) (r : Reuse)
  (s : Sys) : Sys :=
  let s := set_pool p s in
  match r with
  | RContinue => put_req t (set_pc PcMark q) (drop_sender (sender e) s)
  | RWait parked_for delay => put_req t (set_pc (PcGate (clock s + delay) marked parked_for e) q) s
  | RConn c => put_req t (set_pc (PcHave c) q) s
  end.

Definition dial_step (q : Req) (hooked : bool) : Req :=
  match needs_lookup hooked (domain_as_uri (key q)) with
  | None => set_pc PcConnecting q
  | Some needed =>
      let q' := set_dial {| dial_alpn := dial_alpn (dial q); dial_pin := None |} q in
      match dial_pin (dial q) with
      | Some pin =>
          if decide (pin_key pin = lookup_key needed) then set_pc PcConnecting q'
          else done (Err (connect_fail (EConnectLookup needed)
                           (Some (set_pr_uri (original_uri q) (req q))))) q'
      | None =>
          done (Err (connect_fail (EConnectLookup needed)
                      (Some (set_pr_uri (original_uri q) (req q))))) q'
      end
  end.

(** The request as it goes out on [c]. *)

Definition rewritten (q : Req) (c : Conn) : PoolRequest :=
  let r := set_host_header (is_h2 c) (set_pr_uri (original_uri q) (req q)) in
  set_pr_uri (rewrite_request_uri (pr_uri r) (is_h2 c) (proxied c) (is_connect q)) r.

Definition set_conn_info (i : ConnInfo) (c : Conn) : Conn :=
  {| proto := proto c; conn_stats := conn_stats c; conn_info := i; proxied := proxied c;
     is_h2 := is_h2 c; conn_key := conn_key c; parked_for := parked_for c |}.

Definition hand_over (t : nat) (q : Req) (c : Conn) (s : Sys) : Sys :=
  put_req t (set_pc (PcSend c) (set_req (rewritten q c) q)) s.

Definition run_req (t : nat) (q : Req) (s : Sys) : option Sys :=
  match pc q with
  | PcCheckout =>
      if allow_reuse q && bool_decide (is_Some (idle_timeout (pool s))) then
        let '(p, found) := reuse_h2 (net s) (key q) (pool s) in
        Some (put_req t (set_pc (match found with Some c => PcHave c | None => PcMark end) q)
                (set_pool p s))
      else Some (put_req t (set_pc PcDial q) s)
  | PcMark =>
      Some (put_req t (set_pc (PcPop (clock s) (closes_early (pool s) (key q) (clock s))) q) s)
  | PcPop now marked =>
      let '(p, found) := pop_idle (net s) marked now (key q) (pool s) in
      Some (put_req t (set_pc (match found with Some e => PcLook now marked e | None => PcDial end) q)
              (set_pool p s))
  | PcLook now marked e =>
      let '(p, r) := look_at (net s) (clock s) now (key q) e (pool s) in
      Some (reuse_step t q e p marked r s)
  | PcGate until marked parked_for e =>
      if decide (until ≤ clock s)%Z then
        let '(p, r) := look_again (net s) (clock s) (key q) parked_for e (pool s) in
        Some (reuse_step t q e p marked r s)
      else None
  | PcDial => Some (put_req t (dial_step q (hooked s)) s)
  | PcHave c =>
      let q := set_req (set_pr_dispatched (fire_on (connection (conn_info c))) (req q)) q in
      let '(n, info) := take_lease (net s) (conn_info c) in
      let c := set_conn_info info c in
      match pr_awaits_body (req q) with
      | Some _ => Some (put_req t (set_pc (PcPrime c) q) (set_net n s))
      | None => Some (hand_over t q c (set_net n s))
      end
  | PcConnecting | PcPrime _ | PcSend _ | PcDone _ => None
  end.

(** [connect], once the dial and the handshake are over. *)

Definition new_stats (c : nat) : ConnStats := {| stats_of := c; read_at_checkout := None |}.

Definition dialled (t : nat) (q : Req) (h2 proxied closer : bool) (s : Sys) : Sys :=
  let c := next_conn s in
  let info := {| connection := if closer then Some c else None; lease := None |} in
  let s := add_conn {| opened_for := key q; is_h2_conn := h2; is_closed := false; peer_closed := false;
                       closed_here := false; uses := 0; read_bytes := 0;
                       leases := if closer then Some 0%Z else None |} s in
  let stats := clone_stats (net s) (new_stats c) in
  if h2 then
    put_req t
      (set_pc (PcHave {| proto := PH2 c; conn_stats := stats; conn_info := info; proxied := proxied;
                         is_h2 := true; conn_key := key q; parked_for := None |}) q)
      (set_pool
         (set_h2s (<[key q := {| h2_sender := c; h2_stats := new_stats c; h2_info := info;
                                 h2_proxied := proxied |}]> (h2s (pool s))) (pool s)) s)
  else
    put_req t
      (set_pc (PcHave {| proto := PH1 c (new_stats c); conn_stats := stats; conn_info := info;
                         proxied := proxied; is_h2 := false; conn_key := key q;
                         parked_for := None |}) q) s.

(** [prime]: the body's first chunk, or its end, or its failure. *)

Definition primed (t : nat) (q : Req) (c : Conn) (o : Primed) (s : Sys) : Sys :=
  let gate := default false (pr_awaits_body (req q)) in
  let q := set_req (set_pr_awaits_body None (req q)) q in
  match o with
  | PrimedFirst => hand_over t q c s
  | PrimedEnd => hand_over t (set_req (prime_end gate (req q)) q) c s
  | PrimedErr e =>
      put_req t
        (done (Err {| error := EBody e; reused := false; fail_response_started := false;
                      fail_conn := Some (conn_info c); returned := None |}) q)
        (drop_proto (proto c) s)
  end.

(** [on_success] and [on_failure]. *)

Definition on_success (c : Conn) (response : Response) (close : bool) (s : Sys) : Sys * option nat :=
  match proto c with
  | PH2 _ => (s, None)
  | PH1 sender stats =>
      (spawn_park {| pk_sender := sender; pk_stats := stats; pk_key := conn_key c;
                     pk_info := conn_info c; pk_proxied := proxied c;
                     should_park := negb close && negb (says_close (headers response));
                     gen_id := generation (pool s); pk_pc := PkReady |} s,
       Some (next_park s))
  end.

Definition on_failure (c : Conn) (s : Sys) : Sys :=
  match proto c with
  | PH1 sender _ => drop_sender sender s
  | PH2 sender =>
      if is_h2 c && flag is_closed (net s) sender then
        match h2s (pool s) !! conn_key c with
        | Some e =>
            if flag is_closed (net s) (h2_sender e)
            then set_pool (set_h2s (delete (conn_key c) (h2s (pool s))) (pool s)) s else s
        | None => s
        end
      else s
  end.

Definition closed_early (c : Conn) (n : Net) : bool :=
  match parked_for c with
  | Some parked => (parked <? SETTLE)%Z
  | None => false
  end && negb (flag closed_here n (stats_of (conn_stats c))).

Definition mark_early (b : bool) (k : PoolKey) (s : Sys) : Sys :=
  if b then set_pool (saw_an_early_close (clock s) k (pool s)) s else s.

Definition sent (t : nat) (q : Req) (c : Conn) (o : SendOutcome) (s : Sys) : Sys :=
  let '(n, reused) := count_one (net s) (conn_stats c) in
  let s := set_net n s in
  let started := stats_response_started (net s) (conn_stats c) in
  let failed e := done (Err {| error := ESendError e; reused := reused;
                               fail_response_started := started; fail_conn := Some (conn_info c);
                               returned := None |}) q in
  match o with
  | SOk response =>
      let retire := match unresendable q with
                    | Some (rules, method) => retires_for_the_hop response method rules
                    | None => false
                    end in
      let '(s, settles) := on_success c response (close_requested q || retire) s in
      put_req t (done (Ok (response, conn_info c, settles)) q) s
  | SUnsent e =>
      let s := mark_early (closed_early c (net s)) (conn_key c) s in
      let s := on_failure c s in
      if reused && allow_reuse q
      then put_req t (try_again (set_req (set_pr_dispatched dispatch_unsent (req q)) q)) s
      else put_req t (failed e) s
  | SSent e =>
      let s := mark_early (closed_early c (net s) && negb started && negb (is_user e)) (conn_key c) s in
      put_req t (failed e) (on_failure c s)
  end.

(** ** The other tasks *)

Definition ready (p : nat) (k : ParkTask) (ok : bool) (s : Sys) : Sys :=
  if ok && should_park k && (generation (pool s) =? gen_id k)%Z then
    set_parks (<[p := set_pk_pc (PkPush (clock s) (closes_early (pool s) (pk_key k) (clock s))) k]>
                 (parks s)) s
  else drop_sender (pk_sender k) (set_parks (delete p (parks s)) s).

Definition ensure_reaper (s : Sys) : Sys :=
  match idle_timeout (pool s) with
  | None => s
  | Some timeout =>
      if reaper_started (pool s) then s
      else set_reaper (Some (clock s + Z.max timeout MIN_REAP_TICK)%Z)
             (set_pool (set_reaper_started (pool s)) s)
  end.

Definition push_park (p : nat) (k : ParkTask) (now : Z) (marked : bool) (s : Sys) : Sys :=
  let entry := {| sender := pk_sender k; idle_stats := pk_stats k; idle_info := pk_info k;
                  idle_proxied := pk_proxied k; parked_at := now |} in
  let '(q, parked) := park (net s) marked (pk_key k) entry now (pool s) in
  let s := set_parks (delete p (parks s)) (set_pool q s) in
  if (parked : bool) then ensure_reaper s else drop_sender (pk_sender k) s.

(** The entries a pass of the reaper drops. *)

Definition reaped (n : Net) (timeout now : Z) (deque : list IdleH1) : list IdleH1 :=
  filter (λ e, ¬ is_Some (stays n timeout now e)) deque.

Definition drop_all (f : list IdleH1 → list IdleH1) (m : gmap PoolKey (list IdleH1)) (n : Net) : Net :=
  map_fold (λ _ deque n, drop_entries (f deque) n) n m.

Definition reap (timeout : Z) (s : Sys) : Sys :=
  let '(p, next) := clear_expired (net s) timeout (clock s) (pool s) in
  set_reaper (Some (clock s + Z.max next MIN_REAP_TICK)%Z)
    (set_net (drop_all (reaped (net s) timeout (clock s)) (idle (pool s)) (net s)) (set_pool p s)).

Definition destroy_run (t : nat) (d : DestroyPc) (s : Sys) : Sys :=
  match d with
  | DIdle =>
      set_destroys (<[t := DH2]> (destroys s))
        (set_net (drop_all id (idle (pool s)) (net s)) (set_pool (set_idle ∅ (pool s)) s))
  | DH2 => set_destroys (delete t (destroys s)) (set_pool (set_h2s ∅ (pool s)) s)
  end.

(** ** The whole *)

Definition sys_step (s : Sys) (e : Event) : option Sys :=
  match e with
  | ETick d => if decide (0 ≤ d)%Z then Some (set_clock (clock s + d) s) else None
  | EClose c => Some (set_net (alter set_closed c (net s)) s)
  | EPeerClose c => Some (set_net (alter set_peer_closed c (net s)) s)
  | ECloseHere c => Some (set_net (alter set_closed_here c (net s)) s)
  | ERead c n => if decide (0 ≤ n)%Z then Some (set_net (alter (add_read n) c (net s)) s) else None
  | ERequest t q close d follows =>
      match reqs s !! t with
      | Some _ => None
      | None =>
          match Req_new q close d follows with
          | Ok r => Some (put_req t r s)
          | Err _ => Some s
          end
      end
  | ERun t => q ← reqs s !! t; run_req t q s
  | EDialled t r =>
      q ← reqs s !! t;
      match pc q, r with
      | PcConnecting, Ok (h2, proxied, closer) => Some (dialled t q h2 proxied closer s)
      | PcConnecting, Err e => Some (put_req t (done (Err (connect_fail (EConnect e) None)) q) s)
      | _, _ => None
      end
  | EPrimed t o =>
      q ← reqs s !! t;
      match pc q with
      | PcPrime c => Some (primed t q c o s)
      | _ => None
      end
  | ESent t o =>
      q ← reqs s !! t;
      match pc q with
      | PcSend c => Some (sent t q c o s)
      | _ => None
      end
  | EReady p ok =>
      k ← parks s !! p;
      match pk_pc k with
      | PkReady => Some (ready p k ok s)
      | _ => None
      end
  | EPush p =>
      k ← parks s !! p;
      match pk_pc k with
      | PkPush now marked => Some (push_park p k now marked s)
      | _ => None
      end
  | EReap =>
      match reaper s, idle_timeout (pool s) with
      | Some wake, Some timeout => if decide (wake ≤ clock s)%Z then Some (reap timeout s) else None
      | _, _ => None
      end
  | EDestroy t =>
      match destroys s !! t with
      | Some _ => None
      | None =>
          Some (set_destroys (<[t := DIdle]> (destroys s))
                  (set_pool (set_generation (wrap_u 64 (generation (pool s) + 1)) (pool s)) s))
      end
  | EDestroyRun t => d ← destroys s !! t; Some (destroy_run t d s)
  end.

Fixpoint sys_run (s : Sys) (es : list Event) : option Sys :=
  match es with
  | [] => Some s
  | e :: es => s ← sys_step s e; sys_run s es
  end.
End System.
