(* ===== verification/PoolInv.v ===== *)
(** * PoolInv: what holds in every state of the pool

    Whatever the tasks do and however they interleave: an h1 connection is in
    one place at a time, and a connection serves only the key it was opened
    for. *)

From S2P Require Import Prelude RustStd HttpHead Permissions Redirect Fetch Pool PoolSys.

Section Inv.
Context `{HU : UrlOps} `{HH : HeaderOps} `{HP : !PoolOps}.

Abbreviation Net := (gmap nat ConnState).

(** ** Where a connection is *)

Inductive Place : Type :=
| AtIdle (k : PoolKey)
| AtReq (t : nat)
| AtPark (p : nat).

Definition proto_h1 (p : Proto) : option nat :=
  match p with
  | PH1 c _ => Some c
  | PH2 _ => None
  end.

Definition held_req (q : Req) : option nat :=
  match pc q with
  | PcLook _ _ e | PcGate _ _ _ e => Some (sender e)
  | PcHave c | PcPrime c | PcSend c => proto_h1 (proto c)
  | _ => None
  end.

Definition holds (s : Sys) (pl : Place) (c : nat) : Prop :=
  match pl with
  | AtIdle k => ∃ d, idle (pool s) !! k = Some d ∧ c ∈ sender <$> d
  | AtReq t => ∃ q, reqs s !! t = Some q ∧ held_req q = Some c
  | AtPark p => ∃ k, parks s !! p = Some k ∧ pk_sender k = c
  end.

(** ** What is known of each part *)

Definition opened (n : Net) (h2 : bool) (k : PoolKey) (c : nat) : Prop :=
  ∃ st, n !! c = Some st ∧ opened_for st = k ∧ is_h2_conn st = h2.

Definition info_ok (c : nat) (i : ConnInfo) : Prop := connection i = None ∨ connection i = Some c.

Definition stats_ok (c : nat) (st : ConnStats) : Prop := st = new_stats c.

Definition entry_ok (n : Net) (k : PoolKey) (e : IdleH1) : Prop :=
  opened n false k (sender e) ∧ stats_ok (sender e) (idle_stats e) ∧ info_ok (sender e) (idle_info e).

Definition h2_ok (n : Net) (k : PoolKey) (e : H2Entry) : Prop :=
  opened n true k (h2_sender e) ∧ stats_ok (h2_sender e) (h2_stats e) ∧ info_ok (h2_sender e) (h2_info e).

Definition proto_conn (p : Proto) : nat :=
  match p with
  | PH1 c _ | PH2 c => c
  end.

Definition conn_ok (n : Net) (k : PoolKey) (c : Conn) : Prop :=
  conn_key c = k ∧ opened n (is_h2 c) k (proto_conn (proto c)) ∧
  stats_of (conn_stats c) = proto_conn (proto c) ∧ is_Some (read_at_checkout (conn_stats c)) ∧
  info_ok (proto_conn (proto c)) (conn_info c) ∧
  match proto c with
  | PH1 m st => is_h2 c = false ∧ stats_ok m st
  | PH2 _ => is_h2 c = true ∧ parked_for c = None
  end.

Definition pc_ok (n : Net) (k : PoolKey) (p : Pc) : Prop :=
  match p with
  | PcLook _ _ e | PcGate _ _ _ e => entry_ok n k e
  | PcHave c | PcPrime c | PcSend c => conn_ok n k c
  | _ => True
  end.

Definition req_ok (n : Net) (q : Req) : Prop :=
  pool_key (original_uri q) (dial_alpn (dial q)) = Some (key q) ∧ pc_ok n (key q) (pc q).

Definition park_ok (n : Net) (k : ParkTask) : Prop :=
  opened n false (pk_key k) (pk_sender k) ∧ stats_ok (pk_sender k) (pk_stats k) ∧
  info_ok (pk_sender k) (pk_info k).

Record inv (s : Sys) : Prop := {
  inv_reqs t q : reqs s !! t = Some q → req_ok (net s) q;
  inv_parks p k : parks s !! p = Some k → park_ok (net s) k;
  inv_idle k d : idle (pool s) !! k = Some d →
    d ≠ [] ∧ Forall (entry_ok (net s) k) d ∧ NoDup (sender <$> d);
  inv_h2 k e : h2s (pool s) !! k = Some e → h2_ok (net s) k e;
  inv_conns c : is_Some (net s !! c) → c < next_conn s;
  inv_tasks p : is_Some (parks s !! p) → p < next_park s;
  inv_alone p q c : holds s p c → holds s q c → p = q
}.

(** ** The world only changes what is known to change *)

Definition net_le (n n' : Net) : Prop :=
  ∀ c st, n !! c = Some st →
    ∃ st', n' !! c = Some st' ∧ opened_for st' = opened_for st ∧ is_h2_conn st' = is_h2_conn st ∧
      (is_closed st = true → is_closed st' = true) ∧ (peer_closed st = true → peer_closed st' = true).

Definition keeps (f : ConnState → ConnState) : Prop :=
  ∀ st, opened_for (f st) = opened_for st ∧ is_h2_conn (f st) = is_h2_conn st ∧
    (is_closed st = true → is_closed (f st) = true) ∧ (peer_closed st = true → peer_closed (f st) = true).

#[global] Instance net_le_refl : Reflexive net_le.
Proof. intros n c st H. exists st. by split_and!. Qed.

#[global] Instance net_le_trans : Transitive net_le.
Proof.
  intros n n' n'' H H' c st Hc. destruct (H c st Hc) as (st' & Hc' & E1 & E2 & F1 & F2).
  destruct (H' c st' Hc') as (st'' & Hc'' & E1' & E2' & F1' & F2'). eexists. split; [done|].
  split_and!; [congruence|congruence|auto|auto].
Qed.

Lemma opened_le n n' b k c : net_le n n' → opened n b k c → opened n' b k c.
Proof. intros Hle (st & Hc & <- & <-). destruct (Hle c st Hc) as (st' & ? & ? & ? & _). by exists st'. Qed.

Lemma entry_ok_le n n' k e : net_le n n' → entry_ok n k e → entry_ok n' k e.
Proof. intros Hle (? & ? & ?). split_and!; eauto using opened_le. Qed.

Lemma conn_ok_le n n' k c : net_le n n' → conn_ok n k c → conn_ok n' k c.
Proof. intros Hle (? & ? & ? & ? & ? & ?). split_and!; eauto using opened_le. Qed.

Lemma req_ok_le n n' q : net_le n n' → req_ok n q → req_ok n' q.
Proof.
  intros Hle [Hk Hp]. split; [done|]. destruct (pc q); cbn in *; eauto using entry_ok_le, conn_ok_le.
Qed.

Lemma net_le_alter (f : ConnState → ConnState) n c :
  keeps f →
  net_le n (alter f c n).
Proof.
  intros Hf c' st Hc. destruct (decide (c = c')) as [->|Hne].
  - exists (f st). rewrite lookup_alter_eq, Hc. split; [done|apply Hf].
  - exists st. rewrite lookup_alter_ne by done. by split_and!.
Qed.

Lemma dom_alter (f : ConnState → ConnState) (n : Net) c c' : is_Some (alter f c n !! c') → is_Some (n !! c').
Proof.
  destruct (decide (c = c')) as [->|Hne]; [|by rewrite lookup_alter_ne].
  rewrite lookup_alter_eq. by destruct (n !! c').
Qed.

(** A net that grew in knowledge and not in connections. *)

Definition net_step (n n' : Net) : Prop :=
  net_le n n' ∧ ∀ c, is_Some (n' !! c) → is_Some (n !! c).

#[global] Instance net_step_refl : Reflexive net_step.
Proof. intros n. split; [reflexivity|done]. Qed.

#[global] Instance net_step_trans : Transitive net_step.
Proof. intros n n' n'' [H D] [H' D']. split; [by etrans|auto]. Qed.

Lemma net_step_alter (f : ConnState → ConnState) n c :
  keeps f →
  net_step n (alter f c n).
Proof. intros Hf. split; [by apply net_le_alter|intros c'; apply dom_alter]. Qed.

Lemma net_step_drop_entries l n : net_step n (drop_entries l n).
Proof.
  induction l as [|e l IH]; cbn; [done|]. etrans; [exact IH|]. by apply net_step_alter.
Qed.

Lemma net_step_drop_all f m n : net_step n (drop_all f m n).
Proof.
  unfold drop_all. apply (map_fold_weak_ind (λ n' _, net_step n n')); [done|].
  intros k d m' n' _ IH. etrans; [exact IH|]. apply net_step_drop_entries.
Qed.

Lemma inv_set_net s n : net_step (net s) n → inv s → inv (set_net n s).
Proof.
  intros [Hle Hdom] [H1 H2 H3 H4 H5 H6 H7]. split; cbn; try done.
  - intros t q Hq. eauto using req_ok_le.
  - intros p k Hp. destruct (H2 p k Hp) as (? & ? & ?). split_and!; eauto using opened_le.
  - intros k d Hd. destruct (H3 k d Hd) as (? & ? & ?). split_and!; [done| |done].
    eapply Forall_impl; [done|]. intros e. by apply entry_ok_le.
  - intros k e He. destruct (H4 k e He) as (? & ? & ?). split_and!; eauto using opened_le.
  - intros c Hc. auto.
Qed.

(** A pool that differs only where nothing is known. *)

Lemma inv_same s s' :
  reqs s' = reqs s → parks s' = parks s → idle (pool s') = idle (pool s) →
  h2s (pool s') = h2s (pool s) → net s' = net s → next_conn s' = next_conn s →
  next_park s' = next_park s → inv s → inv s'.
Proof.
  intros E1 E2 E3 E4 E5 E6 E7 [H1 H2 H3 H4 H5 H6 H7].
  split; rewrite ?E1, ?E2, ?E3, ?E4, ?E5, ?E6, ?E7; try done.
  intros p q c Hp Hq. apply (H7 p q c); destruct p, q; cbn in *; rewrite ?E1, ?E2, ?E3 in *; done.
Qed.

(** ** Moves *)

(** A connection stays where it is, or one goes to a place that is then the
    only one that has it. *)

Lemma alone_sub s s' :
  (∀ p c, holds s' p c → holds s p c) →
  (∀ p q c, holds s p c → holds s q c → p = q) →
  ∀ p q c, holds s' p c → holds s' q c → p = q.
Proof. intros Hsub H p q c Hp Hq. eauto. Qed.

Lemma alone_move s s' pn c0 :
  (∀ p c, holds s' p c → holds s p c ∨ (p = pn ∧ c = c0)) →
  (∀ p, holds s' p c0 → p = pn) →
  (∀ p q c, holds s p c → holds s q c → p = q) →
  ∀ p q c, holds s' p c → holds s' q c → p = q.
Proof.
  intros Hmv Hn H p q c Hp Hq. destruct (Hmv p c Hp) as [?|[-> ->]]; [|symmetry; by apply Hn].
  destruct (Hmv q c Hq) as [?|[-> ->]]; [by eapply H|by apply Hn].
Qed.

Lemma inv_put_req t q s :
  req_ok (net s) q → (∀ c, held_req q = Some c → holds s (AtReq t) c) → inv s → inv (put_req t q s).
Proof.
  intros Hq Hh [H1 H2 H3 H4 H5 H6 H7]. split; cbn; try done.
  - intros t' q'. rewrite lookup_insert_Some. intros [[<- <-]|[_ ?]]; eauto.
  - refine (alone_sub _ _ _ H7). intros [k|t'|p] c; cbn; [done| |done].
    intros (q' & Hl & Hc). apply lookup_insert_Some in Hl as [[<- <-]|[_ ?]]; [by apply Hh|by eauto].
Qed.

(** The next state of a request that keeps what it has, or less. *)

Lemma inv_set_pc t q q' s :
  reqs s !! t = Some q → req_ok (net s) q' →
  (held_req q' = None ∨ held_req q' = held_req q) → inv s → inv (put_req t q' s).
Proof.
  intros Hq Hok Hh. apply inv_put_req; [done|]. intros c Hc. exists q. split; [done|].
  destruct Hh as [E|E]; congruence.
Qed.

(** A pool with less in it. *)

Lemma inv_shrink s p :
  (∀ k d', idle p !! k = Some d' → d' ≠ [] ∧ ∃ d, idle (pool s) !! k = Some d ∧ d' `sublist_of` d) →
  (∀ k e, h2s p !! k = Some e → h2s (pool s) !! k = Some e) →
  inv s → inv (set_pool p s).
Proof.
  intros Hi Hh [H1 H2 H3 H4 H5 H6 H7]. split; cbn; try done; eauto.
  - intros k d' Hd. destruct (Hi k d' Hd) as (Hne & d & Hl & Hs). destruct (H3 k d Hl) as (_ & HF & HN).
    split_and!; [done| |].
    + apply Forall_forall. intros e He. eapply (proj1 (Forall_forall _ _) HF), elem_of_sublist; done.
    + eapply sublist_NoDup; [exact HN|]. by apply fmap_sublist.
  - refine (alone_sub _ _ _ H7). intros [k|t|q] c; cbn; [|done|done].
    intros (d' & Hd & Hc). destruct (Hi k d' Hd) as (_ & d & Hl & Hs). exists d. split; [done|].
    eapply elem_of_sublist; [exact Hc|]. by apply fmap_sublist.
Qed.

(** [pop_idle]: the front of the queue, to the request. *)

Definition without_front (k : PoolKey) (rest : list IdleH1) (m : gmap PoolKey (list IdleH1))
  : gmap PoolKey (list IdleH1) :=
  match rest with
  | [] => delete k m
  | _ => <[k := rest]> m
  end.

Lemma lookup_without_front k rest m k' d :
  without_front k rest m !! k' = Some d → (k' ≠ k ∧ m !! k' = Some d) ∨ (k' = k ∧ d = rest ∧ rest ≠ []).
Proof.
  unfold without_front. destruct rest as [|e rest].
  - rewrite lookup_delete_Some. naive_solver.
  - rewrite lookup_insert_Some. naive_solver.
Qed.

Lemma pop_idle_spec n marked now k p p' r :
  pop_idle n marked now k p = (p', r) →
  match r with
  | None => p' = p ∨ (idle p !! k = Some [] ∧ p' = set_idle (delete k (idle p)) p)
  | Some e => ∃ rest, idle p !! k = Some (e :: rest) ∧ p' = set_idle (without_front k rest (idle p)) p ∧
                (marked = true → settling n now e = false)
  end.
Proof.
  unfold pop_idle. destruct (idle p !! k) as [[|e rest]|] eqn:E; [| |intros [= <- <-]; by left].
  - rewrite andb_false_r. intros [= <- <-]. by right.
  - cbn [head hd_error from_option]. destruct (marked && settling n now e) eqn:Em; [intros [= <- <-]; by left|].
    assert (marked = true → settling n now e = false) by (intros ->; done).
    destruct rest; intros [= <- <-]; by eexists.
Qed.

Lemma inv_pop t q q' k e rest s :
  idle (pool s) !! k = Some (e :: rest) → reqs s !! t = Some q → held_req q = None →
  held_req q' = Some (sender e) → req_ok (net s) q' → inv s →
  inv (put_req t q' (set_pool (set_idle (without_front k rest (idle (pool s))) (pool s)) s)).
Proof.
  intros Hk Hq Hn Hq' Hok [H1 H2 H3 H4 H5 H6 H7]. destruct (H3 _ _ Hk) as (_ & HF & HN).
  apply Forall_cons in HF as [He HF]. apply NoDup_cons in HN as [Hnin HN].
  split; cbn; try done.
  - intros t' r. rewrite lookup_insert_Some. intros [[<- <-]|[_ ?]]; eauto.
  - intros k' d Hd. apply lookup_without_front in Hd as [[_ ?]|(-> & -> & ?)]; [by apply H3|done].
  - refine (alone_move s _ (AtReq t) (sender e) _ _ H7).
    + intros [k'|t'|p] c; cbn.
      * intros (d & Hd & Hc). left. apply lookup_without_front in Hd as [[_ ?]|(-> & -> & ?)]; [by eauto|].
        exists (e :: rest). split; [done|]. by apply elem_of_cons; right.
      * intros (r & Hr & Hc). apply lookup_insert_Some in Hr as [[<- <-]|[_ ?]]; [right|left; by eauto].
        split; [done|congruence].
      * by left.
    + assert (holds s (AtIdle k) (sender e)) as Hin by (exists (e :: rest); split; [done|by left]).
      intros [k'|t'|p]; cbn.
      * intros (d & Hd & Hc). apply lookup_without_front in Hd as [[Hne ?]|(-> & -> & ?)]; [|done].
        assert (AtIdle k' = AtIdle k) by (eapply H7; [by eexists|exact Hin]). congruence.
      * intros (r & Hr & Hc). apply lookup_insert_Some in Hr as [[<- <-]|[_ ?]]; [done|].
        assert (AtReq t' = AtIdle k) by (eapply H7; [by eexists|exact Hin]). done.
      * intros Hp. assert (AtPark p = AtIdle k) by (eapply H7; [exact Hp|exact Hin]). done.
Qed.

(** [on_success]: from the request to the task that parks it. *)

Lemma inv_spawn t q q' k s :
  reqs s !! t = Some q → held_req q = Some (pk_sender k) → held_req q' = None →
  req_ok (net s) q' → park_ok (net s) k → inv s → inv (put_req t q' (spawn_park k s)).
Proof.
  intros Hq Hh Hn Hok Hk [H1 H2 H3 H4 H5 H6 H7]. split; cbn; try done.
  - intros t' r. rewrite lookup_insert_Some. intros [[<- <-]|[_ ?]]; eauto.
  - intros p r. rewrite lookup_insert_Some. intros [[<- <-]|[_ ?]]; eauto.
  - intros p. rewrite lookup_insert_is_Some. intros [<-|[_ Hp]]; [lia|]. specialize (H6 p Hp). lia.
  - assert (holds s (AtReq t) (pk_sender k)) as Hin by by eexists.
    assert (∀ p, parks s !! p ≠ None → next_park s ≠ p) as Hfr.
    { intros p Hp <-. destruct (parks s !! next_park s) eqn:E; [|done].
      pose proof (H6 _ (mk_is_Some _ _ E)). lia. }
    refine (alone_move s _ (AtPark (next_park s)) (pk_sender k) _ _ H7).
    + intros [k'|t'|p] c; cbn; [by left| |].
      * intros (r & Hr & Hc). left. apply lookup_insert_Some in Hr as [[<- <-]|[_ ?]]; [congruence|by eauto].
      * intros (r & Hr & Hc). apply lookup_insert_Some in Hr as [[<- <-]|[_ ?]]; [by right|left; by eauto].
    + intros [k'|t'|p]; cbn.
      * intros Hc. assert (AtIdle k' = AtReq t) by (eapply H7; [exact Hc|exact Hin]). done.
      * intros (r & Hr & Hc). apply lookup_insert_Some in Hr as [[<- <-]|[Hne ?]]; [congruence|].
        assert (AtReq t' = AtReq t) by (eapply H7; [by eexists|exact Hin]). congruence.
      * intros (r & Hr & Hc). apply lookup_insert_Some in Hr as [[<- <-]|[Hne ?]]; [done|].
        assert (AtPark p = AtReq t) by (eapply H7; [by eexists|exact Hin]). done.
Qed.

(** [park]: from the task to the back of the queue. *)

Lemma inv_parked p k e s :
  parks s !! p = Some k → sender e = pk_sender k → entry_ok (net s) (pk_key k) e → inv s →
  inv (set_parks (delete p (parks s))
         (set_pool (set_idle (<[pk_key k := default [] (idle (pool s) !! pk_key k) ++ [e]]>
                                (idle (pool s))) (pool s)) s)).
Proof.
  intros Hp He Hok [H1 H2 H3 H4 H5 H6 H7]. assert (holds s (AtPark p) (sender e)) as Hin by (by exists k).
  set (d := default [] (idle (pool s) !! pk_key k)).
  assert (∀ c, c ∈ sender <$> d → holds s (AtIdle (pk_key k)) c) as Hd.
  { intros c Hc. subst d. destruct (idle (pool s) !! pk_key k) eqn:E; [by eexists|by apply elem_of_nil in Hc]. }
  split; cbn; try done.
  - intros p' r. rewrite lookup_delete_Some. intros [_ ?]; eauto.
  - intros k' d'. rewrite lookup_insert_Some. intros [[<- <-]|[_ ?]]; [|eauto]. split_and!.
    + by destruct d.
    + apply Forall_app_2; [|by apply Forall_singleton]. subst d.
      destruct (idle (pool s) !! pk_key k) eqn:E; [|done]. by apply (H3 _ _ E).
    + rewrite fmap_app. apply NoDup_app. split_and!.
      * subst d. destruct (idle (pool s) !! pk_key k) eqn:E; [|constructor]. by apply (H3 _ _ E).
      * intros c Hc Hs. cbn in Hs. apply list_elem_of_singleton in Hs as ->.
        assert (AtIdle (pk_key k) = AtPark p) by (eapply H7; [by apply Hd|exact Hin]). done.
      * apply NoDup_singleton.
  - intros p'. rewrite lookup_delete_is_Some. intros [_ ?]. auto.
  - refine (alone_move s _ (AtIdle (pk_key k)) (sender e) _ _ H7).
    + intros [k'|t'|p'] c; cbn; [|by left|].
      * intros (d' & Hl & Hc). apply lookup_insert_Some in Hl as [[<- <-]|[_ ?]]; [|left; by eauto].
        rewrite fmap_app in Hc. apply elem_of_app in Hc as [Hc|Hc]; [left; by apply Hd|].
        apply list_elem_of_singleton in Hc as ->. by right.
      * intros (r & Hr & Hc). apply lookup_delete_Some in Hr as [_ ?]. left. by eauto.
    + intros [k'|t'|p']; cbn.
      * intros (d' & Hl & Hc). apply lookup_insert_Some in Hl as [[<- <-]|[Hne ?]]; [done|].
        assert (AtIdle k' = AtPark p) by (eapply H7; [by eexists|exact Hin]). done.
      * intros Hc. assert (AtReq t' = AtPark p) by (eapply H7; [exact Hc|exact Hin]). done.
      * intros (r & Hr & Hc). apply lookup_delete_Some in Hr as [Hne ?].
        assert (AtPark p' = AtPark p) by (eapply H7; [by eexists|exact Hin]). congruence.
Qed.

(** A task that is over. *)

Lemma inv_unpark p s : inv s → inv (set_parks (delete p (parks s)) s).
Proof.
  intros [H1 H2 H3 H4 H5 H6 H7]. split; cbn; try done.
  - intros p' r. rewrite lookup_delete_Some. intros [_ ?]; eauto.
  - intros p'. rewrite lookup_delete_is_Some. intros [_ ?]. auto.
  - refine (alone_sub _ _ _ H7). intros [k'|t'|p'] c; cbn; [done|done|].
    intros (r & Hr & Hc). apply lookup_delete_Some in Hr as [_ ?]. by eauto.
Qed.

(** A connection dialled. *)

Lemma net_le_add s st : inv s → net_le (net s) (<[next_conn s := st]> (net s)).
Proof.
  intros Hi c st' Hc. exists st'. split; [|done]. rewrite lookup_insert_ne; [done|].
  intros <-. pose proof (inv_conns _ Hi _ (mk_is_Some _ _ Hc)). lia.
Qed.

Lemma inv_add_conn st s : inv s → inv (add_conn st s) ∧ ∀ pl, ¬ holds s pl (next_conn s).
Proof.
  intros Hi. pose proof (net_le_add s st Hi) as Hle. destruct Hi as [H1 H2 H3 H4 H5 H6 H7]. split.
  - split; cbn; try done.
    + intros t q Hq. eauto using req_ok_le.
    + intros p k Hp. destruct (H2 p k Hp) as (? & ? & ?). split_and!; eauto using opened_le.
    + intros k d Hd. destruct (H3 k d Hd) as (? & ? & ?). split_and!; [done| |done].
      eapply Forall_impl; [done|]. intros e. by apply entry_ok_le.
    + intros k e He. destruct (H4 k e He) as (? & ? & ?). split_and!; eauto using opened_le.
    + intros c. rewrite lookup_insert_is_Some. intros [<-|[_ Hc]]; [lia|]. specialize (H5 c Hc). lia.
  - assert (∀ b k, ¬ opened (net s) b k (next_conn s)) as Hno.
    { intros b k (st' & Hc & _). pose proof (H5 _ (mk_is_Some _ _ Hc)). lia. }
    intros [k|t|p]; cbn.
    + intros (d & Hd & Hc). apply list_elem_of_fmap in Hc as (e & Ec & He).
      destruct (H3 _ _ Hd) as (_ & HF & _). pose proof (proj1 (Forall_forall _ _) HF e He) as (Ho & _).
      rewrite <-Ec in Ho. by eapply Hno.
    + intros (q & Hq & Hc). destruct (H1 _ _ Hq) as [_ Hp]. unfold held_req in Hc.
      destruct (pc q) as [| |?|? ? e|? ? ? e| | |c|c|c|]; try done; cbn in Hp;
        try (destruct Hp as (Ho & _); injection Hc as Hc; rewrite Hc in Ho; by eapply Hno);
        destruct Hp as (_ & Ho & _); destruct (proto c); try done; injection Hc as Hc; cbn in Ho; subst;
        by eapply Hno.
    + intros (k & Hk & Ek). destruct (H2 _ _ Hk) as (Ho & _). rewrite Ek in Ho. by eapply Hno.
Qed.

Lemma inv_put_new t q c0 s :
  req_ok (net s) q → held_req q = Some c0 → (∀ pl, ¬ holds s pl c0) → inv s → inv (put_req t q s).
Proof.
  intros Hq Hh Hno [H1 H2 H3 H4 H5 H6 H7]. split; cbn; try done.
  - intros t' q'. rewrite lookup_insert_Some. intros [[<- <-]|[_ ?]]; eauto.
  - refine (alone_move s _ (AtReq t) c0 _ _ H7).
    + intros [k'|t'|p] c; cbn; [by left| |by left].
      intros (r & Hr & Hc). apply lookup_insert_Some in Hr as [[<- <-]|[_ ?]]; [right|left; by eauto].
      split; [done|congruence].
    + intros [k'|t'|p]; cbn.
      * intros Hc. by destruct (Hno (AtIdle k')).
      * intros (r & Hr & Hc). apply lookup_insert_Some in Hr as [[<- <-]|[_ ?]]; [done|].
        destruct (Hno (AtReq t')). by eexists.
      * intros Hc. by destruct (Hno (AtPark p)).
Qed.

Lemma inv_set_h2 k e s :
  h2_ok (net s) k e → inv s → inv (set_pool (set_h2s (<[k := e]> (h2s (pool s))) (pool s)) s).
Proof.
  intros He [H1 H2 H3 H4 H5 H6 H7]. split; cbn; try done.
  - intros k' e'. rewrite lookup_insert_Some. intros [[<- <-]|[_ ?]]; eauto.
Qed.

(** ** Each step *)

Lemma inv_drop_sender c s : inv s → inv (drop_sender c s).
Proof. intros Hi. apply inv_set_net; [|done]. by apply net_step_alter. Qed.

Lemma inv_drop_proto p s : inv s → inv (drop_proto p s).
Proof. destruct p; [apply inv_drop_sender|done]. Qed.

Lemma inv_mark b k s : inv s → inv (mark_early b k s).
Proof. destruct b; [|done]. by apply inv_same. Qed.

Lemma inv_evict k s : inv s → inv (set_pool (set_h2s (delete k (h2s (pool s))) (pool s)) s).
Proof.
  intros Hi. apply inv_shrink; [|cbn; intros k' e [_ ?]%lookup_delete_Some; done|done].
  intros k' d Hd. destruct (inv_idle _ Hi k' d Hd) as [? _]. split; [done|]. by exists d.
Qed.

Lemma inv_on_failure c s : inv s → inv (on_failure c s).
Proof.
  intros Hi. unfold on_failure. destruct (proto c); [by apply inv_drop_sender|].
  destruct (_ && _); [|done]. destruct (h2s (pool s) !! conn_key c); [|done].
  case_match; [by apply inv_evict|done].
Qed.

(** The pools of [reuse_h2], [look_at] and [look_again]. *)

Lemma reuse_h2_inv k p c s :
  reuse_h2 (net s) k (pool s) = (p, c) → inv s →
  inv (set_pool p s) ∧ match c with Some c => conn_ok (net s) k c ∧ proto_h1 (proto c) = None | None => True end.
Proof.
  intros Hr Hi. unfold reuse_h2 in Hr. destruct (h2s (pool s) !! k) as [e|] eqn:He.
  2:{ injection Hr as <- <-. split; [by apply (inv_same s)|done]. }
  case_match; injection Hr as <- <-; [split; [by apply inv_evict|done]|].
  split; [by apply (inv_same s)|]. destruct (inv_h2 _ Hi _ _ He) as (Ho & Hs & Hn).
  split; [|done]. unfold conn_ok; cbn. split_and!; try done. by rewrite Hs.
Qed.

Definition same_queues (p p' : PoolInner) : Prop := idle p' = idle p ∧ h2s p' = h2s p.

Lemma inv_same_queues p s : same_queues (pool s) p → inv s → inv (set_pool p s).
Proof. intros [E1 E2]. by apply inv_same. Qed.

Definition reuse_ok (n : Net) (k : PoolKey) (e : IdleH1) (r : Reuse) : Prop :=
  match r with
  | RConn c => conn_ok n k c ∧ proto_h1 (proto c) = Some (sender e)
  | _ => True
  end.

Lemma hand_out_ok n k parked e : entry_ok n k e → reuse_ok n k e (RConn (hand_out n k parked e)).
Proof.
  intros (Ho & Hs & Hn). split; [|done]. unfold conn_ok; cbn. split_and!; try done. by rewrite Hs.
Qed.

Lemma look_at_ok n clk now k e p p' r :
  look_at n clk now k e p = (p', r) → entry_ok n k e → same_queues p p' ∧ reuse_ok n k e r.
Proof.
  intros Hl He. unfold look_at in Hl.
  assert (same_queues p p) as Hsame by done.
  assert (∀ c, same_queues p (saw_an_early_close c k p)) as Hsaw by done.
  pose proof (hand_out_ok n k (saturating_duration_since now (parked_at e)) e He) as Hout.
  match type of Hl with context [if ?b then _ else _] => destruct b end; [by injection Hl as <- <-|].
  destruct (is_dead n e); [case_match; injection Hl as <- <-; done|].
  destruct (fresh_delay _ _ _); injection Hl as <- <-; done.
Qed.

Lemma look_again_ok n clk k parked e p p' r :
  look_again n clk k parked e p = (p', r) → entry_ok n k e → same_queues p p' ∧ reuse_ok n k e r.
Proof.
  intros Hl He. unfold look_again in Hl. pose proof (hand_out_ok n k parked e He) as Hout.
  destruct (is_dead n e); [case_match|]; injection Hl as <- <-; done.
Qed.

Lemma reuse_step_inv t q e p marked r s :
  reqs s !! t = Some q → held_req q = Some (sender e) → same_queues (pool s) p →
  reuse_ok (net s) (key q) e r → entry_ok (net s) (key q) e → inv s → inv (reuse_step t q e p marked r s).
Proof.
  intros Hq Hh Hp Hr He Hi. destruct (inv_reqs _ Hi _ _ Hq) as [Hk _].
  pose proof (inv_same_queues p s Hp Hi) as Hi'. unfold reuse_step.
  destruct r as [|parked delay|c].
  - eapply inv_set_pc; [exact Hq|by split|by left|by apply inv_drop_sender].
  - eapply inv_set_pc; [exact Hq|by split|by right|done].
  - destruct Hr as [Hc Hs]. eapply inv_set_pc; [exact Hq|by split|right; cbn; by rewrite Hh|done].
Qed.

Lemma conn_ok_info n k c i : conn_ok n k c → info_ok (proto_conn (proto c)) i → conn_ok n k (set_conn_info i c).
Proof. intros (? & ? & ? & ? & ? & ?) Hi. split_and!; done. Qed.

Lemma take_lease_ok n i n' i' c : take_lease n i = (n', i') → info_ok c i → net_step n n' ∧ info_ok c i'.
Proof.
  unfold take_lease. destruct (connection i) eqn:E; [|intros [= <- <-]; done].
  destruct (n !! _ ≫= leases); intros [= <- <-]; [|done]. intros Hi. split; [by apply net_step_alter|].
  unfold info_ok in *. cbn. by rewrite E in Hi.
Qed.

Lemma hand_over_inv t q0 q c s :
  reqs s !! t = Some q0 → held_req q0 = proto_h1 (proto c) → req_ok (net s) q →
  conn_ok (net s) (key q) c → inv s → inv (hand_over t q c s).
Proof.
  intros Hq Hh [Hk _] Hc Hi. eapply inv_set_pc; [exact Hq|by split|right; cbn; by rewrite Hh|done].
Qed.

Lemma dial_step_ok n q b :
  req_ok n q → pc q = PcDial → req_ok n (dial_step q b) ∧ held_req (dial_step q b) = None.
Proof.
  intros [Hk _] _. unfold dial_step, done. destruct (needs_lookup _ _); [|done].
  destruct (dial_pin _); [case_decide|]; done.
Qed.

Lemma inv_run_req t q s s' : reqs s !! t = Some q → run_req t q s = Some s' → inv s → inv s'.
Proof.
  intros Hq Hr Hi. destruct (inv_reqs _ Hi _ _ Hq) as [Hk Hp]. unfold run_req in Hr.
  destruct (pc q) as [| |now marked|now marked e|until marked parked e| | |c|c|c|r] eqn:Ep; try done.
  - case_match; [|injection Hr as <-; eapply inv_set_pc; [exact Hq|by split|by left|done]].
    destruct (reuse_h2 _ _ _) as [p found] eqn:Ef. injection Hr as <-.
    apply reuse_h2_inv in Ef as [Hi' Hf]; [|done].
    destruct found as [c|]; (eapply inv_set_pc; [exact Hq| |by left; cbn; try apply Hf|done]); [|by split].
    split; [done|apply Hf].
  - injection Hr as <-. eapply inv_set_pc; [exact Hq|by split|by left|done].
  - destruct (pop_idle _ _ _ _ _) as [p found] eqn:Ef. injection Hr as <-. apply pop_idle_spec in Ef.
    destruct found as [e|].
    + destruct Ef as (rest & Hl & -> & _). eapply inv_pop; try done; [by unfold held_req; rewrite Ep|].
      split; [done|]. destruct (inv_idle _ Hi _ _ Hl) as (_ & HF & _). cbn. by apply Forall_cons in HF as [? _].
    + eapply inv_set_pc; [exact Hq|by split|by left|].
      destruct Ef as [->|[Hl _]]; [by apply (inv_same s)|]. by destruct (inv_idle _ Hi _ _ Hl).
  - destruct (look_at _ _ _ _ _ _) as [p r] eqn:El. injection Hr as <-.
    apply look_at_ok in El as [Hs Hok]; [|done]. eapply reuse_step_inv; try done. unfold held_req. by rewrite Ep.
  - case_decide; [|done]. destruct (look_again _ _ _ _ _ _) as [p r] eqn:El. injection Hr as <-.
    apply look_again_ok in El as [Hs Hok]; [|done]. eapply reuse_step_inv; try done. unfold held_req. by rewrite Ep.
  - injection Hr as <-. destruct (dial_step_ok (net s) q (hooked s)) as [Hok Hn]; [by split; rewrite ?Ep|done|].
    eapply inv_set_pc; [exact Hq|done|by left|done].
  - destruct (take_lease _ _) as [n i] eqn:El.
    eapply take_lease_ok in El as [Hn Hinfo]; [|by apply Hp].
    pose proof (inv_set_net s n Hn Hi) as Hi'. destruct Hn as [Hle _].
    assert (conn_ok n (key q) (set_conn_info i c)) as Hc'.
    { apply conn_ok_info; [by eapply conn_ok_le|done]. }
    case_match; injection Hr as <-.
    + eapply inv_set_pc; [exact Hq|by split|right; by unfold held_req; rewrite Ep|done].
    + eapply hand_over_inv; [exact Hq|by unfold held_req; rewrite Ep| |done|done].
      split; [done|]. cbn [set_req pc]. by rewrite Ep; cbn; eapply conn_ok_le.
Qed.

Lemma inv_dialled t q h2 prox closer s :
  reqs s !! t = Some q → pc q = PcConnecting → inv s → inv (dialled t q h2 prox closer s).
Proof.
  intros Hq Hpc Hi. destruct (inv_reqs _ Hi _ _ Hq) as [Hk _]. unfold dialled.
  set (st := {| opened_for := key q; is_h2_conn := h2 |}).
  destruct (inv_add_conn st s Hi) as [Hi' Hno].
  assert (opened (net (add_conn st s)) h2 (key q) (next_conn s)) as Ho.
  { exists st. cbn. by rewrite lookup_insert_eq. }
  assert (∀ b, info_ok (next_conn s)
    {| connection := if b : bool then Some (next_conn s) else None; lease := None |}) as Hinfo.
  { intros []; [by right|by left]. }
  destruct h2.
  - eapply inv_set_pc; [exact Hq| |by left|apply inv_set_h2; [|done]].
    + split; [done|]. cbn. unfold conn_ok; cbn. split_and!; first [done|apply Hinfo].
    + split_and!; first [done|apply Hinfo].
  - eapply inv_put_new; [|done| |done].
    + split; [done|]. cbn. unfold conn_ok; cbn. split_and!; first [done|apply Hinfo].
    + intros pl. apply Hno.
Qed.

Lemma inv_primed t q c o s :
  reqs s !! t = Some q → pc q = PcPrime c → inv s → inv (primed t q c o s).
Proof.
  intros Hq Hpc Hi. destruct (inv_reqs _ Hi _ _ Hq) as [Hk Hp]. rewrite Hpc in Hp. cbn in Hp.
  assert (held_req q = proto_h1 (proto c)) as Hh by (unfold held_req; by rewrite Hpc).
  unfold primed. destruct o.
  - eapply hand_over_inv; try done. split; [done|]. cbn. by rewrite Hpc.
  - eapply hand_over_inv; try done. split; [done|]. cbn. by rewrite Hpc.
  - eapply inv_set_pc; [|by split|by left|by apply inv_drop_proto]. by destruct (proto c).
Qed.

Lemma inv_sent t q c o s :
  reqs s !! t = Some q → pc q = PcSend c → inv s → inv (sent t q c o s).
Proof.
  intros Hq Hpc Hi. destruct (inv_reqs _ Hi _ _ Hq) as [Hk Hp]. rewrite Hpc in Hp. cbn in Hp.
  assert (held_req q = proto_h1 (proto c)) as Hh by (unfold held_req; by rewrite Hpc).
  unfold sent, count_one.
  set (s1 := set_net _ s). assert (net_step (net s) (net s1)) as Hn by by apply net_step_alter.
  pose proof (inv_set_net s (net s1) Hn Hi : inv s1) as Hi1.
  assert (reqs s1 !! t = Some q) as Hq1 by done. destruct Hn as [Hle _].
  pose proof (conn_ok_le _ _ _ _ Hle Hp) as Hp1. clearbody s1. clear Hle.
  assert (∀ b s2, reqs s2 !! t = Some q → inv s2 → inv (on_failure c (mark_early b (conn_key c) s2))) as Hf.
  { intros b s2 _ H2. by apply inv_on_failure, inv_mark. }
  assert (∀ b s2, reqs (on_failure c (mark_early b (conn_key c) s2)) = reqs s2) as Hsame.
  { intros b s2. unfold on_failure, mark_early. destruct b, (proto c); cbn; try done;
      destruct (_ && _); try done; by repeat case_match. }
  destruct o as [response|e|e].
  - unfold on_success. destruct (proto c) as [m st|m] eqn:Epr.
    + eapply inv_spawn; [exact Hq1|by rewrite Hh|done|by split| |done].
      destruct Hp1 as (Ek & Ho & _ & _ & Hinfo & Hpr). rewrite Epr in *. destruct Hpr as [Eh Hst].
      rewrite Eh in Ho. cbn in *. by rewrite Ek.
    + eapply inv_set_pc; [exact Hq1|by split|by left|done].
  - case_match; (eapply inv_set_pc; [by rewrite Hsame| |left; unfold held_req; cbn; by try case_decide|by apply Hf]).
    + split; [done|]. cbn. by case_decide.
    + by split.
  - eapply inv_set_pc; [by rewrite Hsame|by split|by left|by apply Hf].
Qed.

Lemma inv_ready p k ok s : parks s !! p = Some k → inv s → inv (ready p k ok s).
Proof.
  intros Hp Hi. unfold ready. case_match; [|by apply inv_drop_sender, inv_unpark].
  destruct Hi as [H1 H2 H3 H4 H5 H6 H7]. split; cbn; try done.
  - intros p' r. rewrite lookup_insert_Some. intros [[<- <-]|[_ ?]]; [by apply (H2 p k)|eauto].
  - intros p'. rewrite lookup_insert_is_Some. intros [<-|[_ ?]]; eauto.
  - refine (alone_sub _ _ _ H7). intros [k'|t'|p'] c; cbn; [done|done|].
    intros (r & Hr & Hc). apply lookup_insert_Some in Hr as [[<- <-]|[_ ?]]; by eauto.
Qed.

Lemma inv_ensure_reaper s : inv s → inv (ensure_reaper s).
Proof. unfold ensure_reaper. repeat case_match; try done. by apply inv_same. Qed.

Lemma inv_push p k now marked s : parks s !! p = Some k → inv s → inv (push_park p k now marked s).
Proof.
  intros Hp Hi. destruct (inv_parks _ Hi _ _ Hp) as (Ho & Hs & Hn). unfold push_park, park. destruct (marked && _).
  - apply inv_drop_sender. apply (inv_same (set_parks (delete p (parks s)) s)); try done. by apply inv_unpark.
  - apply inv_ensure_reaper. by apply inv_parked.
Qed.

Lemma inv_reap timeout s : inv s → inv (reap timeout s).
Proof.
  intros Hi. unfold reap, clear_expired. set (n := drop_all _ _ _).
  set (p := set_h2s _ _). eapply (inv_same (set_net n (set_pool p s))); try done.
  apply inv_set_net; [apply net_step_drop_all|]. apply inv_shrink; [| |done].
  - intros k d'. subst p. cbn. rewrite lookup_omap_Some. intros (d & Hr & Hd). unfold reap_deque in Hr.
    destruct (filter _ d) eqn:Ef in Hr; [done|]. injection Hr as <-. split; [done|]. exists d.
    split; [done|]. rewrite <-Ef. apply sublist_filter.
  - intros k e. subst p. cbn. by intros [? _]%map_lookup_filter_Some.
Qed.

Lemma inv_destroy_run t d s : inv s → inv (destroy_run t d s).
Proof.
  intros Hi. destruct d; cbn.
  - set (n := drop_all _ _ _).
    apply (inv_same (set_net n (set_pool (set_idle ∅ (pool s)) s))); try done.
    apply inv_set_net; [apply net_step_drop_all|]. apply inv_shrink; cbn; [|done|done].
    intros k d'. by rewrite lookup_empty.
  - apply (inv_same (set_pool (set_h2s ∅ (pool s)) s)); try done. apply inv_shrink; cbn; [| |done].
    + intros k d' Hd. destruct (inv_idle _ Hi k d' Hd) as [? _]. split; [done|]. by exists d'.
    + intros k e. by rewrite lookup_empty.
Qed.

Lemma Req_new_ok n q close d follows r :
  Req_new q close d follows = Ok r → req_ok n r ∧ pc r = PcCheckout.
Proof. unfold Req_new. destruct (pool_key _ _) eqn:E; [|done]. by intros [= <-]. Qed.

Lemma inv_step s e s' : sys_step s e = Some s' → inv s → inv s'.
Proof.
  intros Hs Hi. destruct e as [d|c|c|c|c n|t q close d f|t|t r|t o|t o|p b|p| |t|t]; cbn in Hs.
  - case_decide; [|done]. injection Hs as <-. by apply (inv_same s).
  - injection Hs as <-. by apply inv_set_net; [apply net_step_alter|].
  - injection Hs as <-. by apply inv_set_net; [apply net_step_alter|].
  - injection Hs as <-. by apply inv_set_net; [apply net_step_alter|].
  - case_decide; [|done]. injection Hs as <-. by apply inv_set_net; [apply net_step_alter|].
  - destruct (reqs s !! t); [done|]. destruct (Req_new q close d f) as [r|] eqn:Er; injection Hs as <-; [|done].
    apply (Req_new_ok (net s)) in Er as [Hok Hpc]. apply inv_put_req; [done| |done].
    intros c. unfold held_req. by rewrite Hpc.
  - destruct (reqs s !! t) as [q|] eqn:Hq; [|done]. by eapply inv_run_req.
  - destruct (reqs s !! t) as [q|] eqn:Hq; [|done]. cbn in Hs. destruct (inv_reqs _ Hi _ _ Hq) as [Hk _].
    destruct (pc q) eqn:Ep; try done. destruct r as [[[h2 prox] closer]|er]; injection Hs as <-.
    + by apply inv_dialled.
    + eapply inv_set_pc; [exact Hq|by split|by left|done].
  - destruct (reqs s !! t) as [q|] eqn:Hq; [|done]. cbn in Hs. destruct (pc q) eqn:Ep; try done.
    injection Hs as <-. by apply inv_primed.
  - destruct (reqs s !! t) as [q|] eqn:Hq; [|done]. cbn in Hs. destruct (pc q) eqn:Ep; try done.
    injection Hs as <-. by apply inv_sent.
  - destruct (parks s !! p) as [k|] eqn:Hp; [|done]. cbn in Hs. destruct (pk_pc k); [|done].
    injection Hs as <-. by apply inv_ready.
  - destruct (parks s !! p) as [k|] eqn:Hp; [|done]. cbn in Hs. destruct (pk_pc k); [done|].
    injection Hs as <-. by apply inv_push.
  - destruct (reaper s); [|done]. destruct (idle_timeout (pool s)); [|done]. case_decide; [|done].
    injection Hs as <-. by apply inv_reap.
  - destruct (destroys s !! t); [done|]. injection Hs as <-. by apply (inv_same s).
  - destruct (destroys s !! t); [|done]. injection Hs as <-. by apply inv_destroy_run.
Qed.

Lemma inv_new hook timeout : inv (Sys_new hook timeout).
Proof.
  assert (∀ p c, ¬ holds (Sys_new hook timeout) p c) as Hno.
  { intros [k|t|p] c; cbn; intros (x & Hx & _); by rewrite lookup_empty in Hx. }
  split; cbn; try (intros *; rewrite lookup_empty; intros; by try match goal with H : is_Some None |- _ => destruct H end).
  intros p q c Hp. by destruct (Hno p c).
Qed.

Lemma run_app s es es' : sys_run s (es ++ es') = (s ← sys_run s es; sys_run s es').
Proof.
  revert s. induction es as [|e es IH]; intros s; cbn; [done|].
  destruct (sys_step s e); cbn; [apply IH|done].
Qed.

(** Reasoning on a run from its last event. *)

Lemma run_ind (P : list Event → Sys → Prop) hook timeout :
  P [] (Sys_new hook timeout) →
  (∀ es s e s', sys_run (Sys_new hook timeout) es = Some s → sys_step s e = Some s' → P es s →
     P (es ++ [e]) s') →
  ∀ es s, sys_run (Sys_new hook timeout) es = Some s → P es s.
Proof.
  intros H0 Hs es. induction es as [|e es IH] using rev_ind; intros s Hr; [by injection Hr as <-|].
  rewrite run_app in Hr. destruct (sys_run _ es) as [s1|] eqn:E; [|done]. cbn in Hr.
  destruct (sys_step s1 e) as [s2|] eqn:E2; [|done]. injection Hr as <-. eauto.
Qed.

Lemma inv_run hook timeout es s : sys_run (Sys_new hook timeout) es = Some s → inv s.
Proof. revert es s. apply run_ind; [apply inv_new|]. intros es s e s' _ Hs. by eapply inv_step. Qed.
End Inv.
