(* ===== verification/PoolSpec.v ===== *)
(** * PoolSpec: what the pool promises *)

From S2P Require Import Prelude RustStd HttpHead Permissions Redirect Fetch FetchSpec Pool PoolSys PoolInv.

Section Spec.
Context `{HU : UrlOps} `{HH : HeaderOps} `{HP : !PoolOps}.

Abbreviation Net := (gmap nat ConnState).

(** ** One place, one key *)

(** C26. Whatever the tasks of a pool do and however they interleave, an h1
    connection is in one place at a time: in one queue, with one request, or
    with the one task that parks it.  So it never carries two requests at
    once.  And the connection a request goes out on was opened for the
    scheme, the authority and the ALPN offer of that request's own URL, h1 or
    h2, reused or new. *)

Theorem pool_keeps_apart (hook : bool) (timeout : option Z) (es : list Event) (s : Sys) :
  sys_run (Sys_new hook timeout) es = Some s →
  (∀ p q c, holds s p c → holds s q c → p = q) ∧
  (∀ t q c, reqs s !! t = Some q → pc q = PcSend c →
     ∃ k, pool_key (original_uri q) (dial_alpn (dial q)) = Some k ∧
          opened (net s) (is_h2 c) k (proto_conn (proto c))) ∧
  (∀ k d, idle (pool s) !! k = Some d → Forall (λ e, opened (net s) false k (sender e)) d).
Proof.
  intros Hi%inv_run. split_and!.
  - apply (inv_alone _ Hi).
  - intros t q c Hq Hc. destruct (inv_reqs _ Hi _ _ Hq) as [Hk Hp]. rewrite Hc in Hp.
    exists (key q). split; [done|apply Hp].
  - intros k d Hd. destruct (inv_idle _ Hi _ _ Hd) as (_ & HF & _).
    eapply Forall_impl; [exact HF|]. by intros e [Ho _].
Qed.

(** ** How often a request goes out *)

Definition count_if (f : Event → bool) (es : list Event) : nat := length (filter (λ e, f e = true) es).

Definition is_send (t : nat) (e : Event) : bool :=
  match e with
  | ESent t' _ => bool_decide (t' = t)
  | _ => false
  end.

Definition is_wire (t : nat) (e : Event) : bool :=
  match e with
  | ESent t' (SOk _) | ESent t' (SSent _) => bool_decide (t' = t)
  | _ => false
  end.

Definition is_dial (t : nat) (e : Event) : bool :=
  match e with
  | EDialled t' (Ok _) => bool_decide (t' = t)
  | _ => false
  end.

Definition is_body_failure (t : nat) (e : Event) : bool :=
  match e with
  | EPrimed t' (PrimedErr _) => bool_decide (t' = t)
  | _ => false
  end.

Lemma count_if_snoc f es e : count_if f (es ++ [e]) = count_if f es + (if f e then 1 else 0).
Proof.
  unfold count_if. rewrite filter_app, length_app. f_equal. rewrite filter_cons, filter_nil.
  destruct (f e); [by rewrite decide_True|by rewrite decide_False].
Qed.

Definition about (e : Event) : option nat :=
  match e with
  | ERequest t _ _ _ _ | ERun t | EDialled t _ | EPrimed t _ | ESent t _ => Some t
  | _ => None
  end.

(** The requests of a state with less or more in the pool are the same. *)

Lemma reqs_on_failure c s : reqs (on_failure c s) = reqs s.
Proof. unfold on_failure. by repeat case_match. Qed.

Lemma reqs_mark b k s : reqs (mark_early b k s) = reqs s.
Proof. by destruct b. Qed.

Lemma reqs_drop_proto p s : reqs (drop_proto p s) = reqs s.
Proof. by destruct p. Qed.

Lemma reqs_ensure_reaper s : reqs (ensure_reaper s) = reqs s.
Proof. unfold ensure_reaper. by repeat case_match. Qed.

(** What a step does to the request it is about. *)

Ltac at_once := first [done | exact I | by split | by intros [] | split; [done|by intros []]].

Definition holding (q : Req) : nat :=
  match pc q with
  | PcHave _ | PcPrime _ | PcSend _ => 1
  | _ => 0
  end.

Definition over (q : Req) : Prop :=
  match pc q with
  | PcDone _ => True
  | _ => False
  end.

Definition same_loop (q q' : Req) : Prop :=
  attempts q' = attempts q ∧ allow_reuse q' = allow_reuse q.

Inductive req_step (q : Req) : Event → Req → Prop :=
| rs_run t q' : same_loop q q' → ¬ over q → holding q ≤ holding q' ∨ (holding q = 0 ∧ over q') →
    req_step q (ERun t) q'
| rs_dialled t x q' : same_loop q q' → ¬ over q → holding q = 0 → holding q' = 1 → ¬ over q' →
    req_step q (EDialled t (Ok x)) q'
| rs_dial_failed t e q' : same_loop q q' → ¬ over q → holding q = 0 → over q' →
    req_step q (EDialled t (Err e)) q'
| rs_primed t o q' : same_loop q q' → ¬ over q → holding q = 1 →
    (if is_body_failure t (EPrimed t o) then over q' else holding q' = 1 ∧ ¬ over q') →
    req_step q (EPrimed t o) q'
| rs_sent t o q' : same_loop q q' → ¬ over q → holding q = 1 → over q' → req_step q (ESent t o) q'
| rs_retry t e q' : allow_reuse q = true → attempts q' = pred (attempts q) → allow_reuse q' = false →
    ¬ over q → holding q = 1 → (pred (attempts q) = 0 → over q') →
    (pred (attempts q) ≠ 0 → holding q' = 0 ∧ ¬ over q') → req_step q (ESent t (SUnsent e)) q'.

Definition reqs_step (s : Sys) (e : Event) (s' : Sys) : Prop :=
  match about e with
  | None => reqs s' = reqs s
  | Some t =>
      match e with
      | ERequest _ q close d f =>
          reqs s !! t = None ∧
          (reqs s' = reqs s ∨
           ∃ r, Req_new q close d f = Ok r ∧ reqs s' = <[t := r]> (reqs s))
      | _ => ∃ q q', reqs s !! t = Some q ∧ reqs s' = <[t := q']> (reqs s) ∧ req_step q e q'
      end
  end.

Lemma run_req_step t q s s' :
  run_req t q s = Some s' → ∃ q', reqs s' = <[t := q']> (reqs s) ∧ req_step q (ERun t) q'.
Proof.
  unfold run_req. intros Hr.
  assert (∀ q', same_loop q q' → holding q = 0 → ¬ over q → holding q ≤ holding q' ∨ (holding q = 0 ∧ over q') →
    req_step q (ERun t) q') as Hgo by (intros; by constructor).
  destruct (pc q) as [| |now marked|now marked e|until marked parked e| | |c|c|c|r] eqn:Ep; try done;
    try (assert (holding q = 0 ∧ ¬ over q) as [Hh Hno] by (unfold holding, over; rewrite Ep; split; [done|by intros []])).
  - case_match; [destruct (reuse_h2 _ _ _) as [p found]|]; injection Hr as <-; eexists; (split; [done|]);
      (apply Hgo; [by split|done|done|left; rewrite Hh; lia]).
  - injection Hr as <-. eexists. split; [done|]. apply Hgo; [by split|done|done|left; rewrite Hh; lia].
  - destruct (pop_idle _ _ _ _ _) as [p found]. injection Hr as <-. eexists. split; [done|].
    apply Hgo; [by split|done|done|left; rewrite Hh; lia].
  - destruct (look_at _ _ _ _ _ _) as [p r]. injection Hr as <-. unfold reuse_step.
    destruct r; eexists; (split; [done|]); (apply Hgo; [by split|done|done|left; rewrite Hh; lia]).
  - case_decide; [|done]. destruct (look_again _ _ _ _ _ _) as [p r]. injection Hr as <-. unfold reuse_step.
    destruct r; eexists; (split; [done|]); (apply Hgo; [by split|done|done|left; rewrite Hh; lia]).
  - injection Hr as <-. eexists. split; [done|]. unfold dial_step, done.
    repeat case_match; (apply Hgo; [by split|done|done|first [by right|left; rewrite Hh; lia]]).
  - assert (holding q = 1 ∧ ¬ over q) as [Hh Hno] by (unfold holding, over; rewrite Ep; split; [done|by intros []]).
    destruct (take_lease _ _) as [n i]. case_match; injection Hr as <-; eexists; (split; [done|]);
      (constructor; [by split|done|left; by rewrite Hh]).
Qed.

Lemma sent_step t q c o s :
  pc q = PcSend c → ∃ q', reqs (sent t q c o s) = <[t := q']> (reqs s) ∧ req_step q (ESent t o) q'.
Proof.
  intros Ep. assert (holding q = 1 ∧ ¬ over q) as [Hh Hno] by (unfold holding, over; rewrite Ep; split; [done|by intros []]).
  unfold sent. destruct (count_one _ _) as [n used]. set (s1 := set_net n s).
  assert (reqs s1 = reqs s) as <- by done. clearbody s1. destruct o as [response|e|e].
  - unfold on_success. destruct (proto c); eexists; (split; [done|]); (apply rs_sent; at_once).
  - destruct (used && allow_reuse q) eqn:Eu.
    + apply andb_true_iff in Eu as [_ Ea]. eexists. split.
      * cbn [put_req set_reqs reqs]. by rewrite reqs_on_failure, reqs_mark.
      * apply rs_retry; [done..| |]; unfold over, holding; cbn [try_again pc attempts set_req]; intros H.
        -- by rewrite decide_True by done.
        -- rewrite decide_False by done. split; [done|by intros []].
    + eexists. split; [cbn [put_req set_reqs reqs]; by rewrite reqs_on_failure, reqs_mark|]. apply rs_sent; at_once.
  - eexists. split; [cbn [put_req set_reqs reqs]; by rewrite reqs_on_failure, reqs_mark|]. apply rs_sent; at_once.
Qed.

Lemma step_reqs s e s' : sys_step s e = Some s' → reqs_step s e s'.
Proof.
  intros Hs. destruct e as [d|c|c|c|c n|t q close d f|t|t r|t o|t o|p b|p| |t|t]; cbn in Hs; unfold reqs_step; cbn.
  - case_decide; by simplify_eq.
  - by simplify_eq.
  - by simplify_eq.
  - by simplify_eq.
  - case_decide; by simplify_eq.
  - destruct (reqs s !! t) eqn:Et; [done|]. destruct (Req_new q close d f) eqn:Er; simplify_eq; (split; [done|]).
    + right. by eexists.
    + by left.
  - destruct (reqs s !! t) as [q|]; [|done]. apply run_req_step in Hs as (q' & ? & ?). by exists q, q'.
  - destruct (reqs s !! t) as [q|]; [|done]. cbn in Hs. destruct (pc q) eqn:Ep; try done.
    assert (holding q = 0 ∧ ¬ over q) as [Hh Hno] by (unfold holding, over; rewrite Ep; split; [done|by intros []]).
    destruct r as [[[h2 prox] closer]|er]; simplify_eq; exists q.
    + unfold dialled. destruct h2; eexists; (split; [done|]); (split; [done|]); (constructor; at_once).
    + eexists. split; [done|]. split; [done|]. constructor; at_once.
  - destruct (reqs s !! t) as [q|]; [|done]. cbn in Hs. destruct (pc q) eqn:Ep; try done. simplify_eq.
    assert (holding q = 1 ∧ ¬ over q) as [Hh Hno] by (unfold holding, over; rewrite Ep; split; [done|by intros []]).
    exists q. unfold primed. destruct o; eexists; (split; [done|]);
      (split; [cbn [put_req set_reqs reqs hand_over]; by rewrite ?reqs_drop_proto|]);
      (constructor; [by split|done|done|]); cbn; rewrite ?bool_decide_true by done; try at_once; split; at_once.
  - destruct (reqs s !! t) as [q|]; [|done]. cbn in Hs. destruct (pc q) eqn:Ep; try done. simplify_eq.
    match goal with H : pc q = PcSend ?c |- _ => destruct (sent_step t q c o s H) as (q' & ? & ?) end.
    by exists q, q'.
  - destruct (parks s !! p) as [k|]; [|done]. cbn in Hs. destruct (pk_pc k); [|done]. simplify_eq.
    unfold ready. by case_match.
  - destruct (parks s !! p) as [k|]; [|done]. cbn in Hs. destruct (pk_pc k); [done|]. simplify_eq.
    unfold push_park, park. destruct (_ && _); [done|]. by rewrite reqs_ensure_reaper.
  - destruct (reaper s); [|done]. destruct (idle_timeout (pool s)); [|done]. case_decide; [|done].
    by injection Hs as <-.
  - destruct (destroys s !! t); [done|]. by simplify_eq.
  - destruct (destroys s !! t) as [dp|]; [|done]. injection Hs as <-. by destruct dp.
Qed.

(** The counts of one request so far, and what is left of its loop. *)

Record counts : Type := { sends : nat; wires : nat; dials : nat; body_failures : nat }.

Definition counted (t : nat) (es : list Event) : counts :=
  {| sends := count_if (is_send t) es; wires := count_if (is_wire t) es;
     dials := count_if (is_dial t) es; body_failures := count_if (is_body_failure t) es |}.

Definition budget (q : Req) (n : counts) : Prop :=
  (¬ over q → wires n = 0 ∧ body_failures n = 0 ∧ dials n ≤ sends n + holding q ∧
     ((attempts q = 3 ∧ sends n = 0) ∨ (attempts q = 2 ∧ allow_reuse q = false ∧ sends n = 1))) ∧
  (over q → 2 ≤ attempts q ∧ sends n ≤ 2 ∧ wires n ≤ 1 ∧ body_failures n ≤ 1 ∧
     dials n ≤ sends n + body_failures n ∧ sends n + body_failures n ≤ 2).

Definition budgets (es : list Event) (s : Sys) : Prop :=
  ∀ t, match reqs s !! t with
       | Some q => budget q (counted t es)
       | None => counted t es = {| sends := 0; wires := 0; dials := 0; body_failures := 0 |}
       end.

Lemma over_dec q : Decision (over q).
Proof. unfold over. destruct (pc q); apply _. Defined.

Lemma counted_other t es e : about e ≠ Some t → counted t (es ++ [e]) = counted t es.
Proof.
  intros Ha. unfold counted. rewrite !count_if_snoc.
  assert (is_send t e = false ∧ is_wire t e = false ∧ is_dial t e = false ∧ is_body_failure t e = false)
    as (-> & -> & -> & ->); [|by rewrite !Nat.add_0_r].
  destruct e as [| | | | | | |t' []|t' []|t' []| | | | |]; cbn in *; rewrite ?bool_decide_false by congruence; done.
Qed.

Ltac tally :=
  match goal with
  | L : _ ∨ _ ∧ allow_reuse _ = false ∧ _ |- _ => destruct L as [[? ?]|(? & ? & ?)]
  end; split_and?; try lia; first [left; lia|right; split_and!; [lia|congruence|lia]].

Lemma budget_step t es q e q' :
  about e = Some t → req_step q e q' → budget q (counted t es) → budget q' (counted t (es ++ [e])).
Proof.
  intros Ha Hs [Hb _]. unfold counted. rewrite !count_if_snoc.
  set (n := counted t es) in *.
  replace (count_if (is_send t) es) with (sends n) by done.
  replace (count_if (is_wire t) es) with (wires n) by done.
  replace (count_if (is_dial t) es) with (dials n) by done.
  replace (count_if (is_body_failure t) es) with (body_failures n) by done. clearbody n.
  assert (holding q' ≤ 1) as Hle by (unfold holding; destruct (pc q'); lia).
  assert (over q' → holding q' = 0) as Hov by (unfold over, holding; by destruct (pc q')).
  unfold budget.
  destruct Hs as [t' q' [E1 E2] Hno Hh|t' x q' [E1 E2] Hno Hh Hh' Hno'|t' er q' [E1 E2] Hno Hh Ho|
    t' o q' [E1 E2] Hno Hh Hif|t' o q' [E1 E2] Hno Hh Ho|t' er q' Hr E1 E2 Hno Hh H0 H1];
    injection Ha as ->; destruct (Hb Hno) as (W & B & D & L); cbn in *; rewrite ?bool_decide_true by done.
  - rewrite E1, E2. split; intros Ho; [destruct Hh as [?|[_ ?]]; [tally|done]|].
    specialize (Hov Ho). tally.
  - rewrite E1, E2. split; [|done]. intros; tally.
  - rewrite E1. split; [done|]. intros; tally.
  - destruct o; rewrite ?bool_decide_true in * by done; rewrite E1, ?E2; (split; intros; try done; try tauto; tally).
  - rewrite E1. split; [done|]. intros _. destruct o; rewrite ?bool_decide_true by done; tally.
  - destruct L as [[L1 L2]|(_ & L & _)]; [|congruence]. rewrite L1 in *. destruct (H1 ltac:(done)) as [Hh' Hno'].
    split; [|done]. intros _. split_and!; try lia. right. by split_and!; [lia|done|lia].
Qed.

Lemma budgets_step es s e s' : sys_step s e = Some s' → budgets es s → budgets (es ++ [e]) s'.
Proof.
  intros Hs%step_reqs Hb t. unfold reqs_step in Hs.
  destruct (decide (about e = Some t)) as [Ha|Ha].
  - rewrite Ha in Hs. specialize (Hb t). destruct e; try done; injection Ha as ->; cbn in Hs.
    1: { destruct Hs as [Hn Hs]. rewrite Hn in Hb.
         assert (counted t (es ++ [ERequest t q close d follows]) = counted t es) as ->.
         { unfold counted. by rewrite !count_if_snoc, !Nat.add_0_r. }
         destruct Hs as [->|(r & Hr & ->)]; [by rewrite Hn|]. rewrite lookup_insert_eq, Hb.
         unfold Req_new in Hr. destruct (pool_key _ _); [|done]. injection Hr as <-.
         split; cbn; [intros _; split_and!; try lia; by left|done]. }
    all: destruct Hs as (q & q' & Hq & -> & Hst); rewrite Hq in Hb; rewrite lookup_insert_eq;
      by eapply budget_step.
  - rewrite counted_other by done. specialize (Hb t). destruct (about e) as [t'|] eqn:E; [|by rewrite Hs].
    assert (t' ≠ t) by congruence. destruct e; try done; injection E as ->.
    1: { destruct Hs as [_ [->|(r & _ & ->)]]; [done|]. by rewrite lookup_insert_ne. }
    all: destruct Hs as (? & ? & _ & -> & _); by rewrite lookup_insert_ne.
Qed.

Lemma budgets_run hook timeout es s : sys_run (Sys_new hook timeout) es = Some s → budgets es s.
Proof.
  revert es s. apply run_ind; [|intros es s e s' _; apply budgets_step].
  intros t. cbn. by rewrite lookup_empty.
Qed.

(** C27. A request is handed to a connection at most twice, reaches the wire at
    most once, and is over when it has; it opens at most two connections, one
    per time it is handed over and one whose body then failed; and the loop's
    [MAX_ATTEMPTS] are never used up, so its last error is never the answer. *)

Theorem pool_request_budget (hook : bool) (timeout : option Z) (es : list Event) (s : Sys)
  (t : nat) (q : Req) :
  sys_run (Sys_new hook timeout) es = Some s → reqs s !! t = Some q →
  count_if (is_send t) es ≤ 2 ∧
  count_if (is_wire t) es ≤ 1 ∧
  (0 < count_if (is_wire t) es → over q) ∧
  count_if (is_dial t) es ≤ 2 ∧
  count_if (is_dial t) es ≤ count_if (is_send t) es + count_if (is_body_failure t) es + holding q ∧
  attempts q ≠ 0.
Proof.
  intros Hr Hq. pose proof (budgets_run _ _ _ _ Hr t) as Hb. rewrite Hq in Hb. destruct Hb as [Hn Ho].
  assert (holding q ≤ 1) by (unfold holding; destruct (pc q); lia).
  destruct (over_dec q) as [H'|H'].
  - destruct (Ho H') as (? & ? & ? & ? & ? & ?). cbn in *. split_and!; lia || done.
  - destruct (Hn H') as (? & ? & ? & L). cbn in *. destruct L as [[? ?]|(? & ? & ?)]; split_and!; lia.
Qed.
End Spec.
