(* ===== verification/PoolTime.v ===== *)
(** * PoolTime: when a connection of the pool is used, and how long it stays

    What a checkout knows of the connection it takes from a queue, what
    [has_idle] says of a checkout made at once, and how long the reaper lets
    an entry wait. *)

From S2P Require Import Prelude RustStd HttpHead Permissions Redirect Fetch Pool PoolSys PoolInv PoolSpec.

Section Time.
Context `{HU : UrlOps} `{HH : HeaderOps} `{HP : !PoolOps}.

Abbreviation Net := (gmap nat ConnState).

(** ** What every step keeps: a net that only grows, a clock that only
    advances, the timeout *)

Definition later (s s' : Sys) : Prop :=
  net_le (net s) (net s') ∧ (clock s ≤ clock s')%Z ∧ idle_timeout (pool s') = idle_timeout (pool s).

#[local] Instance later_refl : Reflexive later.
Proof. intros s. split_and!; [reflexivity|lia|done]. Qed.

#[local] Instance later_trans : Transitive later.
Proof.
  intros s s' s'' (? & ? & E) (? & ? & E'). split_and!; [by etrans|lia|by rewrite E', E].
Qed.

Lemma later_net n s : net_le (net s) n → later s (set_net n s).
Proof. intros H. by split_and!; [|cbn; lia|]. Qed.

Lemma later_alter f c s : keeps f → later s (set_net (alter f c (net s)) s).
Proof. intros H. by apply later_net, net_le_alter. Qed.

Lemma later_same s s' :
  net s' = net s → clock s' = clock s → idle_timeout (pool s') = idle_timeout (pool s) → later s s'.
Proof. intros E1 E2 E3. unfold later. rewrite E1, E2, E3. by split_and!; [reflexivity|lia|]. Qed.

Lemma later_drop_sender c s : later s (drop_sender c s).
Proof. by apply later_alter. Qed.

Lemma later_mark b k s : later s (mark_early b k s).
Proof. destruct b; by apply later_same. Qed.

Lemma later_on_failure c s : later s (on_failure c s).
Proof.
  unfold on_failure. destruct (proto c); [apply later_drop_sender|].
  destruct (_ && _); [|done]. destruct (_ !! _); [|done]. destruct (flag _ _ _); [by apply later_same|done].
Qed.

Lemma later_put t q s s' : later s s' → later s (put_req t q s').
Proof. intros H. etrans; [exact H|by apply later_same]. Qed.

Lemma later_drop c s s' : later s s' → later s (drop_sender c s').
Proof. intros H. etrans; [exact H|apply later_drop_sender]. Qed.

Lemma later_run t q s s' : run_req t q s = Some s' → later s s'.
Proof.
  unfold run_req. intros Hr.
  assert (∀ p, idle_timeout p = idle_timeout (pool s) → later s (set_pool p s)) as Hp by (intros; by apply later_same).
  assert (∀ e p m r, idle_timeout p = idle_timeout (pool s) → later s (reuse_step t q e p m r s)) as Hre.
  { intros e p m r E. unfold reuse_step. destruct r; apply later_put; [|by apply Hp..]. by apply later_drop, Hp. }
  destruct (pc q) as [| |now marked|now marked e|until marked parked e| | |c|c|c|r]; try done.
  - destruct (_ && _); [|injection Hr as <-; by apply later_put].
    destruct (reuse_h2 _ _ _) as [p found] eqn:Ef. injection Hr as <-. apply later_put, Hp.
    unfold reuse_h2 in Ef. destruct (h2s _ !! _); [|by injection Ef as <- _].
    destruct (flag _ _ _); by injection Ef as <- _.
  - injection Hr as <-. by apply later_put.
  - destruct (pop_idle _ _ _ _ _) as [p found] eqn:Ef. injection Hr as <-. apply later_put, Hp.
    apply pop_idle_spec in Ef. destruct found; [by destruct Ef as (? & _ & -> & _)|by destruct Ef as [->|[_ ->]]].
  - destruct (look_at _ _ _ _ _ _) as [p r] eqn:El. injection Hr as <-. apply Hre. unfold look_at in El.
    match type of El with context [if ?b then _ else _] => destruct b end; [by injection El as <- _|].
    destruct (is_dead _ _); [destruct (_ && _); by injection El as <- _|].
    destruct (fresh_delay _ _ _); by injection El as <- _.
  - case_decide; [|done]. destruct (look_again _ _ _ _ _ _) as [p r] eqn:El. injection Hr as <-. apply Hre.
    unfold look_again in El. destruct (is_dead _ _); [destruct (negb _)|]; by injection El as <- _.
  - injection Hr as <-. by apply later_put.
  - destruct (take_lease _ _) as [n i] eqn:El.
    assert (net_le (net s) n) as Hn.
    { unfold take_lease in El. destruct (connection _); [|by injection El as <- _].
      destruct (_ ≫= _); injection El as <- _; [by apply net_le_alter|done]. }
    case_match; injection Hr as <-; apply later_put; by apply later_net.
Qed.

Lemma later_sent t q c o s : later s (sent t q c o s).
Proof.
  unfold sent, count_one. set (s1 := set_net _ s). assert (later s s1) as H1 by by apply later_alter.
  assert (∀ b, later s (on_failure c (mark_early b (conn_key c) s1))) as Hf.
  { intros b. etrans; [exact H1|]. etrans; [apply (later_mark b (conn_key c))|apply later_on_failure]. }
  clearbody s1. destruct o.
  - unfold on_success. destruct (proto c); apply later_put; [|done]. etrans; [exact H1|by apply later_same].
  - destruct (_ && _); apply later_put, Hf.
  - apply later_put, Hf.
Qed.

Lemma later_step s e s' : inv s → sys_step s e = Some s' → later s s'.
Proof.
  intros Hi Hs. destruct e as [d|c|c|c|c n|t q close d f|t|t r|t o|t o|p b|p| |t|t]; cbn in Hs.
  - case_decide; [|done]. injection Hs as <-. by split_and!; [|cbn; lia|].
  - injection Hs as <-. by apply later_alter.
  - injection Hs as <-. by apply later_alter.
  - injection Hs as <-. by apply later_alter.
  - case_decide; [|done]. injection Hs as <-. by apply later_alter.
  - destruct (reqs s !! t); [done|]. destruct (Req_new q close d f); injection Hs as <-; by apply later_same.
  - destruct (reqs s !! t); [|done]. by eapply later_run.
  - destruct (reqs s !! t) as [q|]; [|done]. cbn in Hs. destruct (pc q); try done.
    destruct r as [[[h2 prox] closer]|]; injection Hs as <-; [|by apply later_same].
    unfold dialled. set (st := {| opened_for := key q |}).
    assert (later s (add_conn st s)) as H; [|destruct h2; (etrans; [exact H|by apply later_same])].
    split_and!; cbn; [|lia|done]. intros c st' Hc. exists st'. rewrite lookup_insert_ne; [by split_and!|].
    intros <-. pose proof (inv_conns _ Hi _ (mk_is_Some _ _ Hc)). lia.
  - destruct (reqs s !! t) as [q|]; [|done]. cbn in Hs. destruct (pc q); try done. injection Hs as <-.
    unfold primed. destruct o; [by apply later_put..|]. apply later_put.
    destruct (proto _); [apply later_drop_sender|done].
  - destruct (reqs s !! t) as [q|]; [|done]. cbn in Hs. destruct (pc q); try done. injection Hs as <-.
    apply later_sent.
  - destruct (parks s !! p); [|done]. cbn in Hs. destruct (pk_pc _); [|done]. injection Hs as <-. unfold ready.
    destruct (_ && _); [by apply later_same|].
    by apply later_drop, later_same.
  - destruct (parks s !! p); [|done]. cbn in Hs. destruct (pk_pc _); [done|]. injection Hs as <-.
    unfold push_park, park. destruct (_ && _); [by apply later_drop, later_same|].
    apply later_same; unfold ensure_reaper; by repeat case_match.
  - destruct (reaper s); [|done]. destruct (idle_timeout (pool s)) eqn:E; [|done]. case_decide; [|done].
    injection Hs as <-. split_and!; cbn; [apply net_step_drop_all|lia|done].
  - destruct (destroys s !! t); [done|]. injection Hs as <-. by apply later_same.
  - destruct (destroys s !! t) as [[]|]; [| |done]; injection Hs as <-; [|by apply later_same].
    split_and!; cbn; [apply net_step_drop_all|lia|done].
Qed.

(** ** What a checkout knows of the entry it holds *)

Definition waited (now : Z) (e : IdleH1) : Z := saturating_duration_since now (parked_at e).

Definition pc_timed (s : Sys) (p : Pc) : Prop :=
  match p with
  | PcPop now _ => (now ≤ clock s)%Z
  | PcLook now marked e =>
      (now ≤ clock s)%Z ∧ (parked_at e ≤ clock s)%Z ∧
      (marked = true → is_dead (net s) e = true ∨ (SETTLE ≤ waited now e)%Z)
  | PcGate until marked p e =>
      marked = false ∧ (parked_at e + FRESH_GATE ≤ until)%Z ∧ (p < FRESH_GATE)%Z ∧
      from_option (λ timeout, (p < timeout)%Z) True (idle_timeout (pool s))
  | _ => True
  end.

Record timed (s : Sys) : Prop := {
  timed_idle k d e : idle (pool s) !! k = Some d → e ∈ d → (parked_at e ≤ clock s)%Z;
  timed_parks p k now m : parks s !! p = Some k → pk_pc k = PkPush now m → (now ≤ clock s)%Z;
  timed_reqs t q : reqs s !! t = Some q → pc_timed s (pc q)
}.

Lemma is_dead_le n n' k e : net_le n n' → entry_ok n k e → is_dead n e = true → is_dead n' e = true.
Proof.
  intros Hle ((st & Hc & _) & Hs & _). unfold stats_ok in Hs. unfold is_dead, flag. rewrite Hs. cbn.
  destruct (Hle _ _ Hc) as (st' & -> & _ & _ & H1 & H2). rewrite Hc, !orb_true_iff. naive_solver.
Qed.

Lemma pc_timed_later s s' k p : later s s' → pc_ok (net s) k p → pc_timed s p → pc_timed s' p.
Proof.
  intros (Hn & Hc & Ht) Hok. destruct p; cbn; try done.
  - lia.
  - intros (? & ? & H). split_and!; [lia|lia|]. intros Hm. destruct (H Hm); [left; by eapply is_dead_le|by right].
  - by rewrite Ht.
Qed.

(** What is there after a step was there, or is as it should be. *)

Lemma timed_later s s' :
  inv s → later s s' →
  (∀ k d' e, idle (pool s') !! k = Some d' → e ∈ d' →
     (parked_at e ≤ clock s')%Z ∨ ∃ d, idle (pool s) !! k = Some d ∧ e ∈ d) →
  (∀ p k now m, parks s' !! p = Some k → pk_pc k = PkPush now m →
     (now ≤ clock s')%Z ∨ parks s !! p = Some k) →
  (∀ t q, reqs s' !! t = Some q → pc_timed s' (pc q) ∨ reqs s !! t = Some q) →
  timed s → timed s'.
Proof.
  intros Hi Hl H1 H2 H3 [T1 T2 T3]. pose proof Hl as (_ & Hc & _). split.
  - intros k d' e Hd He. destruct (H1 k d' e Hd He) as [?|(d & Hd' & He')]; [done|].
    specialize (T1 _ _ _ Hd' He'). lia.
  - intros p k now m Hp Hk. destruct (H2 p k now m Hp Hk) as [?|Hp']; [done|]. specialize (T2 _ _ _ _ Hp' Hk). lia.
  - intros t q Hq. destruct (H3 t q Hq) as [?|Hq']; [done|]. destruct (inv_reqs _ Hi _ _ Hq') as [_ Hok].
    eapply pc_timed_later; eauto.
Qed.

(** Where the step leaves the queues and the tasks alone, it is enough to look
    at the request it puts back. *)

Lemma timed_put t q s s' :
  inv s → later s s' → idle (pool s') = idle (pool s) → parks s' = parks s →
  reqs s' = <[t := q]> (reqs s) → pc_timed s' (pc q) → timed s → timed s'.
Proof.
  intros Hi Hl E1 E2 E3 Hq. apply timed_later; [done|done|rewrite E1|rewrite E2|rewrite E3]; eauto.
  intros t' q'. rewrite lookup_insert_Some. intros [[<- <-]|[_ ?]]; auto.
Qed.

Lemma timed_same s s' :
  inv s → later s s' → idle (pool s') = idle (pool s) → parks s' = parks s → reqs s' = reqs s →
  timed s → timed s'.
Proof.
  intros Hi Hl E1 E2 E3. apply timed_later; [done|done|rewrite E1|rewrite E2|rewrite E3]; eauto.
Qed.

Lemma look_at_timed n clk now k e p p' r :
  look_at n clk now k e p = (p', r) → (now ≤ clk)%Z → (parked_at e ≤ clk)%Z →
  same_queues p p' ∧
  match r with
  | RContinue => True
  | RWait parked delay =>
      is_dead n e = false ∧ parked = waited now e ∧ (parked < FRESH_GATE)%Z ∧
      (parked_at e + FRESH_GATE ≤ clk + delay)%Z ∧ from_option (λ timeout, (parked < timeout)%Z) True (idle_timeout p)
  | RConn c =>
      c = hand_out n k (waited now e) e ∧ is_dead n e = false ∧ (FRESH_GATE ≤ waited now e)%Z ∧
      from_option (λ timeout, (waited now e < timeout)%Z) True (idle_timeout p)
  end.
Proof.
  intros Hl Hc He. unfold look_at in Hl. set (expired := match idle_timeout p with Some _ => _ | None => _ end) in Hl.
  assert (expired = false → from_option (λ timeout, (waited now e < timeout)%Z) True (idle_timeout p)) as Hx.
  { subst expired. unfold idle_left, waited. destruct (idle_timeout p) as [timeout|]; [|done]. cbn.
    destruct (0 <? _)%Z eqn:E; [intros _; lia|]. by rewrite bool_decide_false by (by intros []). }
  destruct expired; [by injection Hl as <- <-|]. specialize (Hx eq_refl).
  destruct (is_dead n e); [destruct (_ && _); by injection Hl as <- <-|].
  unfold fresh_delay in Hl. fold (waited now e) in Hl. destruct (_ <? _)%Z eqn:E in Hl; injection Hl as <- <-; (split; [done|]).
  - split_and!; try done; [lia|]. unfold waited, saturating_duration_since in *. lia.
  - split_and!; try done. lia.
Qed.

Lemma timed_run t q s s' :
  inv s → reqs s !! t = Some q → run_req t q s = Some s' → timed s → timed s'.
Proof.
  intros Hi Hq Hr Ht. pose proof (later_run _ _ _ _ Hr) as Hl. pose proof (timed_reqs _ Ht _ _ Hq) as Hp.
  unfold run_req in Hr.
  destruct (pc q) as [| |now marked|now marked e|until marked parked e| | |c|c|c|r] eqn:Ep; try done; cbn in Hp.
  - destruct (_ && _); [destruct (reuse_h2 _ _ _) as [p found] eqn:Ef|]; injection Hr as <-.
    + eapply (timed_put t); [done|done| |done|done| |done].
      * cbn. unfold reuse_h2 in Ef. destruct (h2s _ !! _); [|by injection Ef as <- _].
        destruct (flag _ _ _); by injection Ef as <- _.
      * by destruct found.
    + by eapply (timed_put t).
  - injection Hr as <-. eapply (timed_put t); try done. cbn. lia.
  - destruct (pop_idle _ _ _ _ _) as [p found] eqn:Ef. injection Hr as <-. apply pop_idle_spec in Ef.
    apply (timed_later s); [done|done| |by right| |done].
    + intros k d' e Hd He. right. destruct found as [e'|].
      * destruct Ef as (rest & Hk & -> & _). cbn in Hd.
        apply lookup_without_front in Hd as [[_ ?]|(-> & -> & ?)]; eexists; (split; [done|]); [done|by right].
      * destruct Ef as [->|[Hk ->]]; cbn in Hd; [by eexists|]. apply lookup_delete_Some in Hd as [_ ?]. by eexists.
    + intros t' q'. cbn. rewrite lookup_insert_Some. intros [[<- <-]|[_ ?]]; [left|by right].
      destruct found as [e'|]; [|done]. destruct Ef as (rest & Hk & -> & Hm). cbn.
      split_and!; [done|eapply timed_idle; [done|exact Hk|by left]|]. intros Hm'. specialize (Hm Hm').
      unfold settling in Hm. fold (waited now e') in Hm. destruct (is_dead (net s) e'); [by left|right]. cbn in Hm. lia.
  - destruct Hp as (H1 & H2 & H3). destruct (look_at _ _ _ _ _ _) as [p r] eqn:El. injection Hr as <-.
    apply look_at_timed in El as [[E1 E2] Hr]; [|done|done].
    assert (idle_timeout p = idle_timeout (pool s)) as Et.
    { destruct Hl as (_ & _ & E). unfold reuse_step in E. by destruct r. }
    unfold reuse_step in *. destruct r as [|p' delay|c]; (eapply (timed_put t); [done|done|done|done|done| |done]); try done.
    destruct Hr as (Hd & -> & Hw & Hu & Ho). cbn. rewrite Et. split_and!; try done.
    destruct marked; [|done]. destruct (H3 eq_refl) as [?|?]; [congruence|]. unfold SETTLE, FRESH_GATE, millis in *. lia.
  - case_decide; [|done]. destruct (look_again _ _ _ _ _ _) as [p r] eqn:El. injection Hr as <-.
    destruct (inv_reqs _ Hi _ _ Hq) as [_ Hok]. rewrite Ep in Hok.
    pose proof El as [[E1 E2] _]%look_again_ok; [|exact Hok]. unfold look_again in El.
    assert (match r with RWait _ _ => False | _ => True end) as Hr.
    { destruct (is_dead _ _); [destruct (negb _)|]; by injection El as _ <-. }
    unfold reuse_step. by destruct r; [|done|]; (eapply (timed_put t); [done|done|done|done|done| |done]).
  - injection Hr as <-. eapply (timed_put t); try done. unfold dial_step, done. by repeat case_match.
  - destruct (take_lease _ _) as [n i]. case_match; injection Hr as <-; by eapply (timed_put t).
Qed.

Lemma pc_timed_try_again s q : pc_timed s (pc (try_again q)).
Proof. unfold try_again. cbn [pc]. by case_decide. Qed.

Lemma timed_sent t q c o s : inv s → timed s → timed (sent t q c o s).
Proof.
  intros Hi Ht. pose proof (later_sent t q c o s) as Hl. revert Hl. unfold sent, count_one.
  set (s1 := set_net _ s). assert (idle (pool s1) = idle (pool s)) as E1 by done.
  assert (parks s1 = parks s) as E2 by done. assert (reqs s1 = reqs s) as E3 by done. clearbody s1.
  assert (∀ b, idle (pool (on_failure c (mark_early b (conn_key c) s1))) = idle (pool s) ∧
    parks (on_failure c (mark_early b (conn_key c) s1)) = parks s) as Hf.
  { intros b. rewrite <-E1, <-E2. unfold on_failure, mark_early. destruct b, (proto c); cbn; try done;
      destruct (_ && _); try done; by repeat case_match. }
  assert (∀ b q', reqs (put_req t q' (on_failure c (mark_early b (conn_key c) s1))) = <[t := q']> (reqs s)) as Hput.
  { intros b q'. cbn [put_req set_reqs reqs]. by rewrite reqs_on_failure, reqs_mark, E3. }
  destruct o as [response|e|e].
  - unfold on_success. destruct (proto c) as [m st|m]; intros Hl.
    + apply (timed_later s); [done|done| | | |done]; cbn; rewrite ?E1, ?E2, ?E3.
      * intros k d e Hd He. right. by exists d.
      * intros p k now m'. rewrite lookup_insert_Some. intros [[_ <-]|[_ ?]]; [done|by right].
      * intros t' q'. rewrite lookup_insert_Some. intros [[_ <-]|[_ ?]]; [by left|by right].
    + eapply (timed_put t); [done|done|done|done| | |done]; cbn; [by rewrite E3|done].
  - intros Hl. destruct (_ && _); (eapply (timed_put t); [done|done|apply Hf|apply Hf|by apply Hput| |done]);
      [apply pc_timed_try_again|done].
  - intros Hl. by eapply (timed_put t); [done|done|apply Hf|apply Hf|apply Hput| |done].
Qed.

Lemma ensure_reaper_same s :
  ∃ w b, ensure_reaper s =
    set_reaper w (set_pool {| idle := idle (pool s); h2s := h2s (pool s); idle_timeout := idle_timeout (pool s);
                              generation := generation (pool s); reaper_started := b; early := early (pool s) |} s).
Proof.
  destruct s as [? ? [] ? ? ? ? ? ? ?]. unfold ensure_reaper; cbn. repeat case_match; by do 2 eexists.
Qed.

Lemma timed_step s e s' : inv s → sys_step s e = Some s' → timed s → timed s'.
Proof.
  intros Hi Hs Ht. pose proof (later_step _ _ _ Hi Hs) as Hl.
  destruct e as [d|c|c|c|c n|t q close d f|t|t r|t o|t o|p b|p| |t|t]; cbn in Hs.
  - case_decide; [|done]. injection Hs as <-. by eapply timed_same.
  - injection Hs as <-. by eapply timed_same.
  - injection Hs as <-. by eapply timed_same.
  - injection Hs as <-. by eapply timed_same.
  - case_decide; [|done]. injection Hs as <-. by eapply timed_same.
  - destruct (reqs s !! t); [done|]. destruct (Req_new q close d f) as [r|] eqn:Er; injection Hs as <-; [|done].
    apply (Req_new_ok (net s)) in Er as [_ Hpc]. eapply (timed_put t); try done. by rewrite Hpc.
  - destruct (reqs s !! t) as [q|] eqn:Hq; [|done]. by eapply timed_run.
  - destruct (reqs s !! t) as [q|]; [|done]. cbn in Hs. destruct (pc q); try done.
    destruct r as [[[h2 prox] closer]|]; injection Hs as <-; [|by eapply (timed_put t)].
    unfold dialled in *. destruct h2; by eapply (timed_put t).
  - destruct (reqs s !! t) as [q|]; [|done]. cbn in Hs. destruct (pc q) eqn:Ep; try done. injection Hs as <-.
    unfold primed in *. destruct o; [by eapply (timed_put t)..|]. destruct (proto _); by eapply (timed_put t).
  - destruct (reqs s !! t) as [q|]; [|done]. cbn in Hs. destruct (pc q); try done. injection Hs as <-.
    by apply timed_sent.
  - destruct (parks s !! p) as [k|] eqn:Hp; [|done]. cbn in Hs. destruct (pk_pc _); [|done]. injection Hs as <-.
    unfold ready in *. destruct (_ && _); (apply (timed_later s); [done|done| | | |done]); cbn; try (by right);
      try (intros ? d ? ? ?; right; by exists d).
    + intros p' k' now m. rewrite lookup_insert_Some. intros [[_ <-]|[_ ?]]; [intros [= <- _]; left; lia|by right].
    + intros p' k' now m [_ ?]%lookup_delete_Some. by right.
  - destruct (parks s !! p) as [k|] eqn:Hp; [|done]. cbn in Hs. destruct (pk_pc _) as [|now marked] eqn:Ek; [done|].
    injection Hs as <-. pose proof (timed_parks _ Ht _ _ _ _ Hp Ek) as Hnow.
    revert Hl. unfold push_park, park. destruct (_ && _).
    + intros Hl. apply (timed_later s); [done|done| | |by right|done].
      * intros ? d ? ? ?; right; by exists d.
      * cbn. intros p' k' now' m [_ ?]%lookup_delete_Some. by right.
    + match goal with |- context [ensure_reaper ?x] => destruct (ensure_reaper_same x) as (w & b & ->) end.
      intros Hl. apply (timed_later s); [done|done| | |by right|done]; cbn.
      * intros k' d' e. rewrite lookup_insert_Some. intros [[<- <-]|[_ ?]] He; [|right; by exists d'].
        apply elem_of_app in He as [He|He%list_elem_of_singleton]; [right|left; subst e; cbn; lia].
        destruct (idle (pool s) !! pk_key k) as [d|]; [by exists d|by apply elem_of_nil in He].
      * intros p' k' now' m [_ ?]%lookup_delete_Some. by right.
  - destruct (reaper s); [|done]. destruct (idle_timeout (pool s)) eqn:E; [|done]. case_decide; [|done].
    injection Hs as <-. apply (timed_later s); [done|done| |by right|by right|done].
    cbn. intros k d' e. rewrite lookup_omap_Some. intros (d & Hr & Hd) He. right. exists d. split; [done|].
    unfold reap_deque in Hr. destruct (filter _ d) eqn:Ef in Hr; [done|]. injection Hr as <-.
    rewrite <-Ef in He. by apply list_elem_of_filter in He as [_ ?].
  - destruct (destroys s !! t); [done|]. injection Hs as <-. by eapply timed_same.
  - destruct (destroys s !! t) as [[]|]; [| |done]; injection Hs as <-; [|by eapply timed_same].
    apply (timed_later s); [done|done| |by right|by right|done]. cbn. intros k d' e. by rewrite lookup_empty.
Qed.

Lemma timed_run_all hook timeout es s : sys_run (Sys_new hook timeout) es = Some s → timed s.
Proof.
  revert es s. apply run_ind.
  - split; cbn; intros *; by rewrite lookup_empty.
  - intros es s e s' Hr Hs. eapply timed_step; [by eapply inv_run|done].
Qed.

(** The entry a checkout is looking at, and whether it read a mark. *)

Definition looking (p : Pc) : option (bool * IdleH1) :=
  match p with
  | PcLook _ marked e | PcGate _ marked _ e => Some (marked, e)
  | _ => None
  end.

(** C28. The connection a checkout takes from a queue is open on both sides at
    the moment it is taken; at least [FRESH_GATE] has passed since it was
    parked; it had been parked for less than the pool's timeout when it was
    looked at, and for at least [SETTLE] if its origin was marked as one that
    closes early when the checkout began. *)

Theorem pooled_connection_fresh (hook : bool) (timeout : option Z) (es : list Event) (s s' : Sys)
  (t : nat) (q q' : Req) (marked : bool) (e : IdleH1) (c : Conn) :
  sys_run (Sys_new hook timeout) es = Some s → sys_step s (ERun t) = Some s' →
  reqs s !! t = Some q → looking (pc q) = Some (marked, e) →
  reqs s' !! t = Some q' → pc q' = PcHave c →
  is_dead (net s) e = false ∧
  (parked_at e + FRESH_GATE ≤ clock s)%Z ∧
  ∃ p, c = hand_out (net s) (key q) p e ∧
       (p ≤ clock s - parked_at e)%Z ∧
       from_option (λ limit, (p < limit)%Z) True (idle_timeout (pool s)) ∧
       (marked = true → (SETTLE ≤ p)%Z).
Proof.
  intros Hr Hs Hq Hlk Hq' Hc. pose proof (timed_run_all _ _ _ _ Hr) as Ht.
  pose proof (timed_reqs _ Ht _ _ Hq) as Hp. cbn in Hs. rewrite Hq in Hs. cbn in Hs. unfold run_req in Hs.
  destruct (pc q) as [| |now m|now m e'|until m parked e'| | |c'|c'|c'|r] eqn:Ep; try done;
    injection Hlk as -> ->; cbn in Hp.
  - destruct Hp as (H1 & H2 & H3). destruct (look_at _ _ _ _ _ _) as [p r] eqn:El. injection Hs as <-.
    apply look_at_timed in El as [_ H]; [|done|done]. unfold reuse_step in Hq'.
    destruct r as [|p' delay|c']; cbn in Hq'; rewrite lookup_insert_eq in Hq'; injection Hq' as <-; try done.
    injection Hc as <-. destruct H as (-> & Hd & Hw & Ho). unfold waited, saturating_duration_since in *.
    assert (FRESH_GATE = 1000000)%Z by done.
    split_and!; [done|lia|]. eexists. split_and!; [done|lia|done|].
    intros Hm. destruct (H3 Hm); [congruence|done].
  - destruct Hp as (-> & H2 & H3 & H4). case_decide; [|done].
    destruct (look_again _ _ _ _ _ _) as [p r] eqn:El. injection Hs as <-. unfold look_again in El.
    destruct (is_dead (net s) e) eqn:Ed.
    + destruct (negb _); injection El as <- <-; cbn in Hq'; rewrite lookup_insert_eq in Hq'; by injection Hq' as <-.
    + injection El as <- <-. cbn in Hq'. rewrite lookup_insert_eq in Hq'. injection Hq' as <-. injection Hc as <-.
      split_and!; [done|lia|]. eexists. split_and!; [done|lia|done|done].
Qed.

(** ** How long an entry waits

    Time passes only when no task can run: none is about to push, and the
    reaper's timer has not fired. *)

Definition is_ready (p : ParkPc) : bool :=
  match p with
  | PkReady => true
  | PkPush _ _ => false
  end.

Definition may_tick (d : Z) (s : Sys) : bool :=
  bool_decide (map_Forall (λ _ k, is_ready (pk_pc k) = true) (parks s)) &&
  match reaper s with
  | Some wake => (clock s + d <=? wake)%Z
  | None => true
  end.

Fixpoint prompt_run (s : Sys) (es : list Event) : option Sys :=
  match es with
  | [] => Some s
  | e :: es =>
      if match e with ETick d => may_tick d s | _ => true end
      then s ← sys_step s e; prompt_run s es else None
  end.

Record kept (timeout : Z) (s : Sys) : Prop := {
  kept_timeout : idle_timeout (pool s) = Some timeout;
  kept_started : reaper_started (pool s) = bool_decide (is_Some (reaper s));
  kept_runs k d : idle (pool s) !! k = Some d → is_Some (reaper s);
  kept_wake w : reaper s = Some w → (clock s ≤ w ≤ clock s + Z.max timeout MIN_REAP_TICK)%Z;
  kept_bound k d e w : idle (pool s) !! k = Some d → e ∈ d → reaper s = Some w →
    (w ≤ parked_at e + timeout + MIN_REAP_TICK)%Z;
  kept_push p k now m : parks s !! p = Some k → pk_pc k = PkPush now m → now = clock s
}.

(** A step that leaves the clock and the reaper alone, and adds to no queue. *)

Lemma kept_less timeout s s' :
  idle_timeout (pool s') = idle_timeout (pool s) → reaper_started (pool s') = reaper_started (pool s) →
  reaper s' = reaper s → clock s' = clock s →
  (∀ k d', idle (pool s') !! k = Some d' → ∃ d, idle (pool s) !! k = Some d ∧ d' ⊆ d) →
  (∀ p k now m, parks s' !! p = Some k → pk_pc k = PkPush now m → now = clock s ∨ parks s !! p = Some k) →
  kept timeout s → kept timeout s'.
Proof.
  intros E1 E2 E3 E4 Hi Hp [K1 K2 K3 K4 K5 K6]. split; rewrite ?E1, ?E2, ?E3, ?E4; try done.
  - intros k d' Hd. destruct (Hi k d' Hd) as (d & Hd' & _). by eapply K3.
  - intros k d' e w Hd He. destruct (Hi k d' Hd) as (d & Hd' & Hsub). eapply K5; [exact Hd'|by apply Hsub].
  - intros p k now m H1 H2. destruct (Hp p k now m H1 H2); [done|by eapply K6].
Qed.

Lemma kept_same timeout s s' :
  idle_timeout (pool s') = idle_timeout (pool s) → reaper_started (pool s') = reaper_started (pool s) →
  reaper s' = reaper s → clock s' = clock s → idle (pool s') = idle (pool s) → parks s' = parks s →
  kept timeout s → kept timeout s'.
Proof.
  intros ? ? ? ? E1 E2. apply kept_less; try done; rewrite ?E1, ?E2; [|by right].
  intros k d Hd. by exists d.
Qed.

Lemma next_expiry_le n timeout now d next :
  (next_expiry n timeout now d next ≤ next)%Z ∧
  ∀ e r, e ∈ d → stays n timeout now e = Some r → (next_expiry n timeout now d next ≤ r)%Z.
Proof.
  induction d as [|e d [IH1 IH2]]; cbn; [split; [lia|by intros e r ?%elem_of_nil]|].
  fold (next_expiry n timeout now d next).
  split; [destruct (stays _ _ _ e); lia|]. intros e' r [->|He]%elem_of_cons Hr; [rewrite Hr; lia|].
  specialize (IH2 _ _ He Hr). destruct (stays _ _ _ e); lia.
Qed.

Lemma clear_expired_next n timeout now p p' next :
  clear_expired n timeout now p = (p', next) →
  (next ≤ timeout)%Z ∧
  ∀ k d e r, idle p !! k = Some d → e ∈ d → stays n timeout now e = Some r → (next ≤ r)%Z.
Proof.
  unfold clear_expired. intros [= _ <-].
  apply (map_fold_weak_ind (λ next m, (next ≤ timeout)%Z ∧
    ∀ k d e r, m !! k = Some d → e ∈ d → stays n timeout now e = Some r → (next ≤ r)%Z)).
  - split; [lia|]. intros k d e r. by rewrite lookup_empty.
  - intros k d m next _ [IH1 IH2]. destruct (next_expiry_le n timeout now d next) as [H1 H2].
    split; [lia|]. intros k' d' e r. rewrite lookup_insert_Some. intros [[<- <-]|[_ Hd]] He Hr; [by eapply H2|].
    specialize (IH2 _ _ _ _ Hd He Hr). lia.
Qed.

Lemma kept_reap timeout s s' :
  reap timeout s = s' → kept timeout s → is_Some (reaper s) →
  kept timeout s' ∧ ∃ w, reaper s' = Some w ∧ (clock s + MIN_REAP_TICK ≤ w)%Z.
Proof.
  intros <- [K1 K2 K3 K4 K5 K6] Hw. unfold reap.
  destruct (clear_expired _ _ _ _) as [p next] eqn:E. destruct (clear_expired_next _ _ _ _ _ _ E) as [N1 N2].
  unfold clear_expired in E. injection E as <- _. assert (0 < MIN_REAP_TICK)%Z by done.
  split; [|eexists; split; [done|cbn; lia]]. split; cbn; try done.
  - rewrite K2. by rewrite !bool_decide_true.
  - intros w [= <-]. lia.
  - intros k d' e w. rewrite lookup_omap_Some. intros (d & Hr & Hd) He [= <-].
    unfold reap_deque in Hr. destruct (filter _ d) eqn:Ef in Hr; [done|]. injection Hr as <-.
    rewrite <-Ef in He. apply list_elem_of_filter in He as [[r Hst] He].
    specialize (N2 _ _ _ _ Hd He Hst). unfold stays, idle_left in Hst.
    destruct (0 <? _)%Z eqn:El in Hst; [|done]. destruct (flag _ _ _); [done|]. injection Hst as <-.
    unfold saturating_duration_since in *. lia.
Qed.

Lemma kept_push_park timeout p k now m s :
  (0 ≤ timeout)%Z → parks s !! p = Some k → pk_pc k = PkPush now m → kept timeout s → kept timeout (push_park p k now m s).
Proof.
  intros Hpos Hp Hk K. pose proof (kept_push _ _ K _ _ _ _ Hp Hk) as ->. unfold push_park, park. destruct (_ && _).
  { apply (kept_less _ s); try done; cbn; [|by intros p' k' now m' [_ ?]%lookup_delete_Some; right].
    intros k' d Hd. by exists d. }
  destruct K as [K1 K2 K3 K4 K5 K6]. unfold ensure_reaper; cbn. rewrite K1, K2.
  assert (0 < MIN_REAP_TICK)%Z by done.
  set (e := {| sender := pk_sender k |}).
  assert (∀ k' d' e', <[pk_key k := default [] (idle (pool s) !! pk_key k) ++ [e]]> (idle (pool s)) !! k' = Some d' →
    e' ∈ d' → e' = e ∨ ∃ d, idle (pool s) !! k' = Some d ∧ e' ∈ d) as Hin.
  { intros k' d' e'. rewrite lookup_insert_Some. intros [[<- <-]|[_ ?]] He; [|right; by exists d'].
    apply elem_of_app in He as [He|He%list_elem_of_singleton]; [right|by left].
    destruct (idle (pool s) !! pk_key k) as [d|]; [by exists d|by apply elem_of_nil in He]. }
  destruct (reaper s) as [w|] eqn:Ew.
  - rewrite bool_decide_true by done. split; cbn; rewrite ?Ew; try done.
    + intros k' d' e' w' Hd He [= <-]. destruct (Hin _ _ _ Hd He) as [->|(d & Hd' & He')]; [|by eapply K5].
      destruct (K4 _ eq_refl). cbn. lia.
    + intros p' k' now m' [_ ?]%lookup_delete_Some. by eapply K6.
  - rewrite bool_decide_false by (by intros []). split; cbn; try done.
    + intros w [= <-]. lia.
    + intros k' d' e' w' Hd He [= <-]. destruct (Hin _ _ _ Hd He) as [->|(d & Hd' & He')]; [cbn; lia|].
      destruct (K3 _ _ Hd'). done.
    + intros p' k' now m' [_ ?]%lookup_delete_Some. by eapply K6.
Qed.

Lemma kept_put timeout t q s' : kept timeout s' → kept timeout (put_req t q s').
Proof. by apply kept_same. Qed.

Lemma kept_drop timeout c s : kept timeout s → kept timeout (drop_sender c s).
Proof. by apply kept_same. Qed.

Lemma kept_run_req timeout t q s s' : run_req t q s = Some s' → kept timeout s → kept timeout s'.
Proof.
  intros Hr K. unfold run_req in Hr.
  destruct (pc q) as [| |now marked|now marked e|until marked parked e| | |c|c|c|r]; try done.
  - destruct (_ && _); [|injection Hr as <-; by apply kept_put].
    destruct (reuse_h2 _ _ _) as [p found] eqn:Ef. injection Hr as <-. apply kept_put. unfold reuse_h2 in Ef.
    destruct (h2s _ !! _); [destruct (flag _ _ _)|]; injection Ef as <- _; by apply (kept_same _ s).
  - injection Hr as <-. by apply kept_put.
  - destruct (pop_idle _ _ _ _ _) as [p found] eqn:Ef. injection Hr as <-. apply kept_put. apply pop_idle_spec in Ef.
    destruct found as [e|].
    + destruct Ef as (rest & Hk & -> & _). apply (kept_less _ s); try done; cbn; [|by right].
      intros k d [[_ ?]|(-> & -> & ?)]%lookup_without_front; eexists; (split; [done|]); set_solver.
    + destruct Ef as [->|[Hk ->]]; [by apply (kept_same _ s)|]. apply (kept_less _ s); try done; cbn; [|by right].
      intros k d [_ ?]%lookup_delete_Some. by exists d.
  - destruct (look_at _ _ _ _ _ _) as [p r] eqn:El. injection Hr as <-.
    assert (kept timeout (set_pool p s)) as K'.
    { unfold look_at in El. match type of El with context [if ?b then _ else _] => destruct b end;
        [injection El as <- _; by apply (kept_same _ s)|].
      destruct (is_dead _ _); [destruct (_ && _)|destruct (fresh_delay _ _ _)]; injection El as <- _; by apply (kept_same _ s). }
    unfold reuse_step. destruct r; apply kept_put; by try apply kept_drop.
  - case_decide; [|done]. destruct (look_again _ _ _ _ _ _) as [p r] eqn:El. injection Hr as <-.
    assert (kept timeout (set_pool p s)) as K'.
    { unfold look_again in El. destruct (is_dead _ _); [destruct (negb _)|]; injection El as <- _; by apply (kept_same _ s). }
    unfold reuse_step. destruct r; apply kept_put; by try apply kept_drop.
  - injection Hr as <-. by apply kept_put.
  - destruct (take_lease _ _) as [n i]. case_match; injection Hr as <-; apply kept_put; by apply (kept_same _ s).
Qed.

Lemma kept_on_failure timeout b c s :
  kept timeout s → kept timeout (on_failure c (mark_early b (conn_key c) s)).
Proof.
  intros K. assert (kept timeout (mark_early b (conn_key c) s)) as K' by (destruct b; by apply (kept_same _ s)).
  revert K'. generalize (mark_early b (conn_key c) s). intros s' K'. unfold on_failure.
  destruct (proto c); [by apply kept_drop|]. destruct (_ && _); [|done]. destruct (_ !! _); [|done].
  destruct (flag _ _ _); [|done]. by apply (kept_same _ s').
Qed.

Lemma kept_sent timeout t q c o s : kept timeout s → kept timeout (sent t q c o s).
Proof.
  intros K. unfold sent, count_one. set (s1 := set_net _ s). assert (kept timeout s1) as K1 by by apply (kept_same _ s).
  clearbody s1. destruct o.
  - unfold on_success. destruct (proto c); apply kept_put; [|done]. apply (kept_less _ s1); try done; cbn.
    + intros k d Hd. by exists d.
    + intros p k now m. rewrite lookup_insert_Some. intros [[_ <-]|[_ ?]]; [done|by right].
  - destruct (_ && _); apply kept_put; by apply kept_on_failure.
  - apply kept_put. by apply kept_on_failure.
Qed.

Lemma kept_tick timeout d s :
  (0 ≤ d)%Z → may_tick d s = true → kept timeout s → kept timeout (set_clock (clock s + d) s).
Proof.
  unfold may_tick. intros Hd [Hp Hw]%andb_true_iff [K1 K2 K3 K4 K5 K6]. apply bool_decide_eq_true in Hp.
  split; try done; cbn.
  - intros w Ew. rewrite Ew in Hw. specialize (K4 _ Ew). lia.
  - intros p k now m Hk Hpc. specialize (Hp _ _ Hk). cbn in Hp. by rewrite Hpc in Hp.
Qed.

Lemma kept_step timeout s e s' :
  (0 ≤ timeout)%Z → (∀ d, e = ETick d → may_tick d s = true) → sys_step s e = Some s' →
  kept timeout s → kept timeout s'.
Proof.
  intros Hpos Htick Hs K. destruct e as [d|c|c|c|c n|t q close d f|t|t r|t o|t o|p b|p| |t|t]; cbn in Hs.
  - case_decide; [|done]. injection Hs as <-. apply kept_tick; [done|by apply Htick|done].
  - injection Hs as <-. by apply (kept_same _ s).
  - injection Hs as <-. by apply (kept_same _ s).
  - injection Hs as <-. by apply (kept_same _ s).
  - case_decide; [|done]. injection Hs as <-. by apply (kept_same _ s).
  - destruct (reqs s !! t); [done|]. destruct (Req_new q close d f); injection Hs as <-; [by apply kept_put|done].
  - destruct (reqs s !! t); [|done]. by eapply kept_run_req.
  - destruct (reqs s !! t) as [q|]; [|done]. cbn in Hs. destruct (pc q); try done.
    destruct r as [[[h2 prox] closer]|]; injection Hs as <-; [|by apply kept_put].
    unfold dialled. destruct h2; by apply (kept_same _ s).
  - destruct (reqs s !! t) as [q|]; [|done]. cbn in Hs. destruct (pc q); try done. injection Hs as <-.
    unfold primed. destruct o; apply kept_put; try done. by destruct (proto _); [apply kept_drop|].
  - destruct (reqs s !! t) as [q|]; [|done]. cbn in Hs. destruct (pc q); try done. injection Hs as <-.
    by apply kept_sent.
  - destruct (parks s !! p) as [k|] eqn:Hp; [|done]. cbn in Hs. destruct (pk_pc _); [|done]. injection Hs as <-.
    unfold ready. destruct (_ && _); [|apply kept_drop]; (apply (kept_less _ s); [done..| | |exact K]); cbn;
      try (intros k' d Hd; by exists d).
    + intros p' k' now m. rewrite lookup_insert_Some. intros [[_ <-]|[_ ?]]; [intros [= <- _]; by left|by right].
    + intros p' k' now m [_ ?]%lookup_delete_Some. by right.
  - destruct (parks s !! p) as [k|] eqn:Hp; [|done]. cbn in Hs. destruct (pk_pc _) as [|now marked] eqn:Ek; [done|].
    injection Hs as <-. by apply kept_push_park.
  - destruct (reaper s) eqn:Ew; [|done]. destruct (idle_timeout (pool s)) eqn:E; [|done]. case_decide; [|done].
    assert (z0 = timeout) as -> by (rewrite (kept_timeout _ _ K) in E; by injection E).
    injection Hs as <-. by apply (kept_reap _ s _ eq_refl).
  - destruct (destroys s !! t); [done|]. injection Hs as <-. by apply (kept_same _ s).
  - destruct (destroys s !! t) as [[]|]; [| |done]; injection Hs as <-; [|by apply (kept_same _ s)].
    apply (kept_less _ s); [done..| | |exact K]; cbn; [|by right]. intros k d. by rewrite lookup_empty.
Qed.

Lemma kept_prompt timeout s es s' :
  (0 ≤ timeout)%Z → prompt_run s es = Some s' → kept timeout s → kept timeout s'.
Proof.
  intros Hpos. revert s. induction es as [|e es IH]; intros s Hr K; cbn in Hr; [by injection Hr as <-|].
  destruct (match e with ETick d => _ | _ => true end) eqn:E; [|done].
  destruct (sys_step s e) as [s1|] eqn:Es; [|done]. eapply IH; [exact Hr|].
  eapply kept_step; [done| |exact Es|done]. by intros d ->.
Qed.

(** With tasks that run when they can, no connection waits in the pool
    for longer than the timeout and one tick of the reaper; and when the
    reaper's time has come it runs, and not again before another tick. *)

Lemma idle_bounded (hook : bool) (timeout : Z) (es : list Event) (s : Sys) :
  (0 ≤ timeout)%Z → prompt_run (Sys_new hook (Some timeout)) es = Some s →
  (∀ k d e, idle (pool s) !! k = Some d → e ∈ d →
     (clock s ≤ parked_at e + timeout + MIN_REAP_TICK)%Z) ∧
  (∀ w, reaper s = Some w → (w ≤ clock s)%Z →
     ∃ s' w', sys_step s EReap = Some s' ∧ reaper s' = Some w' ∧ (clock s + MIN_REAP_TICK ≤ w')%Z).
Proof.
  intros Hpos Hr. assert (kept timeout s) as K.
  { eapply kept_prompt; [done|exact Hr|]. split; cbn; try done; intros *; by rewrite lookup_empty. }
  split.
  - intros k d e Hd He. destruct (kept_runs _ _ K _ _ Hd) as [w Hw].
    pose proof (kept_wake _ _ K _ Hw). pose proof (kept_bound _ _ K _ _ _ _ Hd He Hw). lia.
  - intros w Hw Hle. destruct (kept_reap timeout s _ eq_refl K ltac:(done)) as [_ (w' & Hw' & Hle')].
    exists (reap timeout s), w'. split; [|done]. unfold sys_step. rewrite Hw, (kept_timeout _ _ K).
    by rewrite decide_True.
Qed.

(** ** [has_idle] and the checkout it speaks of

    A checkout that nothing interleaves with, waiting out the gate where it
    has to; the answer says whether it found a connection or has to dial. *)

Definition alone_step (t : nat) (s : Sys) : option Sys :=
  q ← reqs s !! t;
  match pc q with
  | PcGate until _ _ _ => s' ← sys_step s (ETick (until - clock s)); sys_step s' (ERun t)
  | _ => sys_step s (ERun t)
  end.

Fixpoint checkout_alone (fuel : nat) (t : nat) (s : Sys) : option (Sys * bool) :=
  q ← reqs s !! t;
  match pc q with
  | PcHave _ => Some (s, true)
  | PcDial => Some (s, false)
  | _ =>
      match fuel with
      | 0 => None
      | S fuel => s' ← alone_step t s; checkout_alone fuel t s'
      end
  end.

Lemma would_reuse_ext n n' timeout now marked d :
  (∀ e, e ∈ d → is_dead n' e = is_dead n e ∧
     flag closed_here n' (stats_of (idle_stats e)) = flag closed_here n (stats_of (idle_stats e))) →
  would_reuse n' timeout now marked d = would_reuse n timeout now marked d.
Proof.
  revert marked. induction d as [|e d IH]; intros marked H; cbn; [done|].
  destruct (H e) as [H1 H2]; [by left|]. unfold settling. rewrite H1, H2, !IH; [done| |]; set_solver.
Qed.

Lemma flag_alter_ne f g n c c' : c ≠ c' → flag f (alter g c n) c' = flag f n c'.
Proof. intros Hne. unfold flag. by rewrite lookup_alter_ne. Qed.

Lemma flag_alter_same f g n c c' : (∀ st, f (g st) = f st) → flag f (alter g c n) c' = flag f n c'.
Proof.
  intros H. unfold flag. destruct (decide (c = c')) as [->|]; [|by rewrite lookup_alter_ne].
  rewrite lookup_alter_eq. destruct (n !! c'); [apply H|done].
Qed.

(** One entry further, its connection closed. *)

Lemma would_reuse_dropped n timeout now marked e rest :
  NoDup (sender <$> e :: rest) →
  would_reuse (alter set_closed (sender e) n) timeout now marked rest = would_reuse n timeout now marked rest.
Proof.
  intros [Hnin _]%NoDup_cons. apply would_reuse_ext. intros e' He'.
  assert (sender e ≠ sender e') by (intros E; apply Hnin; rewrite E; by apply list_elem_of_fmap_2).
  unfold is_dead. by rewrite flag_alter_ne, !flag_alter_same by done.
Qed.

Lemma closes_early_saw p k now : closes_early (saw_an_early_close now k p) k now = true.
Proof.
  unfold closes_early, saw_an_early_close. cbn. rewrite lookup_insert_eq. unfold DISTRUST, millis. lia.
Qed.

Lemma front_rest (k : PoolKey) (rest : list IdleH1) (m : gmap PoolKey (list IdleH1)) :
  default [] (without_front k rest m !! k) = rest.
Proof. unfold without_front. destruct rest; [by rewrite lookup_delete_eq|by rewrite lookup_insert_eq]. Qed.

(** What a round of the loop does with the front of the queue. *)

Lemma pop_front n marked now k p e rest :
  idle p !! k = Some (e :: rest) →
  pop_idle n marked now k p =
    if marked && settling n now e then (p, None)
    else (set_idle (without_front k rest (idle p)) p, Some e).
Proof.
  intros E. unfold pop_idle. rewrite E. cbn [head hd_error from_option]. destruct (_ && _); [done|].
  by destruct rest.
Qed.

Lemma pop_none n marked now k p : default [] (idle p !! k) = [] → (pop_idle n marked now k p).2 = None.
Proof.
  intros E. unfold pop_idle. destruct (idle p !! k) as [[]|]; [|done|done]. by destruct (_ && _).
Qed.

Lemma alone_run fuel t s q s' :
  reqs s !! t = Some q → match pc q with PcHave _ | PcDial | PcGate _ _ _ _ => False | _ => True end →
  run_req t q s = Some s' → checkout_alone (S fuel) t s = checkout_alone fuel t s'.
Proof.
  intros Hq Hpc Hr. cbn. unfold alone_step. cbn. rewrite Hq. cbn. rewrite Hr. by destruct (pc q).
Qed.

Lemma alone_gate fuel t s q until m p e :
  reqs s !! t = Some q → pc q = PcGate until m p e → (clock s ≤ until)%Z → is_dead (net s) e = false →
  ∃ s', checkout_alone (S fuel) t s = Some (s', true).
Proof.
  intros Hq Hpc Hle Hd. cbn. unfold alone_step. cbn. rewrite Hq. cbn. rewrite Hpc, decide_True by lia. cbn.
  rewrite Hq. cbn. unfold run_req. rewrite Hpc. cbn. rewrite decide_True by lia. unfold look_again. rewrite Hd. cbn.
  destruct fuel; cbn; rewrite lookup_insert_eq; cbn; by eexists.
Qed.

Lemma alone_ends fuel t s q b :
  reqs s !! t = Some q → match pc q with PcHave _ => b = true | PcDial => b = false | _ => False end →
  checkout_alone fuel t s = Some (s, b).
Proof. intros Hq Hpc. destruct fuel; cbn; rewrite Hq; cbn; destruct (pc q); try done; by subst. Qed.

Section Loop.
Context (t : nat) (timeout : Z) (settles : (SETTLE ≤ timeout)%Z).

(** The look at an entry that was taken: on to the next one, or this one. *)

Lemma look_alone fuel s q now marked e :
  reqs s !! t = Some q → pc q = PcLook (clock s) marked e → idle_timeout (pool s) = Some timeout → now = clock s →
  (negb (bool_decide (is_Some (idle_left timeout now (parked_at e)))) = false → is_dead (net s) e = false →
     ∃ s', checkout_alone (2 + fuel) t s = Some (s', true)) ∧
  (negb (bool_decide (is_Some (idle_left timeout now (parked_at e)))) = true →
     checkout_alone (2 + fuel) t s =
       checkout_alone (1 + fuel) t
         (put_req t (set_pc PcMark q) (drop_sender (sender e) (set_pool (pool s) s)))) ∧
  (negb (bool_decide (is_Some (idle_left timeout now (parked_at e)))) = false → is_dead (net s) e = true →
     checkout_alone (2 + fuel) t s =
       checkout_alone (1 + fuel) t
         (put_req t (set_pc PcMark q) (drop_sender (sender e)
            (set_pool (if (waited now e <? SETTLE)%Z && negb (flag closed_here (net s) (stats_of (idle_stats e)))
                       then saw_an_early_close now (key q) (pool s) else pool s) s)))).
Proof.
  intros Hq Hpc Ht ->. pose proof (alone_run (1 + fuel) t s q) as Hrun. rewrite Hpc in Hrun.
  unfold run_req in Hrun. rewrite Hpc in Hrun. unfold look_at in Hrun. rewrite Ht in Hrun.
  split_and!; intros Hx; [intros Hd| |intros Hd]; rewrite Hx in Hrun; rewrite ?Hd in Hrun.
  - destruct (fresh_delay _ _ _) as [delay|] eqn:Ef.
    + change (2 + fuel) with (S (1 + fuel)). rewrite (Hrun _ Hq I eq_refl).
      assert (0 ≤ delay)%Z. { unfold fresh_delay in Ef. destruct (_ <? _)%Z eqn:E; [|done]. injection Ef as <-. lia. }
      eapply alone_gate; [by apply lookup_insert_eq|done|cbn; lia|done].
    + change (2 + fuel) with (S (1 + fuel)). rewrite (Hrun _ Hq I eq_refl). eexists.
      by eapply alone_ends; [apply lookup_insert_eq|].
  - by apply Hrun.
  - apply Hrun; [done|done|]. unfold waited. by destruct (_ && _).
Qed.

Lemma take_alone fuel s q marked p found :
  reqs s !! t = Some q → pc q = PcMark → marked = closes_early (pool s) (key q) (clock s) →
  pop_idle (net s) marked (clock s) (key q) (pool s) = (p, found) →
  ∃ s' q', checkout_alone (2 + fuel) t s = checkout_alone fuel t s' ∧ reqs s' !! t = Some q' ∧
    pc q' = match found with Some e => PcLook (clock s) marked e | None => PcDial end ∧
    key q' = key q ∧ pool s' = p ∧ net s' = net s ∧ clock s' = clock s.
Proof.
  intros Hq Hpc -> Hp. set (q1 := set_pc (PcPop (clock s) (closes_early (pool s) (key q) (clock s))) q).
  exists (put_req t (set_pc match found with
                            | Some e => PcLook (clock s) (closes_early (pool s) (key q) (clock s)) e
                            | None => PcDial
                            end q1) (set_pool p (put_req t q1 s))).
  eexists. split; [|by split; [apply lookup_insert_eq|]].
  change (2 + fuel) with (S (S fuel)). rewrite (alone_run (S fuel) t s q (put_req t q1 s)); [|done|by rewrite Hpc|by unfold run_req; rewrite Hpc].
  apply (alone_run fuel t _ q1); [apply lookup_insert_eq|done|]. unfold run_req. cbn. by rewrite Hp.
Qed.

Lemma loop_alone d s q :
  reqs s !! t = Some q → pc q = PcMark → idle_timeout (pool s) = Some timeout →
  default [] (idle (pool s) !! key q) = d → NoDup (sender <$> d) →
  ∃ s', checkout_alone (3 + 3 * length d) t s =
    Some (s', would_reuse (net s) timeout (clock s) (closes_early (pool s) (key q) (clock s)) d).
Proof.
  revert s q. induction d as [|e rest IH]; intros s q Hq Hpc Ht Hd Hnd;
    set (marked := closes_early (pool s) (key q) (clock s));
    destruct (pop_idle (net s) marked (clock s) (key q) (pool s)) as [p found] eqn:Ep.
  - pose proof (pop_none (net s) marked (clock s) (key q) (pool s) Hd) as Hn. rewrite Ep in Hn. cbn in Hn. subst found.
    destruct (take_alone 1 s q marked p None) as (s' & q' & E & Hq' & Hpc' & _); [done..|].
    exists s'. replace (3 + 3 * length (@nil IdleH1)) with (2 + 1) by done. rewrite E. eapply alone_ends; [done|by rewrite Hpc'].
  - assert (idle (pool s) !! key q = Some (e :: rest)) as Hk by (destruct (idle (pool s) !! key q); cbn in Hd; congruence).
    destruct (take_alone (4 + 3 * length rest) s q marked p found) as (s' & q' & E & Hq' & Hpc' & Hk' & Hp' & Hn' & Hc');
      [done..|].
    replace (3 + 3 * length (e :: rest)) with (2 + (4 + 3 * length rest)) by (cbn; lia). rewrite E. clear E.
    rewrite (pop_front _ _ _ _ _ _ _ Hk) in Ep. cbn [would_reuse].
    destruct (marked && settling (net s) (clock s) e) eqn:Em; injection Ep as <- <-.
    + apply andb_true_iff in Em as [_ Hs]. unfold settling in Hs. apply andb_true_iff in Hs as [Hd' Hs].
      rewrite bool_decide_true, (proj1 (negb_true_iff _) Hd'); cbn [negb andb].
      * exists s'. eapply alone_ends; [done|by rewrite Hpc'].
      * unfold idle_left. destruct (0 <? _)%Z eqn:E; [done|lia].
    + assert (idle_timeout (pool s') = Some timeout) as Ht' by by rewrite Hp'.
      rewrite <-Hc' in Hpc'.
      destruct (look_alone (2 + 3 * length rest) s' q' (clock s') marked e Hq' Hpc' Ht' eq_refl) as (H1 & H2 & H3).
      rewrite Hn', Hc' in *. change (2 + (2 + 3 * length rest)) with (4 + 3 * length rest) in *.
      change (1 + (2 + 3 * length rest)) with (3 + 3 * length rest) in *.
      assert (∀ p', same_queues (pool s') p' → idle_timeout p' = Some timeout →
        ∃ s'', checkout_alone (3 + 3 * length rest) t
          (put_req t (set_pc PcMark q') (drop_sender (sender e) (set_pool p' s'))) =
          Some (s'', would_reuse (net s) timeout (clock s) (closes_early p' (key q) (clock s)) rest)) as Hnext.
      { intros p' [Ei _] Ht''. edestruct IH as (s'' & ->); [by apply lookup_insert_eq|done|done| |by apply NoDup_cons in Hnd as [_ ?]|].
        - cbn. rewrite Ei, Hp', Hk'. apply front_rest.
        - exists s''. cbn. rewrite Hn', Hc', Hk'. by rewrite would_reuse_dropped. }
      destruct (negb (bool_decide _)) eqn:Ex; [|destruct (is_dead (net s) e) eqn:Ed].
      * rewrite H2 by done. destruct (Hnext (pool s')) as (s'' & E); [done|done|]. exists s''. by rewrite E, Hp'.
      * rewrite H3 by done. unfold waited.
        match goal with |- context [if ?b then saw_an_early_close _ _ _ else _] => destruct b end;
          rewrite ?orb_true_r, ?orb_false_r.
        -- destruct (Hnext (saw_an_early_close (clock s) (key q') (pool s'))) as (s'' & E); [done|done|].
           exists s''. by rewrite E, Hk', closes_early_saw.
        -- destruct (Hnext (pool s')) as (s'' & E); [done|done|]. exists s''. by rewrite E, Hp'.
      * by apply H1.
Qed.
End Loop.

(** [has_idle] answers what a checkout made at once would find: when it
    says yes the checkout ends with a connection of the pool, and when it says
    no it ends with a dial, in at most four steps and three more for each
    entry of the queue. *)

Lemma has_idle_exact (hook : bool) (limit : option Z) (timeout : Z) (es : list Event) (s : Sys)
  (t : nat) (q : Req) :
  sys_run (Sys_new hook limit) es = Some s →
  reqs s !! t = Some q → pc q = PcCheckout → allow_reuse q = true →
  idle_timeout (pool s) = Some timeout → (SETTLE ≤ timeout)%Z →
  ∃ s', checkout_alone (4 + 3 * length (default [] (idle (pool s) !! key q))) t s =
    Some (s', has_idle (net s) (clock s) (pool s) (original_uri q) (dial_alpn (dial q))).
Proof.
  intros Hr Hq Hpc Ha Ht Hs. pose proof (inv_run _ _ _ _ Hr) as Hi.
  destruct (inv_reqs _ Hi _ _ Hq) as [Hk _]. unfold has_idle. rewrite Hk, Ht.
  set (d := default [] (idle (pool s) !! key q)).
  assert (NoDup (sender <$> d)) as Hnd.
  { subst d. destruct (idle (pool s) !! key q) as [d|] eqn:E; [by apply (inv_idle _ Hi _ _ E)|constructor]. }
  destruct (reuse_h2 (net s) (key q) (pool s)) as [p found] eqn:E.
  change (4 + 3 * length d) with (S (3 + 3 * length d)). erewrite (alone_run _ t s q); [|done|by rewrite Hpc|].
  2: { unfold run_req. rewrite Hpc, Ha, Ht, E. reflexivity. }
  assert (∀ p', idle p' = idle (pool s) → idle_timeout p' = Some timeout → early p' = early (pool s) →
    ∃ s', checkout_alone (3 + 3 * length d) t (put_req t (set_pc PcMark q) (set_pool p' s)) =
      Some (s', would_reuse (net s) timeout (clock s) (closes_early (pool s) (key q) (clock s)) d)) as Hl.
  { intros p' Ei Et Ee. edestruct (loop_alone t timeout Hs d) as (s' & ->);
      [by apply lookup_insert_eq|done|done|cbn; by rewrite Ei|done|].
    exists s'. cbn. unfold closes_early. by rewrite Ee. }
  unfold reuse_h2 in E. destruct (h2s (pool s) !! key q) as [entry|]; [|injection E as <- <-; by apply Hl].
  destruct (flag is_closed (net s) (h2_sender entry)); injection E as <- <-; [by apply Hl|].
  eexists. eapply alone_ends; [by apply lookup_insert_eq|done].
Qed.

(** C29. What waits in the pool is fresh, and known.  [has_idle] answers what a
    checkout made at once would find: when it says yes the checkout ends with
    a connection of the pool, and when it says no it ends with a dial, in at
    most four steps and three more for each entry of the queue.  And with
    tasks that run when they can, no connection waits in the pool for longer
    than the timeout and one tick of the reaper; when the reaper's time has
    come it runs, and not again before another tick. *)

Theorem idle_connections_exact (hook : bool) (timeout : Z) (es : list Event) (s : Sys) :
  (∀ limit t q,
     sys_run (Sys_new hook limit) es = Some s →
     reqs s !! t = Some q → pc q = PcCheckout → allow_reuse q = true →
     idle_timeout (pool s) = Some timeout → (SETTLE ≤ timeout)%Z →
     ∃ s', checkout_alone (4 + 3 * length (default [] (idle (pool s) !! key q))) t s =
       Some (s', has_idle (net s) (clock s) (pool s) (original_uri q) (dial_alpn (dial q)))) ∧
  ((0 ≤ timeout)%Z → prompt_run (Sys_new hook (Some timeout)) es = Some s →
   (∀ k d e, idle (pool s) !! k = Some d → e ∈ d →
      (clock s ≤ parked_at e + timeout + MIN_REAP_TICK)%Z) ∧
   (∀ w, reaper s = Some w → (w ≤ clock s)%Z →
      ∃ s' w', sys_step s EReap = Some s' ∧ reaper s' = Some w' ∧ (clock s + MIN_REAP_TICK ≤ w')%Z)).
Proof.
  split; [|apply idle_bounded]. intros limit t q Hr. by apply (has_idle_exact hook limit timeout es).
Qed.
End Time.
