(* ===== verification/PoolRun.v ===== *)
(** * PoolRun: runs of the pool

    A small transport on which the pool's properties are seen at work, and
    what a request that is under way when [destroy] is called does. *)

From S2P Require Import Prelude RustStd StdPath HttpHead Permissions Redirect Fetch FetchSpec Pool PoolSys PoolInv PoolSpec PoolTime.

#[local] Existing Instances Toy.ToyUrlOps Toy.ToyHeaderOps.

(** Every URI is its authority, under the one scheme [http]. *)

#[local] Instance ToyPoolOps : PoolOps := {|
  Scheme := bool; HTTPS := true; scheme_str := λ b, if b then bs "https" else bs "http";
  Authority := list byte; uri_scheme := λ _, Some false; uri_authority := λ u, Some (u : list byte);
  uri_port_u16 := λ _, None; uri_path_and_query := λ _, None; uri_origin := λ _ a, a;
  uri_of_path := id; uri_of_authority := id; uri_default := bs "/";
  header_value_from_str := Some; header_to_str := Some;
  BoxError := list byte; box_text := id; HyperError := bool; is_user := id
|}.

Definition get (host : list byte) : PoolRequest :=
  {| pr_method := bs "GET"; pr_uri := host; pr_headers := []; pr_dispatched := None;
     pr_awaits_body := None |}.

Definition dial_plain : Dial := {| dial_alpn := ANone; dial_pin := None |}.

Definition ok_200 : Response := {| status := 200; headers := []; is_http2 := false; reason := None |}.

Definition request (t : nat) : Event := ERequest t (get (bs "a")) false dial_plain None.

(** A request that dials, is answered, and whose connection is parked. *)

Definition first_trip : list Event :=
  [request 0] ++ replicate 4 (ERun 0) ++ [EDialled 0 (Ok (false, false, true)); ERun 0; ESent 0 (SOk ok_200)].

Definition parked : list Event := first_trip ++ [EReady 0 true; EPush 0].

(** A second request looks at it two milliseconds later and takes it; one that
    finds it gone when it sends goes out again on a connection of its own. *)

Definition look : list Event := ETick (millis 2) :: request 1 :: replicate 3 (ERun 1).

Definition retried : list Event :=
  parked ++ look ++
  [ERun 1; ERun 1; ESent 1 (SUnsent false); ERun 1; ERun 1; EDialled 1 (Ok (false, false, true)); ERun 1;
   ESent 1 (SSent false)].

Definition start : Sys := Sys_new false (Some DEFAULT_IDLE_TIMEOUT).

Definition key_a : PoolKey := (false, bs "a", ANone).

(** What a run shows, as a boolean of its last state. *)

Definition shows (es : list Event) (f : Sys → bool) : bool :=
  match sys_run start es with
  | Some s => f s
  | None => false
  end.

Lemma shows_run es f : shows es f = true → ∃ s, sys_run start es = Some s ∧ f s = true.
Proof. unfold shows. intros H. destruct (sys_run start es) as [s|]; [by exists s|done]. Defined.

Lemma pool_keeps_apart_witness :
  ∃ s, sys_run start parked = Some s ∧ holds s (AtIdle key_a) 0 ∧ ¬ holds s (AtPark 0) 0.
Proof.
  destruct (shows_run parked (λ s, bool_decide ((λ d, sender <$> d) <$> idle (pool s) !! key_a = Some [0])))
    as (s & Hr & Hs%bool_decide_eq_true); [vm_compute; reflexivity|].
  assert (holds s (AtIdle key_a) 0) as H0.
  { destruct (idle (pool s) !! key_a) as [d|] eqn:E; [|done]. exists d. split; [done|].
    injection Hs as ->. by left. }
  exists s. split_and!; [done|done|]. intros Hp.
  pose proof (proj1 (pool_keeps_apart false (Some DEFAULT_IDLE_TIMEOUT) parked s Hr) _ _ _ Hp H0) as H. by inversion H.
Defined.

Lemma pool_request_budget_witness :
  ∃ s q, sys_run start retried = Some s ∧ reqs s !! 1 = Some q ∧ count_if (is_send 1) retried = 2 ∧
    count_if (is_wire 1) retried = 1 ∧ attempts q ≠ 0.
Proof.
  destruct (shows_run retried (λ s, bool_decide (is_Some (reqs s !! 1))))
    as (s & Hr & [q Hq]%bool_decide_eq_true); [vm_compute; reflexivity|].
  exists s, q. split_and!; [done|done|vm_compute; reflexivity|vm_compute; reflexivity|].
  apply (pool_request_budget false (Some DEFAULT_IDLE_TIMEOUT) retried s 1 q Hr Hq).
Defined.

Definition taken (s : Sys) : option (Req * bool * IdleH1 * Sys * Req * Conn) :=
  q ← reqs s !! 1; '(m, e) ← looking (pc q); s' ← sys_step s (ERun 1); q' ← reqs s' !! 1;
  match pc q' with
  | PcHave c => Some (q, m, e, s', q', c)
  | _ => None
  end.

Lemma taken_spec s q m e s' q' c :
  taken s = Some (q, m, e, s', q', c) →
  reqs s !! 1 = Some q ∧ looking (pc q) = Some (m, e) ∧ sys_step s (ERun 1) = Some s' ∧
  reqs s' !! 1 = Some q' ∧ pc q' = PcHave c.
Proof.
  unfold taken. intros Ht.
  apply bind_Some in Ht as (q1 & Hq & Ht). apply bind_Some in Ht as ([m1 e1] & Hl & Ht).
  apply bind_Some in Ht as (s1 & Hs & Ht). apply bind_Some in Ht as (q2 & Hq2 & Ht).
  destruct (pc q2) as [| | | | | | |c1| | |] eqn:Hc; try discriminate Ht. by injection Ht as <- <- <- <- <- <-.
Qed.

Lemma pooled_connection_fresh_witness :
  ∃ s q m e s' q' c, sys_run start (parked ++ look) = Some s ∧ taken s = Some (q, m, e, s', q', c) ∧
    is_dead (net s) e = false ∧ (parked_at e + FRESH_GATE ≤ clock s)%Z.
Proof.
  destruct (shows_run (parked ++ look) (λ s, bool_decide (is_Some (taken s))))
    as (s & Hr & [[[[[[q m] e] s'] q'] c] Ht]%bool_decide_eq_true); [vm_compute; reflexivity|].
  exists s, q, m, e, s', q', c. split; [exact Hr|]. split; [exact Ht|].
  apply taken_spec in Ht as (Hq & Hl & Hs & Hq2 & Hc).
  destruct (pooled_connection_fresh false (Some DEFAULT_IDLE_TIMEOUT) (parked ++ look) s s' 1 q q' m e c
              Hr Hs Hq Hl Hq2 Hc) as (H1 & H2 & _). exact (conj H1 H2).
Defined.

(** Time passes; the reaper's turn comes. *)

Definition long_wait : list Event := parked ++ [ETick (millis 90000)].

(** A pool with an idle connection, and a request at its start. *)

Definition asked : list Event := parked ++ [ETick (millis 2); request 1].

Lemma idle_connections_exact_witness :
  (∃ s q s', sys_run start asked = Some s ∧ reqs s !! 1 = Some q ∧
     has_idle (net s) (clock s) (pool s) (original_uri q) (dial_alpn (dial q)) = true ∧
     checkout_alone (4 + 3 * length (default [] (idle (pool s) !! key q))) 1 s = Some (s', true)) ∧
  ∃ s w, prompt_run start long_wait = Some s ∧ reaper s = Some w ∧ (w ≤ clock s)%Z ∧
    is_Some (sys_step s EReap) ∧
    ∀ k d e, idle (pool s) !! k = Some d → e ∈ d → (clock s ≤ parked_at e + DEFAULT_IDLE_TIMEOUT + MIN_REAP_TICK)%Z.
Proof.
  split.
  - destruct (shows_run asked (λ s,
        match reqs s !! 1 with
        | Some q => match pc q with PcCheckout => true | _ => false end && allow_reuse q &&
                    bool_decide (idle_timeout (pool s) = Some DEFAULT_IDLE_TIMEOUT) &&
                    has_idle (net s) (clock s) (pool s) (original_uri q) (dial_alpn (dial q))
        | None => false
        end)) as (s & Hr & Hs); [vm_compute; reflexivity|].
    destruct (reqs s !! 1) as [q|] eqn:Hq; [|done].
    apply andb_true_iff in Hs as [[[Hp Ha]%andb_true_iff Ht%bool_decide_eq_true]%andb_true_iff Hh].
    destruct (pc q) eqn:Hpc; try discriminate Hp.
    destruct (proj1 (idle_connections_exact false DEFAULT_IDLE_TIMEOUT asked s) (Some DEFAULT_IDLE_TIMEOUT)
                1 q Hr Hq Hpc Ha Ht ltac:(done)) as [s' H].
    rewrite Hh in H. exists s, q, s'. exact (conj Hr (conj Hq (conj Hh H))).
  - destruct (match prompt_run start long_wait with
              | Some s => match reaper s with Some w => (w <=? clock s)%Z | None => false end
              | None => false
              end) eqn:E; [|vm_compute in E; done].
    destruct (prompt_run start long_wait) as [s|] eqn:Hr; [|done]. destruct (reaper s) as [w|] eqn:Hw; [|done].
    destruct (proj2 (idle_connections_exact false DEFAULT_IDLE_TIMEOUT long_wait s) ltac:(done) Hr) as [Hb Hn].
    destruct (Hn w Hw ltac:(lia)) as (s' & w' & Hs & _).
    exists s, w. split_and!; [done|done|lia|by exists s'|exact Hb].
Defined.

(** ** A request under way when the pool is destroyed

    The generation a connection belongs to is read when the head of its
    response arrives.  So a request that was on a connection when [destroy]
    ran, and is answered after, parks that connection in the pool. *)

Definition destroyed_then_parked : list Event :=
  [request 0] ++ replicate 4 (ERun 0) ++ [EDialled 0 (Ok (false, false, true)); ERun 0] ++
  [EDestroy 0; EDestroyRun 0; EDestroyRun 0] ++ [ESent 0 (SOk ok_200); EReady 0 true; EPush 0].

Lemma in_flight_parks_after_destroy :
  ∃ s, sys_run start destroyed_then_parked = Some s ∧ generation (pool s) = 1%Z ∧ holds s (AtIdle key_a) 0.
Proof.
  destruct (shows_run destroyed_then_parked (λ s, bool_decide (generation (pool s) = 1%Z) &&
    bool_decide ((λ d, sender <$> d) <$> idle (pool s) !! key_a = Some [0])))
    as (s & Hr & [Hg%bool_decide_eq_true Hs%bool_decide_eq_true]%andb_true_iff); [vm_compute; reflexivity|].
  exists s. split_and!; [done|done|]. destruct (idle (pool s) !! key_a) as [d|] eqn:E; [|done].
  exists d. split; [done|]. injection Hs as ->. by left.
Qed.

(** ** A pool without a timeout parks

    The pool of a supplied route, which is never to park, does; no checkout
    looks there and no reaper runs. *)

Lemma supplied_route_parks :
  ∃ s, sys_run (Sys_new false None) ([request 0] ++ replicate 2 (ERun 0) ++
         [EDialled 0 (Ok (false, false, true)); ERun 0; ESent 0 (SOk ok_200); EReady 0 true; EPush 0]) = Some s ∧
    holds s (AtIdle key_a) 0 ∧ reaper s = None.
Proof.
  match goal with |- context [sys_run ?s0 ?es] =>
    destruct (match sys_run s0 es with
              | Some s => bool_decide ((λ d, sender <$> d) <$> idle (pool s) !! key_a = Some [0]) &&
                          bool_decide (reaper s = None)
              | None => false
              end) eqn:E; [|vm_compute in E; done];
    destruct (sys_run s0 es) as [s|]; [|done]
  end.
  apply andb_true_iff in E as [Hs%bool_decide_eq_true Hw%bool_decide_eq_true].
  exists s. split_and!; [done| |done]. destruct (idle (pool s) !! key_a) as [d|] eqn:E; [|done].
  exists d. split; [done|]. injection Hs as ->. by left.
Qed.
