(* ===== verification/HttpConn.v ===== *)
(** * HttpConn: [oam_core/src/http_conn.rs]

    The watch a server keeps over one HTTP/1 connection: which request is
    being received and since when, what its response is doing, the socket's
    inactivity timeout, and why it is being closed.

    An [Instant] is its nanoseconds, a millisecond setting a [u64].  A method
    that takes the time is given it.  The settings all connections of a server
    share are an argument of the methods that read them.  The [Notify]s, which
    only wake a task that then looks at the state again, are not part of it. *)

From Stdlib Require Import QArith.
From S2P Require Import Prelude RustStd.

Open Scope Z_scope.

(** ** Time and numbers *)

Definition NANOS_PER_MILLI : Z := 1000000.

Definition as_millis (d : Z) : Z := d / NANOS_PER_MILLI.

Definition duration_since (now earlier : Z) : Z := Z.max 0 (now - earlier).

Definition millis_u64 (d : Z) : Z := Z.min u64_max (as_millis d).

(** [Number(value)] of JS, and its comparison with a count. *)

Inductive F64 : Type :=
| FNaN
| FInfinity
| FNegInfinity
| FNumber (q : Q).

Definition count_ge (live : Z) (limit : F64) : bool :=
  match limit with
  | FNaN | FInfinity => false
  | FNegInfinity => true
  | FNumber q => Qle_bool q (inject_Z live)
  end.

(** ** The server's settings *)

Record TimeoutSettings : Type := {
  headers_ms : Z;
  request_ms : Z;
  keep_alive_ms : Z;
  socket_ms : Z;
  check_interval_ms : Z;
  js_driven : bool
}.

Definition TimeoutSettings_default : TimeoutSettings :=
  {| headers_ms := 60000; request_ms := 300000; keep_alive_ms := 5000 + 1000; socket_ms := 0;
     check_interval_ms := 30000; js_driven := false |}.

Record ServerTimeouts : Type := {
  headers_timeout : Z;
  request_timeout : Z;
  keep_alive_timeout : Z;
  server_timeout : Z;
  max_connections : F64;
  connections : Z;
  upgrade_listener : bool;
  fixed : TimeoutSettings
}.

Definition ServerTimeouts_new (settings : TimeoutSettings) : ServerTimeouts :=
  {| headers_timeout := headers_ms settings; request_timeout := request_ms settings;
     keep_alive_timeout := keep_alive_ms settings; server_timeout := socket_ms settings;
     max_connections := FInfinity; connections := 0; upgrade_listener := false; fixed := settings |}.

Definition set_upgrade_listener (listening : bool) (t : ServerTimeouts) : ServerTimeouts :=
  {| headers_timeout := headers_timeout t; request_timeout := request_timeout t;
     keep_alive_timeout := keep_alive_timeout t; server_timeout := server_timeout t;
     max_connections := max_connections t; connections := connections t;
     upgrade_listener := listening; fixed := fixed t |}.

Definition set_max_connections (limit : F64) (t : ServerTimeouts) : ServerTimeouts :=
  {| headers_timeout := headers_timeout t; request_timeout := request_timeout t;
     keep_alive_timeout := keep_alive_timeout t; server_timeout := server_timeout t;
     max_connections := limit; connections := connections t;
     upgrade_listener := upgrade_listener t; fixed := fixed t |}.

Definition set_connections (n : Z) (t : ServerTimeouts) : ServerTimeouts :=
  {| headers_timeout := headers_timeout t; request_timeout := request_timeout t;
     keep_alive_timeout := keep_alive_timeout t; server_timeout := server_timeout t;
     max_connections := max_connections t; connections := n;
     upgrade_listener := upgrade_listener t; fixed := fixed t |}.

Definition update (headers request keep_alive socket : Z) (t : ServerTimeouts) : ServerTimeouts :=
  {| headers_timeout := headers; request_timeout := request; keep_alive_timeout := keep_alive;
     server_timeout := socket; max_connections := max_connections t; connections := connections t;
     upgrade_listener := upgrade_listener t; fixed := fixed t |}.

(** Whether a new connection is taken, and the count with it; a slot that goes
    is uncounted. *)

Definition admit_conn (t : ServerTimeouts) : ServerTimeouts * bool :=
  let live := connections t in
  let t := set_connections (live + 1) t in
  if count_ge live (max_connections t) then (set_connections (connections t - 1) t, false) else (t, true).

Definition release_slot (t : ServerTimeouts) : ServerTimeouts := set_connections (connections t - 1) t.

Definition check_interval (t : ServerTimeouts) : Z :=
  Z.max (check_interval_ms (fixed t)) 1 * NANOS_PER_MILLI.

(** ** Why a connection closes *)

Inductive CloseReason : Type := REnd | RDestroy | RRequestTimeout | RReset.

#[global] Instance CloseReason_eq_dec : EqDecision CloseReason.
Proof. solve_decision. Defined.

(** The derived order. *)

Definition reason_rank (r : CloseReason) : nat :=
  match r with
  | REnd => 0
  | RDestroy => 1
  | RRequestTimeout => 2
  | RReset => 3
  end.

Definition reason_ge (r at_least : CloseReason) : bool := (reason_rank at_least <=? reason_rank r)%nat.

(** What the connection failed with. *)

Inductive ConnFailure : Type :=
| FailReset (code : string) (errno : option Z)
| FailParse (code message : string).

(** ** A connection *)

Record Phase : Type := {
  active : bool;
  begun : bool;
  message_start : Z;
  headers_in : bool;
  generation : Z;
  in_flight : Z;
  request_now : option Z;
  current_generation : Z;
  current_complete : bool;
  response_begun : bool;
  keep_alive_set : bool
}.

Record ConnWatch : Type := {
  watch_id : Z;
  server_id : Z;
  epoch : Z;
  phase : Phase;
  last_activity_ms : Z;
  socket_timeout_ms : Z;
  fired : bool;
  close_reason : option CloseReason;
  resumed : bool;
  unflushed : bool;
  failure : option ConnFailure;
  pumps : Z
}.

Definition ConnWatch_new (id server : Z) (t : ServerTimeouts) (now : Z) : ConnWatch :=
  {| watch_id := id; server_id := server; epoch := now;
     phase := {| active := true; begun := false; message_start := now; headers_in := false;
                 generation := 0; in_flight := 0; request_now := None; current_generation := 0;
                 current_complete := false; response_begun := false; keep_alive_set := false |};
     last_activity_ms := 0; socket_timeout_ms := server_timeout t; fired := false;
     close_reason := None; resumed := false; unflushed := false; failure := None; pumps := 0 |}.

Definition set_phase (p : Phase) (w : ConnWatch) : ConnWatch :=
  {| watch_id := watch_id w; server_id := server_id w; epoch := epoch w; phase := p;
     last_activity_ms := last_activity_ms w; socket_timeout_ms := socket_timeout_ms w;
     fired := fired w; close_reason := close_reason w; resumed := resumed w;
     unflushed := unflushed w; failure := failure w; pumps := pumps w |}.

(** The inactivity timer: since when, how long, and whether it has fired. *)

Definition set_timer (last timeout : Z) (f : bool) (w : ConnWatch) : ConnWatch :=
  {| watch_id := watch_id w; server_id := server_id w; epoch := epoch w; phase := phase w;
     last_activity_ms := last; socket_timeout_ms := timeout; fired := f;
     close_reason := close_reason w; resumed := resumed w; unflushed := unflushed w;
     failure := failure w; pumps := pumps w |}.

Definition set_close (r : option CloseReason) (w : ConnWatch) : ConnWatch :=
  {| watch_id := watch_id w; server_id := server_id w; epoch := epoch w; phase := phase w;
     last_activity_ms := last_activity_ms w; socket_timeout_ms := socket_timeout_ms w;
     fired := fired w; close_reason := r; resumed := resumed w; unflushed := unflushed w;
     failure := failure w; pumps := pumps w |}.

Definition set_resumed (b : bool) (w : ConnWatch) : ConnWatch :=
  {| watch_id := watch_id w; server_id := server_id w; epoch := epoch w; phase := phase w;
     last_activity_ms := last_activity_ms w; socket_timeout_ms := socket_timeout_ms w;
     fired := fired w; close_reason := close_reason w; resumed := b; unflushed := unflushed w;
     failure := failure w; pumps := pumps w |}.

Definition set_unflushed (b : bool) (w : ConnWatch) : ConnWatch :=
  {| watch_id := watch_id w; server_id := server_id w; epoch := epoch w; phase := phase w;
     last_activity_ms := last_activity_ms w; socket_timeout_ms := socket_timeout_ms w;
     fired := fired w; close_reason := close_reason w; resumed := resumed w; unflushed := b;
     failure := failure w; pumps := pumps w |}.

Definition set_failure (f : option ConnFailure) (w : ConnWatch) : ConnWatch :=
  {| watch_id := watch_id w; server_id := server_id w; epoch := epoch w; phase := phase w;
     last_activity_ms := last_activity_ms w; socket_timeout_ms := socket_timeout_ms w;
     fired := fired w; close_reason := close_reason w; resumed := resumed w;
     unflushed := unflushed w; failure := f; pumps := pumps w |}.

Definition set_pumps (n : Z) (w : ConnWatch) : ConnWatch :=
  {| watch_id := watch_id w; server_id := server_id w; epoch := epoch w; phase := phase w;
     last_activity_ms := last_activity_ms w; socket_timeout_ms := socket_timeout_ms w;
     fired := fired w; close_reason := close_reason w; resumed := resumed w;
     unflushed := unflushed w; failure := failure w; pumps := n |}.

Definition now_ms (now : Z) (w : ConnWatch) : Z := millis_u64 (duration_since now (epoch w)).

Definition touch (now : Z) (w : ConnWatch) : ConnWatch :=
  set_timer (now_ms now w) (socket_timeout_ms w) false w.

Definition set_socket_timeout (ms now : Z) (w : ConnWatch) : ConnWatch :=
  set_timer (now_ms now w) ms false w.

Definition served_from_now (now : Z) (w : ConnWatch) : ConnWatch :=
  let w := touch now w in
  let p := phase w in
  set_phase
    {| active := active p; begun := false; message_start := now; headers_in := false;
       generation := generation p; in_flight := in_flight p; request_now := request_now p;
       current_generation := current_generation p; current_complete := current_complete p;
       response_begun := response_begun p; keep_alive_set := keep_alive_set p |} w.

(** ** What the connection's task reports *)

Definition note_failure (f : ConnFailure) (w : ConnWatch) : ConnWatch :=
  match failure w with
  | None => set_failure (Some f) w
  | Some _ => w
  end.

Definition note_read_error (reset : bool) (code : string) (errno : option Z) (w : ConnWatch) : ConnWatch :=
  if reset then note_failure (FailReset code errno) w else w.

Definition pump_started (w : ConnWatch) : ConnWatch := set_pumps (pumps w + 1) w.
Definition pump_done (w : ConnWatch) : ConnWatch := set_pumps (pumps w - 1) w.

(** A request begins: its clock, and its number. *)

Definition begin_message (now : Z) (headers_in : bool) (p : Phase) : Phase :=
  {| active := true; begun := true; message_start := now; headers_in := headers_in;
     generation := wrap_u 64 (generation p + 1); in_flight := in_flight p;
     request_now := request_now p; current_generation := current_generation p;
     current_complete := current_complete p; response_begun := response_begun p;
     keep_alive_set := keep_alive_set p |}.

Definition note_read (n now : Z) (w : ConnWatch) : ConnWatch :=
  if n =? 0 then w
  else
    let w := touch now w in
    if begun (phase w) then w else set_phase (begin_message now false (phase w)) w.

Definition note_write (n now : Z) (w : ConnWatch) : ConnWatch := if 0 <? n then touch now w else w.

Definition note_unflushed (w : ConnWatch) : ConnWatch := set_unflushed true w.
Definition note_flushed (w : ConnWatch) : ConnWatch := set_unflushed false w.

(** A request's headers are in: it is request [id], and its number is
    returned. *)

Definition headers_complete (t : ServerTimeouts) (id now : Z) (w : ConnWatch) : ConnWatch * Z :=
  let p := phase w in
  let p := if negb (begun p) || headers_in p then begin_message now (headers_in p) p else p in
  let w' :=
    set_phase
      {| active := active p; begun := begun p; message_start := message_start p; headers_in := true;
         generation := generation p; in_flight := wrap_u 32 (in_flight p + 1);
         request_now := Some id; current_generation := generation p; current_complete := false;
         response_begun := false; keep_alive_set := false |} w in
  (if keep_alive_set p then set_socket_timeout (server_timeout t) now w' else w', generation p).

Definition message_complete (g : Z) (w : ConnWatch) : ConnWatch :=
  let p := phase w in
  let over := generation p =? g in
  set_phase
    {| active := active p && negb over; begun := begun p && negb over;
       message_start := message_start p; headers_in := headers_in p; generation := generation p;
       in_flight := in_flight p; request_now := request_now p;
       current_generation := current_generation p;
       current_complete := current_complete p || (current_generation p =? g);
       response_begun := response_begun p; keep_alive_set := keep_alive_set p |} w.

Definition awaiting_dispatch (w : ConnWatch) : bool := active (phase w) && (in_flight (phase w) =? 0).

Definition response_started (w : ConnWatch) : ConnWatch :=
  let p := phase w in
  set_phase
    {| active := active p; begun := begun p; message_start := message_start p;
       headers_in := headers_in p; generation := generation p; in_flight := in_flight p;
       request_now := request_now p; current_generation := current_generation p;
       current_complete := current_complete p; response_begun := true;
       keep_alive_set := keep_alive_set p |} w.

Definition response_finished (t : ServerTimeouts) (now : Z) (w : ConnWatch) : ConnWatch :=
  let p := phase w in
  let left := Z.max 0 (in_flight p - 1) in
  let keep_alive := keep_alive_timeout t in
  let idle := left =? 0 in
  let w :=
    set_phase
      {| active := active p; begun := begun p; message_start := message_start p;
         headers_in := headers_in p; generation := generation p; in_flight := left;
         request_now := if idle then None else request_now p;
         current_generation := current_generation p; current_complete := current_complete p;
         response_begun := response_begun p && negb idle;
         keep_alive_set := keep_alive_set p || (idle && (0 <? keep_alive)) |} w in
  if idle && (0 <? keep_alive) then set_socket_timeout keep_alive now w else w.

Definition may_answer (w : ConnWatch) : bool := negb (response_begun (phase w)).

(** ** Closing *)

Definition close (r : CloseReason) (w : ConnWatch) : ConnWatch :=
  match close_reason w with
  | Some current => if reason_ge current r then w else set_close (Some r) w
  | None => set_close (Some r) w
  end.

(** Whether [closed(at_least)] resolves. *)

Definition closed (at_least : CloseReason) (w : ConnWatch) : option CloseReason :=
  match close_reason w with
  | Some r => if reason_ge r at_least then Some r else None
  | None => None
  end.

Definition resume (w : ConnWatch) : ConnWatch := set_resumed true w.

(** [resume_wait], once it resolves: the answer is taken. *)

Definition resume_wait (w : ConnWatch) : option ConnWatch :=
  if resumed w then Some (set_resumed false w) else None.

Definition expire (headers request now : Z) (w : ConnWatch) : ConnWatch * bool :=
  let '(headers, request) :=
    if (0 <? request) && (request <? headers) then (request, headers) else (headers, request) in
  let p := phase w in
  if negb (active p) then (w, false)
  else
    let elapsed := millis_u64 (duration_since now (message_start p)) in
    let due := (negb (headers_in p) && (0 <? headers) && (headers <=? elapsed))
               || ((0 <? request) && (request <=? elapsed)) in
    if due then
      (set_phase
         {| active := false; begun := begun p; message_start := message_start p;
            headers_in := headers_in p; generation := generation p; in_flight := in_flight p;
            request_now := request_now p; current_generation := current_generation p;
            current_complete := current_complete p; response_begun := response_begun p;
            keep_alive_set := keep_alive_set p |} w, true)
    else (w, false).

(** ** The socket timeout *)

Record Fired : Type := { fired_request : option Z; fired_complete : bool }.

(** One turn of [next_timeout]: the milliseconds of its deadline, if the timer
    runs, and whether it is past. *)

Definition deadline_ms (w : ConnWatch) : option Z :=
  if (socket_timeout_ms w =? 0) || fired w then None
  else Some (Z.min u64_max (last_activity_ms w + socket_timeout_ms w)).

Definition next_timeout (now : Z) (w : ConnWatch) : option (ConnWatch * Fired) :=
  match deadline_ms w with
  | Some deadline =>
      if deadline <=? now_ms now w then
        Some (set_timer (last_activity_ms w) (socket_timeout_ms w) true w,
              {| fired_request := request_now (phase w); fired_complete := current_complete (phase w) |})
      else None
  | None => None
  end.

(** ** The end of a connection *)

(** How the stream is left: reset, answered with a 408 first, or dropped. *)

Definition FAREWELL_BUDGET : Z := 2 * 1000 * NANOS_PER_MILLI.

Inductive Farewell : Type := FReset | FAnswer408 | FDrop.

Definition finish_close (reason : CloseReason) (may_answer : bool) : Farewell :=
  if decide (reason = RReset) then FReset
  else if bool_decide (reason = RRequestTimeout) && may_answer then FAnswer408
  else FDrop.

Definition close_unserved (w : ConnWatch) : Farewell :=
  if decide (close_reason w = Some RReset) then FReset else FDrop.

(** ** The stream [WatchedIo] wraps *)

Inductive Polled (A : Type) : Type :=
| PPending
| PReady (a : A)
| PError (reset : bool) (code : string) (errno : option Z).
Arguments PPending {A}.
Arguments PReady {A} a.
Arguments PError {A} reset code errno.

(** What was read, [n] bytes of it. *)

Definition poll_read (r : Polled Z) (now : Z) (w : ConnWatch) : ConnWatch :=
  match r with
  | PReady n => note_read n now w
  | PError reset code errno => note_read_error reset code errno w
  | PPending => w
  end.

Definition note_write_poll (r : Polled Z) (now : Z) (w : ConnWatch) : ConnWatch :=
  match r with
  | PReady n =>
      let w := note_write n now w in
      if 0 <? n then note_unflushed w else w
  | PPending => note_unflushed w
  | PError _ _ _ => w
  end.

Definition poll_flush (r : Polled unit) (w : ConnWatch) : ConnWatch :=
  match r with
  | PReady _ => note_flushed w
  | _ => w
  end.
