(* ===== verification/HttpServe.v ===== *)
(** * HttpServe: the connections of an HTTP/1 server

    Of [oam_core/src/http_server.rs]: the accept loop's admission, the task
    that serves one connection ([serve_conn] and [serve_http1]), the registry
    JS reaches a connection through, and the check that times requests out.

    A server is one state; [serve_step] is what one event does to it.  hyper,
    which reads requests off a connection and writes responses, is in the
    events, as are JS, the peer and the clock. *)

From S2P Require Import Prelude RustStd HttpConn.

Open Scope Z_scope.

(** ** [serve_http1] *)

Record Serve : Type := {
  shutting_down : bool;
  shutdown_waiting : bool;
  takeable : bool
}.

Definition set_shutting_down (s : Serve) : Serve :=
  {| shutting_down := true; shutdown_waiting := shutdown_waiting s; takeable := takeable s |}.

Definition set_shutdown_waiting (s : Serve) : Serve :=
  {| shutting_down := shutting_down s; shutdown_waiting := true; takeable := takeable s |}.

Definition set_not_takeable (s : Serve) : Serve :=
  {| shutting_down := shutting_down s; shutdown_waiting := shutdown_waiting s; takeable := false |}.

Inductive Ended : Type :=
| EDone
| EClosed (r : CloseReason)
| ETaken (takeover : Z).

(** What reaches JS through the server's queue. *)

Inductive ServerEvent : Type :=
| SEConnection (conn : Z)
| SEConnectionClosed (conn : Z) (failed : option ConnFailure)
| SETimeout (conn : Z) (f : Fired)
| SEDrop
| SEUpgrade (request : Z) (replaces_conn : option Z).

(** What the futures outside the watch have to say at one turn of the loop:
    hyper, or the last write, is done; a request took the connection, or none
    can any more; a flush was notified; the queue had room for an event. *)

Record Ready : Type := {
  conn_done : bool;
  taken : option (option Z);
  flush_notified : bool;
  queue_has_room : bool
}.

Inductive Turn : Type :=
| TurnPending
| TurnAgain (w : ConnWatch) (s : Serve) (to_js : list ServerEvent)
| TurnEnd (e : Ended).

Definition socket_timed_out (js_driven has_room : bool) (f : Fired) (w : ConnWatch)
  : ConnWatch * list ServerEvent :=
  if js_driven && has_room then (w, [SETimeout (watch_id w) f]) else (close RDestroy w, []).

(** One turn of the biased [select!]: the first branch that is ready. *)

Definition serve_turn (js_driven shutdown : bool) (now : Z) (r : Ready) (w : ConnWatch) (s : Serve) : Turn :=
  if conn_done r then TurnEnd EDone
  else
    match (if takeable s then taken r else None) with
    | Some (Some takeover) => TurnEnd (ETaken takeover)
    | Some None => TurnAgain w (set_not_takeable s) []
    | None =>
        if shutdown && negb (shutting_down s) && negb (shutdown_waiting s) then
          TurnAgain w (if js_driven && awaiting_dispatch w then set_shutdown_waiting s
                       else set_shutting_down s) []
        else if shutdown_waiting s && negb (shutting_down s) && negb (awaiting_dispatch w) then
          TurnAgain w (set_shutting_down s) []
        else
          match closed (if shutting_down s then RDestroy else REnd) w with
          | Some REnd => TurnAgain w (set_shutting_down s) []
          | Some reason => TurnEnd (EClosed reason)
          | None =>
              match next_timeout now w with
              | Some (w', f) =>
                  let '(w', to_js) := socket_timed_out js_driven (queue_has_room r) f w' in
                  TurnAgain w' s to_js
              | None => if flush_notified r then TurnAgain w s [] else TurnPending
              end
          end
    end.

(** ** The task of one connection *)

Definition PUMPS_SETTLE_BUDGET : Z := 50 * NANOS_PER_MILLI.
Definition TAKEOVER_FLUSH_BUDGET : Z := 10 * 1000 * NANOS_PER_MILLI.

(** How the stream was left. *)

Inductive Left : Type :=
| LUnserved (how : Farewell)
| LDone
| LClosed (r : CloseReason) (how : Farewell)
| LTaken (takeover : Z)
| LTakenLost.

(** [TQueueing] waits for room to announce the connection to JS,
    [TAnnouncing] for JS's answer, [TFarewell] for the 408 to be written. *)

Inductive TaskPc : Type :=
| TQueueing
| TAnnouncing
| TServing (s : Serve)
| TSettling (until : Z)
| TFlushing (until takeover : Z)
| TFarewell (until : Z)
| TOver (how : Left).

(** [messages] are the numbers of the requests whose [MessageDone] is still
    held: their bodies are not all in. *)

Record Task : Type := { task_watch : ConnWatch; announced : bool; messages : list Z; task_pc : TaskPc }.

Definition set_watch (w : ConnWatch) (t : Task) : Task :=
  {| task_watch := w; announced := announced t; messages := messages t; task_pc := task_pc t |}.

Definition set_messages (l : list Z) (t : Task) : Task :=
  {| task_watch := task_watch t; announced := announced t; messages := l; task_pc := task_pc t |}.

Definition set_task_pc (p : TaskPc) (t : Task) : Task :=
  {| task_watch := task_watch t; announced := announced t; messages := messages t; task_pc := p |}.

Definition over (t : Task) : bool :=
  match task_pc t with
  | TOver _ => true
  | _ => false
  end.

Record Server : Type := {
  now : Z;
  sid : Z;
  timeouts : ServerTimeouts;
  tasks : gmap Z Task;
  queue : list ServerEvent;
  shutdown : bool;
  next_check : option Z;
  next_id : Z
}.

Definition Server_new (settings : TimeoutSettings) : Server :=
  {| now := 0; sid := 1; timeouts := ServerTimeouts_new settings; tasks := ∅; queue := [];
     shutdown := false;
     next_check := if js_driven settings then None
                   else Some (check_interval (ServerTimeouts_new settings));
     next_id := 1 |}.

Definition set_now (t : Z) (s : Server) : Server :=
  {| now := t; sid := sid s; timeouts := timeouts s; tasks := tasks s; queue := queue s;
     shutdown := shutdown s; next_check := next_check s; next_id := next_id s |}.

Definition set_timeouts (t : ServerTimeouts) (s : Server) : Server :=
  {| now := now s; sid := sid s; timeouts := t; tasks := tasks s; queue := queue s;
     shutdown := shutdown s; next_check := next_check s; next_id := next_id s |}.

Definition set_tasks (m : gmap Z Task) (s : Server) : Server :=
  {| now := now s; sid := sid s; timeouts := timeouts s; tasks := m; queue := queue s;
     shutdown := shutdown s; next_check := next_check s; next_id := next_id s |}.

Definition set_next_check (c : option Z) (s : Server) : Server :=
  {| now := now s; sid := sid s; timeouts := timeouts s; tasks := tasks s; queue := queue s;
     shutdown := shutdown s; next_check := c; next_id := next_id s |}.

Definition set_shutdown (s : Server) : Server :=
  {| now := now s; sid := sid s; timeouts := timeouts s; tasks := tasks s; queue := queue s;
     shutdown := true; next_check := None; next_id := next_id s |}.

Definition tell (l : list ServerEvent) (s : Server) : Server :=
  {| now := now s; sid := sid s; timeouts := timeouts s; tasks := tasks s; queue := queue s ++ l;
     shutdown := shutdown s; next_check := next_check s; next_id := next_id s |}.

Definition take_id (s : Server) : Server * Z :=
  ({| now := now s; sid := sid s; timeouts := timeouts s; tasks := tasks s; queue := queue s;
      shutdown := shutdown s; next_check := next_check s; next_id := next_id s + 1 |}, next_id s + 1).

Definition put_task (id : Z) (t : Task) (s : Server) : Server := set_tasks (<[id := t]> (tasks s)) s.

(** [admit] and the start of [serve_conn]. *)

Definition accept (s : Server) : Server :=
  let js := js_driven (fixed (timeouts s)) in
  let '(t, admitted) := admit_conn (timeouts s) in
  let s := set_timeouts t s in
  if (admitted : bool) then
    let '(s, id) := take_id s in
    let w := ConnWatch_new id (sid s) (timeouts s) (now s) in
    let serving := TServing {| shutting_down := false; shutdown_waiting := false; takeable := false |} in
    put_task id {| task_watch := w; announced := false; messages := [];
                   task_pc := if js then TQueueing else serving |} s
  else tell (if js then [SEDrop] else []) s.

(** The task ends: the connection leaves the registry and the count, and JS is
    told if it holds a socket for it. *)

Definition finish (id : Z) (t : Task) (how : Left) (s : Server) : Server :=
  tell (match how with
        | LTaken takeover => [SEUpgrade takeover (if announced t then Some id else None)]
        | _ => if announced t then [SEConnectionClosed id (failure (task_watch t))] else []
        end)
    (set_timeouts (release_slot (timeouts s)) (put_task id (set_task_pc (TOver how) t) s)).

(** [announce_connection] is over: the connection is served, unless a listener
    closed it. *)

Definition after_announcement (id : Z) (t : Task) (s : Server) : Server :=
  match close_reason (task_watch t) with
  | None =>
      put_task id (set_task_pc (TServing {| shutting_down := false; shutdown_waiting := false;
                                            takeable := true |}) t) s
  | Some _ => finish id t (LUnserved (close_unserved (task_watch t))) s
  end.

(** The queue took the announcement, or is gone. *)

Definition queued (id : Z) (ok : bool) (t : Task) (s : Server) : Server :=
  if ok then
    tell [SEConnection id]
      (put_task id {| task_watch := task_watch t; announced := true; messages := messages t;
                      task_pc := TAnnouncing |} s)
  else after_announcement id t s.

(** A turn of the task, wherever it waits. *)

Definition task_turn (id : Z) (r : Ready) (t : Task) (s : Server) : option Server :=
  match task_pc t with
  | TQueueing => None
  | TAnnouncing => w ← resume_wait (task_watch t); Some (after_announcement id (set_watch w t) s)
  | TServing sv =>
      match serve_turn (js_driven (fixed (timeouts s))) (shutdown s) (now s) r (task_watch t) sv with
      | TurnPending => None
      | TurnAgain w sv to_js => Some (tell to_js (put_task id (set_task_pc (TServing sv) (set_watch w t)) s))
      | TurnEnd EDone => Some (put_task id (set_task_pc (TSettling (now s + PUMPS_SETTLE_BUDGET)) t) s)
      | TurnEnd (EClosed reason) =>
          Some (match finish_close reason (may_answer (task_watch t)) with
                | FAnswer408 => put_task id (set_task_pc (TFarewell (now s + FAREWELL_BUDGET)) t) s
                | how => finish id t (LClosed reason how) s
                end)
      | TurnEnd (ETaken takeover) =>
          Some (put_task id (set_task_pc (TFlushing (now s + TAKEOVER_FLUSH_BUDGET) takeover) t) s)
      end
  | TSettling until =>
      if (pumps (task_watch t) =? 0) || (until <=? now s) then Some (finish id t LDone s) else None
  | TFlushing until takeover =>
      if negb (unflushed (task_watch t)) then Some (finish id t (LTaken takeover) s)
      else if conn_done r || (until <=? now s) then Some (finish id t LTakenLost s)
      else None
  | TFarewell until =>
      if conn_done r || (until <=? now s) then Some (finish id t (LClosed RRequestTimeout FAnswer408) s) else None
  | TOver _ => None
  end.

(** ** The check *)

Definition expire_watch (headers request : Z) (s : Server) (t : Task) : Task :=
  if over t || negb (server_id (task_watch t) =? sid s) then t
  else
    let '(w, due) := expire headers request (now s) (task_watch t) in
    set_watch (if (due : bool) then close RRequestTimeout w else w) t.

Definition expire_connections (headers request : Z) (s : Server) : Server :=
  if (headers =? 0) && (request =? 0) then s
  else set_tasks (expire_watch headers request s <$> tasks s) s.

(** A tick of [check_connections]; the next is an interval away. *)

Definition check_tick (s : Server) : Server :=
  let t := timeouts s in
  set_next_check (Some (now s + check_interval t))
    (expire_connections (headers_timeout t) (request_timeout t) s).

(** ** Events *)

Inductive Reported : Type :=
| RRead (r : Polled Z)
| RWrite (r : Polled Z)
| RFlush (r : Polled unit)
| RResponse
| RResponseDone
| RFailure (f : ConnFailure)
| RPump
| RPumpDone.

Inductive Asked : Type :=
| AClose (r : CloseReason)
| ASetTimeout (ms : Z)
| AResume.

(** [VExpire] is JS's own check. *)

Inductive ServeEvent : Type :=
| VTick (d : Z)
| VAccept
| VQueued (id : Z) (ok : bool)
| VTurn (id : Z) (r : Ready)
| VReport (id : Z) (e : Reported)
| VHead (id : Z)
| VBodyDone (id g : Z)
| VAsk (id : Z) (a : Asked)
| VUpdate (headers request keep_alive socket : Z)
| VMaxConnections (limit : F64)
| VUpgradeListener (b : bool)
| VExpire (headers request : Z)
| VCheck
| VShutdown.

(** What the connection's task and the handlers on it report. *)

Definition report (t : ServerTimeouts) (now : Z) (e : Reported) (w : ConnWatch) : ConnWatch :=
  match e with
  | RRead r => poll_read r now w
  | RWrite r => note_write_poll r now w
  | RFlush r => poll_flush r w
  | RResponse => response_started w
  | RResponseDone => response_finished t now w
  | RFailure f => note_failure f w
  | RPump => pump_started w
  | RPumpDone => pump_done w
  end.

(** What JS asks of a connection: [destroy_conn], [reset_conn],
    [set_conn_timeout], [resume_conn]. *)

Definition ask (now : Z) (a : Asked) (w : ConnWatch) : ConnWatch :=
  match a with
  | AClose r => close r w
  | ASetTimeout ms => set_socket_timeout ms now w
  | AResume => resume w
  end.

(** hyper runs on the connection. *)

Definition served (t : Task) : bool :=
  match task_pc t with
  | TServing _ | TFlushing _ _ => true
  | _ => false
  end.

Definition from_hyper (e : Reported) : bool :=
  match e with
  | RRead _ | RWrite _ | RFlush _ | RResponse => true
  | RResponseDone | RFailure _ | RPump | RPumpDone => false
  end.

Definition serve_step (s : Server) (e : ServeEvent) : option Server :=
  match e with
  | VTick d => if decide (0 ≤ d) then Some (set_now (now s + d) s) else None
  | VAccept => if shutdown s then None else Some (accept s)
  | VQueued id ok =>
      t ← tasks s !! id;
      match task_pc t with
      | TQueueing => Some (queued id ok t s)
      | _ => None
      end
  | VTurn id r => t ← tasks s !! id; task_turn id r t s
  | VReport id e =>
      t ← tasks s !! id;
      if over t then Some s
      else if from_hyper e && negb (served t) then None
      else Some (put_task id (set_watch (report (timeouts s) (now s) e (task_watch t)) t) s)
  | VHead id =>
      t ← tasks s !! id;
      if served t then
        let '(s, request) := take_id s in
        let '(w, g) := headers_complete (timeouts s) request (now s) (task_watch t) in
        Some (put_task id (set_messages (g :: messages t) (set_watch w t)) s)
      else None
  | VBodyDone id g =>
      t ← tasks s !! id;
      if decide (g ∈ messages t) then
        Some (put_task id (set_messages (filter (λ x, x ≠ g) (messages t))
                             (set_watch (message_complete g (task_watch t)) t)) s)
      else None
  | VAsk id a =>
      t ← tasks s !! id;
      if over t then Some s else Some (put_task id (set_watch (ask (now s) a (task_watch t)) t) s)
  | VUpdate h r k sk => Some (set_timeouts (update h r k sk (timeouts s)) s)
  | VMaxConnections limit => Some (set_timeouts (set_max_connections limit (timeouts s)) s)
  | VUpgradeListener b => Some (set_timeouts (set_upgrade_listener b (timeouts s)) s)
  | VExpire h r => Some (expire_connections h r s)
  | VCheck =>
      match next_check s with
      | Some at_ => if decide (at_ ≤ now s) then Some (check_tick s) else None
      | None => None
      end
  | VShutdown => Some (set_shutdown s)
  end.

Fixpoint serve_run (s : Server) (es : list ServeEvent) : option Server :=
  match es with
  | [] => Some s
  | e :: es => s ← serve_step s e; serve_run s es
  end.
