(* ===== verification/HttpServeSpec.v ===== *)
(** * HttpServeSpec: what a server's connections are held to *)

From S2P Require Import Prelude RustStd HttpConn HttpServe.

Open Scope Z_scope.

(** ** Runs *)

Lemma serve_run_app s es es' : serve_run s (es ++ es') = (s ← serve_run s es; serve_run s es').
Proof.
  revert s. induction es as [|e es IH]; intros s; cbn; [done|]. destruct (serve_step s e); cbn; [apply IH|done].
Qed.

Lemma serve_run_ind (P : list ServeEvent → Server → Prop) s0 :
  P [] s0 →
  (∀ es s e s', serve_run s0 es = Some s → serve_step s e = Some s' → P es s → P (es ++ [e]) s') →
  ∀ es s, serve_run s0 es = Some s → P es s.
Proof.
  intros H0 Hs es. induction es as [|e es IH] using rev_ind; intros s Hr; [by injection Hr as <-|].
  rewrite serve_run_app in Hr. destruct (serve_run s0 es) as [s1|] eqn:E; [|done]. cbn in Hr.
  destruct (serve_step s1 e) as [s2|] eqn:E2; [|done]. injection Hr as <-. eauto.
Qed.

(** ** What a step does to one connection *)

Definition fresh_task (s : Server) (id : Z) (t : Task) : Prop :=
  id = next_id s + 1 ∧ messages t = [] ∧ announced t = false ∧ (∃ t0, task_watch t = ConnWatch_new id (sid s) t0 (now s) ∧
    server_timeout t0 = server_timeout (timeouts s)) ∧
  (if js_driven (fixed (timeouts s)) then task_pc t = TQueueing
   else task_pc t = TServing {| shutting_down := false; shutdown_waiting := false; takeable := false |}).

Inductive moved (s : Server) (event : ServeEvent) (t : Task) : Task → Prop :=
| mv_report e : over t = false → (from_hyper e = true → served t = true) →
    moved s event t (set_watch (report (timeouts s) (now s) e (task_watch t)) t)
| mv_ask id a : event = VAsk id a → over t = false → moved s event t (set_watch (ask (now s) a (task_watch t)) t)
| mv_head request w g : served t = true →
    headers_complete (timeouts s) request (now s) (task_watch t) = (w, g) →
    moved s event t (set_messages (g :: messages t) (set_watch w t))
| mv_body g : g ∈ messages t →
    moved s event t (set_messages (filter (λ x, x ≠ g) (messages t)) (set_watch (message_complete g (task_watch t)) t))
| mv_queued : task_pc t = TQueueing →
    moved s event t {| task_watch := task_watch t; announced := true; messages := messages t; task_pc := TAnnouncing |}
| mv_expire h r : over t = false → moved s event t (expire_watch h r s t)
| mv_resumed p w : task_pc t = TAnnouncing → resume_wait (task_watch t) = Some w →
    match p with
    | TServing _ => close_reason w = None
    | TOver how => is_Some (close_reason w) ∧ how = LUnserved (close_unserved w)
    | _ => False
    end →
    moved s event t (set_task_pc p (set_watch w t))
| mv_unqueued p : task_pc t = TQueueing →
    match p with
    | TServing _ => close_reason (task_watch t) = None
    | TOver how => is_Some (close_reason (task_watch t)) ∧ how = LUnserved (close_unserved (task_watch t))
    | _ => False
    end →
    moved s event t (set_task_pc p t)
| mv_again r sv w sv' to_js : task_pc t = TServing sv →
    serve_turn (js_driven (fixed (timeouts s))) (shutdown s) (now s) r (task_watch t) sv = TurnAgain w sv' to_js →
    moved s event t (set_task_pc (TServing sv') (set_watch w t))
| mv_closed r sv reason p : task_pc t = TServing sv →
    serve_turn (js_driven (fixed (timeouts s))) (shutdown s) (now s) r (task_watch t) sv = TurnEnd (EClosed reason) →
    p = match finish_close reason (may_answer (task_watch t)) with
        | FAnswer408 => TFarewell (now s + FAREWELL_BUDGET)
        | how => TOver (LClosed reason how)
        end →
    moved s event t (set_task_pc p t)
| mv_hyper p : match p, task_pc t with
               | TSettling until, TServing _ => until = now s + PUMPS_SETTLE_BUDGET
               | TFlushing until _, TServing _ => until = now s + TAKEOVER_FLUSH_BUDGET
               | TOver LDone, TSettling _ => True
               | TOver (LClosed r how), TFarewell _ => r = RRequestTimeout ∧ how = FAnswer408
               | TOver (LTaken _), TFlushing _ _ | TOver LTakenLost, TFlushing _ _ => True
               | _, _ => False
               end → moved s event t (set_task_pc p t).

Lemma tasks_finish id t how s : tasks (finish id t how s) = <[id := set_task_pc (TOver how) t]> (tasks s).
Proof. done. Qed.

Lemma task_turn_moves e id r t s s' :
  task_turn id r t s = Some s' → ∃ t', moved s e t t' ∧ tasks s' = <[id := t']> (tasks s).
Proof.
  unfold task_turn. destruct (task_pc t) as [| |sv|until|until takeover|until|how] eqn:Ep; try done.
  - destruct (resume_wait _) as [w|] eqn:Er; [|done]. cbn. intros [= <-]. unfold after_announcement.
    destruct (close_reason (task_watch (set_watch w t))) as [rs|] eqn:Ec; eexists;
      (split; [apply mv_resumed; [done|exact Er|]|reflexivity]); [by split|done].
  - destruct (serve_turn _ _ _ _ _ _) as [|w sv' to_js|[|reason|takeover]] eqn:Et; try done; intros [= <-].
    + eexists; split; [|reflexivity]. by eapply mv_again.
    + eexists; split; [|reflexivity]. apply mv_hyper. by rewrite Ep.
    + eexists; split; [by eapply mv_closed|]. by destruct (finish_close _ _).
    + eexists; split; [|reflexivity]. apply mv_hyper. by rewrite Ep.
  - destruct (_ || _); [|done]. intros [= <-]. eexists. split; [|reflexivity]. apply mv_hyper. by rewrite Ep.
  - destruct (negb _); [|destruct (_ || _); [|done]]; intros [= <-]; eexists; (split; [|reflexivity]);
      apply mv_hyper; by rewrite Ep.
  - destruct (_ || _); [|done]. intros [= <-]. eexists. split; [|reflexivity]. apply mv_hyper. by rewrite Ep.
Qed.

Definition step_tasks (s : Server) (e : ServeEvent) (s' : Server) : Prop :=
  ∀ id t', tasks s' !! id = Some t' →
    tasks s !! id = Some t' ∨ (∃ t, tasks s !! id = Some t ∧ moved s e t t') ∨ fresh_task s id t' ∧ id ≤ next_id s'.

Lemma step_tasks_same s e s' : tasks s' = tasks s → step_tasks s e s'.
Proof. intros E id t. rewrite E. by left. Qed.

Lemma step_tasks_put id t t' s e s' :
  tasks s !! id = Some t → moved s e t t' → tasks s' = <[id := t']> (tasks s) → step_tasks s e s'.
Proof.
  intros Ht Hm E id' u. rewrite E, lookup_insert_Some. intros [[<- <-]|[_ ?]]; [|by left].
  right; left. by exists t.
Qed.

Lemma step_tasks_expire s e s' :
  (∃ h r, tasks s' = tasks (expire_connections h r s)) → step_tasks s e s'.
Proof.
  intros (h & r & E) id t'. rewrite E. unfold expire_connections. destruct (_ && _); [by left|].
  cbn. rewrite lookup_fmap_Some. intros (t & <- & Ht). destruct (over t) eqn:Eo.
  - left. unfold expire_watch. by rewrite Eo.
  - right; left. exists t. split; [done|by apply mv_expire].
Qed.

Lemma step_moves s e s' : serve_step s e = Some s' → step_tasks s e s'.
Proof.
  intros Hs. destruct e as [d| |id ok|id r|id e|id|id g|id a|h r k sk|limit|b|h r| |]; unfold serve_step in Hs.
  - case_decide; [|done]. injection Hs as <-. by apply step_tasks_same.
  - destruct (shutdown s); [done|]. injection Hs as <-. unfold accept, admit_conn.
    destruct (count_ge _ _); [by apply step_tasks_same|]. intros id t'. cbn.
    rewrite lookup_insert_Some. intros [[<- <-]|[_ ?]]; [|by left]. right; right. split; [|lia]. unfold fresh_task. cbn.
    split_and!; [done|done|done| |by destruct (js_driven _)]. eexists. split; [done|done].
  - destruct (tasks s !! id) as [t|] eqn:Ht; [|done]. cbn [mbind option_bind] in Hs. destruct (task_pc t) eqn:Ep; try done.
    injection Hs as <-. unfold queued. destruct ok; [eapply step_tasks_put; [exact Ht|by apply mv_queued|done]|].
    unfold after_announcement. destruct (close_reason (task_watch t)) eqn:Ec; (eapply step_tasks_put; [exact Ht| |reflexivity]);
      (apply mv_unqueued; [done|]); [by split|done].
  - destruct (tasks s !! id) as [t|] eqn:Ht; [|done]. cbn [mbind option_bind] in Hs.
    apply (task_turn_moves (VTurn id r)) in Hs as (t' & Hm & E). by eapply step_tasks_put.
  - destruct (tasks s !! id) as [t|] eqn:Ht; [|done]. cbn [mbind option_bind] in Hs.
    destruct (over t) eqn:Eo; [injection Hs as <-; by apply step_tasks_same|].
    destruct (from_hyper e && negb (served t)) eqn:Eh; [done|]. injection Hs as <-.
    eapply step_tasks_put; [exact Ht|apply mv_report; [done|]|done].
    intros Hf. rewrite Hf in Eh. cbn in Eh. by destruct (served t).
  - destruct (tasks s !! id) as [t|] eqn:Ht; [|done]. cbn [mbind option_bind] in Hs. destruct (served t) eqn:Eo; [|done]. unfold take_id in Hs.
    destruct (headers_complete _ _ _ _) as [w g] eqn:Eh. injection Hs as <-.
    eapply step_tasks_put; [exact Ht|by eapply mv_head|done].
  - destruct (tasks s !! id) as [t|] eqn:Ht; [|done]. cbn [mbind option_bind] in Hs. case_decide; [|done]. injection Hs as <-.
    eapply step_tasks_put; [exact Ht|by apply mv_body|done].
  - destruct (tasks s !! id) as [t|] eqn:Ht; [|done]. cbn [mbind option_bind] in Hs.
    destruct (over t) eqn:Eo; injection Hs as <-; [by apply step_tasks_same|].
    eapply step_tasks_put; [exact Ht|by eapply mv_ask|done].
  - injection Hs as <-. by apply step_tasks_same.
  - injection Hs as <-. by apply step_tasks_same.
  - injection Hs as <-. by apply step_tasks_same.
  - injection Hs as <-. apply step_tasks_expire. by do 2 eexists.
  - destruct (next_check s); [|done]. case_decide; [|done]. injection Hs as <-. apply step_tasks_expire. by do 2 eexists.
  - injection Hs as <-. by apply step_tasks_same.
Qed.

(** ** Which request is being received *)

Definition closes_with (least : CloseReason) (w : ConnWatch) : Prop :=
  ∃ r, close_reason w = Some r ∧ reason_ge r least = true.

Definition timed_out : ConnWatch → Prop := closes_with RRequestTimeout.

Lemma closes_with_close least r w : closes_with least w → closes_with least (close r w).
Proof.
  intros (r' & E & Hr). unfold close. rewrite E. destruct (reason_ge r' r) eqn:Ec; [by exists r'|].
  exists r. split; [done|]. unfold reason_ge in *. apply Nat.leb_le in Hr. apply Nat.leb_gt in Ec.
  apply Nat.leb_le. lia.
Qed.

Lemma close_closes r w : closes_with r (close r w).
Proof.
  unfold close, closes_with. destruct (close_reason w) as [c|] eqn:E.
  - destruct (reason_ge c r) eqn:Ec; [by exists c|]. exists r. split; [done|]. apply Nat.leb_le. lia.
  - exists r. split; [done|]. apply Nat.leb_le. lia.
Qed.

Lemma close_phase r w : phase (close r w) = phase w.
Proof. unfold close. destruct (close_reason w); [case_match|]; done. Qed.

Definition early_pc (p : TaskPc) : bool :=
  match p with
  | TQueueing | TAnnouncing => true
  | _ => false
  end.

Record task_ok (n : Z) (t : Task) : Prop := {
  ok_gen : 0 ≤ current_generation (phase (task_watch t)) ≤ generation (phase (task_watch t)) ∧
           generation (phase (task_watch t)) ≤ n;
  ok_msgs : Forall (λ g, 1 ≤ g ≤ current_generation (phase (task_watch t))) (messages t);
  ok_newer : current_generation (phase (task_watch t)) ≠ generation (phase (task_watch t)) →
    begun (phase (task_watch t)) = true ∧ headers_in (phase (task_watch t)) = false;
  ok_same : current_generation (phase (task_watch t)) = generation (phase (task_watch t)) →
    begun (phase (task_watch t)) = true → headers_in (phase (task_watch t)) = true;
  ok_begun : begun (phase (task_watch t)) = true →
    active (phase (task_watch t)) = true ∨ timed_out (task_watch t);
  ok_idle : begun (phase (task_watch t)) = false →
    current_complete (phase (task_watch t)) = true ∨ generation (phase (task_watch t)) = 0;
  ok_complete : current_complete (phase (task_watch t)) = true →
    current_generation (phase (task_watch t)) ∉ messages t;
  ok_early : early_pc (task_pc t) = true → generation (phase (task_watch t)) = 0
}.

(** A connection whose phase stays as it is. *)

Lemma task_ok_same n t t' :
  phase (task_watch t') = phase (task_watch t) → messages t' = messages t →
  (timed_out (task_watch t) → timed_out (task_watch t')) →
  (early_pc (task_pc t') = true → early_pc (task_pc t) = true) →
  task_ok n t → task_ok (n + 1) t'.
Proof.
  intros Ep Em Ht He [H1 H2 H3 H4 H5 H6 H7 H8]. split; rewrite ?Ep, ?Em; try done; try tauto; try lia.
Qed.

Lemma task_ok_phase n t p w ms :
  phase w = p → close_reason w = close_reason (task_watch t) →
  (0 ≤ current_generation p ≤ generation p ∧ generation p ≤ n + 1) →
  Forall (λ g, 1 ≤ g ≤ current_generation p) ms →
  (current_generation p ≠ generation p → begun p = true ∧ headers_in p = false) →
  (current_generation p = generation p → begun p = true → headers_in p = true) →
  (begun p = true → active p = true ∨ timed_out (task_watch t)) →
  (begun p = false → current_complete p = true ∨ generation p = 0) →
  (current_complete p = true → current_generation p ∉ ms) →
  (early_pc (task_pc t) = true → generation p = 0) →
  task_ok (n + 1) (set_messages ms (set_watch w t)).
Proof.
  intros <- Ec H1 H2 H3 H4 H5 H6 H7 H8. split; cbn; try done.
  intros Hb. destruct (H5 Hb); [by left|right]. unfold timed_out, closes_with in *. cbn. by rewrite Ec.
Qed.

Lemma set_messages_same t w : set_watch w t = set_messages (messages t) (set_watch w t).
Proof. done. Qed.

Lemma wrap_u64_small z : 0 ≤ z < 2 ^ 64 → wrap_u 64 z = z.
Proof. intros H. unfold wrap_u. by rewrite Z.mod_small. Qed.

Lemma task_ok_begin n t w now :
  n + 1 < 2 ^ 64 → begun (phase (task_watch t)) = false → served t = true →
  phase w = begin_message now false (phase (task_watch t)) →
  close_reason w = close_reason (task_watch t) → task_ok n t → task_ok (n + 1) (set_watch w t).
Proof.
  intros Hn Hb Hsv Ep Ec [H1 H2 H3 H4 H5 H6 H7 H8]. rewrite set_messages_same.
  eapply task_ok_phase; [exact Ep|exact Ec|..]; cbn; rewrite ?wrap_u64_small by lia; try done; try lia; try (by left).
  all: intros He; unfold served in Hsv; by destruct (task_pc t).
Qed.

Lemma headers_complete_spec t id now w w' g :
  headers_complete t id now w = (w', g) →
  let p := phase w in
  let bumps := negb (begun p) || headers_in p in
  g = (if bumps then wrap_u 64 (generation p + 1) else generation p) ∧
  close_reason w' = close_reason w ∧ generation (phase w') = g ∧ current_generation (phase w') = g ∧
  begun (phase w') = true ∧ headers_in (phase w') = true ∧ current_complete (phase w') = false ∧
  active (phase w') = (if bumps then true else active p) ∧
  message_start (phase w') = (if bumps then now else message_start p).
Proof.
  unfold headers_complete. intros [= <- <-]. destruct (begun (phase w)) eqn:Eb, (headers_in (phase w)) eqn:Eh; cbn;
    destruct (keep_alive_set (phase w)); cbn; rewrite ?Eb; by split_and!.
Qed.

Lemma task_ok_head n s t request w g :
  n + 1 < 2 ^ 64 → served t = true → headers_complete (timeouts s) request (now s) (task_watch t) = (w, g) →
  task_ok n t → task_ok (n + 1) (set_messages (g :: messages t) (set_watch w t)).
Proof.
  intros Hn Hsv Hh [H1 H2 H3 H4 H5 H6 H7 H8].
  destruct (headers_complete_spec _ _ _ _ _ _ Hh) as (Eg & Ec & Egen & Ecur & Eb & Ehd & Ecp & Ea & _).
  assert (current_generation (phase (task_watch t)) < g ∧ g ≤ n + 1) as [Hlt Hle].
  { subst g. destruct (begun _) eqn:Eb', (headers_in _) eqn:Eh'; cbn; rewrite ?wrap_u64_small by lia; lia. }
  eapply task_ok_phase; [reflexivity|exact Ec|..]; rewrite ?Egen, ?Ecur, ?Eb, ?Ehd, ?Ecp; try done; try lia.
  - constructor; [lia|]. eapply Forall_impl; [exact H2|]. cbn. lia.
  - intros _. rewrite Ea. destruct (begun (phase (task_watch t))) eqn:Eb'; [|by left].
    destruct (headers_in _); [by left|by apply H5].
  - intros He. unfold served in Hsv. by destruct (task_pc t).
Qed.

Lemma task_ok_body n t g :
  g ∈ messages t → task_ok n t →
  task_ok (n + 1) (set_messages (filter (λ x, x ≠ g) (messages t)) (set_watch (message_complete g (task_watch t)) t)).
Proof.
  intros Hg [H1 H2 H3 H4 H5 H6 H7 H8].
  assert (1 ≤ g ≤ current_generation (phase (task_watch t))) as Hb by (by apply (proj1 (Forall_forall _ _) H2)).
  assert (∀ x, x ∈ filter (λ x, x ≠ g) (messages t) → x ≠ g ∧ x ∈ messages t) as Hf by (intros x; by rewrite list_elem_of_filter).
  eapply task_ok_phase; [reflexivity|done|..]; cbn; try done.
  - lia.
  - apply Forall_forall. intros x [_ Hx]%Hf. by apply (proj1 (Forall_forall _ _) H2).
  - intros Hne. destruct (H3 Hne) as [-> ->]. destruct (generation _ =? g) eqn:E; [|done]. lia.
  - intros E. rewrite andb_true_iff. intros [Hbg _]. auto.
  - rewrite andb_true_iff. intros [Hbg Hn]. destruct (H5 Hbg) as [->|]; [left|by right]. by rewrite Hn.
  - intros E. destruct (begun _) eqn:Eb; [|destruct (H6 eq_refl) as [->|]; [by left|by right]].
    cbn in E. apply negb_false_iff in E. left. rewrite orb_true_iff. right. lia.
  - rewrite orb_true_iff. intros Hc [Hne Hin]%Hf. destruct Hc as [Hc|Hc]; [by apply (H7 Hc)|lia].
Qed.

(** What leaves the phase, or the reason to close, alone. *)

Lemma report_phase t now e w :
  match e with RRead _ | RResponse | RResponseDone => False | _ => True end →
  phase (report t now e w) = phase w.
Proof.
  destruct e; cbn; try done; intros _.
  - destruct r as [|n|]; cbn; try done. unfold note_write. destruct (0 <? n); done.
  - by destruct r.
  - unfold note_failure. by destruct (failure w).
Qed.

Lemma report_close t now e w : close_reason (report t now e w) = close_reason w.
Proof.
  destruct e as [r|r|r| | |f| |]; cbn; try done.
  - destruct r as [|n|reset code errno]; cbn; [done| |].
    + unfold note_read. destruct (n =? 0); [done|]. cbn. by destruct (begun _).
    + unfold note_read_error. destruct reset; [|done]. unfold note_failure. by destruct (failure w).
  - destruct r as [|n|]; cbn; try done. unfold note_write. destruct (0 <? n); done.
  - by destruct r.
  - unfold response_finished. by destruct (_ && _).
  - unfold note_failure. by destruct (failure w).
Qed.

Lemma serve_turn_again js sd now r w sv w' sv' to_js :
  serve_turn js sd now r w sv = TurnAgain w' sv' to_js →
  w' = w ∧ to_js = [] ∨
  ∃ f w1, next_timeout now w = Some (w1, f) ∧ (w', to_js) = socket_timed_out js (queue_has_room r) f w1.
Proof.
  unfold serve_turn. destruct (conn_done r); [done|].
  destruct (if takeable sv then taken r else None) as [[|]|]; [done|intros [= <- <- <-]; by left|].
  destruct (sd && _ && _); [intros [= <- _ <-]; by left|].
  destruct (shutdown_waiting sv && _ && _); [intros [= <- _ <-]; by left|].
  destruct (closed _ w) as [[]|]; try done; [intros [= <- _ <-]; by left|].
  destruct (next_timeout now w) as [[w1 f]|]; [|destruct (flush_notified r); [intros [= <- _ <-]; by left|done]].
  destruct (socket_timed_out _ _ _ _) as [w2 l] eqn:Es. intros [= <- _ <-]. right. by exists f, w1.
Qed.

Lemma next_timeout_keeps now w w' f :
  next_timeout now w = Some (w', f) → phase w' = phase w ∧ close_reason w' = close_reason w.
Proof. unfold next_timeout. destruct (deadline_ms w); [|done]. destruct (_ <=? _); [|done]. by intros [= <- _]. Qed.

Lemma socket_timed_out_keeps js room f w least :
  let w' := (socket_timed_out js room f w).1 in
  phase w' = phase w ∧ (closes_with least w → closes_with least w').
Proof.
  unfold socket_timed_out. destruct (js && room); cbn; [done|]. split; [apply close_phase|apply closes_with_close].
Qed.

Lemma again_keeps js sd now r w sv w' sv' to_js least :
  serve_turn js sd now r w sv = TurnAgain w' sv' to_js →
  phase w' = phase w ∧ (closes_with least w → closes_with least w').
Proof.
  intros [[-> _]|(f & w1 & Hn & E)]%serve_turn_again; [done|]. apply next_timeout_keeps in Hn as [Hp Hc].
  pose proof (socket_timed_out_keeps js (queue_has_room r) f w1 least) as [H1 H2]. rewrite <-E in *. cbn in *.
  split; [by rewrite H1|]. intros Hw. apply H2. unfold closes_with in *. by rewrite Hc.
Qed.

Lemma expire_keeps h r s t :
  let t' := expire_watch h r s t in
  messages t' = messages t ∧ task_pc t' = task_pc t ∧ announced t' = announced t ∧
  (phase (task_watch t') = phase (task_watch t) ∧ close_reason (task_watch t') = close_reason (task_watch t) ∨
   timed_out (task_watch t') ∧ active (phase (task_watch t')) = false ∧
   ∃ p, p = phase (task_watch t) ∧
     phase (task_watch t') = {| active := false; begun := begun p; message_start := message_start p;
       headers_in := headers_in p; generation := generation p; in_flight := in_flight p;
       request_now := request_now p; current_generation := current_generation p;
       current_complete := current_complete p; response_begun := response_begun p;
       keep_alive_set := keep_alive_set p |}) ∧
  ∀ least, closes_with least (task_watch t) → closes_with least (task_watch t').
Proof.
  unfold expire_watch. destruct (over t || _); [by split_and!; [..|left|]|].
  unfold expire. destruct (if _ && _ then _ else _) as [h' r'].
  destruct (negb (active _)); [by split_and!; [..|left|]|].
  destruct (_ || _); [|by split_and!; [..|left|]]. cbn. rewrite close_phase. split_and!; try done.
  - right. split; [apply close_closes|]. split; [done|]. by eexists.
  - intros least Hc. by apply closes_with_close.
Qed.

Lemma task_ok_moved n s e t t' : n + 1 < 2 ^ 64 → moved s e t t' → task_ok n t → task_ok (n + 1) t'.
Proof.
  intros Hn Hm Hok. destruct Hm as [r0 Ho Hf|id a -> Ho|request w g Hsv Hh|g Hg|Hp|h r Ho|p w Hp Hw Hc|p Hp Hc|
    r sv w sv' to_js Hp Ht|r sv reason p Hp Ht Hp'|p Hp].
  - destruct r0 as [r|r|r| | |f| |];
      try (apply (task_ok_same _ t); [by apply report_phase|done| |done|done]; unfold timed_out, closes_with;
           cbn [task_watch set_watch]; by rewrite report_close).
    + destruct r as [|m|reset code errno]; cbn.
      * by apply (task_ok_same _ t).
      * unfold note_read. destruct (m =? 0); [by apply (task_ok_same _ t)|]. cbn.
        destruct (begun (phase (task_watch t))) eqn:Eb; [by apply (task_ok_same _ t)|].
        eapply task_ok_begin; [done|done|by apply Hf|done|done|done].
      * apply (task_ok_same _ t); try done; unfold note_read_error, note_failure; destruct reset; try done;
          by destruct (failure _).
    + rewrite set_messages_same. destruct Hok as [H1 H2 H3 H4 H5 H6 H7 H8].
      eapply task_ok_phase; [reflexivity|apply report_close|..]; cbn; try done. lia.
    + rewrite set_messages_same. destruct Hok as [H1 H2 H3 H4 H5 H6 H7 H8].
      eapply task_ok_phase; [reflexivity|apply report_close|..]; cbn; unfold response_finished;
        destruct (_ && _); cbn; try done; lia.
  - apply (task_ok_same _ t); try done; destruct a; cbn; try done; [apply close_phase|apply closes_with_close].
  - by eapply task_ok_head.
  - by apply task_ok_body.
  - apply (task_ok_same _ t); try done. intros _. cbn. by rewrite Hp.
  - destruct (expire_keeps h r s t) as (E1 & E2 & _ & E3 & E4).
    destruct E3 as [[E3 _]|(Hto & _ & p & -> & E3)].
    + apply (task_ok_same _ t); [done|done|apply E4|by rewrite E2|done].
    + destruct Hok as [H1 H2 H3 H4 H5 H6 H7 H8]. split; rewrite ?E1, ?E2, ?E3; cbn; try done; try lia. by right.
  - unfold resume_wait in Hw. destruct (resumed _); [|done]. injection Hw as <-.
    apply (task_ok_same _ t); try done. intros _. by rewrite Hp.
  - apply (task_ok_same _ t); try done. intros _. by rewrite Hp.
  - destruct (again_keeps _ _ _ _ _ _ _ _ _ RRequestTimeout Ht) as [E1 E2]. by apply (task_ok_same _ t).
  - apply (task_ok_same _ t); try done. cbn. subst p. by destruct (finish_close _ _).
  - apply (task_ok_same _ t); try done. cbn. by destruct p.
Qed.

Lemma task_ok_fresh n s id t : 0 ≤ n → fresh_task s id t → task_ok n t.
Proof.
  intros Hn (_ & Em & _ & (t0 & Ew & _) & Hp). split; rewrite ?Ew, ?Em; cbn; try done; try lia.
Qed.

Lemma tasks_ok settings es s :
  serve_run (Server_new settings) es = Some s → Z.of_nat (length es) < 2 ^ 64 →
  map_Forall (λ _, task_ok (Z.of_nat (length es))) (tasks s).
Proof.
  revert es s. apply (serve_run_ind (λ es s, Z.of_nat (length es) < 2 ^ 64 → map_Forall (λ _, task_ok (Z.of_nat (length es))) (tasks s))).
  - intros _ id t. cbn. by rewrite lookup_empty.
  - intros es s e s' _ Hs IH Hl id t' Ht'. rewrite length_app in *. cbn [length] in *.
    replace (Z.of_nat (length es + 1)) with (Z.of_nat (length es) + 1) in * by lia.
    specialize (IH ltac:(lia)). destruct (step_moves _ _ _ Hs id t' Ht') as [Ht|[(t & Ht & Hm)|[Hf _]]].
    + apply (task_ok_same _ t'); try done. by apply (IH id).
    + eapply task_ok_moved; [lia|exact Hm|by apply (IH id)].
    + eapply task_ok_fresh; [lia|exact Hf].
Qed.

(** C31. A request the server has seen begin is under the headers and request
    check.  On every connection the requests get numbers that only grow, so
    the end of a body that is read late is never taken for the end of a later
    request.  A request is begun by the first bytes read after the one before
    it was over; while it is begun, or is the newest one and its body is not
    all in, the connection is checked, or has been found late and is closing.
    Bytes of a next request that come in the same read as the end of the body
    before begin none ([HttpServeRun.pipelined_head_unchecked]), so of these
    nothing is said. *)

Theorem every_request_checked (settings : TimeoutSettings) (es : list ServeEvent) (s : Server) (id : Z) (t : Task) :
  serve_run (Server_new settings) es = Some s → Z.of_nat (length es) < 2 ^ 64 - 1 → tasks s !! id = Some t →
  let w := task_watch t in
  (∀ request, served t = true →
     current_generation (phase w) < (headers_complete (timeouts s) request (now s) w).2) ∧
  (begun (phase w) = true → active (phase w) = true ∨ timed_out w) ∧
  (∀ g, g ∈ messages t → generation (phase w) ≤ g → active (phase w) = true ∨ timed_out w).
Proof.
  intros Hr Hl Ht w. pose proof (tasks_ok _ _ _ Hr ltac:(lia) id t Ht) as [H1 H2 H3 H4 H5 H6 H7 H8]. split_and!.
  - intros request Hsv. destruct (headers_complete _ _ _ _) as [w' g] eqn:Eh.
    destruct (headers_complete_spec _ _ _ _ _ _ Eh) as (-> & _). subst w. cbn.
    destruct (begun _) eqn:Eb, (headers_in _) eqn:Eh'; cbn; rewrite ?wrap_u64_small by lia; lia.
  - exact H5.
  - intros g Hg Hle. pose proof (proj1 (Forall_forall _ _) H2 g Hg) as Hb. cbn in Hb.
    assert (current_generation (phase w) = generation (phase w)) as E by (subst w; lia).
    destruct (begun (phase w)) eqn:Eb; [by apply H5|]. destruct (H6 Eb) as [Hc|Hz]; [|subst w; lia].
    destruct (H7 Hc). fold w. assert (g = current_generation (phase w)) as <- by (subst w; lia). done.
Qed.

(** ** How long a connection is held *)

(** Time passes only when nothing is due: not the check, nothing a task is
    woken for, and no deadline of one. *)

Definition quiet : Ready :=
  {| conn_done := false; taken := None; flush_notified := false; queue_has_room := true |}.

Definition task_waits (d : Z) (s : Server) (t : Task) : bool :=
  match task_pc t with
  | TServing sv =>
      match serve_turn (js_driven (fixed (timeouts s))) (shutdown s) (now s) quiet (task_watch t) sv with
      | TurnPending =>
          match deadline_ms (task_watch t) with
          | Some at_ => now_ms (now s + d) (task_watch t) <=? at_
          | None => true
          end
      | _ => false
      end
  | TSettling until | TFlushing until _ | TFarewell until => now s + d <=? until
  | _ => true
  end.

Definition may_pass (d : Z) (s : Server) : bool :=
  match next_check s with
  | Some at_ => now s + d <=? at_
  | None => true
  end && bool_decide (map_Forall (λ _ t, task_waits d s t = true) (tasks s)).

(** Which events happen: the settings stay as they are, and a timeout JS sets
    is a [u64]. *)

Definition allowed (e : ServeEvent) (s : Server) : bool :=
  match e with
  | VTick d => may_pass d s
  | VUpdate _ _ _ _ => false
  | VAsk _ (ASetTimeout ms) => bool_decide (0 ≤ ms ≤ u64_max)
  | _ => true
  end.

Fixpoint prompt_serve (s : Server) (es : list ServeEvent) : option Server :=
  match es with
  | [] => Some s
  | e :: es => if allowed e s then s ← serve_step s e; prompt_serve s es else None
  end.

(** The limits of the check as [expire] reads them, in nanoseconds. *)

Definition header_limit (t : TimeoutSettings) : Z :=
  (if (0 <? request_ms t) && (request_ms t <? headers_ms t) then request_ms t else headers_ms t) * NANOS_PER_MILLI.

Definition request_limit (t : TimeoutSettings) : Z :=
  (if (0 <? request_ms t) && (request_ms t <? headers_ms t) then headers_ms t else request_ms t) * NANOS_PER_MILLI.

Definition in_range (t : TimeoutSettings) : Prop :=
  Forall (λ ms, 0 ≤ ms ≤ u64_max) [headers_ms t; request_ms t; keep_alive_ms t; socket_ms t].

Definition interval (t : TimeoutSettings) : Z := Z.max (check_interval_ms t) 1 * NANOS_PER_MILLI.

Section Held.
Context (settings : TimeoutSettings).
Context (oam_serve : js_driven settings = false).
Context (ranges : in_range settings).

(** [c] is the last check, or the start of the server. *)

Definition checked (s : Server) (c : Z) : Prop :=
  c ≤ now s ∧
  (shutdown s = false → next_check s = Some (c + interval settings) ∧ now s ≤ c + interval settings) ∧
  (shutdown s = true → next_check s = None).

Record held (server now c : Z) (t : Task) : Prop := {
  held_server : server_id (task_watch t) = server;
  held_start : message_start (phase (task_watch t)) ≤ now;
  held_request : active (phase (task_watch t)) = true → 0 < request_limit settings →
    c - message_start (phase (task_watch t)) < request_limit settings;
  held_headers : active (phase (task_watch t)) = true →
    headers_in (phase (task_watch t)) = false → 0 < header_limit settings →
    c - message_start (phase (task_watch t)) < header_limit settings;
  held_timeout : 0 ≤ socket_timeout_ms (task_watch t);
  held_fired : fired (task_watch t) = true → closes_with RDestroy (task_watch t);
  held_pc : match task_pc t with
            | TQueueing | TAnnouncing => False
            | TServing _ => ∀ at_, deadline_ms (task_watch t) = Some at_ → now_ms now (task_watch t) ≤ at_
            | TSettling until => now ≤ until ≤ now + PUMPS_SETTLE_BUDGET
            | TFlushing until _ => now ≤ until ≤ now + TAKEOVER_FLUSH_BUDGET
            | TFarewell until => now ≤ until ≤ now + FAREWELL_BUDGET
            | TOver _ => True
            end
}.

Record set_as (s : Server) : Prop := {
  as_fixed : fixed (timeouts s) = settings;
  as_headers : headers_timeout (timeouts s) = headers_ms settings;
  as_request : request_timeout (timeouts s) = request_ms settings;
  as_keep_alive : keep_alive_timeout (timeouts s) = keep_alive_ms settings;
  as_socket : server_timeout (timeouts s) = socket_ms settings
}.

Definition held_all (s : Server) : Prop :=
  set_as s ∧ ∃ c, checked s c ∧ map_Forall (λ _ t, over t = false → held (sid s) (now s) c t) (tasks s).

(** A timer that is set again. *)

Lemma now_ms_range n w : 0 ≤ now_ms n w ≤ u64_max.
Proof.
  unfold now_ms, millis_u64, as_millis, duration_since, NANOS_PER_MILLI.
  assert (0 ≤ Z.max 0 (n - epoch w) / 1000000) by (apply Z.div_pos; lia).
  assert (0 ≤ u64_max) by done. lia.
Qed.

Lemma reset_deadline n w w' at_ :
  epoch w' = epoch w → last_activity_ms w' = now_ms n w → 0 ≤ socket_timeout_ms w' →
  deadline_ms w' = Some at_ → now_ms n w' ≤ at_.
Proof.
  intros Ee El Ht. unfold deadline_ms. destruct (_ || _); [done|]. intros [= <-]. rewrite El.
  assert (now_ms n w' = now_ms n w) as -> by (unfold now_ms; by rewrite Ee).
  pose proof (now_ms_range n w). lia.
Qed.

Definition timer_steps (n : Z) (w w' : ConnWatch) : Prop :=
  epoch w' = epoch w ∧ server_id w' = server_id w ∧
  ((last_activity_ms w' = last_activity_ms w ∧ socket_timeout_ms w' = socket_timeout_ms w ∧
    fired w' = fired w ∧ (closes_with RDestroy w → closes_with RDestroy w')) ∨
   (last_activity_ms w' = now_ms n w ∧ 0 ≤ socket_timeout_ms w' ∧ fired w' = false)).

Definition phase_steps (n : Z) (p p' : Phase) : Prop :=
  (message_start p' = message_start p ∧ (active p' = true → active p = true) ∧
   (headers_in p' = false → headers_in p = false)) ∨
  message_start p' = n.

Lemma held_steps server n c t w ms :
  c ≤ n → timer_steps n (task_watch t) w → phase_steps n (phase (task_watch t)) (phase w) →
  held server n c t → held server n c (set_messages ms (set_watch w t)).
Proof.
  intros Hc (Ee & Es & Ht) Hp [H1 H2 H3 H4 H5 H6 H7]. split; cbn.
  - by rewrite Es.
  - destruct Hp as [(-> & _)| ->]; lia.
  - destruct Hp as [(-> & Ha & _)| ->]; [auto|lia].
  - destruct Hp as [(-> & Ha & Hh)| ->]; [auto|lia].
  - destruct Ht as [(_ & -> & _)|(_ & ? & _)]; done.
  - destruct Ht as [(_ & _ & -> & Hk)|(_ & _ & ->)]; [auto|done].
  - destruct (task_pc t) eqn:Ep; try done. intros at_. destruct Ht as [(E1 & E2 & E3 & _)|(E1 & E2 & E3)].
    + unfold deadline_ms, now_ms in *. rewrite E1, E2, E3, Ee. apply H7.
    + by apply (reset_deadline _ (task_watch t)).
Qed.

Lemma held_steps_watch server n c t w :
  c ≤ n → timer_steps n (task_watch t) w → phase_steps n (phase (task_watch t)) (phase w) →
  held server n c t → held server n c (set_watch w t).
Proof. rewrite set_messages_same. apply held_steps. Qed.

Lemma timer_same n w w' :
  epoch w' = epoch w → server_id w' = server_id w → last_activity_ms w' = last_activity_ms w →
  socket_timeout_ms w' = socket_timeout_ms w → fired w' = fired w → close_reason w' = close_reason w →
  timer_steps n w w'.
Proof. intros ? ? ? ? ? Ec. split_and!; try done. left. split_and!; try done. unfold closes_with. by rewrite Ec. Qed.

Lemma phase_same n p p' : p' = p → phase_steps n p p'.
Proof. intros ->. by left. Qed.

Lemma report_steps s e w :
  set_as s → 0 ≤ socket_timeout_ms w →
  timer_steps (now s) w (report (timeouts s) (now s) e w) ∧
  phase_steps (now s) (phase w) (phase (report (timeouts s) (now s) e w)).
Proof.
  intros [_ _ _ Hk _] Hw.
  assert (0 ≤ keep_alive_timeout (timeouts s)) as Hka.
  { rewrite Hk. unfold in_range in ranges. rewrite !Forall_cons in ranges. tauto. }
  destruct e as [r|r|r| | |f| |]; cbn.
  - destruct r as [|n|reset code errno]; cbn.
    + split; [by apply timer_same|by apply phase_same].
    + unfold note_read. destruct (n =? 0); [split; [by apply timer_same|by apply phase_same]|]. cbn.
      destruct (begun (phase w)); cbn; (split; [split_and!; try done; by right|]); [by apply phase_same|by right].
    + unfold note_read_error, note_failure. destruct reset; [destruct (failure w)|];
        (split; [by apply timer_same|by apply phase_same]).
  - destruct r as [|n|]; cbn; [split; [by apply timer_same|by apply phase_same]| |split; [by apply timer_same|by apply phase_same]].
    unfold note_write. destruct (0 <? n); (split; [|by apply phase_same]); [|by apply timer_same].
    split_and!; try done. by right.
  - destruct r; cbn; (split; [by apply timer_same|by apply phase_same]).
  - split; [by apply timer_same|by left].
  - unfold response_finished. destruct (_ && _); cbn; (split; [|by left]); [|by apply timer_same].
    split_and!; try done. by right.
  - unfold note_failure. destruct (failure w); (split; [by apply timer_same|by apply phase_same]).
  - split; [by apply timer_same|by apply phase_same].
  - split; [by apply timer_same|by apply phase_same].
Qed.

Lemma ask_steps n a w :
  (∀ ms, a = ASetTimeout ms → 0 ≤ ms) → timer_steps n w (ask n a w) ∧ phase (ask n a w) = phase w.
Proof.
  intros Ha. destruct a as [r|ms|]; cbn.
  - split; [|apply close_phase]. unfold close. destruct (close_reason w) as [cr|] eqn:Ec.
    + pose proof (closes_with_close RDestroy r w) as Hcl. unfold close in Hcl. rewrite Ec in Hcl.
      destruct (reason_ge cr r); (split_and!; try done); by left.
    + split_and!; try done. left. split_and!; try done. intros (x & E & _). congruence.
  - split; [|done]. split_and!; try done. right. split_and!; try done. by apply Ha.
  - split; [by apply timer_same|done].
Qed.

Lemma headers_complete_steps s request w w' g :
  set_as s → headers_complete (timeouts s) request (now s) w = (w', g) →
  timer_steps (now s) w w' ∧ phase_steps (now s) (phase w) (phase w').
Proof.
  intros [_ _ _ _ Hk] E.
  assert (0 ≤ server_timeout (timeouts s)) as Hka.
  { rewrite Hk. unfold in_range in ranges. rewrite !Forall_cons in ranges. tauto. }
  destruct (headers_complete_spec _ _ _ _ _ _ E) as (_ & _ & _ & _ & _ & Eh & _ & Ea & Em).
  unfold headers_complete in E. injection E as E _. split.
  - destruct (negb (begun (phase w)) || headers_in (phase w)); destruct (keep_alive_set _) in E; subst w'.
    all: first [by apply timer_same|split_and!; try done; by right].
  - destruct (negb (begun (phase w)) || headers_in (phase w)); [by right|]. left. by rewrite Eh, Ea.
Qed.

(** Closing leaves the timer alone. *)

Lemma close_frame r w :
  server_id (close r w) = server_id w ∧ socket_timeout_ms (close r w) = socket_timeout_ms w ∧
  fired (close r w) = fired w ∧ deadline_ms (close r w) = deadline_ms w ∧
  ∀ n, now_ms n (close r w) = now_ms n w.
Proof. unfold close. destruct (close_reason w); [case_match|]; done. Qed.

Lemma close_harder r w : reason_ge r RDestroy = true → closes_with RDestroy (close r w).
Proof.
  intros Hr. destruct (close_closes r w) as (x & E & Hx). exists x. split; [done|].
  unfold reason_ge in *. rewrite Nat.leb_le in *. lia.
Qed.

(** A connection whose timer fires is closed at once. *)

Lemma again_held server n c sd r t sv w sv' to_js :
  task_pc t = TServing sv → serve_turn false sd n r (task_watch t) sv = TurnAgain w sv' to_js →
  held server n c t → held server n c (set_task_pc (TServing sv') (set_watch w t)).
Proof.
  intros Ep Ht [H1 H2 H3 H4 H5 H6 H7]. rewrite Ep in H7.
  destruct (serve_turn_again _ _ _ _ _ _ _ _ _ Ht) as [[-> _]|(f & w1 & Hn & E)]; [by split|].
  cbn in E. injection E as -> ->. destruct (close_frame RDestroy w1) as (E1 & E2 & E3 & E4 & _).
  unfold next_timeout in Hn. destruct (deadline_ms (task_watch t)) as [dl|]; [|done]. destruct (_ <=? _); [|done].
  injection Hn as <- _. split; cbn [task_watch set_task_pc set_watch task_pc]; rewrite ?close_phase, ?E1, ?E2, ?E4; try done.
  - intros _. by apply close_harder.
  - intros at_. unfold deadline_ms. cbn. by rewrite orb_true_r.
Qed.

Lemma set_watch_same t : set_watch (task_watch t) t = t.
Proof. by destruct t. Qed.

Lemma expire_held server n c h r s t : held server n c t → held server n c (expire_watch h r s t).
Proof.
  intros H. unfold expire_watch. destruct (over t || _); [done|].
  unfold expire. destruct (if _ && _ then _ else _) as [h' r'].
  destruct (negb (active _)); [by rewrite set_watch_same|].
  destruct (_ || _); [|by rewrite set_watch_same]. destruct H as [H1 H2 H3 H4 H5 H6 H7].
  match goal with |- held _ _ _ (set_watch (close _ ?x) _) => set (w := x) end.
  destruct (close_frame RRequestTimeout w) as (E1 & E2 & _ & E4 & E5).
  split; cbn [task_watch set_watch task_pc]; rewrite ?close_phase, ?E1, ?E2, ?E4, ?E5; try done.
  intros _. by apply close_harder.
Qed.

Lemma held_moved s e c t t' :
  set_as s → c ≤ now s → allowed e s = true → moved s e t t' → over t' = false → (over t = false → held (sid s) (now s) c t) → held (sid s) (now s) c t'.
Proof.
  intros Has Hc Hal Hm Hov Hh. assert (over t = false) as Ho.
  { destruct Hm; try done; unfold over in *; cbn in *; by repeat case_match. }
  specialize (Hh Ho). pose proof (held_timeout _ _ _ _ Hh) as H0. pose proof (held_pc _ _ _ _ Hh) as H7.
  destruct Hm as [r0 _ Hf|id a -> _|request w g Hsv Hhd|g Hg|Hp|h r _|p w Hp Hw Hcr|p Hp Hcr|
    r sv w sv' to_js Hp Ht|r sv reason p Hp Ht Hp'|p Hp]; rewrite ?Hp in H7; try done.
  - destruct (report_steps s r0 (task_watch t) Has H0). by apply held_steps_watch.
  - destruct (ask_steps (now s) a (task_watch t)) as [Hs Hp]; [intros ms ->; cbn in Hal; rewrite bool_decide_eq_true in Hal; lia|].
    apply held_steps_watch; [done|done|by apply phase_same|done].
  - destruct (headers_complete_steps s request (task_watch t) w g Has Hhd). by apply held_steps.
  - apply held_steps; [done|by apply timer_same| |done]. left. cbn. split_and!; try done. by intros [? _]%andb_true_iff.
  - by apply expire_held.
  - rewrite (as_fixed _ Has), oam_serve in Ht. by eapply again_held.
  - destruct Hh as [H1 H2 H3 H4 H5 H6 _]. subst p. unfold over in Hov. cbn in Hov.
    destruct (finish_close _ _); try done. split; cbn; try done. unfold FAREWELL_BUDGET, NANOS_PER_MILLI. lia.
  - destruct Hh as [H1 H2 H3 H4 H5 H6 _]. destruct p, (task_pc t); try done; subst; split; cbn; try done; unfold PUMPS_SETTLE_BUDGET, TAKEOVER_FLUSH_BUDGET, NANOS_PER_MILLI; lia.
Qed.

Lemma fresh_held s c id t : set_as s → c ≤ now s → fresh_task s id t → held (sid s) (now s) c t.
Proof.
  intros [Hf _ _ _ Hk] Hc (_ & _ & _ & (t0 & Ew & Et) & Hp). rewrite Hf, oam_serve in Hp.
  assert (0 ≤ socket_ms settings) as Hs.
  { unfold in_range in ranges. rewrite !Forall_cons in ranges. tauto. }
  split; rewrite ?Ew, ?Hp; cbn; try done; try lia.
  intros at_. unfold deadline_ms. cbn. destruct (_ || _); [done|]. intros [= <-].
  unfold now_ms, millis_u64, as_millis, duration_since. cbn. rewrite Z.sub_diag. change (Z.max 0 0 / _) with 0.
  assert (0 ≤ u64_max) by done. lia.
Qed.

(** What no event but a tick, a check and a shutdown changes. *)

Ltac framed := split_and!; [reflexivity..|]; intros []; split; assumption.

Lemma step_frame s e s' :
  serve_step s e = Some s' →
  match e with VTick _ | VCheck | VShutdown | VUpdate _ _ _ _ => False | _ => True end →
  now s' = now s ∧ sid s' = sid s ∧ next_check s' = next_check s ∧ shutdown s' = shutdown s ∧
  (set_as s → set_as s').
Proof.
  intros Hs He. destruct e as [d| |id ok|id r|id e|id|id g|id a|h r k sk|limit|b|h r| |]; try done; unfold serve_step in Hs;
    try (destruct (tasks s !! id) as [t|]; [|done]; cbn [mbind option_bind] in Hs).
  - destruct (shutdown s) in Hs; [done|]. injection Hs as <-. unfold accept, admit_conn. destruct (count_ge _ _); framed.
  - destruct (task_pc t); try done. injection Hs as <-. unfold queued, after_announcement.
    destruct ok; [|destruct (close_reason _)]; framed.
  - unfold task_turn in Hs. destruct (task_pc t) as [| |sv|until|until takeover|until|how]; try done.
    + destruct (resume_wait _); [|done]. injection Hs as <-. unfold after_announcement. destruct (close_reason _); framed.
    + destruct (serve_turn _ _ _ _ _ _) as [| |[]]; try done; injection Hs as <-; try framed.
      destruct (finish_close _ _); framed.
    + destruct (_ || _); [|done]. injection Hs as <-. framed.
    + destruct (negb _); [|destruct (_ || _); [|done]]; injection Hs as <-; framed.
    + destruct (_ || _); [|done]. injection Hs as <-. framed.
  - destruct (over t); [by injection Hs as <-|]. destruct (_ && _); [done|]. injection Hs as <-. framed.
  - destruct (served t); [|done]. unfold take_id in Hs. destruct (headers_complete _ _ _ _) as [w g]. injection Hs as <-. framed.
  - case_decide; [|done]. injection Hs as <-. framed.
  - destruct (over t); injection Hs as <-; framed.
  - injection Hs as <-. framed.
  - injection Hs as <-. framed.
  - injection Hs as <-. unfold expire_connections. destruct (_ && _); framed.
Qed.

Lemma millis_le d limit : 0 ≤ d → 0 ≤ limit ≤ u64_max → (limit <=? millis_u64 d) = false → d < limit * NANOS_PER_MILLI.
Proof.
  unfold millis_u64, as_millis, NANOS_PER_MILLI. intros Hd Hl Hm.
  pose proof (Z.div_mod d 1000000). pose proof (Z.mod_pos_bound d 1000000). lia.
Qed.

(** A connection the check leaves alone is not late. *)

Lemma expire_spares n w w' due :
  message_start (phase w) ≤ n → expire (headers_ms settings) (request_ms settings) n w = (w', due) →
  due = true ∧ active (phase w') = false ∨
  due = false ∧ w' = w ∧
  (active (phase w) = true →
   (0 < request_limit settings → n - message_start (phase w) < request_limit settings) ∧
   (headers_in (phase w) = false → 0 < header_limit settings → n - message_start (phase w) < header_limit settings)).
Proof.
  intros Hs. unfold in_range in ranges. rewrite !Forall_cons in ranges. destruct ranges as (Hr1 & Hr2 & _).
  assert (∃ h r, header_limit settings = h * NANOS_PER_MILLI ∧ request_limit settings = r * NANOS_PER_MILLI ∧
    0 ≤ h ≤ u64_max ∧ 0 ≤ r ≤ u64_max ∧
    (if (0 <? request_ms settings) && (request_ms settings <? headers_ms settings)
     then (request_ms settings, headers_ms settings) else (headers_ms settings, request_ms settings)) = (h, r))
    as (h & r & -> & -> & Hh & Hr & E).
  { unfold header_limit, request_limit. destruct (_ && _); do 2 eexists; (split_and!; [reflexivity..|lia|lia|lia|lia|reflexivity]). }
  unfold expire. rewrite E. destruct (active (phase w)) eqn:Ea; cbn [negb]; [|intros [= <- <-]; by right].
  destruct (_ || _) eqn:Ed; intros [= <- <-]; [by left|right]. split_and!; [done..|intros _].
  apply orb_false_iff in Ed as [Ed1 Ed2].
  assert (duration_since n (message_start (phase w)) = n - message_start (phase w)) as En by (unfold duration_since; lia).
  rewrite En in *. unfold NANOS_PER_MILLI at 1 3. split.
  - intros Hp. apply millis_le; [lia|done|]. rewrite andb_false_iff in Ed2. destruct Ed2; [lia|done].
  - intros Hh' Hp. apply millis_le; [lia|done|]. rewrite Hh' in Ed1. cbn in Ed1. rewrite andb_false_iff in Ed1.
    destruct Ed1; [lia|done].
Qed.

Lemma check_held s c t :
  over t = false → held (sid s) (now s) c t →
  held (sid s) (now s) (now s) (expire_watch (headers_ms settings) (request_ms settings) s t).
Proof.
  intros Ho Hh. pose proof (expire_held _ _ _ (headers_ms settings) (request_ms settings) s t Hh) as Hh'.
  revert Hh'. unfold expire_watch. rewrite Ho, (held_server _ _ _ _ Hh), Z.eqb_refl. cbn [orb negb].
  destruct (expire _ _ _ _) as [w due] eqn:E.
  destruct (expire_spares _ _ _ _ (held_start _ _ _ _ Hh) E) as [[-> Ha]|(-> & -> & Ha)]; intros [H1 H2 H3 H4 H5 H6 H7].
  - split; try done; cbn [task_watch set_watch] in *; rewrite close_phase, Ha; done.
  - split; try done; cbn [task_watch set_watch] in *; intros Hx; by destruct (Ha Hx).
Qed.

Lemma held_later server n n' c t :
  n ≤ n' → held server n c t →
  (match task_pc t with
   | TServing _ => ∀ at_, deadline_ms (task_watch t) = Some at_ → now_ms n' (task_watch t) ≤ at_
   | TSettling until | TFlushing until _ | TFarewell until => n' ≤ until
   | _ => True
   end) → held server n' c t.
Proof.
  intros Hn [H1 H2 H3 H4 H5 H6 H7] Hw. split; try done; [lia|].
  destruct (task_pc t); try done; lia.
Qed.

Lemma task_waits_spec d s t :
  task_waits d s t = true →
  match task_pc t with
  | TServing _ => ∀ at_, deadline_ms (task_watch t) = Some at_ → now_ms (now s + d) (task_watch t) ≤ at_
  | TSettling until | TFlushing until _ | TFarewell until => now s + d ≤ until
  | _ => True
  end.
Proof.
  unfold task_waits. destruct (task_pc t); try done; try lia. destruct (serve_turn _ _ _ _ _ _); try done.
  destruct (deadline_ms _); [|done]. intros H at_ [= <-]. lia.
Qed.

Lemma held_tick s d s' : allowed (VTick d) s = true → serve_step s (VTick d) = Some s' → held_all s → held_all s'.
Proof.
  cbn. unfold may_pass. rewrite andb_true_iff, bool_decide_eq_true. intros [Hn Hw] Hs ([] & c & (Hc & Hck & Hsd) & Hh).
  case_decide as Hd; [|done]. injection Hs as <-. split; [by split|]. exists c. split.
  - split_and!; cbn; [lia| |done]. intros Hf. destruct (Hck Hf) as [E Hl]. rewrite E in *. split; [done|lia].
  - intros id t Ht Ho. cbn in *. apply (held_later _ (now s)); [lia|by apply (Hh id)|].
    apply task_waits_spec. by apply (Hw id).
Qed.

Lemma held_check s s' : serve_step s VCheck = Some s' → held_all s → held_all s'.
Proof.
  cbn. destruct (next_check s) as [at_|] eqn:En; [|done]. case_decide as Hd; [|done]. intros [= <-] (Has & c & (Hc & Hck & Hsd) & Hh).
  assert (shutdown s = false) as Hf by (destruct (shutdown s); [specialize (Hsd eq_refl); congruence|done]).
  unfold check_tick, expire_connections. pose proof Has as [Hfx Hhd Hrq Hka Hso]. rewrite Hhd, Hrq. split.
  { destruct (_ && _); by split. }
  exists (now s). split.
  { assert (0 ≤ interval settings) by (unfold interval, NANOS_PER_MILLI; lia).
    assert (interval settings = check_interval (timeouts s)) as Ei by (unfold interval, check_interval; by rewrite Hfx).
    unfold checked. rewrite Ei in *. destruct (_ && _); split_and!; cbn; try lia; intros; try congruence; split; try done;
      unfold check_interval, NANOS_PER_MILLI; lia. }
  destruct (_ && _) eqn:E; cbn.
  - intros id t Ht Ho. destruct (Hh id t Ht Ho) as [H1 H2 H3 H4 H5 H6 H7]. apply andb_true_iff in E as [E1%Z.eqb_eq E2%Z.eqb_eq].
    split; try done; unfold request_limit, header_limit; rewrite E1, E2; cbn; lia.
  - intros id t' Ht' Ho. rewrite lookup_fmap_Some in Ht'. destruct Ht' as (t & <- & Ht).
    assert (over t = false) as Hot.
    { destruct (expire_keeps (headers_ms settings) (request_ms settings) s t) as (_ & Ep & _). unfold over in *. by rewrite <-Ep. }
    eapply check_held; [done|]. by apply (Hh id).
Qed.

Lemma held_other s e s' :
  match e with VTick _ | VCheck | VShutdown | VUpdate _ _ _ _ => False | _ => True end →
  allowed e s = true → serve_step s e = Some s' → held_all s → held_all s'.
Proof.
  intros He Ha Hs (Has & c & (Hc & Hck & Hsd) & Hh).
  destruct (step_frame _ _ _ Hs He) as (E1 & E2 & E3 & E4 & E5).
  split; [by apply E5|]. exists c. split; [unfold checked; by rewrite E1, E3, E4|].
  intros id t' Ht' Ho. rewrite E1, E2. destruct (step_moves _ _ _ Hs id t' Ht') as [Ht|[(t & Ht & Hm)|[Hf _]]].
  - by apply (Hh id).
  - eapply held_moved; [done|done|exact Ha|exact Hm|done|by apply (Hh id)].
  - by eapply fresh_held.
Qed.

Lemma held_step s e s' : allowed e s = true → serve_step s e = Some s' → held_all s → held_all s'.
Proof.
  intros Ha Hs Hall. destruct e; try (eapply held_other; [|exact Ha|exact Hs|exact Hall]; exact I); [|done| |].
  - by eapply held_tick.
  - by eapply held_check.
  - injection Hs as <-. destruct Hall as ([] & c & (Hc & _ & _) & Hh). split; [by split|]. exists c. by split.
Qed.

Lemma held_start_all : held_all (Server_new settings).
Proof.
  split; [by split|]. exists 0. split; [|intros id t; cbn; by rewrite lookup_empty].
  unfold checked. cbn. rewrite oam_serve. unfold interval, check_interval, NANOS_PER_MILLI. split_and!; try done. intros _. cbn. split; [done|lia].
Qed.

Lemma prompt_held s es s' : prompt_serve s es = Some s' → held_all s → held_all s'.
Proof.
  revert s. induction es as [|e es IH]; intros s; cbn; [by intros [= <-]|].
  destruct (allowed e s) eqn:Ea; [|done]. destruct (serve_step s e) as [s1|] eqn:Es; [|done].
  cbn. intros Hr Hh. eapply IH; [exact Hr|]. by eapply held_step.
Qed.
End Held.

(** A prompt run is a run. *)

Lemma prompt_runs s es s' : prompt_serve s es = Some s' → serve_run s es = Some s'.
Proof.
  revert s. induction es as [|e es IH]; intros s; cbn; [done|]. destruct (allowed e s); [|done].
  destruct (serve_step s e); [|done]. cbn. apply IH.
Qed.

Lemma closed_closing least r0 w :
  closes_with r0 w → reason_ge r0 least = true → ∃ r, closed least w = Some r ∧ reason_ge r r0 = true.
Proof.
  intros (r & E & Hr) Hl. exists r. split; [|done]. unfold closed. rewrite E.
  replace (reason_ge r least) with true; [done|]. unfold reason_ge in *. rewrite !Nat.leb_le in *.
  symmetry. apply Nat.leb_le. lia.
Qed.

Lemma closing_turn js sd n w sv : closes_with RDestroy w → serve_turn js sd n quiet w sv ≠ TurnPending.
Proof.
  intros Hc. unfold serve_turn. cbn. replace (if takeable sv then None else None) with (@None (option Z)) by (by destruct (takeable sv)).
  destruct (_ && negb (shutdown_waiting sv)); [done|]. destruct (_ && negb (awaiting_dispatch w)); [done|].
  destruct (closed_closing (if shutting_down sv then RDestroy else REnd) _ _ Hc) as (r & -> & Hr); [by destruct (shutting_down sv)|].
  by destruct r.
Qed.

(** C30. [oam.serve] does not hold a connection for a peer that is too slow.  Take
    a server that is not shutting down, whose settings stay as they are, and
    whose tasks run when they are woken.  While a connection is new or has
    seen the beginning of a request that is not over, that is younger than
    [requestTimeout] and one check interval, and younger than [headersTimeout]
    and one check interval while its headers are not in, where these are set;
    or the connection is closing.  A request that began in the same read as
    the end of the one before is not seen to begin, and is not meant here.  A
    served connection with a socket timeout has seen a byte within it or is
    closing, and one that is closing is not served any more when time passes;
    what may follow -- the settling of its pumps, a takeover's flush, the
    farewell of a 408 -- takes each no longer than its budget. *)

Theorem connection_held_bounded (settings : TimeoutSettings) (es : list ServeEvent) (s : Server) (id : Z) (t : Task) :
  js_driven settings = false → in_range settings → Z.of_nat (length es) < 2 ^ 64 →
  prompt_serve (Server_new settings) es = Some s → shutdown s = false →
  tasks s !! id = Some t → over t = false →
  let w := task_watch t in
  let age := now s - message_start (phase w) in
  (begun (phase w) = true ∨ active (phase w) = true → 0 < request_limit settings →
   age < request_limit settings + interval settings ∨ timed_out w) ∧
  (begun (phase w) = true ∨ active (phase w) = true → headers_in (phase w) = false → 0 < header_limit settings →
   age < header_limit settings + interval settings ∨ timed_out w) ∧
  match task_pc t with
  | TQueueing | TAnnouncing | TOver _ => False
  | TServing _ =>
      (0 < socket_timeout_ms w → now_ms (now s) w ≤ last_activity_ms w + socket_timeout_ms w ∨ closes_with RDestroy w) ∧
      (∀ d, closes_with RDestroy w → may_pass d s = false)
  | TSettling until => now s ≤ until ≤ now s + PUMPS_SETTLE_BUDGET
  | TFlushing until _ => now s ≤ until ≤ now s + TAKEOVER_FLUSH_BUDGET
  | TFarewell until => now s ≤ until ≤ now s + FAREWELL_BUDGET
  end.
Proof.
  intros Hjs Hr Hl Hp Hsd Ht Ho w age.
  destruct (prompt_held settings Hjs Hr _ _ _ Hp (held_start_all settings Hjs)) as (_ & c & (Hc & Hck & _) & Hh).
  destruct (Hck Hsd) as [_ Hi]. destruct (Hh id t Ht Ho) as [H1 H2 H3 H4 H5 H6 H7].
  pose proof (tasks_ok _ _ _ (prompt_runs _ _ _ Hp) Hl id t Ht) as Hok. split_and!.
  - intros Hb Hlim. assert (active (phase w) = true ∨ timed_out w) as [Ha|] by (destruct Hb; [by apply Hok|by left]); [|by right].
    left. specialize (H3 Ha Hlim). subst w age. lia.
  - intros Hb Hhd Hlim. assert (active (phase w) = true ∨ timed_out w) as [Ha|] by (destruct Hb; [by apply Hok|by left]); [|by right].
    left. specialize (H4 Ha Hhd Hlim). subst w age. lia.
  - destruct (task_pc t) as [| |sv|until|until takeover|until|how] eqn:Ep; try exact H7; [|unfold over in Ho; by rewrite Ep in Ho]. split.
    + intros Hto. destruct (fired w) eqn:Ef; [right; by apply H6|left].
      specialize (H7 (Z.min u64_max (last_activity_ms w + socket_timeout_ms w))).
      unfold deadline_ms in H7. fold w in H7. rewrite Ef in H7. replace (socket_timeout_ms w =? 0) with false in H7 by lia.
      specialize (H7 eq_refl). lia.
    + intros d Hd. apply not_true_is_false. unfold may_pass. rewrite andb_true_iff, bool_decide_eq_true.
      intros [_ Hw]. specialize (Hw id t Ht). unfold task_waits in Hw. rewrite Ep in Hw.
      destruct (serve_turn _ _ _ _ _ _) eqn:Et; try done. by apply closing_turn in Et.
Qed.
