(* ===== verification/HttpServeEnds.v ===== *)
(** * HttpServeEnds: how a server's connections end, and how they are counted *)

From S2P Require Import Prelude RustStd HttpConn HttpServe HttpServeSpec.

Open Scope Z_scope.

(** ** A close that is asked for *)

Lemma moved_closes least s e t t' :
  moved s e t t' → closes_with least (task_watch t) → closes_with least (task_watch t').
Proof.
  intros Hm Hc. destruct Hm as [r0 _ Hf|id a -> _|request w g Hsv Hhd|g Hg|Hp|h r _|p w Hp Hw Hcr|p Hp Hcr|
    r sv w sv' to_js Hp Ht|r sv reason p Hp Ht Hp'|p Hp]; try exact Hc; cbn [task_watch set_watch set_messages set_task_pc].
  - unfold closes_with. by rewrite report_close.
  - destruct a; cbn; [by apply closes_with_close|done|done].
  - destruct (headers_complete_spec _ _ _ _ _ _ Hhd) as (_ & E & _). unfold closes_with. by rewrite E.
  - by apply expire_keeps.
  - unfold resume_wait in Hw. destruct (resumed _); [|done]. by injection Hw as <-.
  - by eapply again_keeps.
Qed.

Lemma serve_turn_closed js sd n r w sv reason :
  serve_turn js sd n r w sv = TurnEnd (EClosed reason) → close_reason w = Some reason ∧ reason ≠ REnd.
Proof.
  unfold serve_turn. destruct (conn_done r); [done|]. destruct (if takeable sv then taken r else None) as [[|]|]; try done.
  destruct (_ && negb (shutdown_waiting sv)); [done|]. destruct (_ && negb (awaiting_dispatch w)); [done|].
  unfold closed. destruct (close_reason w) as [cr|]; [destruct (reason_ge _ _)|].
  - destruct cr; try done; intros [= <-]; done.
  - destruct (next_timeout n w) as [[]|]; [destruct (socket_timed_out _ _ _ _)|destruct (flush_notified r)]; done.
  - destruct (next_timeout n w) as [[]|]; [destruct (socket_timed_out _ _ _ _)|destruct (flush_notified r)]; done.
Qed.

(** How a connection that was closed with [asked] is left. *)

Definition left_as (asked : CloseReason) (t : Task) : Prop :=
  match task_pc t with
  | TFarewell _ => reason_ge RRequestTimeout asked = true
  | TOver (LClosed r how) =>
      reason_ge r asked = true ∧ r ≠ REnd ∧ (how = FReset ↔ r = RReset) ∧ (how = FAnswer408 → r = RRequestTimeout)
  | TOver (LUnserved how) =>
      ∃ r, close_reason (task_watch t) = Some r ∧ reason_ge r asked = true ∧
      (how = FReset ↔ r = RReset) ∧ how ≠ FAnswer408
  | _ => True
  end.

Lemma finish_close_spec r b :
  (finish_close r b = FReset ↔ r = RReset) ∧ (finish_close r b = FAnswer408 ↔ r = RRequestTimeout ∧ b = true).
Proof. destruct r, b; cbn; split; split; try done; by intros [? ?]. Qed.

Lemma close_unserved_spec w r :
  close_reason w = Some r → (close_unserved w = FReset ↔ r = RReset) ∧ close_unserved w ≠ FAnswer408.
Proof. intros E. unfold close_unserved. rewrite E. destruct r; cbn; split; try split; done. Qed.

Lemma left_as_over asked t t' :
  over t = true → task_pc t' = task_pc t → close_reason (task_watch t') = close_reason (task_watch t) →
  left_as asked t → left_as asked t'.
Proof. intros _ Ep Ec. unfold left_as. by rewrite Ep, Ec. Qed.

Lemma moved_over s e t t' :
  moved s e t t' → over t = true →
  task_pc t' = task_pc t ∧ announced t' = announced t ∧ close_reason (task_watch t') = close_reason (task_watch t) ∧
  failure (task_watch t') = failure (task_watch t).
Proof.
  intros Hm Ho. destruct Hm as [r0 E Hf|id a -> E|request w g E Hhd|g Hg|E|h r E|p w E Hw Hcr|p E Hcr|
    r sv w sv' to_js E Ht|r sv reason p E Ht Hp'|p E]; try done; try congruence; unfold over, served in *;
    try (by rewrite E in Ho).
  - by destruct (task_pc t).
  - by destruct p as [| | | | | |[]], (task_pc t).
Qed.

(** ** Ids *)

Lemma next_id_grows s e s' : serve_step s e = Some s' → next_id s ≤ next_id s'.
Proof.
  intros Hs. destruct e as [d| |id ok|id r|id e|id|id g|id a|h r k sk|limit|b|h r| |]; unfold serve_step in Hs;
    try (destruct (tasks s !! id) as [t|]; [|done]; cbn [mbind option_bind] in Hs); try (injection Hs as <-; done).
  - case_decide; [|done]. by injection Hs as <-.
  - destruct (shutdown s) in Hs; [done|]. injection Hs as <-. unfold accept, admit_conn. destruct (count_ge _ _); cbn; lia.
  - destruct (task_pc t); try done. injection Hs as <-. unfold queued, after_announcement.
    destruct ok; [|destruct (close_reason _)]; done.
  - unfold task_turn in Hs. destruct (task_pc t) as [| |sv|until|until takeover|until|how]; try done.
    + destruct (resume_wait _); [|done]. injection Hs as <-. unfold after_announcement. by destruct (close_reason _).
    + destruct (serve_turn _ _ _ _ _ _) as [| |[]]; try done; injection Hs as <-; try done. by destruct (finish_close _ _).
    + destruct (_ || _); [|done]. by injection Hs as <-.
    + destruct (negb _); [|destruct (_ || _); [|done]]; by injection Hs as <-.
    + destruct (_ || _); [|done]. by injection Hs as <-.
  - destruct (over t); [by injection Hs as <-|]. destruct (_ && _); [done|]. by injection Hs as <-.
  - destruct (served t); [|done]. unfold take_id in Hs. destruct (headers_complete _ _ _ _) as [w g]. injection Hs as <-. cbn. lia.
  - case_decide; [|done]. by injection Hs as <-.
  - destruct (over t); by injection Hs as <-.
  - injection Hs as <-. unfold expire_connections. by destruct (_ && _).
  - destruct (next_check s); [|done]. case_decide; [|done]. injection Hs as <-. unfold check_tick, expire_connections. by destruct (_ && _).
Qed.

Definition ids_taken (s : Server) : Prop := map_Forall (λ id _, id ≤ next_id s) (tasks s).

Lemma ids_run settings es s : serve_run (Server_new settings) es = Some s → ids_taken s.
Proof.
  revert es s. apply (serve_run_ind (λ _ s, ids_taken s)); [intros id t; cbn; by rewrite lookup_empty|].
  intros es s e s' _ Hs Hi id t' Ht'. pose proof (next_id_grows _ _ _ Hs).
  destruct (step_moves _ _ _ Hs id t' Ht') as [Ht|[(t & Ht & _)|[_ ?]]]; [| |done]; pose proof (Hi id _ Ht); cbn in *; lia.
Qed.

(** ** A close that is asked for, to the end *)

Definition closing_as (asked : CloseReason) (t : Task) : Prop :=
  left_as asked t ∧ (over t = false → closes_with asked (task_watch t)).

Lemma moved_left asked s e t t' :
  moved s e t t' → over t = false → closing_as asked t → left_as asked t'.
Proof.
  intros Hm Ho [Hl Hc]. specialize (Hc Ho).
  destruct Hm as [r0 E Hf|i a -> E|request w g E Hhd|g Hg|E|h r E|p w E Hw Hcr|p E Hcr|
    r sv w sv' to_js E Ht|r sv reason p E Ht Hp'|p E]; unfold left_as, over in *; cbn [task_pc set_watch set_messages set_task_pc].
  - by destruct (task_pc t).
  - by destruct (task_pc t).
  - by destruct (task_pc t).
  - by destruct (task_pc t).
  - done.
  - destruct (expire_keeps h r s t) as (_ & -> & _). by destruct (task_pc t).
  - destruct p as [| | | | | |how]; try done. destruct Hcr as [[cr Ec] ->]. exists cr. split; [exact Ec|].
    unfold resume_wait in Hw. destruct (resumed _); [|done]. injection Hw as <-.
    destruct Hc as (r & Er & Hge). cbn in Ec. assert (r = cr) as -> by congruence. split; [done|]. by apply close_unserved_spec.
  - destruct p as [| | | | | |how]; try done. destruct Hcr as [[cr Ec] ->]. exists cr. split; [exact Ec|].
    destruct Hc as (r & Er & Hge). assert (r = cr) as -> by congruence. split; [done|]. by apply close_unserved_spec.
  - done.
  - apply serve_turn_closed in Ht as [Ec Hne]. destruct Hc as (r0 & Er & Hge). assert (r0 = reason) as -> by congruence.
    destruct (finish_close_spec reason (may_answer (task_watch t))) as [H1 H2]. subst p.
    destruct (finish_close _ _); [|assert (reason = RRequestTimeout) as -> by tauto; done|]; split_and!; try done.
  - destruct p as [| | | | | |[]], (task_pc t); try done. destruct E as [-> ->]. by split_and!.
Qed.

Lemma moved_closing asked s e t t' : moved s e t t' → closing_as asked t → closing_as asked t'.
Proof.
  intros Hm Hc. destruct (over t) eqn:Ho.
  - destruct (moved_over _ _ _ _ Hm Ho) as (Ep & _ & Ec & _). split.
    + apply (left_as_over asked t); [done..|apply Hc].
    + unfold over in *. by rewrite Ep, Ho.
  - split; [by eapply moved_left|]. intros _. eapply moved_closes; [exact Hm|by apply Hc].
Qed.

(** A connection's id is not given again, so what holds of it at some point
    and is kept by what it goes through holds until the end. *)

Lemma run_task (P : Task → Prop) s es s' id t t' :
  (∀ s e t t', moved s e t t' → P t → P t') →
  serve_run s es = Some s' → id ≤ next_id s → tasks s !! id = Some t → P t → tasks s' !! id = Some t' → P t'.
Proof.
  intros Hm Hr Hn Ht Hp.
  enough (id ≤ next_id s' ∧ ∀ t', tasks s' !! id = Some t' → P t') as [_ H] by apply H.
  revert es s' Hr. apply (serve_run_ind (λ _ s', id ≤ next_id s' ∧ ∀ t', tasks s' !! id = Some t' → P t')).
  { split; [done|]. intros u Hu. by simplify_eq. }
  intros es s1 e s2 _ Hs [Hi HP]. split; [etrans; [exact Hi|by eapply next_id_grows]|].
  intros t2 Ht2. destruct (step_moves _ _ _ Hs id t2 Ht2) as [E|[(u & E & Hmv)|[(E & _) _]]].
  - by apply HP.
  - eapply Hm; [exact Hmv|by apply HP].
  - lia.
Qed.

Definition turns_left (sv : Serve) : nat :=
  if shutting_down sv then 0 else if shutdown_waiting sv then 1 else 2.

Lemma quiet_closing js sd n w sv r :
  close_reason w = Some r → reason_ge r RDestroy = true →
  serve_turn js sd n quiet w sv = TurnEnd (EClosed r) ∨
  ∃ sv', serve_turn js sd n quiet w sv = TurnAgain w sv' [] ∧ (turns_left sv' < turns_left sv)%nat.
Proof.
  intros Hr Hge. unfold serve_turn, turns_left. cbn.
  replace (if takeable sv then None else None) with (@None (option Z)) by (by destruct (takeable sv)).
  destruct (shutting_down sv) eqn:E1, (shutdown_waiting sv) eqn:E2; cbn; rewrite ?andb_false_r; cbn.
  - left. unfold closed. rewrite Hr, Hge. by destruct r.
  - left. unfold closed. rewrite Hr, Hge. by destruct r.
  - destruct (negb (awaiting_dispatch w)); [right; eexists; split; [reflexivity|]; cbn; lia|].
    left. unfold closed. rewrite Hr. by destruct r.
  - destruct sd; cbn; [right; eexists; split; [reflexivity|]; destruct (js && _); cbn; rewrite ?E1; lia|].
    left. unfold closed. rewrite Hr. by destruct r.
Qed.

(** The peer is being left, or has been, for [r], with [how]. *)

Definition leaving (r : CloseReason) (how : Farewell) (t : Task) : Prop :=
  match task_pc t with
  | TFarewell _ => r = RRequestTimeout ∧ how = FAnswer408
  | TOver (LClosed r' how') => r' = r ∧ how' = how
  | _ => False
  end.

Lemma quiet_turns_end s id t sv r :
  tasks s !! id = Some t → task_pc t = TServing sv → close_reason (task_watch t) = Some r → reason_ge r RDestroy = true →
  ∃ n s' t', (n ≤ S (turns_left sv))%nat ∧ serve_run s (replicate n (VTurn id quiet)) = Some s' ∧ tasks s' !! id = Some t' ∧
    leaving r (finish_close r (may_answer (task_watch t))) t'.
Proof.
  remember (turns_left sv) as m eqn:Em. revert s t sv Em.
  induction m as [m IH] using lt_wf_ind; intros s t sv -> Ht Hp Hr Hge.
  destruct (quiet_closing (js_driven (fixed (timeouts s))) (shutdown s) (now s) (task_watch t) sv r Hr Hge) as [E|(sv' & E & Hlt)].
  - exists 1%nat. cbn. rewrite Ht. cbn. unfold task_turn. rewrite Hp, E.
    destruct (finish_close_spec r (may_answer (task_watch t))) as [_ H2].
    destruct (finish_close _ _); do 2 eexists; (split; [lia|split; [reflexivity|split; [apply lookup_insert_eq|]]]); try done.
    split; [by apply (proj1 H2)|done].
  - set (t1 := set_task_pc (TServing sv') (set_watch (task_watch t) t)).
    destruct (IH _ Hlt (tell [] (put_task id t1 s)) t1 sv') as (n & s' & t' & Hn & Hrun & Ht' & Hp'); try done.
    { cbn. by rewrite lookup_insert_eq. }
    exists (S n), s', t'. split; [lia|]. split; [|done]. cbn. rewrite Ht. cbn. unfold task_turn. by rewrite Hp, E.
Qed.

(** A connection ends the way it was asked to.  Once it is asked to close,
    no later request weakens that: while it lasts it is closing with a reason
    at least as strong, and if that closes it, the peer is reset exactly for a
    reset and answered 408 only after a request timed out; a connection that
    was never served is reset or dropped.  And a served connection that is to
    be destroyed, timed out or reset is left for that reason after three turns
    of its task at most, with nothing else to wait for: the peer is answered
    408 exactly when a request timed out and no response had begun. *)

Lemma connection_ends_as_asked (settings : TimeoutSettings) (es es' : list ServeEvent) (s s' : Server)
    (id : Z) (asked : CloseReason) (t t' : Task) :
  serve_run (Server_new settings) (es ++ [VAsk id (AClose asked)]) = Some s →
  tasks s !! id = Some t → over t = false → (∀ until, task_pc t ≠ TFarewell until) →
  serve_run s es' = Some s' → tasks s' !! id = Some t' →
  (over t' = false → closes_with asked (task_watch t')) ∧ left_as asked t' ∧
  (∀ sv r, task_pc t' = TServing sv → close_reason (task_watch t') = Some r → r ≠ REnd →
   ∃ n s'' t'' how, (n ≤ 3)%nat ∧ serve_run s' (replicate n (VTurn id quiet)) = Some s'' ∧ tasks s'' !! id = Some t'' ∧
     leaving r how t'' ∧ (how = FReset ↔ r = RReset) ∧
     (how = FAnswer408 ↔ r = RRequestTimeout ∧ response_begun (phase (task_watch t')) = false)).
Proof.
  intros Hr Ht Ho Hnf Hr' Ht'.
  assert (closing_as asked t') as Hc.
  { assert (id ≤ next_id s) as Hn by (pose proof (ids_run _ _ _ Hr id t Ht); done).
    eapply run_task; [by apply moved_closing|exact Hr'|exact Hn|exact Ht| |exact Ht'].
    split; [unfold left_as, over in *; destruct (task_pc t) eqn:Ep; try done; by destruct (Hnf until)|]. intros _.
    rewrite serve_run_app in Hr. destruct (serve_run _ es) as [s0|]; [|done]. cbn in Hr.
    destruct (tasks s0 !! id) as [t0|] eqn:Et0; [|done]. cbn in Hr. destruct (over t0) eqn:Eo; cbn in Hr; injection Hr as <-; [congruence|].
    cbn in Ht. rewrite lookup_insert_eq in Ht. injection Ht as <-. apply close_closes. }
  split_and!; [apply Hc|apply Hc|].
  intros sv r Hp Hcr Hne. destruct (quiet_turns_end s' id t' sv r Ht' Hp Hcr) as (n & s'' & t'' & Hn & Hx & Hy & Hz); [by destruct r|].
  exists n, s'', t'', (finish_close r (may_answer (task_watch t'))).
  destruct (finish_close_spec r (may_answer (task_watch t'))) as [H1 H2]. unfold may_answer in H2 at 2. rewrite negb_true_iff in H2.
  split_and!; try done. unfold turns_left in Hn. repeat case_match; lia.
Qed.

(** ** The count, and what JS is told *)

Definition live (m : gmap Z Task) : Z := Z.of_nat (size (filter (λ kt, over kt.2 = false) m)).

(** The announcements of connection [id], and the events that give it back. *)

Definition about (id : Z) (e : ServerEvent) : bool :=
  match e with
  | SEConnection c | SEConnectionClosed c _ | SEUpgrade _ (Some c) => c =? id
  | _ => false
  end.

(** What JS has been told about a connection. *)

Definition told (id : Z) (t : Task) : list ServerEvent :=
  if announced t then
    SEConnection id ::
    match task_pc t with
    | TOver (LTaken takeover) => [SEUpgrade takeover (Some id)]
    | TOver _ => [SEConnectionClosed id (failure (task_watch t))]
    | _ => []
    end
  else [].

Record accounted (s : Server) : Prop := {
  acc_live : connections (timeouts s) = live (tasks s);
  acc_told id : filter (λ e, about id e = true) (queue s) = match tasks s !! id with Some t => told id t | None => [] end;
  acc_ids : ids_taken s
}.

Definition counts (t : Task) : Z := if over t then 0 else 1.

Lemma live_new id t m : m !! id = None → live (<[id := t]> m) = live m + counts t.
Proof.
  intros Hm. unfold live, counts. destruct (over t) eqn:Eo.
  - rewrite map_filter_insert_not'; [lia|cbn; congruence|intros y Hy; congruence].
  - rewrite map_filter_insert_True by done. rewrite map_size_insert_None; [lia|].
    rewrite map_lookup_filter_None. by left.
Qed.

Lemma live_put id t t' m : m !! id = Some t → live (<[id := t']> m) = live m - counts t + counts t'.
Proof.
  intros Hm. rewrite <-(insert_delete_id m id t Hm) at 2. rewrite <-insert_delete_eq.
  rewrite !live_new by apply lookup_delete_eq. lia.
Qed.

Lemma live_fmap f m : (∀ t, over (f t) = over t) → live (f <$> m) = live m.
Proof.
  intros Hf. unfold live. rewrite map_filter_fmap, map_size_fmap. do 2 f_equal. apply map_filter_ext.
  intros id t _. cbn. by rewrite Hf.
Qed.

Lemma accounted_put s e s' id t t' l :
  serve_step s e = Some s' → accounted s → tasks s !! id = Some t → tasks s' = <[id := t']> (tasks s) →
  connections (timeouts s') = connections (timeouts s) - counts t + counts t' → queue s' = queue s ++ l →
  (∀ id', id' ≠ id → filter (λ e, about id' e = true) l = []) →
  told id t' = told id t ++ filter (λ e, about id e = true) l → accounted s'.
Proof.
  intros Hs [H1 H2 H3] Ht Et Ec Eq Hl Htd. split.
  - rewrite Ec, Et, H1. by rewrite (live_put id t t').
  - intros id'. rewrite Eq, filter_app, H2, Et. destruct (decide (id' = id)) as [->|Hne].
    + by rewrite Ht, lookup_insert_eq.
    + by rewrite Hl, lookup_insert_ne, app_nil_r.
  - intros i u. rewrite Et, lookup_insert_Some. pose proof (next_id_grows _ _ _ Hs). intros [[<- <-]|[_ Hu]].
    + pose proof (H3 id t Ht). cbn in *. lia.
    + pose proof (H3 i u Hu). cbn in *. lia.
Qed.

(** A step that leaves a connection where it is. *)

Lemma accounted_stay s e s' id t t' :
  serve_step s e = Some s' → accounted s → tasks s !! id = Some t → tasks s' = <[id := t']> (tasks s) →
  timeouts s' = timeouts s → queue s' = queue s → task_pc t' = task_pc t → announced t' = announced t →
  (over t = true → failure (task_watch t') = failure (task_watch t)) → accounted s'.
Proof.
  intros Hs Hacc Ht Et Eo Eq Ep Ea Ef. eapply (accounted_put s e s' id t t' []); try done.
  - rewrite Eo. unfold counts, over. rewrite Ep. lia.
  - by rewrite app_nil_r.
  - rewrite app_nil_r. unfold told. rewrite Ep, Ea. destruct (announced t); [|done]. unfold over in Ef.
    destruct (task_pc t) as [| | | | | |[]]; try done; by rewrite Ef.
Qed.

Lemma accounted_finish s e id t how :
  serve_step s e = Some (finish id t how s) → ∀ t0, accounted s → tasks s !! id = Some t0 → over t0 = false →
  announced t = announced t0 → accounted (finish id t how s).
Proof.
  intros Hs t0 Hacc Ht Ho Ea. eapply (accounted_put s e _ id t0); [exact Hs|exact Hacc|exact Ht|reflexivity| |reflexivity| |].
  - cbn. unfold counts. rewrite Ho. cbn. lia.
  - intros id' Hne. destruct how, (announced t); try done; (rewrite filter_cons_False; [done|]; cbn; lia).
  - unfold told. rewrite <-Ea. cbn. unfold over in Ho. destruct how, (announced t); try done;
      rewrite filter_cons_True by (cbn; lia); by destruct (task_pc t0).
Qed.

(** A step that takes a live connection on, and tells JS nothing that counts. *)

Lemma accounted_on s e s' id t t' l :
  serve_step s e = Some s' → accounted s → tasks s !! id = Some t → tasks s' = <[id := t']> (tasks s) →
  timeouts s' = timeouts s → queue s' = queue s ++ l → (∀ i, filter (λ e, about i e = true) l = []) →
  over t = false → over t' = false → announced t' = announced t → accounted s'.
Proof.
  intros Hs Hacc Ht Et Eo Eq Hl Ho Ho' Ea. eapply (accounted_put s e s' id t t' l); try done.
  - rewrite Eo. unfold counts. rewrite Ho, Ho'. lia.
  - rewrite Hl, app_nil_r. unfold told, over in *. rewrite Ea. destruct (announced t); [|done].
    by destruct (task_pc t), (task_pc t').
Qed.

Lemma accounted_after s e id t t0 :
  serve_step s e = Some (after_announcement id t s) → accounted s → tasks s !! id = Some t0 → over t0 = false →
  announced t = announced t0 → accounted (after_announcement id t s).
Proof.
  intros Hs Hacc Ht Ho Ea. revert Hs. unfold after_announcement. destruct (close_reason _); intros Hs.
  - by eapply accounted_finish.
  - eapply (accounted_on s e _ id t0 _ []); [exact Hs|done|exact Ht|reflexivity|done| |done|done|done|exact Ea].
    cbn. by rewrite app_nil_r.
Qed.

Lemma accounted_turn s id r s' t :
  serve_step s (VTurn id r) = Some s' → task_turn id r t s = Some s' → accounted s → tasks s !! id = Some t → accounted s'.
Proof.
  intros Hs Hn Hacc Ht. assert (over t = false) as Ho by (unfold task_turn, over in *; by destruct (task_pc t)).
  unfold task_turn in Hn. destruct (task_pc t) as [| |sv|until|until takeover|until|how] eqn:Ep; try done.
  - destruct (resume_wait _) as [w|]; [|done]. injection Hn as <-. by eapply accounted_after.
  - destruct (serve_turn _ _ _ _ _ _) as [|w sv' to_js|[|reason|takeover]] eqn:Et; try done; injection Hn as <-.
    + eapply (accounted_on s _ _ id t _ to_js); [exact Hs|done|exact Ht|reflexivity|done|reflexivity| |done|done|done].
      intros i. destruct (serve_turn_again _ _ _ _ _ _ _ _ _ Et) as [[_ ->]|(f & w1 & _ & E)]; [done|].
      unfold socket_timed_out in E. destruct (_ && _); by injection E as -> ->.
    + eapply (accounted_on s _ _ id t _ []); [exact Hs|done|exact Ht|reflexivity|done|cbn; by rewrite app_nil_r|done..].
    + destruct (finish_close _ _); [by eapply accounted_finish| |by eapply accounted_finish].
      eapply (accounted_on s _ _ id t _ []); [exact Hs|done|exact Ht|reflexivity|done|cbn; by rewrite app_nil_r|done..].
    + eapply (accounted_on s _ _ id t _ []); [exact Hs|done|exact Ht|reflexivity|done|cbn; by rewrite app_nil_r|done..].
  - destruct (_ || _); [|done]. injection Hn as <-. by eapply accounted_finish.
  - destruct (negb _); [|destruct (_ || _); [|done]]; injection Hn as <-; by eapply accounted_finish.
  - destruct (_ || _); [|done]. injection Hn as <-. by eapply accounted_finish.
Qed.

(** Steps that touch no task's place. *)

Lemma accounted_tasks s e s' f :
  serve_step s e = Some s' → accounted s → tasks s' = f <$> tasks s → connections (timeouts s') = connections (timeouts s) →
  queue s' = queue s → (∀ t, over (f t) = over t ∧ ∀ id, told id (f t) = told id t) → accounted s'.
Proof.
  intros Hs [H1 H2 H3] Et Ec Eq Hf. split.
  - rewrite Ec, Et, live_fmap; [done|apply Hf].
  - intros id. rewrite Eq, H2, Et, lookup_fmap. destruct (tasks s !! id); cbn; [|done]. symmetry. apply Hf.
  - intros id t. rewrite Et, lookup_fmap_Some. intros (u & _ & Hu). pose proof (next_id_grows _ _ _ Hs).
    pose proof (H3 id u Hu). cbn in *. lia.
Qed.

Lemma accounted_same s e s' :
  serve_step s e = Some s' → accounted s → tasks s' = tasks s → connections (timeouts s') = connections (timeouts s) →
  queue s' = queue s → accounted s'.
Proof. intros. eapply (accounted_tasks s e s' (λ t, t)); try done. by rewrite map_fmap_id. Qed.

Lemma expire_told h r s t : over (expire_watch h r s t) = over t ∧ ∀ id, told id (expire_watch h r s t) = told id t.
Proof.
  destruct (expire_keeps h r s t) as (_ & Ep & Ea & _). unfold over, told. rewrite Ep, Ea. split; [done|].
  intros id. destruct (task_pc t) as [| | | | | |how] eqn:E; try done. unfold expire_watch, over. by rewrite E.
Qed.

Lemma accounted_expire s e s' h r :
  serve_step s e = Some s' → accounted s → tasks s' = tasks (expire_connections h r s) →
  timeouts s' = timeouts s → queue s' = queue s → accounted s'.
Proof.
  intros Hs Hacc Et Eo Eq. unfold expire_connections in Et. destruct (_ && _).
  - eapply accounted_same; try done. by rewrite Eo.
  - eapply (accounted_tasks s e s' (expire_watch h r s)); try done; [by rewrite Eo|apply expire_told].
Qed.

Lemma accounted_accept s s' : serve_step s VAccept = Some s' → accounted s →
  accounted s' ∧ live (tasks s') = live (tasks s) + (if count_ge (live (tasks s)) (max_connections (timeouts s)) then 0 else 1).
Proof.
  intros Hs Hacc. pose proof Hs as Hs'. cbn in Hs'. destruct (shutdown s); [done|]. injection Hs' as E.
  unfold accept, admit_conn in E. pose proof Hacc as [H1 H2 H3]. cbn [max_connections set_connections] in E. rewrite H1 in E.
  destruct (count_ge _ _).
  - assert (tasks s' = tasks s) as Et by (by subst s'). rewrite Et. split; [|lia]. split.
    + subst s'. cbn. lia.
    + intros id. rewrite Et, <-H2. subst s'. cbn. rewrite filter_app. destruct (js_driven _); cbn; by rewrite app_nil_r.
    + subst s'. exact H3.
  - assert (tasks s !! (next_id s + 1) = None) as Hnew.
    { apply eq_None_not_Some. intros [t Ht]. pose proof (H3 _ _ Ht). cbn in *. lia. }
    subst s'. cbn [tasks put_task set_tasks take_id set_timeouts fst snd].
    match goal with |- context [<[_ := ?t]> _] => set (t1 := t) end.
    assert (counts t1 = 1) as Hc by (unfold t1, counts, over; cbn; by destruct (js_driven _)).
    rewrite live_new, Hc by done. split; [|done]. split.
    + cbn. fold t1. rewrite live_new by done. lia.
    + intros id. cbn. fold t1. rewrite H2. destruct (decide (id = next_id s + 1)) as [->|Hne].
      * by rewrite Hnew, lookup_insert_eq.
      * by rewrite lookup_insert_ne.
    + intros id t. cbn. fold t1. rewrite lookup_insert_Some. intros [[<- _]|[_ Ht]]; [lia|].
      pose proof (H3 _ _ Ht). cbn in *. lia.
Qed.

(** A connection that waits to be announced has not been. *)

Definition unannounced (t : Task) : Prop := task_pc t = TQueueing → announced t = false.

Lemma moved_unannounced s e t t' : moved s e t t' → unannounced t → unannounced t'.
Proof.
  unfold unannounced. intros Hm Hu. destruct Hm as [r0 E Hf|i a -> E|request w g E Hhd|g Hg|E|h r E|p w E Hw Hcr|p E Hcr|
      r sv w sv' to_js E Ht|r sv reason p E Ht Hp'|p E]; try done; cbn.
  - destruct (expire_keeps h r s t) as (_ & -> & -> & _). done.
  - by destruct p.
  - by destruct p.
  - subst p. by destruct (finish_close _ _).
  - by destruct p.
Qed.

Lemma run_unannounced settings es s :
  serve_run (Server_new settings) es = Some s → map_Forall (λ _, unannounced) (tasks s).
Proof.
  revert es s. apply (serve_run_ind (λ _ s, map_Forall (λ _, unannounced) (tasks s))); [intros id t; cbn; by rewrite lookup_empty|].
  intros es s e s' _ Hs Hu id t' Ht'. destruct (step_moves _ _ _ Hs id t' Ht') as [Ht|[(t & Ht & Hm)|[(_ & _ & E & _) _]]].
  - by apply (Hu id).
  - eapply moved_unannounced; [exact Hm|by apply (Hu id)].
  - by intros _.
Qed.

Lemma accounted_step s e s' :
  serve_step s e = Some s' → map_Forall (λ _, unannounced) (tasks s) → accounted s → accounted s'.
Proof.
  intros Hs Hu Hacc. pose proof Hs as Hn.
  destruct e as [d| |id ok|id r|id e|id|id g|id a|h r k sk|limit|b|h r| |]; unfold serve_step in Hn;
    try (destruct (tasks s !! id) as [t|] eqn:Ht; [|done]; cbn [mbind option_bind] in Hn);
    try (injection Hn as <-; by eapply accounted_same).
  - case_decide; [|done]. injection Hn as <-. by eapply accounted_same.
  - by eapply accounted_accept.
  - destruct (task_pc t) eqn:Ep; try done. injection Hn as <-.
    assert (over t = false) as Ho by (unfold over; by rewrite Ep). unfold queued in *. destruct ok; [|by eapply accounted_after].
    eapply (accounted_put s _ _ id t _ [SEConnection id]); [exact Hs|done|exact Ht|reflexivity| |reflexivity| |].
    + unfold counts. rewrite Ho. cbn. lia.
    + intros id' Hne. rewrite filter_cons_False; [done|]. cbn. lia.
    + rewrite filter_cons_True by (cbn; lia). unfold told. cbn. by rewrite (Hu id t Ht Ep).
  - by eapply accounted_turn.
  - destruct (over t) eqn:Ho; [injection Hn as <-; by eapply accounted_same|]. destruct (_ && _); [done|]. injection Hn as <-.
    eapply (accounted_stay s _ _ id t); [exact Hs|done|exact Ht|reflexivity|done|done|done|done|congruence].
  - destruct (served t) eqn:Esv; [|done]. unfold take_id in Hn. destruct (headers_complete _ _ _ _) as [w g]. injection Hn as <-.
    eapply (accounted_stay s _ _ id t); [exact Hs|done|exact Ht|reflexivity|done|done|done|done|].
    unfold over, served in *. by destruct (task_pc t).
  - case_decide; [|done]. injection Hn as <-.
    eapply (accounted_stay s _ _ id t); [exact Hs|done|exact Ht|reflexivity|done..].
  - destruct (over t) eqn:Ho; injection Hn as <-; [by eapply accounted_same|].
    eapply (accounted_stay s _ _ id t); [exact Hs|done|exact Ht|reflexivity|done|done|done|done|congruence].
  - injection Hn as <-. eapply accounted_expire; [exact Hs|done|reflexivity|..]; unfold expire_connections; by destruct (_ && _).
  - destruct (next_check s); [|done]. case_decide; [|done]. injection Hn as <-.
    eapply accounted_expire; [exact Hs|done|reflexivity|..]; unfold check_tick, expire_connections; by destruct (_ && _).
Qed.

Lemma run_accounted settings es s : serve_run (Server_new settings) es = Some s → accounted s.
Proof.
  revert es s. apply (serve_run_ind (λ _ s, accounted s)).
  - split; [done|intros id; cbn; by rewrite lookup_empty|intros id t; cbn; by rewrite lookup_empty].
  - intros es s e s' Hr Hs Hacc. eapply accounted_step; [exact Hs|by eapply run_unannounced|done].
Qed.

(** A server's connections are accounted for.  The count [maxConnections]
    is held against is the number of connections whose task is not over, so a
    connection is taken exactly when that number is below the limit; and of
    every connection JS hears, in this order and once each, that it is there
    and that it is closed or handed over, the second as soon as its task is
    over, or nothing at all. *)

Lemma connections_accounted (settings : TimeoutSettings) (es : list ServeEvent) (s : Server) :
  serve_run (Server_new settings) es = Some s →
  connections (timeouts s) = live (tasks s) ∧
  (∀ id, filter (λ e, about id e = true) (queue s) = match tasks s !! id with Some t => told id t | None => [] end) ∧
  (∀ s', serve_step s VAccept = Some s' →
   live (tasks s') = live (tasks s) + (if count_ge (live (tasks s)) (max_connections (timeouts s)) then 0 else 1)).
Proof.
  intros Hr. pose proof (run_accounted _ _ _ Hr) as Hacc. split_and!.
  - by apply acc_live.
  - by apply acc_told.
  - intros s' Hs. by apply accounted_accept.
Qed.

(** C32. A connection ends the way it was asked to, and is accounted for.  Once
    it is asked to close, while it is not over nor in its farewell, no later
    request weakens that: while it lasts it is
    closing with a reason at least as strong, and if that closes it, the peer
    is reset exactly for a reset and answered 408 only after a request timed
    out; a connection that was never served is reset or dropped.  A served
    connection that is to be destroyed, timed out or reset is not served any
    more after three turns of its task at most in which nothing else is ready:
    it is over, or a 408 is being written to its peer, which it is exactly
    when a request timed out and no response had begun.  And the count
    [maxConnections] is held against is the number of connections whose task
    is not over, so a connection is taken exactly when that number is below
    the limit.  Of a connection that is announced JS hears, in this order and
    once each, that it is there and that it is closed or handed over, the
    second as soon as its task is over; of any other, as all of [oam.serve]'s
    are, it hears nothing. *)

Theorem connections_end_and_count (settings : TimeoutSettings) (es : list ServeEvent) (s : Server) :
  (∀ before es' s' id asked t t',
     es = before ++ [VAsk id (AClose asked)] → serve_run (Server_new settings) es = Some s →
     tasks s !! id = Some t → over t = false → (∀ until, task_pc t ≠ TFarewell until) →
     serve_run s es' = Some s' → tasks s' !! id = Some t' →
     (over t' = false → closes_with asked (task_watch t')) ∧ left_as asked t' ∧
     (∀ sv r, task_pc t' = TServing sv → close_reason (task_watch t') = Some r → r ≠ REnd →
      ∃ n s'' t'' how, (n ≤ 3)%nat ∧ serve_run s' (replicate n (VTurn id quiet)) = Some s'' ∧ tasks s'' !! id = Some t'' ∧
        leaving r how t'' ∧ (how = FReset ↔ r = RReset) ∧
        (how = FAnswer408 ↔ r = RRequestTimeout ∧ response_begun (phase (task_watch t')) = false))) ∧
  (serve_run (Server_new settings) es = Some s →
   connections (timeouts s) = live (tasks s) ∧
   (∀ id, filter (λ e, about id e = true) (queue s) = match tasks s !! id with Some t => told id t | None => [] end) ∧
   (∀ s', serve_step s VAccept = Some s' →
    live (tasks s') = live (tasks s) + (if count_ge (live (tasks s)) (max_connections (timeouts s)) then 0 else 1))).
Proof.
  split; [|apply connections_accounted]. intros before es' s' id asked t t' ->. apply connection_ends_as_asked.
Qed.
