(* ===== verification/HttpServeRun.v ===== *)
(** * HttpServeRun: runs of a server

    Concrete runs, on which the theorems of [HttpServeSpec] and [HttpServeEnds]
    are applied. *)

From S2P Require Import Prelude RustStd HttpConn HttpServe HttpServeSpec HttpServeEnds.

Open Scope Z_scope.

Definition MS : Z := NANOS_PER_MILLI.

(** The settings of [oam.serve], and of a node:http server. *)

Definition node_http : TimeoutSettings :=
  {| headers_ms := 60000; request_ms := 300000; keep_alive_ms := 6000; socket_ms := 0;
     check_interval_ms := 30000; js_driven := true |}.

(** One request, its head read 10 ms after the accept; its body goes on. *)

Definition one_request : list ServeEvent :=
  [VAccept; VTick (10 * MS); VReport 2 (RRead (PReady 120)); VHead 2; VTick (5 * MS); VReport 2 (RRead (PReady 80))].

Definition state_after (settings : TimeoutSettings) (es : list ServeEvent) : Server :=
  default (Server_new settings) (serve_run (Server_new settings) es).

Definition task_after (settings : TimeoutSettings) (es : list ServeEvent) (id : Z) : Task :=
  default {| task_watch := ConnWatch_new 0 0 (ServerTimeouts_new settings) 0; announced := false;
             messages := []; task_pc := TQueueing |} (tasks (state_after settings es) !! id).

Lemma every_request_checked_witness :
  messages (task_after TimeoutSettings_default one_request 2) = [1] ∧
  (begun (phase (task_watch (task_after TimeoutSettings_default one_request 2))) = true →
   active (phase (task_watch (task_after TimeoutSettings_default one_request 2))) = true ∨
   timed_out (task_watch (task_after TimeoutSettings_default one_request 2))).
Proof.
  split; [by vm_compute|].
  apply (every_request_checked TimeoutSettings_default one_request
           (state_after TimeoutSettings_default one_request) 2 (task_after TimeoutSettings_default one_request 2));
    vm_compute; reflexivity.
Defined.

(** A client that stops in the middle of a head, two checks long. *)

Definition slow_head : list ServeEvent :=
  [VAccept; VTick (20000 * MS); VReport 2 (RRead (PReady 7)); VTick (10000 * MS); VCheck; VTick (30000 * MS); VCheck;
   VTick (25000 * MS)].

Lemma connection_held_bounded_witness :
  let s := state_after TimeoutSettings_default slow_head in
  let w := task_watch (task_after TimeoutSettings_default slow_head 2) in
  now s - message_start (phase w) = 65000 * MS ∧
  (now s - message_start (phase w) < header_limit TimeoutSettings_default + interval TimeoutSettings_default ∨ timed_out w).
Proof.
  split; [by vm_compute|].
  apply (connection_held_bounded TimeoutSettings_default slow_head (state_after TimeoutSettings_default slow_head) 2
           (task_after TimeoutSettings_default slow_head 2)).
  - reflexivity.
  - repeat constructor; vm_compute; discriminate.
  - vm_compute. reflexivity.
  - vm_compute. reflexivity.
  - vm_compute. reflexivity.
  - vm_compute. reflexivity.
  - vm_compute. reflexivity.
  - left. vm_compute. reflexivity.
  - vm_compute. reflexivity.
  - vm_compute. reflexivity.
Defined.

(** The check that comes next closes it. *)

Example slow_head_closed :
  timed_out (task_watch (task_after TimeoutSettings_default (slow_head ++ [VTick (5000 * MS); VCheck]) 2)).
Proof. exists RRequestTimeout. by vm_compute. Qed.

(** JS ends a connection, and then resets it; a later destroy changes nothing. *)

Definition opened : list ServeEvent :=
  [VAccept; VQueued 2 true; VAsk 2 AResume; VTurn 2 quiet; VReport 2 (RRead (PReady 120)); VHead 2; VAsk 2 (AClose REnd)].

Definition then_destroyed : list ServeEvent := [VAsk 2 (AClose RDestroy); VTurn 2 quiet].

(** A request that times out is answered, and the connection is counted until
    the answer is out. *)

Definition timed_out_run : list ServeEvent :=
  slow_head ++ [VTick (5000 * MS); VCheck; VTurn 2 quiet].

Example farewell_counted :
  (∃ until, task_pc (task_after TimeoutSettings_default timed_out_run 2) = TFarewell until) ∧
  connections (timeouts (state_after TimeoutSettings_default timed_out_run)) = 1 ∧
  task_pc (task_after TimeoutSettings_default (timed_out_run ++ [VTick (2000 * MS); VTurn 2 quiet]) 2) =
    TOver (LClosed RRequestTimeout FAnswer408) ∧
  connections (timeouts (state_after TimeoutSettings_default (timed_out_run ++ [VTick (2000 * MS); VTurn 2 quiet]))) = 0.
Proof. split; [eexists; by vm_compute|]. split_and!; by vm_compute. Qed.

(** Two connections under a limit of one; the first is closed. *)

Definition limited : list ServeEvent :=
  [VMaxConnections (FNumber (QArith_base.inject_Z 1)); VAccept; VAccept; VQueued 2 true; VAsk 2 AResume; VTurn 2 quiet;
   VAsk 2 (AClose RDestroy); VTurn 2 quiet].

Lemma connections_end_and_count_witness :
  (let t := task_after node_http (opened ++ [VAsk 2 (AClose RReset)] ++ then_destroyed) 2 in
   task_pc t = TOver (LClosed RReset FReset) ∧ left_as RReset t) ∧
  queue (state_after node_http limited) = [SEDrop; SEConnection 2; SEConnectionClosed 2 None] ∧
  connections (timeouts (state_after node_http limited)) = live (tasks (state_after node_http limited)).
Proof.
  split; [split; [by vm_compute|]|split; [by vm_compute|]].
  - apply (proj1 (connections_end_and_count node_http (opened ++ [VAsk 2 (AClose RReset)])
             (state_after node_http (opened ++ [VAsk 2 (AClose RReset)]))) opened then_destroyed
             (state_after node_http (opened ++ [VAsk 2 (AClose RReset)] ++ then_destroyed)) 2 RReset
             (task_after node_http (opened ++ [VAsk 2 (AClose RReset)]) 2)).
    5: (intros u; vm_compute; discriminate).
    all: vm_compute; reflexivity.
  - apply (proj2 (connections_end_and_count node_http limited (state_after node_http limited))). vm_compute. reflexivity.
Defined.

(** The beginning of a second request, in the same read as the end of the
    first, starts no clock: the connection is not checked while its peer keeps
    the rest of that head back. *)

Definition pipelined : list ServeEvent :=
  [VAccept; VReport 2 (RRead (PReady 200)); VHead 2; VBodyDone 2 1; VTick (30000 * MS); VCheck; VTick (30000 * MS); VCheck;
   VTick (30000 * MS); VCheck; VTick (30000 * MS); VCheck].

Example pipelined_head_unchecked :
  let t := task_after TimeoutSettings_default pipelined 2 in
  over t = false ∧ active (phase (task_watch t)) = false ∧ close_reason (task_watch t) = None ∧
  is_Some (prompt_serve (Server_new TimeoutSettings_default) pipelined).
Proof. vm_compute. split_and!; try done. by eexists. Qed.
