(* ===== verification/HttpBody.v ===== *)
(** * HttpBody: the requests of an HTTP server

    Of [oam_core/src/http_server.rs]: one request from hyper to JS and back
    ([dispatch_request]), the pump that feeds its body to JS, the registries JS
    reaches both through, and the budget the bodies are held to; and of
    [oam_engine/src/node_ops.rs] the op that reads a body.

    Every future and every lock section is a step of its own, so [http_step]
    runs interleave them as the tasks of a server do.  hyper's frames, the
    room in JS's queue, JS's calls and a client that goes are in the events.
    What has happened is kept beside the state: the frames read, what the
    reads gave JS, and who took a request's responder.  An atomic counter of
    bytes is a [Z]; no run comes near its width. *)

From S2P Require Import Prelude RustStd HttpHead.

Open Scope Z_scope.

Definition MAX_REQUEST_BODY : Z := 100 * 1024 * 1024.
Definition DRAIN_BUDGET : Z := 16 * 1024 * 1024.
Definition DEFAULT_GLOBAL_BODY_BUDGET : Z := 512 * 1024 * 1024.

(** The room of a body's channel. *)

Definition BODY_CHANNEL : nat := 8.

(** ** What a request asks for *)

Record Incoming : Type := {
  raw_head : option (list byte);
  is_connect : bool;
  no_body : bool;
  req_headers : list (list byte * list byte)
}.

Inductive Upgrades : Type :=
| UServe
| UCloseConnect
| URoute (upgrade_listener takes : bool).

Inductive Entry : Type :=
| EnRefused (status : Z)
| EnAborted
| EnTaken
| EnServe (streamed : bool).

(** [HeaderValue::to_str]. *)

Definition to_str (v : list byte) : option (list byte) :=
  if forallb (λ b, ((32 <=? b2z b) && (b2z b <? 127)) || (b2z b =? 9)) v then Some v else None.

Definition content_length (headers : list (list byte * list byte)) : option Z :=
  h ← list_find (λ h, h.1 = bs "content-length") headers;
  text ← to_str h.2.2;
  parse_uint u64_max text.

Definition declared_oversize (headers : list (list byte * list byte)) : bool :=
  match content_length headers with
  | Some len => MAX_REQUEST_BODY <? len
  | None => false
  end.

Section Entry.
Context (httparse_parse : nat → list byte → HttparseResult).

Definition entry (policy : HeadPolicy) (upgrades : Upgrades) (stream_request_body : bool) (req : Incoming)
  : Entry :=
  let serve := EnServe (stream_request_body && negb (declared_oversize (req_headers req))) in
  match raw_head req with
  | None => serve
  | Some raw =>
      match check_request_head raw policy with
      | Err error => EnRefused (status error)
      | Ok _ =>
          match upgrades with
          | UServe => serve
          | UCloseConnect => if is_connect req then EnAborted else serve
          | URoute listener takes =>
              let upgrade := negb (is_connect req) && listener && no_body req && is_upgrade (req_headers req) in
              if (is_connect req || upgrade)
                 && (match parse_request_head httparse_parse raw policy with Ok _ => true | Err _ => false end)
                 && takes
              then EnTaken
              else serve
          end
      end
  end.
End Entry.

(** ** Bodies and answers *)

Abbreviation Pairs := (list (list byte * list byte)).

Inductive IoKind : Type := KInvalidInput | KInvalidData | KOther.

(** What hyper failed on: the [io::Error] behind it, if there is one. *)

Record BodyError : Type := { source : option (IoKind * string) }.

Definition refused_body_status (error : BodyError) : option Z :=
  match source error with
  | Some (KInvalidInput, text) | Some (KInvalidData, text) =>
      Some (if decide (text = "chunk extensions over limit") then 413
            else if decide (text = "chunk trailers bytes over limit" ∨ text = "chunk trailers count overflow") then 431
            else 400)
  | _ => None
  end.

(** What [body.frame()] gives. *)

Inductive BodyFrame : Type :=
| FData (data : list byte)
| FTrailers (trailers : Pairs)
| FEnd
| FError (error : BodyError).

Inductive OpOutcome : Type :=
| OBytes (bytes : list byte)
| ODone
| OTrailers (trailers : Pairs)
| OFailed (message : string)
| OBodyFailure (error : BodyError).

Inductive ResponseBody : Type :=
| RFull (bytes : list byte)
| RUnsized (bytes : list byte) (trailers : option Pairs)
| RStream
| RAbort.

Record ResponseSpec : Type := { spec_status : Z; spec_body : ResponseBody }.

(** How [dispatch_request] returns; [AGone] when its future is dropped. *)

Inductive Answer : Type :=
| AStatus (status : Z)
| ASpec (spec : ResponseSpec)
| AAborted
| AGone.

(** A reservation, with the count of those made before it. *)

Record Charge : Type := { number : nat; amount : nat }.

Record BudgetedChunk : Type := { chunk_data : list byte; chunk_charge : Charge }.

Inductive Item : Type :=
| IChunk (c : BudgetedChunk)
| IFailed (o : OpOutcome).

(** An mpsc channel of a body: what is queued, and which ends are held. *)

Record Chan : Type := { items : list Item; tx_open : bool; rx_open : bool }.

Inductive RequestBody : Type :=
| BFull (bytes : list byte)
| BStream
| BStreamPending.

Inductive BodyCheckout : Type := CReady | CInFlight | CAbsent.

(** ** The registries *)

(** [pending] are the responders JS can take; [answers] what was sent on
    them. *)

Record Registry : Type := {
  bodies : gmap Z RequestBody;
  trailers_of : gmap Z Pairs;
  pending : gset Z;
  answers : gmap Z ResponseSpec;
  chans : gmap Z Chan
}.

Definition set_bodies (m : gmap Z RequestBody) (g : Registry) : Registry :=
  {| bodies := m; trailers_of := trailers_of g; pending := pending g; answers := answers g; chans := chans g |}.
Definition set_trailers (m : gmap Z Pairs) (g : Registry) : Registry :=
  {| bodies := bodies g; trailers_of := m; pending := pending g; answers := answers g; chans := chans g |}.
Definition set_pending (p : gset Z) (g : Registry) : Registry :=
  {| bodies := bodies g; trailers_of := trailers_of g; pending := p; answers := answers g; chans := chans g |}.
Definition set_answers (m : gmap Z ResponseSpec) (g : Registry) : Registry :=
  {| bodies := bodies g; trailers_of := trailers_of g; pending := pending g; answers := m; chans := chans g |}.
Definition set_chans (m : gmap Z Chan) (g : Registry) : Registry :=
  {| bodies := bodies g; trailers_of := trailers_of g; pending := pending g; answers := answers g; chans := m |}.

Definition set_items (l : list Item) (c : Chan) : Chan :=
  {| items := l; tx_open := tx_open c; rx_open := rx_open c |}.
Definition close_tx (c : Chan) : Chan := {| items := items c; tx_open := false; rx_open := rx_open c |}.
Definition close_rx (c : Chan) : Chan := {| items := items c; tx_open := tx_open c; rx_open := false |}.

(** A receiver is dropped. *)

Definition drop_rx (id : Z) (g : Registry) : Registry := set_chans (alter close_rx id (chans g)) g.

(** An entry goes, with the receiver if it holds it. *)

Definition remove_body (id : Z) (g : Registry) : Registry :=
  let g' := set_bodies (delete id (bodies g)) g in
  match bodies g !! id with
  | Some BStream => drop_rx id g'
  | _ => g'
  end.

Definition take_body_stream (id : Z) (g : Registry) : Registry * BodyCheckout :=
  match bodies g !! id with
  | Some BStream => (set_bodies (<[id := BStreamPending]> (bodies g)) g, CReady)
  | Some BStreamPending => (g, CInFlight)
  | _ => (g, CAbsent)
  end.

Definition put_body_stream (id : Z) (g : Registry) : Registry :=
  match bodies g !! id with
  | Some BStreamPending => set_bodies (<[id := BStream]> (bodies g)) g
  | _ => drop_rx id g
  end.

Definition cancel_body_stream (id : Z) (g : Registry) : Registry :=
  let g := remove_body id g in
  set_trailers (delete id (trailers_of g)) g.

Definition finish_request_body (id : Z) (g : Registry) : Registry * option Pairs :=
  let t := trailers_of g !! id in
  let g := remove_body id g in
  (set_trailers (delete id (trailers_of g)) g, t).

Definition store_trailers (id : Z) (t : Pairs) (g : Registry) : Registry :=
  match bodies g !! id with
  | Some _ => set_trailers (<[id := t]> (trailers_of g)) g
  | None => g
  end.

(** The first lock section of [take_request_body]; what is not a whole body is
    put back in a second one. *)

Definition remove_request_body (id : Z) (g : Registry) : Registry * option RequestBody :=
  (set_bodies (delete id (bodies g)) g, bodies g !! id).

Definition put_back (id : Z) (b : RequestBody) (g : Registry) : Registry :=
  set_bodies (<[id := b]> (bodies g)) g.

(** The end of a request: [RequestGuard::drop]'s section on the bodies. *)

Definition reap_body (id : Z) (dispatched : bool) (g : Registry) : Registry :=
  match bodies g !! id with
  | Some BStream | Some BStreamPending =>
      if dispatched then g else cancel_body_stream id g
  | Some (BFull _) => cancel_body_stream id g
  | None => set_trailers (delete id (trailers_of g)) g
  end.

Definition body_end (t : option Pairs) : OpOutcome :=
  match t with
  | Some t => OTrailers t
  | None => ODone
  end.

(** ** The tasks *)

(** What [dispatch_request] has of the body when it registers the request. *)

Inductive Collected : Type :=
| CBuffered (bytes : list byte) (trailers : option Pairs)
| CStream.

(** A request's handler: collecting a body that is not streamed; between the
    reservation and its check; giving a refused one back; waiting for room in
    JS's queue, and for the answer; then the three parts of its guard's drop. *)

Inductive HandlerPc : Type :=
| HCollecting (buf : list byte) (over_cap : bool) (drained : Z) (trailers : option Pairs)
| HChecking (c : Charge) (prev : Z) (body : Collected)
| HRefusing (c : Charge)
| HQueueing (c : Charge)
| HWaiting (c : Charge)
| HDropping (c : Charge) (dispatched : bool) (a : Answer)
| HReaping (c : Charge) (dispatched : bool) (a : Answer)
| HRefunding (c : Charge) (a : Answer)
| HOver (a : Answer).

Record Handler : Type := { notify_closed : bool; handler_pc : HandlerPc }.

(** A body's pump: reading; between the reservation and its check; giving a
    refused one back; refusing the request over a body hyper failed on;
    waiting for room in the channel; giving back a chunk nobody takes. *)

Inductive PumpPc : Type :=
| PReading (total : Z)
| PChecking (total : Z) (c : BudgetedChunk) (prev : Z)
| PRefusing (total : Z) (c : BudgetedChunk)
| PFailing (total : Z) (error : BodyError)
| PSending (total : Z) (i : Item)
| PDropping (c : BudgetedChunk)
| POver (clean : bool).

(** A read of a body by JS. *)

Inductive ReadPc : Type :=
| RdStart
| RdTaking
| RdPuttingBack (b : RequestBody)
| RdReceiving
| RdPutting (c : BudgetedChunk)
| RdRefunding (c : Charge)
| RdFailing (o : OpOutcome)
| RdEnding (holds_rx : bool)
| RdOver.

Record Read : Type := { read_of : Z; read_pc : ReadPc }.

(** [js_take] is the body JS's thread holds between the two sections of
    [take_request_body]; [to_close] the requests whose end is being told. *)

Record Tasks : Type := {
  handlers : gmap Z Handler;
  pumps_of : gmap Z PumpPc;
  reads : gmap Z Read;
  js_take : option (Z * RequestBody);
  to_close : gset Z
}.

Definition set_handlers (m : gmap Z Handler) (t : Tasks) : Tasks :=
  {| handlers := m; pumps_of := pumps_of t; reads := reads t; js_take := js_take t; to_close := to_close t |}.
Definition set_pumps_of (m : gmap Z PumpPc) (t : Tasks) : Tasks :=
  {| handlers := handlers t; pumps_of := m; reads := reads t; js_take := js_take t; to_close := to_close t |}.
Definition set_reads (m : gmap Z Read) (t : Tasks) : Tasks :=
  {| handlers := handlers t; pumps_of := pumps_of t; reads := m; js_take := js_take t; to_close := to_close t |}.
Definition set_js_take (o : option (Z * RequestBody)) (t : Tasks) : Tasks :=
  {| handlers := handlers t; pumps_of := pumps_of t; reads := reads t; js_take := o; to_close := to_close t |}.
Definition set_to_close (p : gset Z) (t : Tasks) : Tasks :=
  {| handlers := handlers t; pumps_of := pumps_of t; reads := reads t; js_take := js_take t; to_close := p |}.

(** ** What has happened *)

Inductive JsEvent : Type :=
| JRequest (id : Z)
| JClosed (id : Z).

#[global] Instance JsEvent_eq_dec : EqDecision JsEvent.
Proof. solve_decision. Defined.

(** Who took a request's responder: JS, with whether the handler was still
    there to be answered; the pump; or the handler's own guard, with whether JS
    is to hear of it. *)

Inductive Taker : Type :=
| ByJs (spec : ResponseSpec) (heard : bool)
| ByPump (spec : ResponseSpec)
| ByGuard (told : bool).

(** [tops] is the counter as each reservation left it, in order. *)

Record Trace : Type := {
  js_queue : list JsEvent;
  outcomes : list (Z * OpOutcome);
  frames : gmap Z (list BodyFrame);
  taken_by : list (Z * Taker);
  tops : list Z
}.

Definition log_queue (e : JsEvent) (t : Trace) : Trace :=
  {| js_queue := js_queue t ++ [e]; outcomes := outcomes t; frames := frames t; taken_by := taken_by t; tops := tops t |}.
Definition log_outcome (id : Z) (o : OpOutcome) (t : Trace) : Trace :=
  {| js_queue := js_queue t; outcomes := outcomes t ++ [(id, o)]; frames := frames t; taken_by := taken_by t; tops := tops t |}.
Definition log_frame (id : Z) (f : BodyFrame) (t : Trace) : Trace :=
  {| js_queue := js_queue t; outcomes := outcomes t; frames := <[id := default [] (frames t !! id) ++ [f]]> (frames t);
     taken_by := taken_by t; tops := tops t |}.
Definition log_taker (id : Z) (k : Taker) (t : Trace) : Trace :=
  {| js_queue := js_queue t; outcomes := outcomes t; frames := frames t; taken_by := taken_by t ++ [(id, k)]; tops := tops t |}.
Definition log_top (z : Z) (t : Trace) : Trace :=
  {| js_queue := js_queue t; outcomes := outcomes t; frames := frames t; taken_by := taken_by t; tops := tops t ++ [z] |}.

Record Http : Type := { body_bytes : Z; next : Z; reg : Registry; tasks_of : Tasks; trace : Trace }.

Definition Http_new : Http :=
  {| body_bytes := 0; next := 0;
     reg := {| bodies := ∅; trailers_of := ∅; pending := ∅; answers := ∅; chans := ∅ |};
     tasks_of := {| handlers := ∅; pumps_of := ∅; reads := ∅; js_take := None; to_close := ∅ |};
     trace := {| js_queue := []; outcomes := []; frames := ∅; taken_by := []; tops := [] |} |}.

Definition upd_reg (f : Registry → Registry) (s : Http) : Http :=
  {| body_bytes := body_bytes s; next := next s; reg := f (reg s); tasks_of := tasks_of s; trace := trace s |}.
Definition upd_tasks (f : Tasks → Tasks) (s : Http) : Http :=
  {| body_bytes := body_bytes s; next := next s; reg := reg s; tasks_of := f (tasks_of s); trace := trace s |}.
Definition upd_trace (f : Trace → Trace) (s : Http) : Http :=
  {| body_bytes := body_bytes s; next := next s; reg := reg s; tasks_of := tasks_of s; trace := f (trace s) |}.
Definition upd_bytes (z : Z) (s : Http) : Http :=
  {| body_bytes := z; next := next s; reg := reg s; tasks_of := tasks_of s; trace := trace s |}.
Definition next_id (s : Http) : Http * Z :=
  ({| body_bytes := body_bytes s; next := next s + 1; reg := reg s; tasks_of := tasks_of s; trace := trace s |}, next s + 1).

Definition put_handler (id : Z) (h : Handler) (s : Http) : Http :=
  upd_tasks (λ t, set_handlers (<[id := h]> (handlers t)) t) s.
Definition goto (id : Z) (h : Handler) (pc : HandlerPc) (s : Http) : Http :=
  put_handler id {| notify_closed := notify_closed h; handler_pc := pc |} s.
Definition put_pump (id : Z) (p : PumpPc) (s : Http) : Http :=
  upd_tasks (λ t, set_pumps_of (<[id := p]> (pumps_of t)) t) s.
Definition put_read (r : Z) (x : Read) (s : Http) : Http :=
  upd_tasks (λ t, set_reads (<[r := x]> (reads t)) t) s.

(** ** The budget *)

(** [fetch_add] and what it returns; [fetch_sub]. *)

Definition reserve (len : nat) (s : Http) : Http * Charge * Z :=
  let prev := body_bytes s in
  (upd_trace (log_top (prev + Z.of_nat len)) (upd_bytes (prev + Z.of_nat len) s),
   {| number := length (tops (trace s)); amount := len |}, prev).

Definition refund (c : Charge) (s : Http) : Http := upd_bytes (body_bytes s - Z.of_nat (amount c)) s.

(** Whether a reservation goes over the budget. *)

Definition over_budget (budget prev : Z) (c : Charge) : bool := budget <? prev + Z.of_nat (amount c).

(** ** Answers *)

(** The handler still holds the receiver of its answer. *)

Definition listens (s : Http) (id : Z) : bool :=
  match handlers (tasks_of s) !! id with
  | Some h => match handler_pc h with HQueueing _ | HWaiting _ => true | _ => false end
  | None => false
  end.

(** A responder is taken out of [pending] and sent on. *)

Definition take_responder (id : Z) (spec : ResponseSpec) (by_whom : Taker) (s : Http) : Http :=
  let s' := upd_trace (log_taker id by_whom) (upd_reg (λ g, set_pending (pending g ∖ {[id]}) g) s) in
  if listens s id then upd_reg (λ g, set_answers (<[id := spec]> (answers g)) g) s' else s'.

(** [respond_full], [respond_stream] and [abort_request], which differ in the
    body they send. *)

Definition respond (id : Z) (spec : ResponseSpec) (s : Http) : Http :=
  if decide (id ∈ pending (reg s)) then take_responder id spec (ByJs spec (listens s id)) s else s.

Definition refuse_unanswered (id status : Z) (s : Http) : Http :=
  let spec := {| spec_status := status; spec_body := RFull [] |} in
  if decide (id ∈ pending (reg s)) then take_responder id spec (ByPump spec) s else s.

(** ** A request's handler *)

Section Steps.
Context (httparse_parse : nat → list byte → HttparseResult).
Context (budget : Z).

Definition len_of (l : list byte) : Z := Z.of_nat (length l).

(** The reservation, before its check. *)

Definition reserving (id : Z) (h : Handler) (body : Collected) (s : Http) : Http :=
  let len := match body with CBuffered l _ => length l | CStream => 0%nat end in
  let '(s, c, prev) := reserve len s in
  goto id h (HChecking c prev body) s.

Definition arrive (policy : HeadPolicy) (upgrades : Upgrades) (stream_request_body notify : bool) (req : Incoming)
    (s : Http) : Http :=
  let '(s, id) := next_id s in
  let h := {| notify_closed := notify; handler_pc := HOver AGone |} in
  match entry httparse_parse policy upgrades stream_request_body req with
  | EnRefused status => goto id h (HOver (AStatus status)) s
  | EnAborted => goto id h (HOver AAborted) s
  | EnTaken => goto id h (HOver AGone) s
  | EnServe true => reserving id h CStream s
  | EnServe false => goto id h (HCollecting [] false 0 None) s
  end.

(** One turn of [collect_body]'s loop, with the body once it is whole. *)

Definition collected (buf : list byte) (over_cap : bool) (t : option Pairs) : HandlerPc + list byte * option Pairs :=
  if over_cap then inl (HOver (AStatus 413)) else inr (buf, t).

Definition collect_next (buf : list byte) (over_cap : bool) (drained : Z) (t : option Pairs) (f : BodyFrame)
  : HandlerPc + list byte * option Pairs :=
  match f with
  | FEnd => collected buf over_cap t
  | FError e =>
      if over_cap then collected buf over_cap t
      else inl (HOver (match refused_body_status e with
                       | Some status => AStatus status
                       | None => AAborted
                       end))
  | FTrailers t => inl (HCollecting buf over_cap drained (Some t))
  | FData chunk =>
      if over_cap then
        let drained := drained + len_of chunk in
        if DRAIN_BUDGET <=? drained then collected buf over_cap t else inl (HCollecting buf over_cap drained t)
      else
        let buf := buf ++ chunk in
        if MAX_REQUEST_BODY <? len_of buf then inl (HCollecting [] true drained t)
        else inl (HCollecting buf false drained t)
  end.

Definition collect (id : Z) (h : Handler) (buf : list byte) (over_cap : bool) (drained : Z) (t : option Pairs)
    (f : BodyFrame) (s : Http) : Http :=
  match collect_next buf over_cap drained t f with
  | inl pc => goto id h pc s
  | inr (buf, t) => reserving id h (CBuffered buf t) s
  end.

(** The request is registered, and its pump started. *)

Definition register (id : Z) (body : Collected) (s : Http) : Http :=
  let s := upd_reg (λ g, set_pending ({[id]} ∪ pending g) g) s in
  match body with
  | CStream =>
      put_pump id (PReading 0)
        (upd_reg (λ g, set_chans (<[id := {| items := []; tx_open := true; rx_open := true |}]> (chans g))
                         (set_bodies (<[id := BStream]> (bodies g)) g)) s)
  | CBuffered l t =>
      upd_reg (λ g, match t with Some t => store_trailers id t | None => λ g, g end
                      (set_bodies (<[id := BFull l]> (bodies g)) g)) s
  end.

Definition answer_of (spec : ResponseSpec) : Answer :=
  match spec_body spec with
  | RAbort => AAborted
  | _ => ASpec spec
  end.

Definition handler_step (id : Z) (h : Handler) (s : Http) : option Http :=
  match handler_pc h with
  | HChecking c prev body =>
      Some (if over_budget budget prev c then goto id h (HRefusing c) s
            else goto id h (HQueueing c) (register id body s))
  | HRefusing c => Some (goto id h (HOver (AStatus 503)) (refund c s))
  | HWaiting c =>
      match answers (reg s) !! id with
      | Some spec => Some (goto id h (HDropping c true (answer_of spec)) s)
      | None => if decide (id ∈ pending (reg s)) then None
                else Some (goto id h (HDropping c true (AStatus 500)) s)
      end
  | HDropping c dispatched a =>
      let s' := goto id h (HReaping c dispatched a) s in
      Some (if decide (id ∈ pending (reg s)) then
              let told := dispatched && notify_closed h in
              let s' := upd_trace (log_taker id (ByGuard told)) (upd_reg (λ g, set_pending (pending g ∖ {[id]}) g) s') in
              if told then upd_tasks (λ t, set_to_close ({[id]} ∪ to_close t) t) s' else s'
            else s')
  | HReaping c dispatched a => Some (goto id h (HRefunding c a) (upd_reg (reap_body id dispatched) s))
  | HRefunding c a => Some (goto id h (HOver a) (refund c s))
  | HCollecting _ _ _ _ | HQueueing _ | HOver _ => None
  end.

(** JS's queue took the request, or is gone. *)

Definition queue_sent (id : Z) (h : Handler) (ok : bool) (s : Http) : option Http :=
  match handler_pc h with
  | HQueueing c =>
      Some (if ok then upd_trace (log_queue (JRequest id)) (goto id h (HWaiting c) s)
            else goto id h (HDropping c false (AStatus 503)) s)
  | _ => None
  end.

(** hyper drops the handler's future. *)

Definition drop_handler (id : Z) (h : Handler) (s : Http) : option Http :=
  match handler_pc h with
  | HCollecting _ _ _ _ => Some (goto id h (HOver AGone) s)
  | HQueueing c => Some (goto id h (HDropping c false AGone) s)
  | HWaiting c => Some (goto id h (HDropping c true AGone) s)
  | _ => None
  end.

(** ** A body's pump *)

Definition pump_over (id : Z) (clean : bool) (s : Http) : Http :=
  put_pump id (POver clean) (upd_reg (λ g, set_chans (alter close_tx id (chans g)) g) s).

Definition pump_frame (id total : Z) (f : BodyFrame) (s : Http) : Http :=
  match f with
  | FEnd => pump_over id true s
  | FError e => put_pump id (PFailing total e) s
  | FTrailers t => put_pump id (PReading total) (upd_reg (store_trailers id t) s)
  | FData data =>
      let total := total + len_of data in
      if MAX_REQUEST_BODY <? total then put_pump id (PSending total (IFailed (OFailed "request body too large"))) s
      else
        let '(s, c, prev) := reserve (length data) s in
        put_pump id (PChecking total {| chunk_data := data; chunk_charge := c |} prev) s
  end.

Definition send_item (id total : Z) (i : Item) (s : Http) : option Http :=
  ch ← chans (reg s) !! id;
  if rx_open ch then
    if (length (items ch) <? BODY_CHANNEL)%nat then
      let s := upd_reg (λ g, set_chans (<[id := set_items (items ch ++ [i]) ch]> (chans g)) g) s in
      Some (match i with
            | IChunk _ => put_pump id (PReading total) s
            | IFailed _ => pump_over id false s
            end)
    else None
  else
    Some (match i with
          | IChunk c => put_pump id (PDropping c) s
          | IFailed _ => pump_over id false s
          end).

Definition pump_step (id : Z) (p : PumpPc) (s : Http) : option Http :=
  match p with
  | PChecking total c prev =>
      Some (if over_budget budget prev (chunk_charge c) then put_pump id (PRefusing total c) s
            else put_pump id (PSending total (IChunk c)) s)
  | PRefusing total c =>
      Some (put_pump id (PSending total (IFailed (OFailed "server is busy"))) (refund (chunk_charge c) s))
  | PFailing total e =>
      let s := match refused_body_status e with
               | Some status => refuse_unanswered id status s
               | None => s
               end in
      Some (put_pump id (PSending total (IFailed (OBodyFailure e))) s)
  | PSending total i => send_item id total i s
  | PDropping c => Some (pump_over id false (refund (chunk_charge c) s))
  | PReading _ | POver _ => None
  end.

(** What is left in a channel whose receiver is gone is dropped. *)

Definition drain (id : Z) (s : Http) : option Http :=
  ch ← chans (reg s) !! id;
  match rx_open ch, items ch with
  | false, i :: rest =>
      let s := upd_reg (λ g, set_chans (<[id := set_items rest ch]> (chans g)) g) s in
      Some (match i with IChunk c => refund (chunk_charge c) s | IFailed _ => s end)
  | _, _ => None
  end.

(** ** A read by JS *)

Definition read_goto (r : Z) (x : Read) (pc : ReadPc) (s : Http) : Http :=
  put_read r {| read_of := read_of x; read_pc := pc |} s.

Definition read_gives (x : Read) (o : OpOutcome) (s : Http) : Http := upd_trace (log_outcome (read_of x) o) s.

Definition receive (r : Z) (x : Read) (s : Http) : option Http :=
  let id := read_of x in
  ch ← chans (reg s) !! id;
  match items ch with
  | i :: rest =>
      let s := upd_reg (λ g, set_chans (<[id := set_items rest ch]> (chans g)) g) s in
      Some (match i with
            | IChunk c => read_goto r x (RdPutting c) (read_gives x (OBytes (chunk_data c)) s)
            | IFailed o => read_goto r x (RdFailing o) s
            end)
  | [] => if tx_open ch then None else Some (read_goto r x (RdEnding true) s)
  end.

Definition read_step (r : Z) (x : Read) (s : Http) : option Http :=
  let id := read_of x in
  match read_pc x with
  | RdStart =>
      let '(g, checkout) := take_body_stream id (reg s) in
      let s := upd_reg (λ _, g) s in
      Some (match checkout with
            | CReady => read_goto r x RdReceiving s
            | CInFlight => read_goto r x RdOver (read_gives x (OFailed "concurrent read of the same request body") s)
            | CAbsent => read_goto r x RdTaking s
            end)
  | RdTaking =>
      let '(g, body) := remove_request_body id (reg s) in
      let s := upd_reg (λ _, g) s in
      Some (match body with
            | Some (BFull bytes) =>
                if decide (bytes = []) then read_goto r x (RdEnding false) s
                else read_goto r x RdOver (read_gives x (OBytes bytes) s)
            | Some other => read_goto r x (RdPuttingBack other) s
            | None => read_goto r x (RdEnding false) s
            end)
  | RdPuttingBack b => Some (read_goto r x (RdEnding false) (upd_reg (put_back id b) s))
  | RdReceiving => receive r x s
  | RdPutting c => Some (read_goto r x (RdRefunding (chunk_charge c)) (upd_reg (put_body_stream id) s))
  | RdRefunding c => Some (read_goto r x RdOver (refund c s))
  | RdFailing o =>
      Some (read_goto r x RdOver (read_gives x o (upd_reg (λ g, drop_rx id (cancel_body_stream id g)) s)))
  | RdEnding holds_rx =>
      let '(g, t) := finish_request_body id (reg s) in
      let s := upd_reg (λ _, if (holds_rx : bool) then drop_rx id g else g) s in
      Some (read_goto r x RdOver (read_gives x (body_end t) s))
  | RdOver => None
  end.

(** ** JS's own thread *)

Definition js_take_body (id : Z) (s : Http) : Http :=
  let '(g, body) := remove_request_body id (reg s) in
  let s := upd_reg (λ _, g) s in
  match body with
  | Some (BFull bytes) => upd_trace (log_outcome id (OBytes bytes)) s
  | Some other => upd_tasks (set_js_take (Some (id, other))) s
  | None => s
  end.

(** ** Runs *)

Inductive HttpEvent : Type :=
| NArrive (policy : HeadPolicy) (upgrades : Upgrades) (stream_request_body notify : bool) (req : Incoming)
| NFrame (id : Z) (f : BodyFrame)
| NHandler (id : Z)
| NQueued (id : Z) (ok : bool)
| NGone (id : Z)
| NPump (id : Z)
| NDrain (id : Z)
| NRead (id : Z)
| NReading (r : Z)
| NRespond (id : Z) (spec : ResponseSpec)
| NCancel (id : Z)
| NTake (id : Z)
| NTakeBack
| NTellClosed (id : Z).

(** JS knows a request from its event; a call of JS's own thread waits for the
    one before it. *)

Definition known (id : Z) (s : Http) : bool := bool_decide (JRequest id ∈ js_queue (trace s)).

Definition js_free (s : Http) : bool :=
  match js_take (tasks_of s) with
  | None => true
  | Some _ => false
  end.

Definition js_call (id : Z) (f : Http → Http) (s : Http) : option Http :=
  if known id s && js_free s then Some (f s) else None.

Definition http_step (s : Http) (e : HttpEvent) : option Http :=
  match e with
  | NArrive policy upgrades stream notify req => Some (arrive policy upgrades stream notify req s)
  | NFrame id f =>
      let logged := upd_trace (log_frame id f) s in
      match handlers (tasks_of s) !! id with
      | Some h =>
          match handler_pc h with
          | HCollecting buf over_cap drained t => Some (collect id h buf over_cap drained t f logged)
          | _ =>
              match pumps_of (tasks_of s) !! id with
              | Some (PReading total) => Some (pump_frame id total f logged)
              | _ => None
              end
          end
      | None => None
      end
  | NHandler id => h ← handlers (tasks_of s) !! id; handler_step id h s
  | NQueued id ok => h ← handlers (tasks_of s) !! id; queue_sent id h ok s
  | NGone id => h ← handlers (tasks_of s) !! id; drop_handler id h s
  | NPump id => p ← pumps_of (tasks_of s) !! id; pump_step id p s
  | NDrain id => drain id s
  | NRead id =>
      js_call id (λ s, let '(s, r) := next_id s in put_read r {| read_of := id; read_pc := RdStart |} s) s
  | NReading r => x ← reads (tasks_of s) !! r; read_step r x s
  | NRespond id spec => js_call id (respond id spec) s
  | NCancel id => js_call id (upd_reg (cancel_body_stream id)) s
  | NTake id => js_call id (js_take_body id) s
  | NTakeBack =>
      match js_take (tasks_of s) with
      | Some (id, b) => Some (upd_tasks (set_js_take None) (upd_reg (put_back id b) s))
      | None => None
      end
  | NTellClosed id =>
      if decide (id ∈ to_close (tasks_of s)) then
        Some (upd_trace (log_queue (JClosed id)) (upd_tasks (λ t, set_to_close (to_close t ∖ {[id]}) t) s))
      else None
  end.

Fixpoint http_run (s : Http) (es : list HttpEvent) : option Http :=
  match es with
  | [] => Some s
  | e :: es => s ← http_step s e; http_run s es
  end.
End Steps.
