(* ===== verification/HttpView.v ===== *)
(** * HttpView: one request of a server

    The part of a server's state a request has: its handler, pump, channel,
    registry entries and reads, and what has happened to it.  A step about
    one request leaves every other as it is ([step_view]). *)

From S2P Require Import Prelude RustStd HttpHead HttpBody.

Open Scope Z_scope.

Record RegView : Type := {
  v_body : option RequestBody;
  v_trailers : option Pairs;
  v_pending : bool;
  v_answer : option ResponseSpec;
  v_chan : option Chan
}.

Definition reg_view (id : Z) (g : Registry) : RegView :=
  {| v_body := bodies g !! id; v_trailers := trailers_of g !! id; v_pending := bool_decide (id ∈ pending g);
     v_answer := answers g !! id; v_chan := chans g !! id |}.

Record TraceView : Type := {
  v_known : bool;
  v_closed : nat;
  v_outcomes : list OpOutcome;
  v_frames : list BodyFrame;
  v_takers : list Taker
}.

Definition of_id {A} (id : Z) (l : list (Z * A)) : list A := (filter (λ x, x.1 = id) l).*2.

#[global] Arguments of_id : simpl never.

Definition trace_view (id : Z) (t : Trace) : TraceView :=
  {| v_known := bool_decide (JRequest id ∈ js_queue t);
     v_closed := length (filter (λ e, e = JClosed id) (js_queue t));
     v_outcomes := of_id id (outcomes t); v_frames := default [] (frames t !! id);
     v_takers := of_id id (taken_by t) |}.

Record View : Type := {
  v_handler : option Handler;
  v_pump : option PumpPc;
  v_reads : gmap Z Read;
  v_take : option RequestBody;
  v_closing : bool;
  v_reg : RegView;
  v_trace : TraceView
}.

Definition held_take (id : Z) (o : option (Z * RequestBody)) : option RequestBody :=
  match o with
  | Some (i, b) => if decide (i = id) then Some b else None
  | None => None
  end.

Definition view (id : Z) (s : Http) : View :=
  {| v_handler := handlers (tasks_of s) !! id; v_pump := pumps_of (tasks_of s) !! id;
     v_reads := filter (λ x, read_of x.2 = id) (reads (tasks_of s));
     v_take := held_take id (js_take (tasks_of s)); v_closing := bool_decide (id ∈ to_close (tasks_of s));
     v_reg := reg_view id (reg s); v_trace := trace_view id (trace s) |}.

(** ** What leaves a request alone *)

Lemma of_id_app {A} id (l l' : list (Z * A)) : of_id id (l ++ l') = of_id id l ++ of_id id l'.
Proof. unfold of_id. by rewrite filter_app, fmap_app. Qed.

Lemma of_id_one {A} id (x : A) : of_id id [(id, x)] = [x].
Proof. unfold of_id. by rewrite filter_cons_True. Qed.

Lemma of_id_other {A} id id' (x : A) : id' ≠ id → of_id id [(id', x)] = [].
Proof. intros H. unfold of_id. by rewrite filter_cons_False. Qed.

Section Others.
Context (id other : Z) (ne : other ≠ id).

Lemma reg_drop_rx g : reg_view other (drop_rx id g) = reg_view other g.
Proof. unfold reg_view, drop_rx. cbn. by rewrite lookup_alter_ne. Qed.

Lemma reg_set_bodies b g : reg_view other (set_bodies (<[id := b]> (bodies g)) g) = reg_view other g.
Proof. unfold reg_view. cbn. by rewrite lookup_insert_ne. Qed.

Lemma reg_del_bodies g : reg_view other (set_bodies (delete id (bodies g)) g) = reg_view other g.
Proof. unfold reg_view. cbn. by rewrite lookup_delete_ne. Qed.

Lemma reg_del_trailers g : reg_view other (set_trailers (delete id (trailers_of g)) g) = reg_view other g.
Proof. unfold reg_view. cbn. by rewrite lookup_delete_ne. Qed.

Lemma reg_set_chan ch g : reg_view other (set_chans (<[id := ch]> (chans g)) g) = reg_view other g.
Proof. unfold reg_view. cbn. by rewrite lookup_insert_ne. Qed.

Lemma reg_alter_chan f g : reg_view other (set_chans (alter f id (chans g)) g) = reg_view other g.
Proof. unfold reg_view. cbn. by rewrite lookup_alter_ne. Qed.

Lemma reg_remove_body g : reg_view other (remove_body id g) = reg_view other g.
Proof. unfold remove_body. destruct (bodies g !! id) as [[]|]; by rewrite ?reg_drop_rx, reg_del_bodies. Qed.

Lemma reg_cancel g : reg_view other (cancel_body_stream id g) = reg_view other g.
Proof. unfold cancel_body_stream. by rewrite reg_del_trailers, reg_remove_body. Qed.

Lemma reg_finish g : reg_view other (finish_request_body id g).1 = reg_view other g.
Proof. unfold finish_request_body. cbn [fst]. by rewrite reg_del_trailers, reg_remove_body. Qed.

Lemma reg_take g : reg_view other (take_body_stream id g).1 = reg_view other g.
Proof. unfold take_body_stream. destruct (bodies g !! id) as [[]|]; cbn [fst]; by rewrite ?reg_set_bodies. Qed.

Lemma reg_put g : reg_view other (put_body_stream id g) = reg_view other g.
Proof. unfold put_body_stream. destruct (bodies g !! id) as [[]|]; by rewrite ?reg_set_bodies, ?reg_drop_rx. Qed.

Lemma reg_store t g : reg_view other (store_trailers id t g) = reg_view other g.
Proof. unfold store_trailers. destruct (bodies g !! id); [|done]. unfold reg_view. cbn. by rewrite lookup_insert_ne. Qed.

Lemma reg_reap d g : reg_view other (reap_body id d g) = reg_view other g.
Proof.
  unfold reap_body. destruct (bodies g !! id) as [[]|]; rewrite ?reg_cancel, ?reg_del_trailers; try done;
    destruct d; by rewrite ?reg_cancel.
Qed.

Lemma reg_unpend g : reg_view other (set_pending (pending g ∖ {[id]}) g) = reg_view other g.
Proof. unfold reg_view. cbn. f_equal. apply bool_decide_ext. set_solver. Qed.

Lemma reg_pend g : reg_view other (set_pending ({[id]} ∪ pending g) g) = reg_view other g.
Proof. unfold reg_view. cbn. f_equal. apply bool_decide_ext. set_solver. Qed.

Lemma reg_answer a g : reg_view other (set_answers (<[id := a]> (answers g)) g) = reg_view other g.
Proof. unfold reg_view. cbn. by rewrite lookup_insert_ne. Qed.

Lemma view_reg f s : reg_view other (f (reg s)) = reg_view other (reg s) → view other (upd_reg f s) = view other s.
Proof. intros H. unfold view. cbn. by rewrite H. Qed.

Lemma view_handler h s : view other (put_handler id h s) = view other s.
Proof. unfold view. cbn. by rewrite lookup_insert_ne. Qed.

Lemma view_pump p s : view other (put_pump id p s) = view other s.
Proof. unfold view. cbn. by rewrite lookup_insert_ne. Qed.

Lemma view_read r x y s :
  reads (tasks_of s) !! r = Some x ∨ reads (tasks_of s) !! r = None → read_of x = id → read_of y = id →
  view other (put_read r y s) = view other s.
Proof.
  intros Hr Hx Hy. unfold view. cbn. f_equal. rewrite map_filter_insert_not'; [done|cbn; congruence|].
  intros z Hz. destruct Hr as [Hr|Hr]; [|congruence]. cbn. rewrite Hr in Hz. injection Hz as <-. congruence.
Qed.

Lemma view_trace f s : trace_view other (f (trace s)) = trace_view other (trace s) → view other (upd_trace f s) = view other s.
Proof. intros H. unfold view. cbn. by rewrite H. Qed.

Lemma view_bytes z s : view other (upd_bytes z s) = view other s.
Proof. done. Qed.

Lemma trace_queue e t : e = JRequest id ∨ e = JClosed id → trace_view other (log_queue e t) = trace_view other t.
Proof.
  intros He. unfold trace_view. cbn. f_equal.
  - apply bool_decide_ext. rewrite elem_of_app, list_elem_of_singleton. destruct He as [->| ->]; split; [|tauto| |tauto];
      intros [?|?]; congruence || done.
  - rewrite filter_app, length_app. rewrite filter_cons_False; [cbn; lia|]. destruct He as [->| ->]; congruence.
Qed.

Lemma trace_outcome o t : trace_view other (log_outcome id o t) = trace_view other t.
Proof. unfold trace_view. cbn. by rewrite of_id_app, of_id_other, app_nil_r. Qed.

Lemma trace_frame f t : trace_view other (log_frame id f t) = trace_view other t.
Proof. unfold trace_view. cbn. by rewrite lookup_insert_ne. Qed.

Lemma trace_taker k t : trace_view other (log_taker id k t) = trace_view other t.
Proof. unfold trace_view. cbn. by rewrite of_id_app, of_id_other, app_nil_r. Qed.

Lemma view_closing (f : gset Z → gset Z) s :
  (other ∈ f (to_close (tasks_of s)) ↔ other ∈ to_close (tasks_of s)) →
  view other (upd_tasks (λ t, set_to_close (f (to_close t)) t) s) = view other s.
Proof. intros H. unfold view. cbn. f_equal. by apply bool_decide_ext. Qed.
End Others.

Lemma trace_top id z t : trace_view id (log_top z t) = trace_view id t.
Proof. done. Qed.

(** ** Whom a step is about *)

Definition subject (s : Http) (e : HttpEvent) : Z :=
  match e with
  | NArrive _ _ _ _ _ => next s + 1
  | NFrame id _ | NHandler id | NQueued id _ | NGone id | NPump id | NDrain id | NRead id | NRespond id _
  | NCancel id | NTake id | NTellClosed id => id
  | NReading r => match reads (tasks_of s) !! r with Some x => read_of x | None => 0 end
  | NTakeBack => match js_take (tasks_of s) with Some (id, _) => id | None => 0 end
  end.

Ltac elsewhere :=
  repeat first
    [ rewrite view_handler by done | rewrite view_pump by done | rewrite view_bytes
    | rewrite view_reg; [|first [rewrite ?reg_drop_rx by done; rewrite reg_cancel by done | rewrite reg_store by done
        | rewrite reg_reap by done | rewrite reg_unpend by done | rewrite reg_pend by done | rewrite reg_answer by done
        | rewrite reg_set_chan by done | rewrite reg_alter_chan by done | rewrite reg_put by done
        | rewrite reg_set_bodies by done | rewrite reg_del_bodies by done]; reflexivity]
    | rewrite view_trace; [|first [rewrite trace_outcome by done | rewrite trace_frame by done | rewrite trace_taker by done
        | rewrite (trace_queue _ _ ltac:(eassumption)) by eauto | rewrite trace_top]; reflexivity] ];
  try reflexivity.

Lemma view_next id s : view id (next_id s).1 = view id s.
Proof. done. Qed.

Lemma view_reserve id n s : view id (reserve n s).1.1 = view id s.
Proof. done. Qed.

Lemma view_reserving id other h b s : other ≠ id → view other (reserving id h b s) = view other s.
Proof. intros H. unfold reserving, reserve, goto. elsewhere. Qed.

Lemma view_taker id other spec k s : other ≠ id → view other (take_responder id spec k s) = view other s.
Proof. intros H. unfold take_responder. destruct (listens s id); elsewhere. Qed.

Lemma view_pump_over id other b s : other ≠ id → view other (pump_over id b s) = view other s.
Proof. intros H. unfold pump_over. elsewhere. Qed.

Lemma view_collect id other h buf oc d t f s : other ≠ id → view other (collect id h buf oc d t f s) = view other s.
Proof.
  intros H. unfold collect, goto. destruct (collect_next _ _ _ _ _) as [|[]]; rewrite ?view_reserving by done; elsewhere.
Qed.

Lemma view_pump_frame id other total f s : other ≠ id → view other (pump_frame id total f s) = view other s.
Proof.
  intros H. unfold pump_frame, reserve. destruct f; [destruct (_ <? _)|..]; rewrite ?view_pump_over by done; elsewhere.
Qed.

Definition reads_below (s : Http) : Prop := map_Forall (λ r _, r ≤ next s) (reads (tasks_of s)).

Lemma reads_fresh s : reads_below s → reads (tasks_of s) !! (next s + 1) = None.
Proof. intros H. apply eq_None_not_Some. intros [x Hx]. specialize (H _ _ Hx). cbn in H. lia. Qed.

Section Step.
Context (httparse_parse : nat → list byte → HttparseResult) (budget : Z).
Abbreviation http_step := (http_step httparse_parse budget).
Abbreviation handler_step := (handler_step budget).
Abbreviation pump_step := (pump_step budget).

Lemma view_handler_step id other h s s' : other ≠ id → handler_step id h s = Some s' → view other s' = view other s.
Proof.
  intros H. unfold HttpBody.handler_step, goto, refund, register. destruct (handler_pc h); try done.
  - intros [= <-]. destruct (over_budget _ _ _); [elsewhere|]. destruct body as [l [t|]|]; elsewhere.
    + rewrite view_reg; [elsewhere|]. by rewrite reg_store, reg_set_bodies.
    + rewrite view_reg; [elsewhere|]. unfold reg_view. cbn. by rewrite !lookup_insert_ne.
  - intros [= <-]. elsewhere.
  - destruct (answers _ !! id); [|destruct (decide _); [done|]]; intros [= <-]; elsewhere.
  - intros [= <-]. destruct (decide _); [|elsewhere]. destruct (dispatched && _); [|elsewhere].
    rewrite view_closing; [elsewhere|]. set_solver.
  - intros [= <-]. elsewhere.
  - intros [= <-]. elsewhere.
Qed.

Lemma view_pump_step id other p s s' : other ≠ id → pump_step id p s = Some s' → view other s' = view other s.
Proof.
  intros H. unfold HttpBody.pump_step, refund, refuse_unanswered, send_item. destruct p; try done.
  - intros [= <-]. destruct (over_budget _ _ _); elsewhere.
  - intros [= <-]. elsewhere.
  - intros [= <-]. elsewhere. destruct (refused_body_status error); [|done]. destruct (decide _); [|done]. by apply view_taker.
  - destruct (chans _ !! id) as [ch|]; [|done]. cbn [mbind option_bind].
    destruct (rx_open ch); [destruct (_ <? _)%nat; [|done]|]; intros [= <-]; destruct i; rewrite ?view_pump_over by done; elsewhere.
  - intros [= <-]. rewrite view_pump_over by done. elsewhere.
Qed.

Lemma view_read_step r x other s s' :
  reads (tasks_of s) !! r = Some x → other ≠ read_of x → read_step r x s = Some s' → view other s' = view other s.
Proof.
  intros Hr H. assert (∀ pc s', reads (tasks_of s') = reads (tasks_of s) → view other (read_goto r x pc s') = view other s') as Hg.
  { intros pc s1 E. unfold read_goto. apply (view_read (read_of x) _ H _ x); [left; by rewrite E|done|done]. }
  unfold read_step, read_gives, refund. destruct (read_pc x); try done.
  - destruct (take_body_stream _ _) as [g k] eqn:E. intros [= <-].
    assert (reg_view other g = reg_view other (reg s)) as Hv by (rewrite <-(reg_take (read_of x) other H (reg s)), E; done).
    destruct k; rewrite Hg by done; elsewhere; by rewrite view_reg.
  - cbn. intros [= <-]. destruct (bodies _ !! _) as [[]|]; [case_decide|..]; rewrite Hg by done; elsewhere;
      rewrite view_reg by (by rewrite reg_del_bodies); done.
  - intros [= <-]. rewrite Hg by done. rewrite view_reg; [done|]. unfold put_back. by rewrite reg_set_bodies.
  - unfold receive. destruct (chans _ !! _) as [ch|]; [|done]. cbn [mbind option_bind]. destruct (items ch) as [|i l].
    + destruct (tx_open ch); [done|]. intros [= <-]. by rewrite Hg.
    + intros [= <-]. destruct i; unfold read_gives; rewrite Hg by done; elsewhere.
  - intros [= <-]. rewrite Hg by done. elsewhere.
  - intros [= <-]. by rewrite Hg.
  - intros [= <-]. rewrite Hg by done. elsewhere.
  - destruct (finish_request_body _ _) as [g t] eqn:E. intros [= <-]. rewrite Hg by done. elsewhere.
    assert (reg_view other g = reg_view other (reg s)) as Hv by (rewrite <-(reg_finish (read_of x) other H (reg s)), E; done).
    rewrite view_reg; [done|]. destruct holds_rx; by rewrite ?reg_drop_rx.
Qed.

Lemma step_view s e s' other :
  reads_below s → http_step s e = Some s' → other ≠ subject s e → view other s' = view other s.
Proof.
  intros Hb Hs H. destruct e as [policy up st no req|id f|id|id ok|id|id|id|id|r|id spec|id|id| |id]; cbn [subject] in H;
    unfold HttpBody.http_step in Hs.
  - injection Hs as <-. unfold arrive, next_id, goto. destruct (entry _ _ _ _ _) as [| | |[]]; rewrite ?view_reserving by done; by elsewhere.
  - destruct (handlers _ !! id) as [h|]; [|done].
    assert (∀ s'', (match pumps_of (tasks_of s) !! id with
      | Some (PReading total) => Some (pump_frame id total f (upd_trace (log_frame id f) s)) | _ => None end) = Some s'' →
      view other s'' = view other s) as Hp.
    { intros s''. destruct (pumps_of _ !! id) as [[]|]; try done. intros [= <-]. rewrite view_pump_frame by done. elsewhere. }
    destruct (handler_pc h); try (by apply Hp). injection Hs as <-. rewrite view_collect by done. elsewhere.
  - destruct (handlers _ !! id) as [h|]; [|done]. by eapply view_handler_step.
  - destruct (handlers _ !! id) as [h|]; [|done]. cbn [mbind option_bind] in Hs. unfold queue_sent, goto in Hs.
    destruct (handler_pc h); try done. injection Hs as <-. destruct ok; [|elsewhere].
    rewrite view_trace; [elsewhere|]. rewrite (trace_queue id) by auto. done.
  - destruct (handlers _ !! id) as [h|]; [|done]. cbn [mbind option_bind] in Hs. unfold drop_handler, goto in Hs.
    destruct (handler_pc h); try done; injection Hs as <-; elsewhere.
  - destruct (pumps_of _ !! id) as [p|]; [|done]. by eapply view_pump_step.
  - unfold drain, refund in Hs. destruct (chans _ !! id) as [ch|]; [|done]. cbn [mbind option_bind] in Hs.
    destruct (rx_open ch); [done|]. destruct (items ch) as [|[]]; try done; injection Hs as <-; elsewhere.
  - unfold js_call in Hs. destruct (_ && _); [|done]. injection Hs as <-. cbn.
    etrans; [apply (view_read id _ H _ {| read_of := id; read_pc := RdStart |}); [right; exact (reads_fresh s Hb)|done|done]|done].
  - destruct (reads _ !! r) as [x|] eqn:Hr; [|done]. by eapply view_read_step.
  - unfold js_call, respond in Hs. destruct (_ && _); [|done]. injection Hs as <-. destruct (decide _); [|done]. by apply view_taker.
  - unfold js_call in Hs. destruct (_ && _); [|done]. injection Hs as <-. elsewhere.
  - unfold js_call, js_take_body in Hs. destruct (_ && _) eqn:Ej; [|done]. injection Hs as <-. cbn.
    assert (view other (upd_reg (λ _, set_bodies (delete id (bodies (reg s))) (reg s)) s) = view other s) as Hd
      by (rewrite view_reg; [done|by rewrite reg_del_bodies]).
    apply andb_true_iff in Ej as [_ Ej]. unfold js_free in Ej.
    destruct (bodies _ !! id) as [[]|]; try done.
    + by rewrite view_trace by (by rewrite trace_outcome).
    + rewrite <-Hd. unfold view. cbn. destruct (js_take _); [done|]. cbn. by rewrite decide_False.
    + rewrite <-Hd. unfold view. cbn. destruct (js_take _); [done|]. cbn. by rewrite decide_False.
  - destruct (js_take _) as [[id b]|] eqn:Ej; [|done]. injection Hs as <-.
    assert (view other (upd_reg (put_back id b) s) = view other s) as <- by (rewrite view_reg; [done|by apply reg_set_bodies]).
    unfold view. cbn. rewrite Ej. cbn. by rewrite decide_False.
  - case_decide; [|done]. injection Hs as <-. rewrite view_trace by (rewrite (trace_queue id) by auto; done).
    rewrite (view_closing other (λ p, p ∖ {[id]})); [done|]. set_solver.
Qed.
End Step.
