(* ===== verification/HttpRequest.v ===== *)
(** * HttpRequest: what one request goes through

    [vstep] is a step of a server as its request sees it; [step_local] says
    that every step is one. *)

From S2P Require Import Prelude RustStd HttpHead HttpBody HttpView.

Open Scope Z_scope.

(** ** Changes to a view *)

Definition vh (h : Handler) (v : View) : View :=
  {| v_handler := Some h; v_pump := v_pump v; v_reads := v_reads v; v_take := v_take v; v_closing := v_closing v;
     v_reg := v_reg v; v_trace := v_trace v |}.
Definition vp (p : PumpPc) (v : View) : View :=
  {| v_handler := v_handler v; v_pump := Some p; v_reads := v_reads v; v_take := v_take v; v_closing := v_closing v;
     v_reg := v_reg v; v_trace := v_trace v |}.
Definition vr (r : Z) (x : Read) (v : View) : View :=
  {| v_handler := v_handler v; v_pump := v_pump v; v_reads := <[r := x]> (v_reads v); v_take := v_take v;
     v_closing := v_closing v; v_reg := v_reg v; v_trace := v_trace v |}.
Definition vk (o : option RequestBody) (v : View) : View :=
  {| v_handler := v_handler v; v_pump := v_pump v; v_reads := v_reads v; v_take := o; v_closing := v_closing v;
     v_reg := v_reg v; v_trace := v_trace v |}.
Definition vc (b : bool) (v : View) : View :=
  {| v_handler := v_handler v; v_pump := v_pump v; v_reads := v_reads v; v_take := v_take v; v_closing := b;
     v_reg := v_reg v; v_trace := v_trace v |}.
Definition vg (f : RegView → RegView) (v : View) : View :=
  {| v_handler := v_handler v; v_pump := v_pump v; v_reads := v_reads v; v_take := v_take v; v_closing := v_closing v;
     v_reg := f (v_reg v); v_trace := v_trace v |}.
Definition vt (f : TraceView → TraceView) (v : View) : View :=
  {| v_handler := v_handler v; v_pump := v_pump v; v_reads := v_reads v; v_take := v_take v; v_closing := v_closing v;
     v_reg := v_reg v; v_trace := f (v_trace v) |}.

Definition g_body (b : option RequestBody) (r : RegView) : RegView :=
  {| v_body := b; v_trailers := v_trailers r; v_pending := v_pending r; v_answer := v_answer r; v_chan := v_chan r |}.
Definition g_trailers (t : option Pairs) (r : RegView) : RegView :=
  {| v_body := v_body r; v_trailers := t; v_pending := v_pending r; v_answer := v_answer r; v_chan := v_chan r |}.
Definition g_pending (b : bool) (r : RegView) : RegView :=
  {| v_body := v_body r; v_trailers := v_trailers r; v_pending := b; v_answer := v_answer r; v_chan := v_chan r |}.
Definition g_answer (a : option ResponseSpec) (r : RegView) : RegView :=
  {| v_body := v_body r; v_trailers := v_trailers r; v_pending := v_pending r; v_answer := a; v_chan := v_chan r |}.
Definition g_chan (c : option Chan) (r : RegView) : RegView :=
  {| v_body := v_body r; v_trailers := v_trailers r; v_pending := v_pending r; v_answer := v_answer r; v_chan := c |}.

Definition g_drop_rx (r : RegView) : RegView := g_chan (close_rx <$> v_chan r) r.

Definition g_remove (r : RegView) : RegView :=
  match v_body r with
  | Some BStream => g_drop_rx (g_body None r)
  | _ => g_body None r
  end.

Definition g_cancel (r : RegView) : RegView := g_trailers None (g_remove r).

Definition g_put (r : RegView) : RegView :=
  match v_body r with
  | Some BStreamPending => g_body (Some BStream) r
  | _ => g_drop_rx r
  end.

Definition g_store (t : Pairs) (r : RegView) : RegView :=
  match v_body r with
  | Some _ => g_trailers (Some t) r
  | None => r
  end.

Definition g_reap (dispatched : bool) (r : RegView) : RegView :=
  match v_body r with
  | Some BStream | Some BStreamPending => if dispatched then r else g_cancel r
  | Some (BFull _) => g_cancel r
  | None => g_trailers None r
  end.

Definition g_register (b : Collected) (r : RegView) : RegView :=
  let r := g_pending true r in
  match b with
  | CStream => g_chan (Some {| items := []; tx_open := true; rx_open := true |}) (g_body (Some BStream) r)
  | CBuffered l (Some t) => g_trailers (Some t) (g_body (Some (BFull l)) r)
  | CBuffered l None => g_body (Some (BFull l)) r
  end.

Definition t_known (t : TraceView) : TraceView :=
  {| v_known := true; v_closed := v_closed t; v_outcomes := v_outcomes t; v_frames := v_frames t; v_takers := v_takers t |}.
Definition t_closed (t : TraceView) : TraceView :=
  {| v_known := v_known t; v_closed := v_closed t + 1; v_outcomes := v_outcomes t; v_frames := v_frames t; v_takers := v_takers t |}.
Definition t_outcome (o : OpOutcome) (t : TraceView) : TraceView :=
  {| v_known := v_known t; v_closed := v_closed t; v_outcomes := v_outcomes t ++ [o]; v_frames := v_frames t; v_takers := v_takers t |}.
Definition t_frame (f : BodyFrame) (t : TraceView) : TraceView :=
  {| v_known := v_known t; v_closed := v_closed t; v_outcomes := v_outcomes t; v_frames := v_frames t ++ [f]; v_takers := v_takers t |}.
Definition t_taker (k : Taker) (t : TraceView) : TraceView :=
  {| v_known := v_known t; v_closed := v_closed t; v_outcomes := v_outcomes t; v_frames := v_frames t; v_takers := v_takers t ++ [k] |}.

Section At.
Context (id : Z).

Lemma at_handler h s : view id (put_handler id h s) = vh h (view id s).
Proof. unfold view, vh. cbn. by rewrite lookup_insert_eq. Qed.

Lemma at_pump p s : view id (put_pump id p s) = vp p (view id s).
Proof. unfold view, vp. cbn. by rewrite lookup_insert_eq. Qed.

Lemma at_read r x s : read_of x = id → view id (put_read r x s) = vr r x (view id s).
Proof. intros H. unfold view, vr. cbn. by rewrite map_filter_insert_True. Qed.

Lemma at_reg f lf s : reg_view id (f (reg s)) = lf (reg_view id (reg s)) → view id (upd_reg f s) = vg lf (view id s).
Proof. intros H. unfold view, vg. cbn. by rewrite H. Qed.

Lemma at_trace f lf s : trace_view id (f (trace s)) = lf (trace_view id (trace s)) → view id (upd_trace f s) = vt lf (view id s).
Proof. intros H. unfold view, vt. cbn. by rewrite H. Qed.

Lemma at_drop_rx g : reg_view id (drop_rx id g) = g_drop_rx (reg_view id g).
Proof. unfold reg_view, drop_rx, g_drop_rx, g_chan. cbn. by rewrite lookup_alter_eq. Qed.

Lemma at_remove g : reg_view id (remove_body id g) = g_remove (reg_view id g).
Proof.
  unfold remove_body, g_remove. cbn. destruct (bodies g !! id) as [[]|]; rewrite ?at_drop_rx;
    unfold reg_view, g_drop_rx, g_body; cbn; by rewrite lookup_delete_eq.
Qed.

Lemma at_cancel g : reg_view id (cancel_body_stream id g) = g_cancel (reg_view id g).
Proof. unfold cancel_body_stream, g_cancel. rewrite <-at_remove. unfold reg_view, g_trailers. cbn. by rewrite lookup_delete_eq. Qed.

Lemma at_put g : reg_view id (put_body_stream id g) = g_put (reg_view id g).
Proof.
  unfold put_body_stream, g_put. cbn. destruct (bodies g !! id) as [[]|]; rewrite ?at_drop_rx; try done.
  unfold reg_view, g_body. cbn. by rewrite lookup_insert_eq.
Qed.

Lemma at_store t g : reg_view id (store_trailers id t g) = g_store t (reg_view id g).
Proof.
  unfold store_trailers, g_store. cbn. destruct (bodies g !! id) eqn:E; [|done].
  unfold reg_view, g_trailers. cbn. by rewrite lookup_insert_eq.
Qed.

Lemma at_reap d g : reg_view id (reap_body id d g) = g_reap d (reg_view id g).
Proof.
  unfold reap_body, g_reap. cbn. destruct (bodies g !! id) as [[]|]; [apply at_cancel|..];
    try (destruct d; [done|apply at_cancel]). unfold reg_view, g_trailers. cbn. by rewrite lookup_delete_eq.
Qed.

Lemma at_unpend g : reg_view id (set_pending (pending g ∖ {[id]}) g) = g_pending false (reg_view id g).
Proof. unfold reg_view, g_pending. cbn. f_equal. apply bool_decide_eq_false. set_solver. Qed.

Lemma at_pend g : reg_view id (set_pending ({[id]} ∪ pending g) g) = g_pending true (reg_view id g).
Proof. unfold reg_view, g_pending. cbn. f_equal. apply bool_decide_eq_true. set_solver. Qed.

Lemma at_answer a g : reg_view id (set_answers (<[id := a]> (answers g)) g) = g_answer (Some a) (reg_view id g).
Proof. unfold reg_view, g_answer. cbn. by rewrite lookup_insert_eq. Qed.

Lemma at_set_body b g : reg_view id (set_bodies (<[id := b]> (bodies g)) g) = g_body (Some b) (reg_view id g).
Proof. unfold reg_view, g_body. cbn. by rewrite lookup_insert_eq. Qed.

Lemma at_del_body g : reg_view id (set_bodies (delete id (bodies g)) g) = g_body None (reg_view id g).
Proof. unfold reg_view, g_body. cbn. by rewrite lookup_delete_eq. Qed.

Lemma at_set_chan ch g : reg_view id (set_chans (<[id := ch]> (chans g)) g) = g_chan (Some ch) (reg_view id g).
Proof. unfold reg_view, g_chan. cbn. by rewrite lookup_insert_eq. Qed.

Lemma at_alter_chan f g : reg_view id (set_chans (alter f id (chans g)) g) = g_chan (f <$> chans g !! id) (reg_view id g).
Proof. unfold reg_view, g_chan. cbn. by rewrite lookup_alter_eq. Qed.

Lemma at_outcome o t : trace_view id (log_outcome id o t) = t_outcome o (trace_view id t).
Proof. unfold trace_view, t_outcome. cbn. by rewrite of_id_app, of_id_one. Qed.

Lemma at_frame f t : trace_view id (log_frame id f t) = t_frame f (trace_view id t).
Proof. unfold trace_view, t_frame. cbn. by rewrite lookup_insert_eq. Qed.

Lemma at_taker k t : trace_view id (log_taker id k t) = t_taker k (trace_view id t).
Proof. unfold trace_view, t_taker. cbn. by rewrite of_id_app, of_id_one. Qed.

Lemma at_request t : trace_view id (log_queue (JRequest id) t) = t_known (trace_view id t).
Proof.
  unfold trace_view, t_known. cbn. f_equal.
  - apply bool_decide_eq_true. rewrite elem_of_app, list_elem_of_singleton. by right.
  - rewrite filter_app, length_app, filter_cons_False by done. cbn. lia.
Qed.

Lemma at_closed t : trace_view id (log_queue (JClosed id) t) = t_closed (trace_view id t).
Proof.
  unfold trace_view, t_closed. cbn. f_equal.
  - apply bool_decide_ext. rewrite elem_of_app, list_elem_of_singleton. split; [|tauto]. by intros [?|?].
  - by rewrite filter_app, length_app, filter_cons_True.
Qed.
End At.

(** ** The machine *)

Definition no_view : View :=
  {| v_handler := None; v_pump := None; v_reads := ∅; v_take := None; v_closing := false;
     v_reg := {| v_body := None; v_trailers := None; v_pending := false; v_answer := None; v_chan := None |};
     v_trace := {| v_known := false; v_closed := 0; v_outcomes := []; v_frames := []; v_takers := [] |} |}.

Definition hat (h : Handler) (pc : HandlerPc) (v : View) : View :=
  vh {| notify_closed := notify_closed h; handler_pc := pc |} v.

Definition rat (r : Z) (x : Read) (pc : ReadPc) (v : View) : View :=
  vr r {| read_of := read_of x; read_pc := pc |} v.

(** A responder is sent on: the handler hears it while it waits. *)

Definition v_listens (v : View) : bool :=
  match v_handler v with
  | Some h => match handler_pc h with HQueueing _ | HWaiting _ => true | _ => false end
  | None => false
  end.

Definition v_take_responder (spec : ResponseSpec) (k : Taker) (v : View) : View :=
  let v' := vt (t_taker k) (vg (g_pending false) v) in
  if v_listens v then vg (g_answer (Some spec)) v' else v'.

Definition v_refuse (e : BodyError) (v : View) : View :=
  match refused_body_status e with
  | Some status =>
      let spec := {| spec_status := status; spec_body := RFull [] |} in
      if v_pending (v_reg v) then v_take_responder spec (ByPump spec) v else v
  | None => v
  end.

Definition v_pump_over (clean : bool) (v : View) : View :=
  vp (POver clean) (vg (λ r, g_chan (close_tx <$> v_chan r) r) v).

Definition v_items (ch : Chan) (l : list Item) (v : View) : View := vg (g_chan (Some (set_items l ch))) v.

Definition collecting_start (pc : HandlerPc) : Prop :=
  match pc with
  | HOver (AStatus n) => n ≠ 500
  | HOver AAborted | HOver AGone | HChecking _ _ CStream => True
  | HCollecting [] false 0 None => True
  | _ => False
  end.

(** The steps of a handler, with the view it leaves. *)

Inductive handler_at (h : Handler) (v : View) : HandlerPc → View → Prop :=
| ha_collect buf oc d t f pc :
    collect_next buf oc d t f = inl pc → handler_at h v (HCollecting buf oc d t) (hat h pc (vt (t_frame f) v))
| ha_collected buf oc d t f buf' t' c prev :
    collect_next buf oc d t f = inr (buf', t') → amount c = length buf' →
    handler_at h v (HCollecting buf oc d t) (hat h (HChecking c prev (CBuffered buf' t')) (vt (t_frame f) v))
| ha_over_budget c prev b : handler_at h v (HChecking c prev b) (hat h (HRefusing c) v)
| ha_register c prev b :
    handler_at h v (HChecking c prev b)
      (hat h (HQueueing c) (match b with CStream => vp (PReading 0) | _ => λ v, v end (vg (g_register b) v)))
| ha_refused c : handler_at h v (HRefusing c) (hat h (HOver (AStatus 503)) v)
| ha_queued c : handler_at h v (HQueueing c) (vt t_known (hat h (HWaiting c) v))
| ha_unqueued c : handler_at h v (HQueueing c) (hat h (HDropping c false (AStatus 503)) v)
| ha_gone_early buf oc d t : handler_at h v (HCollecting buf oc d t) (hat h (HOver AGone) v)
| ha_gone_queueing c : handler_at h v (HQueueing c) (hat h (HDropping c false AGone) v)
| ha_gone_waiting c : handler_at h v (HWaiting c) (hat h (HDropping c true AGone) v)
| ha_answered c spec :
    v_answer (v_reg v) = Some spec → handler_at h v (HWaiting c) (hat h (HDropping c true (answer_of spec)) v)
| ha_lost c :
    v_answer (v_reg v) = None → v_pending (v_reg v) = false →
    handler_at h v (HWaiting c) (hat h (HDropping c true (AStatus 500)) v)
| ha_guard c d a :
    v_pending (v_reg v) = true →
    handler_at h v (HDropping c d a)
      (vc ((d && notify_closed h) || v_closing v)
         (vt (t_taker (ByGuard (d && notify_closed h))) (vg (g_pending false) (hat h (HReaping c d a) v))))
| ha_guarded c d a :
    v_pending (v_reg v) = false → handler_at h v (HDropping c d a) (hat h (HReaping c d a) v)
| ha_reap c d a : handler_at h v (HReaping c d a) (hat h (HRefunding c a) (vg (g_reap d) v))
| ha_refund c a : handler_at h v (HRefunding c a) (hat h (HOver a) v).

Inductive pump_at (v : View) : PumpPc → View → Prop :=
| pa_end total : pump_at v (PReading total) (v_pump_over true (vt (t_frame FEnd) v))
| pa_error total e : pump_at v (PReading total) (vp (PFailing total e) (vt (t_frame (FError e)) v))
| pa_trailers total t :
    pump_at v (PReading total) (vp (PReading total) (vg (g_store t) (vt (t_frame (FTrailers t)) v)))
| pa_too_large total total' data :
    pump_at v (PReading total)
      (vp (PSending total' (IFailed (OFailed "request body too large"))) (vt (t_frame (FData data)) v))
| pa_data total total' data c prev :
    chunk_data c = data →
    pump_at v (PReading total) (vp (PChecking total' c prev) (vt (t_frame (FData data)) v))
| pa_over_budget total c prev : pump_at v (PChecking total c prev) (vp (PRefusing total c) v)
| pa_checked total c prev : pump_at v (PChecking total c prev) (vp (PSending total (IChunk c)) v)
| pa_refused total c :
    pump_at v (PRefusing total c) (vp (PSending total (IFailed (OFailed "server is busy"))) v)
| pa_failing total e : pump_at v (PFailing total e) (vp (PSending total (IFailed (OBodyFailure e))) (v_refuse e v))
| pa_sent total c ch :
    v_chan (v_reg v) = Some ch → rx_open ch = true →
    pump_at v (PSending total (IChunk c)) (vp (PReading total) (v_items ch (items ch ++ [IChunk c]) v))
| pa_sent_failure total o ch :
    v_chan (v_reg v) = Some ch → rx_open ch = true →
    pump_at v (PSending total (IFailed o)) (v_pump_over false (v_items ch (items ch ++ [IFailed o]) v))
| pa_nobody total c ch :
    v_chan (v_reg v) = Some ch → rx_open ch = false → pump_at v (PSending total (IChunk c)) (vp (PDropping c) v)
| pa_nobody_failure total o ch :
    v_chan (v_reg v) = Some ch → rx_open ch = false → pump_at v (PSending total (IFailed o)) (v_pump_over false v)
| pa_dropped c : pump_at v (PDropping c) (v_pump_over false v).

Inductive read_at (r : Z) (x : Read) (v : View) : ReadPc → View → Prop :=
| ra_ready :
    v_body (v_reg v) = Some BStream → read_at r x v RdStart (rat r x RdReceiving (vg (g_body (Some BStreamPending)) v))
| ra_in_flight :
    v_body (v_reg v) = Some BStreamPending →
    read_at r x v RdStart (rat r x RdOver (vt (t_outcome (OFailed "concurrent read of the same request body")) v))
| ra_absent :
    (∀ b, v_body (v_reg v) = Some b → ∃ l, b = BFull l) → read_at r x v RdStart (rat r x RdTaking v)
| ra_full l :
    v_body (v_reg v) = Some (BFull l) →
    read_at r x v RdTaking (rat r x RdOver (vt (t_outcome (OBytes l)) (vg (g_body None) v)))
| ra_none :
    v_body (v_reg v) = None ∨ v_body (v_reg v) = Some (BFull []) →
    read_at r x v RdTaking (rat r x (RdEnding false) (vg (g_body None) v))
| ra_other b :
    v_body (v_reg v) = Some b → (∀ l, b ≠ BFull l) →
    read_at r x v RdTaking (rat r x (RdPuttingBack b) (vg (g_body None) v))
| ra_put_back b : read_at r x v (RdPuttingBack b) (rat r x (RdEnding false) (vg (g_body (Some b)) v))
| ra_chunk ch c l :
    v_chan (v_reg v) = Some ch → items ch = IChunk c :: l →
    read_at r x v RdReceiving (rat r x (RdPutting c) (vt (t_outcome (OBytes (chunk_data c))) (v_items ch l v)))
| ra_failure ch o l :
    v_chan (v_reg v) = Some ch → items ch = IFailed o :: l →
    read_at r x v RdReceiving (rat r x (RdFailing o) (v_items ch l v))
| ra_end ch :
    v_chan (v_reg v) = Some ch → items ch = [] → tx_open ch = false → read_at r x v RdReceiving (rat r x (RdEnding true) v)
| ra_putting c : read_at r x v (RdPutting c) (rat r x (RdRefunding (chunk_charge c)) (vg g_put v))
| ra_refund c : read_at r x v (RdRefunding c) (rat r x RdOver v)
| ra_failing o : read_at r x v (RdFailing o) (rat r x RdOver (vt (t_outcome o) (vg (λ g, g_drop_rx (g_cancel g)) v)))
| ra_ending b :
    read_at r x v (RdEnding b)
      (rat r x RdOver (vt (t_outcome (body_end (v_trailers (v_reg v))))
                         (vg (λ g, if b then g_drop_rx (g_cancel g) else g_cancel g) v))).

Inductive vstep (v : View) (e : HttpEvent) : View → Prop :=
| vs_arrive h : v = no_view → collecting_start (handler_pc h) → vstep v e (vh h v)
| vs_handler h v' : v_handler v = Some h → handler_at h v (handler_pc h) v' → vstep v e v'
| vs_pump p v' : v_pump v = Some p → pump_at v p v' → vstep v e v'
| vs_drain ch i l :
    v_chan (v_reg v) = Some ch → rx_open ch = false → items ch = i :: l → vstep v e (v_items ch l v)
| vs_read_new r id :
    v_known (v_trace v) = true → v_reads v !! r = None → vstep v e (vr r {| read_of := id; read_pc := RdStart |} v)
| vs_read r x v' : v_reads v !! r = Some x → read_at r x v (read_pc x) v' → vstep v e v'
| vs_respond spec :
    v_pending (v_reg v) = true → v_known (v_trace v) = true → vstep v e (v_take_responder spec (ByJs spec (v_listens v)) v)
| vs_cancel id : e = NCancel id → v_known (v_trace v) = true → vstep v e (vg g_cancel v)
| vs_take_full l :
    v_known (v_trace v) = true → v_body (v_reg v) = Some (BFull l) →
    vstep v e (vt (t_outcome (OBytes l)) (vg (g_body None) v))
| vs_take_other id b :
    e = NTake id → v_known (v_trace v) = true → v_body (v_reg v) = Some b → (∀ l, b ≠ BFull l) →
    vstep v e (vk (Some b) (vg (g_body None) v))
| vs_take_back b : v_take v = Some b → vstep v e (vk None (vg (g_body (Some b)) v))
| vs_tell : v_closing v = true → vstep v e (vt t_closed (vc false v))
| vs_same : vstep v e v.

(** ** Every step is one of a request's *)

Section Local.
Context (httparse_parse : nat → list byte → HttparseResult) (budget : Z).
Abbreviation http_step := (http_step httparse_parse budget).
Abbreviation http_run := (http_run httparse_parse budget).
Abbreviation handler_step := (handler_step budget).
Abbreviation pump_step := (pump_step budget).

(** Ids that have not been given out are nobody's. *)

Record ids_below (s : Http) : Prop := {
  ids_views id : next s < id → view id s = no_view;
  ids_reads : reads_below s
}.

Lemma at_goto id h pc s : view id (goto id h pc s) = hat h pc (view id s).
Proof. apply at_handler. Qed.

Lemma at_upd_bytes id z s : view id (upd_bytes z s) = view id s.
Proof. done. Qed.

Lemma at_log_frame id f s : view id (upd_trace (log_frame id f) s) = vt (t_frame f) (view id s).
Proof. apply at_trace, at_frame. Qed.

Lemma at_reserving id h b s :
  ∃ c prev, view id (reserving id h b s) = hat h (HChecking c prev b) (view id s) ∧
            amount c = match b with CBuffered l _ => length l | CStream => 0%nat end.
Proof. unfold reserving, reserve. do 2 eexists. rewrite at_goto. split; reflexivity. Qed.

Lemma at_listens id s : v_listens (view id s) = listens s id.
Proof. done. Qed.

Lemma at_take_responder id spec k s : view id (take_responder id spec k s) = v_take_responder spec k (view id s).
Proof.
  unfold take_responder, v_take_responder. rewrite at_listens.
  assert (view id (upd_trace (log_taker id k) (upd_reg (λ g, set_pending (pending g ∖ {[id]}) g) s)) =
    vt (t_taker k) (vg (g_pending false) (view id s))) as E.
  { rewrite (at_trace id _ (t_taker k)) by apply at_taker. by rewrite (at_reg id _ (g_pending false)) by apply at_unpend. }
  destruct (listens s id); [|done]. rewrite (at_reg id _ (g_answer (Some spec))) by apply at_answer. by rewrite E.
Qed.

Lemma at_pump_over id b s : view id (pump_over id b s) = v_pump_over b (view id s).
Proof.
  unfold pump_over, v_pump_over. rewrite at_pump.
  by rewrite (at_reg id _ (λ r, g_chan (close_tx <$> v_chan r) r)) by (rewrite at_alter_chan; done).
Qed.

Lemma at_items id ch l s :
  view id (upd_reg (λ g, set_chans (<[id := set_items l ch]> (chans g)) g) s) = v_items ch l (view id s).
Proof. apply at_reg, at_set_chan. Qed.

Lemma local_handler id h s s' :
  handler_step id h s = Some s' → handler_at h (view id s) (handler_pc h) (view id s').
Proof.
  unfold HttpBody.handler_step, refund. destruct (handler_pc h) as [|c prev b|c|c|c|c d a|c d a|c a|] eqn:Ep; try done.
  - intros [= <-]. destruct (over_budget _ _ _); rewrite at_goto; [apply ha_over_budget|].
    assert (view id (register id b s) = match b with CStream => vp (PReading 0) | _ => λ v, v end (vg (g_register b) (view id s))) as ->;
      [|apply ha_register]. unfold register. destruct b as [l [t|]|].
    + rewrite (at_reg id _ (λ r, g_store t (g_body (Some (BFull l)) r))) by (by rewrite at_store, at_set_body).
      rewrite (at_reg id _ (g_pending true)) by apply at_pend. done.
    + rewrite (at_reg id _ (g_body (Some (BFull l)))) by apply at_set_body.
      rewrite (at_reg id _ (g_pending true)) by apply at_pend. done.
    + rewrite at_pump. unfold view, reg_view. cbn. rewrite !lookup_insert_eq. unfold vp, vg, g_register. cbn.
      rewrite (bool_decide_true (id ∈ {[id]} ∪ pending (reg s))) by set_solver. done.
  - intros [= <-]. rewrite at_goto. apply ha_refused.
  - destruct (answers _ !! id) as [spec|] eqn:Ea; [intros [= <-]; rewrite at_goto; by apply ha_answered|].
    destruct (decide _) as [|Hn]; [done|]. intros [= <-]. rewrite at_goto. apply ha_lost; [done|by apply bool_decide_eq_false].
  - intros [= <-]. destruct (decide (id ∈ pending (reg s))) as [Hp|Hp].
    + assert (v_pending (v_reg (view id s)) = true) as Hp' by (by apply bool_decide_eq_true).
      pose proof (ha_guard h (view id s) c d a Hp') as Hg.
      assert (view id (upd_trace (log_taker id (ByGuard (d && notify_closed h)))
        (upd_reg (λ g, set_pending (pending g ∖ {[id]}) g) (goto id h (HReaping c d a) s))) =
        vt (t_taker (ByGuard (d && notify_closed h))) (vg (g_pending false) (hat h (HReaping c d a) (view id s)))) as E.
      { rewrite (at_trace id _ (t_taker _)) by apply at_taker.
        rewrite (at_reg id _ (g_pending false)) by apply at_unpend. by rewrite at_goto. }
      destruct (d && notify_closed h); cbn [orb] in Hg.
      * rewrite <-E in Hg. unfold vc in Hg. cbn in Hg. unfold view at 2. cbn.
        rewrite bool_decide_true by set_solver. exact Hg.
      * rewrite <-E in Hg. unfold vc in Hg. cbn in Hg. exact Hg.
    + rewrite at_goto. apply ha_guarded. by apply bool_decide_eq_false.
  - intros [= <-]. rewrite at_goto. rewrite (at_reg id _ (g_reap d)) by apply at_reap. apply ha_reap.
  - intros [= <-]. rewrite at_goto. apply ha_refund.
Qed.

Lemma local_pump id p s s' : pump_step id p s = Some s' → pump_at (view id s) p (view id s').
Proof.
  unfold HttpBody.pump_step, refund. destruct p as [|total c prev|total c|total e|total i|c|]; try done.
  - intros [= <-]. destruct (over_budget _ _ _); rewrite at_pump; [apply pa_over_budget|apply pa_checked].
  - intros [= <-]. rewrite at_pump. apply pa_refused.
  - intros [= <-]. rewrite at_pump.
    match goal with |- pump_at _ _ (vp _ (view id ?x)) => assert (view id x = v_refuse e (view id s)) as ->; [|apply pa_failing] end.
    unfold v_refuse. destruct (refused_body_status e); [|done]. unfold refuse_unanswered. cbn [view v_reg reg_view v_pending].
    destruct (decide _) as [Hp|Hp]; [rewrite bool_decide_true by done; apply at_take_responder|by rewrite bool_decide_false].
  - unfold send_item. destruct (chans _ !! id) as [ch|] eqn:Ec; [|done]. cbn [mbind option_bind].
    destruct (rx_open ch) eqn:Er; [destruct (_ <? _)%nat; [|done]|]; intros [= <-]; destruct i;
      rewrite ?at_pump_over, ?at_pump, ?at_items; econstructor; done.
  - intros [= <-]. rewrite at_pump_over. apply pa_dropped.
Qed.

Lemma local_read r x s s' :
  read_step r x s = Some s' → read_at r x (view (read_of x) s) (read_pc x) (view (read_of x) s').
Proof.
  unfold read_step, read_gives, refund. set (id := read_of x).
  assert (∀ pc s, view id (read_goto r x pc s) = rat r x pc (view id s)) as Hg by (intros; by apply at_read).
  destruct (read_pc x) as [| |b| |c|c|o|b|]; try done.
  - unfold take_body_stream. destruct (bodies _ !! id) as [[]|] eqn:Eb; intros [= <-]; rewrite Hg.
    + apply ra_absent. cbn. rewrite Eb. intros b [= <-]. by eexists.
    + rewrite (at_reg id _ (g_body (Some BStreamPending))) by apply at_set_body. by apply ra_ready.
    + rewrite (at_trace id _ (t_outcome _)) by apply at_outcome. by apply ra_in_flight.
    + apply ra_absent. cbn. by rewrite Eb.
  - cbn. intros [= <-].
    assert (view id (upd_reg (λ _, set_bodies (delete id (bodies (reg s))) (reg s)) s) = vg (g_body None) (view id s)) as Hd
      by (apply at_reg, at_del_body).
    destruct (bodies _ !! id) as [[]|] eqn:Eb; [case_decide as He|..]; rewrite Hg.
    + rewrite Hd. subst. apply ra_none. by right.
    + rewrite (at_trace id _ (t_outcome _)) by apply at_outcome. rewrite Hd. by apply ra_full.
    + rewrite Hd. by apply ra_other.
    + rewrite Hd. by apply ra_other.
    + rewrite Hd. apply ra_none. by left.
  - intros [= <-]. rewrite Hg. rewrite (at_reg id _ (g_body (Some b))) by apply at_set_body. apply ra_put_back.
  - unfold receive. fold id. destruct (chans _ !! id) as [ch|] eqn:Ec; [|done]. cbn [mbind option_bind].
    destruct (items ch) as [|i l] eqn:Ei.
    + destruct (tx_open ch) eqn:Et; [done|]. intros [= <-]. rewrite Hg. by eapply ra_end.
    + intros [= <-]. destruct i; unfold read_gives; rewrite Hg.
      * rewrite (at_trace id _ (t_outcome _)) by apply at_outcome. rewrite at_items. by eapply ra_chunk.
      * rewrite at_items. by eapply ra_failure.
  - intros [= <-]. rewrite Hg. rewrite (at_reg id _ g_put) by apply at_put. apply ra_putting.
  - intros [= <-]. rewrite Hg. apply ra_refund.
  - intros [= <-]. rewrite Hg. rewrite (at_trace id _ (t_outcome _)) by apply at_outcome.
    rewrite (at_reg id _ (λ g, g_drop_rx (g_cancel g))) by (by rewrite at_drop_rx, at_cancel). apply ra_failing.
  - cbn. intros [= <-]. rewrite Hg. rewrite (at_trace id _ (t_outcome _)) by apply at_outcome.
    rewrite (at_reg id _ (λ g, if b then g_drop_rx (g_cancel g) else g_cancel g)); [apply ra_ending|].
    destruct b; rewrite ?at_drop_rx; change (set_trailers _ _) with (cancel_body_stream id (reg s)); by rewrite at_cancel.
Qed.
Lemma status_not_500 e : status e ≠ 500.
Proof. by destruct e. Qed.

Lemma local_arrive policy up st no req s :
  view (next s + 1) s = no_view →
  vstep (view (next s + 1) s) (NArrive policy up st no req)
    (view (next s + 1) (arrive httparse_parse policy up st no req s)).
Proof.
  intros Hv. unfold arrive, next_id. set (s1 := {| body_bytes := _ |}).
  assert (view (next s + 1) s1 = view (next s + 1) s) as E by done.
  destruct (entry _ _ _ _ _) as [n| | |[]] eqn:En; try (rewrite at_goto, E; apply vs_arrive; [done|cbn; try done]).
  - intros ->. unfold entry in En. destruct (raw_head req); [|done]. destruct (check_request_head _ _) as [?|e].
    + destruct up; try done; [by destruct (is_connect req)|by destruct (_ && _)].
    + injection En as En. by apply (status_not_500 e).
  - destruct (at_reserving (next s + 1) {| notify_closed := no; handler_pc := HOver AGone |} CStream s1) as (c & prev & -> & _).
    rewrite E. by apply vs_arrive.
Qed.

Lemma local_frame id f s s' : http_step s (NFrame id f) = Some s' → vstep (view id s) (NFrame id f) (view id s').
Proof.
  cbn. destruct (handlers _ !! id) as [h|] eqn:Eh; [|done]. intros Hs.
  assert ((match pumps_of (tasks_of s) !! id with
      | Some (PReading total) => Some (pump_frame id total f (upd_trace (log_frame id f) s)) | _ => None end) = Some s' →
      vstep (view id s) (NFrame id f) (view id s')) as Hp.
  { destruct (pumps_of _ !! id) as [[total| | | | | |]|] eqn:Ep; try done. intros [= <-].
    eapply vs_pump; [exact Ep|]. unfold pump_frame. destruct f as [data|t| |e].
    - destruct (_ <? _); [rewrite at_pump, at_log_frame; by apply pa_too_large|].
      unfold reserve. rewrite at_pump. change (view id (upd_trace (log_top _) _)) with (view id (upd_trace (log_frame id (FData data)) s)).
      rewrite at_log_frame. by apply pa_data.
    - rewrite at_pump. rewrite (at_reg id _ (g_store t)) by apply at_store. rewrite at_log_frame. apply pa_trailers.
    - rewrite at_pump_over, at_log_frame. apply pa_end.
    - rewrite at_pump, at_log_frame. apply pa_error. }
  destruct (handler_pc h) eqn:Ep; try (by apply Hp). injection Hs as <-. eapply vs_handler; [exact Eh|]. rewrite Ep.
  unfold collect. destruct (collect_next _ _ _ _ _) as [pc|[buf' t']] eqn:Ec.
  - rewrite at_goto, at_log_frame. by apply ha_collect.
  - destruct (at_reserving id h (CBuffered buf' t') (upd_trace (log_frame id f) s)) as (c & prev & -> & Ha).
    rewrite at_log_frame. by eapply ha_collected.
Qed.

Lemma step_local s e s' :
  ids_below s → http_step s e = Some s' → vstep (view (subject s e) s) e (view (subject s e) s').
Proof.
  intros [Hv Hb] Hs.
  destruct e as [policy up st no req|id f|id|id ok|id|id|id|id|r|id spec|id|id| |id]; cbn [subject].
  - injection Hs as <-. apply local_arrive, Hv. lia.
  - by apply local_frame.
  - cbn in Hs. destruct (handlers _ !! id) as [h|] eqn:Eh; [|done]. eapply vs_handler; [exact Eh|by apply local_handler].
  - cbn in Hs. destruct (handlers _ !! id) as [h|] eqn:Eh; [|done]. cbn in Hs. eapply vs_handler; [exact Eh|].
    unfold queue_sent in Hs. destruct (handler_pc h); try done. injection Hs as <-. destruct ok; [|rewrite at_goto; apply ha_unqueued].
    rewrite (at_trace id _ t_known) by apply at_request. rewrite at_goto. apply ha_queued.
  - cbn in Hs. destruct (handlers _ !! id) as [h|] eqn:Eh; [|done]. cbn in Hs. eapply vs_handler; [exact Eh|].
    unfold drop_handler in Hs. destruct (handler_pc h); try done; injection Hs as <-; rewrite at_goto; constructor.
  - cbn in Hs. destruct (pumps_of _ !! id) as [p|] eqn:Ep; [|done]. eapply vs_pump; [exact Ep|by apply local_pump].
  - cbn in Hs. unfold drain in Hs. destruct (chans _ !! id) as [ch|] eqn:Ec; [|done]. cbn [mbind option_bind] in Hs.
    destruct (rx_open ch) eqn:Er; [done|]. destruct (items ch) as [|i l] eqn:Ei; [done|]. injection Hs as <-.
    replace (view id (match i with IChunk c => _ | IFailed _ => _ end)) with (v_items ch l (view id s))
      by (destruct i; unfold refund; by rewrite ?at_upd_bytes, at_items). by eapply vs_drain.
  - cbn in Hs. unfold js_call in Hs. destruct (known id s) eqn:Ek; [|done]. destruct (js_free s); [|done]. injection Hs as <-. cbn.
    rewrite at_read by done. change (view id {| body_bytes := _ |}) with (view id s). apply vs_read_new; [exact Ek|].
    cbn. rewrite map_lookup_filter_None. left. by apply reads_fresh.
  - cbn in Hs. destruct (reads _ !! r) as [x|] eqn:Er; [|done]. eapply vs_read; [|by apply local_read].
    cbn. by rewrite map_lookup_filter_Some.
  - cbn in Hs. unfold js_call in Hs. destruct (known id s) eqn:Ek; [|done]. destruct (js_free s); [|done]. injection Hs as <-.
    unfold respond. destruct (decide _) as [Hp|]; [|apply vs_same]. rewrite at_take_responder. rewrite <-at_listens.
    apply vs_respond; [by apply bool_decide_eq_true|exact Ek].
  - cbn in Hs. unfold js_call in Hs. destruct (known id s) eqn:Ek; [|done]. destruct (js_free s); [|done]. injection Hs as <-.
    rewrite (at_reg id _ g_cancel) by apply at_cancel. by eapply vs_cancel.
  - cbn in Hs. unfold js_call in Hs. destruct (known id s) eqn:Ek; [|done]. destruct (js_free s) eqn:Ej; [|done]. injection Hs as <-.
    unfold js_take_body. cbn.
    assert (view id (upd_reg (λ _, set_bodies (delete id (bodies (reg s))) (reg s)) s) = vg (g_body None) (view id s)) as Hd
      by (apply at_reg, at_del_body).
    destruct (bodies _ !! id) as [[]|] eqn:Eb.
    + rewrite (at_trace id _ (t_outcome _)) by apply at_outcome. rewrite Hd. by apply vs_take_full.
    + assert (vk (Some BStream) (vg (g_body None) (view id s)) = view id (upd_tasks (set_js_take (Some (id, BStream)))
        (upd_reg (λ _, set_bodies (delete id (bodies (reg s))) (reg s)) s))) as <-
        by (rewrite <-Hd; unfold view, vk; cbn; by rewrite decide_True).
      by eapply vs_take_other.
    + assert (vk (Some BStreamPending) (vg (g_body None) (view id s)) = view id (upd_tasks (set_js_take (Some (id, BStreamPending)))
        (upd_reg (λ _, set_bodies (delete id (bodies (reg s))) (reg s)) s))) as <-
        by (rewrite <-Hd; unfold view, vk; cbn; by rewrite decide_True).
      by eapply vs_take_other.
    + rewrite Hd. assert (vg (g_body None) (view id s) = view id s) as ->; [|apply vs_same].
      unfold vg, g_body, view, reg_view. cbn. by rewrite Eb.
  - cbn in Hs. destruct (js_take _) as [[id b]|] eqn:Ej; [|done]. injection Hs as <-.
    assert (vk None (vg (g_body (Some b)) (view id s)) = view id (upd_tasks (set_js_take None) (upd_reg (put_back id b) s))) as <-.
    { rewrite <-(at_reg id (put_back id b)) by apply at_set_body. done. }
    apply vs_take_back. cbn. rewrite Ej. cbn. by rewrite decide_True.
  - cbn in Hs. case_decide as Hc; [|done]. injection Hs as <-. rewrite (at_trace id _ t_closed) by apply at_closed.
    assert (vc false (view id s) = view id (upd_tasks (λ t, set_to_close (to_close t ∖ {[id]}) t) s)) as <-.
    { unfold vc, view. cbn. f_equal. symmetry. apply bool_decide_eq_false. set_solver. }
    apply vs_tell. by apply bool_decide_eq_true.
Qed.
(** A step's request has been given out. *)

Lemma subject_given s e s' :
  http_step s e = Some s' → (∀ policy up st no req, e ≠ NArrive policy up st no req) → view (subject s e) s ≠ no_view.
Proof.
  intros Hs Hne Hv. assert (∀ id, view id s = no_view → known id s = false) as Hk
    by (intros id Hi; by apply (f_equal (λ v, v_known (v_trace v))) in Hi).
  assert (∀ id f, view id s = no_view → js_call id f s = None) as Hj by (intros id f Hi; unfold js_call; by rewrite Hk).
  destruct e as [policy up st no req|id f|id|id ok|id|id|id|id|r|id spec|id|id| |id]; cbn [subject] in Hv; unfold HttpBody.http_step in Hs;
    try (by rewrite Hj in Hs); try (pose proof (f_equal v_handler Hv) as Hh; cbn in Hh; by rewrite Hh in Hs).
  - by destruct (Hne policy up st no req).
  - pose proof (f_equal v_pump Hv) as Hp. cbn in Hp. by rewrite Hp in Hs.
  - pose proof (f_equal (λ v, v_chan (v_reg v)) Hv) as Hc. cbn in Hc. unfold drain in Hs. by rewrite Hc in Hs.
  - destruct (reads _ !! r) as [x|] eqn:Er; [|done]. pose proof (f_equal (λ v, v_reads v !! r) Hv) as Hr. cbn in Hr.
    rewrite lookup_empty, map_lookup_filter_None in Hr. destruct Hr as [Hr|Hr]; [congruence|]. by apply (Hr x).
  - destruct (js_take _) as [[id b]|] eqn:Ej; [|done]. pose proof (f_equal v_take Hv) as Ht. cbn in Ht. rewrite Ej in Ht. cbn in Ht.
    by rewrite decide_True in Ht.
  - pose proof (f_equal v_closing Hv) as Hc. cbn in Hc. apply bool_decide_eq_false in Hc. by rewrite decide_False in Hs.
Qed.

(** The ids a state has given out, and its reads. *)

Definition given (s : Http) : Z * gmap Z Read := (next s, reads (tasks_of s)).

Lemma given_kept s e s' :
  http_step s e = Some s' → match e with NArrive _ _ _ _ _ | NRead _ | NReading _ => False | _ => True end → given s' = given s.
Proof.
  intros Hs He. assert (∀ id f, (∀ s, given (f s) = given s) → js_call id f s = Some s' → given s' = given s) as Hj.
  { intros id f Hf. unfold js_call. destruct (_ && _); [|done]. intros [= <-]. apply Hf. }
  assert (∀ id spec k s, given (take_responder id spec k s) = given s) as Ht
    by (intros; unfold take_responder; by destruct (listens _ _)).
  destruct e as [policy up st no req|id f|id|id ok|id|id|id|id|r|id spec|id|id| |id]; try done; unfold HttpBody.http_step in Hs.
  - destruct (handlers _ !! id) as [h|]; [|done]. assert (∀ total, given (pump_frame id total f (upd_trace (log_frame id f) s)) = given s) as Hp
      by (intros; unfold pump_frame; destruct f; [destruct (_ <? _)|..]; done).
    destruct (handler_pc h); try (destruct (pumps_of _ !! id) as [[]|]; try done; injection Hs as <-; apply Hp).
    injection Hs as <-. unfold collect. by destruct (collect_next _ _ _ _ _) as [|[]].
  - destruct (handlers _ !! id) as [h|]; [|done]. cbn in Hs. unfold HttpBody.handler_step in Hs.
    destruct (handler_pc h); try done; try (by injection Hs as <-).
    + injection Hs as <-. destruct (over_budget _ _ _); [done|]. by destruct body as [? []|].
    + destruct (answers _ !! id); [by injection Hs as <-|]. destruct (decide _); [done|]. by injection Hs as <-.
    + injection Hs as <-. destruct (decide _); [|done]. by destruct (_ && _).
  - destruct (handlers _ !! id) as [h|]; [|done]. cbn in Hs. unfold queue_sent in Hs. destruct (handler_pc h); try done.
    injection Hs as <-. by destruct ok.
  - destruct (handlers _ !! id) as [h|]; [|done]. cbn in Hs. unfold drop_handler in Hs. destruct (handler_pc h); try done; by injection Hs as <-.
  - destruct (pumps_of _ !! id) as [p|]; [|done]. cbn in Hs. unfold HttpBody.pump_step in Hs. destruct p; try done; try (by injection Hs as <-).
    + injection Hs as <-. by destruct (over_budget _ _ _).
    + injection Hs as <-. cbn. destruct (refused_body_status _); [|done]. unfold refuse_unanswered. destruct (decide _); [|done]. apply Ht.
    + unfold send_item in Hs. destruct (chans _ !! id); [|done]. cbn [mbind option_bind] in Hs.
      destruct (rx_open _); [destruct (_ <? _)%nat; [|done]|]; injection Hs as <-; by destruct i.
  - unfold drain in Hs. destruct (chans _ !! id) as [ch|]; [|done]. cbn [mbind option_bind] in Hs.
    destruct (rx_open ch); [done|]. destruct (items ch) as [|[]]; try done; by injection Hs as <-.
  - apply (Hj id _) in Hs; [done|]. intros s0. unfold respond. destruct (decide _); [apply Ht|done].
  - by apply (Hj id _) in Hs.
  - apply (Hj id _) in Hs; [done|]. intros s0. unfold js_take_body. destruct (remove_request_body _ _) as [g [[]|]]; done.
  - destruct (js_take _) as [[]|]; [|done]. by injection Hs as <-.
  - case_decide; [|done]. by injection Hs as <-.
Qed.

Lemma given_reading r x s s' :
  read_step r x s = Some s' → next s' = next s ∧ ∃ y, reads (tasks_of s') = <[r := y]> (reads (tasks_of s)).
Proof.
  unfold read_step. intros Hs. destruct (read_pc x); try done; try (injection Hs as <-; split; [done|by eexists]).
  - destruct (take_body_stream _ _) as [g []]; injection Hs as <-; (split; [done|by eexists]).
  - destruct (remove_request_body _ _) as [g [[]|]]; try (injection Hs as <-; split; [done|by eexists]).
    injection Hs as <-. case_decide; (split; [done|by eexists]).
  - unfold receive in Hs. destruct (chans _ !! _) as [ch|]; [|done]. cbn [mbind option_bind] in Hs.
    destruct (items ch) as [|[]]; [destruct (tx_open ch); [done|]|..]; injection Hs as <-; (split; [done|by eexists]).
Qed.

Lemma ids_step s e s' : ids_below s → http_step s e = Some s' → ids_below s'.
Proof.
  intros Hi Hs. pose proof Hi as [Hv Hb].
  assert (next s ≤ next s' ∧ subject s e ≤ next s' ∧ reads_below s') as (Hn & Hsub & Hb').
  { destruct e as [policy up st no req|id f|id|id ok|id|id|id|id|r|id spec|id|id| |id];
      try (pose proof (given_kept _ _ _ Hs I) as [= En Er]; unfold reads_below; rewrite En, Er; split_and!; [done| |done];
           apply Z.nlt_ge; intros Hlt; eapply subject_given; [exact Hs|done|by apply Hv]).
    - injection Hs as <-. unfold arrive. cbn. destruct (entry _ _ _ _ _) as [| | |[]]; cbn; (split_and!; [lia|lia|]);
        intros r x Hx; pose proof (Hb r x Hx); cbn in *; lia.
    - split_and!.
      + cbn in Hs. unfold js_call in Hs. destruct (_ && _); [|done]. injection Hs as <-. cbn. lia.
      + assert (next s ≤ next s') by (cbn in Hs; unfold js_call in Hs; destruct (_ && _); [|done]; injection Hs as <-; cbn; lia).
        etrans; [|exact H]. apply Z.nlt_ge. intros Hlt. eapply subject_given; [exact Hs|done|by apply Hv].
      + cbn in Hs. unfold js_call in Hs. destruct (_ && _); [|done]. injection Hs as <-. intros r x. cbn.
        rewrite lookup_insert_Some. intros [[<- _]|[_ Hx]]; [lia|]. pose proof (Hb r x Hx). cbn in *. lia.
    - assert (subject s (NReading r) ≤ next s) as Hle
        by (apply Z.nlt_ge; intros Hlt; eapply subject_given; [exact Hs|done|by apply Hv]).
      unfold HttpBody.http_step in Hs. destruct (reads _ !! r) as [x|] eqn:Ex; [|done]. cbn [mbind option_bind] in Hs.
      destruct (given_reading _ _ _ _ Hs) as (En & y & Er). rewrite En. split_and!; [done|exact Hle|].
      intros r' z. rewrite Er, En, lookup_insert_Some. intros [[<- _]|[_ Hz]]; [exact (Hb _ _ Ex)|exact (Hb _ _ Hz)]. }
  split; [|done]. intros id Hlt. rewrite <-(Hv id) by lia. eapply step_view; [exact Hb|exact Hs|lia].
Qed.

Lemma ids_new : ids_below Http_new.
Proof. split; [done|]. intros r x. cbn. by rewrite lookup_empty. Qed.

Lemma http_run_app s es es' : http_run s (es ++ es') = (s ← http_run s es; http_run s es').
Proof.
  revert s. induction es as [|e es IH]; intros s; cbn; [done|]. destruct (HttpBody.http_step _ _ s e); cbn; [apply IH|done].
Qed.

Lemma http_run_ind (P : list HttpEvent → Http → Prop) :
  P [] Http_new →
  (∀ es s e s', http_run Http_new es = Some s → ids_below s → http_step s e = Some s' → P es s → P (es ++ [e]) s') →
  ∀ es s, http_run Http_new es = Some s → P es s.
Proof.
  intros H0 Hst es s Hr. enough (ids_below s ∧ P es s) as [_ ?] by done. revert s Hr.
  induction es as [|e es IH] using rev_ind; intros s Hr; [injection Hr as <-; split; [apply ids_new|done]|].
  rewrite http_run_app in Hr. destruct (http_run Http_new es) as [s1|] eqn:E; [|done]. cbn in Hr.
  destruct (HttpBody.http_step _ _ s1 e) as [s2|] eqn:E2; [|done]. injection Hr as <-. destruct (IH s1 eq_refl) as [Hi HP].
  split; [by eapply ids_step|by eapply Hst].
Qed.

(** What holds of a request that is not there, and is kept by its steps, holds
    of every request. *)

Lemma run_views (I : Z → list HttpEvent → View → Prop) :
  (∀ id, I id [] no_view) →
  (∀ id es e v, I id es v → I id (es ++ [e]) v) →
  (∀ id es e v v', (∀ i, e = NCancel i ∨ e = NTake i → i = id) → vstep v e v' → I id es v → I id (es ++ [e]) v') →
  ∀ es s, http_run Http_new es = Some s → ∀ id, I id es (view id s).
Proof.
  intros H0 H1 H2. apply (http_run_ind (λ es s, ∀ id, I id es (view id s))); [intros id; apply H0|].
  intros es s e s' _ Hi Hs HI id. destruct (decide (id = subject s e)) as [->|Hne].
  - eapply H2; [|by apply step_local|apply HI]. intros i [->| ->]; done.
  - rewrite (step_view _ _ s e s') by (done || apply Hi). apply H1, HI.
Qed.
End Local.
