(* ===== verification/HttpAnswers.v ===== *)
(** * HttpAnswers: a request is answered once *)

From S2P Require Import Prelude RustStd HttpHead HttpBody HttpView HttpRequest.

Open Scope Z_scope.

(** The answer a taker of the responder gave the handler. *)

Definition gives (k : Taker) : option ResponseSpec :=
  match k with
  | ByJs spec true | ByPump spec => Some spec
  | ByJs _ false | ByGuard _ => None
  end.

Definition told (k : Taker) : bool :=
  match k with
  | ByGuard b => b
  | _ => false
  end.

(** What a handler returns, given whether JS had the request and who took its
    responder. *)

Definition fits (known : bool) (a : Answer) (k : Taker) : Prop :=
  match a with
  | ASpec spec => gives k = Some spec
  | AAborted => ∃ spec, gives k = Some spec ∧ spec_body spec = RAbort
  | AStatus n => n = 503 ∧ known = false
  | AGone => True
  end.

(** A request that has not been registered: only frames have been read. *)

Definition nothing (v : View) : Prop :=
  v_pump v = None ∧ v_reads v = ∅ ∧ v_take v = None ∧ v_closing v = false ∧ v_reg v = v_reg no_view ∧
  v_known (v_trace v) = false ∧ v_closed (v_trace v) = 0%nat ∧ v_outcomes (v_trace v) = [] ∧ v_takers (v_trace v) = [].

Definition untaken (v : View) : Prop :=
  v_pending (v_reg v) = true ∧ v_takers (v_trace v) = [] ∧ v_answer (v_reg v) = None.

Definition heard (v : View) : Prop :=
  v_pending (v_reg v) = false ∧
  ∃ k spec, v_takers (v_trace v) = [k] ∧ gives k = Some spec ∧ v_answer (v_reg v) = Some spec.

Definition taken (a : Answer) (v : View) : Prop :=
  v_pending (v_reg v) = false ∧ ∃ k, v_takers (v_trace v) = [k] ∧ fits (v_known (v_trace v)) a k.

Definition stage (v : View) : Prop :=
  match v_handler v with
  | None => v = no_view
  | Some h =>
      match handler_pc h with
      | HCollecting _ _ _ _ | HChecking _ _ _ | HRefusing _ => nothing v
      | HQueueing _ => v_known (v_trace v) = false ∧ (untaken v ∨ heard v)
      | HWaiting _ => v_known (v_trace v) = true ∧ (untaken v ∨ heard v)
      | HDropping _ d a =>
          v_known (v_trace v) = d ∧
          ((v_pending (v_reg v) = true ∧ v_takers (v_trace v) = [] ∧ (a = AGone ∨ a = AStatus 503 ∧ d = false)) ∨ taken a v)
      | HReaping _ d a => v_known (v_trace v) = d ∧ taken a v
      | HRefunding _ a => taken a v
      | HOver a => (nothing v ∧ a ≠ AStatus 500) ∨ taken a v
      end
  end.

Definition tells (v : View) : Prop :=
  (v_closed (v_trace v) + (if v_closing v then 1 else 0))%nat = length (filter (λ k, told k = true) (v_takers (v_trace v))) ∧
  ∀ b, ByGuard b ∈ v_takers (v_trace v) →
    match v_handler v with
    | Some h => b = v_known (v_trace v) && notify_closed h ∧
                match handler_pc h with HQueueing _ | HWaiting _ => False | _ => True end
    | None => False
    end.

(** ** Kept by every step *)

Definition core (v : View) : option Handler * bool * option ResponseSpec * bool * list Taker :=
  (v_handler v, v_pending (v_reg v), v_answer (v_reg v), v_known (v_trace v), v_takers (v_trace v)).

Lemma stage_same v v' : core v' = core v → ¬ nothing v → stage v → stage v'.
Proof.
  unfold core, stage. intros [= Eh Ep Ea Ek Et] Hn. rewrite Eh. destruct (v_handler v) as [h|] eqn:E.
  - unfold untaken, heard, taken. rewrite Ep, Ea, Ek, Et. destruct (handler_pc h); try done.
    intros [[? _]|?]; [done|by right].
  - intros ->. by destruct Hn.
Qed.

Lemma tells_same v v' :
  core v' = core v → v_closing v' = v_closing v → v_closed (v_trace v') = v_closed (v_trace v) → tells v → tells v'.
Proof. unfold core, tells. intros [= Eh Ep Ea Ek Et] Ec El. by rewrite Eh, Ek, Et, Ec, El. Qed.

Definition inv (v : View) : Prop := stage v ∧ tells v.

Lemma answered_same v v' :
  core v' = core v → v_closing v' = v_closing v → v_closed (v_trace v') = v_closed (v_trace v) → ¬ nothing v → inv v → inv v'.
Proof. intros Hc H1 H2 Hn [Hs Ht]. split; [by eapply stage_same|by eapply tells_same]. Qed.

Lemma inv_responder spec k v :
  v_pending (v_reg v) = true → told k = false → (∀ b, k ≠ ByGuard b) → (v_listens v = true → gives k = Some spec) → inv v →
  inv (v_take_responder spec k v).
Proof.
  intros Hp Ht Hng Hg [Hs Htl].
  assert (v_takers (v_trace v) = [] ∧ ∃ h, v_handler v = Some h ∧
    match handler_pc h with HQueueing _ | HWaiting _ => True | HDropping _ d a => v_known (v_trace v) = d ∧ (a = AGone ∨ a = AStatus 503 ∧ d = false) | _ => False end)
    as (E & h & Eh & Hpc).
  { unfold stage in Hs. destruct (v_handler v) as [h|] eqn:Eh; [|by subst v]. unfold nothing, untaken, heard, taken in Hs.
    destruct (handler_pc h) eqn:Epc;
      try (destruct Hs as (_ & _ & _ & _ & E & _); by rewrite E in Hp); try (by destruct Hs as [Hs _]; congruence).
    - destruct Hs as [Hk [[? [? ?]]|[? _]]]; [|congruence]. split; [done|]. exists h. by rewrite Epc.
    - destruct Hs as [Hk [[? [? ?]]|[? _]]]; [|congruence]. split; [done|]. exists h. by rewrite Epc.
    - destruct Hs as [Hk [[? [? ?]]|[? _]]]; [|congruence]. split; [done|]. exists h. by rewrite Epc.
    - destruct Hs as [_ [? _]]. congruence.
    - destruct Hs as [[(_ & _ & _ & _ & E & _) _]|[? _]]; [by rewrite E in Hp|congruence]. }
  unfold v_take_responder, v_listens in *. rewrite Eh in *. split.
  - unfold stage. destruct (handler_pc h) eqn:Epc; try done; cbn; rewrite Eh, Epc; cbn.
    + unfold stage in Hs. rewrite Eh, Epc in Hs. destruct Hs as [Hk _]. split; [done|]. right. split; [done|].
      exists k, spec. cbn. rewrite E. by rewrite Hg.
    + unfold stage in Hs. rewrite Eh, Epc in Hs. destruct Hs as [Hk _]. split; [done|]. right. split; [done|].
      exists k, spec. cbn. rewrite E. by rewrite Hg.
    + destruct Hpc as [Hk Ha]. split; [done|]. right. split; [done|]. exists k. cbn. rewrite E. split; [done|].
      destruct Ha as [->|[-> ->]]; done.
  - unfold tells in *. rewrite E in Htl. destruct Htl as [Htl _].
    assert (∀ b, ByGuard b ∉ [k]) as Hnk by (intros b Hb%list_elem_of_singleton; by apply (Hng b)).
    destruct (handler_pc h); cbn; rewrite E; cbn [app]; (split; [rewrite Htl, filter_cons_False by congruence; done|]);
      intros b Hb; by destruct (Hnk b).
Qed.

Definition early (pc : HandlerPc) : Prop :=
  match pc with
  | HCollecting _ _ _ _ | HChecking _ _ _ | HRefusing _ => True
  | HOver a => a ≠ AStatus 500
  | _ => False
  end.

Lemma collect_early buf oc d t f pc : collect_next buf oc d t f = inl pc → early pc.
Proof.
  unfold collect_next, collected, refused_body_status. destruct f as [data|t'| |e]; intros H; repeat case_match; simplify_eq; try done.
  all: by intros [=].
Qed.

Lemma inv_early h v : nothing v → early (handler_pc h) → inv (vh h v).
Proof.
  intros Hn He. pose proof Hn as (_ & _ & _ & Hc & _ & _ & Hcl & _ & Ht). split.
  - unfold stage. cbn. destruct (handler_pc h); try done. by left.
  - split; cbn; rewrite Ht; [by rewrite Hc, Hcl|]. intros b Hb. by apply not_elem_of_nil in Hb.
Qed.

Lemma inv_register h c prev b v :
  v_handler v = Some h → handler_pc h = HChecking c prev b → inv v →
  inv (hat h (HQueueing c) (match b with CStream => vp (PReading 0) | _ => λ v, v end (vg (g_register b) v))).
Proof.
  intros Hh Hp [Hs [Ht _]]. unfold stage in Hs. rewrite Hh, Hp in Hs. destruct Hs as (_ & _ & _ & Hc & Hr & Hk & Hcl & _ & Htk).
  split.
  - unfold stage, untaken. cbn. destruct b as [? []|]; cbn; rewrite Hr; cbn; auto.
  - split; [|intros k]; destruct b as [? []|]; cbn; rewrite Htk; cbn; try (by rewrite Hc, Hcl); intros H; by apply not_elem_of_nil in H.
Qed.

(** A handler that goes on leaves who took its responder as it is. *)

Lemma inv_hat h pc v :
  v_handler v = Some h → inv v → stage (hat h pc v) →
  match pc with HQueueing _ | HWaiting _ => ∀ b, ByGuard b ∉ v_takers (v_trace v) | _ => True end → inv (hat h pc v).
Proof.
  intros Hh [_ [Ht Hg]] Hs Hp. split; [done|]. split; [exact Ht|]. intros b Hb. cbn in *. specialize (Hg b Hb). rewrite Hh in Hg.
  destruct Hg as [-> _]. split; [done|]. destruct pc; try done; by apply (Hp _ Hb).
Qed.

Lemma no_guard h v b :
  inv v → v_handler v = Some h → match handler_pc h with HQueueing _ | HWaiting _ => True | _ => False end →
  ByGuard b ∉ v_takers (v_trace v).
Proof. intros [_ [_ Hg]] Hh Hp Hb. specialize (Hg b Hb). rewrite Hh in Hg. destruct Hg as [_ Hg]. by destruct (handler_pc h). Qed.

Lemma heard_fits v spec : heard v → v_answer (v_reg v) = Some spec → taken (answer_of spec) v.
Proof.
  intros (Hp & k & spec' & Ht & Hg & Ha) E. rewrite E in Ha. injection Ha as <-. split; [done|]. exists k. split; [done|].
  unfold answer_of. destruct (spec_body spec) eqn:Eb; cbn; try done. by exists spec.
Qed.

Lemma inv_handler h v v' : v_handler v = Some h → handler_at h v (handler_pc h) v' → inv v → inv v'.
Proof.
  intros Hh Hat Hi. pose proof Hi as [Hs _]. unfold stage in Hs. rewrite Hh in Hs.
  destruct (handler_pc h) eqn:Ep; inversion Hat; subst; clear Hat.
  - eapply (inv_early _ (vt _ v)); [exact Hs|by eapply collect_early].
  - by apply (inv_early _ (vt _ v)).
  - by apply inv_early.
  - by apply inv_early.
  - by eapply inv_register.
  - by apply inv_early.
  - destruct Hs as [Hk Hu]. pose proof Hi as [_ [Ht _]]. split; [by split|]. split; [exact Ht|]. intros b Hb.
    destruct (no_guard h v b Hi Hh); [by rewrite Ep|exact Hb].
  - destruct Hs as [Hk [(? & ? & ?)|Hu]]; (apply inv_hat; [done..| |done]); (split; [exact Hk|]); [left; auto|right].
    destruct Hu as (? & k & spec & ? & ? & ?). split; [done|]. by exists k.
  - destruct Hs as [Hk [(? & ? & ?)|Hu]]; (apply inv_hat; [done..| |done]); (split; [exact Hk|]); [left; auto|right].
    destruct Hu as (? & k & spec & ? & ? & ?). split; [done|]. by exists k.
  - destruct Hs as [Hk [(? & ? & ?)|Hu]]; (apply inv_hat; [done..| |done]); (split; [exact Hk|]); [left; auto|right].
    destruct Hu as (? & k & spec & ? & ? & ?). split; [done|]. by exists k.
  - destruct Hs as [Hk [(_ & _ & ?)|Hu]]; [congruence|]. apply inv_hat; [done..| |done]. split; [exact Hk|]. right. by apply heard_fits.
  - destruct Hs as [Hk [(? & _ & ?)|(_ & ? & ? & _ & _ & ?)]]; congruence.
  - destruct Hs as [Hk [(_ & Et & Ha)|[? _]]]; [|congruence]. destruct Hi as [_ [Htl _]]. rewrite Et in Htl. cbn in Htl.
    destruct (v_closing v) eqn:Ec; [lia|]. split.
    + split; [exact Hk|]. split; [done|]. exists (ByGuard (dispatched && notify_closed h)). cbn. rewrite Et. split; [done|].
      by destruct Ha as [->|[-> ->]].
    + split; cbn; rewrite Et; cbn.
      * rewrite orb_false_r. destruct (dispatched && notify_closed h); cbn; rewrite Nat.add_0_r in Htl; by rewrite Htl.
      * intros b Hb%list_elem_of_singleton. injection Hb as ->. by rewrite Hk.
  - destruct Hs as [Hk [[? _]|Hu]]; [congruence|]. by apply inv_hat.
  - destruct Hs as [Hk Hu]. assert (inv (hat h (HRefunding c a) v)) as Hi' by (by apply inv_hat).
    eapply answered_same; [| | | |exact Hi']; try done.
    + unfold core. cbn. unfold g_reap, g_cancel, g_remove. by repeat case_match.
    + intros (_ & _ & _ & _ & _ & _ & _ & _ & E). destruct Hu as (_ & k & Et & _). cbn in E. congruence.
  - apply inv_hat; [done..| |done]. by right.
Qed.

Lemma inv_pump v p v' : v_pump v = Some p → pump_at v p v' → inv v → inv v'.
Proof.
  intros Hp Hat Hi. assert (¬ nothing v) as Hn by (intros [? _]; congruence).
  inversion Hat; subst; clear Hat; try (eapply answered_same; [| | |exact Hn|exact Hi]; try done;
    unfold core, g_store; cbn; repeat case_match; done).
  assert (inv (v_refuse e v)) as Hr.
  { unfold v_refuse. destruct (refused_body_status e); [|done]. destruct (v_pending (v_reg v)) eqn:E; [|done].
    by apply inv_responder. }
  eapply answered_same; [| | | |exact Hr]; try done. intros [E _]. revert E. unfold v_refuse, v_take_responder.
  repeat case_match; cbn; congruence.
Qed.

Lemma inv_read r x v v' : v_reads v !! r = Some x → read_at r x v (read_pc x) v' → inv v → inv v'.
Proof.
  intros Hr Hat Hi. assert (¬ nothing v) as Hn by (intros (_ & E & _); by rewrite E in Hr).
  inversion Hat; subst; clear Hat; (eapply answered_same; [| | |exact Hn|exact Hi]; try done;
    unfold core, g_cancel, g_remove, g_put; cbn; repeat case_match; done).
Qed.

Lemma answered_step e v v' : vstep v e v' → inv v → inv v'.
Proof.
  intros Hst Hi. assert (∀ b, v_known (v_trace v) = b → b = true → ¬ nothing v) as Hn
    by (intros b E -> (_ & _ & _ & _ & _ & E' & _); congruence).
  inversion Hst; subst; clear Hst; try done.
  - apply inv_early; [done|]. destruct (handler_pc h) as [| | | | | | | |[]]; done || (intros [= ->]; done).
  - by eapply inv_handler.
  - by eapply inv_pump.
  - eapply answered_same; [| | | |exact Hi]; try done. intros (_ & _ & _ & _ & E & _). rewrite E in H. done.
  - eapply answered_same; [| | | |exact Hi]; try done. by eapply Hn.
  - by eapply inv_read.
  - apply inv_responder; try done. by intros ->.
  - eapply answered_same; [| | | |exact Hi]; try done; [|by eapply Hn]. unfold core, g_cancel, g_remove. cbn. by repeat case_match.
  - eapply answered_same; [| | | |exact Hi]; try done. by eapply Hn.
  - eapply answered_same; [| | | |exact Hi]; try done. by eapply Hn.
  - eapply answered_same; [| | | |exact Hi]; try done. intros (_ & _ & E & _). congruence.
  - destruct Hi as [Hs Ht]. assert (¬ nothing v) by (intros (_ & _ & _ & E & _); congruence).
    split; [exact (stage_same v (vt t_closed (vc false v)) eq_refl H0 Hs)|]. destruct Ht as [Ht Hg]. rewrite H in Ht. split; [|exact Hg]. cbn. by rewrite Nat.add_0_r.
Qed.

Lemma inv_none : inv no_view.
Proof. split; [done|]. split; [done|]. intros b Hb. by apply not_elem_of_nil in Hb. Qed.

Section Answers.
Context (httparse_parse : nat → list byte → HttparseResult) (budget : Z).
Abbreviation http_run := (http_run httparse_parse budget).

Lemma run_inv es s : http_run Http_new es = Some s → ∀ id, inv (view id s).
Proof.
  apply (run_views httparse_parse budget (λ _ _ v, inv v)); [intros; apply inv_none|done|]. intros id es' e v v' _. by apply answered_step.
Qed.

Lemma inv_few v : inv v → (length (v_takers (v_trace v)) ≤ 1)%nat.
Proof.
  intros [Hs _]. assert (v_takers (v_trace v) = [] ∨ ∃ k, v_takers (v_trace v) = [k]) as [->|[k ->]]; [|cbn; lia..].
  unfold stage, nothing, untaken, heard, taken in Hs. destruct (v_handler v) as [h|]; [|subst v; by left].
  destruct (handler_pc h); naive_solver.
Qed.

(** C35 A request is answered once.  Its responder has at most one taker: JS,
    the pump that refuses its body, or its handler's guard.  A handler that is
    waiting and whose responder is gone has its answer in hand, so it never
    returns the 500 of a lost one; one that JS had and that is over returned
    just what the one taker sent it, or was dropped by hyper.  JS is told that
    a request is closed once for each guard that was to tell it, and a guard
    tells it exactly when JS had the request and asked to hear. *)
Theorem one_answer es s id :
  http_run Http_new es = Some s →
  let takers := of_id id (taken_by (trace s)) in
  (length takers ≤ 1)%nat ∧
  (length (filter (λ e, e = JClosed id) (js_queue (trace s))) + (if decide (id ∈ to_close (tasks_of s)) then 1 else 0))%nat =
    length (filter (λ k, told k = true) takers) ∧
  match handlers (tasks_of s) !! id with
  | None => takers = [] ∧ known id s = false
  | Some h =>
      (∀ b, ByGuard b ∈ takers → b = known id s && notify_closed h) ∧
      match handler_pc h with
      | HWaiting _ =>
          id ∉ pending (reg s) → ∃ k spec, takers = [k] ∧ gives k = Some spec ∧ answers (reg s) !! id = Some spec
      | HOver a => a ≠ AStatus 500 ∧ (known id s = true → ∃ k, takers = [k] ∧ fits true a k)
      | _ => True
      end
  end.
Proof.
  intros Hr takers. pose proof (run_inv es s Hr id) as Hi. split; [exact (inv_few _ Hi)|]. destruct Hi as [Hs [Ht Hg]].
  split; [cbn in Ht; by repeat case_decide|]. unfold stage in Hs. cbn [v_handler view] in Hs, Hg.
  destruct (handlers (tasks_of s) !! id) as [h|] eqn:Eh.
  - split; [intros b Hb; by destruct (Hg b Hb)|]. destruct (handler_pc h); try done.
    + intros Hp. destruct Hs as [_ [[E _]|(_ & k & spec & ?)]]; [by apply bool_decide_eq_true in E|by exists k, spec].
    + destruct Hs as [[(_ & _ & _ & _ & _ & Ek & _) Ha]|(_ & k & Hk & Hf)].
      * split; [done|]. intros E. change (known id s = false) in Ek. congruence.
      * change (v_known (v_trace (view id s))) with (known id s) in Hf. split; [|intros E; exists k; by rewrite <-E].
        destruct a; try done. destruct Hf as [-> _]. done.
  - split; [exact (f_equal (λ v, v_takers (v_trace v)) Hs)|exact (f_equal (λ v, v_known (v_trace v)) Hs)].
Qed.
End Answers.
