(* ===== verification/HttpLedger.v ===== *)
(** * HttpLedger: the reservations of request bodies

    A step of a server makes a reservation, ends one, or hands it on
    ([ledger_step]); and what goes on after a check is a reservation that
    passed it ([checked_step]). *)

From S2P Require Import Prelude RustStd HttpHead HttpBody HttpView HttpRequest HttpAnswers.

Open Scope Z_scope.

(** ** Sums over a map *)

Definition sum_map {A} (f : A → Z) (m : gmap Z A) : Z := map_fold (λ _ x acc, f x + acc) 0 m.

Lemma sum_new {A} (f : A → Z) id x m : m !! id = None → sum_map f (<[id := x]> m) = sum_map f m + f x.
Proof. intros H. unfold sum_map. rewrite map_fold_insert_L; [lia| |done]. intros. lia. Qed.

Lemma sum_put {A} (f : A → Z) id x y m : m !! id = Some x → sum_map f (<[id := y]> m) = sum_map f m - f x + f y.
Proof.
  intros H. rewrite <-(insert_delete_id m id x H) at 2. rewrite <-insert_delete_eq.
  rewrite !sum_new by apply lookup_delete_eq. lia.
Qed.

Lemma sum_alter {A} (f : A → Z) g id m : (∀ x, f (g x) = f x) → sum_map f (alter g id m) = sum_map f m.
Proof.
  intros Hg. destruct (m !! id) as [x|] eqn:E.
  - replace (alter g id m) with (<[id := g x]> m); [rewrite (sum_put f id x), Hg by done; lia|].
    apply map_eq. intros j. destruct (decide (j = id)) as [->|Hne].
    + by rewrite lookup_insert_eq, lookup_alter_eq, E.
    + by rewrite lookup_insert_ne, lookup_alter_ne.
  - by rewrite alter_id by (intros x Hx; congruence).
Qed.

Lemma sum_le {A} (f g : A → Z) m : map_Forall (λ _ x, f x ≤ g x) m → sum_map f m ≤ sum_map g m.
Proof.
  induction m as [|id x m Hm IH] using map_ind; [done|]. rewrite map_Forall_insert by done. intros [H1 H2].
  rewrite !sum_new by done. specialize (IH H2). lia.
Qed.

Lemma sum_zero {A} (f : A → Z) m : map_Forall (λ _ x, f x = 0) m → sum_map f m = 0.
Proof.
  induction m as [|id x m Hm IH] using map_ind; [done|]. rewrite map_Forall_insert by done. intros [H1 H2].
  rewrite sum_new by done. rewrite H1, IH by done. done.
Qed.

Lemma sum_add {A} (f g : A → Z) m : sum_map (λ x, f x + g x) m = sum_map f m + sum_map g m.
Proof. induction m as [|id x m Hm IH] using map_ind; [done|]. rewrite !sum_new by done. lia. Qed.

(** ** What holds a reservation *)

Definition handler_charge (h : Handler) : option Charge :=
  match handler_pc h with
  | HChecking c _ _ | HRefusing c | HQueueing c | HWaiting c | HDropping c _ _ | HReaping c _ _ | HRefunding c _ => Some c
  | HCollecting _ _ _ _ | HOver _ => None
  end.

Definition item_charge (i : Item) : option Charge :=
  match i with
  | IChunk c => Some (chunk_charge c)
  | IFailed _ => None
  end.

Definition pump_charge (p : PumpPc) : option Charge :=
  match p with
  | PChecking _ c _ | PRefusing _ c | PDropping c => Some (chunk_charge c)
  | PSending _ i => item_charge i
  | PReading _ | PFailing _ _ | POver _ => None
  end.

Definition read_charge (x : Read) : option Charge :=
  match read_pc x with
  | RdPutting c => Some (chunk_charge c)
  | RdRefunding c => Some c
  | _ => None
  end.

Section Weights.
Context (g : Charge → Z).

Definition weigh (o : option Charge) : Z :=
  match o with
  | Some c => g c
  | None => 0
  end.

Fixpoint weigh_items (l : list Item) : Z :=
  match l with
  | [] => 0
  | i :: l => weigh (item_charge i) + weigh_items l
  end.

(** The reservations of a state, each with its weight. *)

Definition total (s : Http) : Z :=
  sum_map (λ h, weigh (handler_charge h)) (handlers (tasks_of s)) +
  sum_map (λ p, weigh (pump_charge p)) (pumps_of (tasks_of s)) +
  sum_map (λ x, weigh (read_charge x)) (reads (tasks_of s)) +
  sum_map (λ ch, weigh_items (items ch)) (chans (reg s)).

Lemma weigh_items_app l l' : weigh_items (l ++ l') = weigh_items l + weigh_items l'.
Proof. induction l as [|i l IH]; cbn; [done|]. rewrite IH. lia. Qed.

Lemma total_goto id h pc s :
  handlers (tasks_of s) !! id = Some h →
  total (goto id h pc s) = total s - weigh (handler_charge h) + weigh (handler_charge {| notify_closed := notify_closed h; handler_pc := pc |}).
Proof. intros H. unfold total. cbn. rewrite (sum_put _ id h) by done. lia. Qed.

Lemma total_handler_new id h s :
  handlers (tasks_of s) !! id = None → total (put_handler id h s) = total s + weigh (handler_charge h).
Proof. intros H. unfold total. cbn. rewrite sum_new by done. lia. Qed.

Lemma total_pump id p p' s :
  pumps_of (tasks_of s) !! id = Some p → total (put_pump id p' s) = total s - weigh (pump_charge p) + weigh (pump_charge p').
Proof. intros H. unfold total. cbn. rewrite (sum_put _ id p) by done. lia. Qed.

Lemma total_pump_new id p s :
  pumps_of (tasks_of s) !! id = None → total (put_pump id p s) = total s + weigh (pump_charge p).
Proof. intros H. unfold total. cbn. rewrite sum_new by done. lia. Qed.

Lemma total_read r x y s :
  reads (tasks_of s) !! r = Some x → total (put_read r y s) = total s - weigh (read_charge x) + weigh (read_charge y).
Proof. intros H. unfold total. cbn. rewrite (sum_put _ r x) by done. lia. Qed.

Lemma total_read_new r x s :
  reads (tasks_of s) !! r = None → total (put_read r x s) = total s + weigh (read_charge x).
Proof. intros H. unfold total. cbn. rewrite sum_new by done. lia. Qed.

Lemma total_same_chans f s : chans (f (reg s)) = chans (reg s) → total (upd_reg f s) = total s.
Proof. intros H. unfold total. cbn. by rewrite H. Qed.

Lemma total_alter f h id s :
  (∀ ch, items (h ch) = items ch) → chans (f (reg s)) = alter h id (chans (reg s)) → total (upd_reg f s) = total s.
Proof. intros Hh H. unfold total. cbn. rewrite H, sum_alter; [done|]. intros ch. by rewrite Hh. Qed.

Lemma total_items id ch l s :
  chans (reg s) !! id = Some ch →
  total (upd_reg (λ r, set_chans (<[id := set_items l ch]> (chans r)) r) s) = total s - weigh_items (items ch) + weigh_items l.
Proof. intros H. unfold total. cbn. rewrite (sum_put _ id ch) by done. cbn. lia. Qed.
End Weights.

(** ** What a step does to the reservations *)

Definition bytes_of (c : Charge) : Z := Z.of_nat (amount c).

Inductive ledger (s s' : Http) : Prop :=
| ledger_same :
    tops (trace s') = tops (trace s) → body_bytes s' = body_bytes s → (∀ g, total g s' = total g s) → ledger s s'
| ledger_made c :
    number c = length (tops (trace s)) → tops (trace s') = tops (trace s) ++ [body_bytes s + bytes_of c] →
    body_bytes s' = body_bytes s + bytes_of c → (∀ g, total g s' = total g s + g c) → ledger s s'
| ledger_ended c :
    tops (trace s') = tops (trace s) → body_bytes s' = body_bytes s - bytes_of c → (∀ g, total g s' = total g s - g c) →
    ledger s s'.

Lemma total_trace g f s : total g (upd_trace f s) = total g s.
Proof. done. Qed.

Lemma total_refund g c s : total g (refund c s) = total g s.
Proof. done. Qed.

Lemma total_close_rx g id f s :
  (∀ r, chans (f r) = alter close_rx id (chans r) ∨ chans (f r) = chans r) → total g (upd_reg f s) = total g s.
Proof. intros H. destruct (H (reg s)) as [E|E]; [by apply (total_alter g f close_rx id)|by apply total_same_chans]. Qed.

Lemma chans_remove id r : chans (remove_body id r) = alter close_rx id (chans r) ∨ chans (remove_body id r) = chans r.
Proof. unfold remove_body, drop_rx. destruct (bodies r !! id) as [[]|]; cbn; auto. Qed.

Lemma chans_reap id d r : chans (reap_body id d r) = alter close_rx id (chans r) ∨ chans (reap_body id d r) = chans r.
Proof. unfold reap_body. pose proof (chans_remove id r). destruct (bodies r !! id) as [[]|], d; cbn; auto. Qed.

Section Ledger.
Context (httparse_parse : nat → list byte → HttparseResult) (budget : Z).

Lemma ledger_reserving id h b s :
  handlers (tasks_of s) !! id = None ∨ (∃ h0, handlers (tasks_of s) !! id = Some h0 ∧ handler_charge h0 = None) →
  ledger s (reserving id h b s).
Proof.
  intros Hh. unfold reserving. cbn. set (c := {| number := _ |}). apply (ledger_made _ _ c); try done. intros g.
  destruct Hh as [Hh|(h0 & Hh & Hc)].
  - unfold goto. rewrite total_handler_new by done. done.
  - unfold total. cbn. rewrite (sum_put _ id h0) by done. rewrite Hc. cbn. lia.
Qed.

Lemma ledger_goto id h pc s s0 :
  handlers (tasks_of s) !! id = Some h → tops (trace s) = tops (trace s0) → body_bytes s = body_bytes s0 →
  (∀ g, total g s = total g s0) → handler_charge {| notify_closed := notify_closed h; handler_pc := pc |} = handler_charge h →
  ledger s0 (goto id h pc s).
Proof.
  intros Hh Ht Hb Hg Hc. apply ledger_same; try done. intros g. rewrite (total_goto _ _ h), Hc, Hg by done. lia.
Qed.

Lemma ledger_handler_refund id h c pc s :
  handlers (tasks_of s) !! id = Some h → handler_charge h = Some c →
  handler_charge {| notify_closed := notify_closed h; handler_pc := pc |} = None → ledger s (goto id h pc (refund c s)).
Proof.
  intros Hh Hc Hp. apply (ledger_ended _ _ c); try done. intros g. rewrite (total_goto _ _ h) by done. rewrite Hc, Hp, total_refund. cbn. lia.
Qed.

Lemma total_register g id b s :
  pumps_of (tasks_of s) !! id = None → chans (reg s) !! id = None → total g (register id b s) = total g s.
Proof.
  intros Hp Hc. unfold register. destruct b as [l [t|]|].
  - unfold store_trailers. rewrite total_same_chans; [by rewrite total_same_chans|]. by destruct (bodies _ !! id).
  - by rewrite !total_same_chans.
  - rewrite total_pump_new by done. unfold total. cbn. rewrite sum_new by done. cbn. lia.
Qed.

Lemma ledger_handler id h s s' :
  handlers (tasks_of s) !! id = Some h → inv (view id s) → handler_step budget id h s = Some s' → ledger s s'.
Proof.
  intros Hh Hi. unfold handler_step. destruct (handler_pc h) eqn:Ep; try done; intros Hs;
    assert (handler_charge h = handler_charge {| notify_closed := notify_closed h; handler_pc := handler_pc h |}) as Hc by done;
    rewrite Ep in Hc; cbn in Hc.
  - injection Hs as <-. destruct (over_budget _ _ _); [by eapply ledger_goto|].
    destruct Hi as [Hst _]. unfold stage in Hst. cbn in Hst. rewrite Hh, Ep in Hst. destruct Hst as (Hp & _ & _ & _ & Hr & _).
    pose proof (f_equal v_chan Hr) as Hch. cbn in Hch, Hp.
    eapply ledger_goto; [by destruct body as [? []|]..|intros g; by apply total_register|done].
  - injection Hs as <-. by eapply ledger_handler_refund.
  - destruct (answers _ !! id); [injection Hs as <-; by eapply ledger_goto|]. destruct (decide _); [done|].
    injection Hs as <-. by eapply ledger_goto.
  - assert (ledger s (goto id h (HReaping c dispatched a) s)) as Hl by (by eapply ledger_goto).
    injection Hs as <-. destruct (decide _); [destruct (_ && _)|]; done || by inversion Hl; econstructor.
  - injection Hs as <-. eapply ledger_goto; [done..| |done]. intros g. apply (total_close_rx g id), chans_reap.
  - injection Hs as <-. by eapply ledger_handler_refund.
Qed.

Lemma total_close_tx g id clean p s :
  pumps_of (tasks_of s) !! id = Some p → total g (pump_over id clean s) = total g s - weigh g (pump_charge p).
Proof.
  intros Hp. unfold pump_over. rewrite (total_pump _ _ p) by done. rewrite (total_alter _ _ close_tx id) by done. cbn. lia.
Qed.

Lemma total_taker g id spec k s : total g (take_responder id spec k s) = total g s.
Proof. unfold take_responder. destruct (listens s id); unfold total; done. Qed.

Lemma ledger_pump id p s s' : pumps_of (tasks_of s) !! id = Some p → pump_step budget id p s = Some s' → ledger s s'.
Proof.
  intros Hp. unfold pump_step. destruct p as [n|n c prev|n c|n error|n i|c|clean]; try done.
  - intros [= <-]. destruct (over_budget _ _ _); apply ledger_same; try done; intros g; erewrite total_pump by exact Hp; cbn; lia.
  - intros [= <-]. apply (ledger_ended _ _ (chunk_charge c)); try done. intros g. erewrite total_pump by exact Hp. cbn.
    rewrite total_refund. lia.
  - intros [= <-]. set (s1 := match refused_body_status error with Some _ => _ | None => _ end).
    assert (tops (trace s1) = tops (trace s) ∧ body_bytes s1 = body_bytes s ∧ pumps_of (tasks_of s1) = pumps_of (tasks_of s) ∧
      ∀ g, total g s1 = total g s) as (Et & Eb & Ep & Eg).
    { unfold s1, refuse_unanswered. destruct (refused_body_status error); [|done]. destruct (decide _); [|done].
      unfold take_responder. destruct (listens s id); done. }
    apply ledger_same; try done. intros g. rewrite (total_pump _ _ (PFailing n error)) by (by rewrite Ep). rewrite Eg. cbn. lia.
  - unfold send_item. destruct (chans _ !! id) as [ch|] eqn:Ec; [|done]. cbn [mbind option_bind]. destruct (rx_open ch).
    + destruct (_ <? _)%nat; [|done]. intros [= <-]. destruct i; apply ledger_same; try done; intros g.
      * erewrite total_pump by exact Hp; rewrite total_items, weigh_items_app by done. cbn. lia.
      * erewrite total_close_tx by exact Hp; rewrite total_items, weigh_items_app by done. cbn. lia.
    + intros [= <-]. destruct i; apply ledger_same; try done; intros g.
      * erewrite total_pump by exact Hp. cbn. lia.
      * erewrite total_close_tx by exact Hp. cbn. lia.
  - intros [= <-]. apply (ledger_ended _ _ (chunk_charge c)); try done. intros g. erewrite total_close_tx by exact Hp. done.
Qed.

Lemma ledger_frame id total f s : pumps_of (tasks_of s) !! id = Some (PReading total) → ledger s (pump_frame id total f s).
Proof.
  intros Hp. unfold pump_frame. destruct f as [data|t| |e].
  - destruct (_ <? _).
    + apply ledger_same; try done. intros g. erewrite total_pump by exact Hp. cbn. lia.
    + cbn. set (c := {| number := _ |}). apply (ledger_made _ _ c); try done. intros g.
      rewrite (total_pump _ _ (PReading total)) by done. cbn. fold c. rewrite total_trace. unfold HttpLedger.total. cbn. lia.
  - apply ledger_same; try done. intros g. rewrite (total_pump _ _ (PReading total)) by done.
    rewrite total_same_chans; [cbn; lia|]. unfold store_trailers. by destruct (bodies _ !! id).
  - apply ledger_same; try done. intros g. erewrite total_close_tx by exact Hp. cbn. lia.
  - apply ledger_same; try done. intros g. erewrite total_pump by exact Hp. cbn. lia.
Qed.

Lemma ledger_drain id s s' : drain id s = Some s' → ledger s s'.
Proof.
  unfold drain. destruct (chans _ !! id) as [ch|] eqn:Ec; [|done]. cbn [mbind option_bind]. destruct (rx_open ch); [done|].
  destruct (items ch) as [|i l] eqn:El; [done|]. intros [= <-]. destruct i as [c|o].
  - apply (ledger_ended _ _ (chunk_charge c)); try done. intros g. rewrite total_refund, total_items, El by done. cbn. lia.
  - apply ledger_same; try done. intros g. rewrite total_items, El by done. cbn. lia.
Qed.

Lemma ledger_read_same r x pc s s0 :
  reads (tasks_of s) !! r = Some x → tops (trace s) = tops (trace s0) → body_bytes s = body_bytes s0 →
  (∀ g, total g s = total g s0) → read_charge x = read_charge {| read_of := read_of x; read_pc := pc |} →
  ledger s0 (read_goto r x pc s).
Proof.
  intros Hr Ht Hb Hg Hc. apply ledger_same; try done. intros g. unfold read_goto. rewrite (total_read _ _ _ _ _ Hr), Hg, Hc. lia.
Qed.

Lemma ledger_read r x s s' : reads (tasks_of s) !! r = Some x → read_step r x s = Some s' → ledger s s'.
Proof.
  intros Hr. unfold read_step. assert (read_charge x = read_charge {| read_of := read_of x; read_pc := read_pc x |}) as Hc by done.
  destruct (read_pc x) eqn:Ep; try done; cbn in Hc.
  - destruct (take_body_stream _ _) as [g k] eqn:E. intros [= <-]. assert (chans g = chans (reg s)) as Hg
      by (unfold take_body_stream in E; destruct (bodies _ !! _) as [[]|]; by simplify_eq).
    destruct k; eapply ledger_read_same; try done; intros w; by apply (total_same_chans w).
  - cbn. intros [= <-]. destruct (bodies _ !! _) as [[]|]; [case_decide|..]; eapply ledger_read_same; try done;
      intros w; by apply (total_same_chans w).
  - intros [= <-]. by eapply ledger_read_same.
  - unfold receive. destruct (chans _ !! _) as [ch|] eqn:Ec; [|done]. cbn [mbind option_bind]. destruct (items ch) as [|[c|o] l] eqn:El.
    + destruct (tx_open ch); [done|]. intros [= <-]. by eapply ledger_read_same.
    + intros [= <-]. apply ledger_same; try done. intros w. unfold read_goto, read_gives. rewrite (total_read _ _ x) by done.
      rewrite total_trace, total_items, El, Hc by done. cbn. lia.
    + intros [= <-]. eapply ledger_read_same; [done..| |done]. intros w. rewrite total_items, El by done. cbn. lia.
  - intros [= <-]. eapply ledger_read_same; try done. intros w. apply (total_close_rx w (read_of x)). intros r0.
    unfold put_body_stream, drop_rx. destruct (bodies r0 !! _) as [[]|]; cbn; auto.
  - intros [= <-]. apply (ledger_ended _ _ c); try done. intros w. unfold read_goto. rewrite (total_read _ _ x) by done.
    rewrite Hc, total_refund. cbn. lia.
  - intros [= <-]. eapply ledger_read_same; try done. intros w. unfold read_gives. rewrite total_trace.
    etrans; [apply (total_close_rx w (read_of x) (drop_rx (read_of x)) (upd_reg (cancel_body_stream (read_of x)) s)); by left|].
    apply (total_close_rx w (read_of x)). intros r0. apply chans_remove.
  - cbn. intros [= <-]. eapply ledger_read_same; try done. intros w. unfold read_gives. rewrite total_trace.
    assert (total w (upd_reg (cancel_body_stream (read_of x)) s) = total w s) as E
      by (apply (total_close_rx w (read_of x)); intros r0; apply chans_remove).
    destruct holds_rx; [|exact E]. rewrite <-E.
    apply (total_close_rx w (read_of x) (drop_rx (read_of x)) (upd_reg (cancel_body_stream (read_of x)) s)). by left.
Qed.

Lemma ledger_log s s' s0 :
  tops (trace s) = tops (trace s0) → body_bytes s = body_bytes s0 → (∀ g, total g s = total g s0) → ledger s s' → ledger s0 s'.
Proof.
  intros Ht Hb Hg [E1 E2 E3|c E0 E1 E2 E3|c E1 E2 E3]; [apply ledger_same|apply (ledger_made _ _ c)|apply (ledger_ended _ _ c)];
    intros; rewrite <-?Hg; congruence.
Qed.

Lemma ledger_step s e s' :
  ids_below s → (∀ id, inv (view id s)) → http_step httparse_parse budget s e = Some s' → ledger s s'.
Proof.
  intros [Hv Hb] Hi Hs. assert (∀ id f, ledger s (f s) → js_call id f s = Some s' → ledger s s') as Hj.
  { intros id f Hl. unfold js_call. destruct (_ && _); [|done]. by intros [= <-]. }
  destruct e as [policy up st no req|id f|id|id ok|id|id|id|id|r|id spec|id|id| |id]; unfold http_step in Hs.
  - injection Hs as <-. assert (handlers (tasks_of s) !! (next s + 1) = None) as Hn by (apply (f_equal v_handler (Hv (next s + 1) ltac:(lia)))).
    unfold arrive, next_id. cbv beta iota zeta. set (s1 := {| body_bytes := _ |}). apply (ledger_log s1); [done..|].
    destruct (entry _ _ _ _ _) as [| | |[]]; try (apply ledger_same; try done; intros g; unfold goto;
      rewrite total_handler_new by done; cbn; lia). apply ledger_reserving. by left.
  - destruct (handlers _ !! id) as [h|] eqn:Eh; [|done]. set (s1 := upd_trace (log_frame id f) s) in *. apply (ledger_log s1); [done..|].
    destruct (handler_pc h) eqn:Ep; try (destruct (pumps_of _ !! id) as [[]|] eqn:E; try done; injection Hs as <-; by apply ledger_frame).
    assert (handler_charge h = None) as Hc by (unfold handler_charge; by rewrite Ep).
    injection Hs as <-. unfold collect. destruct (collect_next _ _ _ _ _) as [pc|[buf' t']] eqn:Ec.
    + eapply ledger_goto; try done. rewrite Hc. apply collect_early in Ec as Hp. unfold collect_next, collected in Ec.
      repeat case_match; by simplify_eq.
    + apply ledger_reserving. right. by exists h.
  - destruct (handlers _ !! id) as [h|] eqn:Eh; [|done]. by eapply ledger_handler.
  - destruct (handlers _ !! id) as [h|] eqn:Eh; [|done]. cbn [mbind option_bind] in Hs. unfold queue_sent in Hs.
    destruct (handler_pc h) eqn:Ep; try done. assert (handler_charge h = Some c) as Hc by (unfold handler_charge; by rewrite Ep).
    injection Hs as <-. destruct ok; [|by eapply ledger_goto].
    assert (ledger s (goto id h (HWaiting c) s)) as Hl by (by eapply ledger_goto). inversion Hl; by econstructor.
  - destruct (handlers _ !! id) as [h|] eqn:Eh; [|done]. cbn [mbind option_bind] in Hs. unfold drop_handler in Hs.
    assert (handler_charge h = handler_charge {| notify_closed := notify_closed h; handler_pc := handler_pc h |}) as Hc by done.
    destruct (handler_pc h) eqn:Ep; try done; injection Hs as <-; by eapply ledger_goto.
  - destruct (pumps_of _ !! id) as [p|] eqn:Ep; [|done]. by eapply ledger_pump.
  - by eapply ledger_drain.
  - eapply Hj; [|exact Hs]. cbn. set (s1 := {| body_bytes := _ |}). apply ledger_same; try done. intros g.
    rewrite total_read_new by (exact (reads_fresh s Hb)). cbn. unfold total. cbn. lia.
  - destruct (reads _ !! r) as [x|] eqn:Er; [|done]. by eapply ledger_read.
  - eapply Hj; [|exact Hs]. unfold respond, take_responder. destruct (decide _); [|by apply ledger_same].
    destruct (listens s id); by apply ledger_same.
  - eapply Hj; [|exact Hs]. apply ledger_same; try done. intros g. apply (total_close_rx g id). intros r0. apply chans_remove.
  - eapply Hj; [|exact Hs]. unfold js_take_body. cbn. destruct (bodies _ !! id) as [[]|]; by apply ledger_same.
  - destruct (js_take _) as [[]|]; [|done]. injection Hs as <-. by apply ledger_same.
  - case_decide; [|done]. injection Hs as <-. by apply ledger_same.
Qed.
End Ledger.

(** ** What passed the check *)

Definition passed (budget : Z) (T : list Z) (c : Charge) : Prop := ∃ t, T !! number c = Some t ∧ t ≤ budget.

Definition handler_ok (budget : Z) (T : list Z) (h : Handler) : Prop :=
  match handler_pc h with
  | HChecking c prev _ => T !! number c = Some (prev + bytes_of c)
  | HQueueing c | HWaiting c | HDropping c _ _ | HReaping c _ _ => passed budget T c
  | _ => True
  end.

Definition sized (c : BudgetedChunk) : Prop := amount (chunk_charge c) = length (chunk_data c).

Definition item_ok (budget : Z) (T : list Z) (i : Item) : Prop :=
  match i with
  | IChunk c => passed budget T (chunk_charge c) ∧ sized c
  | IFailed _ => True
  end.

Definition pump_ok (budget : Z) (T : list Z) (p : PumpPc) : Prop :=
  match p with
  | PChecking _ c prev => T !! number (chunk_charge c) = Some (prev + bytes_of (chunk_charge c)) ∧ sized c
  | PSending _ i => item_ok budget T i
  | _ => True
  end.

Record checked (budget : Z) (T : list Z) (s : Http) : Prop := {
  ok_handlers : map_Forall (λ _, handler_ok budget T) (handlers (tasks_of s));
  ok_pumps : map_Forall (λ _, pump_ok budget T) (pumps_of (tasks_of s));
  ok_chans : map_Forall (λ _ ch, Forall (item_ok budget T) (items ch)) (chans (reg s))
}.

Section Checked.
Context (httparse_parse : nat → list byte → HttparseResult) (budget : Z).
Abbreviation checked := (checked budget).

Lemma passed_more T l c : passed budget T c → passed budget (T ++ l) c.
Proof. intros (t & H & Hb). exists t. split; [by apply lookup_app_l_Some|done]. Qed.

Lemma item_ok_more T l i : item_ok budget T i → item_ok budget (T ++ l) i.
Proof. destruct i; [|done]. intros [? ?]. split; [by apply passed_more|done]. Qed.

Lemma checked_more T l s : checked T s → checked (T ++ l) s.
Proof.
  intros [H1 H2 H3]. split.
  - eapply map_Forall_impl; [exact H1|]. intros id h. unfold handler_ok. destruct (handler_pc h); try done;
      [apply lookup_app_l_Some|apply passed_more..].
  - eapply map_Forall_impl; [exact H2|]. intros id p. unfold pump_ok. destruct p; try done; [|apply item_ok_more].
    intros [? ?]. split; [by apply lookup_app_l_Some|done].
  - eapply map_Forall_impl; [exact H3|]. intros id ch Hf. eapply Forall_impl; [exact Hf|apply item_ok_more].
Qed.

Lemma checked_handler T id h s : checked T s → handler_ok budget T h → checked T (put_handler id h s).
Proof. intros [H1 H2 H3] H. split; try done. cbn. by apply map_Forall_insert_2. Qed.

Lemma checked_pump T id p s : checked T s → pump_ok budget T p → checked T (put_pump id p s).
Proof. intros [H1 H2 H3] H. split; try done. cbn. by apply map_Forall_insert_2. Qed.

Lemma checked_chan T id ch (f : Registry → Registry) s :
  checked T s → Forall (item_ok budget T) (items ch) → chans (f (reg s)) = <[id := ch]> (chans (reg s)) → checked T (upd_reg f s).
Proof. intros [H1 H2 H3] H E. split; try done. cbn. rewrite E. by apply map_Forall_insert_2. Qed.

Lemma checked_alter T (f : Registry → Registry) h id s :
  checked T s → (∀ ch, items (h ch) = items ch) →
  chans (f (reg s)) = alter h id (chans (reg s)) ∨ chans (f (reg s)) = chans (reg s) → checked T (upd_reg f s).
Proof.
  intros [H1 H2 H3] Hh [E|E]; split; try done; cbn; rewrite E; [|done]. intros i ch. rewrite lookup_alter_Some.
  intros [(_ & ch' & E' & ->)|[_ E']]; [rewrite Hh|]; by eapply H3.
Qed.

Lemma checked_rest T f s : checked T s → chans (f (reg s)) = chans (reg s) → checked T (upd_reg f s).
Proof. intros [H1 H2 H3] E. split; try done. cbn. by rewrite E. Qed.

Lemma checked_same T s s' :
  checked T s → handlers (tasks_of s') = handlers (tasks_of s) → pumps_of (tasks_of s') = pumps_of (tasks_of s) →
  chans (reg s') = chans (reg s) → checked T s'.
Proof. intros [H1 H2 H3] E1 E2 E3. split; by rewrite ?E1, ?E2, ?E3. Qed.

Lemma checked_lookup T s id ch : checked T s → chans (reg s) !! id = Some ch → Forall (item_ok budget T) (items ch).
Proof. intros [_ _ H] E. by apply (H id ch). Qed.

Lemma passed_check T c prev :
  T !! number c = Some (prev + bytes_of c) → over_budget budget prev c = false → passed budget T c.
Proof. intros E H. exists (prev + bytes_of c). split; [done|]. by apply Z.ltb_ge. Qed.

Lemma checked_reserving id h b s :
  checked (tops (trace s)) s → checked (tops (trace (reserving id h b s))) (reserving id h b s).
Proof.
  intros H. unfold reserving, goto. cbn. apply checked_handler; [by eapply checked_same; [apply checked_more|..]|].
  unfold handler_ok. cbn. by rewrite lookup_app_r, Nat.sub_diag by lia.
Qed.

Lemma checked_handler_step id h s s' :
  checked (tops (trace s)) s → handlers (tasks_of s) !! id = Some h → handler_step budget id h s = Some s' →
  checked (tops (trace s')) s'.
Proof.
  intros H Hh Hs. pose proof (ok_handlers _ _ _ H id h Hh) as Ho. unfold handler_ok in Ho. unfold handler_step, goto in Hs.
  destruct (handler_pc h) eqn:Ep; try done.
  - injection Hs as <-. destruct (over_budget _ _ _) eqn:E; [by apply checked_handler|].
    replace (tops _) with (tops (trace s)) by (by destruct body as [? []|]).
    apply checked_handler; [|by eapply passed_check]. unfold register. destruct body as [l t|].
    + eapply checked_same; [exact H|done..|]. cbn. destruct t; [|done]. unfold store_trailers. cbn. by rewrite lookup_insert_eq.
    + apply checked_pump; [|done]. eapply (checked_chan _ id {| items := []; tx_open := true; rx_open := true |}); [by eapply checked_rest|by apply Forall_nil_2|done].
  - injection Hs as <-. by apply checked_handler; [eapply checked_same|].
  - destruct (answers _ !! id); [|destruct (decide _); [done|]]; injection Hs as <-; by apply checked_handler.
  - assert (checked (tops (trace s)) (goto id h (HReaping c dispatched a) s)) as Hg by (by apply checked_handler).
    injection Hs as <-. destruct (decide _); [destruct (_ && _)|]; by eapply checked_same.
  - injection Hs as <-. apply checked_handler; [|done]. eapply (checked_alter _ _ close_rx id); [done..|]. apply chans_reap.
  - injection Hs as <-. by apply checked_handler; [eapply checked_same|].
Qed.

Lemma checked_over T id clean s : checked T s → checked T (pump_over id clean s).
Proof. intros H. apply checked_pump; [|done]. eapply (checked_alter _ _ close_tx id); [done..|]. by left. Qed.

Lemma checked_pump_step id p s s' :
  checked (tops (trace s)) s → pumps_of (tasks_of s) !! id = Some p → pump_step budget id p s = Some s' →
  checked (tops (trace s')) s'.
Proof.
  intros H Hp Hs. pose proof (ok_pumps _ _ _ H id p Hp) as Ho. unfold pump_step in Hs. destruct p as [n|n c prev|n c|n error|n i|c|]; try done.
  - destruct Ho as [Ho Hz]. injection Hs as <-. destruct (over_budget _ _ _) eqn:E; apply checked_pump; try done.
    split; [by eapply passed_check|done].
  - injection Hs as <-. apply checked_pump; [|done]. by eapply checked_same.
  - injection Hs as <-. set (s1 := match refused_body_status error with Some _ => _ | None => _ end).
    enough (checked (tops (trace s1)) s1) by (by apply checked_pump).
    unfold s1, refuse_unanswered, take_responder. destruct (refused_body_status error); [|done]. destruct (decide _); [|done].
    destruct (listens s id); by eapply checked_same.
  - unfold send_item in Hs. destruct (chans _ !! id) as [ch|] eqn:Ec; [|done]. cbn [mbind option_bind] in Hs.
    assert (Forall (item_ok budget (tops (trace s))) (items ch ++ [i])) as Hf
      by (apply Forall_app; split; [by eapply checked_lookup|by apply Forall_singleton]).
    destruct (rx_open ch); [destruct (_ <? _)%nat; [|done]|].
    + assert (checked (tops (trace s)) (upd_reg (λ g, set_chans (<[id := set_items (items ch ++ [i]) ch]> (chans g)) g) s)) as Hc
        by (by apply (checked_chan _ id (set_items (items ch ++ [i]) ch))).
      injection Hs as <-. destruct i; [by apply checked_pump|by apply checked_over].
    + injection Hs as <-. destruct i; [by apply checked_pump|by apply checked_over].
  - injection Hs as <-. apply checked_over. by eapply checked_same.
Qed.

Lemma checked_frame id n f s : checked (tops (trace s)) s → checked (tops (trace (pump_frame id n f s))) (pump_frame id n f s).
Proof.
  intros H. unfold pump_frame. destruct f as [data|t| |e]; [destruct (_ <? _)|..]; try (by apply checked_pump).
  - cbn. apply checked_pump; [by eapply checked_same; [apply checked_more|..]|]. split; [|done]. cbn.
    by rewrite lookup_app_r, Nat.sub_diag by lia.
  - apply checked_pump; [|done]. eapply checked_rest; [done|]. unfold store_trailers. by destruct (bodies _ !! id).
  - by apply checked_over.
Qed.

Lemma checked_read_step r x s s' :
  checked (tops (trace s)) s → read_step r x s = Some s' → checked (tops (trace s')) s'.
Proof.
  intros H Hs. assert (∀ id r0, chans (remove_body id r0) = alter close_rx id (chans r0) ∨ chans (remove_body id r0) = chans r0)
    as Hrm by (intros; apply chans_remove).
  unfold read_step in Hs. destruct (read_pc x); try done; try (injection Hs as <-; by eapply checked_same).
  - destruct (take_body_stream _ _) as [g k] eqn:E. assert (chans g = chans (reg s)) as Hg
      by (unfold take_body_stream in E; destruct (bodies _ !! _) as [[]|]; by simplify_eq).
    injection Hs as <-. destruct k; by eapply checked_same.
  - cbn in Hs. injection Hs as <-. destruct (bodies _ !! _) as [[]|]; [case_decide|..]; by eapply checked_same.
  - unfold receive in Hs. destruct (chans _ !! _) as [ch|] eqn:Ec; [|done]. cbn [mbind option_bind] in Hs.
    pose proof (checked_lookup _ _ _ _ H Ec) as Hf. destruct (items ch) as [|i l]; [destruct (tx_open ch); [done|]; injection Hs as <-; by eapply checked_same|].
    apply Forall_cons in Hf as [_ Hf]. injection Hs as <-.
    assert (checked (tops (trace s)) (upd_reg (λ g, set_chans (<[read_of x:=set_items l ch]> (chans g)) g) s)) as Hc
      by (by apply (checked_chan _ (read_of x) (set_items l ch))). destruct i; by eapply checked_same.
  - injection Hs as <-. assert (checked (tops (trace s)) (upd_reg (put_body_stream (read_of x)) s)) as Hc; [|by eapply checked_same].
    eapply (checked_alter _ _ close_rx (read_of x)); [done..|]. unfold put_body_stream, drop_rx. destruct (bodies _ !! _) as [[]|]; cbn; auto.
  - injection Hs as <-. assert (checked (tops (trace s)) (upd_reg (drop_rx (read_of x)) (upd_reg (cancel_body_stream (read_of x)) s))) as Hc;
      [|by eapply checked_same].
    eapply (checked_alter _ _ close_rx (read_of x)); [|done|by left]. eapply (checked_alter _ _ close_rx (read_of x)); [done..|apply Hrm].
  - cbn in Hs. injection Hs as <-. assert (checked (tops (trace s)) (upd_reg (cancel_body_stream (read_of x)) s)) as Hc
      by (eapply (checked_alter _ _ close_rx (read_of x)); [done..|apply Hrm]).
    destruct holds_rx; [|by eapply checked_same].
    assert (checked (tops (trace s)) (upd_reg (drop_rx (read_of x)) (upd_reg (cancel_body_stream (read_of x)) s))) as Hc2;
      [eapply (checked_alter _ _ close_rx (read_of x)); [done|done|by left]|by eapply checked_same].
Qed.

Lemma checked_step s e s' :
  checked (tops (trace s)) s → http_step httparse_parse budget s e = Some s' → checked (tops (trace s')) s'.
Proof.
  intros H Hs. assert (∀ id f, checked (tops (trace (f s))) (f s) → js_call id f s = Some s' → checked (tops (trace s')) s') as Hj.
  { intros id f Hl. unfold js_call. destruct (_ && _); [|done]. by intros [= <-]. }
  destruct e as [policy up st no req|id f|id|id ok|id|id|id|id|r|id spec|id|id| |id]; unfold http_step in Hs.
  - injection Hs as <-. unfold arrive, next_id. cbv beta iota zeta. set (s1 := {| body_bytes := _ |}).
    assert (checked (tops (trace s1)) s1) by (by eapply checked_same).
    destruct (entry _ _ _ _ _) as [| | |[]]; try (by apply checked_handler). by apply checked_reserving.
  - destruct (handlers _ !! id) as [h|] eqn:Eh; [|done]. set (s1 := upd_trace (log_frame id f) s) in *.
    assert (checked (tops (trace s1)) s1) by (by eapply checked_same).
    destruct (handler_pc h) eqn:Ep; try (destruct (pumps_of _ !! id) as [[]|] eqn:E; try done; injection Hs as <-; by apply checked_frame).
    injection Hs as <-. unfold collect. destruct (collect_next _ _ _ _ _) as [pc|[buf' t']] eqn:Ec; [|by apply checked_reserving].
    apply checked_handler; [done|]. unfold collect_next, collected in Ec. repeat case_match; by simplify_eq.
  - destruct (handlers _ !! id) as [h|] eqn:Eh; [|done]. by eapply checked_handler_step.
  - destruct (handlers _ !! id) as [h|] eqn:Eh; [|done]. cbn [mbind option_bind] in Hs. unfold queue_sent in Hs.
    pose proof (ok_handlers _ _ _ H id h Eh) as Ho. unfold handler_ok in Ho. destruct (handler_pc h) eqn:Ep; try done.
    injection Hs as <-. destruct ok; [|by apply checked_handler].
    assert (checked (tops (trace s)) (goto id h (HWaiting c) s)) as Hl by (by apply checked_handler). by eapply checked_same.
  - destruct (handlers _ !! id) as [h|] eqn:Eh; [|done]. cbn [mbind option_bind] in Hs. unfold drop_handler in Hs.
    pose proof (ok_handlers _ _ _ H id h Eh) as Ho. unfold handler_ok in Ho.
    destruct (handler_pc h) eqn:Ep; try done; injection Hs as <-; by apply checked_handler.
  - destruct (pumps_of _ !! id) as [p|] eqn:Ep; [|done]. by eapply checked_pump_step.
  - unfold drain in Hs. destruct (chans _ !! id) as [ch|] eqn:Ec; [|done]. cbn [mbind option_bind] in Hs.
    pose proof (checked_lookup _ _ _ _ H Ec) as Hf. destruct (rx_open ch); [done|]. destruct (items ch) as [|i l]; [done|].
    apply Forall_cons in Hf as [_ Hf]. injection Hs as <-.
    assert (checked (tops (trace s)) (upd_reg (λ g, set_chans (<[id:=set_items l ch]> (chans g)) g) s)) as Hc
      by (by apply (checked_chan _ id (set_items l ch))). destruct i; by eapply checked_same.
  - eapply Hj; [|exact Hs]. by eapply checked_same.
  - destruct (reads _ !! r) as [x|] eqn:Er; [|done]. by eapply checked_read_step.
  - eapply Hj; [|exact Hs]. unfold respond, take_responder. destruct (decide _); [|done]. destruct (listens s id); by eapply checked_same.
  - eapply Hj; [|exact Hs]. eapply (checked_alter _ _ close_rx id); [done..|]. apply chans_remove.
  - eapply Hj; [|exact Hs]. unfold js_take_body. cbn. destruct (bodies _ !! id) as [[]|]; by eapply checked_same.
  - destruct (js_take _) as [[]|]; [|done]. injection Hs as <-. by eapply checked_same.
  - case_decide; [|done]. injection Hs as <-. by eapply checked_same.
Qed.
End Checked.
