(* ===== verification/HttpBudget.v ===== *)
(** * HttpBudget: the budget of request bodies

    Every byte the counter holds is held by a task or a channel, and what is
    kept of bodies is within the budget, however the reservations and their
    checks interleave. *)

From S2P Require Import Prelude RustStd HttpHead HttpBody HttpView HttpRequest HttpAnswers HttpLedger.

Open Scope Z_scope.

(** ** A whole body is its handler's *)

Definition keeps_body (h : Handler) : option Charge :=
  match handler_pc h with
  | HQueueing c | HWaiting c | HDropping c _ _ | HReaping c _ _ => Some c
  | _ => None
  end.

Definition body_kept (v : View) : Prop :=
  ∀ l, v_body (v_reg v) = Some (BFull l) →
    ∃ h c, v_handler v = Some h ∧ keeps_body h = Some c ∧ amount c = length l.

Definition collected_sized (v : View) : Prop :=
  ∀ h c prev l t, v_handler v = Some h → handler_pc h = HChecking c prev (CBuffered l t) → amount c = length l.

(** The bodies out of the registry are streams. *)

Definition none_out (v : View) : Prop :=
  map_Forall (λ _ x, ∀ l, read_pc x ≠ RdPuttingBack (BFull l)) (v_reads v) ∧ ∀ l, v_take v ≠ Some (BFull l).

Definition kept_inv (v : View) : Prop := body_kept v ∧ collected_sized v ∧ none_out v.

Lemma kept_inv_same v v' :
  v_handler v' = v_handler v → v_body (v_reg v') = v_body (v_reg v) ∨ (∀ l, v_body (v_reg v') ≠ Some (BFull l)) →
  none_out v' → kept_inv v → kept_inv v'.
Proof.
  intros Eh Eb Ho (Hb & Hc & _). unfold kept_inv, body_kept, collected_sized. rewrite Eh. split_and!; try done.
  intros l El. destruct Eb as [Eb|Eb]; [apply Hb; congruence|by destruct (Eb l)].
Qed.

Lemma kept_handler h v v' : v_handler v = Some h → handler_at h v (handler_pc h) v' → kept_inv v → kept_inv v'.
Proof.
  intros Hh Hat (Hb & Hc & Ho).
  assert (∀ l, v_body (v_reg v) = Some (BFull l) → ∃ c, keeps_body h = Some c ∧ amount c = length l) as Hk.
  { intros l El. destruct (Hb l El) as (h' & c & E & ? & ?). rewrite Hh in E. injection E as <-. by exists c. }
  unfold keeps_body in Hk. specialize (Hc h). destruct (handler_pc h) eqn:Ep; inversion Hat; subst; clear Hat;
    (split_and!; [intros l El|intros h1 c1 prev1 l1 t1 [= <-] Ep'; try done|try exact Ho]);
    try (cbn in El; destruct (Hk l El) as (? & [= <-] & ?); by eexists _, _).
  - cbn in Ep'. match goal with E : collect_next _ _ _ _ _ = _ |- _ => unfold collect_next, collected in E end.
    repeat case_match; by simplify_eq.
  - cbn in Ep'. by simplify_eq.
  - destruct body as [l1 [t|]|]; cbn in El; simplify_eq; eexists _, _; (split_and!; [done|done|]); by eapply Hc.
  - by destruct body as [l1 [t|]|].
  - cbn in El. unfold g_reap, g_cancel, g_remove in El. destruct (v_body (v_reg v)) as [[]|] eqn:E; try destruct dispatched; cbn in El; congruence.
Qed.

Lemma kept_inv_step e v v' : vstep v e v' → kept_inv v → kept_inv v'.
Proof.
  intros Hst Hi. pose proof Hi as (Hb & Hc & Ho & Hj). inversion Hst; subst; clear Hst.
  - split_and!; try done. intros h' c prev l t [= <-] Ep. rename H0 into E. unfold collecting_start in E. by rewrite Ep in E.
  - by eapply kept_handler.
  - rename H0 into Hat. inversion Hat; subst; clear Hat; (eapply kept_inv_same; [..|exact Hi]; [try done|try by left|try done]).
    + cbn. unfold g_store. left. by case_match.
    + cbn. unfold v_refuse, v_take_responder. by repeat case_match.
    + cbn. unfold v_refuse, v_take_responder. left. by repeat case_match.
    + cbn. unfold v_refuse, v_take_responder. split; [|intros l]; repeat case_match; done.
  - eapply kept_inv_same; [..|exact Hi]; [done|by left|done].
  - eapply kept_inv_same; [..|exact Hi]; [done|by left|]. split; [|done]. cbn. by apply map_Forall_insert_2.
  - rename H0 into Hat. pose proof (Ho _ _ H) as Hx. cbn in Hx.
    eapply kept_inv_same; [..|exact Hi]; [by inversion Hat| |split; [|by inversion Hat]].
    + inversion Hat; subst; cbn; try (by left); try (right; done).
      * right. intros l [= ->]. by destruct (Hx l).
      * unfold g_put. destruct (v_body (v_reg v)) as [[]|] eqn:E; cbn; rewrite ?E; auto.
      * right. unfold g_cancel, g_remove. by repeat case_match.
      * right. unfold g_cancel, g_remove. by repeat case_match.
    + inversion Hat; subst; cbn; (apply map_Forall_insert_2; [done|exact Ho]) || (apply map_Forall_insert_2; [|exact Ho]).
      intros l. cbn. intros [= ->]. by destruct (H2 l).
  - eapply kept_inv_same; [..|exact Hi]; unfold v_take_responder; destruct (v_listens v); done || by left.
  - eapply kept_inv_same; [..|exact Hi]; [done| |done]. right. unfold g_cancel, g_remove. cbn. by repeat case_match.
  - eapply kept_inv_same; [..|exact Hi]; [done|by right|done].
  - eapply kept_inv_same; [..|exact Hi]; [done|by right|]. split; [done|]. cbn. intros l [= ->]. by destruct (H2 l).
  - eapply kept_inv_same; [..|exact Hi]; [done| |done]. right. cbn. intros l [= ->]. by destruct (Hj l).
  - eapply kept_inv_same; [..|exact Hi]; [done|by left|done].
  - done.
Qed.

Lemma kept_none : kept_inv no_view.
Proof. split_and!; done. Qed.

(** ** What is stored *)

Definition full_bytes (b : RequestBody) : Z :=
  match b with
  | BFull l => len_of l
  | _ => 0
  end.

Definition item_bytes (i : Item) : Z :=
  match i with
  | IChunk c => len_of (chunk_data c)
  | IFailed _ => 0
  end.

Definition queued_bytes (ch : Chan) : Z := foldr (λ i n, item_bytes i + n) 0 (items ch).

Definition sending_bytes (p : PumpPc) : Z :=
  match p with
  | PSending _ i => item_bytes i
  | _ => 0
  end.

(** The bytes of the registered bodies, of the channels and of the chunks on
    their way there. *)

Definition stored (s : Http) : Z :=
  sum_map full_bytes (bodies (reg s)) + sum_map queued_bytes (chans (reg s)) + sum_map sending_bytes (pumps_of (tasks_of s)).

Definition at_rest (s : Http) : Prop :=
  map_Forall (λ _ h, ∃ a, handler_pc h = HOver a) (handlers (tasks_of s)) ∧
  map_Forall (λ _ p, ∃ clean, p = POver clean) (pumps_of (tasks_of s)) ∧
  map_Forall (λ _ x, read_pc x = RdOver) (reads (tasks_of s)) ∧
  map_Forall (λ _ ch, items ch = []) (chans (reg s)).

(** ** Weights *)

Lemma weigh_le (g g' : Charge → Z) o : (∀ c, g c ≤ g' c) → weigh g o ≤ weigh g' o.
Proof. intros H. destruct o; cbn; [apply H|done]. Qed.

Lemma weigh_items_le (g g' : Charge → Z) l : (∀ c, g c ≤ g' c) → weigh_items g l ≤ weigh_items g' l.
Proof. intros H. induction l as [|i l IH]; cbn; [done|]. pose proof (weigh_le g g' (item_charge i) H). lia. Qed.

Lemma total_le (g g' : Charge → Z) s : (∀ c, g c ≤ g' c) → total g s ≤ total g' s.
Proof.
  intros H. unfold total. repeat apply Z.add_le_mono; apply sum_le; intros id x _; (by apply weigh_le) || by apply weigh_items_le.
Qed.

Lemma weigh_zero o : weigh (λ _, 0) o = 0.
Proof. by destruct o. Qed.

Lemma total_zero s : total (λ _, 0) s = 0.
Proof.
  unfold total. rewrite !sum_zero; [done|..]; intros id x _; try apply weigh_zero.
  induction (items x) as [|i l IH]; cbn; [done|]. by rewrite weigh_zero, IH.
Qed.

Lemma total_nonneg g s : (∀ c, 0 ≤ g c) → 0 ≤ total g s.
Proof. intros H. rewrite <-(total_zero s). by apply total_le. Qed.

Lemma sum_dominated {A B} (f : A → Z) (g : B → Z) (m : gmap Z A) (m' : gmap Z B) :
  (∀ y, 0 ≤ g y) → (∀ id x, m !! id = Some x → f x ≤ 0 ∨ ∃ y, m' !! id = Some y ∧ f x ≤ g y) → sum_map f m ≤ sum_map g m'.
Proof.
  intros Hg. revert m'. induction m as [|id x m Hm IH] using map_ind; intros m' H.
  - replace (sum_map f ∅) with (sum_map (λ _ : B, 0) m') by (by apply sum_zero). apply sum_le. intros id y _. apply Hg.
  - rewrite sum_new by done. destruct (H id x (lookup_insert_eq _ _ _)) as [Hx|(y & Hy & Hx)].
    + enough (sum_map f m ≤ sum_map g m') by lia. apply IH. intros i z Hz. apply H. rewrite lookup_insert_ne; [done|congruence].
    + rewrite <-(insert_delete_id m' id y Hy), sum_new by apply lookup_delete_eq.
      enough (sum_map f m ≤ sum_map g (delete id m')) by lia. apply IH. intros i z Hz. assert (i ≠ id) by congruence.
      rewrite lookup_delete_ne by done. apply H. by rewrite lookup_insert_ne.
Qed.

(** ** The budget holds *)

Section Budget.
Context (httparse_parse : nat → list byte → HttparseResult) (budget : Z).
Abbreviation http_run := (http_run httparse_parse budget).

Definition upto (k : nat) (c : Charge) : Z := if (number c <=? k)%nat then bytes_of c else 0.

Lemma upto_le k c : 0 ≤ upto k c ≤ bytes_of c.
Proof. unfold upto, bytes_of. destruct (_ <=? _)%nat; lia. Qed.

(** No reservation's sum, up to itself, is over the counter it left. *)

Definition counted (s : Http) : Prop :=
  body_bytes s = total bytes_of s ∧ ∀ k t, tops (trace s) !! k = Some t → total (upto k) s ≤ t.

Lemma counted_step s s' : ledger s s' → counted s → counted s'.
Proof.
  intros Hl [Hb Ht]. destruct Hl as [E1 E2 E3|c E0 E1 E2 E3|c E1 E2 E3].
  - split; [by rewrite E2, E3|]. intros k t. rewrite E1, E3. apply Ht.
  - split; [by rewrite E2, E3, Hb|]. intros k t. rewrite E1, E3, lookup_app. destruct (tops (trace s) !! k) as [t'|] eqn:E.
    + intros [= ->]. apply lookup_lt_Some in E as Hk. specialize (Ht k t E). unfold upto at 2.
      destruct (Nat.leb_spec (number c) k); lia.
    + apply lookup_ge_None in E. rewrite list_lookup_singleton_Some. intros [Hk <-]. pose proof (upto_le k c).
      pose proof (total_le (upto k) bytes_of s (λ c, proj2 (upto_le k c))). lia.
  - pose proof (upto_le 0 c). split; [by rewrite E2, E3, Hb|]. intros k t. rewrite E1, E3. intros Hk. specialize (Ht k t Hk).
    pose proof (upto_le k c). lia.
Qed.

Lemma run_counted es s : http_run Http_new es = Some s → counted s ∧ checked budget (tops (trace s)) s.
Proof.
  intros Hr. enough ((counted s ∧ checked budget (tops (trace s)) s) ∧ ∀ id, inv (view id s)) as [? _] by done. revert es s Hr.
  apply http_run_ind.
  - split; [split; [split; [done|]|]|].
    + intros k t H. cbn in H. by rewrite lookup_nil in H.
    + split; apply map_Forall_empty.
    + by apply (run_inv httparse_parse budget []).
  - intros es s e s' Hr Hi Hs [[Hc Hk] Hv]. assert (http_run Http_new (es ++ [e]) = Some s') as Hr'
      by (rewrite http_run_app, Hr; cbn; by rewrite Hs).
    split; [split|]; [eapply counted_step; [by eapply ledger_step|done]|by eapply checked_step|by eapply run_inv].
Qed.

Definition passed_bytes (T : list Z) (k : nat) (c : Charge) : Z :=
  match T !! number c with
  | Some t => if (t <=? budget) && (number c <? k)%nat then bytes_of c else 0
  | None => 0
  end.

Lemma passed_bytes_nonneg T k c : 0 ≤ passed_bytes T k c.
Proof. unfold passed_bytes, bytes_of. destruct (T !! _); [destruct (_ && _)|]; lia. Qed.

Lemma passed_within s k : 0 ≤ budget → counted s → total (passed_bytes (tops (trace s)) k) s ≤ budget.
Proof.
  intros Hb [_ Ht]. induction k as [|k IH].
  - rewrite (total_le _ (λ _, 0)); [by rewrite total_zero|]. intros c. unfold passed_bytes. destruct (tops _ !! _); [|done].
    by rewrite andb_false_r.
  - destruct (tops (trace s) !! k) as [t|] eqn:Ek; [destruct (Z.leb_spec t budget)|].
    + etrans; [|etrans; [exact (Ht k t Ek)|done]]. apply total_le. intros c. unfold passed_bytes, upto, bytes_of.
      destruct (tops _ !! number c) as [u|]; [|destruct (_ <=? _)%nat; lia]. destruct (u <=? budget); cbn [andb]; [|destruct (_ <=? _)%nat; lia].
      destruct (Nat.ltb_spec (number c) (S k)), (Nat.leb_spec (number c) k); lia.
    + etrans; [|exact IH]. apply total_le. intros c. unfold passed_bytes. destruct (decide (number c = k)) as [->|Hne].
      * rewrite Ek. destruct (Z.leb_spec t budget); cbn; lia.
      * destruct (tops _ !! number c) as [u|]; [|done]. destruct (u <=? budget); cbn [andb]; [|done]. unfold bytes_of.
        destruct (Nat.ltb_spec (number c) (S k)), (Nat.ltb_spec (number c) k); lia.
    + etrans; [|exact IH]. apply total_le. intros c. unfold passed_bytes. destruct (tops (trace s) !! number c) as [t|] eqn:Ec; [|done].
      apply lookup_lt_Some in Ec. apply lookup_ge_None in Ek. destruct (t <=? budget); cbn [andb]; [|done].
      unfold bytes_of. destruct (Nat.ltb_spec (number c) (S k)), (Nat.ltb_spec (number c) k); lia.
Qed.

Lemma passed_bytes_all T c : passed budget T c → passed_bytes T (length T) c = bytes_of c.
Proof.
  intros (t & E & H). unfold passed_bytes. rewrite E. apply lookup_lt_Some in E.
  by rewrite (proj2 (Z.leb_le _ _) H), (proj2 (Nat.ltb_lt _ _) E).
Qed.

Lemma stored_passed s :
  checked budget (tops (trace s)) s → (∀ id, kept_inv (view id s)) →
  stored s ≤ total (passed_bytes (tops (trace s)) (length (tops (trace s)))) s.
Proof.
  intros [H1 H2 H3] Hk. set (T := tops (trace s)) in *. set (w := passed_bytes T (length T)).
  assert (∀ o, 0 ≤ weigh w o) as Hw by (intros [c|]; cbn; [apply passed_bytes_nonneg|done]).
  assert (∀ i, item_ok budget T i → item_bytes i = weigh w (item_charge i)) as Hi.
  { intros [c|o]; cbn; [|done]. intros [Hp Hz]. unfold w. rewrite passed_bytes_all by done. unfold bytes_of. by rewrite Hz. }
  assert (sum_map full_bytes (bodies (reg s)) ≤ sum_map (λ h, weigh w (handler_charge h)) (handlers (tasks_of s))) as Ha.
  { apply sum_dominated; [intros; apply Hw|]. intros id b Eb. destruct b as [l| |]; [|by left..]. right.
    destruct (Hk id) as [Hb _]. destruct (Hb l Eb) as (h & c & Eh & Ec & Ea). exists h. split; [exact Eh|].
    pose proof (H1 id h Eh) as Ho. unfold handler_ok in Ho. unfold keeps_body in Ec. unfold handler_charge.
    destruct (handler_pc h); simplify_eq; cbn; unfold w; rewrite passed_bytes_all by done; unfold bytes_of, len_of; by rewrite Ea. }
  assert (sum_map sending_bytes (pumps_of (tasks_of s)) ≤ sum_map (λ p, weigh w (pump_charge p)) (pumps_of (tasks_of s))) as Hp.
  { apply sum_le. intros id p Ep. pose proof (H2 id p Ep) as Ho. destruct p; cbn; try apply passed_bytes_nonneg; try done.
    by rewrite (Hi i Ho). }
  assert (sum_map queued_bytes (chans (reg s)) ≤ sum_map (λ ch, weigh_items w (items ch)) (chans (reg s))) as Hc.
  { apply sum_le. intros id ch Ech. pose proof (H3 id ch Ech) as Ho. cbn in Ho. unfold queued_bytes.
    induction Ho as [|i l Hil _ IH]; cbn; [done|]. rewrite (Hi i Hil). lia. }
  assert (0 ≤ sum_map (λ x, weigh w (read_charge x)) (reads (tasks_of s))) as Hr.
  { rewrite <-(sum_zero (λ _ : Read, 0) (reads (tasks_of s))) by done. apply sum_le. intros id x _. apply Hw. }
  unfold stored, total. lia.
Qed.

(** C34 The budget of request bodies holds and leaks nothing.  However the
    reservations, checks and refunds of the requests of a server interleave,
    the counter is what the tasks and the channels hold, so it is zero when
    all are over; and the bytes of the bodies that are registered, queued for
    JS or on their way to the queue never exceed the budget. *)
Theorem bodies_within_budget es s :
  http_run Http_new es = Some s → 0 ≤ budget →
  body_bytes s = total bytes_of s ∧ (at_rest s → body_bytes s = 0) ∧ stored s ≤ budget.
Proof.
  intros Hr Hb. destruct (run_counted _ _ Hr) as [Hc Hk]. pose proof Hc as [He _].
  split; [exact He|]. split.
  - intros (R1 & R2 & R3 & R4). rewrite He. unfold total. rewrite !sum_zero; [done|..].
    + intros id ch E. cbn. by rewrite (R4 id ch E).
    + intros id x E. unfold read_charge. by rewrite (R3 id x E).
    + intros id p E. by destruct (R2 id p E) as [b ->].
    + intros id h E. destruct (R1 id h E) as [a Ea]. unfold handler_charge. by rewrite Ea.
  - etrans; [apply stored_passed; [done|]|by apply passed_within].
    apply (run_views httparse_parse budget (λ _ _ v, kept_inv v)) with es; [intros; apply kept_none|done| |done].
    intros id es' e v v' _. apply kept_inv_step.
Qed.
End Budget.
