(* ===== verification/HttpBodyOwner.v ===== *)
(** * HttpBodyOwner: who holds a body's receiver

    The receiver of a streamed body is in the registry or with one read of it,
    or gone ([owned_step]). *)

From S2P Require Import Prelude RustStd HttpHead HttpBody HttpView HttpRequest HttpAnswers.

Open Scope Z_scope.

(** ** Who holds the receiver *)

Definition holds (pc : ReadPc) : bool :=
  match pc with
  | RdReceiving | RdPutting _ | RdFailing _ | RdEnding true => true
  | _ => false
  end.

Record owned (v : View) (ch : Chan) : Prop := {
  o_rx : v_body (v_reg v) = Some BStream → rx_open ch = true;
  o_hold r x :
    v_reads v !! r = Some x → holds (read_pc x) = true →
    rx_open ch = true ∧ v_body (v_reg v) ≠ Some BStream ∧
    ∀ r' x', v_reads v !! r' = Some x' → holds (read_pc x') = true → r' = r;
  o_wait r x :
    v_reads v !! r = Some x →
    match read_pc x with
    | RdTaking => v_body (v_reg v) = None
    | RdPuttingBack _ => False
    | _ => True
    end;
  o_kind l : v_body (v_reg v) ≠ Some (BFull l);
  o_take : v_take v = None
}.

(** No read holds it while the registry does. *)

Lemma no_holder v ch r x :
  owned v ch → v_body (v_reg v) = Some BStream → v_reads v !! r = Some x → holds (read_pc x) = false.
Proof. intros Ho Hb Hr. destruct (holds (read_pc x)) eqn:E; [|done]. by destruct (o_hold _ _ Ho r x Hr E) as (_ & ? & _). Qed.

Lemma owned_same v v' ch ch' :
  v_body (v_reg v') = v_body (v_reg v) → v_reads v' = v_reads v → v_take v' = v_take v → rx_open ch' = rx_open ch →
  owned v ch → owned v' ch'.
Proof. intros E1 E2 E3 E4 [H1 H2 H3 H4 H5]. split; rewrite ?E1, ?E2, ?E3, ?E4; done. Qed.

(** A read that does not hold the receiver goes on, or starts. *)

Lemma owned_read v ch r x :
  owned v ch → (∀ x0, v_reads v !! r = Some x0 → holds (read_pc x0) = false ∨ holds (read_pc x) = true) →
  (holds (read_pc x) = true → ∃ x0, v_reads v !! r = Some x0 ∧ holds (read_pc x0) = true) →
  match read_pc x with RdTaking => v_body (v_reg v) = None | RdPuttingBack _ => False | _ => True end →
  owned (vr r x v) ch.
Proof.
  intros [H1 H2 H3 H4 H5] Ha Hb Hw. split; cbn; try done.
  - intros r1 x1 E1 Eh. assert (∃ y, v_reads v !! r1 = Some y ∧ holds (read_pc y) = true) as (y & Ey & Hy).
    { rewrite lookup_insert_Some in E1. destruct E1 as [[-> ->]|[_ E1]]; [by apply Hb|by exists x1]. }
    destruct (H2 r1 y Ey Hy) as (? & ? & Hu). split_and!; [done..|]. intros r2 x2 E2 Eh2.
    rewrite lookup_insert_Some in E2. destruct E2 as [[-> ->]|[_ E2]]; [|by eapply Hu].
    destruct (Hb Eh2) as (z & Ez & Hz). by eapply Hu.
  - intros r1 x1. rewrite lookup_insert_Some. intros [[_ <-]|[_ E]]; [done|by eapply H3].
Qed.

Lemma owned_rat v ch r x pc :
  owned v ch → v_reads v !! r = Some x → holds pc = holds (read_pc x) →
  match pc with RdTaking => v_body (v_reg v) = None | RdPuttingBack _ => False | _ => True end → owned (rat r x pc v) ch.
Proof.
  intros Ho Hr Hh Hw. apply owned_read; [done|..|done].
  - intros x0 E. rewrite Hr in E. injection E as <-. cbn. rewrite Hh. by destruct (holds (read_pc x)); auto.
  - cbn. intros E. exists x. split; [done|congruence].
Qed.

(** One that holds it lets go. *)

Lemma owned_release v ch r x x' b ch' :
  owned v ch → v_reads v !! r = Some x → holds (read_pc x) = true → holds (read_pc x') = false →
  (b = Some BStream → rx_open ch' = true) → (∀ l, b ≠ Some (BFull l)) → (v_body (v_reg v) = None → b = None) →
  match read_pc x' with RdTaking => b = None | RdPuttingBack _ => False | _ => True end →
  owned (vr r x' (vg (g_body b) v)) ch'.
Proof.
  intros [H1 H2 H3 H4 H5] Hr Hh Hh' Hrx Hk Hn Hw. destruct (H2 r x Hr Hh) as (_ & _ & Hu). split; cbn; try done.
  - intros r1 x1. rewrite lookup_insert_Some. intros [[_ <-]|[Hne E]]; [congruence|]. intros Eh. by destruct (Hne (eq_sym (Hu _ _ E Eh))).
  - intros r1 x1. rewrite lookup_insert_Some. intros [[_ <-]|[_ E]]; [done|]. specialize (H3 r1 x1 E). destruct (read_pc x1); auto.
Qed.

(** The registry lets go of the body, and of the receiver if it has it. *)

Lemma owned_remove v ch :
  owned v ch → owned (vg (g_body None) v) (match v_body (v_reg v) with Some BStream => close_rx ch | _ => ch end).
Proof.
  intros Ho. pose proof Ho as [H1 H2 H3 H4 H5]. split; cbn; try done.
  - intros r x Hr Hh. destruct (H2 r x Hr Hh) as (Hrx & Hb & Hu). split_and!; [|done|done].
    destruct (v_body (v_reg v)) as [[]|]; done.
  - intros r x Hr. specialize (H3 r x Hr). by destruct (read_pc x).
Qed.

Lemma chan_remove v ch :
  v_chan (v_reg v) = Some ch →
  v_chan (g_remove (v_reg v)) = Some (match v_body (v_reg v) with Some BStream => close_rx ch | _ => ch end).
Proof. intros H. unfold g_remove. by destruct (v_body (v_reg v)) as [[]|] eqn:E; cbn; rewrite H. Qed.

Lemma body_remove g : v_body (g_remove g) = None.
Proof. unfold g_remove. by destruct (v_body g) as [[]|]. Qed.

Definition is_owned (v : View) : Prop := ∃ ch, v_chan (v_reg v) = Some ch ∧ owned v ch.

Lemma owned_cancel v : is_owned v → is_owned (vg g_cancel v).
Proof.
  intros (ch & Hc & Ho). eexists. split; [by apply chan_remove|]. eapply owned_same; [..|exact (owned_remove v ch Ho)]; try done.
  apply body_remove.
Qed.

Lemma owned_drop_rx v ch :
  owned v ch → (∀ r x, v_reads v !! r = Some x → holds (read_pc x) = false) → v_body (v_reg v) ≠ Some BStream →
  owned v (close_rx ch).
Proof. intros [H1 H2 H3 H4 H5] Hn Hb. split; try done. intros r x Hr Hh. by rewrite (Hn r x Hr) in Hh. Qed.

Lemma owned_register v :
  nothing v → is_owned (vp (PReading 0) (vg (g_register CStream) v)).
Proof.
  intros (_ & Hr & Ht & _ & Hg & _). eexists. split; [done|]. split; cbn; rewrite ?Hr; try done.
Qed.

Lemma owned_handler h v v' :
  is_owned v → ¬ nothing v → stage v → v_handler v = Some h → handler_at h v (handler_pc h) v' → is_owned v'.
Proof.
  intros (ch & Hc & Ho) Hn Hs Hh Hat. unfold stage in Hs. rewrite Hh in Hs.
  destruct (handler_pc h) eqn:Ep; inversion Hat; subst; clear Hat; try done;
    try (exists ch; split; [exact Hc|by eapply owned_same; [..|exact Ho]]).
  pose proof (o_kind _ _ Ho) as Hk. pose proof (owned_cancel v (ex_intro _ ch (conj Hc Ho))) as (ch' & Hc' & Ho').
  assert ((g_reap dispatched (v_reg v) = v_reg v ∨ g_reap dispatched (v_reg v) = g_trailers None (v_reg v)) ∨
          g_reap dispatched (v_reg v) = g_cancel (v_reg v)) as [Hg|Hg].
  { unfold g_reap. destruct (v_body (v_reg v)) as [[l| |]|] eqn:E; [by destruct (Hk l)|..|by auto]; destruct dispatched; auto. }
  - exists ch. split; [cbn; by destruct Hg as [->| ->]|]. eapply owned_same; [..|exact Ho]; try done. cbn. by destruct Hg as [->| ->].
  - exists ch'. split; [cbn; by rewrite Hg|]. eapply owned_same; [..|exact Ho']; try done. cbn. by rewrite Hg.
Qed.

Lemma put_cases g :
  v_body g = Some BStreamPending ∧ g_put g = g_body (Some BStream) g ∨ g_put g = g_drop_rx g.
Proof. unfold g_put. destruct (v_body g) as [[]|]; auto. Qed.

Lemma is_owned_release v ch r x pc f b ch' :
  owned v ch → v_reads v !! r = Some x → holds (read_pc x) = true → holds pc = false →
  match pc with RdTaking | RdPuttingBack _ => False | _ => True end →
  v_body (f (v_reg v)) = b → v_chan (f (v_reg v)) = Some ch' →
  (b = Some BStream → rx_open ch' = true) → (∀ l, b ≠ Some (BFull l)) → (v_body (v_reg v) = None → b = None) →
  is_owned (rat r x pc (vg f v)).
Proof.
  intros Ho Hr Hh Hpc Hw Hb Hc H1 H2 H3. exists ch'. split; [done|].
  eapply owned_same; [..|eapply (owned_release v ch r x {| read_of := read_of x; read_pc := pc |} b ch')]; try done. by destruct pc.
Qed.

Lemma owned_reading r x v v' : is_owned v → v_reads v !! r = Some x → read_at r x v (read_pc x) v' → is_owned v'.
Proof.
  intros (ch & Hc & Ho) Hr Hat. pose proof (o_wait _ _ Ho r x Hr) as Hw.
  destruct (read_pc x) eqn:Ep; inversion Hat; subst; clear Hat; try done; simplify_eq.
  - exists ch. split; [done|]. pose proof (o_rx _ _ Ho ltac:(done)) as Hrx. destruct Ho as [O1 O2 O3 O4 O5]. split; cbn; try done.
    + intros r1 x1. rewrite lookup_insert_Some. intros [[<- <-]|[Hne E]] Hh.
      * split_and!; [done|done|]. intros r2 x2. rewrite lookup_insert_Some. intros [[? _]|[_ E2]] Hh2; [done|].
        by destruct (O2 _ _ E2 Hh2) as (_ & ? & _).
      * by destruct (O2 _ _ E Hh) as (_ & ? & _).
    + intros r1 x1. rewrite lookup_insert_Some. intros [[_ <-]|[_ E]]; [done|]. specialize (O3 r1 x1 E).
      destruct (read_pc x1); congruence || done.
  - exists ch. split; [done|]. eapply owned_same; [..|apply (owned_rat v ch r x RdOver)]; try done. by rewrite Ep.
  - exists ch. split; [done|]. apply owned_rat; try done; [by rewrite Ep|]. destruct (v_body (v_reg v)) as [b|] eqn:E; [|done].
    destruct (H b eq_refl) as [l ->]. by destruct (o_kind _ _ Ho l).
  - exists ch. split; [done|]. eapply owned_same; [..|apply (owned_rat v ch r x (RdEnding false))]; try done. by rewrite Ep.
  - exists (set_items l ch). split; [done|]. eapply owned_same; [..|apply (owned_rat v ch r x (RdPutting c))]; try done. by rewrite Ep.
  - exists (set_items l ch). split; [done|]. eapply owned_same; [..|apply (owned_rat v ch r x (RdFailing o))]; try done. by rewrite Ep.
  - exists ch. split; [done|]. apply owned_rat; try done. by rewrite Ep.
  - assert (holds (read_pc x) = true) as Hh by (by rewrite Ep). destruct (o_hold _ _ Ho r x Hr Hh) as (Hrx & Hb & _).
    destruct (put_cases (v_reg v)) as [[E Hg]|Hg].
    + eapply (is_owned_release v ch); try done; rewrite ?Hg; cbn; try done. by rewrite E.
    + eapply (is_owned_release v ch _ _ _ _ (v_body (v_reg v)) (close_rx ch)); try done; rewrite ?Hg; cbn; rewrite ?Hc; try done.
      apply (o_kind _ _ Ho).
  - exists ch. split; [done|]. apply owned_rat; try done. by rewrite Ep.
  - assert (holds (read_pc x) = true) as Hh by (by rewrite Ep). destruct (o_hold _ _ Ho r x Hr Hh) as (Hrx & Hb & _).
    enough (is_owned (rat r x RdOver (vg (λ g, g_drop_rx (g_cancel g)) v))) as (ch' & E1 & E2)
      by (exists ch'; split; [exact E1|by eapply owned_same; [..|exact E2]]).
    eapply (is_owned_release v ch _ _ _ _ None (close_rx _)); try done; cbn; rewrite ?body_remove; try done.
    by rewrite (chan_remove _ _ Hc).
  - destruct holds_rx.
    + assert (holds (read_pc x) = true) as Hh by (by rewrite Ep).
      enough (is_owned (rat r x RdOver (vg (λ g, g_drop_rx (g_cancel g)) v))) as (ch' & E1 & E2)
        by (exists ch'; split; [exact E1|by eapply owned_same; [..|exact E2]]).
      eapply (is_owned_release v ch _ _ _ _ None (close_rx _)); try done; cbn; rewrite ?body_remove; try done.
      by rewrite (chan_remove _ _ Hc).
    + destruct (owned_cancel v (ex_intro _ ch (conj Hc Ho))) as (ch' & Hc' & Ho'). exists ch'. split; [exact Hc'|].
      eapply owned_same; [..|apply (owned_rat _ _ r x RdOver Ho')]; try done. by rewrite Ep.
Qed.

Lemma owned_pump p v v' : is_owned v → pump_at v p v' → is_owned v'.
Proof.
  intros (ch & Hc & Ho) Hat. inversion Hat; subst; clear Hat; simplify_eq;
    try (exists ch; split; [exact Hc|by eapply owned_same; [..|exact Ho]]).
  - exists (close_tx ch). split; [cbn; by rewrite Hc|]. by eapply owned_same; [..|exact Ho].
  - exists ch. unfold g_store. cbn. split; [by case_match|]. eapply owned_same; [..|exact Ho]; try done. cbn. by case_match.
  - exists ch. unfold v_refuse, v_take_responder. split; [by repeat case_match|]. eapply owned_same; [..|exact Ho]; try done; by repeat case_match.
  - eexists. split; [done|]. by eapply owned_same; [..|exact Ho].
  - eexists. split; [done|]. by eapply owned_same; [..|exact Ho].
  - exists (close_tx ch). split; [cbn; by rewrite Hc|]. by eapply owned_same; [..|exact Ho].
  - exists (close_tx ch). split; [cbn; by rewrite Hc|]. by eapply owned_same; [..|exact Ho].
Qed.

(** A request that is streamed. *)

Definition streamed (v : View) : Prop := v_pump v ≠ None.

Lemma streamed_step e v v' : vstep v e v' → streamed v → streamed v'.
Proof.
  unfold streamed. intros Hst Hp. inversion Hst; subst; clear Hst; try done.
  - match goal with H : handler_at _ _ _ _ |- _ => inversion H; subst; clear H end; try done. by destruct b.
  - match goal with H : pump_at _ _ _ |- _ => inversion H; subst; clear H end; try done.
  - match goal with H : read_at _ _ _ _ _ |- _ => inversion H; subst; clear H end; try done.
  - unfold v_take_responder. by case_match.
Qed.

Lemma owned_step e v v' :
  vstep v e v' → (∀ i, e ≠ NTake i) → stage v → streamed v → is_owned v → is_owned v'.
Proof.
  intros Hst He Hs Hp Hi. pose proof Hi as (ch & Hc & Ho). assert (¬ nothing v) as Hn by (intros [E _]; by destruct Hp).
  inversion Hst; subst; clear Hst; simplify_eq; try done.
  - by eapply owned_handler.
  - by eapply owned_pump.
  - eexists. split; [done|]. by eapply owned_same; [..|exact Ho].
  - exists ch. split; [done|]. apply owned_read; try done. intros x0 E. congruence.
  - by eapply owned_reading.
  - unfold v_take_responder. exists ch. split; [by case_match|]. eapply owned_same; [..|exact Ho]; try done; by case_match.
  - by apply owned_cancel.
  - by destruct (o_kind _ _ Ho l).
  - exfalso. by eapply He.
  - pose proof (o_take _ _ Ho). congruence.
  - eexists. split; [done|]. by eapply owned_same; [..|exact Ho].
Qed.
