(* ===== verification/HttpBodyFlow.v ===== *)
(** * HttpBodyFlow: where the bytes of a body are

    While a body's receiver is held, what hyper gave is what JS was given, what
    is queued and what the pump has in hand, in that order ([flow_step]). *)

From S2P Require Import Prelude RustStd HttpHead HttpBody HttpView HttpRequest HttpAnswers HttpBodyOwner.

Open Scope Z_scope.

(** ** Where the bytes are *)

Definition frames_data (l : list BodyFrame) : list byte :=
  concat (map (λ f, match f with FData d => d | _ => [] end) l).

Definition outcomes_data (l : list OpOutcome) : list byte :=
  concat (map (λ o, match o with OBytes d => d | _ => [] end) l).

Definition items_data (l : list Item) : list byte :=
  concat (map (λ i, match i with IChunk c => chunk_data c | IFailed _ => [] end) l).

Definition in_hand (p : PumpPc) : list byte :=
  match p with
  | PChecking _ c _ | PRefusing _ c | PSending _ (IChunk c) | PDropping c => chunk_data c
  | _ => []
  end.

Definition doomed (p : PumpPc) : bool :=
  match p with
  | PSending _ (IFailed _) | POver false => true
  | _ => false
  end.

(** The outcomes that say that the body failed. *)

Definition failure (o : OpOutcome) : Prop :=
  match o with
  | OFailed m => m ≠ "concurrent read of the same request body"
  | OBodyFailure _ => True
  | _ => False
  end.

Definition sent (v : View) : list byte := frames_data (v_frames (v_trace v)).
Definition got (v : View) : list byte := outcomes_data (v_outcomes (v_trace v)).

Record flow (v : View) (p : PumpPc) (ch : Chan) : Prop := {
  f_prefix : got v `prefix_of` sent v;
  f_flow :
    rx_open ch = true →
    ∃ lost, sent v = got v ++ items_data (items ch) ++ in_hand p ++ lost ∧ (doomed p = false → lost = []);
  f_over :
    rx_open ch = true → p = POver false →
    (∃ o, IFailed o ∈ items ch) ∨ (∃ r x o, v_reads v !! r = Some x ∧ read_pc x = RdFailing o);
  f_clean : p = POver true → FEnd ∈ v_frames (v_trace v);
  f_tx : tx_open ch = false → ∃ b, p = POver b;
  f_drop : match p with PDropping _ => rx_open ch = false | _ => True end;
  f_items o : IFailed o ∈ items ch → failure o;
  f_hand : match p with PSending _ (IFailed o) => failure o | _ => True end;
  f_reads r x o : v_reads v !! r = Some x → read_pc x = RdFailing o → failure o
}.

Definition is_flow (v : View) : Prop := ∃ p ch, v_pump v = Some p ∧ v_chan (v_reg v) = Some ch ∧ flow v p ch.

Lemma frames_data_app l l' : frames_data (l ++ l') = frames_data l ++ frames_data l'.
Proof. unfold frames_data. by rewrite map_app, concat_app. Qed.

Lemma outcomes_data_app l l' : outcomes_data (l ++ l') = outcomes_data l ++ outcomes_data l'.
Proof. unfold outcomes_data. by rewrite map_app, concat_app. Qed.

Lemma items_data_app l l' : items_data (l ++ l') = items_data l ++ items_data l'.
Proof. unfold items_data. by rewrite map_app, concat_app. Qed.

Lemma sent_frame f v v' :
  v_frames (v_trace v') = v_frames (v_trace v) ++ [f] → sent v' = sent v ++ match f with FData d => d | _ => [] end.
Proof. intros E. unfold sent. rewrite E, frames_data_app. cbn. by rewrite app_nil_r. Qed.

Lemma got_outcome o v v' :
  v_outcomes (v_trace v') = v_outcomes (v_trace v) ++ [o] → got v' = got v ++ match o with OBytes d => d | _ => [] end.
Proof. intros E. unfold got. rewrite E, outcomes_data_app. cbn. by rewrite app_nil_r. Qed.

(** Steps that move no byte. *)

Lemma flow_same v v' p ch ch' :
  v_reads v' = v_reads v → got v' = got v → v_frames (v_trace v') = v_frames (v_trace v) → items ch' = items ch →
  tx_open ch' = tx_open ch → (rx_open ch' = true → rx_open ch = true) → flow v p ch → flow v' p ch'.
Proof.
  intros E1 E2 E3 E4 E5 Hx [H1 H2 H3 H4 H5 H6 H7 H8 H9]. assert (sent v' = sent v) as E6 by (unfold sent; by rewrite E3).
  split; rewrite ?E1, ?E2, ?E3, ?E4, ?E5, ?E6; auto. destruct p; try done. destruct (rx_open ch'); [by rewrite Hx in H6|done].
Qed.

(** A read goes on without a byte; if it was giving a failure, the receiver is
    gone. *)

Lemma flow_read v v' p ch ch' r x x' :
  v_reads v !! r = Some x ∨ v_reads v !! r = None → v_reads v' = <[r := x']> (v_reads v) → got v' = got v →
  v_frames (v_trace v') = v_frames (v_trace v) → items ch' = items ch → tx_open ch' = tx_open ch →
  (rx_open ch' = true → rx_open ch = true ∧ ∀ y o, v_reads v !! r = Some y → read_pc y ≠ RdFailing o) →
  (∀ o, read_pc x' ≠ RdFailing o) → flow v p ch → flow v' p ch'.
Proof.
  intros Hr E1 E2 E3 E4 E5 Hx Hf [H1 H2 H3 H4 H5 H6 H7 H8 H9]. assert (sent v' = sent v) as E6 by (unfold sent; by rewrite E3).
  split; rewrite ?E2, ?E3, ?E4, ?E5, ?E6; auto.
  - intros H. by apply H2, Hx.
  - intros H Hp. destruct (Hx H) as [Hrx Hy]. destruct (H3 Hrx Hp) as [?|(r1 & y & o & Ey & Eo)]; [by left|]. right.
    exists r1, y, o. split; [|done]. rewrite E1. destruct (decide (r1 = r)) as [->|]; [by destruct (Hy y o Ey)|by rewrite lookup_insert_ne].
  - destruct p; try done. destruct (rx_open ch'); [by destruct (Hx eq_refl) as [E _]; rewrite E in H6|done].
  - intros r1 y o. rewrite E1, lookup_insert_Some. intros [[_ <-]|[_ E]] Eo; [by destruct (Hf o)|by eapply H9].
Qed.

(** The pump. *)

Lemma flow_put v v' p p' ch ch' :
  flow v p ch → v_reads v' = v_reads v → v_outcomes (v_trace v') = v_outcomes (v_trace v) → rx_open ch' = rx_open ch →
  sent v `prefix_of` sent v' →
  (∀ lost, sent v = got v ++ items_data (items ch) ++ in_hand p ++ lost → (doomed p = false → lost = []) →
     ∃ lost', sent v' = got v ++ items_data (items ch') ++ in_hand p' ++ lost' ∧ (doomed p' = false → lost' = [])) →
  (p' = POver false → ∃ o, IFailed o ∈ items ch') → (p' = POver true → FEnd ∈ v_frames (v_trace v')) →
  (tx_open ch' = false → ∃ b, p' = POver b) → match p' with PDropping _ => rx_open ch = false | _ => True end →
  (∀ o, IFailed o ∈ items ch' → failure o) → match p' with PSending _ (IFailed o) => failure o | _ => True end →
  flow v' p' ch'.
Proof.
  intros [H1 H2 H3 H4 H5 H6 H7 H8 H9] E1 E2 E3 Hpre Hfl Hov Hcl Htx Hdr Hit Hha.
  assert (got v' = got v) as E4 by (unfold got; by rewrite E2). split; rewrite ?E1, ?E3, ?E4; auto.
  - by etrans.
  - intros Hrx. destruct (H2 Hrx) as (lost & Hs & Hl). by eapply Hfl.
Qed.

Lemma flow_closed v v' p clean ch :
  flow v p ch → rx_open ch = false → v_reads v' = v_reads v → v_outcomes (v_trace v') = v_outcomes (v_trace v) →
  v_frames (v_trace v') = v_frames (v_trace v) → (clean = true → FEnd ∈ v_frames (v_trace v)) →
  flow v' (POver clean) (close_tx ch).
Proof.
  intros [H1 H2 H3 H4 H5 H6 H7 H8 H9] Hrx E1 E2 E3 Hc.
  assert (got v' = got v) as E4 by (unfold got; by rewrite E2). assert (sent v' = sent v) as E5 by (unfold sent; by rewrite E3).
  split; cbn; rewrite ?E1, ?E3, ?E4, ?E5; try done; try congruence.
  - intros [= ->]. by apply Hc.
  - by eexists.
Qed.

Lemma sent_same v v' : v_frames (v_trace v') = v_frames (v_trace v) → sent v' = sent v.
Proof. unfold sent. by intros ->. Qed.

Lemma flow_pump p v v' : v_pump v = Some p → is_flow v → pump_at v p v' → is_flow v'.
Proof.
  intros Hp (p1 & ch & Ep & Hc & Hf) Hat. rewrite Hp in Ep. injection Ep as <-. pose proof (f_items _ _ _ Hf) as Hi.
  pose proof (f_tx _ _ _ Hf) as Htx. pose proof (f_hand _ _ _ Hf) as Hh. pose proof (f_drop _ _ _ Hf) as Hd.
  assert (∀ f v1, v_frames (v_trace v1) = v_frames (v_trace v) ++ [f] → sent v `prefix_of` sent v1) as Hpre
    by (intros f v1 E; rewrite (sent_frame f v v1 E); by apply prefix_app_r).
  inversion Hat; subst; clear Hat; simplify_eq.
  - exists (POver true), (close_tx ch). split_and!; [done|cbn; by rewrite Hc|].
    eapply flow_put; [exact Hf|done|done|done|by apply (Hpre FEnd)| |done| |by eexists|done|exact Hi|done].
    + intros lost Hs Hl. exists lost. rewrite (sent_frame FEnd v), app_nil_r by done. split; [exact Hs|done].
    + intros _. cbn. apply elem_of_app. right. by apply list_elem_of_singleton.
  - exists (PFailing total e), ch. split_and!; [done|done|].
    eapply flow_put; [exact Hf|done|done|done|by apply (Hpre (FError e))| |done|done| |done|exact Hi|done].
    + intros lost Hs Hl. exists lost. rewrite (sent_frame (FError e) v), app_nil_r by done. split; [exact Hs|done].
    + intros E. by destruct (Htx E).
  - exists (PReading total), ch. split_and!; [done|cbn; unfold g_store; by case_match|].
    eapply flow_put; [exact Hf|done|done|done|by apply (Hpre (FTrailers t))| |done|done| |done|exact Hi|done].
    + intros lost Hs Hl. exists lost. rewrite (sent_frame (FTrailers t) v), app_nil_r by done. split; [exact Hs|done].
    + intros E. by destruct (Htx E).
  - exists (PSending total' (IFailed (OFailed "request body too large"))), ch. split_and!; [done|done|].
    eapply flow_put; [exact Hf|done|done|done|by apply (Hpre (FData data))| |done|done| |done|exact Hi|done].
    + intros lost Hs Hl. rewrite (Hl eq_refl) in Hs. exists data. rewrite (sent_frame (FData data) v), Hs by done.
      split; [cbn; by rewrite <-!app_assoc|done].
    + intros E. by destruct (Htx E).
  - exists (PChecking total' c prev), ch. split_and!; [done|done|].
    eapply flow_put; [exact Hf|done|done|done|by eapply Hpre| |done|done| |done|exact Hi|done].
    + intros lost Hs Hl. rewrite (Hl eq_refl) in Hs. exists []. rewrite (sent_frame (FData (chunk_data c)) v), Hs by done.
      split; [cbn; by rewrite <-!app_assoc, app_nil_r|done].
    + intros E. by destruct (Htx E).
  - exists (PRefusing total c), ch. split_and!; [done|done|].
    eapply flow_put; [exact Hf|done|done|done|reflexivity| |done|done| |done|exact Hi|done]; [intros lost Hs Hl; by exists lost|].
    intros E. by destruct (Htx E).
  - exists (PSending total (IChunk c)), ch. split_and!; [done|done|].
    eapply flow_put; [exact Hf|done|done|done|reflexivity| |done|done| |done|exact Hi|done]; [intros lost Hs Hl; by exists lost|].
    intros E. by destruct (Htx E).
  - exists (PSending total (IFailed (OFailed "server is busy"))), ch. split_and!; [done|done|].
    eapply flow_put; [exact Hf|done|done|done|reflexivity| |done|done| |done|exact Hi|done]; [|intros E; by destruct (Htx E)].
    intros lost Hs Hl. exists (chunk_data c ++ lost). split; [exact Hs|done].
  - exists (PSending total (IFailed (OBodyFailure e))), ch.
    assert (v_chan (v_reg (v_refuse e v)) = Some ch ∧ v_reads (v_refuse e v) = v_reads v ∧
            v_outcomes (v_trace (v_refuse e v)) = v_outcomes (v_trace v) ∧ v_frames (v_trace (v_refuse e v)) = v_frames (v_trace v))
      as (E1 & E2 & E3 & E4) by (unfold v_refuse, v_take_responder; by repeat case_match).
    split_and!; [done|done|].
    eapply flow_put; [exact Hf|done|done|done|by unfold sent; cbn; rewrite E4| |done|done| |done|exact Hi|done]; [|intros E; by destruct (Htx E)].
    intros lost Hs Hl. exists lost. split; [|intros _; by apply Hl]. unfold sent. cbn. rewrite E4. exact Hs.
  - exists (PReading total), (set_items (items ch ++ [IChunk c]) ch). split_and!; [done|done|].
    eapply flow_put; [exact Hf|done|done|done|reflexivity| |done|done| |done| |done]; [|intros E; by destruct (Htx E)|].
    + intros lost Hs Hl. rewrite (Hl eq_refl) in Hs. exists []. split; [|done]. cbn [items set_items in_hand]. rewrite items_data_app. cbn.
      change (sent (vp _ _)) with (sent v). rewrite Hs. cbn. by rewrite <-!app_assoc.
    + intros o. cbn. rewrite elem_of_app, list_elem_of_singleton. intros [?|?]; [by apply Hi|done].
  - exists (POver false), (close_tx (set_items (items ch ++ [IFailed o]) ch)). split_and!; [done|done|].
    eapply flow_put; [exact Hf|done|done|done|reflexivity| | |done|by eexists|done| |done].
    + intros lost Hs Hl. exists lost. split; [|done]. cbn [items close_tx set_items in_hand].
      rewrite items_data_app. cbn. rewrite app_nil_r. exact Hs.
    + intros _. exists o. cbn. rewrite elem_of_app, list_elem_of_singleton. by right.
    + intros o'. cbn. rewrite elem_of_app, list_elem_of_singleton. intros [?|[= ->]]; [by apply Hi|done].
  - exists (PDropping c), ch. split_and!; [done|done|].
    eapply flow_put; [exact Hf|done|done|done|reflexivity| |done|done| |done|exact Hi|done]; [intros lost Hs Hl; by exists lost|].
    intros E. by destruct (Htx E).
  - exists (POver false), (close_tx ch). split_and!; [done|cbn; by rewrite Hc|]. by eapply flow_closed.
  - exists (POver false), (close_tx ch). split_and!; [done|cbn; by rewrite Hc|]. by eapply flow_closed.
Qed.

(** The other steps. *)

Lemma flow_register v :
  nothing v → v_frames (v_trace v) = [] → is_flow (vp (PReading 0) (vg (g_register CStream) v)).
Proof.
  intros (_ & Hr & _ & _ & _ & _ & _ & Ho & _) Hf. eexists _, _. split_and!; [done|done|].
  assert (sent v = [] ∧ got v = []) as [Es Eg] by (unfold sent, got; by rewrite Hf, Ho).
  split; cbn; try done.
  - change (got v `prefix_of` sent v). by rewrite Es, Eg.
  - intros _. exists []. split; [|done]. change (sent v = got v ++ []). by rewrite Es, Eg.
  - intros o Hi. by apply not_elem_of_nil in Hi.
  - intros r x o. by rewrite Hr.
Qed.

Lemma rx_remove g ch :
  v_chan g = Some ch → ∃ ch', v_chan (g_remove g) = Some ch' ∧ items ch' = items ch ∧ tx_open ch' = tx_open ch ∧
  (rx_open ch' = true → rx_open ch = true).
Proof. intros H. unfold g_remove. destruct (v_body g) as [[]|]; cbn; rewrite H; by eexists. Qed.

Lemma rx_reap d g ch :
  v_chan g = Some ch → ∃ ch', v_chan (g_reap d g) = Some ch' ∧ items ch' = items ch ∧ tx_open ch' = tx_open ch ∧
  (rx_open ch' = true → rx_open ch = true).
Proof.
  intros H. pose proof (rx_remove g ch H). unfold g_reap. destruct (v_body g) as [[]|], d; cbn; done || by exists ch.
Qed.

Lemma flow_handler h v v' :
  is_flow v → ¬ nothing v → stage v → v_handler v = Some h → handler_at h v (handler_pc h) v' → is_flow v'.
Proof.
  intros (p & ch & Hp & Hc & Hf) Hn Hs Hh Hat. unfold stage in Hs. rewrite Hh in Hs.
  destruct (handler_pc h) eqn:Ep; inversion Hat; subst; clear Hat; try done;
    try (exists p, ch; split_and!; [done|done|by eapply flow_same; [..|exact Hf]]).
  destruct (rx_reap dispatched _ _ Hc) as (ch' & Hc' & Ei & Et & Hx). exists p, ch'. split_and!; [done|done|].
  by eapply flow_same; [..|exact Hf].
Qed.

Lemma flow_receive v p ch r x i l x' v' :
  flow v p ch → v_reads v !! r = Some x → read_pc x = RdReceiving → items ch = i :: l →
  v_reads v' = <[r := x']> (v_reads v) → v_frames (v_trace v') = v_frames (v_trace v) →
  rx_open ch = true → got v' = got v ++ match i with IChunk c => chunk_data c | IFailed _ => [] end →
  match i with IChunk _ => ∀ o, read_pc x' ≠ RdFailing o | IFailed o => read_pc x' = RdFailing o end →
  flow v' p (set_items l ch).
Proof.
  intros [H1 H2 H3 H4 H5 H6 H7 H8 H9] Hr Ep Ei E1 E2 Hrx E3 Hx. assert (sent v' = sent v) as E4 by (unfold sent; by rewrite E2).
  destruct (H2 Hrx) as (lost & Hs & Hl). rewrite Ei in *. assert (items_data (i :: l) = match i with IChunk c => chunk_data c | IFailed _ => [] end ++ items_data l) as Ed by done.
  split; cbn; rewrite ?E2, ?E3, ?E4; auto.
  - rewrite Hs, Ed, <-!app_assoc, app_assoc. by apply prefix_app_r.
  - intros _. exists lost. split; [|done]. rewrite Hs, Ed. by rewrite <-!app_assoc.
  - intros _ Hp. destruct (H3 Hrx Hp) as [(o & Ho)|(r1 & y & o & Ey & Eo)].
    + apply elem_of_cons in Ho as [<-|Ho]; [|left; by exists o]. right. exists r, x', o. rewrite E1, lookup_insert_eq. done.
    + right. exists r1, y, o. split; [|done]. rewrite E1, lookup_insert_ne; [done|]. intros ->. congruence.
  - intros o Ho. apply H7. by apply elem_of_cons; right.
  - intros r1 y o. rewrite E1, lookup_insert_Some. intros [[_ <-]|[_ E]] Eo; [|by eapply H9].
    destruct i as [c|o']; [by destruct (Hx o)|]. rewrite Hx in Eo. injection Eo as ->. apply H7. apply elem_of_cons. by left.
Qed.

Lemma got_read r x pc o v :
  got (rat r x pc (vt (t_outcome o) v)) = got v ++ match o with OBytes d => d | _ => [] end.
Proof. by apply got_outcome. Qed.

Lemma flow_reading r x v v' :
  is_owned v → is_flow v → v_reads v !! r = Some x → read_at r x v (read_pc x) v' → is_flow v'.
Proof.
  intros (ch0 & Hc0 & Ho) (p & ch & Hp & Hc & Hf) Hr Hat. rewrite Hc in Hc0. injection Hc0 as <-.
  assert (∀ v1 ch1 x', v_reads v1 = <[r := x']> (v_reads v) → got v1 = got v → v_frames (v_trace v1) = v_frames (v_trace v) →
    items ch1 = items ch → tx_open ch1 = tx_open ch → (rx_open ch1 = true → rx_open ch = true ∧ ∀ o, read_pc x ≠ RdFailing o) →
    (∀ o, read_pc x' ≠ RdFailing o) → v_pump v1 = v_pump v → v_chan (v_reg v1) = Some ch1 → is_flow v1) as Hg.
  { intros v1 ch1 x' E1 E2 E3 E4 E5 E6 E7 E8 E9. exists p, ch1. split_and!; [congruence|done|].
    eapply (flow_read v v1 p ch ch1 r x x'); try done; [by left|]. intros Hx. destruct (E6 Hx) as [? Hy]. split; [done|].
    intros y o Ey. rewrite Hr in Ey. injection Ey as <-. apply Hy. }
  destruct (read_pc x) eqn:Ep; inversion Hat; subst; clear Hat; simplify_eq;
    try (by eapply (Hg _ ch)).
  - eapply (Hg _ ch); try done. by rewrite got_read, app_nil_r.
  - by destruct (o_kind _ _ Ho l).
  - destruct (o_hold _ _ Ho r x Hr) as (Hrx & _); [by rewrite Ep|]. exists p, (set_items l ch). split_and!; [done|done|].
    eapply (flow_receive v p ch r x (IChunk c)); try done. by rewrite got_read.
  - destruct (o_hold _ _ Ho r x Hr) as (Hrx & _); [by rewrite Ep|]. exists p, (set_items l ch). split_and!; [done|done|].
    eapply (flow_receive v p ch r x (IFailed o)); try done. by rewrite app_nil_r.
  - destruct (put_cases (v_reg v)) as [[E Hgp]|Hgp].
    + eapply (Hg _ ch); try done; cbn; by rewrite ?Hgp.
    + eapply (Hg _ (close_rx ch)); try done; cbn; rewrite ?Hgp; cbn; by rewrite ?Hc.
  - destruct (rx_remove _ _ Hc) as (ch' & Hc' & Ei & Et & Hx). eapply (Hg _ (close_rx ch')); try done.
    + pose proof (f_reads _ _ _ Hf r x o Hr Ep) as Hfo. rewrite got_read.
      destruct o; by rewrite ?app_nil_r.
    + cbn. by rewrite Hc'.
  - destruct (rx_remove _ _ Hc) as (ch' & Hc' & Ei & Et & Hx).
    eapply (Hg _ (if holds_rx then close_rx ch' else ch')); try done; try (by destruct holds_rx).
    + rewrite got_read. unfold body_end. destruct (v_trailers _); by rewrite app_nil_r.
    + destruct holds_rx; [done|]. intros E. split; [by apply Hx|done].
    + cbn. destruct holds_rx; cbn; by rewrite Hc'.
Qed.

Lemma flow_step e v v' :
  vstep v e v' → (∀ i, e ≠ NTake i) → stage v → streamed v → is_owned v → is_flow v → is_flow v'.
Proof.
  intros Hst He Hs Hp Ho Hi. pose proof Hi as (p & ch & Ep & Hc & Hf). assert (¬ nothing v) as Hn by (intros [E _]; by destruct Hp).
  pose proof Ho as (ch0 & Hc0 & Ho'). inversion Hst; subst; clear Hst; simplify_eq; try done.
  - by eapply flow_handler.
  - by eapply flow_pump.
  - exists p, (set_items l ch). split_and!; [done|done|]. destruct Hf as [F1 F2 F3 F4 F5 F6 F7 F8 F9]. split; cbn; try done; try congruence.
    intros o Hi'. apply F7. match goal with E : items ch = _ |- _ => rewrite E end. apply elem_of_cons. by right.
  - exists p, ch. split_and!; [done|done|]. eapply (flow_read v _ p ch ch r {| read_of := id; read_pc := RdStart |} {| read_of := id; read_pc := RdStart |}); [by right|done..| |done|done].
    intros Hx. split; [done|]. intros y o Ey. congruence.
  - by eapply flow_reading.
  - unfold v_take_responder. exists p, ch. split_and!; [by case_match|by case_match|]. eapply flow_same; [..|exact Hf]; try done; by case_match.
  - destruct (rx_remove _ _ Hc) as (ch' & Hc' & Ei & Et & Hx). exists p, ch'. split_and!; [done|exact Hc'|].
    by eapply flow_same; [..|exact Hf].
  - by destruct (o_kind _ _ Ho' l).
  - exfalso. by eapply He.
  - pose proof (o_take _ _ Ho'). congruence.
  - exists p, ch. split_and!; [done|done|]. by eapply flow_same; [..|exact Hf].
Qed.
