(* ===== verification/HttpBodySpec.v ===== *)
(** * HttpBodySpec: what JS reads of a streamed body

    The bytes of the body in order, and its end only when they have all been
    given, unless the body failed or JS cancelled it. *)

From S2P Require Import Prelude RustStd HttpHead HttpBody HttpView HttpRequest HttpAnswers HttpBodyOwner HttpBodyFlow.

Open Scope Z_scope.

(** ** When the end is given *)

Definition is_end (o : OpOutcome) : bool :=
  match o with
  | ODone | OTrailers _ => true
  | _ => false
  end.

(** The body is over for JS: cancelled, failed, or given whole. *)

Definition ended (cancelled : Prop) (v : View) : Prop :=
  cancelled ∨ (∃ o, o ∈ v_outcomes (v_trace v) ∧ failure o) ∨
  (v_pump v = Some (POver true) ∧ FEnd ∈ v_frames (v_trace v) ∧ got v = sent v).

Record ending (cancelled : Prop) (v : View) : Prop := {
  e_reads r x :
    v_reads v !! r = Some x → match read_pc x with RdTaking | RdEnding _ => ended cancelled v | _ => True end;
  e_body :
    v_body (v_reg v) = None →
    ended cancelled v ∨
    (v_known (v_trace v) = false ∧
     match v_handler v with
     | Some h => match handler_pc h with HQueueing _ => False | _ => True end
     | None => False
     end);
  e_known : v_known (v_trace v) = false → v_reads v = ∅;
  e_outcomes o : o ∈ v_outcomes (v_trace v) → is_end o = true → ended cancelled v;
  e_trailers t : v_trailers (v_reg v) = Some t → FTrailers t ∈ v_frames (v_trace v);
  e_given t : OTrailers t ∈ v_outcomes (v_trace v) → FTrailers t ∈ v_frames (v_trace v)
}.

(** What has happened stays, and a pump that is over reads no more. *)

Definition history (v v' : View) : Prop :=
  v_outcomes (v_trace v) `prefix_of` v_outcomes (v_trace v') ∧ v_frames (v_trace v) `prefix_of` v_frames (v_trace v') ∧
  ∀ b, v_pump v = Some (POver b) → v_pump v' = v_pump v ∧ v_frames (v_trace v') = v_frames (v_trace v).

Lemma history_quiet v v' :
  v_outcomes (v_trace v) `prefix_of` v_outcomes (v_trace v') → v_frames (v_trace v') = v_frames (v_trace v) →
  v_pump v' = v_pump v → history v v'.
Proof. intros H1 H2 H3. unfold history. by rewrite H2, H3. Qed.

Lemma history_step e v v' : vstep v e v' → stage v → streamed v → history v v'.
Proof.
  intros Hst Hs Hp. assert (¬ nothing v) as Hn by (intros [E _]; by destruct Hp).
  inversion Hst; subst; clear Hst; try (by apply history_quiet); try done.
  - unfold stage in Hs. match goal with E : v_handler v = _ |- _ => rewrite E in Hs end.
    destruct (handler_pc h); match goal with H : handler_at _ _ _ _ |- _ => inversion H; subst; clear H end; try done; by apply history_quiet.
  - match goal with H : pump_at _ _ _ |- _ => inversion H; subst; clear H end; try (by apply history_quiet);
      unfold history, v_refuse, v_take_responder; (split_and!; [by repeat case_match| |intros b E; congruence]);
      cbn; try (by eexists); by repeat case_match.
  - match goal with H : read_at _ _ _ _ _ |- _ => inversion H; subst; clear H end; try (by apply history_quiet);
      apply history_quiet; try done; cbn; by eexists.
  - apply history_quiet; unfold v_take_responder; by case_match.
  - apply history_quiet; try done. cbn. by eexists.
Qed.

Lemma ended_step (x x' : Prop) e v v' :
  vstep v e v' → stage v → streamed v → is_flow v → is_flow v' → (x → x') → ended x v → ended x' v'.
Proof.
  intros Hst Hs Hp Hf (p' & ch' & Hp' & _ & Hf') Hx Hen. destruct (history_step _ _ _ Hst Hs Hp) as (Ho & Hfr & Hov).
  destruct Hen as [?|[(o & Hin & Hfo)|(Epu & Hend & Eg)]]; [left; auto|right; left|right; right].
  - exists o. split; [|done]. by eapply elem_of_prefix.
  - destruct (Hov true Epu) as [Ep Ef]. split; [congruence|]. split; [by rewrite Ef|].
    assert (sent v' = sent v) as Es by (unfold sent; by rewrite Ef).
    assert (got v `prefix_of` got v') as [k Ek] by (destruct Ho as [k Ek]; unfold got; rewrite Ek, outcomes_data_app; by eexists).
    destruct (f_prefix _ _ _ Hf') as [k' Ek']. rewrite Es, <-Eg, Ek, <-app_assoc in Ek'. rewrite Es, <-Eg, Ek.
    apply (f_equal length) in Ek'. rewrite !length_app in Ek'. destruct k; [by rewrite app_nil_r|cbn in Ek'; lia].
Qed.

Definition unseen (v : View) : Prop :=
  v_known (v_trace v) = false ∧
  match v_handler v with
  | Some h => match handler_pc h with HQueueing _ => False | _ => True end
  | None => False
  end.

Lemma ending_next (x x' : Prop) v v' :
  ending x v → (ended x v → ended x' v') → v_frames (v_trace v) `prefix_of` v_frames (v_trace v') →
  (∀ r y, v_reads v' !! r = Some y →
     v_reads v !! r = Some y ∨ match read_pc y with RdTaking | RdEnding _ => ended x' v' | _ => True end) →
  (v_body (v_reg v') = None → (v_body (v_reg v) = None ∧ (unseen v → unseen v')) ∨ ended x' v' ∨ unseen v') →
  (v_known (v_trace v') = false → v_known (v_trace v) = false ∧ v_reads v' = v_reads v) →
  (∀ o, o ∈ v_outcomes (v_trace v') →
     o ∈ v_outcomes (v_trace v) ∨
     ((is_end o = true → ended x' v') ∧ (∀ t, o = OTrailers t → FTrailers t ∈ v_frames (v_trace v')))) →
  (∀ t, v_trailers (v_reg v') = Some t → v_trailers (v_reg v) = Some t ∨ FTrailers t ∈ v_frames (v_trace v')) → ending x' v'.
Proof.
  intros [H1 H2 H3 H4 H5 H6] Hmon Hfr Hre Hbo Hkn Hou Htr.
  assert (∀ f, f ∈ v_frames (v_trace v) → f ∈ v_frames (v_trace v')) as Hin by (intros f Hf; by eapply elem_of_prefix).
  split.
  - intros r y Hr. destruct (Hre r y Hr) as [E|E]; [|done]. specialize (H1 r y E). destruct (read_pc y); auto.
  - intros Hb. destruct (Hbo Hb) as [[Hb' Hu]|[?|?]]; [|by left|by right]. destruct (H2 Hb') as [?|?]; [left; auto|right; by apply Hu].
  - intros Hk. destruct (Hkn Hk) as [Hk' ->]. auto.
  - intros o Ho Hend. destruct (Hou o Ho) as [Ho'|[He _]]; [|auto]. apply Hmon. by eapply H4.
  - intros t Ht. destruct (Htr t Ht); auto.
  - intros t Ht. destruct (Hou _ Ht) as [?|[_ ?]]; auto.
Qed.

(** Nothing JS reads of the body changes. *)

Lemma ending_same (x x' : Prop) v v' :
  ending x v → (ended x v → ended x' v') → v_frames (v_trace v) `prefix_of` v_frames (v_trace v') →
  v_reads v' = v_reads v → v_outcomes (v_trace v') = v_outcomes (v_trace v) → v_known (v_trace v') = v_known (v_trace v) →
  (v_body (v_reg v') = None → (v_body (v_reg v) = None ∧ (unseen v → unseen v')) ∨ ended x' v' ∨ unseen v') →
  (∀ t, v_trailers (v_reg v') = Some t → v_trailers (v_reg v) = Some t ∨ FTrailers t ∈ v_frames (v_trace v')) → ending x' v'.
Proof.
  intros He Hmon Hfr E1 E2 E3 Hb Ht. eapply ending_next; try done; rewrite ?E1, ?E2, ?E3; auto.
Qed.

Lemma ending_register (x : Prop) h c v :
  nothing v → ending x (hat h (HQueueing c) (vp (PReading 0) (vg (g_register CStream) v))).
Proof.
  intros (_ & Hr & _ & _ & Hg & _ & _ & Ho & _). split; cbn; rewrite ?Hr, ?Ho; try done.
  - intros o Hin. by apply not_elem_of_nil in Hin.
  - by rewrite Hg.
  - intros t Hin. by apply not_elem_of_nil in Hin.
Qed.

(** A read that finds the queue empty and closed has been given the body. *)

Lemma whole (x : Prop) v r y ch :
  is_owned v → is_flow v → v_reads v !! r = Some y → read_pc y = RdReceiving → v_chan (v_reg v) = Some ch →
  items ch = [] → tx_open ch = false → ended x v.
Proof.
  intros (ch0 & Hc0 & Ho) (p & ch1 & Hp & Hc1 & Hf) Hr Ep Hc Ei Et. simplify_eq.
  destruct (o_hold _ _ Ho r y Hr) as (Hrx & _ & Hu); [by rewrite Ep|]. destruct (f_tx _ _ _ Hf Et) as [[] ->].
  - right; right. split_and!; [done|by apply (f_clean _ _ _ Hf)|]. destruct (f_flow _ _ _ Hf Hrx) as (lost & Hs & Hl).
    rewrite Hs, Ei, (Hl eq_refl). by rewrite !app_nil_r.
  - destruct (f_over _ _ _ Hf Hrx eq_refl) as [(o & Hin)|(r1 & z & o & Ez & Eo)].
    + rewrite Ei in Hin. by apply not_elem_of_nil in Hin.
    + assert (r1 = r) as -> by (eapply Hu; [exact Ez|by rewrite Eo]). congruence.
Qed.

Lemma ending_handler (x : Prop) h v v' :
  ending x v → (ended x v → ended x v') → is_owned v → ¬ nothing v → stage v → v_handler v = Some h →
  handler_at h v (handler_pc h) v' → ending x v'.
Proof.
  intros He Hmon (ch & _ & Ho) Hn Hs Hh Hat. unfold stage in Hs. rewrite Hh in Hs.
  destruct (handler_pc h) eqn:Ep; inversion Hat; subst; clear Hat; try done;
    try (eapply ending_same; [exact He|done|reflexivity|done|done|done| |by intros; left]; intros Hb; left; split; [exact Hb|intros [? _]; by split]).
  - eapply ending_next; [exact He|done|reflexivity|by intros; left| |done|by intros; left|by intros; left].
    intros Hb. destruct (e_body _ _ He Hb) as [?|[_ Hq]]; [auto|]. by rewrite Hh, Ep in Hq.
  - destruct Hs as [Hk _]. eapply ending_same; [exact He|done|reflexivity|done|done|done| |].
    + intros Hb. cbn in Hb. pose proof (o_kind _ _ Ho) as Hk'. destruct dispatched; [left|right; right; by split].
      split; [|intros [E _]; congruence]. unfold g_reap in Hb. destruct (v_body (v_reg v)) as [[l| |]|] eqn:E; [by destruct (Hk' l)|cbn in Hb; congruence..|done].
    + intros t. cbn. unfold g_reap, g_cancel, g_remove. repeat case_match; cbn; auto; done.
Qed.

(** A read that gives nothing and touches no body. *)

Lemma ending_reading (x : Prop) r y v v' :
  ending x v → (ended x v → ended x v') → is_owned v → is_flow v → v_reads v !! r = Some y → read_at r y v (read_pc y) v' →
  ending x v'.
Proof.
  intros He Hmon Ho Hf Hr Hat. pose proof (e_reads _ _ He r y Hr) as Hy. pose proof Ho as (ch & Hc & Hw).
  assert (v_known (v_trace v) = true) as Hk.
  { destruct (v_known (v_trace v)) eqn:E; [done|]. rewrite (e_known _ _ He E), lookup_empty in Hr. done. }
  assert (∀ pc v1, v' = rat r y pc v1 → v_reads v1 = v_reads v → match pc with RdTaking | RdEnding _ => ended x v' | _ => True end →
    ∀ r1 z, v_reads v' !! r1 = Some z → v_reads v !! r1 = Some z ∨ match read_pc z with RdTaking | RdEnding _ => ended x v' | _ => True end) as Hre.
  { intros pc v1 -> E Hpc r1 z. cbn. rewrite E, lookup_insert_Some. intros [[_ <-]|[_ ?]]; [by right|by left]. }
  assert (∀ o v1, v_outcomes (v_trace v1) = v_outcomes (v_trace v) ++ [o] → (is_end o = true → ended x v') →
    (∀ t, o = OTrailers t → FTrailers t ∈ v_frames (v_trace v')) →
    ∀ o', o' ∈ v_outcomes (v_trace v1) → o' ∈ v_outcomes (v_trace v) ∨
      ((is_end o' = true → ended x v') ∧ (∀ t, o' = OTrailers t → FTrailers t ∈ v_frames (v_trace v')))) as Hou.
  { intros o v1 E H1 H2 o'. rewrite E, elem_of_app, list_elem_of_singleton. intros [?| ->]; [by left|by right]. }
  destruct (read_pc y) eqn:Ep; inversion Hat; subst; clear Hat; try done;
    try (eapply ending_next; [exact He|done|reflexivity|by eapply Hre| |cbn; intros; congruence|by intros; left|by intros; left];
         intros Hb; left; split; [exact Hb|intros [? _]; congruence]).
  - eapply ending_next; [exact He|done|reflexivity|by eapply Hre|by intros|cbn; intros; congruence|by intros; left|by intros; left].
  - eapply ending_next; [exact He|done|reflexivity|by eapply Hre|  |cbn; intros; congruence|by eapply Hou|by intros; left].
    intros Hb. left. split; [exact Hb|intros [? _]; congruence].
  - assert (v_body (v_reg v) = None) as Hb.
    { destruct (v_body (v_reg v)) as [b|] eqn:E; [|done].
      match goal with H : ∀ b, _ → ∃ l, b = BFull l |- _ => destruct (H b eq_refl) as [l ->] end. by destruct (o_kind _ _ Hw l). }
    assert (ended x v) as Hen by (destruct (e_body _ _ He Hb) as [?|[? _]]; [done|congruence]).
    eapply ending_next; [exact He|done|reflexivity|by eapply Hre; auto| |cbn; intros; congruence|by intros; left|by intros; left].
    intros _. right. left. auto.
  - by destruct (o_kind _ _ Hw l).
  - eapply ending_next; [exact He|done|reflexivity|eapply Hre; [done|done|auto]| |cbn; intros; congruence|by intros; left|by intros; left].
    intros _. right. left. auto.
  - pose proof (o_wait _ _ Hw r y Hr) as E. rewrite Ep in E. congruence.
  - pose proof (o_wait _ _ Hw r y Hr) as E. by rewrite Ep in E.
  - eapply ending_next; [exact He|done|reflexivity|by eapply Hre|  |cbn; intros; congruence|by eapply Hou|by intros; left].
    intros Hb. left. split; [exact Hb|intros [? _]; congruence].
  - assert (ended x v) as Hen by (by eapply (whole x v r y)).
    eapply ending_next; [exact He|done|reflexivity|by eapply Hre; auto| |cbn; intros; congruence|by intros; left|by intros; left].
    intros Hb. right. left. auto.
  - eapply ending_next; [exact He|done|reflexivity|by eapply Hre| |cbn; intros; congruence|by intros; left|].
    + intros Hb. left. split; [|intros [? _]; congruence]. cbn in Hb. destruct (put_cases (v_reg v)) as [[E Hg]|Hg]; rewrite Hg in Hb; done.
    + intros t. cbn. destruct (put_cases (v_reg v)) as [[E Hg]|Hg]; rewrite Hg; auto.
  - pose proof Hf as (p & ch1 & _ & _ & Hfl). pose proof (f_reads _ _ _ Hfl r y o Hr Ep) as Hfo.
    assert (ended x (rat r y RdOver (vt (t_outcome o) (vg (λ g, g_drop_rx (g_cancel g)) v)))) as Hen.
    { right; left. exists o. split; [|done]. cbn. rewrite elem_of_app, list_elem_of_singleton. by right. }
    eapply ending_next; [exact He|done|reflexivity|by eapply Hre|by intros; right; left|cbn; intros; congruence| |done].
    eapply (Hou o); try done. intros t ->. done.
  - eapply ending_next; [exact He|done|reflexivity|by eapply Hre|intros; right; left; by apply Hmon|cbn; intros; congruence| |].
    + eapply (Hou (body_end _)); [done|intros; by apply Hmon|]. intros t Ht. apply (e_trailers _ _ He). unfold body_end in Ht.
      destruct (v_trailers (v_reg v)); congruence.
    + intros t. cbn. by destruct holds_rx.
Qed.

Lemma refuse_same e v :
  let v' := v_refuse e v in
  v_frames (v_trace v') = v_frames (v_trace v) ∧ v_reads v' = v_reads v ∧ v_outcomes (v_trace v') = v_outcomes (v_trace v) ∧
  v_known (v_trace v') = v_known (v_trace v) ∧ v_handler v' = v_handler v ∧ v_body (v_reg v') = v_body (v_reg v) ∧
  v_trailers (v_reg v') = v_trailers (v_reg v).
Proof. cbn zeta. unfold v_refuse, v_take_responder. by repeat case_match. Qed.

Lemma ending_pump (x : Prop) p v v' :
  ending x v → (ended x v → ended x v') → v_pump v = Some p → pump_at v p v' → ending x v'.
Proof.
  intros He Hmon Hp Hat. inversion Hat; subst; clear Hat;
    try (eapply ending_same; [exact He|done| |done|done|done|by intros; left|by intros; left]; first [reflexivity|exact (prefix_app_r _ _ _ (reflexivity _))]).
  - eapply ending_same; [exact He|done|exact (prefix_app_r _ _ _ (reflexivity _))|done..| |].
    + intros Hb. left. split; [|done]. cbn in Hb. unfold g_store in Hb. destruct (v_body (v_reg v)) eqn:E; [cbn in Hb; congruence|done].
    + intros t0. cbn. unfold g_store. case_match; cbn; [|by auto]. intros [= ->]. right.
      apply elem_of_app. right. by apply list_elem_of_singleton.
  - destruct (refuse_same e v) as (E1 & E2 & E3 & E4 & E5 & E6 & E7).
    eapply ending_same; [exact He|done|cbn; by rewrite E1|done..| |]; cbn; rewrite ?E6, ?E7; [|by auto].
    intros Hb. left. split; [done|]. unfold unseen. cbn. by rewrite E4, E5.
Qed.

Lemma ending_more (x x' : Prop) v : (x → x') → ending x v → ending x' v.
Proof.
  intros Hx [H1 H2 H3 H4 H5 H6]. assert (ended x v → ended x' v) as Hm by (intros [?|[?|?]]; [left; auto|right; by left|right; by right]).
  split; auto.
  - intros r y Hr. specialize (H1 r y Hr). destruct (read_pc y); auto.
  - intros Hb. destruct (H2 Hb); auto.
  - intros o Hin Hend. eapply Hm, H4; done.
Qed.

Lemma ending_step (x x' : Prop) e v v' :
  vstep v e v' → (∀ i, e ≠ NTake i) → (∀ i, e = NCancel i → x') → (x → x') → stage v → streamed v → is_owned v → is_flow v →
  is_flow v' → ending x v → ending x' v'.
Proof.
  intros Hst Ht Hc Hx Hs Hp Ho Hf Hf' He.
  assert (ending x' v) as He' by (by eapply ending_more).
  assert (ended x' v → ended x' v') as Hmon' by (by eapply ended_step).
  pose proof Ho as (ch & Hch & Hw). assert (¬ nothing v) as Hn by (intros [E _]; by destruct Hp). clear He.
  inversion Hst; subst; clear Hst; try done.
  - by eapply ending_handler.
  - by eapply ending_pump.
  - by eapply ending_same; [exact He'|..]; auto.
  - eapply ending_next; [exact He'|done|reflexivity| |by auto|cbn; intros; congruence|by auto|by auto].
    intros r1 y. cbn. rewrite lookup_insert_Some. intros [[_ <-]|[_ ?]]; [by right|by left].
  - by eapply ending_reading.
  - unfold v_take_responder in *. eapply ending_same; [exact He'|done|..]; by case_match; auto.
  - eapply ending_same; [exact He'|done|reflexivity|done..| |by intros]. intros _. right. left. left. by eapply Hc.
  - by destruct (o_kind _ _ Hw l).
  - exfalso. by eapply Ht.
  - pose proof (o_take _ _ Hw). congruence.
  - by eapply ending_same; [exact He'|..]; auto.
Qed.

(** ** Every streamed body *)

(** A streamed request has read nothing of its body when it is registered. *)

Definition unread (v : View) : Prop :=
  ∀ h c prev, v_handler v = Some h → handler_pc h = HChecking c prev CStream → v_frames (v_trace v) = [].

Lemma handler_unread h v v' : handler_at h v (handler_pc h) v' → unread v'.
Proof.
  intros Hat h1 c1 prev1 Hh Hp. inversion Hat; subst; clear Hat; cbn in Hh; simplify_eq; cbn in Hp; simplify_eq.
  match goal with E : collect_next _ _ _ _ _ = inl _ |- _ => unfold collect_next, collected in E; repeat case_match; simplify_eq end.
Qed.

Lemma unread_step e v v' : vstep v e v' → stage v → unread v → unread v'.
Proof.
  intros Hst Hs Hu. inversion Hst; subst; clear Hst; try done.
  - by eapply handler_unread.
  - intros h c prev Hh Hp. assert (v_handler v' = v_handler v) as Eh.
    { match goal with H : pump_at _ _ _ |- _ => inversion H; subst; clear H end; try done. apply refuse_same. }
    rewrite Eh in Hh. unfold stage in Hs. rewrite Hh, Hp in Hs. destruct Hs as [E _]. congruence.
  - match goal with H : read_at _ _ _ _ _ |- _ => inversion H; subst; clear H end; done.
  - unfold v_take_responder. by case_match.
Qed.

(** A request starts to be streamed when it is registered. *)

Lemma stream_start e v v' :
  vstep v e v' → ¬ streamed v → streamed v' →
  ∃ h c prev, v_handler v = Some h ∧ handler_pc h = HChecking c prev CStream ∧
    v' = hat h (HQueueing c) (vp (PReading 0) (vg (g_register CStream) v)).
Proof.
  intros Hst Hn Hp. assert (v_pump v' ≠ v_pump v) as Hne by (intros E; apply Hn; unfold streamed in *; by rewrite <-E).
  inversion Hst; subst; clear Hst; try done.
  - destruct (handler_pc h) eqn:Ep; match goal with H : handler_at _ _ _ _ |- _ => inversion H; subst; clear H end; try done.
    destruct body as [l [t|]|]; [done..|]. by exists h, c, prev.
  - destruct Hn. unfold streamed. congruence.
  - match goal with H : read_at _ _ _ _ _ |- _ => inversion H; subst; clear H end; done.
  - destruct Hne. unfold v_take_responder. by case_match.
Qed.

Lemma take_or_not e : (∃ i, e = NTake i) ∨ (∀ i, e ≠ NTake i).
Proof. destruct e; try (right; done). left. by eexists. Qed.

(** What is kept of a request, given the calls JS has made. *)

Definition faithful (id : Z) (es : list HttpEvent) (v : View) : Prop :=
  inv v ∧ unread v ∧ (NTake id ∈ es ∨ (streamed v → is_owned v ∧ is_flow v ∧ ending (NCancel id ∈ es) v)).

Lemma faithful_step id es e v v' :
  (∀ i, e = NCancel i ∨ e = NTake i → i = id) → vstep v e v' → faithful id es v → faithful id (es ++ [e]) v'.
Proof.
  intros He Hst (Hi & Hu & Hf). pose proof Hi as [Hs _]. split; [by eapply answered_step|]. split; [by eapply unread_step|].
  destruct Hf as [Hf|Hf]; [left; apply elem_of_app; by left|].
  destruct (take_or_not e) as [[i ->]|Ht]; [left; rewrite (He i) by auto; apply elem_of_app; right; by apply list_elem_of_singleton|].
  right. intros Hp'. destruct (v_pump v) as [p|] eqn:Hp.
  - assert (streamed v) as Hsv by (unfold streamed; congruence). destruct (Hf Hsv) as (Ho & Hfl & Hen).
    assert (is_flow v') as Hfl' by (by eapply flow_step). split_and!; [by eapply owned_step|done|].
    apply (ending_step (NCancel id ∈ es) _ e v v'); try done.
    + intros i ->. rewrite (He i) by auto. apply elem_of_app. right. by apply list_elem_of_singleton.
    + intros Hin. apply elem_of_app. by left.
  - destruct (stream_start e v v') as (h & c & prev & Hh & Ep & ->); try done; [unfold streamed; congruence|].
    unfold stage in Hs. rewrite Hh, Ep in Hs. specialize (Hu h c prev Hh Ep). split_and!.
    + destruct (owned_register v Hs) as (ch & E & Ho). exists ch. split; [exact E|by eapply owned_same; [..|exact Ho]].
    + destruct (flow_register v Hs Hu) as (p & ch & E1 & E2 & Hfl). exists p, ch. split_and!; [done..|by eapply flow_same; [..|exact Hfl]].
    + by apply ending_register.
Qed.

Section Bodies.
Context (httparse_parse : nat → list byte → HttparseResult) (budget : Z).
Abbreviation http_run := (http_run httparse_parse budget).

(** C33 What JS reads of a streamed body is the body.  Unless JS takes it
    away from its reads, the bytes they give are the first of those hyper gave,
    in order and with none missing; they give an end only when hyper's end
    was read and every byte given, or when the body failed and a read said so,
    or JS cancelled it; and the trailers they give are the body's. *)
Theorem streamed_body_faithful es s id :
  http_run Http_new es = Some s → pumps_of (tasks_of s) !! id ≠ None → NTake id ∉ es →
  let given := of_id id (outcomes (trace s)) in
  let read := default [] (frames (trace s) !! id) in
  outcomes_data given `prefix_of` frames_data read ∧
  (∀ o, o ∈ given → is_end o = true →
     NCancel id ∈ es ∨ (∃ o', o' ∈ given ∧ failure o') ∨ (FEnd ∈ read ∧ outcomes_data given = frames_data read)) ∧
  (∀ t, OTrailers t ∈ given → FTrailers t ∈ read).
Proof.
  intros Hr Hp Ht. assert (faithful id es (view id s)) as (_ & _ & [Hf|Hf]); [|by destruct Ht|].
  { apply (run_views httparse_parse budget faithful); [|..|done].
    - intros id'. split; [apply inv_none|]. split; [by intros h c prev|]. right. by intros [].
    - intros id' es' e v (Hi & Hu & Hf). split; [done|]. split; [done|]. destruct Hf as [?|Hf]; [left; apply elem_of_app; by left|].
      right. intros Hs. destruct (Hf Hs) as (? & ? & He). split_and!; [done..|]. eapply ending_more; [|exact He].
      intros Hin. apply elem_of_app. by left.
    - intros id' es' e v v' He Hst. by apply faithful_step. }
  destruct (Hf Hp) as (_ & (p & ch & _ & _ & Hfl) & He). split; [exact (f_prefix _ _ _ Hfl)|]. split.
  - intros o Hin Hend. destruct (e_outcomes _ _ He o Hin Hend) as [?|[?|(_ & ? & ?)]]; [by left|right; by left|right; right; done].
  - exact (e_given _ _ He).
Qed.
End Bodies.
