(* ===== verification/HttpBodyRun.v ===== *)
(** * HttpBodyRun: requests of a server

    Concrete runs, on which the theorems of [HttpAnswers], [HttpBudget] and
    [HttpBodySpec] are applied. *)

From S2P Require Import Prelude RustStd HttpHead HttpBody HttpView HttpRequest HttpAnswers HttpLedger HttpBudget HttpBodyOwner.
From S2P Require Import HttpBodyFlow HttpBodySpec.

Open Scope Z_scope.

(** A server whose requests' heads hyper has already read: nothing is parsed
    again. *)

Definition no_parse : nat → list byte → HttparseResult := λ _ _, Partial.

Definition upload (length_header : string) : Incoming :=
  {| raw_head := None; is_connect := false; no_body := false; req_headers := [(bs "content-length", bs length_header)] |}.

Definition arrives (streamed : bool) (length_header : string) : HttpEvent :=
  NArrive {| max_header_size := 16384; lenient := false; max_headers_count := 0 |} UServe streamed true (upload length_header).

Definition after (budget : Z) (es : list HttpEvent) : Http := default Http_new (http_run no_parse budget Http_new es).

Definition ok_answer : ResponseSpec := {| spec_status := 200; spec_body := RFull (bs "ok") |}.

(** A streamed request of two chunks and trailers, read to its end and then
    answered. *)

Definition a_read (r : Z) : list HttpEvent := [NRead 1; NReading r; NReading r; NReading r; NReading r].

Definition upload_read : list HttpEvent :=
  [arrives true "5"; NHandler 1; NQueued 1 true; NFrame 1 (FData (bs "hel")); NPump 1; NPump 1] ++ a_read 2 ++
  [NFrame 1 (FData (bs "lo")); NPump 1; NPump 1] ++ a_read 3 ++
  [NFrame 1 (FTrailers [(bs "x", bs "y")]); NFrame 1 FEnd; NRead 1; NReading 4; NReading 4; NReading 4;
   NRespond 1 ok_answer; NHandler 1; NHandler 1; NHandler 1; NHandler 1].

Lemma one_answer_witness :
  let s := after 100 upload_read in
  known 1 s = true ∧ ∃ k, of_id 1 (taken_by (trace s)) = [k] ∧ fits true (ASpec ok_answer) k.
Proof.
  split; [vm_compute; reflexivity|].
  assert (http_run no_parse 100 Http_new upload_read = Some (after 100 upload_read)) as Hr by (vm_compute; reflexivity).
  pose proof (one_answer no_parse 100 upload_read (after 100 upload_read) 1 Hr) as (_ & _ & H).
  replace (handlers (tasks_of (after 100 upload_read)) !! 1)
    with (Some {| notify_closed := true; handler_pc := HOver (ASpec ok_answer) |}) in H by (vm_compute; reflexivity).
  destruct H as (_ & _ & H). apply H. vm_compute. reflexivity.
Defined.

Lemma streamed_body_faithful_witness :
  let given := of_id 1 (outcomes (trace (after 100 upload_read))) in
  given = [OBytes (bs "hel"); OBytes (bs "lo"); OTrailers [(bs "x", bs "y")]] ∧
  FTrailers [(bs "x", bs "y")] ∈ default [] (frames (trace (after 100 upload_read)) !! 1).
Proof.
  split; [vm_compute; reflexivity|].
  apply (streamed_body_faithful no_parse 100 upload_read (after 100 upload_read) 1).
  - vm_compute. reflexivity.
  - vm_compute. discriminate.
  - unfold upload_read. cbn. repeat (apply not_elem_of_cons; split; [discriminate|]). apply not_elem_of_nil.
  - vm_compute. right. right. left.
Defined.

(** Two requests over a budget of four bytes: one has three queued, and the
    other's two are refused. *)

Definition over_the_budget : list HttpEvent :=
  [arrives true "3"; NHandler 1; NQueued 1 true; NFrame 1 (FData (bs "hel")); NPump 1; NPump 1;
   arrives false "2"; NFrame 2 (FData (bs "lo")); NFrame 2 FEnd; NHandler 2].

Lemma bodies_within_budget_witness :
  let s := after 4 over_the_budget in
  body_bytes s = 5 ∧ stored s = 3 ∧ stored s ≤ 4 ∧ body_bytes s = total bytes_of s.
Proof.
  assert (http_run no_parse 4 Http_new over_the_budget = Some (after 4 over_the_budget)) as Hr by (vm_compute; reflexivity).
  destruct (bodies_within_budget no_parse 4 over_the_budget (after 4 over_the_budget) Hr ltac:(lia)) as (H1 & _ & H2).
  split; [vm_compute; reflexivity|]. split; [vm_compute; reflexivity|]. split; [exact H2|exact H1].
Defined.
