(* ===== verification/Tsconfig.v ===== *)
(** * Tsconfig: the text and the patterns of [oam_loader/src/tsconfig.rs]

    The pure half of the file: JSONC down to JSON, the [paths] matcher, and
    the merging of an [extends] chain's options.  The half that reads files is
    in [Loader].  Text is UTF-8: every character the code tests is ASCII, and a
    byte of a longer character is none of them. *)

From S2P Require Import Prelude RustStd StdPath.

Definition QUOTE : byte := x22.
Definition BACKSLASH : byte := x5c.
Definition NUL : byte := x00.

(** ** [strip_jsonc], first pass: comments

    [out] is kept reversed, so that its last character is its head. *)

Inductive State : Type :=
| SNormal
| SInString (escaped : bool)
| SLineComment
| SBlockComment (star : bool).

Definition comment_char (st : State) (out : list byte) (c : byte) : State * list byte :=
  match st with
  | SNormal =>
      if decide (c = QUOTE) then (SInString false, c :: out)
      else if decide (c = "/"%byte) then (SLineComment, NUL :: out)
      else (SNormal, c :: out)
  | SInString escaped =>
      ((if (escaped : bool) then SInString false
        else if decide (c = BACKSLASH) then SInString true
        else if decide (c = QUOTE) then SNormal
        else SInString false),
       c :: out)
  | SLineComment =>
      match out with
      | x00 :: out' =>
          if decide (c = "/"%byte) then (SLineComment, out')
          else if decide (c = "*"%byte) then (SBlockComment false, out')
          else (SNormal, c :: "/"%byte :: out')
      | _ => if decide (c = x0a) then (SNormal, x0a :: out) else (SLineComment, out)
      end
  | SBlockComment star =>
      if (star : bool) && bool_decide (c = "/"%byte) then (SNormal, x20 :: out)
      else (SBlockComment (bool_decide (c = "*"%byte)), out)
  end.

Definition strip_comments (input : list byte) : list byte :=
  reverse (snd (fold_left (λ so c, comment_char so.1 so.2 c) input (SNormal, []))).

(** ** Second pass: trailing commas *)

Definition trailing (rest : list byte) : bool :=
  match trim_start rest with
  | c :: _ => bool_decide (c = "}"%byte) || bool_decide (c = "]"%byte)
  | [] => false
  end.

Fixpoint strip_commas (in_string escaped : bool) (l : list byte) : list byte :=
  match l with
  | [] => []
  | c :: rest =>
      if in_string then
        c :: (if escaped then strip_commas true false rest
              else if decide (c = BACKSLASH) then strip_commas true true rest
              else if decide (c = QUOTE) then strip_commas false false rest
              else strip_commas true false rest)
      else if decide (c = QUOTE) then c :: strip_commas true false rest
      else if decide (c = ","%byte) then
        if trailing rest then strip_commas false false rest
        else c :: strip_commas false false rest
      else c :: strip_commas false false rest
  end.

Definition strip_jsonc (input : list byte) : list byte :=
  strip_commas false false (strip_comments input).

(** ** Patterns

    One [*] in a key stands for any text; the longest prefix wins, and the
    first of equals.  [match_specifier] and the exports maps of npm.rs share
    the rule. *)

Definition replace_star (s matched : list byte) : list byte :=
  s ≫= λ c, if decide (c = "*"%byte) then matched else [c].

(** The text a key's [*] stands for. *)

Definition star_match (key specifier : list byte) : option (nat * list byte) :=
  '(prefix, suffix) ← split_once "*"%byte key;
  if decide (length prefix + length suffix ≤ length specifier)
  then
    if starts_with specifier prefix && ends_with specifier suffix then
      Some (length prefix,
            take (length specifier - length suffix - length prefix) (drop (length prefix) specifier))
    else None
  else None.

Definition better {A} (best : option (nat * A * list byte)) (len : nat) : bool :=
  match best with
  | Some (blen, _, _) => bool_decide (blen < len)
  | None => true
  end.

Definition best_step {A} (specifier : list byte) (best : option (nat * A * list byte))
  (entry : list byte * A) : option (nat * A * list byte) :=
  match star_match entry.1 specifier with
  | Some (len, matched) => if better best len then Some (len, entry.2, matched) else best
  | None => best
  end.

Definition best_pattern {A} (specifier : list byte) (entries : list (list byte * A))
  : option (nat * A * list byte) := fold_left (best_step specifier) entries None.

Record PathsConfig : Type := {
  base_dir : path;
  patterns : list (list byte * list (list byte))
}.

Definition match_specifier (config : PathsConfig) (specifier : list byte) : list path :=
  match list_find (λ e, ("*"%byte ∉ e.1) ∧ e.1 = specifier) (patterns config) with
  | Some (_, (_, subs)) => path_join (base_dir config) <$> subs
  | None =>
      match best_pattern specifier (patterns config) with
      | None => []
      | Some (_, subs, matched) =>
          (λ s, path_join (base_dir config) (replace_star s matched)) <$> subs
      end
  end.

(** ** Options *)

Record TsconfigInfo : Type := {
  paths : option PathsConfig;
  jsx : option (list byte);
  jsx_import_source : option (list byte);
  jsx_factory : option (list byte);
  jsx_fragment_factory : option (list byte)
}.

Definition TsconfigInfo_default : TsconfigInfo :=
  {| paths := None; jsx := None; jsx_import_source := None; jsx_factory := None;
     jsx_fragment_factory := None |}.

Definition is_complete (i : TsconfigInfo) : bool :=
  bool_decide (is_Some (paths i)) && bool_decide (is_Some (jsx i))
  && bool_decide (is_Some (jsx_import_source i)) && bool_decide (is_Some (jsx_factory i))
  && bool_decide (is_Some (jsx_fragment_factory i)).

Definition or_else {A} (a b : option A) : option A :=
  match a with
  | Some _ => a
  | None => b
  end.

Definition merged_over (self : TsconfigInfo) (inherited : option TsconfigInfo) : TsconfigInfo :=
  match inherited with
  | None => self
  | Some i =>
      {| paths := or_else (paths self) (paths i); jsx := or_else (jsx self) (jsx i);
         jsx_import_source := or_else (jsx_import_source self) (jsx_import_source i);
         jsx_factory := or_else (jsx_factory self) (jsx_factory i);
         jsx_fragment_factory := or_else (jsx_fragment_factory self) (jsx_fragment_factory i) |}
  end.

Inductive JsxMode : Type := Automatic | AutomaticDev | Classic.

Definition from_tsconfig (value : option (list byte)) : JsxMode :=
  if decide (value = Some (bs "react")) then Classic
  else if decide (value = Some (bs "react-jsxdev")) then AutomaticDev
  else Automatic.

Record JsxSettings : Type := {
  mode : JsxMode;
  import_source : option (list byte);
  factory : option (list byte);
  fragment_factory : option (list byte)
}.

Definition jsx_settings_of (info : TsconfigInfo) : JsxSettings :=
  {| mode := from_tsconfig (jsx info); import_source := jsx_import_source info;
     factory := jsx_factory info; fragment_factory := jsx_fragment_factory info |}.

Example jsonc_1 :
  strip_jsonc (bs "{ // c" ++ [x0a] ++ bs "[1, /* } */ ], }") = bs "{ " ++ [x0a] ++ bs "[1   ] }".
Proof. vm_compute. reflexivity. Qed.
Example match_1 :
  match_specifier {| base_dir := bs "/proj";
    patterns := [(bs "@app/*", [bs "src/*"]); (bs "@app/deep/*", [bs "src/deep/*"])] |}
    (bs "@app/deep/thing") = [bs "/proj/src/deep/thing"].
Proof. vm_compute. reflexivity. Qed.
