(* ===== verification/TsconfigSpec.v ===== *)
(** * TsconfigSpec: what the patterns and the JSONC filter mean

    The longest-prefix rule the tsconfig's [paths] and the exports maps share,
    as a relation; and comments and trailing commas, as tokens. *)

From S2P Require Import Prelude RustStd StdPath Tsconfig.

(** ** Patterns

    [key] with its first star standing for [matched] is [specifier]. *)

Definition Stands (key specifier prefix matched : list byte) : Prop :=
  ∃ suffix, key = prefix ++ "*"%byte :: suffix ∧ ("*"%byte ∉ prefix) ∧
            specifier = prefix ++ matched ++ suffix.

(** The entry the rule chooses: every pattern declared before it that matches
    has a shorter prefix, and every one after it a prefix no longer. *)

Definition Chosen {A} (entries : list (list byte * A)) (specifier : list byte)
  (prefix : list byte) (value : A) (matched : list byte) : Prop :=
  ∃ before key after,
    entries = before ++ (key, value) :: after ∧ Stands key specifier prefix matched ∧
    Forall (λ e, ∀ p m, Stands e.1 specifier p m → length p < length prefix) before ∧
    Forall (λ e, ∀ p m, Stands e.1 specifier p m → length p ≤ length prefix) after.

Lemma star_match_Some key specifier len matched :
  star_match key specifier = Some (len, matched) ↔
  ∃ prefix, len = length prefix ∧ Stands key specifier prefix matched.
Proof.
  unfold star_match, Stands. destruct (split_once _ key) as [[prefix suffix]|] eqn:Es; cbn.
  - apply split_once_Some in Es as [-> Hp]. split.
    + case_decide as Hl; [|done].
      destruct (starts_with specifier prefix) eqn:E1, (ends_with specifier suffix) eqn:E2; cbn;
        [|done..]. intros [= <- <-]. exists prefix. split; [done|]. exists suffix.
      split; [done|]. split; [done|].
      apply starts_with_prefix in E1 as [r ->]. apply ends_with_suffix in E2 as [r' E2].
      rewrite length_app in *. rewrite drop_app_length.
      assert (length prefix ≤ length r') as Hr.
      { apply (f_equal length) in E2. rewrite !length_app in E2. lia. }
      assert (r' = prefix ++ drop (length prefix) r') as Er'.
      { rewrite <-(take_drop (length prefix) r') at 1. f_equal.
        apply (f_equal (take (length prefix))) in E2.
        rewrite take_app_length, take_app_le in E2 by lia. done. }
      rewrite Er', <-app_assoc in E2. apply (inj (app prefix)) in E2. rewrite E2 at 2.
      f_equal. rewrite E2. rewrite !length_app.
      rewrite take_app_le by lia. rewrite take_ge by (rewrite length_drop; lia). done.
    + intros (p & -> & suf & Hk & Hp' & ->).
      assert (p = prefix ∧ suf = suffix) as [-> ->].
      { clear -Hk Hp Hp'. revert prefix Hp Hk.
        induction p as [|c p IH]; intros [|c' prefix] Hp Hk; cbn in Hk; simplify_eq; try set_solver.
        destruct (IH ltac:(set_solver) prefix) as [-> ->]; [set_solver|done|done]. }
      rewrite decide_True by (rewrite !length_app; lia).
      rewrite (proj2 (starts_with_prefix _ _)) by (eexists; done).
      rewrite (proj2 (ends_with_suffix _ _)) by (exists (prefix ++ matched); by rewrite app_assoc).
      cbn. rewrite drop_app_length. do 2 f_equal. rewrite !length_app.
      rewrite take_app_le by lia. rewrite take_ge by lia. done.
  - apply split_once_None in Es. split; [done|]. intros (p & _ & suf & -> & _). set_solver.
Qed.

Lemma star_match_None key specifier :
  star_match key specifier = None ↔ ∀ p m, ¬ Stands key specifier p m.
Proof.
  split.
  - intros E p m H. assert (star_match key specifier = Some (length p, m)) by
      (apply star_match_Some; eauto). congruence.
  - intros H. destruct (star_match key specifier) as [[len m]|] eqn:E; [|done].
    apply star_match_Some in E as (p & -> & Hs). by apply H in Hs.
Qed.

Lemma Stands_length key specifier p m p' m' :
  Stands key specifier p m → Stands key specifier p' m' → length p = length p'.
Proof.
  intros H H'.
  assert (star_match key specifier = Some (length p, m)) by (apply star_match_Some; eauto).
  assert (star_match key specifier = Some (length p', m')) by (apply star_match_Some; eauto).
  congruence.
Qed.

Section Best.
Context {A : Type} (specifier : list byte).
Implicit Types (entries : list (list byte * A)).

(** What the loop has found after some entries. *)

Definition Best entries (best : option (nat * A * list byte)) : Prop :=
  match best with
  | Some (len, v, m) => ∃ prefix, len = length prefix ∧ Chosen entries specifier prefix v m
  | None => Forall (λ e, ∀ p m, ¬ Stands e.1 specifier p m) entries
  end.

Lemma Chosen_snoc entries p v m e :
  Chosen entries specifier p v m →
  (∀ p' m', Stands e.1 specifier p' m' → length p' ≤ length p) →
  Chosen (entries ++ [e]) specifier p v m.
Proof.
  intros (b & k & a & -> & HS & Hb & Ha) He. exists b, k, (a ++ [e]).
  split; [by rewrite <-app_assoc|]. split; [done|]. split; [done|].
  apply Forall_app. by rewrite Forall_singleton.
Qed.

Lemma Chosen_le entries p v m :
  Chosen entries specifier p v m →
  Forall (λ e, ∀ p' m', Stands e.1 specifier p' m' → length p' ≤ length p) entries.
Proof.
  intros (b & k & a & -> & HS & Hb & Ha). apply Forall_app. split.
  - eapply Forall_impl; [exact Hb|]. intros e He p' m' H. apply He in H. lia.
  - apply Forall_cons. split; [|done]. intros p' m' H. cbn in H.
    by rewrite (Stands_length _ _ _ _ _ _ H HS).
Qed.

Lemma best_step_spec entries best e :
  Best entries best → Best (entries ++ [e]) (best_step specifier best e).
Proof.
  unfold best_step. destruct e as [k v]. cbn [fst snd].
  destruct (star_match k specifier) as [[len m]|] eqn:E.
  - apply star_match_Some in E as (p & -> & HS).
    destruct best as [[[blen bv] bm]|]; cbn [better Best].
    + intros (bp & -> & HC). case_bool_decide as Hlt.
      * exists p. split; [done|]. exists entries, k, []. split; [done|]. split; [done|].
        split; [|done]. eapply Forall_impl; [exact (Chosen_le _ _ _ _ HC)|].
        intros e He p' m' H. apply He in H. lia.
      * exists bp. split; [done|]. apply Chosen_snoc; [done|]. intros p' m' H. cbn in H.
        rewrite (Stands_length _ _ _ _ _ _ H HS). lia.
    + intros HN. exists p. split; [done|]. exists entries, k, []. split; [done|]. split; [done|].
      split; [|done]. eapply Forall_impl; [exact HN|]. intros e He p' m' H. by apply He in H.
  - pose proof (proj1 (star_match_None _ _) E) as HN.
    destruct best as [[[blen bv] bm]|]; cbn [Best].
    + intros (bp & -> & HC). exists bp. split; [done|]. apply Chosen_snoc; [done|].
      intros p' m' H. by apply HN in H.
    + intros H. apply Forall_app. by rewrite Forall_singleton.
Qed.

Lemma best_pattern_spec entries : Best entries (best_pattern specifier entries).
Proof.
  unfold best_pattern. induction entries as [|e entries IH] using rev_ind; [by constructor|].
  rewrite fold_left_app. by apply best_step_spec.
Qed.

(** Of two chosen entries, neither is declared first. *)

Lemma Chosen_before (b b' a a' : list (list byte * A)) k k' v v' p p' m m' :
  b ++ (k, v) :: a = b' ++ (k', v') :: a' →
  Stands k specifier p m → Stands k' specifier p' m' →
  Forall (λ e, ∀ p m, Stands e.1 specifier p m → length p < length p') b' →
  Forall (λ e, ∀ p' m, Stands e.1 specifier p' m → length p' ≤ length p) a →
  length b' ≤ length b.
Proof.
  intros E HS HS' Hb' Ha. destruct (decide (length b < length b')) as [Hlt|]; [exfalso|lia].
  assert ((k, v) ∈ b') as Hin.
  { apply list_elem_of_lookup. exists (length b).
    rewrite <-(lookup_app_l _ ((k', v') :: a')) by done. rewrite <-E. by rewrite list_lookup_middle. }
  rewrite Forall_forall in Hb'. specialize (Hb' _ Hin _ _ HS).
  assert ((k', v') ∈ (k, v) :: a) as Hin'.
  { apply list_elem_of_lookup. exists (length b' - length b).
    rewrite <-(lookup_app_r b) by lia. rewrite E. by rewrite list_lookup_middle. }
  apply elem_of_cons in Hin' as [[= -> ->]|Hin'].
  - rewrite (Stands_length _ _ _ _ _ _ HS HS') in Hb'. lia.
  - rewrite Forall_forall in Ha. specialize (Ha _ Hin' _ _ HS'). lia.
Qed.

Lemma Chosen_unique entries p v m p' v' m' :
  Chosen entries specifier p v m → Chosen entries specifier p' v' m' → v = v' ∧ m = m'.
Proof.
  intros (b & k & a & E & HS & Hb & Ha) (b' & k' & a' & E' & HS' & Hb' & Ha'). rewrite E in E'.
  assert (length b = length b') as Hlen.
  { apply Nat.le_antisymm; [symmetry in E'|]; eauto using Chosen_before. }
  apply app_inj_1 in E' as [-> [= -> -> ->]]; [|done]. split; [done|].
  assert (star_match k' specifier = Some (length p, m)) by (apply star_match_Some; eauto).
  assert (star_match k' specifier = Some (length p', m')) by (apply star_match_Some; eauto).
  congruence.
Qed.

Lemma best_pattern_Some entries v m :
  (∃ len, best_pattern specifier entries = Some (len, v, m)) ↔
  ∃ prefix, Chosen entries specifier prefix v m.
Proof.
  pose proof (best_pattern_spec entries) as HB. split.
  - intros [len E]. rewrite E in HB. destruct HB as (p & _ & H). eauto.
  - intros [p H]. destruct (best_pattern specifier entries) as [[[len v'] m']|].
    + destruct HB as (p' & -> & H'). destruct (Chosen_unique _ _ _ _ _ _ _ H H') as [-> ->]. eauto.
    + destruct H as (b & k & a & -> & HS & _). cbn in HB. apply Forall_app in HB as [_ HB].
      apply Forall_cons in HB as [HB _]. by apply HB in HS.
Qed.
End Best.

(** ** JSONC

    A document as a reader of it sees it: strings, comments, and the other
    characters one by one. *)

Inductive Token : Type :=
| TStr (body : list byte)
| TLine (comment : list byte)
| TBlock (comment : list byte)
| TChar (c : byte).

Definition render (t : Token) : list byte :=
  match t with
  | TStr body => QUOTE :: body ++ [QUOTE]
  | TLine comment => bs "//" ++ comment ++ [x0a]
  | TBlock comment => bs "/*" ++ comment ++ bs "*/"
  | TChar c => [c]
  end.

(** A string's body: no quote that is not escaped, and no escape at its end. *)

Fixpoint string_body (escaped : bool) (l : list byte) : bool :=
  match l with
  | [] => negb escaped
  | c :: l =>
      if escaped then string_body false l
      else negb (bool_decide (c = QUOTE)) && string_body (bool_decide (c = BACKSLASH)) l
  end.

(** A block comment's text: nothing that closes it. *)

Fixpoint unclosed (star : bool) (l : list byte) : bool :=
  match l with
  | [] => true
  | c :: l => negb (star && bool_decide (c = "/"%byte)) && unclosed (bool_decide (c = "*"%byte)) l
  end.

Definition token_ok (t : Token) : bool :=
  match t with
  | TStr body => string_body false body
  | TLine comment => negb (contains comment x0a)
  | TBlock comment => unclosed false comment
  | TChar c => is_ascii c && negb (bool_decide (c ∈ [QUOTE; "/"%byte; NUL]))
  end.

(** A comment at the end of the file needs no newline. *)

Definition render_end (e : option (list byte)) : list byte :=
  match e with
  | Some comment => bs "//" ++ comment
  | None => []
  end.

Definition end_ok (e : option (list byte)) : bool :=
  match e with
  | Some comment => negb (contains comment x0a)
  | None => true
  end.

#[global] Instance Token_eq_dec : EqDecision Token.
Proof. solve_decision. Defined.

(** What is left of a token once comments are gone. *)

Definition uncommented (t : Token) : list byte :=
  match t with
  | TStr body => QUOTE :: body ++ [QUOTE]
  | TLine _ => [x0a]
  | TBlock _ => [x20]
  | TChar c => [c]
  end.

Definition ascii_ws (c : byte) : bool := bool_decide (c ∈ [x09; x0a; x0b; x0c; x0d; x20]).

(** Whether the next thing that is neither space nor comment closes a list or
    an object. *)

Fixpoint closes (ts : list Token) : bool :=
  match ts with
  | [] | TStr _ :: _ => false
  | TLine _ :: ts | TBlock _ :: ts => closes ts
  | TChar c :: ts =>
      if ascii_ws c then closes ts else bool_decide (c = "}"%byte) || bool_decide (c = "]"%byte)
  end.

(** The document without comments and without the commas before a closing
    bracket. *)

Fixpoint json_of (ts : list Token) : list byte :=
  match ts with
  | [] => []
  | t :: ts =>
      (if decide (t = TChar ","%byte ∧ closes ts = true) then [] else uncommented t) ++ json_of ts
  end.

(** *** Comments *)

Definition scan (so : State * list byte) (l : list byte) : State * list byte :=
  fold_left (λ so c, comment_char so.1 so.2 c) l so.

Lemma scan_app so l l' : scan so (l ++ l') = scan (scan so l) l'.
Proof. apply fold_left_app. Qed.

Lemma scan_cons st out c l : scan (st, out) (c :: l) = scan (comment_char st out c) l.
Proof. done. Qed.

Lemma scan_string escaped body out :
  string_body escaped body = true →
  scan (SInString escaped, out) (body ++ [QUOTE]) = (SNormal, QUOTE :: reverse body ++ out).
Proof.
  revert escaped out. induction body as [|c body IH]; intros escaped out H; cbn in H.
  - by destruct escaped.
  - rewrite reverse_cons, <-app_assoc. cbn [app]. rewrite scan_cons. cbn [comment_char].
    destruct escaped; [by apply IH|]. apply andb_true_iff in H as [Hq H].
    apply negb_true_iff, bool_decide_eq_false in Hq. case_bool_decide as Eb.
    + rewrite decide_True by done. by apply IH.
    + rewrite decide_False, decide_False by done. by apply IH.
Qed.

(** Not a placeholder. *)

Definition settled (out : list byte) : Prop := head out ≠ Some NUL.

Lemma scan_line comment out :
  settled out → contains comment x0a = false →
  scan (SLineComment, out) comment = (SLineComment, out).
Proof.
  intros Ho. induction comment as [|c comment IH]; intros H; [done|].
  unfold contains in H. apply bool_decide_eq_false in H.
  rewrite scan_cons. cbn [comment_char]. rewrite (decide_False (P := c = x0a)) by set_solver.
  replace (match out with x00 :: _ => _ | _ => (SLineComment, out) end) with (SLineComment, out)
    by (destruct out as [|[] ?]; done).
  apply IH. apply bool_decide_eq_false. set_solver.
Qed.

Lemma scan_block star comment out :
  unclosed star comment = true →
  scan (SBlockComment star, out) (comment ++ bs "*/") = (SNormal, x20 :: out).
Proof.
  revert star. induction comment as [|c comment IH]; intros star H; cbn in H.
  - by destruct star.
  - apply andb_true_iff in H as [Hc H]. apply negb_true_iff in Hc.
    cbn [app]. rewrite scan_cons. cbn [comment_char]. rewrite Hc. by apply IH.
Qed.

Lemma scan_slash out c :
  scan (SNormal, out) ["/"%byte; c] =
  if decide (c = "/"%byte) then (SLineComment, out)
  else if decide (c = "*"%byte) then (SBlockComment false, out)
  else (SNormal, c :: "/"%byte :: out).
Proof. done. Qed.

Lemma scan_token t out :
  settled out → token_ok t = true →
  scan (SNormal, out) (render t) = (SNormal, reverse (uncommented t) ++ out) ∧
  settled (reverse (uncommented t) ++ out).
Proof.
  intros Ho Hok. destruct t as [body|comment|comment|c]; cbn [render uncommented token_ok] in *.
  - split; [|by rewrite reverse_cons, reverse_app].
    change (QUOTE :: body ++ [QUOTE]) with ([QUOTE] ++ (body ++ [QUOTE])) at 1. rewrite scan_app.
    change (scan (SNormal, out) [QUOTE]) with (SInString false, QUOTE :: out).
    rewrite scan_string by done. rewrite reverse_cons, reverse_app. cbn. by rewrite <-app_assoc.
  - split; [|done]. apply negb_true_iff in Hok. change (bs "//") with ["/"%byte; "/"%byte].
    rewrite !scan_app, scan_slash. cbn [decide]. rewrite decide_True by done.
    rewrite scan_line by done. unfold scan. cbn. destruct out as [|[] ?]; done.
  - split; [|done]. rewrite scan_app. change (bs "/*") with ["/"%byte; "*"%byte].
    rewrite scan_slash. rewrite decide_False, decide_True by done. by rewrite scan_block.
  - apply andb_true_iff in Hok as [_ Hc]. apply negb_true_iff, bool_decide_eq_false in Hc.
    split; [|intros [= ->]; set_solver].
    rewrite scan_cons. cbn [comment_char]. rewrite !decide_False by set_solver. done.
Qed.

Lemma scan_tokens ts out :
  settled out → forallb token_ok ts = true →
  scan (SNormal, out) (ts ≫= render) = (SNormal, reverse (ts ≫= uncommented) ++ out) ∧
  settled (reverse (ts ≫= uncommented) ++ out).
Proof.
  revert out. induction ts as [|t ts IH]; intros out Ho Hok; [done|].
  cbn [forallb] in Hok. apply andb_true_iff in Hok as [Ht Hok].
  rewrite !bind_cons, scan_app, reverse_app, <-app_assoc.
  destruct (scan_token t out Ho Ht) as [-> H]. by apply IH.
Qed.

Lemma strip_comments_tokens ts e :
  forallb token_ok ts = true → end_ok e = true →
  strip_comments (ts ≫= render) = ts ≫= uncommented ∧
  strip_comments ((ts ≫= render) ++ render_end e) = ts ≫= uncommented.
Proof.
  intros Hok He. destruct (scan_tokens ts [] ltac:(done) Hok) as [E Hs].
  unfold strip_comments. fold (scan (SNormal, []) (ts ≫= render)).
  fold (scan (SNormal, []) ((ts ≫= render) ++ render_end e)). rewrite scan_app, E.
  rewrite app_nil_r in Hs |- *. split; [apply reverse_involutive|].
  destruct e as [comment|]; [|apply reverse_involutive]. cbn [render_end end_ok] in *.
  apply negb_true_iff in He. change (bs "//") with ["/"%byte; "/"%byte].
  rewrite scan_app, scan_slash, decide_True, scan_line by done. apply reverse_involutive.
Qed.

(** *** Trailing commas *)

Lemma leading_ws_ascii c l :
  is_ascii c = true → leading_ws (c :: l) = if ascii_ws c then Some l else None.
Proof. by destruct c. Qed.

Lemma trailing_cons c l :
  is_ascii c = true →
  trailing (c :: l) =
  if ascii_ws c then trailing l else bool_decide (c = "}"%byte) || bool_decide (c = "]"%byte).
Proof.
  intros Hc. unfold trailing, trim_start. cbn [length trim_ws]. rewrite leading_ws_ascii by done.
  by destruct (ascii_ws c).
Qed.

Lemma trailing_tokens ts : forallb token_ok ts = true → trailing (ts ≫= uncommented) = closes ts.
Proof.
  induction ts as [|t ts IH]; [done|]. cbn [forallb]. intros [Ht Hts]%andb_true_iff.
  rewrite bind_cons. destruct t as [body|comment|comment|c]; cbn [uncommented closes app];
    rewrite trailing_cons; try done; try by apply IH.
  - rewrite IH; done.
  - apply andb_true_iff in Ht as [Hc _]. done.
Qed.

Lemma strip_commas_string escaped body rest :
  string_body escaped body = true →
  strip_commas true escaped (body ++ QUOTE :: rest) = body ++ QUOTE :: strip_commas false false rest.
Proof.
  revert escaped. induction body as [|c body IH]; intros escaped H; cbn in H.
  - by destruct escaped.
  - cbn [app strip_commas]. f_equal. destruct escaped; [by apply IH|].
    apply andb_true_iff in H as [Hq H]. apply negb_true_iff, bool_decide_eq_false in Hq.
    case_bool_decide as Eb.
    + rewrite decide_True by done. by apply IH.
    + rewrite decide_False, decide_False by done. by apply IH.
Qed.

Lemma strip_commas_tokens ts :
  forallb token_ok ts = true → strip_commas false false (ts ≫= uncommented) = json_of ts.
Proof.
  induction ts as [|t ts IH]; [done|]. cbn [forallb]. intros [Ht Hts]%andb_true_iff.
  rewrite bind_cons. cbn [json_of]. rewrite <-IH by done. clear IH.
  destruct t as [body|comment|comment|c]; cbn [uncommented app token_ok] in *.
  - rewrite decide_False by naive_solver. cbn [strip_commas]. rewrite decide_True by done.
    rewrite <-app_assoc. cbn [app]. rewrite strip_commas_string by done. by rewrite <-app_assoc.
  - by rewrite decide_False by naive_solver.
  - by rewrite decide_False by naive_solver.
  - apply andb_true_iff in Ht as [_ Hc]. apply negb_true_iff, bool_decide_eq_false in Hc.
    cbn [strip_commas]. rewrite decide_False by set_solver.
    rewrite (trailing_tokens ts Hts). destruct (decide (c = ","%byte)) as [->|Hn].
    + destruct (closes ts) eqn:E.
      * by rewrite decide_True by done.
      * by rewrite decide_False by naive_solver.
    + by rewrite decide_False by naive_solver.
Qed.

(** Already JSON: no comment, and no comma before a closing bracket. *)

Fixpoint is_json (ts : list Token) : bool :=
  match ts with
  | [] => true
  | t :: ts =>
      match t with
      | TLine _ | TBlock _ => false
      | TStr _ => true
      | TChar c => negb (bool_decide (c = ","%byte) && closes ts)
      end && is_json ts
  end.

Lemma json_of_json ts : is_json ts = true → json_of ts = ts ≫= render.
Proof.
  induction ts as [|t ts IH]; [done|]. cbn [is_json json_of]. intros [Ht Hts]%andb_true_iff.
  rewrite bind_cons, <-IH by done.
  destruct t as [body|comment|comment|c]; cbn [uncommented render]; [|done..|].
  - by rewrite decide_False by naive_solver.
  - destruct (decide _) as [[[= ->] E]|]; [|done]. rewrite E in Ht. done.
Qed.

(** C21: a tsconfig's text, read as strings, comments and other characters, is
    filtered down to those characters and strings with a newline for a line
    comment, a space for a block comment, and no comma before a closing
    bracket, whatever white space and comments stand between; a comment that
    ends the file needs no newline; a string is never touched, whatever it
    holds; and text that is JSON already stays as it is. *)
Theorem strip_jsonc_tokens ts e :
  forallb token_ok ts = true → end_ok e = true →
  strip_jsonc ((ts ≫= render) ++ render_end e) = json_of ts ∧
  (is_json ts = true → strip_jsonc (ts ≫= render) = ts ≫= render).
Proof.
  intros Hok He. destruct (strip_comments_tokens ts e Hok He) as [E E']. unfold strip_jsonc. split.
  - by rewrite E', strip_commas_tokens.
  - intros Hj. by rewrite E, strip_commas_tokens, json_of_json.
Qed.

Lemma strip_jsonc_tokens_witness :
  let ts := [TChar "{"; TLine (bs " a // b"); TStr (bs "/*" ++ [BACKSLASH; QUOTE] ++ bs "//");
             TChar ":"; TChar "1"; TChar ","; TBlock (bs "* , ] *"); TChar x20; TChar "}"]%byte in
  strip_jsonc ((ts ≫= render) ++ render_end (Some (bs " end"))) = json_of ts ∧
  json_of ts = bs "{" ++ [x0a; QUOTE] ++ bs "/*" ++ [BACKSLASH; QUOTE] ++ bs "//" ++ [QUOTE] ++ bs ":1  }".
Proof.
  intros ts. split; [|vm_compute; reflexivity].
  exact (proj1 (strip_jsonc_tokens ts (Some (bs " end")) ltac:(vm_compute; reflexivity)
                  ltac:(vm_compute; reflexivity))).
Defined.
