(* ===== verification/Loader.v ===== *)
(** * Loader: module resolution in [oam_loader/src/]

    [npm.rs], [resolver.rs], [pathutil.rs], the file-reading half of
    [tsconfig.rs], and the probing of [lib.rs], for a POSIX build.

    The code reads the file system and keeps caches: the manifests
    [npm.rs]'s [cached_manifest] has parsed (one map for the process), the
    [Resolver]'s failed probes, parsed tsconfigs and discovery walks, and the
    warnings already given.  An operation is a computation over those caches
    ([M]); the file system, as it stands while the operation runs, is the
    record [Fs].  Serde's reading of a manifest and of a tsconfig is a
    parameter.  A diagnostic keeps its code and its text; a warning its code
    and the tsconfig it is about. *)

From S2P Require Import Prelude RustStd StdPath Tsconfig.

(** ** What the loader reads *)

(** [serde_json::Value], objects in declaration order; a number is its text. *)

Inductive Value : Type :=
| Null
| VBool (b : bool)
| VNumber (text : list byte)
| VString (s : list byte)
| VArray (items : list Value)
| VObject (fields : list (list byte * Value)).

Definition as_str (v : Value) : option (list byte) :=
  match v with
  | VString s => Some s
  | _ => None
  end.

(** [Map::get], and [Value::get] of a field. *)

Fixpoint map_get (key : list byte) (fields : list (list byte * Value)) : option Value :=
  match fields with
  | [] => None
  | (k, v) :: rest => if decide (k = key) then Some v else map_get key rest
  end.

Definition value_get (key : list byte) (v : Value) : option Value :=
  match v with
  | VObject fields => map_get key fields
  | _ => None
  end.

(** What serde makes of a tsconfig: [RawTsconfig], with [extends] as a list
    ([Extends::into_vec], none when absent). *)

Record RawTsconfig : Type := {
  raw_extends : list (list byte);
  raw_paths : option (list (list byte * Value));
  raw_jsx : option (list byte);
  raw_jsx_import_source : option (list byte);
  raw_jsx_factory : option (list byte);
  raw_jsx_fragment_factory : option (list byte)
}.

(** The file system and the environment while an operation runs. *)

Record Fs : Type := {
  is_file : path → bool;
  is_dir : path → bool;
  read_to_string : path → option (list byte);
  canonicalize : path → option path;
  cwd : option path;
  expose_internals : bool
}.

Class Serde : Type := {
  json_from_str : list byte → option Value;
  tsconfig_from_str : list byte → option RawTsconfig
}.

(** ** The caches *)

Abbreviation Key := (list (list byte)).

Record Caches : Type := {
  manifests : gmap Key (option Value);
  negative_probes : gset Key;
  tsconfigs : gmap Key (option TsconfigInfo);
  generation : Z;
  tsconfig_dirs : gmap Key (option path);
  warned : gset (list byte * Key);
  warnings : list (list byte * path)
}.

Definition Caches_empty : Caches :=
  {| manifests := ∅; negative_probes := ∅; tsconfigs := ∅; generation := 0; tsconfig_dirs := ∅;
     warned := ∅; warnings := [] |}.

Definition set_manifests (m : gmap Key (option Value)) (c : Caches) : Caches :=
  {| manifests := m; negative_probes := negative_probes c; tsconfigs := tsconfigs c;
     generation := generation c; tsconfig_dirs := tsconfig_dirs c; warned := warned c;
     warnings := warnings c |}.

Definition set_probes (s : gset Key) (c : Caches) : Caches :=
  {| manifests := manifests c; negative_probes := s; tsconfigs := tsconfigs c;
     generation := generation c; tsconfig_dirs := tsconfig_dirs c; warned := warned c;
     warnings := warnings c |}.

Definition set_tsconfigs (m : gmap Key (option TsconfigInfo)) (c : Caches) : Caches :=
  {| manifests := manifests c; negative_probes := negative_probes c; tsconfigs := m;
     generation := generation c; tsconfig_dirs := tsconfig_dirs c; warned := warned c;
     warnings := warnings c |}.

Definition set_dirs (g : Z) (m : gmap Key (option path)) (c : Caches) : Caches :=
  {| manifests := manifests c; negative_probes := negative_probes c; tsconfigs := tsconfigs c;
     generation := g; tsconfig_dirs := m; warned := warned c; warnings := warnings c |}.

Definition set_warnings (s : gset (list byte * Key)) (w : list (list byte * path)) (c : Caches)
  : Caches :=
  {| manifests := manifests c; negative_probes := negative_probes c; tsconfigs := tsconfigs c;
     generation := generation c; tsconfig_dirs := tsconfig_dirs c; warned := s; warnings := w |}.

(** [Resolver::clear_caches]. *)

Definition clear_caches (c : Caches) : Caches :=
  set_dirs (wrap_u 64 (generation c + 1)) ∅ (set_tsconfigs ∅ (set_probes ∅ c)).

(** ** Computations over the caches *)

Definition M (A : Type) : Type := Caches → A * Caches.

#[global] Instance M_ret : MRet M := λ A a c, (a, c).
#[global] Instance M_bind : MBind M := λ A B k m c, let '(a, c) := m c in k a c.

Definition get : M Caches := λ c, (c, c).
Definition modify (f : Caches → Caches) : M unit := λ c, (tt, f c).

(** The first answer among some attempts. *)

Fixpoint first_some {A B} (f : A → M (option B)) (l : list A) : M (option B) :=
  match l with
  | [] => mret None
  | a :: l => r ← f a; match r with Some b => mret (Some b) | None => first_some f l end
  end.

(** ** Diagnostics *)

Record Diagnostic : Type := { code : list byte; message : list byte }.

Definition diag (code : string) (message : list byte) : Diagnostic :=
  {| code := bs code; message := message |}.

Definition push_str (d : Diagnostic) (text : list byte) : Diagnostic :=
  {| code := code d; message := message d ++ text |}.

(** [{p.display()}]. *)

Definition display (p : path) : list byte := from_utf8_lossy p.

Definition quoted (s : list byte) : list byte := bs "'" ++ s ++ bs "'".

(** ** [pathutil.rs] *)

Definition is_virtual (p : path) : bool :=
  match from_utf8 p with
  | Some s => starts_with s (bs "node:") || starts_with s (bs "oam:")
  | None => false
  end.

Definition finalize_resolved (fs : Fs) (p : path) : path :=
  if is_virtual p then p else default p (canonicalize fs p).

(** A hexadecimal pair, as [u8::from_str_radix(_, 16)] reads two bytes: digits,
    or a plus sign and a digit. *)

Definition hex_digit (b : byte) : option Z :=
  if is_ascii_digit b then Some (b2z b - 48)%Z
  else
    let l := to_ascii_lowercase b in
    if (97 <=? b2z l)%Z && (b2z l <=? 102)%Z then Some (b2z l - 87)%Z else None.

Definition hex_pair (a b : byte) : option byte :=
  if decide (a = "+"%byte) then z2b <$> hex_digit b
  else x ← hex_digit a; y ← hex_digit b; Some (z2b (16 * x + y)).

Fixpoint percent_bytes (l : list byte) : option (list byte) :=
  match l with
  | [] => Some []
  | c :: rest =>
      if decide (c = "%"%byte) then
        match rest with
        | a :: b :: rest' => v ← hex_pair a b; out ← percent_bytes rest'; Some (v :: out)
        | _ => None
        end
      else out ← percent_bytes rest; Some (c :: out)
  end.

Definition percent_decode (s : list byte) : result (list byte) (list byte) :=
  if contains s "%"%byte then
    out ← ok_or (percent_bytes s) (bs "invalid percent escape in file: URL");
    ok_or (from_utf8 out) (bs "file: URL path is not valid UTF-8")
  else Ok s.

Definition is_file_url (s : list byte) : bool :=
  bool_decide (5 ≤ length s) && eq_ignore_ascii_case (take 5 s) (bs "file:").

(** [s.split(['?', '#']).next()]. *)

Definition before_query (l : list byte) : list byte :=
  match position (λ c, bool_decide (c = "?"%byte) || bool_decide (c = "#"%byte)) l with
  | Some n => take n l
  | None => l
  end.

Fixpoint contains_text (l p : list byte) : bool :=
  starts_with l p ||
  match l with
  | [] => false
  | _ :: l => contains_text l p
  end.

Definition file_url_to_path (url : list byte) : result (list byte) path :=
  if negb (is_file_url url) then Err (bs "not a file: URL")
  else
    rest ← ok_or (strip_pre (bs "//") (drop 5 url)) (bs "file: URL must use the file://... form");
    let '(host, raw_path) :=
      match find_byte "/"%byte rest with
      | Some i => (take i rest, drop i rest)
      | None => (rest, [])
      end in
    let raw_path := before_query raw_path in
    if decide (raw_path = []) then Err (bs "file: URL has no path")
    else
      let lower := lowercase raw_path in
      if contains_text lower (bs "%2f") || contains_text lower (bs "%5c")
      then Err (bs "file: URL path must not include encoded / or " ++ [BACKSLASH] ++ bs " characters")
      else
        decoded ← percent_decode raw_path;
        if negb (bool_decide (host = [])) && negb (eq_ignore_ascii_case host (bs "localhost"))
        then Err (bs "file: URL host " ++ quoted host ++ bs " must be empty or localhost")
        else Ok decoded.

(** ** [lib.rs]: declaration files and candidates *)

Definition is_declaration_file (p : path) : bool :=
  match name ← file_name p; from_utf8 name with
  | None => false
  | Some name =>
      let lc := lowercase name in
      ends_with lc (bs ".d.ts") || ends_with lc (bs ".d.mts") || ends_with lc (bs ".d.cts")
      || ends_with lc (bs ".d.tsx") || ends_with lc (bs ".d.jsx")
  end.

Definition append_ext (p ext : list byte) : path := p ++ bs "." ++ ext.

Definition extension_str (p : path) : option (list byte) := e ← extension p; from_utf8 e.

Definition candidates (raw : path) : list path :=
  let ext := extension_str raw in
  let ext_is e := bool_decide (ext = Some (bs e)) in
  filter (λ p, is_declaration_file p = false)
    (raw ::
     if ext_is "js" then [with_extension raw (bs "ts"); with_extension raw (bs "tsx")]
     else if ext_is "jsx" then [with_extension raw (bs "tsx")]
     else if ext_is "mjs" then [with_extension raw (bs "mts")]
     else if ext_is "cjs" then [with_extension raw (bs "cts")]
     else if ext_is "ts" || ext_is "mts" || ext_is "cts" || ext_is "tsx" || ext_is "json" then []
     else
       (append_ext raw <$> [bs "ts"; bs "tsx"; bs "mts"; bs "js"; bs "jsx"; bs "mjs"])
       ++ (path_join raw <$> [bs "index.ts"; bs "index.tsx"; bs "index.js"; bs "index.jsx"])).

Section Resolution.
Context {HS : Serde} (fs : Fs).

(** [Resolver::is_file_cached]. *)

Definition is_file_cached (p : path) : M bool :=
  c ← get;
  if decide (path_key p ∈ negative_probes c) then mret false
  else if is_file fs p then
    _ ← modify (λ c, set_probes (negative_probes c ∖ {[path_key p]}) c); mret true
  else _ ← modify (λ c, set_probes ({[path_key p]} ∪ negative_probes c) c); mret false.

Definition probe_candidates (raw : path) : M (option path * list path) :=
  let cs := candidates raw in
  found ← first_some (λ p, b ← is_file_cached p; mret (if (b : bool) then Some p else None)) cs;
  mret ((λ p, default p (absolute (cwd fs) p)) <$> found, cs).

(** ** Manifests *)

Definition BOM : list byte := [xef; xbb; xbf].

Definition trim_bom (l : list byte) : list byte := trim_start_matches (length l) BOM l.

Definition parse_manifest (p : path) : option Value :=
  raw ← read_to_string fs p; json_from_str (trim_bom raw).

Definition cached_manifest (p : path) : M (option Value) :=
  c ← get;
  match manifests c !! path_key p with
  | Some cached => mret cached
  | None =>
      let result := parse_manifest p in
      _ ← modify (λ c, set_manifests (<[path_key p := result]> (manifests c)) c);
      mret result
  end.
End Resolution.
