(* ===== verification/Npm.v ===== *)
(** * Npm: packages, their exports and their files

    [oam_loader/src/npm.rs]: the builtin tables, exports and imports maps, the
    probes of files and packages, the kind a file runs as, and the walk up the
    [node_modules] directories.  [require] itself, which asks the tsconfig
    first, is in [Resolver]. *)

From S2P Require Import Prelude RustStd StdPath Tsconfig Loader.

(** ** Modes *)

Inductive ResolveMode : Type := Import | Require.

Definition conditions (m : ResolveMode) : list (list byte) :=
  match m with
  | Import => [bs "node"; bs "import"; bs "default"]
  | Require => [bs "node"; bs "require"; bs "default"]
  end.

Definition entry_fields (m : ResolveMode) : list (list byte) :=
  match m with
  | Import => [bs "module"; bs "main"]
  | Require => [bs "main"]
  end.

(** ** Builtins *)

Definition NODE_BUILTINS : list (list byte) := bs <$>
  ["assert"; "async_hooks"; "buffer"; "child_process"; "cluster"; "console"; "constants";
   "crypto"; "dgram"; "diagnostics_channel"; "dns"; "domain"; "events"; "fs"; "http"; "http2";
   "https"; "inspector"; "module"; "net"; "os"; "path"; "perf_hooks"; "process"; "punycode";
   "querystring"; "readline"; "repl"; "stream"; "string_decoder"; "sys"; "timers"; "tls";
   "trace_events"; "tty"; "url"; "util"; "v8"; "vm"; "wasi"; "worker_threads"; "zlib";
   "_stream_readable"; "_stream_writable"; "_stream_duplex"; "_stream_transform";
   "_stream_passthrough"; "_stream_wrap"; "_http_agent"; "_http_client"; "_http_common";
   "_http_incoming"; "_http_outgoing"; "_http_server"; "_tls_common"; "_tls_wrap"]%string.

Definition PREFIX_ONLY_BUILTINS : list (list byte) := bs <$>
  ["sea"; "sqlite"; "test/reporters"]%string.

Definition SUPPORTED_BUILTINS : list (list byte) := bs <$>
  ["assert"; "assert/strict"; "async_hooks"; "buffer"; "child_process"; "cluster"; "console";
   "constants"; "crypto"; "dgram"; "diagnostics_channel"; "dns"; "dns/promises"; "domain";
   "events"; "fs"; "fs/promises"; "http"; "http2"; "https"; "inspector"; "internal/errors";
   "module"; "net"; "os"; "path"; "path/posix"; "path/win32"; "perf_hooks"; "process";
   "punycode"; "querystring"; "readline"; "readline/promises"; "repl"; "stream";
   "stream/consumers"; "stream/promises"; "stream/web"; "string_decoder"; "sys"; "test";
   "timers"; "timers/promises"; "tls"; "trace_events"; "tty"; "url"; "util"; "util/types";
   "v8"; "vm"; "worker_threads"; "zlib"; "_stream_readable"; "_stream_writable";
   "_stream_duplex"; "_stream_transform"; "_stream_passthrough"; "_http_agent";
   "_http_client"; "_http_common"; "_http_incoming"; "_http_outgoing"; "_http_server";
   "_tls_common"; "_tls_wrap"]%string.

Definition SUBPATH_BUILTINS : list (list byte) := bs <$>
  ["assert/strict"; "dns/promises"; "fs/promises"; "inspector/promises"; "path/posix";
   "path/win32"; "readline/promises"; "stream/consumers"; "stream/promises"; "stream/web";
   "timers/promises"; "util/types"]%string.

Definition without_node (specifier : list byte) : list byte :=
  default specifier (strip_pre (bs "node:") specifier).

Definition is_node_builtin (specifier : list byte) : bool :=
  bool_decide (without_node specifier ∈ NODE_BUILTINS ++ SUBPATH_BUILTINS).

Definition is_exposed_internal (fs : Fs) (specifier : list byte) : bool :=
  starts_with specifier (bs "internal/") && expose_internals fs.

Definition is_builtin_specifier (fs : Fs) (specifier : list byte) : bool :=
  starts_with specifier (bs "node:") || starts_with specifier (bs "oam:")
  || is_node_builtin specifier || is_exposed_internal fs specifier.

Definition shadowed_builtin (specifier : list byte) : option path :=
  if decide (specifier = bs "undici") then Some (bs "oam:undici") else None.

(** "pkg" / "pkg/sub" / "@scope/pkg" / "@scope/pkg/sub" as a name and a
    subpath. *)

Definition split_specifier (specifier : list byte) : option (list byte * list byte) :=
  let '(first, after) := default (specifier, []) (split_once "/"%byte specifier) in
  '(name, rest) ←
    (if starts_with specifier (bs "@") then
       if contains specifier "/"%byte then
         let '(pkg, rest) := default (after, []) (split_once "/"%byte after) in
         if decide (pkg = []) then None else Some (first ++ bs "/" ++ pkg, rest)
       else None
     else Some (first, after));
  if decide (name = []) then None
  else Some (name, if decide (rest = []) then bs "." else bs "./" ++ rest).

Definition is_declaration_target (p : path) : bool :=
  match name ← file_name p; from_utf8 name with
  | None => false
  | Some name =>
      let lc := lowercase name in
      ends_with lc (bs ".d.ts") || ends_with lc (bs ".d.mts") || ends_with lc (bs ".d.cts")
      || ends_with lc (bs ".d.tsx") || ends_with lc (bs ".d.jsx")
  end.

(** ** Exports and imports maps *)

Inductive ExportsError : Type :=
| NotExported
| InvalidTarget (target : list byte).

(** A scalar's [to_string]. *)

Definition scalar_text (v : Value) : list byte :=
  match v with
  | VBool true => bs "true"
  | VBool false => bs "false"
  | VNumber text => text
  | _ => []
  end.

Fixpoint resolve_target (target : Value) (matched : list byte) (conds : list (list byte))
  : result ExportsError (list byte) :=
  match target with
  | VString s =>
      let substituted := replace_star s matched in
      if starts_with substituted (bs "./") then Ok substituted
      else Err (InvalidTarget substituted)
  | VObject branches =>
      (fix go branches :=
         match branches with
         | [] => Err NotExported
         | (condition, value) :: rest =>
             if decide (condition = bs "default" ∨ condition ∈ conds)
             then resolve_target value matched conds
             else go rest
         end) branches
  | VArray options =>
      (fix go options :=
         match options with
         | [] => Err NotExported
         | option :: rest =>
             match resolve_target option matched conds with
             | Ok resolved => Ok resolved
             | Err _ => go rest
             end
         end) options
  | Null => Err NotExported
  | other => Err (InvalidTarget (scalar_text other))
  end.

(** An object with a key that starts with a dot or a hash is a map of
    subpaths; any other value is the "." entry. *)

Definition as_map (exports : Value) : option (list (list byte * Value)) :=
  match exports with
  | VObject map =>
      if existsb (λ kv, starts_with kv.1 (bs ".") || starts_with kv.1 (bs "#")) map then Some map
      else None
  | _ => None
  end.

Definition exports_resolve (exports : Value) (subpath : list byte) (conds : list (list byte))
  : result ExportsError (list byte) :=
  match as_map exports with
  | None =>
      if decide (subpath = bs ".") then resolve_target exports [] conds else Err NotExported
  | Some map =>
      match map_get subpath map with
      | Some value => resolve_target value [] conds
      | None =>
          match best_pattern subpath map with
          | Some (_, value, matched) => resolve_target value matched conds
          | None => Err NotExported
          end
      end
  end.

(** ** Fallible computations over the caches *)

Abbreviation R A := (M (result Diagnostic A)).

Definition or_fail {A} (m : M (option A)) (e : Diagnostic) : R A :=
  a ← m; mret (ok_or a e).

Definition and_then {A B} (m : R A) (k : A → R B) : R B :=
  a ← m;
  match a with
  | Ok a => k a
  | Err e => mret (Err e)
  end.

Section Npm.
Context {HS : Serde} (fs : Fs).

(** [Path::is_file] of a candidate. *)

Definition existing (p : path) : option path := if is_file fs p then Some p else None.

Fixpoint first_existing (ps : list path) : option path :=
  match ps with
  | [] => None
  | p :: ps => if is_file fs p then Some p else first_existing ps
  end.

(** ** The kind of a file *)

Definition in_node_modules (p : path) : bool :=
  existsb (λ c, bool_decide (component_text c = bs "node_modules")) (components p).

Fixpoint scope_walk (dirs : list path) : option path :=
  match dirs with
  | [] => None
  | current :: dirs =>
      if decide (file_name current = Some (bs "node_modules")) then None
      else
        let manifest_path := path_join current (bs "package.json") in
        if is_file fs manifest_path then Some manifest_path else scope_walk dirs
  end.

Definition package_scope (p : path) : option path :=
  match parent p with
  | Some dir => scope_walk (ancestors dir)
  | None => None
  end.

Inductive PackageType : Type := TModule | TCommonjs | TOther.

Definition package_type (declared : list byte) : PackageType :=
  if decide (declared = bs "module") then TModule
  else if decide (declared = bs "commonjs") then TCommonjs
  else TOther.

Definition declared_package_type (p : path) : M (option PackageType) :=
  match package_scope p with
  | None => mret None
  | Some manifest_path =>
      manifest ← cached_manifest fs manifest_path;
      mret (package_type <$> (m ← manifest; t ← value_get (bs "type") m; as_str t))
  end.

Inductive ModuleKind : Type := Esm | Cjs.

Definition ext_in (p : path) (exts : list string) : bool :=
  match extension_str p with
  | Some e => bool_decide (e ∈ bs <$> exts)
  | None => false
  end.

Definition module_kind (p : path) : M ModuleKind :=
  if ext_in p ["mjs"; "mts"; "ts"; "tsx"] then mret Esm
  else if ext_in p ["cjs"; "cts"; "node"] then mret Cjs
  else
    t ← declared_package_type p;
    mret (match t with
          | Some TModule => Esm
          | Some TCommonjs | Some TOther => Cjs
          | None => if ext_in p ["jsx"] && negb (in_node_modules p) then Esm else Cjs
          end).

Definition kind_from_syntax (p : path) : M bool :=
  if ext_in p ["mjs"; "mts"; "ts"; "tsx"; "cjs"; "cts"; "jsx"; "node"; "json"; "wasm"] then mret false
  else
    t ← declared_package_type p;
    mret (match t with
          | None | Some TOther => true
          | Some TModule | Some TCommonjs => false
          end).

Definition node_declared_module_kind (p : path) : M (option ModuleKind) :=
  if ext_in p ["mjs"; "mts"] then mret (Some Esm)
  else if ext_in p ["cjs"; "cts"; "node"] then mret (Some Cjs)
  else
    t ← declared_package_type p;
    mret (match t with
          | Some TModule => Some Esm
          | Some TCommonjs => Some Cjs
          | Some TOther | None => None
          end).

(** ** Probes *)

Definition probe_legacy (raw : path) : option path :=
  first_existing [raw; display raw ++ bs ".js"; path_join raw (bs "index.js")].

Definition as_file (raw : path) : option path :=
  first_existing (raw :: ((λ ext, display raw ++ bs "." ++ ext) <$> [bs "js"; bs "json"; bs "node"])).

Definition as_index (dir : path) : option path :=
  first_existing (path_join dir <$> [bs "index.js"; bs "index.json"]).

Definition probe_require (raw : path) : M (option path) :=
  match as_file raw with
  | Some found => mret (Some found)
  | None =>
      if is_dir fs raw then
        manifest ← cached_manifest fs (path_join raw (bs "package.json"));
        let main := m ← manifest; v ← value_get (bs "main") m; as_str v in
        let found :=
          main ← main;
          let target := path_join raw main in
          or_else (as_file target) (as_index target) in
        mret (or_else found (as_index raw))
      else mret None
  end.

Definition probe (m : ResolveMode) (raw : path) : M (option path) :=
  match m with
  | Import => mret (probe_legacy raw)
  | Require => probe_require raw
  end.

(** ** Inside a package *)

(** The declared entry: the first of the mode's fields that names a file, a
    [module] that runs as CommonJS passed over. *)

Fixpoint legacy_entry (package_dir : path) (manifest : Value) (m : ResolveMode)
  (fields : list (list byte)) : M (option path) :=
  match fields with
  | [] => mret None
  | field :: fields =>
      match v ← value_get field manifest; as_str v with
      | None => legacy_entry package_dir manifest m fields
      | Some entry =>
          found ← probe m (path_join package_dir entry);
          match found with
          | None => legacy_entry package_dir manifest m fields
          | Some found =>
              skip ← (if decide (field = bs "module")
                      then kind ← module_kind found;
                           mret (match kind with Cjs => true | Esm => false end)
                      else mret false);
              if (skip : bool) then legacy_entry package_dir manifest m fields
              else mret (Some found)
          end
      end
  end.

Definition exports_diag (package subpath : list byte) (e : ExportsError) : Diagnostic :=
  match e with
  | NotExported =>
      diag "OAM-MOD0007" (bs "subpath " ++ quoted subpath ++ bs " is not exported by " ++ package
                          ++ bs " (its exports map does not allow it)")
  | InvalidTarget target =>
      diag "OAM-MOD0002" (bs "package " ++ package ++ bs " has an invalid exports target "
                          ++ quoted target)
  end.

Definition map_err {E F A} (f : E → F) (r : result E A) : result F A :=
  match r with
  | Ok a => Ok a
  | Err e => Err (f e)
  end.

Definition package_entry (package_dir package subpath specifier : list byte) (m : ResolveMode)
  : R path :=
  manifest ← cached_manifest fs (path_join package_dir (bs "package.json"));
  let manifest := default Null manifest in
  match value_get (bs "exports") manifest with
  | Some exports =>
      mret
        (target ← map_err (exports_diag package subpath)
                    (exports_resolve exports subpath (conditions m));
         let p := path_join package_dir (trim_dot_slash target) in
         ok_or (existing p)
           (diag "OAM-MOD0002" (bs "package " ++ package ++ bs " exports " ++ quoted subpath
                                ++ bs " -> " ++ display p ++ bs " which does not exist")))
  | None =>
      if decide (subpath ≠ bs ".") then
        let raw := path_join package_dir (trim_dot_slash subpath) in
        or_fail (probe m raw)
          (diag "OAM-MOD0002" (bs "cannot resolve " ++ quoted specifier ++ bs ": no file at "
                               ++ display raw))
      else
        chosen ← legacy_entry package_dir manifest m (entry_fields m);
        match chosen with
        | Some found => mret (Ok found)
        | None =>
            or_fail (probe m (path_join package_dir (bs "index.js")))
              (diag "OAM-MOD0002" (bs "package " ++ package
                 ++ bs " has no resolvable entry (main/module/index) under " ++ display package_dir))
        end
  end.

Definition resolve_in_package (package_dir package subpath specifier : list byte) (m : ResolveMode)
  : R path :=
  and_then (package_entry package_dir package subpath specifier m) (λ resolved,
    mret
      (if is_declaration_target resolved then
         Err (diag "OAM-MOD0001" (bs "package " ++ package ++ bs " resolves " ++ quoted specifier
           ++ bs " to " ++ display resolved ++ bs " which is a TypeScript declaration file (types-only)"
           ++ bs " -- cannot load as a runtime module"))
       else Ok resolved)).

(** ** Subpath imports *)

Definition find_owning_package (file : path) : M (option (path * Value)) :=
  match parent file with
  | None => mret None
  | Some dir =>
      first_some (λ dir,
        let manifest_path := path_join dir (bs "package.json") in
        if is_file fs manifest_path then
          manifest ← cached_manifest fs manifest_path;
          mret (Some (dir, default Null manifest))
        else mret None) (ancestors dir)
  end.

Definition imports_diag (pkg_dir specifier : list byte) (e : ExportsError) : Diagnostic :=
  match e with
  | NotExported =>
      diag "OAM-MOD0007" (bs "subpath import " ++ quoted specifier ++ bs " is not declared in "
                          ++ display pkg_dir ++ bs "/package.json imports")
  | InvalidTarget target =>
      diag "OAM-MOD0002" (display pkg_dir ++ bs "/package.json imports has invalid target "
                          ++ quoted target ++ bs " for " ++ quoted specifier)
  end.

(** [again] is [resolve_bare], which a bare target re-enters. *)

Definition resolve_subpath_import (again : list byte → path → ResolveMode → R path)
  (specifier referrer : list byte) (m : ResolveMode) : R path :=
  owner ← find_owning_package referrer;
  match owner with
  | None =>
      mret (Err (diag "OAM-MOD0002" (bs "subpath import " ++ quoted specifier
              ++ bs " has no owning package.json above " ++ display referrer)))
  | Some (pkg_dir, manifest) =>
      match value_get (bs "imports") manifest with
      | None =>
          mret (Err (diag "OAM-MOD0007" (bs "subpath import " ++ quoted specifier
                  ++ bs " is not declared in " ++ display pkg_dir
                  ++ bs "/package.json (no 'imports' field)")))
      | Some imports =>
          match exports_resolve imports specifier (conditions m) with
          | Err e => mret (Err (imports_diag pkg_dir specifier e))
          | Ok target =>
              match strip_pre (bs "./") target with
              | Some rel =>
                  let p := path_join pkg_dir rel in
                  mret (ok_or (existing p)
                          (diag "OAM-MOD0002" (bs "subpath import " ++ quoted specifier ++ bs " -> "
                                               ++ display p ++ bs " which does not exist")))
              | None => again target (path_join pkg_dir (bs "__oam_subpath_anchor")) m
              end
          end
      end
  end.

(** ** Bare specifiers *)

Definition oam_module (specifier rest : list byte) : result Diagnostic path :=
  if decide (rest ∈ [bs "test"; bs "permissions"; bs "ai"; bs "mcp"]) then Ok (bs "oam:" ++ rest)
  else Err (diag "OAM-MOD0006" (quoted specifier
         ++ bs " is not a known oam: module (available: oam:test, oam:permissions, oam:ai, oam:mcp)")).

Definition node_module (specifier : list byte) : result Diagnostic path :=
  let name := without_node specifier in
  if decide (name ∈ SUPPORTED_BUILTINS) then Ok (bs "node:" ++ name)
  else if is_node_builtin specifier
          || (starts_with specifier (bs "node:") && bool_decide (name ∈ PREFIX_ONLY_BUILTINS))
  then Err (diag "OAM-MOD0006" (quoted specifier
         ++ bs " is a Node builtin module that oam does not implement yet "
         ++ bs "(docs/node-divergences.md lists what is missing)"))
  else Err (diag "OAM-MOD0006" (quoted specifier ++ bs " is not a known node: builtin module")).

(** The walk: the first directory above the referrer that has the package. *)

Fixpoint package_walk (package : list byte) (dirs : list path) (searched : nat) : path + nat :=
  match dirs with
  | [] => inr searched
  | current :: dirs =>
      let package_dir := path_join (path_join current (bs "node_modules")) package in
      if is_dir fs package_dir then inl package_dir
      else package_walk package dirs (S searched)
  end.

Definition resolve_bare_with (again : list byte → path → ResolveMode → R path)
  (specifier referrer : list byte) (m : ResolveMode) : R path :=
  if starts_with specifier (bs "#") then resolve_subpath_import again specifier referrer m
  else match shadowed_builtin specifier with
  | Some virt => mret (Ok virt)
  | None =>
  match strip_pre (bs "oam:") specifier with
  | Some rest => mret (oam_module specifier rest)
  | None =>
  if is_exposed_internal fs specifier then mret (Ok (bs "node:" ++ specifier))
  else if starts_with specifier (bs "node:") || is_node_builtin specifier
  then mret (node_module specifier)
  else match split_specifier specifier with
  | None => mret (Err (diag "OAM-MOD0002" (bs "invalid package specifier " ++ quoted specifier)))
  | Some (package, subpath) =>
      match package_walk package (from_option ancestors [] (parent referrer)) 0 with
      | inl package_dir => resolve_in_package package_dir package subpath specifier m
      | inr searched =>
          mret (Err (diag "OAM-MOD0002" (bs "cannot find package " ++ quoted package
                  ++ bs " (searched node_modules in " ++ dec_text (Z.of_nat searched) ++ bs " director"
                  ++ (if decide (searched = 1) then bs "y" else bs "ies")
                  ++ bs " above " ++ display referrer ++ bs "); is it installed?")))
      end
  end
  end
  end.

(** No target re-enters ([resolve_bare_eq] in [NpmSpec]), so one unfolding of
    the recursion is the function. *)

Definition resolve_bare : list byte → path → ResolveMode → R path :=
  resolve_bare_with (λ specifier _ _, mret (Err (diag "" specifier))).
End Npm.
