(* ===== verification/NpmSpec.v ===== *)
(** * NpmSpec: what an exports map means

    The targets a value stands for, as a relation; the entry a subpath is
    looked up under; and that a bare specifier is never a target. *)

From S2P Require Import Prelude RustStd StdPath Tsconfig TsconfigSpec Loader Npm.

(** Induction over JSON values, through arrays and objects. *)

Section ValueInd.
Context (P : Value → Prop)
  (HNull : P Null) (HBool : ∀ b, P (VBool b)) (HNumber : ∀ t, P (VNumber t))
  (HString : ∀ s, P (VString s))
  (HArray : ∀ items, Forall P items → P (VArray items))
  (HObject : ∀ fields, Forall (λ kv, P kv.2) fields → P (VObject fields)).

Fixpoint value_ind (v : Value) : P v :=
  match v with
  | Null => HNull
  | VBool b => HBool b
  | VNumber t => HNumber t
  | VString s => HString s
  | VArray items =>
      HArray items
        ((fix go items : Forall P items :=
            match items with
            | [] => @Forall_nil_2 _ _
            | i :: items => @Forall_cons_2 _ _ i items (value_ind i) (go items)
            end) items)
  | VObject fields =>
      HObject fields
        ((fix go fields : Forall (λ kv, P kv.2) fields :=
            match fields with
            | [] => @Forall_nil_2 _ _
            | f :: fields => @Forall_cons_2 _ _ f fields (value_ind f.2) (go fields)
            end) fields)
  end.
End ValueInd.

(** ** Targets *)

Section Targets.
Context (conds : list (list byte)) (matched : list byte).

Definition applies (condition : list byte) : Prop := condition = bs "default" ∨ condition ∈ conds.

(** [Target v (Some t)]: [v] stands for the file [t]; [Target v None]: for no
    file.  Of an object's branches the first that applies decides, in the
    order they are declared; of an array's items the first that stands for a
    file. *)

Inductive Target : Value → option (list byte) → Prop :=
| T_file s : starts_with (replace_star s matched) (bs "./") = true →
    Target (VString s) (Some (replace_star s matched))
| T_not_relative s : starts_with (replace_star s matched) (bs "./") = false →
    Target (VString s) None
| T_branch skipped condition v rest r :
    Forall (λ b, ¬ applies b.1) skipped → applies condition → Target v r →
    Target (VObject (skipped ++ (condition, v) :: rest)) r
| T_no_branch branches : Forall (λ b, ¬ applies b.1) branches → Target (VObject branches) None
| T_item skipped v rest t :
    Forall (λ i, Target i None) skipped → Target v (Some t) →
    Target (VArray (skipped ++ v :: rest)) (Some t)
| T_no_item items : Forall (λ i, Target i None) items → Target (VArray items) None
| T_null : Target Null None
| T_bool b : Target (VBool b) None
| T_number text : Target (VNumber text) None.

#[local] Hint Constructors Target : core.

Abbreviation resolve v := (ok (resolve_target v matched conds)).

Lemma resolve_object branches :
  resolve (VObject branches) =
  match branches with
  | [] => None
  | (c, v) :: rest => if decide (applies c) then resolve v else resolve (VObject rest)
  end.
Proof. destruct branches as [|[c v] rest]; [done|]. unfold applies. cbn. by case_decide. Qed.

Lemma resolve_array items :
  resolve (VArray items) =
  match items with
  | [] => None
  | i :: rest => match resolve i with Some t => Some t | None => resolve (VArray rest) end
  end.
Proof. destruct items as [|i rest]; [done|]. cbn. by destruct (resolve_target i matched conds). Qed.

Lemma resolve_target_sound v : Target v (resolve v).
Proof.
  induction v as [|b|n|s|items IH|fields IH] using value_ind; try done; try by constructor.
  - cbn. destruct (starts_with _ _) eqn:E; by constructor.
  - assert (∀ skipped, Forall (λ i, Target i None) skipped →
              Target (VArray (skipped ++ items)) (resolve (VArray items))) as H; [|by apply (H [])].
    induction IH as [|i items Hi IH IH']; intros skipped Hs; rewrite resolve_array.
    + rewrite app_nil_r. by apply T_no_item.
    + destruct (resolve i) as [t|]; [by apply T_item|].
      rewrite cons_middle, app_assoc. apply IH', Forall_app. by rewrite Forall_singleton.
  - assert (∀ skipped, Forall (λ b, ¬ applies b.1) skipped →
              Target (VObject (skipped ++ fields)) (resolve (VObject fields))) as H; [|by apply (H [])].
    induction IH as [|[c v] fields Hf IH IH']; intros skipped Hs; rewrite resolve_object.
    + rewrite app_nil_r. by apply T_no_branch.
    + case_decide as Hc; [by apply T_branch|].
      rewrite cons_middle, app_assoc. apply IH', Forall_app. by rewrite Forall_singleton.
Qed.

Lemma resolve_object_skip skipped rest :
  Forall (λ b, ¬ applies b.1) skipped → resolve (VObject (skipped ++ rest)) = resolve (VObject rest).
Proof.
  induction 1 as [|[c v] skipped Hc Hs IH]; [done|].
  cbn [app]. rewrite resolve_object. by rewrite decide_False.
Qed.

Lemma resolve_array_skip skipped rest :
  Forall (λ i, resolve i = None) skipped → resolve (VArray (skipped ++ rest)) = resolve (VArray rest).
Proof.
  induction 1 as [|i skipped Hi Hs IH]; [done|]. cbn [app]. rewrite resolve_array. by rewrite Hi.
Qed.

Lemma resolve_target_complete v : ∀ r, Target v r → resolve v = r.
Proof.
  induction v as [|b|n|s|items IH|fields IH] using value_ind; intros r Hr; inversion Hr; subst; try done.
  - cbn [resolve_target]. by rewrite H0.
  - cbn [resolve_target]. by rewrite H0.
  - apply Forall_app in IH as [IHs [IHv _]%Forall_cons].
    rewrite resolve_array_skip, resolve_array, (IHv _ H1); [done|].
    rewrite Forall_forall in *. intros i Hi. apply IHs; auto.
  - rewrite <-(app_nil_r items). rewrite resolve_array_skip, resolve_array; [done|].
    rewrite Forall_forall in *. intros i Hi. apply IH; auto.
  - apply Forall_app in IH as [_ [IHv _]%Forall_cons].
    rewrite resolve_object_skip, resolve_object by done. rewrite decide_True by done. by apply IHv.
  - rewrite <-(app_nil_r fields). by rewrite resolve_object_skip, resolve_object.
Qed.

Lemma resolve_target_spec v r : resolve v = r ↔ Target v r.
Proof. split; [intros <-; apply resolve_target_sound|apply resolve_target_complete]. Qed.

Lemma target_relative v t : Target v (Some t) → starts_with t (bs "./") = true.
Proof.
  revert t. induction v as [|b|n|s|items IH|fields IH] using value_ind; intros t Ht; inversion Ht; subst.
  - done.
  - apply Forall_app in IH as [_ [IHv _]%Forall_cons]. by apply IHv.
  - apply Forall_app in IH as [_ [IHv _]%Forall_cons]. by apply IHv.
Qed.
End Targets.

(** ** The entry of a subpath *)

(** A value that is not a map of subpaths is the entry of "." alone; an exact
    key comes before every pattern; then the pattern [Chosen] chooses. *)

Inductive SubpathEntry (exports : Value) (subpath : list byte) : Value → list byte → Prop :=
| E_sugar : as_map exports = None → subpath = bs "." → SubpathEntry exports subpath exports []
| E_exact before v after :
    as_map exports = Some (before ++ (subpath, v) :: after) → subpath ∉ before.*1 →
    SubpathEntry exports subpath v []
| E_pattern map prefix v matched :
    as_map exports = Some map → subpath ∉ map.*1 → Chosen map subpath prefix v matched →
    SubpathEntry exports subpath v matched.

Lemma map_get_Some k fields v :
  map_get k fields = Some v ↔ ∃ before after, fields = before ++ (k, v) :: after ∧ (k ∉ before.*1).
Proof.
  induction fields as [|[k' v'] fields IH]; cbn.
  - split; [done|]. intros (b & a & H & _). by destruct b.
  - case_decide as E.
    + subst. split.
      * intros [= ->]. exists [], fields. split; [done|set_solver].
      * intros ([|[k2 v2] b] & a & Heq & Hb); cbn in Heq; simplify_eq; [done|set_solver].
    + rewrite IH. split.
      * intros (b & a & -> & H). exists ((k', v') :: b), a. split; [done|]. cbn. set_solver.
      * intros ([|[k2 v2] b] & a & Heq & Hb); cbn in Heq; simplify_eq. exists b, a. set_solver.
Qed.

Lemma map_get_None k fields : map_get k fields = None ↔ k ∉ fields.*1.
Proof.
  induction fields as [|[k' v'] fields IH]; cbn; [set_solver|]. case_decide; [set_solver|].
  rewrite IH. set_solver.
Qed.

Lemma exports_resolve_entry exports subpath conds t :
  exports_resolve exports subpath conds = Ok t ↔
  ∃ v matched, SubpathEntry exports subpath v matched ∧ resolve_target v matched conds = Ok t.
Proof.
  unfold exports_resolve. destruct (as_map exports) as [map|] eqn:Em.
  - destruct (map_get subpath map) as [v|] eqn:Eg.
    + split.
      * intros H. exists v, []. split; [|done]. apply map_get_Some in Eg as (b & a & -> & Hb).
        by eapply E_exact.
      * intros (v' & m & HE & H). inversion HE; subst; [congruence| |].
        -- rewrite Em in H0. simplify_eq. replace v with v'; [done|].
           apply (inj Some). rewrite <-Eg. symmetry. apply map_get_Some. eauto.
        -- rewrite Em in H0. simplify_eq. apply map_get_None in H1. congruence.
    + pose proof (best_pattern_Some (A := Value) subpath map) as HB. split.
      * destruct (best_pattern subpath map) as [[[len v] m]|] eqn:Eb; [|done]. intros H.
        exists v, m. split; [|done]. destruct (proj1 (HB v m)) as [p Hp]; [eauto|].
        eapply E_pattern; [done| |done]. by apply map_get_None.
      * intros (v & m & HE & H). inversion HE; subst; [congruence| |].
        -- rewrite Em in H0. simplify_eq. exfalso. apply map_get_None in Eg.
           rewrite fmap_app in Eg. set_solver.
        -- rewrite Em in H0. simplify_eq. destruct (proj2 (HB v m)) as [len ->]; [eauto|done].
  - split.
    + case_decide as E; [|done]. intros H. exists exports, []. split; [by constructor|done].
    + intros (v & m & HE & H). inversion HE; subst; [|congruence..]. by rewrite decide_True.
Qed.

Lemma ok_Some {E A} (r : result E A) a : ok r = Some a ↔ r = Ok a.
Proof. destruct r; cbn; naive_solver. Qed.

(** C19: an exports (or imports) map gives a subpath the file [t] exactly when
    the subpath has an entry (itself, then the pattern with the longest
    prefix, the first declared of equals) whose value stands for [t] under
    the conditions: the first branch that applies, in declaration order,
    decides an object, the first item that stands for a file an array, and
    null and anything that is not a relative path stand for nothing.  So
    every file a map gives is relative to its package. *)
Theorem exports_resolve_spec exports subpath conds t :
  (exports_resolve exports subpath conds = Ok t ↔
   ∃ v matched, SubpathEntry exports subpath v matched ∧ Target conds matched v (Some t)) ∧
  (exports_resolve exports subpath conds = Ok t → starts_with t (bs "./") = true).
Proof.
  assert (exports_resolve exports subpath conds = Ok t ↔
   ∃ v matched, SubpathEntry exports subpath v matched ∧ Target conds matched v (Some t)) as H.
  { rewrite exports_resolve_entry. by setoid_rewrite <-resolve_target_spec;
      setoid_rewrite ok_Some. }
  split; [done|]. rewrite H. intros (v & m & _ & HT). by eapply target_relative.
Qed.

Lemma exports_resolve_spec_witness :
  let exports := VObject [(bs "./a", Null); (bs "./*", VObject [(bs "browser", VString (bs "./b.js"));
                   (bs "import", VArray [VString (bs "x"); VString (bs "./src/*.js")])])] in
  exports_resolve exports (bs "./m/n") [bs "import"] = Ok (bs "./src/m/n.js") ∧
  ∃ v matched, SubpathEntry exports (bs "./m/n") v matched ∧ Target [bs "import"] matched v (Some (bs "./src/m/n.js")).
Proof.
  intros exports. split; [vm_compute; reflexivity|].
  apply (proj1 (exports_resolve_spec exports (bs "./m/n") [bs "import"] (bs "./src/m/n.js"))).
  vm_compute. reflexivity.
Defined.

(** ** No target is a bare specifier

    So [resolve_subpath_import] never re-enters [resolve_bare], and the
    function is what its source's recursion unfolds to. *)

Lemma exports_resolve_strip exports subpath conds t :
  exports_resolve exports subpath conds = Ok t → ∃ rel, strip_pre (bs "./") t = Some rel.
Proof.
  intros (v & m & _ & H)%exports_resolve_entry. apply ok_Some, resolve_target_spec, target_relative in H.
  apply starts_with_prefix in H as [rel ->]. exists rel. apply strip_pre_app.
Qed.

Section NoReentry.
Context {HS : Serde} (fs : Fs).

Lemma resolve_subpath_import_again k k' specifier referrer m c :
  resolve_subpath_import fs k specifier referrer m c = resolve_subpath_import fs k' specifier referrer m c.
Proof.
  unfold resolve_subpath_import, mbind, M_bind.
  destruct (find_owning_package fs referrer c) as [[[pkg_dir manifest]|] c']; [|done].
  destruct (value_get _ manifest) as [imports|]; [|done].
  destruct (exports_resolve _ _ _) as [t|e] eqn:E; [|done].
  apply exports_resolve_strip in E as [rel ->]. done.
Qed.

Lemma resolve_bare_eq specifier referrer m c :
  resolve_bare fs specifier referrer m c = resolve_bare_with fs (resolve_bare fs) specifier referrer m c.
Proof.
  unfold resolve_bare at 1, resolve_bare_with. destruct (starts_with specifier (bs "#")); [|done].
  apply resolve_subpath_import_again.
Qed.
End NoReentry.
