(* ===== verification/Resolver.v ===== *)
(** * Resolver: tsconfig files and the two resolvers

    The file-reading half of [oam_loader/src/tsconfig.rs], [resolver.rs], the
    warning queue of [warnings.rs], and [npm.rs]'s [resolve_require]. *)

From S2P Require Import Prelude RustStd StdPath Tsconfig Loader Npm.

(** ** Warnings *)

Definition warn_once (tsconfig : path) (code : string) : M unit :=
  modify (λ c,
    if decide ((bs code, path_key tsconfig) ∈ warned c) then c
    else set_warnings ({[(bs code, path_key tsconfig)]} ∪ warned c)
           (warnings c ++ [(bs code, tsconfig)]) c).

Definition take_warnings : M (list (list byte * path)) :=
  c ← get; _ ← modify (λ c, set_warnings (warned c) [] c); mret (warnings c).

(** A loop with an accumulator. *)

Fixpoint foldm {A B} (f : B → A → M B) (l : list A) (b : B) : M B :=
  match l with
  | [] => mret b
  | a :: l => b ← f b a; foldm f l b
  end.

(** [value.as_array()], its strings kept. *)

Definition substitutions (v : Value) : list (list byte) :=
  match v with
  | VArray items => omap as_str items
  | _ => []
  end.

(** What a tsconfig in [dir] declares itself. *)

Definition own_options (dir : path) (raw : RawTsconfig) : TsconfigInfo :=
  {| paths := (λ ps, {| base_dir := dir; patterns := prod_map id substitutions <$> ps |}) <$> raw_paths raw;
     jsx := raw_jsx raw; jsx_import_source := raw_jsx_import_source raw;
     jsx_factory := raw_jsx_factory raw; jsx_fragment_factory := raw_jsx_fragment_factory raw |}.

Definition extends_is_path (extends : list byte) : bool :=
  starts_with extends (bs "./") || starts_with extends (bs "../") || is_absolute extends.

Section Resolver.
Context {HS : Serde} (fs : Fs).

(** ** The extends chain

    [levels] is [9 - depth]: a chain is followed to depth eight. *)

Definition extended_file (dir extends : path) : path :=
  let parent := path_join dir extends in
  if is_file fs parent then parent else parent ++ bs ".json".

Fixpoint load_chain (levels : nat) (tsconfig : path) : M (option TsconfigInfo) :=
  match levels with
  | O => _ ← warn_once tsconfig "OAM-MOD0009"; mret None
  | S levels =>
      match read_to_string fs tsconfig with
      | None => _ ← warn_once tsconfig "OAM-MOD0009"; mret None
      | Some raw =>
          match tsconfig_from_str (strip_jsonc (trim_bom raw)) with
          | None => _ ← warn_once tsconfig "OAM-MOD0009"; mret None
          | Some parsed =>
              match parent tsconfig with
              | None => mret None
              | Some dir =>
                  let own := own_options dir parsed in
                  if is_complete own then mret (Some own)
                  else
                    inherited ← foldm (λ inherited extends,
                      base ← (if extends_is_path extends
                              then load_chain levels (extended_file dir extends)
                              else _ ← warn_once tsconfig "OAM-MOD0008"; mret None);
                      mret (match base with
                            | Some base => Some (merged_over base inherited)
                            | None => inherited
                            end)) (raw_extends parsed) None;
                    mret (Some (merged_over own inherited))
              end
          end
      end
  end.

Definition MAX_CHAIN : nat := 9.

(** ** Discovery *)

Definition backfill_tsconfig_dirs (gen : Z) (visited : list path) (found : option path) : M unit :=
  modify (λ c,
    if decide (generation c ≠ gen) then c
    else set_dirs (generation c)
           (fold_left (λ m d, <[path_key d := found]> m) visited (tsconfig_dirs c)) c).

(** The walk, and the directories it looked at. *)

Fixpoint tsconfig_walk (dirs visited : list path) : M (option path * list path) :=
  match dirs with
  | [] => mret (None, visited)
  | dir :: dirs =>
      c ← get;
      match tsconfig_dirs c !! path_key dir with
      | Some hit => mret (hit, visited)
      | None =>
          let candidate := path_join dir (bs "tsconfig.json") in
          if is_file fs candidate then mret (Some candidate, visited ++ [dir])
          else tsconfig_walk dirs (visited ++ [dir])
      end
  end.

Definition nearest_tsconfig_from_dir (start : path) : M (option path) :=
  c ← get;
  '(found, visited) ← tsconfig_walk (ancestors start) [];
  _ ← backfill_tsconfig_dirs (generation c) visited found;
  mret found.

Definition tsconfig_start (referrer : path) : option path :=
  if is_dir fs referrer then Some referrer else parent referrer.

Definition find_tsconfig_with (referrer : path) : M (option path) :=
  match tsconfig_start referrer with
  | Some start => nearest_tsconfig_from_dir start
  | None => mret None
  end.

Definition info_for_with (referrer : path) : M (option TsconfigInfo) :=
  if in_node_modules referrer then mret None
  else
    tsconfig ← find_tsconfig_with referrer;
    match tsconfig with
    | None => mret None
    | Some tsconfig =>
        c ← get;
        match tsconfigs c !! path_key tsconfig with
        | Some cached => mret cached
        | None =>
            result ← load_chain MAX_CHAIN tsconfig;
            _ ← modify (λ c, set_tsconfigs (<[path_key tsconfig := result]> (tsconfigs c)) c);
            mret result
        end
    end.

Definition load_for_with (referrer : path) : M (option PathsConfig) :=
  info ← info_for_with referrer; mret (info ← info; paths info).

Definition jsx_settings_for (referrer : path) : M JsxSettings :=
  info ← info_for_with referrer; mret (jsx_settings_of (default TsconfigInfo_default info)).

(** ** Specifiers *)

Definition c0_or_space (c : byte) : bool := (b2z c <=? 32)%Z.

Fixpoint trim_c0 (l : list byte) : list byte :=
  match l with
  | c :: l' => if c0_or_space c then trim_c0 l' else l
  | [] => []
  end.

Definition url_specifier_input (specifier : list byte) : list byte :=
  let leading_trimmed := trim_c0 specifier in
  let url :=
    if is_file_url leading_trimmed then Some leading_trimmed
    else if starts_with specifier (bs "./") || starts_with specifier (bs "../")
            || starts_with specifier (bs "/") then Some specifier
    else None in
  match url with
  | None => specifier
  | Some url =>
      filter (λ c, c ∉ [x09; x0a; x0d]) (reverse (trim_c0 (reverse url)))
  end.

Definition unresolved (specifier referrer : list byte) (candidates : list path) : Diagnostic :=
  diag "OAM-MOD0001" (bs "cannot resolve " ++ quoted specifier ++ bs " from " ++ display referrer
    ++ bs " (tried " ++ join (bs ", ") (display <$> candidates) ++ bs ")").

(** The bare half of both resolvers: the tsconfig's paths, then the packages. *)

Definition consult (failure : Diagnostic) : Diagnostic :=
  if decide (code failure = bs "OAM-MOD0002")
  then push_str failure (bs " (tsconfig paths were consulted; no pattern produced a file)")
  else failure.

Definition bare_or_paths (probe_raw : path → M (option path)) (specifier referrer : list byte)
  (m : ResolveMode) : R path :=
  if is_builtin_specifier fs specifier then resolve_bare fs specifier referrer m
  else
    config ← load_for_with referrer;
    match config with
    | None => resolve_bare fs specifier referrer m
    | Some config =>
        found ← first_some probe_raw (match_specifier config specifier);
        match found with
        | Some found => mret (Ok found)
        | None => r ← resolve_bare fs specifier referrer m; mret (map_err consult r)
        end
    end.

(** ** [require] *)

Definition require_base (referrer : path) : path := default (bs ".") (parent referrer).

Definition require_missing (specifier referrer : list byte) : Diagnostic :=
  diag "OAM-MOD0001" (bs "Cannot find module " ++ quoted specifier ++ bs " required from "
                      ++ display referrer).

Definition resolve_require_inner (specifier referrer : list byte) : R path :=
  let missing := require_missing specifier referrer in
  let base := require_base referrer in
  if decide (specifier = bs ".") then or_fail (probe_require fs base) missing
  else if decide (specifier = bs "..") then
    or_fail (probe_require fs (default (path_join base (bs "..")) (parent base))) missing
  else if starts_with specifier (bs "./") || starts_with specifier (bs "../")
          || starts_with specifier (bs "/")
  then or_fail (probe_require fs (path_join base specifier)) missing
  else bare_or_paths (probe fs Require) specifier referrer Require.

Definition resolve_require (specifier referrer : list byte) : R path :=
  r ← resolve_require_inner specifier referrer; mret (finalize_resolved fs <$> r).

(** ** [import]

    On a POSIX build a specifier that starts with a slash is absolute, so the
    Windows branch for a drive-relative one is not taken. *)

Definition probed (specifier referrer : list byte) (raw : path) : R path :=
  '(found, candidates) ← probe_candidates fs raw;
  mret (ok_or found (unresolved specifier referrer candidates)).

Definition resolve_import_inner (spec referrer : list byte) : R path :=
  let specifier := url_specifier_input spec in
  if decide (specifier = [] ∨ specifier = bs "." ∨ specifier = bs ".." ∨ BACKSLASH ∈ specifier) then
    mret (Err (diag "OAM-MOD0004" (bs "invalid module specifier " ++ quoted specifier ++ bs " in "
            ++ display referrer ++ bs ": use './name' / '../name' with forward slashes")))
  else if is_file_url specifier then
    match file_url_to_path specifier with
    | Err why => mret (Err (diag "OAM-MOD0002" (bs "cannot resolve " ++ quoted specifier ++ bs " in "
                              ++ display referrer ++ bs ": " ++ why)))
    | Ok raw => probed specifier referrer raw
    end
  else
    let is_relative := starts_with specifier (bs "./") || starts_with specifier (bs "../") in
    if negb is_relative && negb (starts_with specifier (bs "/")) then
      bare_or_paths (λ raw, '(found, _) ← probe_candidates fs raw; mret found) specifier referrer Import
    else if is_relative then probed specifier referrer (path_join (require_base referrer) specifier)
    else probed specifier referrer specifier.

Definition resolve_import (specifier referrer : list byte) : R path :=
  r ← resolve_import_inner specifier referrer; mret (finalize_resolved fs <$> r).
End Resolver.
