(* ===== verification/ResolverSpec.v ===== *)
(** * ResolverSpec: resolution is a function of the file system

    The caches never change an answer; an answer is a builtin or a file; a
    failure has one of the documented codes. *)

From S2P Require Import Prelude RustStd StdPath Tsconfig TsconfigSpec Loader Npm NpmSpec Resolver.

Create HintDb loader.

(** ** What a computation answers, whatever the caches *)

Definition yields {A} (m : M A) (Q : A → Prop) : Prop := ∀ c, Q (m c).1.

Lemma yields_ret {A} (a : A) Q : Q a → yields (mret a) Q.
Proof. by intros H c. Qed.

Lemma yields_bind {A B} (m : M A) (k : A → M B) P Q :
  yields m P → (∀ a, P a → yields (k a) Q) → yields (m ≫= k) Q.
Proof.
  intros Hm Hk c. unfold mbind, M_bind. specialize (Hm c). destruct (m c) as [a c']. by apply Hk.
Qed.

Lemma yields_any {A} (m : M A) : yields m (λ _, True).
Proof. done. Qed.

Lemma yields_bind_any {A B} (m : M A) (k : A → M B) Q : (∀ a, yields (k a) Q) → yields (m ≫= k) Q.
Proof. intros H. eapply yields_bind; [apply yields_any|auto]. Qed.

Lemma yields_first_some {A B} (f : A → M (option B)) l (Q : B → Prop) :
  (∀ a, a ∈ l → yields (f a) (λ r, ∀ b, r = Some b → Q b)) →
  yields (first_some f l) (λ r, ∀ b, r = Some b → Q b).
Proof.
  induction l as [|a l IH]; intros H; cbn [first_some]; [by apply yields_ret|].
  eapply yields_bind; [apply H; left|]. intros [b|] Hb.
  - apply yields_ret. intros ? [= <-]. by apply Hb.
  - apply IH. intros a' Ha. apply H. by right.
Qed.

#[export] Hint Resolve yields_ret yields_any : loader.

(** ** Answers are builtins or files *)

Definition Virtual (p : path) : Prop := is_virtual p = true.

Definition import_codes : list (list byte) :=
  bs <$> ["OAM-MOD0001"; "OAM-MOD0002"; "OAM-MOD0004"; "OAM-MOD0006"; "OAM-MOD0007"]%string.

Definition require_codes : list (list byte) :=
  bs <$> ["OAM-MOD0001"; "OAM-MOD0002"; "OAM-MOD0006"; "OAM-MOD0007"]%string.

(** A real path of a file, or its absolute path, is a file. *)

Class FileLaws (fs : Fs) : Prop := {
  absolute_file p q : is_file fs p = true → absolute (cwd fs) p = Some q → is_file fs q = true;
  canonicalize_file p q : is_file fs p = true → canonicalize fs p = Some q → is_file fs q = true
}.

(** A [&str]. *)

Definition utf8 (s : list byte) : Prop := from_utf8 s = Some s.

Lemma is_virtual_node s : utf8 s → Virtual (bs "node:" ++ s).
Proof.
  unfold utf8, from_utf8, Virtual, is_virtual, from_utf8. intros H.
  destruct (utf8_valid (length s) s) eqn:E; [|done].
  replace (utf8_valid _ (bs "node:" ++ s)) with (utf8_valid (length s) s) by done. rewrite E. done.
Qed.

(** An internal module's name is one. *)

Definition internal_utf8 (s : list byte) : Prop := starts_with s (bs "internal/") = true → utf8 s.

Lemma trim_c0_snoc l c : c0_or_space c = false → ∃ l', trim_c0 (l ++ [c]) = l' ++ [c].
Proof.
  intros Hc. induction l as [|b l IH]; cbn [app trim_c0].
  - rewrite Hc. by exists [].
  - destruct (c0_or_space b); [done|]. by exists (b :: l).
Qed.

(** Cleaning a URL keeps its first character. *)

Lemma url_clean_head c l :
  c0_or_space c = false →
  head (filter (λ c, c ∉ [x09; x0a; x0d]) (reverse (trim_c0 (reverse (c :: l))))) = Some c.
Proof.
  intros Hc. rewrite reverse_cons. destruct (trim_c0_snoc (reverse l) c Hc) as [l' ->].
  rewrite reverse_snoc, filter_cons_True; [done|].
  intros Hin. rewrite !elem_of_cons, elem_of_nil in Hin.
  destruct Hin as [->|[->|[->|[]]]]; discriminate.
Qed.

Lemma url_specifier_internal s : utf8 s → internal_utf8 (url_specifier_input s).
Proof.
  intros Hu. unfold url_specifier_input. cbv zeta.
  destruct (is_file_url (trim_c0 s)) eqn:Ef.
  - destruct (trim_c0 s) as [|c l] eqn:Es; [done|]. intros Hi. exfalso.
    apply andb_true_iff in Ef as [_ Ef].
    assert (c = "f"%byte ∨ c = "F"%byte) as Hc.
    { destruct l as [|? [|? [|? [|? l]]]]; apply bool_decide_eq_true in Ef; cbn in Ef;
        simplify_eq; clear -H; by destruct c; auto. }
    pose proof (url_clean_head c l) as Hh. apply starts_with_prefix in Hi as [r Hi]. rewrite Hi in Hh.
    destruct Hc as [-> | ->]; by discriminate (Hh eq_refl).
  - destruct (_ || _) eqn:Er; [|by intros _]. intros Hi. exfalso.
    assert (∃ c l, s = c :: l ∧ (c = "."%byte ∨ c = "/"%byte)) as (c & l & -> & Hc).
    { rewrite !orb_true_iff, !starts_with_prefix in Er.
      destruct Er as [[[r ->]|[r ->]]|[r ->]]; cbn; eauto. }
    pose proof (url_clean_head c l) as Hh. apply starts_with_prefix in Hi as [r Hi]. rewrite Hi in Hh.
    destruct Hc as [-> | ->]; by discriminate (Hh eq_refl).
Qed.

Section Answers.
Context {HS : Serde} (fs : Fs).

Definition is_answer (p : path) : Prop := Virtual p ∨ is_file fs p = true.

Definition answers (codes : list (list byte)) (r : result Diagnostic path) : Prop :=
  match r with
  | Ok p => is_answer p
  | Err d => code d ∈ codes
  end.

Lemma answers_mono codes codes' r : codes ⊆ codes' → answers codes r → answers codes' r.
Proof. destruct r; cbn; auto. Qed.

Lemma existing_Some p q : existing fs p = Some q → is_answer q.
Proof. unfold existing. destruct (is_file fs p) eqn:E; [|done]. intros [= <-]. by right. Qed.

Lemma first_existing_Some ps q : first_existing fs ps = Some q → is_answer q.
Proof.
  induction ps as [|p ps IH]; cbn; [done|]. destruct (is_file fs p) eqn:E; [|done].
  intros [= <-]. by right.
Qed.

Definition finds (r : option path) : Prop := ∀ p, r = Some p → is_answer p.

Lemma finds_first_existing ps : finds (first_existing fs ps).
Proof. intros p. apply first_existing_Some. Qed.

Lemma finds_or_else a b : finds a → finds b → finds (or_else a b).
Proof. by destruct a. Qed.

Lemma finds_None : finds None.
Proof. by intros p. Qed.

#[local] Hint Resolve finds_first_existing finds_or_else finds_None : loader.

Lemma answers_ok_or codes o d : finds o → code d ∈ codes → answers codes (ok_or o d).
Proof. destruct o; cbn; auto. Qed.

Lemma yields_or_fail codes (m : M (option path)) d :
  yields m finds → code d ∈ codes → yields (or_fail m d) (answers codes).
Proof.
  intros Hm Hd. eapply yields_bind; [done|]. intros o Ho. apply yields_ret. by apply answers_ok_or.
Qed.

Lemma probe_require_finds raw : yields (probe_require fs raw) finds.
Proof.
  unfold probe_require. destruct (as_file fs raw) as [p|] eqn:E.
  - apply yields_ret. rewrite <-E. apply finds_first_existing.
  - destruct (is_dir fs raw); [|auto with loader]. apply yields_bind_any. intros mf. apply yields_ret.
    apply finds_or_else; [|apply finds_first_existing].
    destruct (m ← mf; _) as [main|]; [|apply finds_None]. apply finds_or_else; apply finds_first_existing.
Qed.

Lemma probe_finds m raw : yields (probe fs m raw) finds.
Proof.
  destruct m; [|apply probe_require_finds]. apply yields_ret, finds_first_existing.
Qed.

Lemma legacy_entry_finds dir mf m fields : yields (legacy_entry fs dir mf m fields) finds.
Proof.
  induction fields as [|f fields IH]; cbn [legacy_entry]; [auto with loader|].
  destruct (v ← _; as_str v) as [entry|]; [|done].
  eapply yields_bind; [apply probe_finds|]. intros [p|] Hp; [|done].
  apply yields_bind_any. intros [|]; [done|]. by apply yields_ret.
Qed.

(** Not one of the declaration files. *)

Definition runtime (r : result Diagnostic path) : Prop :=
  match r with
  | Ok p => is_declaration_target p = false
  | Err _ => True
  end.

Lemma package_entry_answers dir package subpath specifier m :
  yields (package_entry fs dir package subpath specifier m) (answers require_codes).
Proof.
  apply yields_bind_any. intros mf. cbv zeta. destruct (value_get _ _) as [exports|].
  - apply yields_ret. destruct (exports_resolve _ _ _) as [t|[|t]]; [|set_solver..].
    cbn [map_err mbind result_bind]. apply answers_ok_or; [|set_solver]. intros q. apply existing_Some.
  - case_decide; [apply yields_or_fail; [apply probe_finds|set_solver]|].
    eapply yields_bind; [apply legacy_entry_finds|]. intros [p|] Hp.
    + apply yields_ret. by apply Hp.
    + apply yields_or_fail; [apply probe_finds|set_solver].
Qed.

Lemma resolve_in_package_answers dir package subpath specifier m :
  yields (resolve_in_package fs dir package subpath specifier m)
    (λ r, answers require_codes r ∧ runtime r).
Proof.
  eapply yields_bind; [apply package_entry_answers|]. intros [p|d] H; apply yields_ret; [|done].
  destruct (is_declaration_target p) eqn:E; cbn; [split; [set_solver|done]|done].
Qed.

Lemma resolve_subpath_import_answers k specifier referrer m :
  yields (resolve_subpath_import fs k specifier referrer m) (answers require_codes).
Proof.
  apply yields_bind_any. intros [[dir mf]|]; [|apply yields_ret; set_solver].
  destruct (value_get _ mf) as [imports|]; [|apply yields_ret; set_solver].
  destruct (exports_resolve _ _ _) as [t|[|t]] eqn:E; [|apply yields_ret; set_solver..].
  apply exports_resolve_strip in E as [rel ->].
  apply yields_ret, answers_ok_or; [|set_solver]. intros q. apply existing_Some.
Qed.

Lemma node_module_answers specifier : answers require_codes (node_module specifier).
Proof.
  unfold node_module. case_decide as E; [|destruct (_ || _); set_solver]. left.
  revert E. generalize (without_node specifier). intros name E.
  assert (Forall (λ n, Virtual (bs "node:" ++ n)) SUPPORTED_BUILTINS) as HF.
  { apply (bool_decide_unpack _). vm_compute. exact I. }
  rewrite Forall_forall in HF. by apply HF.
Qed.

Lemma oam_module_answers specifier rest : answers require_codes (oam_module specifier rest).
Proof.
  unfold oam_module. case_decide as E; [|set_solver]. left.
  assert (Forall (λ n, Virtual (bs "oam:" ++ n)) [bs "test"; bs "permissions"; bs "ai"; bs "mcp"]) as HF.
  { apply (bool_decide_unpack _). vm_compute. exact I. }
  rewrite Forall_forall in HF. by apply HF.
Qed.

Lemma resolve_bare_answers specifier referrer m :
  internal_utf8 specifier → yields (resolve_bare fs specifier referrer m) (answers require_codes).
Proof.
  intros Hu. unfold resolve_bare, resolve_bare_with.
  destruct (starts_with specifier (bs "#")); [apply resolve_subpath_import_answers|].
  unfold shadowed_builtin. case_decide; [apply yields_ret; by left|].
  destruct (strip_pre _ _); [apply yields_ret, oam_module_answers|].
  destruct (is_exposed_internal fs specifier) eqn:Ei.
  { apply andb_true_iff in Ei as [Ei _]. apply yields_ret. left. apply is_virtual_node. by apply Hu. }
  destruct (_ || _); [apply yields_ret, node_module_answers|].
  destruct (split_specifier specifier) as [[package subpath]|]; [|apply yields_ret; set_solver].
  destruct (package_walk _ _ _) as [dir|n]; [|apply yields_ret; set_solver].
  intros c. by apply resolve_in_package_answers.
Qed.

(** The tsconfig's paths and the probes. *)

Lemma bare_or_paths_answers probe_raw specifier referrer m :
  internal_utf8 specifier → (∀ raw, yields (probe_raw raw) (finds)) →
  yields (bare_or_paths fs probe_raw specifier referrer m) (answers require_codes).
Proof.
  intros Hu Hp. unfold bare_or_paths. destruct (is_builtin_specifier _ _).
  { by apply resolve_bare_answers. }
  apply yields_bind_any. intros [config|]; [|by apply resolve_bare_answers].
  eapply yields_bind; [apply yields_first_some; intros raw _; apply Hp|].
  intros [p|] Hf; [apply yields_ret; by apply Hf|].
  eapply yields_bind; [by apply resolve_bare_answers|].
  intros [q|d] H; apply yields_ret; [done|]. cbn in *. unfold consult. by case_decide.
Qed.

Lemma resolve_require_inner_answers specifier referrer :
  utf8 specifier → yields (resolve_require_inner fs specifier referrer) (answers require_codes).
Proof.
  intros Hu. unfold resolve_require_inner.
  do 2 (case_decide; [apply yields_or_fail; [apply probe_require_finds|set_solver]|]).
  destruct (_ || _); [apply yields_or_fail; [apply probe_require_finds|set_solver]|].
  apply bare_or_paths_answers; [by intros _|]. intros raw. apply probe_finds.
Qed.

Context {HF : FileLaws fs}.

Lemma is_file_cached_true p : yields (is_file_cached fs p) (λ b, b = true → is_file fs p = true).
Proof.
  unfold is_file_cached. apply yields_bind_any. intros c. case_decide; [by apply yields_ret|].
  destruct (is_file fs p); by apply yields_bind_any.
Qed.

Lemma probe_candidates_finds raw : yields (probe_candidates fs raw) (λ r, finds r.1).
Proof.
  unfold probe_candidates. cbv zeta. eapply yields_bind.
  - apply (yields_first_some _ _ (λ p, is_file fs p = true)). intros p _.
    eapply yields_bind; [apply is_file_cached_true|]. intros [|] Hb; apply yields_ret; [|done].
    intros ? [= <-]. by apply Hb.
  - intros [p|] Hp; apply yields_ret; [|done]. intros q [= <-]. right.
    specialize (Hp p eq_refl). destruct (absolute (cwd fs) p) as [q|] eqn:E; [|done].
    by eapply absolute_file.
Qed.

Lemma probed_answers specifier referrer raw :
  yields (probed fs specifier referrer raw) (answers import_codes).
Proof.
  eapply yields_bind; [apply probe_candidates_finds|]. intros [found cs] H.
  apply yields_ret, answers_ok_or; [done|set_solver].
Qed.

Lemma resolve_import_inner_answers specifier referrer :
  utf8 specifier →
  yields (resolve_import_inner fs specifier referrer) (answers import_codes).
Proof.
  intros Hu. unfold resolve_import_inner. cbv zeta. case_decide; [apply yields_ret; set_solver|].
  destruct (is_file_url _).
  { destruct (file_url_to_path _); [apply probed_answers|apply yields_ret; set_solver]. }
  destruct (negb _ && negb _).
  - intros c. eapply answers_mono; [|apply bare_or_paths_answers; [by apply url_specifier_internal|]].
    + by apply (bool_decide_unpack _).
    + intros raw. eapply yields_bind; [apply probe_candidates_finds|].
      intros [found cs] Hf. by apply yields_ret.
  - destruct (_ || _); apply probed_answers.
Qed.

Lemma finalize_answers codes r : answers codes r → answers codes (finalize_resolved fs <$> r).
Proof.
  destruct r as [p|d]; [|done]. cbn. unfold finalize_resolved. intros [H|H].
  - left. by rewrite H.
  - destruct (is_virtual p) eqn:E; [by left|]. right.
    destruct (canonicalize fs p) as [q|] eqn:Eq; [|done]. by eapply canonicalize_file.
Qed.

Lemma yields_finalized codes (m : R path) :
  yields m (answers codes) → yields (r ← m; mret (finalize_resolved fs <$> r)) (answers codes).
Proof.
  intros H. eapply yields_bind; [done|]. intros r Hr. by apply yields_ret, finalize_answers.
Qed.
End Answers.

(** C20: whatever the caches hold, an import or a [require] of a specifier that
    succeeds gives a builtin's virtual path or a file that exists, and one
    that fails has one of the documented codes; what a package gives is never
    a declaration file; and resolving a bare specifier satisfies the
    recursion its source is written as. *)
Theorem resolution_answers {HS : Serde} fs {HF : FileLaws fs} specifier referrer c :
  utf8 specifier →
  answers fs import_codes (resolve_import fs specifier referrer c).1 ∧
  answers fs require_codes (resolve_require fs specifier referrer c).1 ∧
  (∀ dir package subpath m,
     runtime (resolve_in_package fs dir package subpath specifier m c).1) ∧
  (∀ m, resolve_bare fs specifier referrer m c
        = resolve_bare_with fs (resolve_bare fs) specifier referrer m c).
Proof.
  intros Hu. split; [|split; [|split]].
  - by apply yields_finalized, resolve_import_inner_answers.
  - by apply yields_finalized, resolve_require_inner_answers.
  - intros dir package subpath m. by apply resolve_in_package_answers.
  - intros m. apply resolve_bare_eq.
Qed.

(** A directory with one module, and a reader of manifests. *)

#[local] Instance one_serde : Serde :=
  {| json_from_str := λ _, None; tsconfig_from_str := λ _, None |}.

Definition one_fs : Fs :=
  {| is_file := λ p, bool_decide (p ∈ [bs "/w/a.js"; bs "/w/./a.js"]);
     is_dir := λ p, bool_decide (p = bs "/w"); read_to_string := λ _, None;
     canonicalize := λ p, Some (bs "/w/a.js"); cwd := None; expose_internals := true |}.

#[local] Instance one_laws : FileLaws one_fs.
Proof.
  split; intros p q H%bool_decide_eq_true E; [|by injection E as <-].
  rewrite !elem_of_cons, elem_of_nil in H. destruct H as [->|[->|[]]]; vm_compute in E; by injection E as <-.
Qed.

Lemma resolution_answers_witness :
  (resolve_import one_fs (bs "./a.js") (bs "/w/m.js") Caches_empty).1 = Ok (bs "/w/a.js") ∧
  code <$> (match (resolve_require one_fs (bs "./b.js") (bs "/w/m.js") Caches_empty).1 with
            | Ok _ => None
            | Err d => Some d
            end) = Some (bs "OAM-MOD0001") ∧
  answers one_fs import_codes (resolve_import one_fs (bs "./a.js") (bs "/w/m.js") Caches_empty).1.
Proof.
  split; [vm_compute; reflexivity|]. split; [vm_compute; reflexivity|].
  exact (proj1 (resolution_answers one_fs (bs "./a.js") (bs "/w/m.js") Caches_empty
                  ltac:(vm_compute; reflexivity))).
Defined.
