(* ===== verification/CacheSpec.v ===== *)
(** * CacheSpec: the loader's caches change no answer

    On a file system that does not change, every import and every [require]
    answers as it would from empty caches, in any order and with the caches
    cleared in between.  The one thing the caches can be wrong about is a path
    that ends in a slash, whose entry is also that of the file without it. *)

From S2P Require Import Prelude RustStd StdPath Tsconfig Loader Npm Resolver.

(** Two spellings of a path that end in a name are one file. *)

Class SpellingLaws (fs : Fs) : Prop := {
  same_file p q : plain p = true → plain q = true → path_key p = path_key q → is_file fs p = is_file fs q;
  same_text p q :
    plain p = true → plain q = true → path_key p = path_key q → read_to_string fs p = read_to_string fs q
}.

Section Caches.
Context {HS : Serde} (fs : Fs) {HL : SpellingLaws fs}.

(** ** Coherent caches *)

(** The nearest tsconfig of some directories, and the options of one. *)

Fixpoint nearest (dirs : list path) : option path :=
  match dirs with
  | [] => None
  | dir :: dirs =>
      let candidate := path_join dir (bs "tsconfig.json") in
      if is_file fs candidate then Some candidate else nearest dirs
  end.

Definition options (tsconfig : path) : option TsconfigInfo :=
  (load_chain fs MAX_CHAIN tsconfig Caches_empty).1.

Record Coherent (c : Caches) : Prop := {
  probes_ok p : plain p = true → path_key p ∈ negative_probes c → is_file fs p = false;
  manifests_ok p v : plain p = true → manifests c !! path_key p = Some v → v = parse_manifest fs p;
  dirs_ok d r : Canonical d → tsconfig_dirs c !! path_key d = Some r → r = nearest (ancestors d);
  tsconfigs_ok p i : Canonical p → tsconfigs c !! path_key p = Some i → i = options p
}.

Lemma Coherent_empty : Coherent Caches_empty.
Proof. split; set_solver. Qed.

Lemma Coherent_clear c : Coherent c → Coherent (clear_caches c).
Proof. intros [H1 H2 H3 H4]. split; [set_solver|done|set_solver..]. Qed.

(** ** Computations that give one answer on coherent caches *)

Definition gives {A} (m : M A) (a : A) : Prop :=
  ∀ c, Coherent c → ∃ c', m c = (a, c') ∧ Coherent c'.

Definition stable {A} (m : M A) : Prop := ∃ a, gives m a.

Lemma gives_ret {A} (a : A) : gives (mret a) a.
Proof. intros c Hc. by exists c. Qed.

Lemma gives_bind {A B} (m : M A) (k : A → M B) a b : gives m a → gives (k a) b → gives (m ≫= k) b.
Proof.
  intros Hm Hk c Hc. destruct (Hm c Hc) as (c' & E & Hc'). destruct (Hk c' Hc') as (c'' & E' & Hc'').
  exists c''. split; [|done]. unfold mbind, M_bind. by rewrite E.
Qed.

Lemma stable_ret {A} (a : A) : stable (mret a).
Proof. exists a. apply gives_ret. Qed.

Lemma stable_bind {A B} (m : M A) (k : A → M B) : stable m → (∀ a, stable (k a)) → stable (m ≫= k).
Proof. intros [a Ha] Hk. destruct (Hk a) as [b Hb]. exists b. by eapply gives_bind. Qed.

Lemma stable_bind_gives {A B} (m : M A) (k : A → M B) a : gives m a → stable (k a) → stable (m ≫= k).
Proof. intros Ha [b Hb]. exists b. by eapply gives_bind. Qed.

Lemma stable_first_some {A B} (f : A → M (option B)) l :
  Forall (λ a, stable (f a)) l → stable (first_some f l).
Proof.
  induction 1 as [|a l Ha Hl IH]; cbn [first_some]; [apply stable_ret|].
  apply stable_bind; [done|]. intros [b|]; [apply stable_ret|done].
Qed.

Lemma stable_foldm {A B} (f : B → A → M B) l b :
  (∀ b a, stable (f b a)) → stable (foldm f l b).
Proof.
  intros Hf. revert b. induction l as [|a l IH]; intros b; cbn [foldm]; [apply stable_ret|].
  apply stable_bind; auto.
Qed.

Lemma gives_stable {A} (m : M A) a : gives m a → stable m.
Proof. by exists a. Qed.

Create HintDb stable.
#[local] Hint Resolve stable_ret stable_bind stable_first_some stable_foldm gives_stable : stable.

(** ** The cached reads *)

Lemma is_file_cached_gives p : plain p = true → gives (is_file_cached fs p) (is_file fs p).
Proof.
  intros Hp c Hc. unfold is_file_cached, get, modify, mbind, M_bind, mret, M_ret.
  case_decide as Hn; [rewrite (probes_ok _ Hc p Hp Hn); by exists c|].
  destruct (is_file fs p) eqn:E; eexists; (split; [done|]); destruct Hc as [H1 H2 H3 H4]; split; try done.
  - intros q Hq Hin. cbn in Hin. apply H1; [done|set_solver].
  - intros q Hq Hin. cbn in Hin. apply elem_of_union in Hin as [Hin|]; [|by apply H1].
    apply elem_of_singleton in Hin. by rewrite (same_file q p).
Qed.

Lemma parse_manifest_same p q :
  plain p = true → plain q = true → path_key p = path_key q → parse_manifest fs p = parse_manifest fs q.
Proof. intros. unfold parse_manifest. by rewrite (same_text p q). Qed.

Lemma cached_manifest_gives p : plain p = true → gives (cached_manifest fs p) (parse_manifest fs p).
Proof.
  intros Hp c Hc. unfold cached_manifest, get, modify, mbind, M_bind, mret, M_ret.
  destruct (manifests c !! path_key p) as [v|] eqn:E.
  - rewrite (manifests_ok _ Hc p v Hp E). by exists c.
  - eexists. split; [done|]. destruct Hc as [H1 H2 H3 H4]. split; try done.
    intros q v Hq. cbn. rewrite lookup_insert_Some. intros [[Hk <-]|[_ Hv]]; [|by apply H2].
    by apply parse_manifest_same.
Qed.

Lemma package_json_gives dir :
  gives (cached_manifest fs (path_join dir (bs "package.json")))
    (parse_manifest fs (path_join dir (bs "package.json"))).
Proof. apply cached_manifest_gives, plain_join; [|cbn; lia]. by apply (bool_decide_unpack _). Qed.

Lemma package_json_stable dir : stable (cached_manifest fs (path_join dir (bs "package.json"))).
Proof. eapply gives_stable, package_json_gives. Qed.

#[local] Hint Resolve package_json_stable : stable.

(** ** Discovery *)

Lemma tsconfig_walk_gives n d visited c :
  length d < n → Canonical d → Coherent c →
  ∃ more, tsconfig_walk fs (ancestors d) visited c = ((nearest (ancestors d), visited ++ more), c) ∧
          Forall (λ v, Canonical v ∧ nearest (ancestors v) = nearest (ancestors d)) more.
Proof.
  revert d visited. induction n as [|n IH]; intros d visited Hn Hd Hc; [lia|].
  rewrite ancestors_unfold. cbn [tsconfig_walk nearest].
  unfold get at 1, mbind at 1, M_bind at 1.
  destruct (tsconfig_dirs c !! path_key d) as [r|] eqn:E.
  - exists []. rewrite app_nil_r. split; [|done]. rewrite (dirs_ok _ Hc d r Hd E).
    by rewrite ancestors_unfold.
  - cbv zeta. destruct (is_file fs (path_join d (bs "tsconfig.json"))) eqn:Ef.
    + exists [d]. split; [done|]. apply Forall_singleton. split; [done|].
      rewrite ancestors_unfold. cbn [nearest]. cbv zeta. by rewrite Ef.
    + destruct (parent d) as [q|] eqn:Eq.
      * destruct (IH q (visited ++ [d])) as (more & Hw & Hm); [|by eapply Canonical_parent|done|].
        { apply parent_shorter in Eq. lia. }
        exists (d :: more). rewrite Hw. split; [by rewrite <-app_assoc|].
        apply Forall_cons. split; [|done]. split; [done|].
        rewrite (ancestors_unfold d), Eq. cbn [nearest]. cbv zeta. by rewrite Ef.
      * exists [d]. split; [done|]. apply Forall_singleton. split; [done|].
        rewrite (ancestors_unfold d), Eq. cbn [nearest]. cbv zeta. by rewrite Ef.
Qed.

Lemma insert_all_lookup (found : option path) (visited : list path) (m : gmap Key (option path)) k r :
  fold_left (λ m d, <[path_key d := found]> m) visited m !! k = Some r →
  (r = found ∧ ∃ v, v ∈ visited ∧ path_key v = k) ∨ m !! k = Some r.
Proof.
  revert m. induction visited as [|v visited IH]; intros m H; cbn in H; [auto|].
  apply IH in H as [(-> & w & Hw & Ek)|H].
  - left. split; [done|]. exists w. split; [by right|done].
  - apply lookup_insert_Some in H as [[Ek <-]|[_ H]]; [|auto].
    left. split; [done|]. exists v. split; [by left|done].
Qed.

Lemma nearest_gives d :
  Canonical d → gives (nearest_tsconfig_from_dir fs d) (nearest (ancestors d)).
Proof.
  intros Hd c Hc. unfold nearest_tsconfig_from_dir, get at 1, mbind, M_bind.
  destruct (tsconfig_walk_gives (S (length d)) d [] c ltac:(lia) Hd Hc) as (more & -> & Hm).
  cbn [app]. unfold backfill_tsconfig_dirs, modify, mret, M_ret. rewrite decide_False by auto.
  eexists. split; [done|]. destruct Hc as [H1 H2 H3 H4]. split; try done.
  intros d' r Hd' Hr. cbn [tsconfig_dirs set_dirs] in Hr. apply insert_all_lookup in Hr as [(-> & v & Hv & Ek)|Hr]; [|by apply H3].
  rewrite Forall_forall in Hm. destruct (Hm v Hv) as [Hcv <-].
  by rewrite (Canonical_inj _ _ Hcv Hd' Ek).
Qed.

(** ** Options *)

Lemma warn_once_gives p code : gives (warn_once p code) tt.
Proof.
  intros c Hc. unfold warn_once, modify. eexists. split; [done|].
  case_decide; [done|]. by destruct Hc; split.
Qed.

Lemma warn_None_stable {A} p code : stable (_ ← warn_once p code; mret (None : option A)).
Proof. eapply stable_bind_gives; [apply warn_once_gives|apply stable_ret]. Qed.

#[local] Hint Resolve warn_None_stable : stable.

Lemma load_chain_stable levels p : stable (load_chain fs levels p).
Proof.
  revert p. induction levels as [|levels IH]; intros p; cbn [load_chain]; [auto with stable|].
  destruct (read_to_string fs p) as [raw|]; [|auto with stable].
  destruct (tsconfig_from_str _) as [parsed|]; [|auto with stable].
  destruct (parent p) as [dir|]; [|auto with stable]. cbv zeta.
  destruct (is_complete _); [auto with stable|].
  apply stable_bind; [|auto with stable]. apply stable_foldm. intros inherited extends.
  apply stable_bind; [|auto with stable]. destruct (extends_is_path extends); auto with stable.
Qed.

Lemma options_gives p : gives (load_chain fs MAX_CHAIN p) (options p).
Proof.
  destruct (load_chain_stable MAX_CHAIN p) as [a Ha]. unfold options.
  destruct (Ha _ Coherent_empty) as (c & -> & _). done.
Qed.

Lemma nearest_canonical dirs p :
  Forall Canonical dirs → nearest dirs = Some p → Canonical p.
Proof.
  induction 1 as [|d dirs (ns & Hn & ->) Hds IH]; cbn [nearest]; [done|]. cbv zeta.
  destruct (is_file _ _); [|done]. intros [= <-].
  assert (good_name (bs "tsconfig.json")) as Hg by (split_and!; by apply (bool_decide_unpack _)).
  exists (ns ++ [bs "tsconfig.json"]). split; [apply Forall_app; by rewrite Forall_singleton|].
  by apply path_join_below.
Qed.

Lemma ancestors_canonical n d : length d < n → Canonical d → Forall Canonical (ancestors d).
Proof.
  revert d. induction n as [|n IH]; intros d Hn Hd; [lia|]. rewrite ancestors_unfold.
  apply Forall_cons. split; [done|]. destruct (parent d) as [q|] eqn:E; [|done].
  apply IH; [apply parent_shorter in E; lia|by eapply Canonical_parent].
Qed.

(** The options that apply to a file. *)

Definition info_of (referrer : path) : option TsconfigInfo :=
  if in_node_modules referrer then None
  else start ← tsconfig_start fs referrer; tsconfig ← nearest (ancestors start); options tsconfig.

Lemma info_for_gives referrer : Canonical referrer → gives (info_for_with fs referrer) (info_of referrer).
Proof.
  intros Hr. unfold info_for_with, info_of, find_tsconfig_with.
  destruct (in_node_modules referrer); [apply gives_ret|].
  destruct (tsconfig_start fs referrer) as [d|] eqn:Es;
    [|by eapply gives_bind; [apply gives_ret|apply gives_ret]].
  assert (Canonical d) as Hd.
  { revert Es. unfold tsconfig_start. destruct (is_dir fs referrer); [by intros [= <-]|].
    by apply Canonical_parent. }
  eapply gives_bind; [by apply nearest_gives|]. cbn [mbind option_bind].
  destruct (nearest (ancestors d)) as [t|] eqn:Et; [|apply gives_ret].
  assert (Canonical t) as Ht.
  { eapply nearest_canonical; [|done]. by apply (ancestors_canonical (S (length d))); [lia|]. }
  intros c Hc. unfold get at 1, mbind at 1, M_bind at 1.
  destruct (tsconfigs c !! path_key t) as [i|] eqn:Ei.
  - rewrite (tsconfigs_ok _ Hc t i Ht Ei). by exists c.
  - unfold mbind, M_bind. destruct (options_gives t c Hc) as (c' & -> & [H1 H2 H3 H4]).
    eexists. split; [done|]. split; try done. intros p i' Hp. cbn.
    rewrite lookup_insert_Some. intros [[Hk <-]|[_ Hi]]; [|by apply H4].
    by rewrite (Canonical_inj _ _ Ht Hp Hk).
Qed.

Definition config_of (referrer : path) : option PathsConfig := i ← info_of referrer; paths i.

Lemma load_for_gives referrer : Canonical referrer → gives (load_for_with fs referrer) (config_of referrer).
Proof. intros Hr. eapply gives_bind; [by apply info_for_gives|apply gives_ret]. Qed.

(** ** Packages *)

Lemma declared_package_type_stable p : stable (declared_package_type fs p).
Proof.
  unfold declared_package_type. destruct (package_scope fs p) as [q|] eqn:E; [|auto with stable].
  assert (∃ d, q = path_join d (bs "package.json")) as [d ->].
  { unfold package_scope in E. destruct (parent p) as [d|]; [|done].
    induction (ancestors d) as [|d' ds IH]; cbn [scope_walk] in E; [done|]. case_decide; [done|].
    destruct (is_file _ _); [|by apply IH]. injection E as <-. eauto. }
  apply stable_bind; auto with stable.
Qed.

#[local] Hint Resolve declared_package_type_stable : stable.

Lemma module_kind_stable p : stable (module_kind fs p).
Proof. unfold module_kind. destruct (ext_in p _); [|destruct (ext_in p _)]; auto with stable. Qed.

Lemma probe_require_stable raw : stable (probe_require fs raw).
Proof.
  unfold probe_require. destruct (as_file fs raw); [auto with stable|].
  destruct (is_dir fs raw); auto with stable.
Qed.

#[local] Hint Resolve module_kind_stable probe_require_stable : stable.

Lemma probe_stable m raw : stable (probe fs m raw).
Proof. destruct m; cbn [probe]; auto with stable. Qed.

#[local] Hint Resolve probe_stable : stable.

Lemma legacy_entry_stable dir mf m fields : stable (legacy_entry fs dir mf m fields).
Proof.
  induction fields as [|f fields IH]; cbn [legacy_entry]; [auto with stable|].
  destruct (v ← _; as_str v) as [entry|]; [|done].
  apply stable_bind; [auto with stable|]. intros [p|]; [|done].
  apply stable_bind; [case_decide; auto with stable|]. intros [|]; auto with stable.
Qed.

#[local] Hint Resolve legacy_entry_stable : stable.

Lemma or_fail_stable {A} (m : M (option A)) d : stable m → stable (or_fail m d).
Proof. intros H. apply stable_bind; auto with stable. Qed.

#[local] Hint Resolve or_fail_stable : stable.

Lemma resolve_in_package_stable dir package subpath specifier m :
  stable (resolve_in_package fs dir package subpath specifier m).
Proof.
  apply stable_bind.
  - apply stable_bind; [auto with stable|]. intros mf. cbv zeta.
    destruct (value_get _ _); [auto with stable|]. case_decide; [auto with stable|].
    apply stable_bind; [auto with stable|]. intros [p|]; auto with stable.
  - intros [p|d]; auto with stable.
Qed.

Lemma find_owning_package_stable p : stable (find_owning_package fs p).
Proof.
  unfold find_owning_package. destruct (parent p); [|auto with stable].
  apply stable_first_some, Forall_true. intros d. cbv zeta. destruct (is_file _ _); auto with stable.
Qed.

#[local] Hint Resolve resolve_in_package_stable find_owning_package_stable : stable.

Lemma resolve_bare_stable specifier referrer m : stable (resolve_bare fs specifier referrer m).
Proof.
  unfold resolve_bare, resolve_bare_with. destruct (starts_with specifier (bs "#")).
  - apply stable_bind; [auto with stable|]. intros [[dir mf]|]; [|auto with stable].
    destruct (value_get _ mf); [|auto with stable]. destruct (exports_resolve _ _ _); [|auto with stable].
    destruct (strip_pre _ _); auto with stable.
  - destruct (shadowed_builtin _); [auto with stable|]. destruct (strip_pre _ _); [auto with stable|].
    destruct (is_exposed_internal _ _); [auto with stable|]. destruct (_ || _); [auto with stable|].
    destruct (split_specifier _) as [[package subpath]|]; [|auto with stable].
    destruct (package_walk _ _ _); auto with stable.
Qed.

#[local] Hint Resolve resolve_bare_stable : stable.

Lemma bare_or_paths_stable probe_raw specifier referrer m :
  Canonical referrer →
  (∀ config, config_of referrer = Some config →
     Forall (λ raw, stable (probe_raw raw)) (match_specifier config specifier)) →
  stable (bare_or_paths fs probe_raw specifier referrer m).
Proof.
  intros Hr Hp. unfold bare_or_paths. destruct (is_builtin_specifier _ _); [auto with stable|].
  eapply stable_bind_gives; [by apply load_for_gives|].
  destruct (config_of referrer) as [config|]; [|auto with stable].
  apply stable_bind; [auto with stable|]. intros [p|]; auto with stable.
Qed.

Lemma resolve_require_stable specifier referrer :
  Canonical referrer → stable (resolve_require fs specifier referrer).
Proof.
  intros Hr. apply stable_bind; [|auto with stable]. unfold resolve_require_inner. cbv zeta.
  do 2 (case_decide; [auto with stable|]). destruct (_ || _); [auto with stable|].
  apply bare_or_paths_stable; [done|]. intros config _. apply Forall_true. auto with stable.
Qed.

(** ** Imports *)

Definition plain_probes (raw : path) : bool := forallb plain (candidates raw).

Lemma probe_candidates_stable raw : plain_probes raw = true → stable (probe_candidates fs raw).
Proof.
  intros H. unfold probe_candidates. cbv zeta. apply stable_bind; [|auto with stable].
  apply stable_first_some. apply Forall_forall. intros p Hp.
  apply stable_bind; [|auto with stable]. eapply gives_stable, is_file_cached_gives.
  by eapply forallb_forall, list_elem_of_In.
Qed.

(** The paths an import looks for, before extensions. *)

Definition import_raws (spec referrer : list byte) : list path :=
  let specifier := url_specifier_input spec in
  if is_file_url specifier then
    match file_url_to_path specifier with
    | Ok raw => [raw]
    | Err _ => []
    end
  else if starts_with specifier (bs "./") || starts_with specifier (bs "../")
  then [path_join (require_base referrer) specifier]
  else if starts_with specifier (bs "/") then [specifier]
  else match config_of referrer with
       | Some config => match_specifier config specifier
       | None => []
       end.

Lemma probed_stable specifier referrer raw :
  plain_probes raw = true → stable (probed fs specifier referrer raw).
Proof.
  intros H. apply stable_bind; [by apply probe_candidates_stable|]. intros [found cs]. auto with stable.
Qed.

Lemma resolve_import_stable specifier referrer :
  Canonical referrer → Forall (λ raw, plain_probes raw = true) (import_raws specifier referrer) →
  stable (resolve_import fs specifier referrer).
Proof.
  intros Hr. unfold import_raws. intros HF. apply stable_bind; [|auto with stable].
  unfold resolve_import_inner. cbv zeta in HF |- *. case_decide; [auto with stable|]. revert HF.
  destruct (is_file_url _).
  { destruct (file_url_to_path _); [|auto with stable]. rewrite Forall_singleton. intros HF. by apply probed_stable. }
  destruct (starts_with _ (bs "./") || starts_with _ (bs "../")); cbn [negb andb].
  { rewrite Forall_singleton. intros HF. by apply probed_stable. }
  destruct (starts_with _ (bs "/")); cbn [negb].
  { rewrite Forall_singleton. intros HF. by apply probed_stable. }
  intros HF. apply bare_or_paths_stable; [done|]. intros config Hc. rewrite Hc in HF.
  eapply Forall_impl; [exact HF|]. intros raw H'.
  apply stable_bind; [by apply probe_candidates_stable|]. intros [found cs]. auto with stable.
Qed.
End Caches.

(** ** Sequences of requests *)

Inductive Op : Type :=
| OImport (specifier referrer : list byte)
| ORequire (specifier referrer : list byte)
| OClear.

Section Sequences.
Context {HS : Serde} (fs : Fs).

Definition serve (o : Op) : M (option (result Diagnostic path)) :=
  match o with
  | OImport specifier referrer => r ← resolve_import fs specifier referrer; mret (Some r)
  | ORequire specifier referrer => r ← resolve_require fs specifier referrer; mret (Some r)
  | OClear => _ ← modify clear_caches; mret None
  end.

Fixpoint serve_all (ops : list Op) : M (list (option (result Diagnostic path))) :=
  match ops with
  | [] => mret []
  | o :: ops => r ← serve o; rs ← serve_all ops; mret (r :: rs)
  end.

(** The module asking is at its real path, and no path an import looks for
    ends in a slash or a dot. *)

Definition settled (o : Op) : Prop :=
  match o with
  | OImport specifier referrer =>
      Canonical referrer ∧ Forall (λ raw, plain_probes raw = true) (import_raws fs specifier referrer)
  | ORequire _ referrer => Canonical referrer
  | OClear => True
  end.

Context {HL : SpellingLaws fs}.

Lemma serve_stable o : settled o → stable fs (serve o).
Proof.
  destruct o as [s r|s r|]; cbn [settled serve].
  - intros [Hr HF]. apply stable_bind; [by apply resolve_import_stable|]. intros a. apply stable_ret.
  - intros Hr. apply stable_bind; [by apply resolve_require_stable|]. intros a. apply stable_ret.
  - intros _. exists None. intros c Hc. exists (clear_caches c). split; [done|]. by apply Coherent_clear.
Qed.

Lemma serve_gives o : settled o → gives fs (serve o) (serve o Caches_empty).1.
Proof.
  intros [a Ha]%serve_stable. destruct (Ha _ (Coherent_empty fs)) as (c & -> & _). done.
Qed.

Lemma serve_all_gives ops :
  Forall settled ops → gives fs (serve_all ops) ((λ o, (serve o Caches_empty).1) <$> ops).
Proof.
  induction 1 as [|o ops Ho Hops IH]; [apply gives_ret|].
  eapply gives_bind; [by apply serve_gives|]. eapply gives_bind; [done|]. apply gives_ret.
Qed.
End Sequences.

Lemma backfill_after_clear c visited found :
  (0 ≤ generation c < 2 ^ 64)%Z →
  (backfill_tsconfig_dirs (generation c) visited found (clear_caches c)).2 = clear_caches c.
Proof.
  intros Hg. unfold backfill_tsconfig_dirs, modify, clear_caches, wrap_u. cbn [snd].
  rewrite decide_True; [done|]. cbn [generation set_dirs set_tsconfigs set_probes].
  destruct (decide (generation c + 1 = 2 ^ 64)%Z) as [E|E].
  - rewrite E, Z.mod_same by lia. lia.
  - rewrite Z.mod_small by lia. lia.
Qed.

(** C18: on a file system that does not change, any sequence of imports and
    requires, with the caches cleared wherever, answers each request exactly
    as empty caches would, errors and their texts included, when the modules
    asking are at their real paths and no import asks for a path that ends in
    a slash or a dot; and a discovery walk that a clear overtakes leaves the
    cleared caches as they are. *)
Theorem caches_transparent {HS : Serde} fs {HL : SpellingLaws fs} ops :
  Forall (settled fs) ops →
  (serve_all fs ops Caches_empty).1 = (λ o, (serve fs o Caches_empty).1) <$> ops ∧
  (∀ c visited found, (0 ≤ generation c < 2 ^ 64)%Z →
     (backfill_tsconfig_dirs (generation c) visited found (clear_caches c)).2 = clear_caches c).
Proof.
  intros H. split; [|apply backfill_after_clear].
  destruct (serve_all_gives fs ops H _ (Coherent_empty fs)) as (c & -> & _). done.
Qed.

(** ** A project *)

Definition project_files : list (path * list byte) :=
  prod_map bs bs <$>
  [("/p/tsconfig.json", "{}"); ("/p/x.js", ""); ("/p/src/a.ts", "");
   ("/p/node_modules/m/package.json", "{}"); ("/p/node_modules/m/lib.js", "")]%string.

Definition project_text (p : path) : option (list byte) :=
  if plain p then snd ∘ snd <$> list_find (λ f, path_key f.1 = path_key p) project_files else None.

Definition project : Fs :=
  {| is_file := λ p, bool_decide (is_Some (project_text p));
     is_dir := λ p, bool_decide (path_key p ∈ path_key ∘ bs <$> ["/p"; "/p/src"; "/p/node_modules/m"]%string);
     read_to_string := project_text; canonicalize := λ _, None; cwd := None; expose_internals := false |}.

#[local] Instance project_serde : Serde :=
  {| json_from_str := λ _, Some (VObject [(bs "main", VString (bs "./lib.js"))]);
     tsconfig_from_str := λ _,
       Some {| raw_extends := []; raw_paths := Some [(bs "@/*", VArray [VString (bs "src/*")])];
               raw_jsx := None; raw_jsx_import_source := None; raw_jsx_factory := None;
               raw_jsx_fragment_factory := None |} |}.

#[local] Instance project_laws : SpellingLaws project.
Proof.
  assert (∀ p q, plain p = true → plain q = true → path_key p = path_key q →
            project_text p = project_text q) as H.
  { intros p q Hp Hq Hk. unfold project_text. by rewrite Hp, Hq, Hk. }
  split; intros p q Hp Hq Hk; [|by apply H]. cbn. by rewrite (H p q).
Qed.

Lemma project_canonical names :
  bool_decide (Forall (λ n : list byte, n ≠ [] ∧ n ≠ bs "." ∧ ("/"%byte ∉ n)) names) = true →
  Canonical (below_root names).
Proof. intros H%bool_decide_eq_true. by exists names. Qed.

Definition main_ts : path := below_root [bs "p"; bs "main.ts"].

Definition project_ops : list Op :=
  [OImport (bs "@/a") main_ts; OImport (bs "m") main_ts; OImport (bs "./gone") main_ts; OClear;
   ORequire (bs "m") main_ts; OImport (bs "@/a") main_ts].

Lemma caches_transparent_witness :
  let ok_of r := match r with Some (Ok p) => Some p | _ => None end in
  ok_of <$> (serve_all project project_ops Caches_empty).1
    = [Some (bs "/p/src/a.ts"); Some (bs "/p/node_modules/m/./lib.js"); None; None;
       Some (bs "/p/node_modules/m/./lib.js"); Some (bs "/p/src/a.ts")] ∧
  (serve_all project project_ops Caches_empty).1
    = (λ o, (serve project o Caches_empty).1) <$> project_ops.
Proof.
  intros ok_of. split; [vm_compute; reflexivity|].
  refine (proj1 (caches_transparent project project_ops _)).
  assert (Canonical main_ts) as Hm by (apply project_canonical; vm_compute; reflexivity).
  repeat apply Forall_cons_2; [..|apply Forall_nil_2]; try exact I; try exact Hm;
    (split; [exact Hm|]); apply (bool_decide_unpack _); vm_compute; exact I.
Defined.

(** A path that ends in a slash is not a file, and the miss is kept under the
    file's own key: the file is not found after that, until a clear. *)

Lemma trailing_slash_hides_file :
  let found ops := (λ r, if r is Some (Ok _) then true else false)
                   <$> (serve_all project ops Caches_empty).1 in
  found [OImport (bs "./x.js") main_ts] = [true] ∧
  found [OImport (bs "./x.js/") main_ts; OImport (bs "./x.js") main_ts] = [false; false] ∧
  found [OImport (bs "./x.js/") main_ts; OClear; OImport (bs "./x.js") main_ts] = [false; false; true].
Proof. vm_compute. split; [|split]; reflexivity. Qed.
