(* ===== verification/UnixFs.v ===== *)
(** * UnixFs: the file system [std::fs] works on, of a POSIX build

    A tree is a map from places (the names from the root) to what is there: a
    directory, a file with its bytes, or a symbolic link with its text.  A
    path is walked as the kernel walks one: [.] and an empty name stay, [..]
    goes to the directory above the one reached, a link is replaced by its
    text, at most [MAX_LINKS] times, and everything walked through must be a
    directory.

    The calls that change the tree take the next of [faults], which may make
    them fail; a write may fail with part of its bytes written.  A process
    that dies is one whose calls all fail from then on.  The bits of a file's
    mode are kept once they have been set; owners, times and the modes of
    directories are not, nor hard links.  [remove_dir_all] reads a directory
    in the map's order. *)

From S2P Require Import Prelude RustStd StdPath.

Abbreviation Place := (list (list byte)).

Inductive Node : Type :=
| NDir
| NFile (data : list byte) (mode : option Z)
| NLink (target : path).

#[global] Instance Node_eq_dec : EqDecision Node.
Proof. solve_decision. Defined.

Abbreviation Tree := (gmap Place Node).

(** [std::io::Error], as the calls below give it. *)

Inductive Errno : Type :=
| ENOENT | EIO | EBUSY | EEXIST | ENOTDIR | EISDIR | EINVAL | ENOSPC | ENOTEMPTY | ELOOP | ENUL | EUTF8.

#[global] Instance Errno_eq_dec : EqDecision Errno.
Proof. solve_decision. Defined.

(** [{e}]. *)

Definition errno_text (e : Errno) : list byte :=
  bs match e with
     | ENOENT => "No such file or directory (os error 2)"
     | EIO => "Input/output error (os error 5)"
     | EBUSY => "Device or resource busy (os error 16)"
     | EEXIST => "File exists (os error 17)"
     | ENOTDIR => "Not a directory (os error 20)"
     | EISDIR => "Is a directory (os error 21)"
     | EINVAL => "Invalid argument (os error 22)"
     | ENOSPC => "No space left on device (os error 28)"
     | ENOTEMPTY => "Directory not empty (os error 39)"
     | ELOOP => "Too many levels of symbolic links (os error 40)"
     | ENUL => "file name contained an unexpected NUL byte"
     | EUTF8 => "stream did not contain valid UTF-8"
     end.

(** What becomes of a call that would change the tree: it is made, or it
    fails, a write with its first [done] bytes written. *)

Inductive Fault : Type :=
| Pass
| Fails (e : Errno) (written : nat).

(** The tree, and the current directory. *)

Record Vfs : Type := {
  tree : Tree;
  here : Place
}.

Record Os : Type := {
  vfs : Vfs;
  faults : list Fault
}.

Definition set_tree (t : Tree) (os : Os) : Os :=
  {| vfs := {| tree := t; here := here (vfs os) |}; faults := faults os |}.

Definition set_faults (fs : list Fault) (os : Os) : Os :=
  {| vfs := vfs os; faults := fs |}.

(** ** Calls that may fail

    A computation over a state, with [?] as its bind. *)

Definition IO (S E A : Type) : Type := S → result E A * S.

#[global] Instance IO_ret {S E} : MRet (IO S E) := λ A a s, (Ok a, s).
#[global] Instance IO_bind {S E} : MBind (IO S E) := λ A B k m s,
  match m s with
  | (Ok a, s) => k a s
  | (Err e, s) => (Err e, s)
  end.

Definition io_err {S E A} (e : E) : IO S E A := λ s, (Err e, s).

(** [match m {..}], and [let _ = m;]. *)

Definition attempt {S E F A} (m : IO S E A) : IO S F (result E A) :=
  λ s, let '(r, s) := m s in (Ok r, s).

Definition map_err {S E F A} (f : E → F) (m : IO S E A) : IO S F A := λ s,
  match m s with
  | (Ok a, s) => (Ok a, s)
  | (Err e, s) => (Err (f e), s)
  end.

Definition lift {S E A} (r : result E A) : IO S E A := λ s, (r, s).

(** Reading the tree. *)

Definition look {E A} (f : Vfs → A) : IO Os E A := λ os, (Ok (f (vfs os)), os).

Definition look_at {E A} (f : Vfs → result E A) : IO Os E A := λ os, (f (vfs os), os).

(** ** Walking a path *)

Definition MAX_LINKS : nat := 40.

(** Where a path leads: to what is at a place, or to a place in a directory
    where nothing is yet; then whether a slash follows its name. *)

Inductive Spot : Type :=
| At (k : Place)
| Free (k : Place) (slash : bool).

Definition blank (seg : list byte) : bool := bool_decide (seg = []).

Definition up (k : Place) : Place := take (length k - 1) k.

Fixpoint walk (links : nat) (t : Tree) : Place → list (list byte) → result Errno Spot :=
  fix go (cur : Place) (segs : list (list byte)) : result Errno Spot :=
    match segs with
    | [] => Ok (At cur)
    | seg :: rest =>
        match t !! cur with
        | Some NDir =>
            if decide (seg = [] ∨ seg = bs ".") then go cur rest
            else if decide (seg = bs "..") then go (up cur) rest
            else
              match t !! (cur ++ [seg]) with
              | None =>
                  if forallb blank rest then Ok (Free (cur ++ [seg]) (negb (bool_decide (rest = []))))
                  else Err ENOENT
              | Some (NLink target) =>
                  match links with
                  | O => Err ELOOP
                  | S links =>
                      if decide (target = []) then Err ENOENT
                      else walk links t (if is_absolute target then [] else cur)
                             (split_on "/"%byte target ++ rest)
                  end
              | Some _ => go (cur ++ [seg]) rest
              end
        | _ => Err ENOTDIR
        end
    end.

Definition start (v : Vfs) (p : path) : Place := if is_absolute p then [] else here v.

Definition check_path (p : path) : result Errno unit :=
  if decide (p = []) then Err ENOENT
  else if decide (x00 ∈ p) then Err ENUL
  else Ok ().

(** A path, its last link followed. *)

Definition namei (v : Vfs) (p : path) : result Errno Spot :=
  _ ← check_path p;
  walk MAX_LINKS (tree v) (start v p) (split_on "/"%byte p).

(** The directory a path's last name is looked for in, with that name, not
    followed, and whether a slash follows it; no name when the path ends in a
    dot component, or is the root. *)

Fixpoint drop_blanks (rsegs : list (list byte)) : list (list byte) :=
  match rsegs with
  | seg :: rest => if blank seg then drop_blanks rest else rsegs
  | [] => []
  end.

Definition walk_dir (v : Vfs) (p : path) (segs : list (list byte)) : result Errno Place :=
  spot ← walk MAX_LINKS (tree v) (start v p) segs;
  match spot with
  | At k => if decide (tree v !! k = Some NDir) then Ok k else Err ENOTDIR
  | Free _ _ => Err ENOENT
  end.

Definition parentat (v : Vfs) (p : path) : result Errno (Place * option (list byte) * bool) :=
  _ ← check_path p;
  let rsegs := reverse (split_on "/"%byte p) in
  match drop_blanks rsegs with
  | [] => Ok ([], None, false)
  | name :: pre =>
      dir ← walk_dir v p (reverse pre);
      Ok (dir, if decide (name = bs "." ∨ name = bs "..") then None else Some name,
          negb (bool_decide (drop_blanks rsegs = rsegs)))
  end.

(** ** Reading *)

Definition stat (v : Vfs) (p : path) : result Errno Node :=
  spot ← namei v p;
  match spot with
  | At k => ok_or (tree v !! k) ENOENT
  | Free _ _ => Err ENOENT
  end.

(** [Path::is_file], [Path::is_dir], [Path::exists], [fs::read]. *)

Definition is_file (v : Vfs) (p : path) : bool :=
  match stat v p with
  | Ok (NFile _ _) => true
  | _ => false
  end.

Definition is_dir (v : Vfs) (p : path) : bool := bool_decide (stat v p = Ok NDir).

Definition exists_ (v : Vfs) (p : path) : bool := is_ok (stat v p).

Definition read (v : Vfs) (p : path) : result Errno (list byte) :=
  node ← stat v p;
  match node with
  | NFile data _ => Ok data
  | _ => Err EISDIR
  end.

(** [fs::read_to_string]. *)

Definition read_to_string (v : Vfs) (p : path) : result Errno (list byte) :=
  data ← read v p;
  ok_or (from_utf8 data) EUTF8.

(** [fs::canonicalize]. *)

Definition canonicalize (v : Vfs) (p : path) : result Errno path :=
  spot ← namei v p;
  match spot with
  | At k => Ok (below_root k)
  | Free _ _ => Err ENOENT
  end.

(** ** Writing *)

Definition fault : IO Os Errno unit := λ os,
  match faults os with
  | Fails e _ :: fs => (Err e, set_faults fs os)
  | _ => (Ok (), set_faults (tail (faults os)) os)
  end.

(** A call that changes the tree, unless it fails. *)

Definition call (f : Vfs → result Errno Tree) : IO Os Errno unit := λ os,
  match fault os with
  | (Ok _, os) =>
      match f (vfs os) with
      | Ok t => (Ok (), set_tree t os)
      | Err e => (Err e, os)
      end
  | (Err e, os) => (Err e, os)
  end.

(** What a call that makes or takes away a name does with it, in its
    directory; [otherwise] where the path ends in a dot. *)

Definition at_name (p : path) (otherwise : Errno)
    (f : Place → bool → Tree → result Errno Tree) (v : Vfs) : result Errno Tree :=
  '(dir, name, slash) ← parentat v p;
  match name with
  | None => Err otherwise
  | Some name => f (dir ++ [name]) slash (tree v)
  end.

(** [fs::create_dir]. *)

Definition mkdir_at (k : Place) (slash : bool) (t : Tree) : result Errno Tree :=
  if t !! k is Some _ then Err EEXIST else Ok (<[k := NDir]> t).

Definition mkdir (p : path) : IO Os Errno unit := call (at_name p EEXIST mkdir_at).

(** [fs::create_dir_all], of a path and its ancestors: a directory whose parent
    is missing is made after it. *)

Definition or_existing (p : path) (r : result Errno unit) : IO Os Errno unit :=
  match r with
  | Ok _ => mret ()
  | Err e =>
      isdir ← look (λ v, is_dir v p);
      if bool_decide (e = EEXIST) && isdir then mret () else io_err e
  end.

Fixpoint create_dirs (chain : list path) : IO Os Errno unit :=
  match chain with
  | [] => mret ()
  | p :: above =>
      if decide (p = [] ∨ parent p = None) then mret ()
      else
        made ← attempt (mkdir p);
        if decide (made = Err ENOENT) then
          _ ← create_dirs above;
          made ← attempt (mkdir p);
          or_existing p made
        else or_existing p made
  end.

Definition create_dir_all (p : path) : IO Os Errno unit := create_dirs (ancestors p).

(** [fs::write]: the file is opened, emptied or created, and then written. *)

Definition open_at (spot : Spot) (v : Vfs) : result Errno Tree :=
  match spot with
  | Free k slash => if slash then Err EISDIR else Ok (<[k := NFile [] None]> (tree v))
  | At k =>
      match tree v !! k with
      | Some (NFile _ mode) => Ok (<[k := NFile [] mode]> (tree v))
      | _ => Err EISDIR
      end
  end.

Definition spot_place (s : Spot) : Place :=
  match s with
  | At k => k
  | Free k _ => k
  end.

Definition fill (k : Place) (data : list byte) (t : Tree) : Tree :=
  match t !! k with
  | Some (NFile _ mode) => <[k := NFile data mode]> t
  | _ => t
  end.

Definition write_all (k : Place) (data : list byte) : IO Os Errno unit := λ os,
  let put data os := set_tree (fill k data (tree (vfs os))) (set_faults (tail (faults os)) os) in
  match faults os with
  | Fails e written :: _ => (Err e, put (take written data) os)
  | _ => (Ok (), put data os)
  end.

Definition write (p : path) (data : list byte) : IO Os Errno unit :=
  spot ← look_at (λ v, namei v p);
  _ ← call (open_at spot);
  write_all (spot_place spot) data.

(** [fs::set_permissions]. *)

Definition chmod_at (mode : Z) (k : Place) (t : Tree) : Tree :=
  match t !! k with
  | Some (NFile data _) => <[k := NFile data (Some mode)]> t
  | _ => t
  end.

Definition set_permissions (p : path) (mode : Z) : IO Os Errno unit :=
  call (λ v, spot ← namei v p;
             match spot with
             | Free _ _ => Err ENOENT
             | At k => Ok (chmod_at mode k (tree v))
             end).

(** [std::os::unix::fs::symlink]. *)

Definition symlink_at (target : path) (k : Place) (slash : bool) (t : Tree) : result Errno Tree :=
  if t !! k is Some _ then Err EEXIST
  else if slash then Err ENOENT
  else Ok (<[k := NLink target]> t).

Definition symlink (target : path) (p : path) : IO Os Errno unit :=
  call (λ v, _ ← check_path target; at_name p EEXIST (symlink_at target) v).

(** [fs::remove_file]. *)

Definition unlink_at (k : Place) (slash : bool) (t : Tree) : result Errno Tree :=
  match t !! k with
  | None => Err ENOENT
  | Some NDir => Err EISDIR
  | Some _ => if slash then Err ENOTDIR else Ok (delete k t)
  end.

Definition remove_file (p : path) : IO Os Errno unit := call (at_name p EISDIR unlink_at).

(** [fs::remove_dir], and the names in a directory. *)

Definition children (k : Place) (t : Tree) : list (list byte) :=
  omap (λ k', match strip_pre k k' with
              | Some [name] => Some name
              | _ => None
              end) (elements (dom t)).

Definition rmdir_at (k : Place) (slash : bool) (t : Tree) : result Errno Tree :=
  match t !! k with
  | Some NDir => if decide (children k t = []) then Ok (delete k t) else Err ENOTEMPTY
  | Some _ => Err ENOTDIR
  | None => Err ENOENT
  end.

Definition remove_dir (p : path) : IO Os Errno unit := call (at_name p EINVAL rmdir_at).

(** What is in a directory, removed: the names in turn, a directory among them
    with all it holds.  [fuel] bounds the depth. *)

Section RemoveWithin.
Context (remove_within : Place → IO Os Errno unit).

Definition remove_child (k : Place) : IO Os Errno unit :=
  node ← look (λ v, tree v !! k);
  match node with
  | Some NDir =>
      _ ← remove_within k;
      call (λ v, rmdir_at k false (tree v))
  | _ => call (λ v, unlink_at k false (tree v))
  end.

Fixpoint remove_each (k : Place) (names : list (list byte)) : IO Os Errno unit :=
  match names with
  | [] => mret ()
  | name :: names => _ ← remove_child (k ++ [name]); remove_each k names
  end.

End RemoveWithin.

Fixpoint remove_within (fuel : nat) (k : Place) : IO Os Errno unit :=
  match fuel with
  | O => io_err EIO
  | S fuel =>
      names ← look (λ v, children k (tree v));
      remove_each (remove_within fuel) k names
  end.

(** [fs::remove_dir_all]: a link is removed itself. *)

Definition ends_in_link (v : Vfs) (p : path) : result Errno bool :=
  '(dir, name, slash) ← parentat v p;
  Ok match name with
     | Some name => if tree v !! (dir ++ [name]) is Some (NLink _) then negb slash else false
     | None => false
     end.

Definition remove_dir_all (p : path) : IO Os Errno unit :=
  is_link ← look_at (λ v, ends_in_link v p);
  if is_link : bool then remove_file p
  else
    spot ← look_at (λ v, namei v p);
    match spot with
    | Free _ _ => io_err ENOENT
    | At k =>
        t ← look tree;
        if decide (t !! k = Some NDir) then _ ← remove_within (size t) k; remove_dir p
        else io_err ENOTDIR
    end.

(** [fs::rename]: what is at a place, with all that is below it, is moved. *)

Definition under (k : Place) (t : Tree) : Tree :=
  list_to_map (omap (λ '(k', n), rel ← strip_pre k k'; Some (rel, n)) (map_to_list t)).

Definition outside (k : Place) (t : Tree) : Tree :=
  filter (λ '(k', _), strip_pre k k' = None) t.

Definition graft (k : Place) (s t : Tree) : Tree := kmap (app k) s ∪ t.

Definition move (a b : Place) (t : Tree) : Tree :=
  graft b (under a t) (outside b (outside a t)).

Definition rename_at (a b : Place) (slash : bool) (t : Tree) : result Errno Tree :=
  match t !! a with
  | None => Err ENOENT
  | Some NDir =>
      if decide (a = b) then Ok t
      else if decide (a `prefix_of` b) then Err EINVAL
      else
        match t !! b with
        | None => Ok (move a b t)
        | Some NDir => if decide (children b t = []) then Ok (move a b t) else Err ENOTEMPTY
        | Some _ => Err ENOTDIR
        end
  | Some _ =>
      if slash then Err ENOTDIR
      else if decide (a = b) then Ok t
      else match t !! b with
           | Some NDir => Err EISDIR
           | _ => Ok (move a b t)
           end
  end.

Definition rename (from to : path) : IO Os Errno unit :=
  call (λ v, at_name from EBUSY (λ a slash _,
             at_name to EBUSY (λ b slash', rename_at a b (slash || slash')) v) v).
