(* ===== verification/UnixFsSpec.v ===== *)
(** * UnixFsSpec: what the calls of [UnixFs] change

    Where no link lies on the way, a path leads where its text says: [lex].
    So a call changes at most the place its text names, and every call keeps
    a tree a tree: [tree_ok]. *)

From S2P Require Import Prelude RustStd StdPath UnixFs.

(** ** Trees

    The root is a directory, and so is what anything lies in. *)

Definition tree_ok (t : Tree) : Prop :=
  t !! [] = Some NDir ∧ ∀ k x, is_Some (t !! (k ++ [x])) → t !! k = Some NDir.

Definition tree_okb (t : Tree) : bool :=
  bool_decide (t !! [] = Some NDir) && bool_decide (map_Forall (λ k _, t !! up k = Some NDir) t).

Lemma tree_okb_ok t : tree_okb t = true → tree_ok t.
Proof.
  intros [H0%bool_decide_eq_true Hp%bool_decide_eq_true]%andb_true_iff. split; [done|].
  intros k x [n Hk]. specialize (Hp _ _ Hk). cbn in Hp. unfold up in Hp.
  rewrite length_app in Hp. cbn [length] in Hp. by rewrite Nat.add_sub, take_app_length in Hp.
Qed.

Definition no_link (t : Tree) (k : Place) : Prop := ∀ target, t !! k ≠ Some (NLink target).

(** ** Where a path's text leads *)

Definition enter (cur : Place) (seg : list byte) : Place :=
  if decide (seg = [] ∨ seg = bs ".") then cur
  else if decide (seg = bs "..") then up cur
  else cur ++ [seg].

Definition lex (cur : Place) (segs : list (list byte)) : Place := fold_left enter segs cur.

(** The places on the way. *)

Fixpoint trail (cur : Place) (segs : list (list byte)) : list Place :=
  match segs with
  | [] => []
  | seg :: rest => enter cur seg :: trail (enter cur seg) rest
  end.

Lemma trail_app cur s1 s2 : trail cur (s1 ++ s2) = trail cur s1 ++ trail (lex cur s1) s2.
Proof. revert cur. induction s1 as [|s s1 IH]; intros cur; [done|]. cbn. by rewrite IH. Qed.

Lemma lex_app cur s1 s2 : lex cur (s1 ++ s2) = lex (lex cur s1) s2.
Proof. apply fold_left_app. Qed.

Lemma lex_blanks cur segs : forallb blank segs = true → lex cur segs = cur.
Proof.
  revert cur. induction segs as [|s segs IH]; intros cur; [done|]. cbn [forallb lex fold_left].
  intros [H%bool_decide_eq_true ?]%andb_true_iff. subst s.
  change (enter cur []) with cur. by apply IH.
Qed.

Lemma lex_trail cur segs : segs ≠ [] → lex cur segs ∈ trail cur segs.
Proof.
  revert cur. induction segs as [|s segs IH]; intros cur; [done|]. intros _.
  destruct segs as [|s' segs]; [cbn; set_solver|].
  cbn [trail]. apply elem_of_cons. right. apply IH. done.
Qed.

(** ** The walk *)

Lemma walk_nil l t cur : walk l t cur [] = Ok (At cur).
Proof. by destruct l. Qed.

Lemma walk_cons l t cur seg rest :
  walk l t cur (seg :: rest) =
  match t !! cur with
  | Some NDir =>
      if decide (seg = [] ∨ seg = bs ".") then walk l t cur rest
      else if decide (seg = bs "..") then walk l t (up cur) rest
      else
        match t !! (cur ++ [seg]) with
        | None =>
            if forallb blank rest then Ok (Free (cur ++ [seg]) (negb (bool_decide (rest = []))))
            else Err ENOENT
        | Some (NLink target) =>
            match l with
            | O => Err ELOOP
            | S l =>
                if decide (target = []) then Err ENOENT
                else walk l t (if is_absolute target then [] else cur)
                       (split_on "/"%byte target ++ rest)
            end
        | Some _ => walk l t (cur ++ [seg]) rest
        end
  | _ => Err ENOTDIR
  end.
Proof. by destruct l. Qed.

Lemma walk_lex l t segs cur s :
  Forall (no_link t) (trail cur segs) → walk l t cur segs = Ok s → spot_place s = lex cur segs.
Proof.
  revert cur. induction segs as [|seg segs IH]; intros cur Hn.
  { rewrite walk_nil. by intros [= <-]. }
  apply Forall_cons in Hn as [Hn Hrest]. rewrite walk_cons. cbn [lex fold_left].
  destruct (t !! cur) as [[| |]|]; [|done..]. unfold enter in *.
  case_decide; [by apply IH|]. case_decide; [by apply IH|].
  destruct (t !! (cur ++ [seg])) as [[| |target]|] eqn:E; [by apply IH..| |].
  - by destruct (Hn target).
  - destruct (forallb blank segs) eqn:Eb; [|done]. intros [= <-]. symmetry. by apply lex_blanks.
Qed.

(** Through directories, a walk goes on from where its names lead. *)

Lemma walk_app l t s1 s2 cur :
  t !! cur = Some NDir → Forall (λ k, t !! k = Some NDir) (trail cur s1) →
  walk l t cur (s1 ++ s2) = walk l t (lex cur s1) s2.
Proof.
  revert cur. induction s1 as [|seg s1 IH]; intros cur Hc Ht; [done|].
  cbn [app]. rewrite walk_cons, Hc. apply Forall_cons in Ht as [Hd Ht].
  cbn [lex fold_left]. unfold enter in *.
  case_decide; [by apply IH|]. case_decide; [by apply IH|]. rewrite Hd. by apply IH.
Qed.

(** A name nothing is at, in a directory. *)

Definition clean_name (n : list byte) : Prop := good_name n ∧ n ≠ bs "..".

Lemma walk_free l t segs cur k slash :
  Forall (λ s, "/"%byte ∉ s) segs →
  walk l t cur segs = Ok (Free k slash) →
  t !! k = None ∧ ∃ dir n, k = dir ++ [n] ∧ t !! dir = Some NDir ∧ clean_name n.
Proof.
  revert segs cur. induction l as [|l IHl];
    (intros segs; induction segs as [|seg segs IH]; intros cur Hs; [by rewrite walk_nil|];
     apply Forall_cons in Hs as [Hseg Hs]; rewrite walk_cons;
     (destruct (t !! cur) as [[| |]|] eqn:Ec; [|done..]);
     case_decide as H1; [by apply IH|]; case_decide as H2; [by apply IH|];
     (destruct (t !! (cur ++ [seg])) as [[| |target]|] eqn:E; [by apply IH..| |])).
  - done.
  - destruct (forallb blank segs); [|done]. intros [= <- <-].
    split; [done|]. exists cur, seg. unfold clean_name, good_name. naive_solver.
  - case_decide; [done|]. apply IHl, Forall_app. split; [|done]. apply split_on_pieces.
  - destruct (forallb blank segs); [|done]. intros [= <- <-].
    split; [done|]. exists cur, seg. unfold clean_name, good_name. naive_solver.
Qed.

(** ** Where calls look *)

Definition way (v : Vfs) (p : path) : list Place := trail (start v p) (split_on "/"%byte p).

Definition goal (v : Vfs) (p : path) : Place := lex (start v p) (split_on "/"%byte p).

Lemma namei_goal v p s :
  Forall (no_link (tree v)) (way v p) → namei v p = Ok s → spot_place s = goal v p.
Proof.
  intros Hn H. apply bind_Ok in H as ([] & _ & H). by eapply walk_lex.
Qed.

Lemma drop_blanks_app rsegs :
  ∃ bl, rsegs = bl ++ drop_blanks rsegs ∧ forallb blank bl = true.
Proof.
  induction rsegs as [|s rsegs (bl & E & Hb)]; [by exists []|]. cbn [drop_blanks].
  destruct (blank s) eqn:Es; [|by exists []]. exists (s :: bl). cbn. rewrite Es, Hb.
  by rewrite E at 1.
Qed.

Lemma drop_blanks_head rsegs n pre : drop_blanks rsegs = n :: pre → n ≠ [].
Proof.
  induction rsegs as [|s rsegs IH]; [done|]. cbn [drop_blanks].
  destruct (blank s) eqn:Es; [done|]. by intros [= <- <-] ->.
Qed.

Lemma forallb_reverse {A} (f : A → bool) l : forallb f (reverse l) = forallb f l.
Proof.
  induction l as [|x l IH]; [done|]. rewrite reverse_cons, forallb_app, IH. cbn.
  destruct (f x); by rewrite ?andb_true_r, ?andb_false_r.
Qed.

Lemma split_last p n pre :
  drop_blanks (reverse (split_on "/"%byte p)) = n :: pre →
  ∃ bl, split_on "/"%byte p = reverse pre ++ [n] ++ bl ∧ forallb blank bl = true ∧
        n ≠ [] ∧ "/"%byte ∉ n.
Proof.
  intros E. destruct (drop_blanks_app (reverse (split_on "/"%byte p))) as (bl & Eb & Hb).
  pose proof (drop_blanks_head _ _ _ E) as Hne.
  assert (split_on "/"%byte p = reverse pre ++ [n] ++ reverse bl) as Es.
  { apply (f_equal reverse) in Eb. rewrite reverse_involutive, E in Eb. rewrite Eb.
    by rewrite reverse_app, reverse_cons, <-app_assoc. }
  exists (reverse bl). rewrite forallb_reverse. split_and!; [done..|].
  pose proof (split_on_pieces "/"%byte p) as Hp. rewrite Es in Hp.
  apply Forall_app in Hp as [_ Hp]. by apply Forall_cons in Hp as [Hp _].
Qed.

Lemma parentat_name v p dir n slash :
  parentat v p = Ok (dir, Some n, slash) → tree v !! dir = Some NDir ∧ clean_name n.
Proof.
  intros H. apply bind_Ok in H as ([] & _ & H).
  cbv zeta in H.
  destruct (drop_blanks (reverse (split_on "/"%byte p))) as [|name pre] eqn:E; [done|].
  apply bind_Ok in H as (d & Hd & H). destruct (split_last _ _ _ E) as (bl & _ & _ & Hne & Hs).
  case_decide as Hdot; [done|]. simplify_eq. split.
  - apply bind_Ok in Hd as ([k|k sl] & _ & Hd); [|done]. by case_decide; simplify_eq.
  - unfold clean_name, good_name. naive_solver.
Qed.

Lemma enter_clean k n : clean_name n → enter k n = k ++ [n].
Proof.
  intros ((H1 & H2 & _) & H3). unfold enter. by rewrite decide_False, decide_False by naive_solver.
Qed.

Lemma parentat_goal v p dir n slash :
  Forall (no_link (tree v)) (way v p) →
  parentat v p = Ok (dir, Some n, slash) → dir ++ [n] = goal v p.
Proof.
  intros Hn H. pose proof (parentat_name _ _ _ _ _ H) as [_ Hc].
  apply bind_Ok in H as ([] & _ & H).
  cbv zeta in H.
  destruct (drop_blanks (reverse (split_on "/"%byte p))) as [|name pre] eqn:E; [done|].
  apply bind_Ok in H as (d & Hd & H). case_decide; [done|]. simplify_eq.
  destruct (split_last _ _ _ E) as (bl & Es & Hb & _).
  unfold goal, way in *. rewrite Es in *. rewrite trail_app in Hn.
  apply Forall_app in Hn as [Hn _].
  apply bind_Ok in Hd as (s & Hw & Hd). apply walk_lex in Hw; [|done].
  destruct s as [k|]; [|done]. case_decide; simplify_eq. cbn [spot_place] in Hw. subst.
  rewrite !lex_app. rewrite (lex_blanks _ bl) by done. cbn. by rewrite enter_clean.
Qed.

Lemma at_name_goal v p e f t :
  Forall (no_link (tree v)) (way v p) → at_name p e f v = Ok t →
  ∃ dir n slash, goal v p = dir ++ [n] ∧ tree v !! dir = Some NDir ∧ clean_name n ∧
                 f (goal v p) slash (tree v) = Ok t.
Proof.
  intros Hn H. apply bind_Ok in H as ([[dir [n|]] slash] & Hp & H); [|done].
  pose proof (parentat_goal _ _ _ _ _ Hn Hp) as Hg.
  apply parentat_name in Hp as [Hd Hc]. exists dir, n, slash. by rewrite <-Hg.
Qed.

Lemma stat_goal v p n :
  Forall (no_link (tree v)) (way v p) → stat v p = Ok n → tree v !! goal v p = Some n.
Proof.
  intros Hn H. apply bind_Ok in H as (s & Hs & H). apply namei_goal in Hs; [|done].
  destruct s as [k|]; [|done]. cbn in Hs. subst. destruct (tree v !! goal v p); by simplify_eq/=.
Qed.

Lemma is_dir_goal v p :
  Forall (no_link (tree v)) (way v p) → is_dir v p = true → tree v !! goal v p = Some NDir.
Proof. unfold is_dir. intros Hn H%bool_decide_eq_true. by apply stat_goal. Qed.

(** ** Calls

    What a computation keeps but for the tree, and what a call does. *)

Definition env_kept (os os' : Os) : Prop :=
  here (vfs os') = here (vfs os) ∧ (faults os = [] → faults os' = []).

#[global] Instance env_kept_preorder : PreOrder env_kept.
Proof. split; [by intros os|]. intros a b c [? ?] [? ?]. split; [congruence|auto]. Qed.

Abbreviation treeof os := (tree (vfs os)).

Lemma io_bind {S E A B} (m : IO S E A) (k : A → IO S E B) s r s' :
  (m ≫= k) s = (r, s') →
  (∃ e, m s = (Err e, s') ∧ r = Err e) ∨ ∃ a s1, m s = (Ok a, s1) ∧ k a s1 = (r, s').
Proof.
  unfold mbind, IO_bind. destruct (m s) as [[a|e] s1]; [eauto|]. intros [= <- <-]. eauto.
Qed.

Lemma io_bind_Ok {S E A B} (m : IO S E A) (k : A → IO S E B) s a s1 :
  m s = (Ok a, s1) → (m ≫= k) s = k a s1.
Proof. unfold mbind, IO_bind. by intros ->. Qed.

Lemma io_bind_Err {S E A B} (m : IO S E A) (k : A → IO S E B) s e s1 :
  m s = (Err e, s1) → (m ≫= k) s = (Err e, s1).
Proof. unfold mbind, IO_bind. by intros ->. Qed.

Lemma attempt_eq {S E F A} (m : IO S E A) s r s' :
  attempt (F := F) m s = (r, s') → ∃ r', r = Ok r' ∧ m s = (r', s').
Proof. unfold attempt. destruct (m s) as [r' s1]. intros [= <- <-]. eauto. Qed.

Lemma map_err_eq {S E F A} (f : E → F) (m : IO S E A) s r s' :
  map_err f m s = (r, s') →
  (∃ a, r = Ok a ∧ m s = (Ok a, s')) ∨ ∃ e, r = Err (f e) ∧ m s = (Err e, s').
Proof. unfold map_err. destruct (m s) as [[a|e] s1]; intros [= <- <-]; eauto. Qed.

Lemma call_eff f os r os' :
  call f os = (r, os') →
  env_kept os os' ∧
  match r with
  | Ok _ => f (vfs os) = Ok (treeof os')
  | Err e => vfs os' = vfs os ∧ (faults os = [] → f (vfs os) = Err e)
  end.
Proof.
  unfold call, fault. destruct os as [v fs]. cbn [faults].
  assert (∀ fs', (match f v with
                  | Ok t => (Ok (), set_tree t {| vfs := v; faults := fs' |})
                  | Err e => (Err e, {| vfs := v; faults := fs' |})
                  end) = (r, os') → (fs = [] → fs' = []) →
    env_kept {| vfs := v; faults := fs |} os' ∧
    match r with
    | Ok _ => f v = Ok (treeof os')
    | Err e => vfs os' = v ∧ (fs = [] → f v = Err e)
    end) as Hrun.
  { intros fs' H Hf. destruct (f v) as [t|e] eqn:E; simplify_eq; by repeat split. }
  destruct fs as [|[|e n] fs]; cbn [tail vfs faults];
    [intros H; by apply (Hrun _ H)..|].
  intros [= <- <-]. by repeat split.
Qed.

Lemma call_ext f g os : f (vfs os) = g (vfs os) → call f os = call g os.
Proof. unfold call, fault. intros H. destruct (faults os) as [|[|e n] fs]; cbn; by rewrite ?H. Qed.

Lemma call_quiet f os t :
  faults os = [] → f (vfs os) = Ok t → call f os = (Ok (), set_tree t os).
Proof. destruct os as [v fs]. cbn. intros -> H. unfold call. cbn. by rewrite H. Qed.

Lemma call_quiet_Err f os e :
  faults os = [] → f (vfs os) = Err e → call f os = (Err e, os).
Proof. destruct os as [v fs]. cbn. intros -> H. unfold call. cbn. by rewrite H. Qed.

(** ** Making directories *)

Definition adds (K : Place → Prop) (t t' : Tree) : Prop :=
  ∀ k, t' !! k = t !! k ∨ (K k ∧ t !! k = None ∧ t' !! k = Some NDir).

#[global] Instance adds_preorder K : PreOrder (adds K).
Proof.
  split; [intros t k; by left|]. intros a b c H1 H2 k. specialize (H1 k). specialize (H2 k).
  destruct H1 as [H1|(H1 & H1' & H1'')], H2 as [H2|(H2 & H2' & H2'')]; [left; congruence| |..];
    right; split_and!; congruence.
Qed.

Lemma adds_no_link K t t' k : adds K t t' → no_link t k → no_link t' k.
Proof. intros H Hn target Ht. destruct (H k) as [E|(_ & _ & E)]; [by apply (Hn target); congruence|congruence]. Qed.

Lemma adds_keeps K t t' k n : adds K t t' → t !! k = Some n → t' !! k = Some n.
Proof. intros H Hk. destruct (H k) as [E|(_ & E & _)]; congruence. Qed.

Lemma tree_ok_insert t dir n node :
  tree_ok t → t !! dir = Some NDir →
  (∀ x, is_Some (t !! ((dir ++ [n]) ++ [x])) → node = NDir) →
  tree_ok (<[dir ++ [n] := node]> t).
Proof.
  intros [H0 Hp] Hd Hn. split; [by rewrite lookup_insert_ne by by destruct dir|].
  intros k x Hk. destruct (decide (k = dir ++ [n])) as [->|Hne].
  - rewrite lookup_insert_eq. f_equal. apply (Hn x).
    rewrite lookup_insert_ne in Hk; [done|]. intros E%(f_equal length).
    rewrite !length_app in E. cbn in E. lia.
  - rewrite lookup_insert_ne by done. destruct (decide (dir ++ [n] = k ++ [x])) as [E|E].
    + by apply app_inj_tail in E as [<- _].
    + rewrite lookup_insert_ne in Hk by done. by apply (Hp k x).
Qed.

Lemma tree_ok_add t dir n node :
  tree_ok t → t !! dir = Some NDir → t !! (dir ++ [n]) = None →
  tree_ok (<[dir ++ [n] := node]> t).
Proof.
  intros Hok Hd Hn. apply tree_ok_insert; [done..|]. intros x Hx%(proj2 Hok). congruence.
Qed.

Lemma way_here v v' p : here v = here v' → way v p = way v' p.
Proof. unfold way, start. by intros ->. Qed.

Lemma goal_here v v' p : here v = here v' → goal v p = goal v' p.
Proof. unfold goal, start. by intros ->. Qed.

Lemma goal_on_way v p : goal v p ∈ way v p.
Proof. apply lex_trail, split_on_ne. Qed.

Section CreateDirs.
Context (K : Place → Prop).

Definition free_way (v : Vfs) (p : path) : Prop := ∀ k, k ∈ way v p → K k ∧ no_link (tree v) k.

Lemma free_way_no_link v p : free_way v p → Forall (no_link (tree v)) (way v p).
Proof. intros H. apply Forall_forall. intros k Hk. by apply H. Qed.

Lemma free_way_adds v v' p :
  free_way v p → here v' = here v → adds K (tree v) (tree v') → free_way v' p.
Proof.
  intros H Hh Ha k Hk. rewrite (way_here _ v) in Hk by done.
  destruct (H k Hk) as [H1 H2]. split; [done|]. by eapply adds_no_link.
Qed.

Lemma mkdir_eff p os r os' :
  free_way (vfs os) p → mkdir p os = (r, os') →
  env_kept os os' ∧ adds K (treeof os) (treeof os') ∧
  (tree_ok (treeof os) → tree_ok (treeof os')) ∧
  (r = Ok () → treeof os' !! goal (vfs os) p = Some NDir) ∧
  (r ≠ Ok () → vfs os' = vfs os).
Proof.
  intros Hw H. apply call_eff in H as [He H]. split; [done|]. destruct r as [[]|e].
  - apply at_name_goal in H as (dir & n & slash & Hg & Hd & Hc & H); [|by apply free_way_no_link].
    unfold mkdir_at in H. destruct (treeof os !! goal (vfs os) p) eqn:En; [done|].
    injection H as H. rewrite <-H. split_and!.
    + intros k. destruct (decide (k = goal (vfs os) p)) as [->|Hk].
      * right. rewrite lookup_insert_eq. split_and!; [|done..]. apply Hw, goal_on_way.
      * left. by rewrite lookup_insert_ne by done.
    + intros Hok. rewrite Hg in *. by apply tree_ok_add.
    + by rewrite lookup_insert_eq.
    + done.
  - destruct H as [-> _]. split_and!; done.
Qed.

Lemma or_existing_eff p m os r os' :
  or_existing p m os = (r, os') →
  os' = os ∧ (r = Ok () → m = Ok () ∨ m = Err EEXIST ∧ is_dir (vfs os) p = true) ∧
  (faults os = [] → m = Ok () ∨ m = Err EEXIST ∧ is_dir (vfs os) p = true → r = Ok ()).
Proof.
  destruct m as [[]|e]; cbn [or_existing]; [intros [= <- <-]; auto|].
  unfold mbind, IO_bind, look. destruct (bool_decide (e = EEXIST) && is_dir (vfs os) p) eqn:E;
    intros [= <- <-].
  - bools; subst. split_and!; auto.
  - split_and!; [done..|]. intros _ [?|[[= ->] E']]; [done|].
    by rewrite E', bool_decide_true in E.
Qed.

Lemma root_goal v p : is_absolute p = true → parent p = None → goal v p = [].
Proof.
  intros Ha Hp. unfold goal, start. rewrite Ha. unfold parent, rev_segments, segments, body_start in Hp.
  rewrite Ha in Hp. cbn [orb] in Hp.
  apply starts_with_prefix in Ha as [q ->]. cbn [bs] in *.
  change (drop 1 (bs "/" ++ q)) with q in Hp. cbn [app split_on].
  change (lex [] (split_on "/"%byte (bs "/" ++ q)) = []).
  change (lex [] ([] :: split_on "/"%byte q) = []). cbn [lex fold_left].
  change (enter [] []) with (@nil (list byte)).
  assert (Forall (λ s, segment_component s = None) (split_on "/"%byte q)) as Hall.
  { apply Forall_reverse. revert Hp. generalize (reverse (split_on "/"%byte q)). intros rs.
    induction rs as [|s rs IH]; [constructor|]. cbn [trim_segments].
    destruct (segment_component s) eqn:Es; [done|]. intros H. constructor; auto. }
  clear Hp. revert Hall. generalize (split_on "/"%byte q). intros l Hall.
  induction Hall as [|s l Hs _ IH]; [done|]. cbn [fold_left].
  replace (enter [] s) with (@nil (list byte)); [done|].
  unfold segment_component in Hs. unfold enter. by case_decide; [|case_decide].
Qed.

Lemma create_dirs_eff chain os r os' :
  Forall (λ p, is_absolute p = true ∧ free_way (vfs os) p) chain →
  create_dirs chain os = (r, os') → tree_ok (treeof os) →
  env_kept os os' ∧ adds K (treeof os) (treeof os') ∧ tree_ok (treeof os') ∧
  (r = Ok () → ∀ p, head chain = Some p → treeof os' !! goal (vfs os) p = Some NDir).
Proof.
  revert os r os'. induction chain as [|p above IH]; intros os r os' Hf H Hok.
  { by injection H as <- <-. }
  apply Forall_cons in Hf as [[Ha Hp] Hf]. cbn [create_dirs] in H. case_decide as Hroot.
  { injection H as <- <-. split_and!; try done. intros _ q [= <-].
    destruct Hroot as [->|Hroot]; [done|]. rewrite root_goal by done. apply Hok. }
  apply io_bind in H as [(e & H & _)|(made & os1 & H & H2)].
  { by apply attempt_eq in H as (? & ? & _). }
  apply attempt_eq in H as (r1 & [= <-] & Hm).
  destruct (mkdir_eff _ _ _ _ Hp Hm) as (He & Hadd & Hok1 & Hdir & Hsame).
  specialize (Hok1 Hok).
  assert (∀ m osa, or_existing p m osa = (r, os') → adds K (treeof os) (treeof osa) →
                   env_kept os osa → tree_ok (treeof osa) →
                   (m = Ok () → treeof osa !! goal (vfs os) p = Some NDir) →
    env_kept os os' ∧ adds K (treeof os) (treeof os') ∧ tree_ok (treeof os') ∧
    (r = Ok () → ∀ q, Some p = Some q → treeof os' !! goal (vfs os) q = Some NDir)) as Hend.
  { intros m osa Ho Hada Hea Hoka Hma. apply or_existing_eff in Ho as (-> & Ho & _).
    split_and!; [done..|]. intros Hr q [= <-]. destruct (Ho Hr) as [?|[_ Hd]]; [auto|].
    apply is_dir_goal in Hd.
    - by rewrite (goal_here _ (vfs osa)) by (symmetry; apply Hea).
    - apply free_way_no_link. by eapply free_way_adds; [| |]; [done|apply Hea|]. }
  case_decide as Hmade; [|by eapply Hend].
  apply io_bind in H2 as [(e & H & ->)|([] & os2 & H & H2)];
    (apply IH in H as (He2 & Hadd2 & Hok2 & _); [|eapply Forall_impl; [exact Hf|];
       intros q [? ?]; split; [done|]; eapply free_way_adds; [done|apply He|done]|done]).
  { split_and!; [by etrans|by etrans|done|done]. }
  apply io_bind in H2 as [(e & H & _)|(made2 & os3 & H & H2)].
  { by apply attempt_eq in H as (? & ? & _). }
  apply attempt_eq in H as (r2 & [= <-] & Hm2).
  assert (env_kept os os2 ∧ adds K (treeof os) (treeof os2)) as [He02 Ha02] by (split; by etrans).
  destruct (mkdir_eff _ _ _ _ (free_way_adds _ _ _ Hp (proj1 He02) Ha02) Hm2)
    as (He3 & Hadd3 & Hok3 & Hdir3 & _).
  eapply Hend; [exact H2|by etrans..|by apply Hok3|].
  intros Hr. rewrite (goal_here _ (vfs os2)) by (symmetry; apply He02). by apply Hdir3.
Qed.

End CreateDirs.

(** ** A change at one place *)

Definition edits (k : Place) (t t' : Tree) : Prop :=
  t' = t ∨ t !! k ≠ Some NDir ∧ ∀ k', k' ≠ k → t' !! k' = t !! k'.

Lemma edits_refl k t : edits k t t.
Proof. by left. Qed.

Lemma edits_trans k t1 t2 t3 : edits k t1 t2 → edits k t2 t3 → edits k t1 t3.
Proof.
  intros [->|[H1 H2]] [->|[H3 H4]]; [by left|by right..|]. right. split; [done|].
  intros k' Hk. by rewrite H4, H2.
Qed.

Lemma edits_insert k n t : t !! k ≠ Some NDir → edits k t (<[k := n]> t).
Proof. intros H. right. split; [done|]. intros k' Hk. by rewrite lookup_insert_ne. Qed.

Lemma edits_delete k t : t !! k ≠ Some NDir → edits k t (delete k t).
Proof. intros H. right. split; [done|]. intros k' Hk. by rewrite lookup_delete_ne. Qed.

Lemma tree_ok_leaf t k n node :
  tree_ok t → t !! k = Some n → n ≠ NDir → tree_ok (<[k := node]> t).
Proof.
  intros Hok Hk Hn. destruct k as [|x k _] using rev_ind; [destruct Hok; congruence|].
  apply tree_ok_insert; [done|by apply (proj2 Hok _ x)|].
  intros y Hy%(proj2 Hok). congruence.
Qed.

Lemma tree_ok_delete t k :
  tree_ok t → k ≠ [] → (∀ x, t !! (k ++ [x]) = None) → tree_ok (delete k t).
Proof.
  intros [H0 Hp] Hk Hx. split; [by rewrite lookup_delete_ne|].
  intros k' x [n H]. apply lookup_delete_Some in H as [Hne H].
  assert (k ≠ k') as Hkk by (intros ->; by rewrite Hx in H).
  rewrite lookup_delete_ne by done. apply (Hp k' x). eauto.
Qed.

Lemma tree_ok_unlink t k n : tree_ok t → t !! k = Some n → n ≠ NDir → tree_ok (delete k t).
Proof.
  intros Hok Hk Hn. apply tree_ok_delete; [done| |].
  - intros ->. destruct Hok. congruence.
  - intros x. destruct (t !! (k ++ [x])) eqn:E; [|done].
    pose proof (proj2 Hok k x ltac:(eauto)). congruence.
Qed.

(** What a file's mode is, where there is one. *)

Definition old_mode (o : option Node) : option Z :=
  match o with
  | Some (NFile _ mode) => mode
  | _ => None
  end.

Lemma open_at_eff v p s t :
  Forall (no_link (tree v)) (way v p) → namei v p = Ok s → open_at s v = Ok t →
  spot_place s = goal v p ∧ tree v !! goal v p ≠ Some NDir ∧
  t = <[goal v p := NFile [] (old_mode (tree v !! goal v p))]> (tree v) ∧
  (tree_ok (tree v) → tree_ok t).
Proof.
  intros Hn Hs H. pose proof (namei_goal _ _ _ Hn Hs) as Hg.
  destruct s as [k|k slash]; cbn in Hg, H; subst k.
  - destruct (tree v !! goal v p) as [[| |]|] eqn:E; [done| |done..]. injection H as <-.
    split_and!; [done..|]. intros Hok. by eapply tree_ok_leaf.
  - apply bind_Ok in Hs as ([] & _ & Hs). apply walk_free in Hs as (He & dir & n & Hd & Hdir & _);
      [|apply split_on_pieces]. destruct slash; [done|]. injection H as <-. rewrite He.
    split_and!; [done..|]. intros Hok. rewrite Hd in *. by apply tree_ok_add.
Qed.

Lemma write_all_eff k data os r os' d0 mode :
  treeof os !! k = Some (NFile d0 mode) → write_all k data os = (r, os') →
  env_kept os os' ∧ ∃ d, treeof os' = <[k := NFile d mode]> (treeof os) ∧
                         (r = Ok () → d = data) ∧ (faults os = [] → r = Ok ()).
Proof.
  intros Hk. unfold write_all, fill. destruct os as [v fs]. cbn [vfs faults] in *. rewrite Hk.
  destruct fs as [|[|e n] fs]; intros [= <- <-]; cbn;
    (split; [by repeat split|]); eauto.
  eexists. by split_and!.
Qed.

Lemma write_eff p data os r os' :
  Forall (no_link (treeof os)) (way (vfs os) p) → write p data os = (r, os') →
  let k := goal (vfs os) p in
  env_kept os os' ∧ edits k (treeof os) (treeof os') ∧
  (tree_ok (treeof os) → tree_ok (treeof os')) ∧ no_link (treeof os') k ∧
  (r = Ok () → treeof os !! k ≠ Some NDir ∧
               treeof os' = <[k := NFile data (old_mode (treeof os !! k))]> (treeof os)).
Proof.
  intros Hn H k. assert (no_link (treeof os) k) as Hk.
  { rewrite Forall_forall in Hn. apply Hn, goal_on_way. }
  apply io_bind in H as [(e & Hs & ->)|(s & os1 & Hs & H)]; injection Hs as Hs <-.
  { split_and!; [done|apply edits_refl|done..]. }
  apply io_bind in H as [(e & H & ->)|([] & os2 & H & H2)]; apply call_eff in H as [He H].
  { destruct H as [-> _]. split_and!; [done|apply edits_refl|done..]. }
  apply (open_at_eff _ p) in H as (Hg & Hd & Ht & Hok); [|done..]. fold k in Hg, Hd, Ht.
  rewrite Hg in H2.
  eapply write_all_eff in H2 as (He2 & d & Hw & Hr & _);
    [|by rewrite Ht, lookup_insert_eq]. rewrite Ht, insert_insert_eq in Hw.
  split_and!.
  - by etrans.
  - rewrite Hw. by apply edits_insert.
  - intros Ho%Hok. rewrite Hw, <-(insert_insert_eq (treeof os) k _ (NFile [] (old_mode (treeof os !! k)))), <-Ht.
    eapply tree_ok_leaf; [done|by rewrite Ht, lookup_insert_eq|done].
  - intros target. by rewrite Hw, lookup_insert_eq.
  - intros ->%Hr. done.
Qed.

Lemma set_permissions_eff p mode os r os' :
  Forall (no_link (treeof os)) (way (vfs os) p) → set_permissions p mode os = (r, os') →
  let k := goal (vfs os) p in
  env_kept os os' ∧ (treeof os' = treeof os ∨ treeof os' = chmod_at mode k (treeof os)).
Proof.
  intros Hn H k. apply call_eff in H as [He H]. split; [done|]. destruct r as [[]|e].
  - apply bind_Ok in H as (s & Hs & H). apply namei_goal in Hs; [|done].
    destruct s as [k'|]; [|done]. cbn in Hs. subst k'. injection H as <-. by right.
  - destruct H as [-> _]. by left.
Qed.

Lemma chmod_at_edits mode k t : edits k t (chmod_at mode k t).
Proof.
  unfold chmod_at. destruct (t !! k) as [[| |]|] eqn:E; try apply edits_refl.
  apply edits_insert. congruence.
Qed.

Lemma chmod_at_ok mode k t : tree_ok t → tree_ok (chmod_at mode k t).
Proof.
  intros Hok. unfold chmod_at. destruct (t !! k) as [[| |]|] eqn:E; try done.
  by eapply tree_ok_leaf.
Qed.

Lemma chmod_at_no_link mode k t : no_link t k → no_link (chmod_at mode k t) k.
Proof.
  intros Hn target. unfold chmod_at. destruct (t !! k) as [[| |]|] eqn:E; try apply Hn.
  by rewrite lookup_insert_eq.
Qed.

Lemma remove_file_eff p os r os' :
  Forall (no_link (treeof os)) (way (vfs os) p) → remove_file p os = (r, os') →
  let k := goal (vfs os) p in
  env_kept os os' ∧
  (treeof os' = treeof os ∨
   treeof os' = delete k (treeof os) ∧ ∃ n, treeof os !! k = Some n ∧ n ≠ NDir).
Proof.
  intros Hn H k. apply call_eff in H as [He H]. split; [done|]. destruct r as [[]|e].
  - apply at_name_goal in H as (dir & n & slash & Hg & _ & _ & H); [|done]. fold k in H.
    right. unfold unlink_at in H. destruct (treeof os !! k) as [[| |]|] eqn:E; [done| | |done];
      (destruct slash; [done|]); simplify_eq; rewrite <-H; eauto.
  - destruct H as [-> _]. by left.
Qed.

Lemma symlink_eff target p os r os' :
  Forall (no_link (treeof os)) (way (vfs os) p) → symlink target p os = (r, os') →
  let k := goal (vfs os) p in
  env_kept os os' ∧ (r ≠ Ok () → treeof os' = treeof os) ∧
  (r = Ok () → treeof os !! k = None ∧ treeof os' = <[k := NLink target]> (treeof os) ∧
               (tree_ok (treeof os) → tree_ok (treeof os'))).
Proof.
  intros Hn H k. apply call_eff in H as [He H]. split; [done|]. destruct r as [[]|e].
  - split; [done|]. intros _. apply bind_Ok in H as ([] & _ & H).
    apply at_name_goal in H as (dir & n & slash & Hg & Hd & _ & H); [|done]. fold k in H, Hg.
    unfold symlink_at in H. destruct (treeof os !! k) eqn:E; [done|]. destruct slash; [done|].
    injection H as H. rewrite <-H. split_and!; [done..|]. intros Hok. rewrite Hg in *.
    by apply tree_ok_add.
  - destruct H as [-> _]. done.
Qed.
