(* ===== verification/UnixFsMove.v ===== *)
(** * UnixFsMove: removing and moving, and plain paths

    What [remove_dir_all] and [rename] do to a tree, and the calls at a path
    that is the text of a place. *)

From S2P Require Import Prelude RustStd StdPath UnixFs UnixFsSpec.

(** ** Removing *)

Lemma elem_of_children k t n : n ∈ children k t ↔ is_Some (t !! (k ++ [n])).
Proof.
  unfold children. rewrite list_elem_of_omap. split.
  - intros (k' & Hk & H). apply elem_of_elements, elem_of_dom in Hk.
    destruct (strip_pre k k') as [[|x [|]]|] eqn:E; simplify_eq.
    apply strip_pre_Some in E as ->. done.
  - intros H. exists (k ++ [n]). rewrite strip_pre_app. split; [|done].
    by apply elem_of_elements, elem_of_dom.
Qed.

Lemma children_nil k t : children k t = [] ↔ ∀ x, t !! (k ++ [x]) = None.
Proof.
  split.
  - intros H x. destruct (t !! (k ++ [x])) eqn:E; [|done].
    assert (x ∈ children k t) as Hx by by apply elem_of_children.
    rewrite H in Hx. by apply not_elem_of_nil in Hx.
  - intros H. destruct (children k t) as [|x l] eqn:E; [done|].
    assert (x ∈ children k t) as [n Hx]%elem_of_children by (rewrite E; left). by rewrite H in Hx.
Qed.

(** Only places that satisfy [P] have gone. *)

Definition shrinks (P : Place → Prop) (t t' : Tree) : Prop :=
  ∀ k, t' !! k = t !! k ∨ P k ∧ t' !! k = None.

#[global] Instance shrinks_preorder P : PreOrder (shrinks P).
Proof.
  split; [intros t k; by left|]. intros a b c H1 H2 k.
  destruct (H1 k) as [E1|[? E1]], (H2 k) as [E2|[? E2]]; [left; congruence|right..]; split; congruence.
Qed.

Lemma shrinks_weaken (P Q : Place → Prop) t t' : (∀ k, P k → Q k) → shrinks P t t' → shrinks Q t t'.
Proof. intros HPQ H k. destruct (H k) as [?|[? ?]]; [by left|right]. auto. Qed.

Lemma shrinks_none P t t' k : shrinks P t t' → t !! k = None → t' !! k = None.
Proof. intros H Hk. destruct (H k) as [->|[_ ?]]; done. Qed.

Lemma shrinks_subseteq P t t' : shrinks P t t' → t' ⊆ t.
Proof. intros H. apply map_subseteq_spec. intros k n Hk. destruct (H k) as [<-|[_ E]]; congruence. Qed.

Definition below (k k' : Place) : Prop := ∃ x r, k' = k ++ x :: r.

Lemma below_child k x k' : below (k ++ [x]) k' → below k k'.
Proof. intros (y & r & ->). exists x, (y :: r). by rewrite <-app_assoc. Qed.

Lemma below_prefix k k' : below k k' → k `prefix_of` k'.
Proof. intros (x & r & ->). by exists (x :: r). Qed.

Lemma below_or k k' : k `prefix_of` k' → k' = k ∨ below k k'.
Proof. intros [[|x r] ->]; [left; by rewrite app_nil_r|right]. by exists x, r. Qed.

(** The number of places at and below one. *)

Definition weight (k : Place) (t : Tree) : nat := size (filter (λ '(k', _), k `prefix_of` k') t).

Lemma weight_shrinks P t t' k : shrinks P t t' → weight k t' ≤ weight k t.
Proof. intros H%shrinks_subseteq. apply map_subseteq_size. by apply map_filter_subseteq_mono. Qed.

Lemma weight_child k x t : is_Some (t !! k) → weight (k ++ [x]) t < weight k t.
Proof.
  intros [n Hk]. apply map_subset_size. split.
  - apply map_subseteq_spec. intros k' m [Hm [r ->]]%map_lookup_filter_Some.
    apply map_lookup_filter_Some. split; [done|]. exists (x :: r). by rewrite <-app_assoc.
  - intros H. rewrite map_subseteq_spec in H. specialize (H k n).
    rewrite !map_lookup_filter_Some in H. destruct (H ltac:(done)) as [_ [r E]].
    apply (f_equal length) in E. rewrite !length_app in E. cbn in E. lia.
Qed.

Lemma weight_pos k t : is_Some (t !! k) → 0 < weight k t.
Proof. intros H. pose proof (weight_child k [] t H). lia. Qed.

Lemma weight_size k t : weight k t ≤ size t.
Proof. apply map_subseteq_size, map_filter_subseteq. Qed.

Lemma rmdir_at_Ok k slash t t' :
  rmdir_at k slash t = Ok t' → t !! k = Some NDir ∧ children k t = [] ∧ t' = delete k t.
Proof.
  unfold rmdir_at. destruct (t !! k) as [[| |]|]; [|done..]. case_decide; [|done].
  by intros [= <-].
Qed.

Definition removes (P : Place → Prop) (os os' : Os) : Prop :=
  env_kept os os' ∧ shrinks P (treeof os) (treeof os') ∧
  (tree_ok (treeof os) → tree_ok (treeof os')).

#[global] Instance removes_preorder P : PreOrder (removes P).
Proof.
  split; [done|]. intros a b c (? & ? & ?) (? & ? & ?). split_and!; [by etrans..|auto].
Qed.

Lemma removes_weaken (P Q : Place → Prop) os os' :
  (∀ k, P k → Q k) → removes P os os' → removes Q os os'.
Proof. intros HPQ (? & ? & ?). split_and!; [done|by eapply shrinks_weaken|done]. Qed.

Lemma shrinks_delete (P : Place → Prop) k t : P k → shrinks P t (delete k t).
Proof.
  intros Hk k'. destruct (decide (k' = k)) as [->|].
  - right. by rewrite lookup_delete_eq.
  - left. by rewrite lookup_delete_ne.
Qed.

Lemma rmdir_eff k os r os' :
  k ≠ [] → call (λ v, rmdir_at k false (tree v)) os = (r, os') →
  removes (prefix k) os os' ∧ (r = Ok () → treeof os' !! k = None) ∧
  (faults os = [] → treeof os !! k = Some NDir → children k (treeof os) = [] → r = Ok ()).
Proof.
  intros Hne H. apply call_eff in H as [He H]. destruct r as [[]|e].
  - apply rmdir_at_Ok in H as (Hk & Hc & Ht). rewrite Ht. split_and!.
    + split_and!; [done| |].
      * rewrite Ht. by apply shrinks_delete.
      * rewrite Ht. intros Hok. apply tree_ok_delete; [done..|]. by apply children_nil.
    + intros _. by rewrite lookup_delete_eq.
    + done.
  - destruct H as [E H]. split_and!; [|done|].
    + split_and!; [done|by rewrite E|by rewrite E].
    + intros Hf Hk Hc. specialize (H Hf). unfold rmdir_at in H. by rewrite Hk, decide_True in H.
Qed.

Lemma unlink_eff k os r os' :
  k ≠ [] → treeof os !! k ≠ Some NDir → call (λ v, unlink_at k false (tree v)) os = (r, os') →
  removes (prefix k) os os' ∧ (r = Ok () → treeof os' !! k = None) ∧
  (faults os = [] → is_Some (treeof os !! k) → r = Ok ()).
Proof.
  intros Hne Hnd H. apply call_eff in H as [He H]. destruct r as [[]|e].
  - assert (∃ n, treeof os !! k = Some n ∧ n ≠ NDir ∧ treeof os' = delete k (treeof os))
      as (n & Hk & Hn & Ht).
    { unfold unlink_at in H. destruct (treeof os !! k) as [[| |]|]; simplify_eq; eauto. }
    rewrite Ht. split_and!; [|by rewrite lookup_delete_eq|done].
    split_and!; [done| |]; rewrite Ht; [by apply shrinks_delete|].
    intros Hok. by eapply tree_ok_unlink.
  - destruct H as [E H]. split_and!; [|done|].
    + split_and!; [done|by rewrite E|by rewrite E].
    + intros Hf [n Hk]. specialize (H Hf). unfold unlink_at in H. rewrite Hk in *. by destruct n.
Qed.

Section RemoveSpec.
Context (rem : Place → IO Os Errno unit) (fuel : nat).

Definition removes_well : Prop := ∀ k os r os',
  rem k os = (r, os') → tree_ok (treeof os) → treeof os !! k = Some NDir →
  removes (below k) os os' ∧ (r = Ok () → children k (treeof os') = []) ∧
  (faults os = [] → weight k (treeof os) ≤ fuel → r = Ok ()).

Lemma remove_child_eff k os r os' :
  removes_well → k ≠ [] → remove_child rem k os = (r, os') → tree_ok (treeof os) →
  removes (prefix k) os os' ∧ (r = Ok () → treeof os' !! k = None) ∧
  (faults os = [] → is_Some (treeof os !! k) → weight k (treeof os) ≤ fuel → r = Ok ()).
Proof.
  intros IH Hne H Hok. unfold remove_child in H.
  destruct (decide (treeof os !! k = Some NDir)) as [Hd|Hd].
  - erewrite io_bind_Ok in H by done. rewrite Hd in H.
    apply io_bind in H as [(e & H & ->)|([] & os1 & H & H2)];
      apply IH in H as (Hrem & Hc & Hq); try done.
    + split_and!; [|done|].
      * eapply removes_weaken; [|done]. intros ?. apply below_prefix.
      * intros Hf _ Hw. by specialize (Hq Hf Hw).
    + apply rmdir_eff in H2 as (Hrem2 & Hn & Hq2); [|done]. split_and!.
      * etrans; [|done]. eapply removes_weaken; [|done]. intros ?. apply below_prefix.
      * done.
      * intros Hf _ Hw. apply Hq2; [by apply Hrem| |by apply Hc].
        destruct Hrem as (_ & Hs & _). destruct (Hs k) as [->|[(x & r' & E) _]]; [done|].
        apply (f_equal length) in E. rewrite length_app in E. cbn in E. lia.
  - erewrite io_bind_Ok in H by done.
    assert (call (λ v, unlink_at k false (tree v)) os = (r, os')) as H'.
    { by destruct (treeof os !! k) as [[| |]|]. }
    apply unlink_eff in H' as (? & ? & ?); [|done..]. split_and!; auto.
Qed.

Lemma remove_each_eff k names os r os' :
  removes_well → NoDup names → remove_each rem k names os = (r, os') → tree_ok (treeof os) →
  removes (below k) os os' ∧
  (r = Ok () → ∀ x, x ∈ names → treeof os' !! (k ++ [x]) = None) ∧
  (faults os = [] → (∀ x, x ∈ names → is_Some (treeof os !! (k ++ [x]))) →
   weight k (treeof os) ≤ S fuel → is_Some (treeof os !! k) → r = Ok ()).
Proof.
  intros IH. revert os. induction names as [|x names IHn]; intros os Hnd H Hok.
  { injection H as <- <-. split_and!; [done| |done]. intros _ x Hx. by apply not_elem_of_nil in Hx. }
  apply NoDup_cons in Hnd as [Hx Hnd]. cbn [remove_each] in H.
  assert (k ++ [x] ≠ []) as Hne by by destruct k.
  assert (∀ k', (k ++ [x]) `prefix_of` k' → below k k') as Hbel.
  { intros k' [r' ->]. exists x, r'. by rewrite <-app_assoc. }
  apply io_bind in H as [(e & H & ->)|([] & os1 & H & H2)];
    apply remove_child_eff in H as (Hrem & Hc & Hq); try done.
  - split_and!; [by eapply removes_weaken|done|].
    intros Hf Hin Hw Hk. pose proof (weight_child k x _ Hk).
    assert (@Err Errno unit e = Ok ()); [|done]. apply Hq; [done| |lia]. apply Hin. by left.
  - apply IHn in H2 as (Hrem2 & Hc2 & Hq2); [|done|by apply Hrem]. split_and!.
    + etrans; [|done]. by eapply removes_weaken.
    + intros Hr y [->|Hy]%elem_of_cons; [|by apply Hc2]. destruct Hrem2 as (_ & Hs & _).
      eapply shrinks_none; [done|]. by apply Hc.
    + intros Hf Hin Hw Hk. destruct Hrem as (He & Hs & _). apply Hq2; [by apply He|..].
      * intros y Hy. destruct (Hs (k ++ [y])) as [->|[[r' E] _]].
        -- apply Hin. by right.
        -- rewrite <-app_assoc in E. simplify_eq/=.
      * etrans; [by eapply weight_shrinks|done].
      * destruct (Hs k) as [->|[[r' E] _]]; [done|].
        apply (f_equal length) in E. rewrite !length_app in E. cbn in E. lia.
Qed.

End RemoveSpec.

Lemma strip_pre_eq (k k' r : Place) : strip_pre k k' = Some r → k' = k ++ r.
Proof. apply strip_pre_Some. Qed.

Lemma NoDup_omap {A B} (f : A → option B) (l : list A) :
  (∀ a b x, f a = Some x → f b = Some x → a = b) → NoDup l → NoDup (omap f l).
Proof.
  intros Hf. induction 1 as [|a l Ha Hl IH]; [constructor|]. cbn.
  destruct (f a) as [x|] eqn:E; [|done]. constructor; [|done].
  rewrite list_elem_of_omap. intros (b & Hb & E'). by rewrite (Hf a b x) in Ha.
Qed.

Lemma children_NoDup k t : NoDup (children k t).
Proof.
  unfold children. apply NoDup_omap; [|apply NoDup_elements].
  intros a b x Ha Hb.
  destruct (strip_pre k a) as [[|? [|]]|] eqn:Ea; [done| |done..].
  destruct (strip_pre k b) as [[|? [|]]|] eqn:Eb; [done| |done..].
  apply strip_pre_eq in Ea as ->. apply strip_pre_eq in Eb as ->. congruence.
Qed.

Lemma remove_within_eff fuel : removes_well (remove_within fuel) fuel.
Proof.
  induction fuel as [|fuel IH]; intros k os r os' H Hok Hd.
  { injection H as <- <-. split_and!; [done..|]. intros _ Hw.
    pose proof (weight_pos k (treeof os) ltac:(eauto)). lia. }
  cbn [remove_within] in H. erewrite io_bind_Ok in H by done.
  eapply remove_each_eff in H as (Hrem & Hc & Hq); [|exact IH|apply children_NoDup|done].
  split_and!; [done| |].
  - intros Hr. apply children_nil. intros x. destruct Hrem as (_ & Hs & _).
    destruct (treeof os !! (k ++ [x])) eqn:E; [|by eapply shrinks_none].
    apply Hc; [done|]. apply elem_of_children. eauto.
  - intros Hf Hw. apply Hq; [done| |done|eauto]. intros x. apply elem_of_children.
Qed.

(** ** Moving *)

Lemma under_lookup k t r : under k t !! r = t !! (k ++ r).
Proof.
  unfold under. set (l := omap _ _).
  assert (∀ r n, (r, n) ∈ l ↔ t !! (k ++ r) = Some n) as Hl.
  { intros r' n. unfold l. rewrite list_elem_of_omap. split.
    - intros ([k' n'] & Hk & H). apply elem_of_map_to_list in Hk.
      destruct (strip_pre k k') eqn:E; simplify_eq/=. by apply strip_pre_eq in E as ->.
    - intros H. exists (k ++ r', n). split; [by apply elem_of_map_to_list|].
      by rewrite strip_pre_app. }
  destruct (t !! (k ++ r)) as [n|] eqn:E.
  - apply elem_of_list_to_map_1'; [|by apply Hl]. intros m Hm%Hl. congruence.
  - apply not_elem_of_list_to_map_1. intros ([r' n] & Hr & H)%list_elem_of_fmap.
    cbn in Hr. subst r'. apply Hl in H. congruence.
Qed.

Lemma strip_pre_None (k k' : Place) : strip_pre k k' = None ↔ ¬ k `prefix_of` k'.
Proof.
  split.
  - intros H [r ->]. by rewrite strip_pre_app in H.
  - intros H. destruct (strip_pre k k') eqn:E; [|done]. apply strip_pre_eq in E as ->.
    by destruct H; exists l.
Qed.

Lemma outside_lookup k t k' : ¬ k `prefix_of` k' → outside k t !! k' = t !! k'.
Proof.
  intros H%strip_pre_None. unfold outside. destruct (t !! k') as [n|] eqn:E.
  - by apply map_lookup_filter_Some.
  - apply map_lookup_filter_None. by left.
Qed.

Lemma outside_None k t k' : k `prefix_of` k' → outside k t !! k' = None.
Proof.
  intros H. apply map_lookup_filter_None. right. intros n _ Hn. by apply strip_pre_None in Hn.
Qed.

Lemma graft_lookup k s t k' : ¬ k `prefix_of` k' → graft k s t !! k' = t !! k'.
Proof.
  intros H. unfold graft. rewrite lookup_union. replace (kmap (app k) s !! k') with (@None Node).
  { by destruct (t !! k'). }
  symmetry. apply lookup_kmap_None; [apply _|]. intros r ->. destruct H. by exists r.
Qed.

Lemma graft_under k s t r : t !! (k ++ r) = None → graft k s t !! (k ++ r) = s !! r.
Proof.
  intros H. unfold graft. rewrite lookup_union, H, lookup_kmap by apply _. by destruct (s !! r).
Qed.

Section Move.
Context (a b : Place) (t : Tree).

Lemma move_to r : move a b t !! (b ++ r) = t !! (a ++ r).
Proof.
  unfold move. rewrite graft_under; [apply under_lookup|]. apply outside_None. by exists r.
Qed.

Lemma move_from k : a `prefix_of` k → ¬ b `prefix_of` k → move a b t !! k = None.
Proof.
  intros Ha Hb. unfold move. rewrite graft_lookup, outside_lookup by done. by apply outside_None.
Qed.

Lemma move_else k : ¬ a `prefix_of` k → ¬ b `prefix_of` k → move a b t !! k = t !! k.
Proof. intros Ha Hb. unfold move. by rewrite graft_lookup, !outside_lookup. Qed.

Lemma move_ok dir x :
  tree_ok t → b = dir ++ [x] → t !! dir = Some NDir → ¬ a `prefix_of` b → tree_ok (move a b t).
Proof.
  intros Hok Hb Hd Hab.
  assert (¬ b `prefix_of` dir) as Hbd.
  { intros [r E]. apply (f_equal length) in E. rewrite Hb, !length_app in E. cbn in E. lia. }
  assert (¬ a `prefix_of` dir) as Had.
  { intros [r ->]. destruct Hab. exists (r ++ [x]). by rewrite Hb, <-app_assoc. }
  split.
  - rewrite move_else; [apply Hok|..].
    + intros [r E]. destruct a; [|done]. destruct Hab. by exists b.
    + intros [r E]. rewrite Hb in E. by destruct dir.
  - intros k y Hk. destruct (decide (b `prefix_of` k)) as [[r ->]|Hbk].
    + rewrite <-app_assoc, move_to, app_assoc in Hk. rewrite move_to. by apply (proj2 Hok _ y).
    + destruct (decide (b `prefix_of` (k ++ [y]))) as [[r E]|Hbky].
      * destruct r as [|z r _] using rev_ind.
        -- rewrite app_nil_r in E. rewrite Hb in E. apply app_inj_tail in E as [-> _].
           by rewrite move_else.
        -- rewrite app_assoc in E. apply app_inj_tail in E as [-> _]. destruct Hbk. by exists r.
      * destruct (decide (a `prefix_of` (k ++ [y]))) as [Ha|Ha].
        -- rewrite move_from in Hk by done. by destruct Hk.
        -- rewrite move_else in Hk by done.
           rewrite move_else; [by apply (proj2 Hok _ y)| |done].
           intros [r ->]. destruct Ha. exists (r ++ [y]). by rewrite <-app_assoc.
Qed.

End Move.

(** ** Plain paths

    The path of a place, whose names are names, is walked to that place. *)

Definition ok_name (n : list byte) : Prop := clean_name n ∧ x00 ∉ n.

Lemma ok_names_good k : Forall ok_name k → Forall good_name k.
Proof. intros H. eapply Forall_impl; [exact H|]. by intros n [[? _] _]. Qed.

Lemma ok_names_clean k : Forall ok_name k → Forall clean_name k.
Proof. intros H. eapply Forall_impl; [exact H|]. by intros n [? _]. Qed.

Lemma split_below k :
  Forall good_name k → split_on "/"%byte (below_root k) = [] :: (if k is [] then [[]] else k).
Proof.
  intros Hk. unfold below_root. change (bs "/" ++ ?p) with ("/"%byte :: p). cbn [split_on].
  rewrite decide_True by done. f_equal. destruct k as [|n k]; [done|].
  apply split_join; [done|]. eapply Forall_impl; [exact Hk|]. by intros m (_ & _ & ?).
Qed.

Lemma check_below k : Forall ok_name k → check_path (below_root k) = Ok ().
Proof.
  intros Hk. unfold check_path. rewrite decide_False by done. rewrite decide_False; [done|].
  intros H. unfold below_root in H. apply elem_of_app in H as [H|H]; [set_solver|].
  apply elem_of_join in H as [H|(p & Hp & H)]; [set_solver|].
  rewrite Forall_forall in Hk. by destruct (Hk p Hp).
Qed.

Lemma tree_ok_prefix t k k' : tree_ok t → is_Some (t !! (k ++ k')) → k' ≠ [] → t !! k = Some NDir.
Proof.
  intros Hok. induction k' as [|x k' IH] using rev_ind; [done|]. intros H _.
  rewrite app_assoc in H. apply (proj2 Hok) in H. destruct (decide (k' = [])) as [->|Hne].
  - by rewrite app_nil_r in H.
  - apply IH; eauto.
Qed.

Lemma tree_ok_dir t k k' : tree_ok t → t !! (k ++ k') = Some NDir → t !! k = Some NDir.
Proof.
  intros Hok H. destruct (decide (k' = [])) as [->|Hne]; [by rewrite app_nil_r in H|].
  eapply tree_ok_prefix; eauto.
Qed.

Lemma lex_clean cur k : Forall clean_name k → lex cur k = cur ++ k.
Proof.
  intros Hk. revert cur. induction Hk as [|n k Hn _ IH]; intros cur; [by rewrite app_nil_r|].
  cbn [lex fold_left]. rewrite enter_clean by done. change (lex (cur ++ [n]) k = cur ++ n :: k).
  by rewrite IH, <-app_assoc.
Qed.

Lemma elem_of_trail_clean cur k p :
  Forall clean_name k → p ∈ trail cur k → ∃ j, p = cur ++ j ∧ j `prefix_of` k ∧ j ≠ [].
Proof.
  intros Hk. revert cur. induction Hk as [|n k Hn _ IH]; intros cur; [set_solver|].
  cbn [trail]. rewrite enter_clean by done. intros [->|Hp]%elem_of_cons.
  - exists [n]. split_and!; [done|by apply prefix_cons, prefix_nil|done].
  - apply IH in Hp as (j & -> & Hj & _). exists (n :: j). rewrite <-app_assoc.
    split_and!; [done|by apply prefix_cons|done].
Qed.

Lemma walk_dirs l t k rest :
  tree_ok t → Forall clean_name k → t !! k = Some NDir → walk l t [] (k ++ rest) = walk l t k rest.
Proof.
  intros Hok Hk Hd. rewrite walk_app.
  - by rewrite lex_clean.
  - apply Hok.
  - apply Forall_forall. intros p Hp. apply elem_of_trail_clean in Hp as (j & -> & [r ->] & _); [|done].
    by eapply tree_ok_dir.
Qed.

Section Plain.
Context (v : Vfs) (Hok : tree_ok (tree v)).

Lemma namei_dir k :
  Forall ok_name k → tree v !! k = Some NDir → namei v (below_root k) = Ok (At k).
Proof.
  intros Hk Hd. unfold namei. rewrite check_below by done. cbn [mbind result_bind].
  rewrite split_below by by apply ok_names_good. unfold start.
  replace (is_absolute (below_root k)) with true by done.
  rewrite walk_cons, (proj1 Hok). cbn [decide]. rewrite decide_True by by left.
  destruct k as [|n k]; [by rewrite walk_cons, (proj1 Hok), decide_True, walk_nil by auto|].
  rewrite <-(app_nil_r (n :: k)), walk_dirs, walk_nil, app_nil_r; [done..| |done].
  by apply ok_names_clean.
Qed.

Lemma namei_name k n :
  Forall ok_name (k ++ [n]) → tree v !! k = Some NDir → no_link (tree v) (k ++ [n]) →
  namei v (below_root (k ++ [n])) =
  Ok (if tree v !! (k ++ [n]) is Some _ then At (k ++ [n]) else Free (k ++ [n]) false).
Proof.
  intros Hk Hd Hl. unfold namei. rewrite check_below by done. cbn [mbind result_bind].
  rewrite split_below by by apply ok_names_good. unfold start.
  replace (is_absolute (below_root (k ++ [n]))) with true by done.
  rewrite walk_cons, (proj1 Hok). rewrite decide_True by by left.
  replace (match k ++ [n] with [] => [[]] | _ => k ++ [n] end) with (k ++ [n]) by by destruct k.
  apply Forall_app in Hk as [Hk [[((H1 & H2 & _) & H3) _] _]%Forall_cons].
  rewrite walk_dirs; [|done| |done].
  - rewrite walk_cons, Hd. rewrite decide_False, decide_False by naive_solver.
    destruct (tree v !! (k ++ [n])) as [[| |target]|] eqn:E; [by rewrite walk_nil..| |done].
    by destruct (Hl target).
  - by apply ok_names_clean.
Qed.

Lemma reverse_split_below k n :
  Forall ok_name (k ++ [n]) →
  reverse (split_on "/"%byte (below_root (k ++ [n]))) = n :: reverse k ++ [[]].
Proof.
  intros Hk. rewrite split_below by by apply ok_names_good.
  replace (match k ++ [n] with [] => [[]] | _ => k ++ [n] end) with (k ++ [n]) by by destruct k.
  by rewrite reverse_cons, reverse_app.
Qed.

Lemma drop_blanks_name n rest : n ≠ [] → drop_blanks (n :: rest) = n :: rest.
Proof. intros H. cbn. unfold blank. by rewrite bool_decide_false. Qed.

Lemma parentat_walk k n :
  Forall ok_name (k ++ [n]) →
  parentat v (below_root (k ++ [n])) =
  dir ← walk_dir v (below_root (k ++ [n])) ([] :: k); Ok (dir, Some n, false).
Proof.
  intros Hk. unfold parentat. rewrite check_below by done. cbn [mbind result_bind].
  rewrite reverse_split_below by done. cbv zeta.
  apply Forall_app in Hk as [_ [[((H1 & H2 & _) & H3) _] _]%Forall_cons].
  rewrite drop_blanks_name by done. rewrite bool_decide_true by done.
  rewrite reverse_app, reverse_involutive. change (reverse [[]] ++ k) with ([] :: k).
  by rewrite decide_False by naive_solver.
Qed.

Lemma parentat_below k n :
  Forall ok_name (k ++ [n]) → tree v !! k = Some NDir →
  parentat v (below_root (k ++ [n])) = Ok (k, Some n, false).
Proof.
  intros Hk Hd. rewrite parentat_walk by done. unfold walk_dir, start.
  replace (is_absolute (below_root (k ++ [n]))) with true by done.
  rewrite walk_cons, (proj1 Hok), decide_True by by left.
  apply Forall_app in Hk as [Hk _].
  rewrite <-(app_nil_r k), walk_dirs, walk_nil, app_nil_r; [|done| |done].
  - cbn [mbind result_bind]. rewrite decide_True by done. done.
  - by apply ok_names_clean.
Qed.

Lemma at_name_below k n e f :
  Forall ok_name (k ++ [n]) → tree v !! k = Some NDir →
  at_name (below_root (k ++ [n])) e f v = f (k ++ [n]) false (tree v).
Proof. intros Hk Hd. unfold at_name. by rewrite parentat_below. Qed.

End Plain.
