(* ===== verification/UnixFsPlain.v ===== *)
(** * UnixFsPlain: the calls at the path of a place *)

From S2P Require Import Prelude RustStd StdPath UnixFs UnixFsSpec UnixFsMove.

(** ** Making a directory, plainly *)

Lemma parent_below k n : Forall good_name (k ++ [n]) → parent (below_root (k ++ [n])) = Some (below_root k).
Proof.
  intros Hk. unfold parent. rewrite below_root_rev by done. rewrite reverse_snoc.
  apply Forall_app in Hk as [Hk _].
  rewrite trim_segments_good by by apply Forall_reverse. unfold rebuild.
  replace (body_start (below_root (k ++ [n]))) with 1 by done. by rewrite reverse_involutive.
Qed.

Lemma ancestors_below k q :
  Forall good_name k → q ∈ ancestors (below_root k) → ∃ j, j `prefix_of` k ∧ q = below_root j.
Proof.
  intros Hk. revert q. induction k as [|n k IH] using rev_ind; intros q; rewrite ancestors_unfold.
  - intros [->|Hq]%elem_of_cons; [by exists []|]. by apply not_elem_of_nil in Hq.
  - rewrite parent_below by done. intros [->|Hq]%elem_of_cons; [by exists (k ++ [n])|].
    apply Forall_app in Hk as [Hk _]. destruct (IH Hk q Hq) as (j & Hj & ->).
    exists j. split; [by apply prefix_app_r|done].
Qed.

Lemma way_below v k p : Forall ok_name k → p ∈ way v (below_root k) → p `prefix_of` k.
Proof.
  intros Hk. unfold way, start. replace (is_absolute (below_root k)) with true by done.
  rewrite split_below by by apply ok_names_good. intros [->|Hp]%elem_of_cons; [apply prefix_nil|].
  destruct k as [|n k]; [apply list_elem_of_singleton in Hp as ->; done|].
  apply (elem_of_trail_clean [] (n :: k)) in Hp as (j & -> & Hj & _); [done|].
  by apply ok_names_clean.
Qed.

Lemma goal_below v k : Forall ok_name k → goal v (below_root k) = k.
Proof.
  intros Hk. unfold goal, start. replace (is_absolute (below_root k)) with true by done.
  rewrite split_below by by apply ok_names_good. destruct k as [|n k]; [done|].
  change (lex [] (n :: k) = n :: k). rewrite lex_clean; [done|].
  by apply ok_names_clean.
Qed.

Lemma prefix_free_way (t : Tree) k v j :
  tree v = t → Forall ok_name k → (∀ j, j `prefix_of` k → no_link t j) → j `prefix_of` k →
  free_way (λ p, p `prefix_of` k) v (below_root j).
Proof.
  intros <- Hk Hn Hj p Hp. destruct Hj as [r ->]. apply Forall_app in Hk as [Hk _].
  apply way_below in Hp; [|done]. assert (p `prefix_of` j ++ r) by by apply prefix_app_r.
  auto.
Qed.

Lemma way_below_no_link v k :
  Forall ok_name k → (∀ j, j `prefix_of` k → no_link (tree v) j) →
  Forall (no_link (tree v)) (way v (below_root k)).
Proof. intros Hk Hn. apply Forall_forall. intros p Hp. apply Hn. by eapply way_below. Qed.

(** Directories, as far as they go. *)

Definition clear_way (t : Tree) (k : Place) : Prop :=
  ∀ j, j `prefix_of` k → t !! j = None ∨ t !! j = Some NDir.

Lemma clear_no_link t k : clear_way t k → ∀ j, j `prefix_of` k → no_link t j.
Proof. intros H j Hj target. by destruct (H j Hj) as [->| ->]. Qed.

Lemma clear_prefix t k j : clear_way t k → j `prefix_of` k → clear_way t j.
Proof. intros H Hj p Hp. apply H. by etrans. Qed.

Lemma dir_clear t k : tree_ok t → t !! k = Some NDir → clear_way t k.
Proof. intros Hok Hd j [r ->]. right. by eapply tree_ok_dir. Qed.

Lemma walk_missing l t k cur :
  Forall clean_name k → t !! cur = Some NDir →
  (∀ j, j `prefix_of` k → t !! (cur ++ j) = None ∨ t !! (cur ++ j) = Some NDir) →
  t !! (cur ++ k) = None →
  walk l t cur k = Err ENOENT ∨ ∃ k' slash, walk l t cur k = Ok (Free k' slash).
Proof.
  intros Hk. revert cur. induction Hk as [|n k Hn Hk IH]; intros cur Hd Hc Hm.
  { rewrite app_nil_r in Hm. congruence. }
  rewrite walk_cons, Hd. destruct Hn as ((H1 & H2 & _) & H3).
  rewrite decide_False, decide_False by naive_solver.
  destruct (Hc [n]) as [E|E]; [by apply prefix_cons, prefix_nil| |]; rewrite E.
  - destruct (forallb blank k); eauto.
  - apply IH; [done| |by rewrite <-app_assoc]. intros j Hj. rewrite <-app_assoc.
    apply Hc. by apply prefix_cons.
Qed.

Lemma parentat_missing v k n :
  tree_ok (tree v) → Forall ok_name (k ++ [n]) → clear_way (tree v) k → tree v !! k = None →
  parentat v (below_root (k ++ [n])) = Err ENOENT.
Proof.
  intros Hok Hk Hc Hm. rewrite parentat_walk by done. unfold walk_dir, start.
  replace (is_absolute (below_root (k ++ [n]))) with true by done.
  rewrite walk_cons, (proj1 Hok), decide_True by by left.
  apply Forall_app in Hk as [Hk _].
  destruct (walk_missing MAX_LINKS (tree v) k []) as [->|(k' & sl & ->)]; [|apply Hok|done..].
  by apply ok_names_clean.
Qed.

Lemma create_dir_all_eff k os r os' :
  Forall ok_name k → tree_ok (treeof os) → (∀ j, j `prefix_of` k → no_link (treeof os) j) →
  create_dir_all (below_root k) os = (r, os') →
  env_kept os os' ∧ adds (λ p, p `prefix_of` k) (treeof os) (treeof os') ∧ tree_ok (treeof os') ∧
  (r = Ok () → treeof os' !! k = Some NDir).
Proof.
  intros Hk Hok Hn H.
  apply (create_dirs_eff (λ p, p `prefix_of` k)) in H as (He & Ha & Ho & Hd); [|clear H|done].
  2: { apply Forall_forall. intros q Hq. apply ancestors_below in Hq as (j & Hj & ->); [|by apply ok_names_good].
    split; [done|]. by eapply prefix_free_way. }
  - split_and!; [done..|]. intros Hr. rewrite <-(goal_below (vfs os) k) by done.
    apply Hd; [done|]. by rewrite ancestors_unfold.
Qed.

Lemma create_dir_all_quiet k os :
  faults os = [] → Forall ok_name k → tree_ok (treeof os) → clear_way (treeof os) k →
  ∃ os', create_dir_all (below_root k) os = (Ok (), os').
Proof.
  revert os. induction k as [|n k IH] using rev_ind; intros os Hf Hk Hok Hc;
    unfold create_dir_all; rewrite ancestors_unfold; cbn [create_dirs].
  { by eexists. }
  rewrite parent_below by by apply ok_names_good. rewrite decide_False by naive_solver.
  assert (clear_way (treeof os) k) as Hck by (eapply clear_prefix; [done|by exists [n]]).
  assert (∀ os1, faults os1 = [] → tree_ok (treeof os1) → treeof os1 !! k = Some NDir →
            treeof os1 !! (k ++ [n]) = None →
            mkdir (below_root (k ++ [n])) os1 =
              (Ok (), set_tree (<[k ++ [n] := NDir]> (treeof os1)) os1)) as Hmk.
  { intros os1 Hf1 Hok1 Hd1 Hn1. apply call_quiet; [done|]. rewrite at_name_below by done.
    unfold mkdir_at. by rewrite Hn1. }
  destruct (Hck k) as [E|E]; [done| |].
  - erewrite io_bind_Ok; [|unfold attempt, mkdir; by erewrite call_quiet_Err;
      [|done|unfold at_name; by rewrite parentat_missing]].
    rewrite decide_True by done. apply Forall_app in Hk as Hk'. destruct Hk' as [Hk' _].
    destruct (IH os) as [os2 H2]; [done..|]. erewrite io_bind_Ok by exact H2.
    apply create_dir_all_eff in H2 as (He & Ha & Ho & Hd); [|done..|by apply clear_no_link].
    erewrite io_bind_Ok; [|unfold attempt; rewrite Hmk; [done|by apply He|done|by apply Hd|]].
    { by eexists. }
    destruct (Ha (k ++ [n])) as [->|[Hp _]].
    + destruct (treeof os !! (k ++ [n])) eqn:En; [|done]. 
      pose proof (proj2 Hok k n ltac:(eauto)). congruence.
    + apply prefix_length in Hp. rewrite length_app in Hp. cbn in Hp. lia.
  - destruct (Hc (k ++ [n])) as [E2|E2]; [done| |].
    + erewrite io_bind_Ok; [|unfold attempt; rewrite Hmk; done].
      rewrite decide_False by done. by eexists.
    + erewrite io_bind_Ok; [|unfold attempt, mkdir; by erewrite call_quiet_Err;
        [|done|rewrite at_name_below by done; unfold mkdir_at; by rewrite E2]].
      rewrite decide_False by done. unfold or_existing. erewrite io_bind_Ok by done.
      replace (is_dir (vfs os) (below_root (k ++ [n]))) with true.
      { rewrite bool_decide_true by done. by eexists. }
      symmetry. apply bool_decide_eq_true. unfold stat. rewrite namei_dir by done.
      cbn [mbind result_bind]. by rewrite E2.
Qed.

(** ** Removing, plainly *)

Lemma remove_file_below k n os r os' :
  Forall ok_name (k ++ [n]) → tree_ok (treeof os) → treeof os !! k = Some NDir →
  remove_file (below_root (k ++ [n])) os = (r, os') →
  removes (prefix (k ++ [n])) os os' ∧
  (faults os = [] → ∀ node, treeof os !! (k ++ [n]) = Some node → node ≠ NDir →
   treeof os' !! (k ++ [n]) = None).
Proof.
  intros Hk Hok Hd H.
  assert (r = Ok () → treeof os' = delete (k ++ [n]) (treeof os) ∧
            ∃ node, treeof os !! (k ++ [n]) = Some node ∧ node ≠ NDir) as Hr.
  { intros ->. apply call_eff in H as [_ H]. rewrite at_name_below in H by done.
    unfold unlink_at in H. destruct (treeof os !! (k ++ [n])) as [[| |]|]; simplify_eq; eauto. }
  pose proof H as H'. apply call_eff in H as [He H]. split.
  - destruct r as [[]|e].
    + destruct Hr as (Ht & node & Hn & Hne); [done|]. split_and!; [done| |]; rewrite Ht.
      * by apply shrinks_delete.
      * intros _. by eapply tree_ok_unlink.
    + destruct H as [E _]. split_and!; [done|by rewrite E|by rewrite E].
  - intros Hf node Hn Hne. destruct r as [[]|e].
    + destruct Hr as [-> _]; [done|]. by rewrite lookup_delete_eq.
    + destruct H as [_ H]. specialize (H Hf). rewrite at_name_below in H by done.
      unfold unlink_at in H. rewrite Hn in H. by destruct node.
Qed.

Lemma remove_file_only k n os r os' :
  Forall ok_name (k ++ [n]) → tree_ok (treeof os) → treeof os !! k = Some NDir →
  remove_file (below_root (k ++ [n])) os = (r, os') →
  treeof os' = treeof os ∨ treeof os' = delete (k ++ [n]) (treeof os).
Proof.
  intros Hk Hok Hd H. apply call_eff in H as [_ H]. destruct r as [[]|e].
  - rewrite at_name_below in H by done. unfold unlink_at in H. right.
    destruct (treeof os !! (k ++ [n])) as [[| |]|]; [done| | |done]; by injection H as <-.
  - destruct H as [-> _]. by left.
Qed.

Lemma symlink_only k n target os r os' :
  Forall ok_name (k ++ [n]) → tree_ok (treeof os) → treeof os !! k = Some NDir →
  symlink target (below_root (k ++ [n])) os = (r, os') →
  env_kept os os' ∧ tree_ok (treeof os') ∧
  (treeof os' = treeof os ∨ treeof os' = <[k ++ [n] := NLink target]> (treeof os)).
Proof.
  intros Hk Hok Hd H. apply call_eff in H as [He H]. split; [done|]. destruct r as [[]|e].
  - apply bind_Ok in H as ([] & _ & H). rewrite at_name_below in H by done. unfold symlink_at in H.
    destruct (treeof os !! (k ++ [n])) eqn:E; [done|]. injection H as <-.
    split; [by apply tree_ok_add|by right].
  - destruct H as [-> _]. split; [done|by left].
Qed.

Lemma remove_dir_below k n os r os' :
  Forall ok_name (k ++ [n]) → tree_ok (treeof os) → treeof os !! k = Some NDir →
  remove_dir (below_root (k ++ [n])) os = (r, os') →
  removes (prefix (k ++ [n])) os os' ∧
  (faults os = [] → treeof os !! (k ++ [n]) = Some NDir → children (k ++ [n]) (treeof os) = [] →
   treeof os' !! (k ++ [n]) = None).
Proof.
  intros Hk Hok Hd H. unfold remove_dir in H.
  rewrite (call_ext _ (λ v, rmdir_at (k ++ [n]) false (tree v))) in H by by apply at_name_below.
  apply rmdir_eff in H as (? & Hr & Hq); [|by destruct k]. split; [done|]. auto.
Qed.

Lemma remove_dir_all_below k n os r os' :
  Forall ok_name (k ++ [n]) → tree_ok (treeof os) → treeof os !! k = Some NDir →
  remove_dir_all (below_root (k ++ [n])) os = (r, os') →
  removes (prefix (k ++ [n])) os os' ∧
  (faults os = [] → (∀ d m, treeof os !! (k ++ [n]) ≠ Some (NFile d m)) →
   treeof os' !! (k ++ [n]) = None).
Proof.
  intros Hk Hok Hd H. unfold remove_dir_all in H.
  apply io_bind in H as [(e & H & _)|(is_link & os1 & H & H2)]; injection H as H <-;
    unfold ends_in_link in H; rewrite parentat_below in H by done; [done|].
  cbn [mbind result_bind] in H.
  destruct (treeof os !! (k ++ [n])) as [[|d m|target]|] eqn:E; cbn in H; injection H as <-.
  - erewrite io_bind_Ok in H2; [|unfold look_at; by rewrite namei_dir].
    cbn beta iota in H2.
    erewrite io_bind_Ok in H2 by done. rewrite decide_True in H2 by done.
    apply io_bind in H2 as [(e & H & ->)|([] & os1 & H & H2)];
      apply remove_within_eff in H as (Hrem & Hc & Hq); try done.
    + split; [eapply removes_weaken; [|done]; intros ?; apply below_prefix|].
      intros Hf _. specialize (Hq Hf (weight_size _ _)). done.
    + assert (∀ j n', (∀ x r', j ≠ (k ++ [n]) ++ x :: r') → treeof os !! j = Some n' →
                treeof os1 !! j = Some n') as Hkeep.
      { intros j n' Hj Hn. destruct Hrem as (_ & Hs & _).
        destruct (Hs j) as [->|[(x & r' & ->) _]]; [done|]. by destruct (Hj x r'). }
      apply remove_dir_below in H2 as [Hrem2 Hq2]; [|done|by apply Hrem|].
      * split; [etrans; [|done]; eapply removes_weaken; [|done]; intros ?; apply below_prefix|].
        intros Hf _. apply Hq2; [by apply Hrem| |by apply Hc].
        apply Hkeep; [|done]. intros x r' E'. apply (f_equal length) in E'.
        rewrite !length_app in E'. cbn in E'. lia.
      * apply Hkeep; [|done]. intros x r' E'. apply (f_equal length) in E'.
        rewrite !length_app in E'. cbn in E'. lia.
  - erewrite io_bind_Ok in H2; [|unfold look_at; rewrite namei_name; [by rewrite E|done..|]].
    + cbn beta iota in H2. erewrite io_bind_Ok in H2 by done. rewrite decide_False in H2 by congruence.
      injection H2 as <- <-. split; [done|]. intros _ Hno. by destruct (Hno d m).
    + intros target. congruence.
  - apply remove_file_below in H2 as [? Hq]; [|done..]. split; [done|]. intros Hf _. by eapply Hq.
  - erewrite io_bind_Ok in H2; [|unfold look_at; rewrite namei_name; [by rewrite E|done..|]].
    + injection H2 as <- <-. done.
    + intros target. congruence.
Qed.

(** ** Renaming, plainly *)

Lemma rename_below k m k' n os :
  Forall ok_name (k ++ [m]) → Forall ok_name (k' ++ [n]) → tree_ok (treeof os) →
  treeof os !! k = Some NDir → treeof os !! k' = Some NDir →
  rename (below_root (k ++ [m])) (below_root (k' ++ [n])) os =
  call (λ v, rename_at (k ++ [m]) (k' ++ [n]) false (tree v)) os.
Proof.
  intros Hm Hn Hok Hd Hd'. apply call_ext. by rewrite !at_name_below.
Qed.

(** ** Calls that do not fail *)

Lemma write_quiet k n data os :
  faults os = [] → Forall ok_name (k ++ [n]) → tree_ok (treeof os) → treeof os !! k = Some NDir →
  no_link (treeof os) (k ++ [n]) → treeof os !! (k ++ [n]) ≠ Some NDir →
  ∃ os', write (below_root (k ++ [n])) data os = (Ok (), os').
Proof.
  intros Hf Hk Hok Hd Hl Hn. unfold write.
  erewrite io_bind_Ok; [|unfold look_at; by rewrite namei_name].
  assert (∃ t, open_at (if treeof os !! (k ++ [n]) is Some _ then At (k ++ [n]) else Free (k ++ [n]) false)
                 (vfs os) = Ok t) as [t Ht].
  { unfold open_at.
    destruct (treeof os !! (k ++ [n])) as [[|d m|target]|] eqn:E; [done| |by destruct (Hl target)|];
      rewrite ?E; eauto. }
  erewrite io_bind_Ok by by apply call_quiet. unfold write_all. cbn. rewrite Hf. by eexists.
Qed.

Lemma symlink_quiet k n target os :
  faults os = [] → Forall ok_name (k ++ [n]) → tree_ok (treeof os) → treeof os !! k = Some NDir →
  treeof os !! (k ++ [n]) = None → check_path target = Ok () →
  ∃ os', symlink target (below_root (k ++ [n])) os = (Ok (), os').
Proof.
  intros Hf Hk Hok Hd Hn Hc. eexists. apply call_quiet; [done|]. rewrite Hc. cbn [mbind result_bind].
  rewrite at_name_below by done. unfold symlink_at. by rewrite Hn.
Qed.
