(* ===== verification/Install.v ===== *)
(** * Install: [oam_loader/src/install.rs] and [trust.rs]

    [oam install], on a POSIX build: a lockfile's packages are fetched,
    verified and extracted, their bins are linked, and the lifecycle scripts of
    the trusted ones are run.

    What changes the disk is a computation over [UnixFs.Os]; what also
    fetches, or runs a script, one over [World], which keeps what the process
    has sent and run.  The archive formats, the hashes, base64, serde, the
    network and the shell are parameters.  Warnings printed to stderr, elapsed
    times, the pauses between two tries, the resolver caches that are dropped
    first ([Loader.clear_caches]) and the [--precompile] pass are left out:
    [install] here is the call with [precompile] false. *)

From S2P Require Import Prelude RustStd StdPath Tsconfig Loader UnixFs.

(** ** Paths *)

(** [p.strip_prefix("package").unwrap_or(&p)]. *)

Definition strip_package (p : path) : path :=
  match components p with
  | Normal name :: _ =>
      if decide (name = bs "package") then
        join (bs "/") (reverse (trim_segments (reverse (trim_segments (tail (segments p))))))
      else p
  | _ => p
  end.

(** [Path::starts_with]. *)

Definition path_starts_with (p base : path) : bool :=
  bool_decide (components base `prefix_of` components p).

Definition clean_push (out : path) (c : Component) : path :=
  match c with
  | ParentDir => default out (parent out)
  | CurDir => out
  | c => path_join out (component_text c)
  end.

Definition path_clean (p : path) : path := fold_left clean_push (components p) [].

(** ** Tarballs *)

Abbreviation Text := (list byte).

Inductive Kind : Type := KDir | KFile | KSymlink | KOther.

(** What the code asks of a tar entry; [link_name] is [Ok(Some(name))]. *)

Record TarEntry : Type := {
  entry_path : result Text path;
  entry_type : Kind;
  entry_contents : result Text (list byte);
  entry_mode : option Z;
  link_name : option path
}.

(** [tar::Archive::new(GzDecoder::new(data)).entries()]. *)

Class Tarballs : Type := {
  tar_entries : list byte → result Text (list (result Text TarEntry))
}.

Definition res_err {E F A} (f : E → F) (r : result E A) : result F A :=
  match r with
  | Ok a => Ok a
  | Err e => Err (f e)
  end.

(** [format!("{what} {p}: {e}")]. *)

Definition failed (what : string) (p : path) (e : Errno) : Text :=
  bs what ++ bs " " ++ display p ++ bs ": " ++ errno_text e.

Definition create_symlink_entry (link_name target dest_clean rel : path) : IO Os Text unit :=
  let link_parent := default target (parent target) in
  let resolved := path_clean (path_join link_parent link_name) in
  if negb (path_starts_with resolved dest_clean) then mret ()
  else
    _ ← attempt (remove_file target);
    map_err (λ e, bs "symlink " ++ display target ++ bs " -> " ++ display link_name ++ bs ": " ++ errno_text e)
      (symlink link_name target).

Definition write_entry (entry : TarEntry) (target rel : path) : IO Os Text unit :=
  contents ← lift (res_err (λ e, bs "read tar entry " ++ display rel ++ bs ": " ++ e)
                     (entry_contents entry));
  _ ← map_err (failed "write" target) (write target contents);
  match entry_mode entry with
  | Some mode => _ ← attempt (set_permissions target mode); mret ()
  | None => mret ()
  end.

(** An entry whose target has passed the traversal check. *)

Definition place_entry (dest_clean target rel : path) (entry : TarEntry) : IO Os Text unit :=
  _ ← match parent target with
      | Some up => map_err (failed "create dir" up) (create_dir_all up)
      | None => mret ()
      end;
  match entry_type entry with
  | KDir => map_err (failed "create dir" target) (create_dir_all target)
  | KFile => write_entry entry target rel
  | KSymlink =>
      match link_name entry with
      | Some name => create_symlink_entry name target dest_clean rel
      | None => mret ()
      end
  | KOther => mret ()
  end.

(** A turn of [extract_into]'s loop. *)

Definition extract_entry (dest dest_clean : path) (item : result Text TarEntry) : IO Os Text unit :=
  entry ← lift (res_err (λ e, bs "tar entry: " ++ e) item);
  p ← lift (res_err (λ e, bs "tar entry path: " ++ e) (entry_path entry));
  let rel := strip_package p in
  if decide (rel = []) then mret ()
  else
    let target := path_join dest rel in
    if negb (path_starts_with (path_clean target) dest_clean) then
      io_err (bs "tarball path traversal: " ++ display rel ++ bs " escapes " ++ display dest)
    else place_entry dest_clean target rel entry.

Fixpoint extract_entries (dest dest_clean : path) (items : list (result Text TarEntry))
  : IO Os Text unit :=
  match items with
  | [] => mret ()
  | item :: items => _ ← extract_entry dest dest_clean item; extract_entries dest dest_clean items
  end.

Section Extract.
Context {TB : Tarballs}.

Definition extract_into (data : list byte) (dest : path) : IO Os Text unit :=
  items ← lift (res_err (λ e, bs "tar entries: " ++ e) (tar_entries data));
  extract_entries dest (path_clean dest) items.

Definition package_json (dest : path) : path := path_join dest (bs "package.json").

(** A stale destination is cleared away; the extracted tree takes its place,
    unless a peer's has. *)

Definition clear_dest (dest : path) : IO Os Text unit :=
  there ← look (λ v, exists_ v dest);
  if there : bool then _ ← attempt (remove_dir_all dest); mret () else mret ().

Definition take_place (tmp dest : path) : IO Os Text unit :=
  renamed ← attempt (rename tmp dest);
  match renamed with
  | Ok _ => mret ()
  | Err e =>
      _ ← attempt (remove_dir_all tmp);
      landed ← look (λ v, is_file v (package_json dest));
      if landed : bool then mret ()
      else io_err (bs "rename " ++ display tmp ++ bs " -> " ++ display dest ++ bs ": " ++ errno_text e)
  end.

Definition settle (tmp dest : path) : IO Os Text unit :=
  landed ← look (λ v, is_file v (package_json dest));
  if landed : bool then _ ← attempt (remove_dir_all tmp); mret ()
  else _ ← clear_dest dest; take_place tmp dest.

(** [extract_tarball], its temporary directory chosen. *)

Definition extract_via (tmp : path) (data : list byte) (dest : path) : IO Os Text unit :=
  _ ← attempt (remove_dir_all tmp);
  _ ← map_err (failed "create extract tempdir" tmp) (create_dir_all tmp);
  extracted ← attempt (extract_into data tmp);
  match extracted with
  | Ok _ => settle tmp dest
  | Err e => _ ← attempt (remove_dir_all tmp); io_err e
  end.

Definition tmp_name (base : list byte) (pid tmp_id : Z) : list byte :=
  bs "." ++ base ++ bs ".oam-tmp-" ++ dec_text pid ++ bs "-" ++ dec_text tmp_id.

End Extract.

(** ** [trust.rs] *)

Record TrustConfig : Type := { trusted : list Text }.

Definition is_trusted (cfg : TrustConfig) (name : Text) : bool := bool_decide (name ∈ trusted cfg).

Definition trust_add (cfg : TrustConfig) (name : Text) : bool * TrustConfig :=
  if is_trusted cfg name then (false, cfg) else (true, {| trusted := trusted cfg ++ [name] |}).

Definition trust_remove (cfg : TrustConfig) (name : Text) : bool * TrustConfig :=
  let kept := filter (λ p, p ≠ name) (trusted cfg) in
  (bool_decide (length kept < length (trusted cfg)), {| trusted := kept |}).

(** The environment variables the code reads. *)

Record Env : Type := {
  xdg_config_home : option path;
  home_var : option path;
  userprofile : option path;
  ignore_scripts : option Text
}.

Definition global_trust_path (env : Env) : option path :=
  base ← match xdg_config_home env with
         | Some p => Some p
         | None =>
             h ← match home_var env with
                 | Some h => Some h
                 | None => userprofile env
                 end;
             Some (path_join h (bs ".config"))
         end;
  Some (path_join (path_join base (bs "oam")) (bs "trust.json")).

Definition local_trust_path (project_dir : path) : path :=
  path_join (path_join project_dir (bs ".oam")) (bs "trust.json").

(** Serde's reading and writing of a trust file. *)

Class TrustSerde : Type := {
  trust_from_str : list byte → option (list Text);
  trust_to_string_pretty : list Text → list byte
}.

Section Trust.
Context {TS : TrustSerde}.

Definition read_config (v : Vfs) (p : path) : option TrustConfig :=
  content ← ok (read_to_string v p);
  names ← trust_from_str content;
  Some {| trusted := names |}.

Definition default_trust (cfg : option TrustConfig) : TrustConfig :=
  default {| trusted := [] |} cfg.

Definition load_global (env : Env) (v : Vfs) : TrustConfig :=
  default_trust (p ← global_trust_path env; read_config v p).

Definition load_local (v : Vfs) (project_dir : path) : TrustConfig :=
  default_trust (read_config v (local_trust_path project_dir)).

Definition trust_load (env : Env) (v : Vfs) (project_dir : path) : TrustConfig :=
  {| trusted := trusted (load_global env v) ++ trusted (load_local v project_dir) |}.

Definition save_config (cfg : TrustConfig) (p : path) : IO Os Errno unit :=
  _ ← match parent p with
      | Some up => create_dir_all up
      | None => mret ()
      end;
  write p (trust_to_string_pretty (trusted cfg) ++ [x0a]).

Definition save_local (cfg : TrustConfig) (project_dir : path) : IO Os Errno unit :=
  save_config cfg (local_trust_path project_dir).

Definition save_global (env : Env) (cfg : TrustConfig) : IO Os Errno unit :=
  match global_trust_path env with
  | Some p => save_config cfg p
  | None => io_err ENOENT
  end.

End Trust.

(** ** Fetching, verifying *)

(** The hashes, and [STANDARD.decode]. *)

Class Digests : Type := {
  sha512 : list byte → list byte;
  sha1 : list byte → list byte;
  base64_decode : Text → result Text (list byte)
}.

Definition verify_integrity `{Digests} (data : list byte) (integrity : Text) : result Text unit :=
  '(algo, hash_b64) ← ok_or (split_once "-"%byte integrity) (bs "invalid SRI format: " ++ integrity);
  let matches (computed : list byte) : result Text unit :=
    expected ← res_err (λ e, bs "invalid base64 in integrity: " ++ e) (base64_decode hash_b64);
    if decide (computed = expected) then Ok () else Err (algo ++ bs " integrity mismatch") in
  if decide (algo = bs "sha512") then matches (sha512 data)
  else if decide (algo = bs "sha1") then matches (sha1 data)
  else Err (bs "unsupported hash algorithm: " ++ algo).

(** What the process does to the world beside its disk. *)

Inductive Event : Type :=
| Sent (url : Text)
| Ran (pkg_dir : path) (phase cmd : Text) (bin_dir : path).

(** [tmp_counter] is [TMP_COUNTER]. *)

Record World : Type := {
  os : Os;
  tmp_counter : Z;
  log : list Event
}.

Definition set_os (o : Os) (w : World) : World :=
  {| os := o; tmp_counter := tmp_counter w; log := log w |}.

Definition on_disk {E A} (m : IO Os E A) : IO World E A := λ w,
  let '(r, o) := m (os w) in (r, set_os o w).

Definition seen {E A} (f : Vfs → A) : IO World E A := λ w, (Ok (f (vfs (os w))), w).

Definition push_log (ev : Event) (w : World) : World :=
  {| os := os w; tmp_counter := tmp_counter w; log := log w ++ [ev] |}.

Definition fetch_add {E} : IO World E Z := λ w,
  (Ok (tmp_counter w),
   {| os := os w; tmp_counter := wrap_u 64 (tmp_counter w + 1); log := log w |}).

(** What becomes of a request, after all that was done before it: reqwest's
    answers, a status by its text and whether it [is_success]. *)

Inductive Reply : Type :=
| NoResponse (e : Text)
| Response (status : Text) (success : bool) (body : result Text (list byte)).

(** What becomes of a script: its exit code, none if a signal ended it; and the
    tree it leaves. *)

Inductive ScriptEnd : Type :=
| NotSpawned (e : Text)
| Exited (code : option Z).

Class Outside : Type := {
  runtime_ready : result Text unit;
  client_ready : result Text unit;
  http_get : list Event → Text → Reply;
  run_sh : list Event → Tree → Text → ScriptEnd * Tree;
  lock_works : bool
}.

Definition reply_bytes (url : Text) (reply : Reply) : result Text (list byte) :=
  match reply with
  | NoResponse e => Err (bs "request to " ++ url ++ bs ": " ++ e)
  | Response status success body =>
      if success then res_err (λ e, bs "reading body from " ++ url ++ bs ": " ++ e) body
      else Err (bs "HTTP " ++ status ++ bs " for " ++ url)
  end.

Section Fetch.
Context `{Outside}.

Definition get {E} (url : Text) : IO World E Reply :=
  λ w, (Ok (http_get (log w) url), push_log (Sent url) w).

(** [for attempt in 0..=retries], [attempts] of them left. *)

Fixpoint download_loop (attempts : nat) (url last_err : Text) : IO World Text (list byte) :=
  match attempts with
  | O => io_err last_err
  | S attempts =>
      reply ← get url;
      match reply_bytes url reply with
      | Ok bytes => mret bytes
      | Err e => download_loop attempts url e
      end
  end.

Definition download_with_retry (url : Text) (retries : nat) : IO World Text (list byte) :=
  download_loop (S retries) url [].

Context `{Tarballs} `{Digests} (pid : Z).

Definition extract_tarball (data : list byte) (dest : path) : IO World Text unit :=
  up ← lift (ok_or (parent dest) (bs "extract destination has no parent dir: " ++ display dest));
  base ← lift (ok_or (name ← file_name dest; from_utf8 name)
                 (bs "extract destination has no file name: " ++ display dest));
  tmp_id ← fetch_add;
  on_disk (extract_via (path_join up (tmp_name base pid tmp_id)) data dest).

Definition fetch_and_extract (url : Text) (integrity : option Text) (dest : path)
  : IO World Text unit :=
  data ← download_with_retry url 3;
  _ ← lift (match integrity with
            | Some sri => verify_integrity data sri
            | None => Ok ()
            end);
  extract_tarball data dest.

End Fetch.

(** ** Diagnostics *)

Inductive Severity : Type := Error | Warning.

Record Report : Type := {
  report_code : Text;
  severity : Severity;
  report_text : Text
}.

Definition diag (code : string) (message : Text) : Report :=
  {| report_code := bs code; severity := Error; report_text := message |}.

Definition warning (code : string) (message : Text) : Report :=
  {| report_code := bs code; severity := Warning; report_text := message |}.

(** ** Bins *)

(** An entry of the lockfile's [packages]. *)

Record LockfileEntry : Type := {
  resolved : option Text;
  integrity : option Text;
  bin : option Value
}.

Record Lockfile : Type := {
  lockfile_version : Z;
  packages : gmap Text LockfileEntry
}.

Section Bins.
Context {JS : Serde}.

Definition read_json (v : Vfs) (p : path) : option Value :=
  raw ← ok (read_to_string v p);
  json_from_str raw.

Definition bin_field (v : Vfs) (pkg_dir : path) (entry : LockfileEntry) : option Value :=
  match bin entry with
  | Some b => Some b
  | None => pj ← read_json v (package_json pkg_dir); value_get (bs "bin") pj
  end.

(** [key.rsplit('/').next()]. *)

Definition last_segment (key : Text) : Text := default key (last (split_on "/"%byte key)).

Definition bins_of (v : Vfs) (node_modules : path) (key : Text) (entry : LockfileEntry)
  : list (Text * path) :=
  let pkg_dir := path_join (default node_modules (parent node_modules)) key in
  match bin_field v pkg_dir entry with
  | Some (VString s) => [(last_segment key, path_join pkg_dir s)]
  | Some (VObject fields) =>
      omap (λ '(name, value), s ← as_str value; Some (name, path_join pkg_dir s)) fields
  | _ => []
  end.

Fixpoint drop_common (t b : list Component) : list Component * list Component :=
  match t, b with
  | x :: t', y :: b' => if decide (x = y) then drop_common t' b' else (t, b)
  | _, _ => (t, b)
  end.

Definition pathdiff (v : Vfs) (target base_canonical : path) : path :=
  let t := match canonicalize v target with
           | Ok p => p
           | Err _ => default target (absolute (Some (below_root (here v))) target)
           end in
  let '(t_parts, b_parts) := drop_common (components t) (components base_canonical) in
  fold_left path_join (component_text <$> t_parts) (fold_left path_join ((λ _, bs "..") <$> b_parts) []).

Definition create_bin_shim (bin_dir bin_dir_canonical : path) (name : Text) (target : path)
  : IO Os Text unit :=
  rel ← look (λ v, pathdiff v target bin_dir_canonical);
  let link := path_join bin_dir name in
  _ ← attempt (remove_file link);
  _ ← map_err (λ e, bs "symlink " ++ display link ++ bs " -> " ++ display rel ++ bs ": " ++ errno_text e)
        (symlink rel link);
  isfile ← look (λ v, is_file v target);
  if isfile : bool then _ ← attempt (set_permissions target 493); mret () else mret ().

Fixpoint shim_all {E} (bin_dir bin_dir_canonical : path) (bins : list (Text * path)) : IO Os E unit :=
  match bins with
  | [] => mret ()
  | (name, target) :: bins =>
      _ ← attempt (create_bin_shim bin_dir bin_dir_canonical name target);
      shim_all bin_dir bin_dir_canonical bins
  end.

(** The warnings it leaves, as its value. *)

Definition link_bins {E} (node_modules : path) (to_install : list (Text * LockfileEntry))
  : IO Os E (list Report) :=
  let bin_dir := path_join node_modules (bs ".bin") in
  bins ← look (λ v, '(key, entry) ← to_install; bins_of v node_modules key entry);
  if decide (bins = []) then mret []
  else
    made ← attempt (create_dir_all bin_dir);
    match made with
    | Err e => mret [warning "OAM-PKG0005" (bs "could not create .bin directory: " ++ errno_text e)]
    | Ok _ =>
        canonical ← look (λ v, canonicalize v bin_dir);
        match canonical with
        | Err e =>
            mret [warning "OAM-PKG0005"
                    (bs "could not canonicalize " ++ display bin_dir ++ bs ": " ++ errno_text e
                     ++ bs " (bin shims will not be created)")]
        | Ok bin_dir_canonical =>
            _ ← shim_all bin_dir bin_dir_canonical bins;
            mret []
        end
    end.

End Bins.

(** ** Lifecycle scripts *)

Record PendingScripts : Type := {
  script_dir : path;
  script_pkg : Text;
  scripts : list (Text * Text);
  marker_path : path
}.

Definition script_marker_path (scripts_ran_dir : path) (pkg_name : Text) : path :=
  path_join scripts_ran_dir ((λ b, if decide (b = "/"%byte) then "+"%byte else b) <$> pkg_name).

Definition PHASES : list Text := [bs "preinstall"; bs "install"; bs "postinstall"].

Section Scripts.
Context {JS : Serde}.

(** The scripts a package declares, in order. *)

Definition lifecycle_scripts (json : Value) : list (Text * Text) :=
  match value_get (bs "scripts") json with
  | Some (VObject fields) =>
      omap (λ phase, cmd ← map_get phase fields ≫= as_str; Some (phase, cmd)) PHASES
  | _ => []
  end.

Definition check_lifecycle_scripts (v : Vfs) (dest : path) (pkg_name : Text)
    (scripts_ran_dir : path) (trust : TrustConfig) : option PendingScripts * list Report :=
  match read_json v (package_json dest) with
  | None => (None, [])
  | Some json =>
      let present := lifecycle_scripts json in
      if decide (present = []) then (None, [])
      else if negb (is_trusted trust pkg_name) then
        let version := default (bs "?") (value_get (bs "version") json ≫= as_str) in
        (None,
         [warning "OAM-PKG0007"
            (pkg_name ++ bs "@" ++ version ++ bs " has lifecycle script(s) ("
             ++ join (bs ", ") (present.*1)
             ++ bs ") -- skipped; run 'oam trust add " ++ pkg_name ++ bs "' to allow")])
      else
        (Some {| script_dir := dest; script_pkg := pkg_name; scripts := present;
                 marker_path := script_marker_path scripts_ran_dir pkg_name |}, [])
  end.

End Scripts.

(** [format!("{:?}", status.code())]. *)

Definition debug_code (code : option Z) : Text :=
  match code with
  | None => bs "None"
  | Some z => bs "Some(" ++ (if (z <? 0)%Z then bs "-" ++ dec_text (- z) else dec_text z) ++ bs ")"
  end.

Section RunScripts.
Context `{Outside} (env : Env).

(** [run_sh] is told of the call just logged.  A colon cannot be in a path that
    is joined into [PATH]. *)

Definition run_one_script (cmd phase : Text) (pkg_dir bin_dir : path) : IO World Text unit :=
  if contains bin_dir ":"%byte then
    io_err (bs "PATH join: path segment contains separator `:`")
  else λ w,
    let w := push_log (Ran pkg_dir phase cmd bin_dir) w in
    let '(ended, t) := run_sh (log w) (tree (vfs (os w))) cmd in
    (match ended with
     | NotSpawned e => Err (bs "spawn sh: " ++ e)
     | Exited code =>
         if decide (code = Some 0%Z) then Ok ()
         else Err (bs "exit code " ++ debug_code code)
     end, set_os (set_tree t (os w)) w).

Definition script_failed (pkg_name phase e : Text) : Report :=
  diag "OAM-PKG0009" (pkg_name ++ bs ": " ++ phase ++ bs " script failed: " ++ e).

Fixpoint run_phases {E} (pkg : PendingScripts) (bin_dir : path) (phases : list (Text * Text))
  : IO World E (bool * list Report) :=
  match phases with
  | [] => mret (true, [])
  | (phase, cmd) :: phases =>
      ran ← attempt (run_one_script cmd phase (script_dir pkg) bin_dir);
      '(all_ok, errors) ← run_phases pkg bin_dir phases;
      mret (match ran with
            | Ok _ => (all_ok, errors)
            | Err e => (false, script_failed (script_pkg pkg) phase e :: errors)
            end)
  end.

Definition stamp {E} (marker : path) : IO Os E unit :=
  _ ← match parent marker with
      | Some up => _ ← attempt (create_dir_all up); mret ()
      | None => mret ()
      end;
  _ ← attempt (write marker []);
  mret ().

Fixpoint run_packages {E} (bin_dir : path) (pending : list PendingScripts) : IO World E (list Report) :=
  match pending with
  | [] => mret []
  | pkg :: pending =>
      '(all_ok, errors) ← run_phases pkg bin_dir (scripts pkg);
      _ ← (if all_ok : bool then on_disk (stamp (marker_path pkg)) else mret ());
      errors' ← run_packages bin_dir pending;
      mret (errors ++ errors')
  end.

Definition scripts_globally_ignored : bool :=
  match ignore_scripts env with
  | Some v => bool_decide (v ∈ [bs "1"; bs "true"; bs "on"; bs "yes"])
  | None => false
  end.

Definition run_lifecycle_scripts {E} (pending : list PendingScripts) (node_modules : path)
  : IO World E (list Report) :=
  if scripts_globally_ignored then
    mret ((λ pkg, warning "OAM-PKG0007"
                    (script_pkg pkg ++ bs ": lifecycle scripts skipped (OAM_IGNORE_SCRIPTS set)"))
            <$> pending)
  else run_packages (path_join node_modules (bs ".bin")) pending.

End RunScripts.

(** ** [install] *)

(** [sort_by_key]: strings by their bytes. *)

Fixpoint bytes_le (a b : list byte) : bool :=
  match a, b with
  | [], _ => true
  | _, [] => false
  | x :: a, y :: b => if decide (x = y) then bytes_le a b else (b2z x <? b2z y)%Z
  end.

Definition entry_le (a b : Text * LockfileEntry) : Prop := bytes_le a.1 b.1 = true.

#[global] Instance entry_le_dec a b : Decision (entry_le a b).
Proof. unfold entry_le. apply _. Defined.

Definition to_install (lockfile : Lockfile) : list (Text * LockfileEntry) :=
  merge_sort entry_le (filter (λ p, p.1 ≠ []) (map_to_list (packages lockfile))).

(** What follows the last [node_modules/] of a key. *)

Fixpoint rfind_sub (pat l : list byte) : option (list byte) :=
  match l with
  | [] => strip_pre pat []
  | _ :: t => match rfind_sub pat t with
              | Some r => Some r
              | None => strip_pre pat l
              end
  end.

Definition package_name (key : Text) : Text := default key (rfind_sub (bs "node_modules/") key).

Inductive InstallOutcome : Type :=
| Complete (packages_installed : nat)
| Partial (installed : nat) (errors : list Report).

Class LockSerde : Type := { lockfile_from_str : list byte → result Text Lockfile }.

Section Install.
Context `{Outside} `{Tarballs} `{Digests} {JS : Serde} {TS : TrustSerde} {LS : LockSerde}.
Context (pid : Z) (env : Env).

Definition read_lockfile (v : Vfs) (p : path) : result Report Lockfile :=
  raw ← res_err (λ e, diag "OAM-PKG0001"
          (bs "cannot read " ++ display p ++ bs ": " ++ errno_text e
           ++ bs " (run `npm install` to generate a lockfile)")) (read_to_string v p);
  res_err (λ e, diag "OAM-PKG0001" (bs "failed to parse " ++ display p ++ bs ": " ++ e))
    (lockfile_from_str raw).

(** [acquire_install_lock]: whether the lock is held. *)

Definition open_create (p : path) : IO Os Errno unit :=
  spot ← look_at (λ v, namei v p);
  call (λ v, match spot with
             | Free k slash => if slash then Err EISDIR else Ok (<[k := NFile [] None]> (tree v))
             | At k => if tree v !! k is Some (NFile _ _) then Ok (tree v) else Err EISDIR
             end).

Definition acquire_install_lock {E} (node_modules : path) : IO Os E bool :=
  let oam_dir := path_join node_modules (bs ".oam") in
  made ← attempt (create_dir_all oam_dir);
  match made with
  | Err _ => mret false
  | Ok _ =>
      opened ← attempt (open_create (path_join oam_dir (bs "install.lock")));
      mret (is_ok opened && lock_works)
  end.

(** What the loop over the packages has gathered. *)

Record Progress : Type := {
  installed : nat;
  errors : list Report;
  pending_scripts : list PendingScripts
}.

Definition no_progress : Progress := {| installed := 0; errors := []; pending_scripts := [] |}.

Definition landed (found : option PendingScripts * list Report) (st : Progress) : Progress :=
  {| installed := S (installed st); errors := errors st ++ found.2;
     pending_scripts := pending_scripts st ++ option_list found.1 |}.

Definition failed_install (key e : Text) (st : Progress) : Progress :=
  {| installed := installed st;
     errors := errors st ++ [diag "OAM-PKG0004" (bs "failed to install " ++ key ++ bs ": " ++ e)];
     pending_scripts := pending_scripts st |}.

Definition install_package {E} (project_dir scripts_ran_dir : path) (trust : TrustConfig)
    (key : Text) (entry : LockfileEntry) (st : Progress) : IO World E Progress :=
  match resolved entry with
  | None => mret st
  | Some url =>
      let dest := path_join project_dir key in
      let pkg_name := package_name key in
      let scripts_found v := check_lifecycle_scripts v dest pkg_name scripts_ran_dir trust in
      present ← seen (λ v, is_file v (package_json dest));
      if present : bool then
        stamped ← seen (λ v, is_file v (script_marker_path scripts_ran_dir pkg_name));
        found ← seen (λ v, if stamped : bool then (None, []) else scripts_found v);
        mret (landed found st)
      else
        fetched ← attempt (fetch_and_extract pid url (integrity entry) dest);
        match fetched with
        | Ok _ => found ← seen scripts_found; mret (landed found st)
        | Err e => mret (failed_install key e st)
        end
  end.

Fixpoint install_packages {E} (project_dir scripts_ran_dir : path) (trust : TrustConfig)
    (todo : list (Text * LockfileEntry)) (st : Progress) : IO World E Progress :=
  match todo with
  | [] => mret st
  | (key, entry) :: todo =>
      st ← install_package project_dir scripts_ran_dir trust key entry st;
      install_packages project_dir scripts_ran_dir trust todo st
  end.

(** From the lock on. *)

Definition install_all {E} (project_dir : path) (lockfile : Lockfile) : IO World E InstallOutcome :=
  let node_modules := path_join project_dir (bs "node_modules") in
  let scripts_ran_dir := path_join (path_join node_modules (bs ".oam")) (bs "scripts-ran") in
  let todo := to_install lockfile in
  trust ← seen (λ v, trust_load env v project_dir);
  st ← install_packages project_dir scripts_ran_dir trust todo no_progress;
  bin_errors ← on_disk (link_bins node_modules todo);
  script_errors ← run_lifecycle_scripts env (pending_scripts st) node_modules;
  let all := errors st ++ bin_errors ++ script_errors in
  mret (if decide (all = []) then Complete (installed st) else Partial (installed st) all).

Definition install (project_dir : path) (frozen : bool) : IO World Report InstallOutcome :=
  if negb frozen then
    io_err (diag "OAM-PKG0006" (bs "only --frozen-lockfile mode is supported in this release"))
  else
    found ← seen (λ v, read_lockfile v (path_join project_dir (bs "package-lock.json")));
    lockfile ← lift found;
    if negb (lockfile_version lockfile =? 3)%Z then
      io_err (diag "OAM-PKG0002"
        (bs "unsupported lockfileVersion " ++ dec_text (lockfile_version lockfile)
         ++ bs " (expected 3); regenerate with npm 7+"))
    else
      _ ← on_disk (acquire_install_lock (path_join project_dir (bs "node_modules")));
      _ ← lift (res_err (λ e, diag "OAM-PKG0003" (bs "failed to create async runtime: " ++ e))
                  runtime_ready);
      _ ← lift (res_err (λ e, diag "OAM-PKG0003" (bs "failed to create HTTP client: " ++ e))
                  client_ready);
      install_all project_dir lockfile.

End Install.
