(* ===== verification/InstallTree.v ===== *)
(** * InstallTree: what an extraction can touch

    An archive is tame when no entry steps above the directory it is extracted
    into and none goes by way of a link an earlier entry made.  Extracting a
    tame archive changes nothing outside that directory: [extract_into_inside],
    whatever calls fail. *)

From S2P Require Import Prelude RustStd StdPath Tsconfig Loader UnixFs UnixFsSpec UnixFsMove.
From S2P Require Import UnixFsPlain Install.

(** ** Tame archives *)

(** The places on the way from a directory, none above it. *)

Fixpoint rel_trail (cur : Place) (segs : list (list byte)) : option (list Place) :=
  match segs with
  | [] => Some []
  | seg :: rest =>
      if decide (seg = bs ".." ∧ cur = []) then None
      else ks ← rel_trail (enter cur seg) rest; Some (enter cur seg :: ks)
  end.

Definition untouched (links ks : list Place) : bool := forallb (λ k, bool_decide (k ∉ links)) ks.

Fixpoint tame (links : list Place) (items : list (result Text TarEntry)) : bool :=
  match items with
  | Ok entry :: items =>
      match entry_path entry with
      | Err _ => true
      | Ok p =>
          let rel := strip_package p in
          if decide (rel = []) then tame links items
          else
            negb (is_absolute rel) &&
            match rel_trail [] (split_on "/"%byte rel) with
            | None => false
            | Some ks =>
                untouched links ks &&
                tame (if entry_type entry is KSymlink then default [] (last ks) :: links else links)
                  items
            end
      end
  | _ => true
  end.

Lemma enter_rel (T cur : Place) seg :
  ¬ (seg = bs ".." ∧ cur = []) → enter (T ++ cur) seg = T ++ enter cur seg.
Proof.
  intros H. unfold enter. case_decide; [done|]. case_decide as Hu; [|by rewrite app_assoc].
  destruct cur as [|x cur _] using rev_ind; [naive_solver|]. unfold up.
  rewrite app_assoc, !length_app. cbn. rewrite !Nat.add_sub.
  rewrite <-length_app, !take_app_length. done.
Qed.

Lemma rel_trail_trail (T : Place) segs cur ks :
  rel_trail cur segs = Some ks → trail (T ++ cur) segs = app T <$> ks.
Proof.
  revert cur ks. induction segs as [|seg segs IH]; intros cur ks; cbn [rel_trail trail].
  { by intros [= <-]. }
  case_decide as Hd; [done|]. destruct (rel_trail _ segs) as [ks'|] eqn:E; [|done].
  intros [= <-]. rewrite enter_rel by done. cbn. f_equal. by apply IH.
Qed.

Lemma rel_trail_lex (T : Place) segs cur ks :
  rel_trail cur segs = Some ks → segs ≠ [] →
  lex (T ++ cur) segs = T ++ default [] (last ks) ∧ ks ≠ [].
Proof.
  revert cur ks. induction segs as [|seg segs IH]; intros cur ks; [done|]. intros H _.
  cbn [rel_trail] in H. case_decide as Hd; [done|].
  destruct (rel_trail _ segs) as [ks'|] eqn:E; [|done]. injection H as <-. split; [|done].
  cbn [lex fold_left]. rewrite enter_rel by done. destruct segs as [|seg' segs].
  - by injection E as <-.
  - destruct (IH _ _ E) as [Hl Hne]; [done|]. unfold lex in Hl. rewrite Hl.
    by destruct ks'.
Qed.

(** ** The text of a target *)

Lemma split_on_cut sep a l : split_on sep (a ++ sep :: l) = split_on sep a ++ split_on sep l.
Proof.
  induction a as [|b a IH]; cbn [app split_on]; [by rewrite decide_True|].
  rewrite IH. pose proof (split_on_ne sep a) as Hne.
  destruct (split_on sep a) as [|p ps]; [done|]. cbn. by case_decide.
Qed.

Section Target.
Context (D : Place) (m : list byte).
Context (HT : Forall ok_name (D ++ [m])).

Lemma T_good : Forall good_name (D ++ [m]).
Proof. by apply ok_names_good. Qed.

Lemma T_clean : Forall clean_name (D ++ [m]).
Proof. by apply ok_names_clean. Qed.

Lemma below_root_last k n :
  Forall good_name (k ++ [n]) → ∃ c, last (below_root (k ++ [n])) = Some c ∧ c ≠ "/"%byte.
Proof.
  intros [_ [(H1 & _ & H2) _]%Forall_cons]%Forall_app. unfold below_root.
  assert (∃ y, bs "/" ++ join (bs "/") (k ++ [n]) = y ++ n) as [y ->].
  { destruct k as [|x k]; [by exists (bs "/")|]. rewrite join_snoc by done.
    eexists. by rewrite !app_assoc. }
  destruct n as [|b n _] using rev_ind; [done|]. rewrite app_assoc, last_snoc.
  exists b. split; [done|]. set_solver.
Qed.

Lemma target_text rel :
  is_absolute rel = false →
  path_join (below_root (D ++ [m])) rel = below_root (D ++ [m]) ++ "/"%byte :: rel.
Proof.
  intros Hr. unfold path_join. rewrite Hr.
  destruct (below_root_last D m T_good) as (c & -> & Hc). by rewrite decide_False.
Qed.

Lemma target_split rel :
  is_absolute rel = false →
  split_on "/"%byte (path_join (below_root (D ++ [m])) rel) =
  [] :: (D ++ [m]) ++ split_on "/"%byte rel.
Proof.
  intros Hr. rewrite target_text by done. rewrite split_on_cut.
  rewrite split_below by apply T_good. by destruct D.
Qed.

Lemma target_absolute rel :
  is_absolute rel = false → is_absolute (path_join (below_root (D ++ [m])) rel) = true.
Proof. intros Hr. by rewrite target_text. Qed.

Lemma target_way v rel ks :
  is_absolute rel = false → rel_trail [] (split_on "/"%byte rel) = Some ks →
  way v (path_join (below_root (D ++ [m])) rel) =
    [] :: trail [] (D ++ [m]) ++ (app (D ++ [m]) <$> ks) ∧
  goal v (path_join (below_root (D ++ [m])) rel) = (D ++ [m]) ++ default [] (last ks).
Proof.
  intros Hr Hk. unfold way, goal, start. rewrite target_absolute, target_split by done.
  cbn [trail]. change (enter [] []) with (@nil (list byte)).
  change (lex [] ([] :: ?x)) with (lex [] x).
  rewrite (trail_app [] (D ++ [m])), (lex_app [] (D ++ [m])), (lex_clean [] (D ++ [m])) by apply T_clean.
  change (@nil (list byte) ++ (D ++ [m])) with (D ++ [m]).
  pose proof (rel_trail_trail (D ++ [m]) _ _ _ Hk) as Ht. rewrite app_nil_r in Ht. rewrite Ht.
  destruct (rel_trail_lex (D ++ [m]) _ _ _ Hk) as [Hl _]; [apply split_on_ne|].
  rewrite app_nil_r in Hl. by rewrite Hl.
Qed.

End Target.

(** An absolute path's ancestors are on its way. *)

Lemma absolute_split p : is_absolute p = true → split_on "/"%byte p = [] :: segments p.
Proof.
  unfold segments, body_start. intros Ha. rewrite Ha. apply starts_with_prefix in Ha as [q ->].
  cbn [bs]. change (bs "/" ++ q) with ("/"%byte :: q). cbn [split_on orb].
  by rewrite decide_True.
Qed.

Lemma parent_way v p q :
  is_absolute p = true → parent p = Some q →
  is_absolute q = true ∧ ∀ k, k ∈ way v q → k = [] ∨ k ∈ way v p.
Proof.
  intros Ha Hq. unfold parent in Hq. destruct (rev_segments p) as [|s rest] eqn:Er.
  { by rewrite Ha in Hq. }
  injection Hq as <-. unfold rebuild, body_start. rewrite Ha. cbn [orb].
  pose proof Ha as Ha'. apply starts_with_prefix in Ha' as [p' Hp].
  assert (∃ pre, segments p = reverse (trim_segments rest) ++ pre) as [pre Hpre].
  { destruct (trim_segments_suffix rest) as [a Ea].
    destruct (trim_segments_suffix (reverse (segments p))) as [b Eb].
    unfold rev_segments in Er. rewrite Er in Eb. apply (f_equal reverse) in Eb.
    rewrite reverse_involutive, reverse_app, reverse_cons in Eb.
    rewrite Ea in Eb at 1. rewrite reverse_app, <-!app_assoc in Eb. eauto. }
  set (rest' := reverse (trim_segments rest)) in *.
  assert (take 1 p = bs "/") as -> by by rewrite Hp.
  split; [done|]. intros k. unfold way, start.
  rewrite Ha. replace (is_absolute (bs "/" ++ join (bs "/") rest')) with true by done.
  rewrite (absolute_split p) by done. rewrite Hpre.
  change (bs "/" ++ ?x) with ("/"%byte :: x). cbn [split_on].
  rewrite decide_True by done. cbn [trail]. change (enter [] []) with (@nil (list byte)).
  assert (Forall (λ x, "/"%byte ∉ x) rest') as Hns.
  { pose proof (split_on_pieces "/"%byte (drop (body_start p) p)) as H.
    change (split_on _ _) with (segments p) in H. rewrite Hpre in H. by apply Forall_app in H as [? _]. }
  destruct rest' as [|x rest'].
  - cbn. change (enter [] []) with (@nil (list byte)). set_solver.
  - change (bs "/") with ["/"%byte]. rewrite split_join by done.
    change ((x :: rest') ++ pre) with (x :: rest' ++ pre). rewrite app_comm_cons, trail_app. set_solver.
Qed.

Lemma ancestors_way v p q :
  is_absolute p = true → q ∈ ancestors p →
  is_absolute q = true ∧ ∀ k, k ∈ way v q → k = [] ∨ k ∈ way v p.
Proof.
  remember (length p) as n eqn:En. revert p En. induction n as [n IH] using lt_wf_ind.
  intros p -> Ha. rewrite ancestors_unfold. intros [->|Hq]%elem_of_cons; [by auto|].
  destruct (parent p) as [p'|] eqn:Ep; [|by apply not_elem_of_nil in Hq].
  destruct (parent_way v p p' Ha Ep) as [Ha' Hw].
  destruct (IH (length p') (parent_shorter _ _ Ep) p' eq_refl Ha' Hq) as [Haq Hwq].
  split; [done|]. intros k Hk. destruct (Hwq k Hk) as [->|H]; [by left|]. by apply Hw.
Qed.

(** ** The invariant of an extraction

    Outside [T] the tree is as it was, [T] is a directory, and the links below
    it are at the places [L]. *)

Definition inside (T : Place) (t0 : Tree) (L : list Place) (t : Tree) : Prop :=
  tree_ok t ∧ t !! T = Some NDir ∧ (∀ k, ¬ T `prefix_of` k → t !! k = t0 !! k) ∧
  ∀ k target, t !! (T ++ k) = Some (NLink target) → k ∈ L.

Section Inside.
Context (D : Place) (m : list byte) (t0 : Tree).
Context (HT : Forall ok_name (D ++ [m])).

Abbreviation T := (D ++ [m]).

Definition near (k : Place) : Prop := k `prefix_of` T ∨ T `prefix_of` k.

Lemma inside_adds L t t' : inside T t0 L t → adds near t t' → tree_ok t' → inside T t0 L t'.
Proof.
  intros (Hok & Hd & Hout & HL) Ha Hok'. split_and!; [done|by eapply adds_keeps| |].
  - intros k Hk. rewrite <-Hout by done. destruct (Ha k) as [?|([[r E]|?] & Hn & _)]; [done| |done].
    rewrite E in Hd. apply tree_ok_dir in Hd; [congruence|done].
  - intros k target Hk. apply (HL k target). destruct (Ha (T ++ k)) as [<-|(_ & _ & E)]; congruence.
Qed.

Lemma inside_edits L t t' k :
  inside T t0 L t → edits (T ++ k) t t' → tree_ok t' → (no_link t' (T ++ k) ∨ k ∈ L) →
  inside T t0 L t'.
Proof.
  intros (Hok & Hd & Hout & HL) [->|[Hk He]] Hok' Hn; [done|].
  split_and!; [done| | |].
  - rewrite He; [done|]. intros E. by rewrite <-E in Hk.
  - intros k' Hk'. rewrite He; [by apply Hout|]. intros ->. destruct Hk'. by exists k.
  - intros k' target Hk'. destruct (decide (k' = k)) as [->|Hne].
    + destruct Hn as [Hn|?]; [|done]. by destruct (Hn target).
    + apply (HL k' target). by rewrite <-He by (intros E; simplify_list_eq).
Qed.

Lemma inside_more L L' t : (∀ k, k ∈ L → k ∈ L') → inside T t0 L t → inside T t0 L' t.
Proof. intros H (? & ? & ? & HL). split_and!; [done..|]. eauto. Qed.

(** The way of an entry's target. *)

Section Entry.
Context (rel : path) (ks : list Place) (L : list Place).
Context (Hrel : is_absolute rel = false) (Hks : rel_trail [] (split_on "/"%byte rel) = Some ks).
Context (HL : untouched L ks = true).

Abbreviation target := (path_join (below_root T) rel).
Abbreviation place := (default [] (last ks)).

Lemma last_in_ks : place ∈ ks.
Proof.
  destruct (rel_trail_lex T _ _ _ Hks) as [_ Hne]; [apply split_on_ne|].
  destruct ks as [|x l _] using rev_ind; [done|]. rewrite last_snoc. cbn. set_solver.
Qed.

Lemma target_near t v k : inside T t0 L t → tree v = t → k ∈ way v target → near k ∧ no_link t k.
Proof.
  intros (Hok & Hd & _ & Hl) Hv Hk. destruct (target_way D m HT v rel ks Hrel Hks) as [Hw _].
  rewrite Hw in Hk. apply elem_of_cons in Hk as [->|[Hk|Hk]%elem_of_app].
  - split; [left; apply prefix_nil|]. intros l. rewrite (proj1 Hok). done.
  - apply (elem_of_trail_clean []) in Hk as (j & -> & Hj & _); [|by apply (T_clean D m)].
    split; [by left|]. cbn [app] in *. destruct Hj as [r E]. rewrite E in Hd.
    apply tree_ok_dir in Hd; [|done]. intros l. by rewrite Hd.
  - apply list_elem_of_fmap in Hk as (j & -> & Hj). split; [right; by exists j|].
    intros l Hlk. apply Hl in Hlk. unfold untouched in HL. rewrite forallb_forall in HL.
    specialize (HL j). rewrite bool_decide_eq_true in HL. by apply HL; [apply list_elem_of_In|].
Qed.

Lemma target_free_way v : inside T t0 L (tree v) → free_way near v target.
Proof. intros Hi k Hk. by eapply target_near. Qed.

Lemma target_goal v : goal v target = T ++ place.
Proof. by destruct (target_way D m HT v rel ks Hrel Hks). Qed.

Lemma create_inside p os r os' :
  p ∈ ancestors target → inside T t0 L (treeof os) → create_dir_all p os = (r, os') →
  env_kept os os' ∧ inside T t0 L (treeof os') ∧ adds near (treeof os) (treeof os') ∧
  (r = Ok () → treeof os' !! goal (vfs os) p = Some NDir).
Proof.
  intros Hp Hi H. apply (create_dirs_eff near) in H as (He & Ha & Hok & Hr); [| |apply Hi].
  - split_and!; [done|by eapply inside_adds|done|]. intros Hrr. apply Hr; [done|].
    by rewrite ancestors_unfold.
  - apply Forall_forall. intros q Hq.
    pose proof (target_absolute D m HT rel Hrel) as Hta.
    destruct (ancestors_way (vfs os) _ p Hta Hp) as [Hpa Hpw].
    destruct (ancestors_way (vfs os) p q Hpa Hq) as [Hqa Hqw].
    split; [done|]. intros k Hk. destruct (Hqw k Hk) as [->|Hk2]; [|destruct (Hpw k Hk2) as [->|Hk3]].
    1, 2: split; [left; apply prefix_nil|intros l; by rewrite (proj1 (proj1 Hi))].
    by apply target_free_way.
Qed.

Lemma write_inside data os r os' :
  inside T t0 L (treeof os) → write target data os = (r, os') →
  env_kept os os' ∧ inside T t0 L (treeof os').
Proof.
  intros Hi H. apply write_eff in H as (He & Hed & Hok & Hn & _).
  - split; [done|]. rewrite target_goal in *. eapply inside_edits; [done..|apply Hok, Hi|by left].
  - eapply free_way_no_link, target_free_way, Hi.
Qed.

Lemma chmod_inside mode os r os' :
  inside T t0 L (treeof os) → set_permissions target mode os = (r, os') →
  env_kept os os' ∧ inside T t0 L (treeof os').
Proof.
  intros Hi H. apply set_permissions_eff in H as [He H].
  - split; [done|]. destruct H as [->| ->]; [done|]. rewrite target_goal.
    eapply inside_edits; [done|apply chmod_at_edits|apply chmod_at_ok, Hi|left].
    apply chmod_at_no_link. rewrite <-(target_goal (vfs os)).
    eapply target_near; [done..|apply goal_on_way].
  - eapply free_way_no_link, target_free_way, Hi.
Qed.

Lemma remove_file_inside os r os' :
  inside T t0 L (treeof os) → remove_file target os = (r, os') →
  env_kept os os' ∧ inside T t0 L (treeof os').
Proof.
  intros Hi H. apply remove_file_eff in H as [He H].
  - split; [done|]. destruct H as [->|(-> & n & Hn & Hne)]; [done|]. rewrite target_goal in *.
    eapply inside_edits; [done|apply edits_delete; congruence|by eapply tree_ok_unlink; [apply Hi|..]|].
    left. intros l. by rewrite lookup_delete_eq.
  - eapply free_way_no_link, target_free_way, Hi.
Qed.

Lemma symlink_inside name os r os' :
  inside T t0 L (treeof os) → symlink name target os = (r, os') →
  env_kept os os' ∧ inside T t0 (place :: L) (treeof os').
Proof.
  intros Hi H. assert (inside T t0 (place :: L) (treeof os)) as Hi'.
  { eapply inside_more; [|done]. set_solver. }
  apply symlink_eff in H as (He & Hbad & Hgood).
  - split; [done|]. destruct r as [[]|e]; [|by rewrite Hbad].
    destruct Hgood as (Hn & -> & Hok); [done|]. rewrite target_goal in *.
    eapply inside_edits; [done|apply edits_insert; congruence|apply Hok, Hi|right; set_solver].
  - eapply free_way_no_link, target_free_way, Hi.
Qed.

(** The links an entry may leave. *)

Definition links_after (entry : TarEntry) : list Place :=
  if entry_type entry is KSymlink then place :: L else L.

Lemma parent_ancestor p q : parent p = Some q → q ∈ ancestors p.
Proof. intros H. rewrite ancestors_unfold, H. rewrite ancestors_unfold. set_solver. Qed.

Lemma ancestor_self p : p ∈ ancestors p.
Proof. rewrite ancestors_unfold. set_solver. Qed.

Lemma make_parent_inside os r os' :
  inside T t0 L (treeof os) →
  match parent target with
  | Some up => map_err (failed "create dir" up) (create_dir_all up)
  | None => mret ()
  end os = (r, os') →
  env_kept os os' ∧ inside T t0 L (treeof os').
Proof.
  intros Hi H. destruct (parent target) as [up|] eqn:Ep; [|by injection H as <- <-].
  apply map_err_eq in H as [(a & _ & H)|(e & _ & H)];
    by apply create_inside in H as (? & ? & _); [|apply parent_ancestor|].
Qed.

Lemma write_entry_inside entry rel' os r os' :
  inside T t0 L (treeof os) → write_entry entry target rel' os = (r, os') →
  env_kept os os' ∧ inside T t0 L (treeof os').
Proof.
  intros Hi H. apply io_bind in H as [(e & H & _)|(contents & os1 & H & H2)].
  { by injection H as _ <-. }
  injection H as _ <-.
  apply io_bind in H2 as [(e & H & ->)|([] & os2 & H & H2)].
  { apply map_err_eq in H as [(? & ? & _)|(? & _ & H)]; [done|]. by eapply write_inside. }
  apply map_err_eq in H as [(? & _ & H)|(? & ? & _)]; [|done].
  apply write_inside in H as [He Hi2]; [|done].
  destruct (entry_mode entry) as [mode|]; [|by injection H2 as <- <-].
  apply io_bind in H2 as [(e & H & _)|(? & os3 & H & H2)].
  { by apply attempt_eq in H as (? & ? & _). }
  injection H2 as <- <-. apply attempt_eq in H as (? & _ & H).
  apply chmod_inside in H as [He3 Hi3]; [|done]. split; [by etrans|done].
Qed.

Lemma create_symlink_inside name dest_clean rel' os r os' :
  inside T t0 L (treeof os) → create_symlink_entry name target dest_clean rel' os = (r, os') →
  env_kept os os' ∧ inside T t0 (place :: L) (treeof os').
Proof.
  intros Hi H. unfold create_symlink_entry in H.
  assert (inside T t0 (place :: L) (treeof os)) as Hi' by (eapply inside_more; [|done]; set_solver).
  destruct (negb _); [by injection H as <- <-|].
  apply io_bind in H as [(e & H & _)|(? & os1 & H & H2)].
  { by apply attempt_eq in H as (? & ? & _). }
  apply attempt_eq in H as (? & _ & H). apply remove_file_inside in H as [He1 Hi1]; [|done].
  apply map_err_eq in H2 as [(? & _ & H2)|(? & _ & H2)];
    (apply symlink_inside in H2 as [He2 Hi2]; [|done]; split; [by etrans|done]).
Qed.

Lemma place_entry_inside entry dest_clean os r os' :
  inside T t0 L (treeof os) → place_entry dest_clean target rel entry os = (r, os') →
  env_kept os os' ∧ inside T t0 (links_after entry) (treeof os').
Proof.
  intros Hi H. unfold links_after.
  assert (∀ t, inside T t0 L t → inside T t0 (if entry_type entry is KSymlink then place :: L else L) t)
    as Hmore.
  { intros t Ht. eapply inside_more; [|done]. destruct (entry_type entry); set_solver. }
  apply io_bind in H as [(e & H & ->)|([] & os1 & H & H2)];
    (apply make_parent_inside in H as [He Hi1]; [|done]); [by auto|].
  enough (env_kept os1 os' ∧ inside T t0 (if entry_type entry is KSymlink then place :: L else L) (treeof os'))
    as [? ?] by (split; [by etrans|done]).
  destruct (entry_type entry) eqn:Ek.
  - apply map_err_eq in H2 as [(? & _ & H2)|(? & _ & H2)];
      by apply create_inside in H2 as (? & ? & _); [|apply ancestor_self|].
  - by eapply write_entry_inside.
  - destruct (link_name entry); [by eapply create_symlink_inside|]. injection H2 as <- <-. split; [done|auto].
  - by injection H2 as <- <-.
Qed.

End Entry.

Lemma extract_entries_inside L items dest_clean os r os' :
  inside T t0 L (treeof os) → tame L items = true →
  extract_entries (below_root T) dest_clean items os = (r, os') →
  env_kept os os' ∧ ∃ L', inside T t0 L' (treeof os').
Proof.
  revert L os. induction items as [|item items IH]; intros L os Hi Ht H.
  { injection H as <- <-. split; [done|eauto]. }
  assert (∀ L1 os1 r1, extract_entry (below_root T) dest_clean item os = (r1, os1) → env_kept os os1 →
            inside T t0 L1 (treeof os1) → (r1 = Ok () → tame L1 items = true) →
            env_kept os os' ∧ ∃ L', inside T t0 L' (treeof os')) as Hnext.
  { intros L1 os1 r1 H1 He1 Hi1 Ht1. cbn [extract_entries] in H.
    apply io_bind in H as [(e & H & ->)|([] & os2 & H & H2)]; rewrite H1 in H; injection H as -> ->; [by eauto|].
    apply (IH L1) in H2 as [He2 H2]; [|done|by apply Ht1]. split; [by etrans|done]. }
  destruct (extract_entry (below_root T) dest_clean item os) as [r1 os1] eqn:H1.
  assert (∃ L1, env_kept os os1 ∧ inside T t0 L1 (treeof os1) ∧ (r1 = Ok () → tame L1 items = true))
    as (L1 & He & Hi1 & Ht1); [|by eapply Hnext].
  clear H Hnext IH. unfold extract_entry in H1. destruct item as [entry|e].
  2: { injection H1 as <- <-. by exists L. }
  erewrite io_bind_Ok in H1 by done. cbn [tame] in Ht.
  destruct (entry_path entry) as [p|e] eqn:Ep.
  2: { injection H1 as <- <-. by exists L. }
  erewrite io_bind_Ok in H1 by done. cbv zeta in H1, Ht.
  case_decide as Hr; [injection H1 as <- <-; by exists L|].
  apply andb_true_iff in Ht as [Ha%negb_true_iff Ht].
  destruct (rel_trail [] (split_on "/"%byte (strip_package p))) as [ks|] eqn:Ek; [|done].
  apply andb_true_iff in Ht as [HL Ht].
  destruct (negb (path_starts_with _ _)); [injection H1 as <- <-; by exists L|].
  eapply place_entry_inside in H1 as [He Hi1]; [|done..]. eauto.
Qed.

End Inside.
