(* ===== verification/InstallUnpack.v ===== *)
(** * InstallUnpack: what an extraction leaves

    [unpack] says what a plain archive holds, one whose entries' paths are
    names joined by slashes: the directories on the way to an entry are made,
    a later file or link takes an earlier one's place, and a link that would
    lead out of the package is left out.  Extracting one that is tame leaves
    exactly that, up to the bits of files' modes. *)

From S2P Require Import Prelude RustStd StdPath Tsconfig Loader UnixFs UnixFsSpec UnixFsMove.
From S2P Require Import UnixFsPlain Install InstallTree.

(** ** The specification *)

Definition ok_nameb (n : list byte) : bool :=
  bool_decide (n ≠ [] ∧ n ≠ bs "." ∧ n ≠ bs ".." ∧ x00 ∉ n).

Definition plain_rel (rel : path) : bool := forallb ok_nameb (split_on "/"%byte rel).

Definition inits (k : Place) : list Place := (λ i, take i k) <$> seq 0 (S (length k)).

Definition passable (o : option Node) : bool :=
  match o with
  | None | Some NDir => true
  | _ => false
  end.

Definition make_dirs (m : Tree) (k : Place) : option Tree :=
  if forallb (λ j, passable (m !! j)) (inits k) then Some (foldr (λ j, <[j := NDir]>) m (inits k))
  else None.

Definition put_leaf (m : Tree) (k : Place) (n : Node) : option Tree :=
  if decide (m !! k = Some NDir) then None else Some (<[k := n]> m).

(** Whether a link's text leads into the package, read from the link's
    directory. *)

Definition leads_inside (T ns : Place) (name : path) : bool :=
  bool_decide (T `prefix_of` lex (if is_absolute name then [] else T ++ up ns) (split_on "/"%byte name)).

Definition unpack_entry (T : Place) (m : Tree) (entry : TarEntry) (ns : Place) : option Tree :=
  m ← make_dirs m (up ns);
  match entry_type entry with
  | KDir => make_dirs m ns
  | KFile => contents ← ok (entry_contents entry); put_leaf m ns (NFile contents None)
  | KSymlink =>
      match link_name entry with
      | Some name =>
          if leads_inside T ns name then _ ← ok (check_path name); put_leaf m ns (NLink name)
          else Some m
      | None => Some m
      end
  | KOther => Some m
  end.

Fixpoint unpack (T : Place) (m : Tree) (items : list (result Text TarEntry)) : option Tree :=
  match items with
  | [] => Some m
  | Ok entry :: items =>
      p ← ok (entry_path entry);
      let rel := strip_package p in
      if decide (rel = []) then unpack T m items
      else m ← unpack_entry T m entry (split_on "/"%byte rel); unpack T m items
  | Err _ :: _ => None
  end.

Definition plain_item (item : result Text TarEntry) : bool :=
  match item with
  | Ok entry =>
      match entry_path entry with
      | Ok p => bool_decide (strip_package p = []) || plain_rel (strip_package p)
      | Err _ => true
      end
  | Err _ => true
  end.

(** A file's bytes, its mode left out. *)

Definition bare (n : Node) : Node :=
  match n with
  | NFile data _ => NFile data None
  | n => n
  end.

Definition holds (T : Place) (t m : Tree) : Prop := ∀ j, bare <$> t !! (T ++ j) = m !! j.

(** ** Plain names *)

Lemma plain_rel_ok rel : plain_rel rel = true → Forall ok_name (split_on "/"%byte rel).
Proof.
  unfold plain_rel. intros H. pose proof (split_on_pieces "/"%byte rel) as Hs.
  revert H Hs. generalize (split_on "/"%byte rel). intros l. induction l as [|n l IH]; [done|].
  cbn [forallb]. intros [H%bool_decide_eq_true Hl]%andb_true_iff [Hn Hs]%Forall_cons.
  constructor; [|by apply IH]. unfold ok_name, clean_name, good_name. tauto.
Qed.

Lemma plain_relative rel : plain_rel rel = true → is_absolute rel = false.
Proof.
  intros H%plain_rel_ok. destruct (is_absolute rel) eqn:E; [|done]. exfalso.
  rewrite absolute_split in H by done. apply Forall_cons in H as [[[[H _] _] _] _]. done.
Qed.

Lemma join_split_rel rel : join (bs "/") (split_on "/"%byte rel) = rel.
Proof. apply join_split. Qed.

Lemma clean_trail cur ns ks :
  Forall clean_name ns → rel_trail cur ns = Some ks → ∀ j, j ≠ [] → j `prefix_of` ns → cur ++ j ∈ ks.
Proof.
  intros Hc. revert cur ks. induction Hc as [|n ns Hn Hc IH]; intros cur ks H j Hne Hj.
  { by apply prefix_nil_inv in Hj. }
  cbn [rel_trail] in H. case_decide; [done|]. rewrite enter_clean in H by done.
  destruct (rel_trail (cur ++ [n]) ns) as [ks'|] eqn:E; [|done]. injection H as <-.
  destruct j as [|x j]; [done|]. pose proof (prefix_cons_inv_1 _ _ _ _ Hj) as ->.
  apply prefix_cons_inv_2 in Hj. destruct (decide (j = [])) as [->|Hj'].
  - set_solver.
  - right. specialize (IH _ _ E j Hj' Hj). by rewrite <-app_assoc in IH.
Qed.

Lemma clean_trail_last ns ks :
  Forall clean_name ns → ns ≠ [] → rel_trail [] ns = Some ks → default [] (last ks) = ns.
Proof.
  intros Hc Hne H. destruct (rel_trail_lex [] _ _ _ H Hne) as [Hl _].
  cbn [app] in Hl. by rewrite <-Hl, lex_clean.
Qed.

(** ** Directories on the way *)

Lemma elem_of_inits j k : j ∈ inits k ↔ j `prefix_of` k.
Proof.
  unfold inits. rewrite list_elem_of_fmap. split.
  - intros (i & -> & _). apply prefix_take.
  - intros [r ->]. exists (length j). rewrite take_app_length. split; [done|].
    apply elem_of_seq. rewrite length_app. lia.
Qed.

Lemma foldr_dirs (m : Tree) js j :
  foldr (λ j, <[j := NDir]>) m js !! j = if decide (j ∈ js) then Some NDir else m !! j.
Proof.
  induction js as [|i js IH]; cbn; [by rewrite decide_False by set_solver|].
  destruct (decide (j = i)) as [->|Hne].
  - by rewrite lookup_insert_eq, decide_True by set_solver.
  - rewrite lookup_insert_ne, IH by done. case_decide.
    + by rewrite decide_True by set_solver.
    + by rewrite decide_False by set_solver.
Qed.

Lemma make_dirs_Some m k m' :
  make_dirs m k = Some m' ↔
  (∀ j, j `prefix_of` k → passable (m !! j) = true) ∧
  m' = foldr (λ j, <[j := NDir]>) m (inits k).
Proof.
  unfold make_dirs. destruct (forallb _ _) eqn:E.
  - rewrite forallb_forall in E. split; [|by intros [_ ->]]. intros [= <-]. split; [|done].
    intros j Hj. apply E, list_elem_of_In. by apply elem_of_inits.
  - split; [done|]. intros [H _]. exfalso. apply not_true_iff_false in E. apply E.
    apply forallb_forall. intros j Hj%list_elem_of_In%elem_of_inits. by apply H.
Qed.

Lemma make_dirs_lookup m k m' j :
  make_dirs m k = Some m' → m' !! j = if decide (j `prefix_of` k) then Some NDir else m !! j.
Proof.
  intros [_ ->]%make_dirs_Some. rewrite foldr_dirs.
  destruct (decide (j `prefix_of` k)) as [H|H]; [rewrite decide_True|rewrite decide_False]; try done;
    by rewrite elem_of_inits.
Qed.

Lemma bare_dir o : bare <$> o = Some NDir ↔ o = Some NDir.
Proof. destruct o as [[| |]|]; done. Qed.

Lemma bare_none o : bare <$> o = None ↔ o = None.
Proof. by destruct o. Qed.

Section Holds.
Context (T : Place).

Lemma holds_make_dirs t t' m k :
  holds T t m → adds (λ p, p `prefix_of` T ++ k) t t' → tree_ok t' → t' !! (T ++ k) = Some NDir →
  ∃ m', make_dirs m k = Some m' ∧ holds T t' m'.
Proof.
  intros Hh Ha Hok Hd.
  assert (∀ j, j `prefix_of` k → t' !! (T ++ j) = Some NDir) as Hdir.
  { intros j [r ->]. rewrite app_assoc in Hd. by apply tree_ok_dir in Hd. }
  eexists. split.
  - apply make_dirs_Some. split; [|done]. intros j Hj. rewrite <-(Hh j).
    destruct (Ha (T ++ j)) as [E|(_ & E & _)].
    + rewrite Hdir in E by done. by rewrite <-E.
    + by rewrite E.
  - intros j. rewrite foldr_dirs. destruct (decide (j ∈ inits k)) as [Hj|Hj]; rewrite elem_of_inits in Hj.
    + by rewrite Hdir.
    + rewrite <-(Hh j). destruct (Ha (T ++ j)) as [->|(H & _)]; [done|].
      by apply prefix_app_inv in H.
Qed.

Lemma holds_clear t m k m' :
  holds T t m → make_dirs m k = Some m' → clear_way t T → clear_way t (T ++ k).
Proof.
  intros Hh [Hp _]%make_dirs_Some Hc j Hj.
  destruct (decide (j `prefix_of` T)) as [|Hn]; [by apply Hc|].
  assert (T `prefix_of` j) as [r ->].
  { destruct (prefix_weak_total j T (T ++ k)) as [?|?]; [done|by exists k|done|done]. }
  apply prefix_app_inv in Hj. specialize (Hp r Hj). rewrite <-(Hh r) in Hp.
  destruct (t !! (T ++ r)) as [[| |]|]; [by right|done..|by left].
Qed.

Lemma holds_insert t m k n :
  holds T t m → holds T (<[T ++ k := n]> t) (<[k := bare n]> m).
Proof.
  intros Hh j. destruct (decide (j = k)) as [->|Hne].
  - by rewrite !lookup_insert_eq.
  - rewrite !lookup_insert_ne; [apply Hh|done|]. intros E. by simplify_list_eq.
Qed.

End Holds.

(** ** [path_clean] *)

Lemma components_absolute p :
  is_absolute p = true → components p = RootDir :: omap segment_component (tail (split_on "/"%byte p)).
Proof. intros Ha. unfold components. rewrite Ha, absolute_split by done. done. Qed.

Lemma segment_cases k seg :
  (segment_component seg = None ∧ enter k seg = k) ∨
  (segment_component seg = Some ParentDir ∧ enter k seg = up k) ∨
  (segment_component seg = Some (Normal seg) ∧ enter k seg = k ++ [seg] ∧
   ("/"%byte ∉ seg → clean_name seg)).
Proof.
  unfold segment_component, enter. case_decide; [by left|]. case_decide; [by right; left|].
  right; right. split_and!; [done..|]. unfold clean_name, good_name. naive_solver.
Qed.

Lemma clean_push_segs segs k :
  Forall (λ s, "/"%byte ∉ s) segs → Forall clean_name k →
  Forall clean_name (lex k segs) ∧
  fold_left clean_push (omap segment_component segs) (below_root k) = below_root (lex k segs).
Proof.
  revert k. induction segs as [|seg segs IH]; intros k Hs Hk; [done|].
  apply Forall_cons in Hs as [Hseg Hs].
  change (omap segment_component (seg :: segs)) with
    (match segment_component seg with
     | Some c => c :: omap segment_component segs
     | None => omap segment_component segs
     end).
  change (lex k (seg :: segs)) with (lex (enter k seg) segs).
  assert (Forall good_name k) as Hgood by (eapply Forall_impl; [exact Hk|by intros ? []]).
  destruct (segment_cases k seg) as [[-> ->]|[[-> ->]|(-> & -> & Hc)]]; [by apply IH|..];
    cbn [fold_left clean_push component_text].
  - destruct k as [|n k _] using rev_ind; [by apply (IH [])|].
    rewrite parent_below by done. cbn [default]. unfold up. rewrite length_app. cbn [length].
    rewrite Nat.add_sub, take_app_length. apply IH; [done|]. by apply Forall_app in Hk as [? _].
  - rewrite path_join_below; [|done|by apply Hc].
    apply IH; [done|]. apply Forall_app. split; [done|]. constructor; auto.
Qed.

Lemma path_clean_absolute p :
  is_absolute p = true →
  Forall clean_name (lex [] (split_on "/"%byte p)) ∧
  path_clean p = below_root (lex [] (split_on "/"%byte p)).
Proof.
  intros Ha. unfold path_clean. rewrite components_absolute, absolute_split by done.
  cbn [fold_left clean_push component_text tail].
  change (path_join [] (bs "/")) with (below_root []).
  change (lex [] ([] :: ?x)) with (lex [] x). apply clean_push_segs; [|constructor].
  pose proof (split_on_pieces "/"%byte p) as H. rewrite absolute_split in H by done.
  by apply Forall_cons in H as [_ H].
Qed.

Lemma components_below k : Forall clean_name k → components (below_root k) = RootDir :: (Normal <$> k).
Proof.
  intros Hk. assert (Forall good_name k) as Hg by (eapply Forall_impl; [exact Hk|by intros ? []]).
  rewrite components_absolute, split_below by done. cbn [tail]. f_equal.
  destruct k as [|n k]; [done|]. clear Hg. revert Hk. generalize (n :: k). intros l Hk.
  induction Hk as [|x l ((H1 & H2 & _) & H3) _ IH]; [done|]. cbn [omap list_omap fmap list_fmap].
  unfold segment_component at 1. rewrite decide_False, decide_False by naive_solver. by rewrite <-IH.
Qed.

Lemma prefix_fmap {A B} (f : A → B) `{!Inj (=) (=) f} (l k : list A) :
  f <$> l `prefix_of` f <$> k ↔ l `prefix_of` k.
Proof.
  split.
  - intros [r E]. apply fmap_app_inv in E as (l1 & l2 & E1 & _ & ->).
    apply (inj (fmap f)) in E1 as ->. by exists l2.
  - intros [r ->]. exists (f <$> r). by rewrite fmap_app.
Qed.

#[global] Instance Normal_inj : Inj (=) (=) Normal.
Proof. by intros a b [= ->]. Qed.

Lemma path_starts_below a b :
  Forall clean_name a → Forall clean_name b →
  path_starts_with (below_root a) (below_root b) = bool_decide (b `prefix_of` a).
Proof.
  intros Ha Hb. unfold path_starts_with. rewrite !components_below by done.
  apply bool_decide_ext. rewrite <-(prefix_fmap Normal b a). split.
  - apply prefix_cons_inv_2.
  - apply prefix_cons.
Qed.

(** ** An entry *)

Section Entry.
Context (D : Place) (m : list byte) (HT : Forall ok_name (D ++ [m])).
Context (rel : path) (Hp : plain_rel rel = true).

Abbreviation T := (D ++ [m]).
Abbreviation ns := (split_on "/"%byte rel).

Lemma names_ok : Forall ok_name ns.
Proof. by apply plain_rel_ok. Qed.

Lemma names_clean : Forall clean_name ns.
Proof. apply ok_names_clean, names_ok. Qed.

Lemma place_ok : Forall ok_name (T ++ ns).
Proof. apply Forall_app. split; [done|apply names_ok]. Qed.

Lemma up_last : ∃ init n, ns = init ++ [n] ∧ up ns = init.
Proof.
  pose proof (split_on_ne "/"%byte rel) as Hne. destruct ns as [|n init _] using rev_ind; [done|].
  exists init, n. split; [done|]. unfold up. rewrite length_app. cbn. by rewrite Nat.add_sub, take_app_length.
Qed.

Lemma target_below : path_join (below_root T) rel = below_root (T ++ ns).
Proof.
  rewrite (target_text D m HT) by by apply plain_relative. unfold below_root.
  pose proof (split_on_ne "/"%byte rel) as Hne. rewrite <-(join_split_rel rel) at 1.
  change (bs "/") with ["/"%byte].
  assert (∀ a b, a ≠ [] → b ≠ [] → join ["/"%byte] (a ++ b) = join ["/"%byte] a ++ "/"%byte :: join ["/"%byte] b)
    as Hj.
  { intros a b Ha Hb. induction a as [|x a IH]; [done|]. destruct a as [|y a].
    - cbn [app]. by rewrite join_cons.
    - cbn [app]. rewrite join_cons by done. change (y :: a ++ b) with ((y :: a) ++ b).
      rewrite IH by done. rewrite (join_cons _ x) by done. by rewrite <-!app_assoc. }
  rewrite (Hj T ns); [by rewrite <-app_assoc| |done]. by intros [_ ?]%app_nil.
Qed.

Lemma target_clean_below :
  path_starts_with (path_clean (path_join (below_root T) rel)) (path_clean (below_root T)) = true.
Proof.
  assert (∀ k, Forall ok_name k → path_clean (below_root k) = below_root k) as Hc.
  { intros k Hk. destruct (path_clean_absolute (below_root k)) as [_ ->]; [done|].
    f_equal. exact (goal_below {| tree := ∅; here := [] |} k Hk). }
  rewrite target_below, (Hc (T ++ ns)) by apply place_ok. rewrite (Hc T) by done.
  rewrite path_starts_below; [apply bool_decide_eq_true; by eexists|..];
    apply ok_names_clean; [apply place_ok|done].
Qed.

Lemma parent_target : parent (below_root (T ++ ns)) = Some (below_root (T ++ up ns)).
Proof.
  pose proof place_ok as Hok. destruct up_last as (init & n & E & Eu). rewrite Eu. rewrite E in *.
  rewrite app_assoc in *. apply parent_below. by apply ok_names_good.
Qed.

Lemma link_guard name dest_clean :
  dest_clean = path_clean (below_root T) →
  path_starts_with (path_clean (path_join (below_root (T ++ up ns)) name)) dest_clean =
  leads_inside T ns name.
Proof.
  intros ->. destruct (path_clean_absolute (below_root T)) as [Hc1 ->]; [done|].
  rewrite (goal_below {| tree := ∅; here := [] |} T HT : lex [] _ = _) in *.
  assert (Forall ok_name (T ++ up ns)) as Hok.
  { pose proof place_ok as Hok. destruct up_last as (init & n & E & Eu). rewrite Eu. rewrite E in Hok.
    rewrite app_assoc in Hok. by apply Forall_app in Hok as [? _]. }
  unfold leads_inside. destruct (is_absolute name) eqn:Ea.
  - unfold path_join. rewrite Ea. destruct (path_clean_absolute name Ea) as [Hc ->].
    by apply path_starts_below.
  - destruct (T ++ up ns) as [|x k _] eqn:Ek using rev_ind; [by destruct D|].
    destruct (path_clean_absolute (path_join (below_root (k ++ [x])) name)) as [Hc ->].
    { by apply target_absolute. }
    assert (lex [] (split_on "/"%byte (path_join (below_root (k ++ [x])) name)) =
            lex (k ++ [x]) (split_on "/"%byte name)) as E.
    { rewrite target_split by done. change (lex [] ([] :: ?y)) with (lex [] y).
      by rewrite (lex_app [] (k ++ [x])), (lex_clean [] (k ++ [x])) by by apply ok_names_clean. }
    rewrite E in *.
    by apply path_starts_below.
Qed.

End Entry.

(** ** Extracting an entry *)

Section Extract.
Context (D : Place) (m : list byte) (HT : Forall ok_name (D ++ [m])) (t0 : Tree).

Abbreviation T := (D ++ [m]).

(** What a step that goes well, or that cannot fail, does to what [T] holds,
    when the specification's step is [next]. *)

Definition follows {E : Type} (next : option Tree) (r : result E unit) (os os' : Os) : Prop :=
  (r = Ok () → ∃ mm, next = Some mm ∧ holds T (treeof os') mm) ∧
  (faults os = [] → is_Some next → r = Ok ()).

Lemma follows_err {E : Type} (next : option Tree) (e : E) os os' :
  (faults os = [] → next = None) → follows next (Err e) os os'.
Proof. intros H. split; [done|]. intros Hf [mm Hn]. by rewrite H in Hn. Qed.

Lemma map_err_Ok {E F A : Type} (f : E → F) (io : IO Os E A) os r os' :
  map_err f io os = (r, os') → ∃ r', io os = (r', os') ∧ ∀ a, r = Ok a ↔ r' = Ok a.
Proof.
  intros [(a & -> & H)|(e & -> & H)]%map_err_eq; eexists; (split; [exact H|]); naive_solver.
Qed.

Section Rel.
Context (rel : path) (Hp : plain_rel rel = true) (L ks : list Place).
Context (Hks : rel_trail [] (split_on "/"%byte rel) = Some ks) (HL : untouched L ks = true).

Abbreviation ns := (split_on "/"%byte rel).

Lemma ns_no_link t j : inside T t0 L t → j `prefix_of` T ++ ns → no_link t j.
Proof.
  intros (Hok & Hd & _ & Hl) Hj target Ht.
  destruct (prefix_weak_total j T (T ++ ns)) as [[r E]|[j' ->]]; [done|by exists ns| |].
  - rewrite E in Hd. apply tree_ok_dir in Hd; [|done]. congruence.
  - apply prefix_app_inv in Hj. pose proof (Hl j' target Ht) as HjL.
    destruct (decide (j' = [])) as [->|Hne].
    { rewrite app_nil_r in Ht. congruence. }
    pose proof (clean_trail [] ns ks (names_clean rel Hp) Hks j' Hne Hj) as Hin.
    unfold untouched in HL. rewrite forallb_forall in HL.
    specialize (HL j' (proj1 (list_elem_of_In _ _) Hin)). by apply bool_decide_eq_true in HL.
Qed.

Lemma dirs_step k mm os r os' :
  k `prefix_of` ns → inside T t0 L (treeof os) → holds T (treeof os) mm →
  create_dir_all (below_root (T ++ k)) os = (r, os') →
  env_kept os os' ∧ inside T t0 L (treeof os') ∧ follows (make_dirs mm k) r os os' ∧
  (r = Ok () → treeof os' !! (T ++ k) = Some NDir).
Proof.
  intros Hk Hi Hh H. assert (Forall ok_name (T ++ k)) as Hok.
  { pose proof (place_ok D m HT rel Hp) as Hok. destruct Hk as [r' E]. rewrite E, app_assoc in Hok.
    by apply Forall_app in Hok as [? _]. }
  assert (∀ j, j `prefix_of` T ++ k → no_link (treeof os) j) as Hn.
  { intros j Hj. eapply ns_no_link; [done|]. etrans; [done|]. by apply prefix_app. }
  pose proof (create_dir_all_eff _ _ _ _ Hok (proj1 Hi) Hn H) as (He & Ha & Hok' & Hd).
  split_and!; [done| | |done].
  - eapply (inside_adds D m t0); [done| |done]. intros j. destruct (Ha j) as [?|(Hj & ? & ?)]; [by left|].
    right. split_and!; [|done..]. unfold near.
    destruct (prefix_weak_total j T (T ++ k)) as [?|?]; [done|by exists k|by left|by right].
  - split.
    + intros Hr. eapply holds_make_dirs; eauto.
    + intros Hf [mm' Hm]. destruct (create_dir_all_quiet (T ++ k) os) as [os2 H2]; [done|done|apply Hi| |congruence].
      eapply holds_clear; [done..|]. apply dir_clear; apply Hi.
Qed.

(** A file, or a link, where no directory is. *)

Lemma leaf_ok k n : ns = k ++ [n] → Forall ok_name ((T ++ k) ++ [n]).
Proof. intros E. rewrite <-app_assoc, <-E. by apply place_ok. Qed.

Lemma put_leaf_Some mm k n mm' :
  put_leaf mm k n = Some mm' ↔ mm !! k ≠ Some NDir ∧ mm' = <[k := n]> mm.
Proof. unfold put_leaf. case_decide; naive_solver. Qed.

Lemma holds_dir t mm k : holds T t mm → mm !! k = Some NDir ↔ t !! (T ++ k) = Some NDir.
Proof. intros Hh. rewrite <-(Hh k). apply bare_dir. Qed.

Lemma write_step k n data mm os r os' :
  ns = k ++ [n] → inside T t0 L (treeof os) → holds T (treeof os) mm →
  treeof os !! (T ++ k) = Some NDir → write (below_root (T ++ ns)) data os = (r, os') →
  follows (put_leaf mm ns (NFile data None)) r os os'.
Proof.
  intros E Hi Hh Hd H. pose proof (leaf_ok k n E) as Hok.
  assert (T ++ ns = (T ++ k) ++ [n]) as Epl by by rewrite E, app_assoc.
  assert (goal (vfs os) (below_root (T ++ ns)) = T ++ ns) as Hg.
  { apply goal_below. by rewrite Epl. }
  pose proof H as H'. apply write_eff in H as (_ & _ & _ & _ & Hr).
  2: { apply way_below_no_link; [by rewrite Epl|]. intros j. by apply ns_no_link. }
  rewrite Hg in Hr. split.
  - intros [Hnd ->]%Hr. eexists. split; [|by apply holds_insert].
    apply put_leaf_Some. split; [|done]. by rewrite holds_dir.
  - intros Hf [mm' [Hnd _]%put_leaf_Some]. rewrite holds_dir in Hnd by done.
    rewrite Epl in *.
    destruct (write_quiet (T ++ k) n data os) as [os2 H2]; [done|done|apply Hi|done| |done|congruence].
    apply (ns_no_link _ _ Hi). by rewrite Epl.
Qed.

Lemma symlink_step k n name mm os r os' os1 r1 :
  ns = k ++ [n] → inside T t0 L (treeof os) → holds T (treeof os) mm →
  treeof os !! (T ++ k) = Some NDir →
  remove_file (below_root (T ++ ns)) os = (r1, os1) → symlink name (below_root (T ++ ns)) os1 = (r, os') →
  follows (_ ← ok (check_path name); put_leaf mm ns (NLink name)) r os os'.
Proof.
  intros E Hi Hh Hd H1 H2. pose proof (leaf_ok k n E) as Hok.
  assert (T ++ ns = (T ++ k) ++ [n]) as Epl by by rewrite E, app_assoc.
  rewrite Epl in H1, H2. pose proof H1 as Hq1.
  apply remove_file_below in Hq1 as [(He & Hs & Hok1) Hgone]; [|done|apply Hi|done].
  specialize (Hok1 (proj1 Hi)).
  assert (treeof os1 !! (T ++ k) = Some NDir) as Hd1.
  { destruct (Hs (T ++ k)) as [->|[[r' E'] _]]; [done|]. apply (f_equal length) in E'.
    rewrite !length_app in E'. cbn in E'. lia. }
  assert (treeof os1 = treeof os ∨ treeof os !! (T ++ ns) ≠ Some NDir ∧
            treeof os1 = delete (T ++ ns) (treeof os)) as Ht1.
  { apply remove_file_eff in H1 as [_ [?|(-> & nd & Hnd & Hne)]]; [by left| |].
    - right. rewrite goal_below in Hnd |- * by done. rewrite Epl. split; [congruence|done].
    - apply way_below_no_link; [done|]. rewrite <-Epl. intros j. by apply ns_no_link. }
  assert (Forall (no_link (treeof os1)) (way (vfs os1) (below_root ((T ++ k) ++ [n])))) as Hway.
  { apply way_below_no_link; [done|]. rewrite <-Epl. intros j Hj l Hl.
    destruct Ht1 as [Ht1|[_ Ht1]]; rewrite Ht1 in Hl.
    - by eapply ns_no_link.
    - apply lookup_delete_Some in Hl as [_ Hl]. by eapply ns_no_link. }
  pose proof H2 as Hq2. apply symlink_eff in H2 as (_ & _ & Hr); [|done].
  rewrite goal_below in Hr by done. split.
  - intros ->. destruct Hr as (Hn1 & -> & _); [done|].
    assert (check_path name = Ok ()) as ->.
    { apply call_eff in Hq2 as [_ Hq2]. apply bind_Ok in Hq2 as ([] & ? & _). done. }
    cbn [ok mbind option_bind]. eexists. split.
    + apply put_leaf_Some. split; [|done]. rewrite holds_dir by done. intros Hdir.
      rewrite Epl in *. destruct Ht1 as [Ht1|[? _]]; [congruence|done].
    + rewrite <-Epl. destruct Ht1 as [->|[_ ->]].
      * by apply (holds_insert T _ _ _ (NLink name)).
      * rewrite insert_delete_eq. by apply (holds_insert T _ _ _ (NLink name)).
  - intros Hf [mm' Hn]. destruct (check_path name) as [[]|] eqn:Ec; [|done].
    cbn in Hn. apply put_leaf_Some in Hn as [Hnd _]. rewrite holds_dir in Hnd by done.
    assert (treeof os1 !! ((T ++ k) ++ [n]) = None) as Hn1.
    { rewrite Epl in Hnd. destruct (treeof os !! ((T ++ k) ++ [n])) as [nd|] eqn:En.
      - apply (Hgone Hf nd); [done|congruence].
      - by eapply shrinks_none. }
    destruct (symlink_quiet (T ++ k) n name os1) as [os2 H2]; [by apply He|done..|congruence].
Qed.

Lemma holds_chmod t mm mode k : holds T t mm → holds T (chmod_at mode k t) mm.
Proof.
  intros Hh j. rewrite <-(Hh j). unfold chmod_at. destruct (t !! k) as [[|d md|]|] eqn:E; [done| |done..].
  destruct (decide (k = T ++ j)) as [->|Hne]; [by rewrite lookup_insert_eq, E|].
  by rewrite lookup_insert_ne.
Qed.

Lemma write_entry_step k n entry rel' mm os r os' :
  ns = k ++ [n] → inside T t0 L (treeof os) → holds T (treeof os) mm →
  treeof os !! (T ++ k) = Some NDir → write_entry entry (below_root (T ++ ns)) rel' os = (r, os') →
  follows (contents ← ok (entry_contents entry); put_leaf mm ns (NFile contents None)) r os os'.
Proof.
  intros En Hi Hh Hd H. unfold write_entry in H.
  apply io_bind in H as [(e & H & ->)|(contents & os1 & H & H2)]; injection H as H <-.
  { apply follows_err. intros _. by destruct (entry_contents entry). }
  destruct (entry_contents entry) as [c|] eqn:Ec; [|done]. injection H as <-.
  cbn [ok mbind option_bind].
  apply io_bind in H2 as [(e & H & ->)|([] & os2 & H & H2)]; apply map_err_Ok in H as (r1 & H & Hr1);
    pose proof H as Hw; eapply (write_step k n) in Hw as [Ha Hb]; try done.
  { apply follows_err. intros Hf. destruct (put_leaf mm ns _); [|done].
    assert (r1 = Ok ()) as Hr by eauto. by apply Hr1 in Hr. }
  assert (r1 = Ok ()) as Hr by by apply Hr1. destruct (Ha Hr) as (mm2 & -> & Hh2).
  destruct (entry_mode entry) as [mode|].
  2: { injection H2 as <- <-. split; [eauto|done]. }
  apply io_bind in H2 as [(e & H3 & _)|(? & os3 & H3 & H2)].
  { by apply attempt_eq in H3 as (? & ? & _). }
  injection H2 as <- <-. apply attempt_eq in H3 as (? & _ & H3).
  split; [|done]. intros _. exists mm2. split; [done|].
  assert (inside T t0 L (treeof os2)) as Hi2.
  { rewrite <-(target_below D m HT rel Hp) in H. eapply (write_inside D m t0 HT rel ks L); [by apply plain_relative|done..]. }
  apply set_permissions_eff in H3 as [_ [->| ->]]; [done|by apply holds_chmod|].
  apply way_below_no_link; [by apply place_ok|]. intros j. by apply ns_no_link.
Qed.

Lemma create_symlink_step k n name rel' mm os r os' :
  ns = k ++ [n] → inside T t0 L (treeof os) → holds T (treeof os) mm →
  treeof os !! (T ++ k) = Some NDir →
  create_symlink_entry name (below_root (T ++ ns)) (path_clean (below_root T)) rel' os = (r, os') →
  follows (if leads_inside T ns name then _ ← ok (check_path name); put_leaf mm ns (NLink name)
           else Some mm) r os os'.
Proof.
  intros En Hi Hh Hd H. unfold create_symlink_entry in H.
  rewrite (parent_target D m HT rel Hp) in H. cbn [default] in H.
  rewrite (link_guard D m HT rel Hp) in H by done.
  destruct (leads_inside T ns name); cbn [negb] in H.
  2: { injection H as <- <-. split; [eauto|done]. }
  apply io_bind in H as [(e & H & _)|(? & os1 & H & H2)].
  { by apply attempt_eq in H as (? & ? & _). }
  apply attempt_eq in H as (? & _ & H). apply map_err_Ok in H2 as (r2 & H2 & Hr2).
  eapply (symlink_step k n) in H2 as [Ha Hb]; try done.
  split; [intros Hr; by apply Ha, Hr2|intros ? ?; apply Hr2; auto].
Qed.

Lemma place_entry_step entry mm os r os' :
  inside T t0 L (treeof os) → holds T (treeof os) mm →
  place_entry (path_clean (below_root T)) (below_root (T ++ ns)) rel entry os = (r, os') →
  follows (unpack_entry T mm entry ns) r os os'.
Proof.
  intros Hi Hh H. destruct (up_last rel) as (k & n & En & Eu).
  unfold place_entry in H. rewrite (parent_target D m HT rel Hp), Eu in H.
  unfold unpack_entry. rewrite Eu.
  assert (k `prefix_of` ns) as Hk by by rewrite En; exists [n].
  apply io_bind in H as [(e & H & ->)|([] & os1 & H & H2)]; apply map_err_Ok in H as (r1 & H & Hr1);
    apply (dirs_step k mm) in H as (He & Hi1 & [Hf1 Hf2] & Hd); try done.
  { apply follows_err. intros Hf. destruct (make_dirs mm k); [|done].
    assert (r1 = Ok ()) as Hr by eauto. by apply Hr1 in Hr. }
  destruct (Hr1 ()) as [Hr _]. specialize (Hr eq_refl). specialize (Hd Hr).
  destruct (Hf1 Hr) as (mm1 & -> & Hh1). cbn [mbind option_bind].
  enough (follows match entry_type entry with
                  | KDir => make_dirs mm1 ns
                  | KFile => contents ← ok (entry_contents entry); put_leaf mm1 ns (NFile contents None)
                  | KSymlink =>
                      match link_name entry with
                      | Some name =>
                          if leads_inside T ns name
                          then _ ← ok (check_path name); put_leaf mm1 ns (NLink name)
                          else Some mm1
                      | None => Some mm1
                      end
                  | KOther => Some mm1
                  end r os1 os') as [Ha Hb].
  { split; [done|]. intros Hf. apply Hb, He, Hf. }
  assert ((Ok (), os1) = (r, os') → follows (Some mm1) r os1 os') as Hskip.
  { intros [= <- <-]. split; [eauto|done]. }
  destruct (entry_type entry).
  - apply map_err_Ok in H2 as (r2 & H2 & Hr2). apply (dirs_step ns mm1) in H2 as (_ & _ & [Ha Hb] & _); try done.
    split; [intros Hrr; by apply Ha, Hr2|intros ? ?; apply Hr2; auto].
  - by eapply write_entry_step.
  - destruct (link_name entry); [by eapply create_symlink_step|]. by apply Hskip.
  - by apply Hskip.
Qed.

End Rel.

Lemma extract_entries_step items L mm os r os' :
  inside T t0 L (treeof os) → tame L items = true → forallb plain_item items = true →
  holds T (treeof os) mm →
  extract_entries (below_root T) (path_clean (below_root T)) items os = (r, os') →
  follows (unpack T mm items) r os os'.
Proof.
  revert L mm os. induction items as [|item items IH]; intros L mm os Hi Ht Hp Hh H.
  { injection H as <- <-. split; [eauto|done]. }
  cbn [forallb] in Hp. apply andb_true_iff in Hp as [Hpi Hp].
  assert (∀ L1 next, (∀ r1 os1, extract_entry (below_root T) (path_clean (below_root T)) item os = (r1, os1) →
             follows next r1 os os1 ∧ env_kept os os1 ∧
             (r1 = Ok () → inside T t0 L1 (treeof os1) ∧ tame L1 items = true)) →
            follows (m1 ← next; unpack T m1 items) r os os') as Hnext.
  { intros L1 next Hone. cbn [extract_entries] in H.
    apply io_bind in H as [(e & H & ->)|([] & os1 & H & H2)]; destruct (Hone _ _ H) as ([Ha Hb] & He & Hi1).
    - apply follows_err. intros Hf. destruct next; [|done]. by specialize (Hb Hf ltac:(eauto)).
    - destruct (Ha eq_refl) as (mm1 & -> & Hh1). destruct (Hi1 eq_refl) as [Hi1' Ht1].
      destruct (IH L1 mm1 os1 Hi1' Ht1 Hp Hh1 H2) as [Hc Hd]. split; [done|].
      intros Hf. apply Hd, He, Hf. }
  cbn [unpack]. unfold plain_item in Hpi. cbn [tame] in Ht. destruct item as [entry|e].
  2: { eapply (Hnext L None). intros r1 os1 [= <- <-]. split_and!; [by apply follows_err|done..]. }
  destruct (entry_path entry) as [p|e] eqn:Ep.
  2: { eapply (Hnext L None). intros r1 os1 H1. unfold extract_entry in H1.
       erewrite io_bind_Ok in H1 by done. rewrite Ep in H1. injection H1 as <- <-.
       split_and!; [by apply follows_err|done..]. }
  cbn [ok mbind option_bind]. cbv zeta in *. destruct (decide (strip_package p = [])) as [Hr|Hr].
  { eapply (Hnext L (Some mm)). intros r1 os1 H1. unfold extract_entry in H1.
    erewrite io_bind_Ok in H1 by done. rewrite Ep in H1. erewrite io_bind_Ok in H1 by done.
    cbv zeta in H1. rewrite decide_True in H1 by done. injection H1 as <- <-.
    split_and!; [split; [eauto|done]|done..]. }
  apply orb_true_iff in Hpi as [Hpi%bool_decide_eq_true|Hpi]; [done|].
  apply andb_true_iff in Ht as [_ Ht].
  destruct (rel_trail [] (split_on "/"%byte (strip_package p))) as [ks|] eqn:Ek; [|done].
  apply andb_true_iff in Ht as [HL Ht].
  eapply (Hnext (links_after ks L entry)). intros r1 os1 H1. unfold extract_entry in H1.
  erewrite io_bind_Ok in H1 by done. rewrite Ep in H1. erewrite io_bind_Ok in H1 by done.
  cbv zeta in H1. rewrite decide_False in H1 by done.
  rewrite (target_clean_below D m HT _ Hpi) in H1. cbn [negb] in H1.
  pose proof H1 as Hin. eapply (place_entry_inside D m t0 HT _ ks L) in Hin as [He Hi1];
    [|by apply plain_relative|done..].
  split_and!; [|done|done]. rewrite (target_below D m HT _ Hpi) in H1.
  by eapply (place_entry_step _ Hpi L ks).
Qed.

End Extract.
