(* ===== verification/InstallSettle.v ===== *)
(** * InstallSettle: an extracted tree takes its place

    [settle] and [extract_via]: what they leave of the directory a package
    goes to, whatever calls fail on the way. *)

From S2P Require Import Prelude RustStd StdPath Tsconfig Loader UnixFs UnixFsSpec UnixFsMove.
From S2P Require Import UnixFsPlain Install InstallTree InstallUnpack.

(** A package's manifest, where it would be. *)

Definition manifest_place (dest : Place) : Place := dest ++ [bs "package.json"].

Definition has_manifest (dest : Place) (t : Tree) : Prop :=
  ∃ data mode, t !! manifest_place dest = Some (NFile data mode).

(** The directory is not reached through a link, nor is its manifest. *)

Definition unlinked (dest : Place) (t : Tree) : Prop :=
  no_link t dest ∧ no_link t (manifest_place dest).

Lemma manifest_name_ok : ok_name (bs "package.json").
Proof.
  assert (bool_decide (ok_name (bs "package.json"))) as H by by vm_compute.
  by apply bool_decide_unpack in H.
Qed.

Section Settle.
Context (D : Place) (B m : list byte).
Context (HB : Forall ok_name (D ++ [B])) (Hm : Forall ok_name (D ++ [m])) (HBm : B ≠ m).

Abbreviation T := (D ++ [m]).
Abbreviation dest := (D ++ [B]).

Lemma dest_not_T k : dest `prefix_of` k → ¬ T `prefix_of` k.
Proof.
  intros [a ->] [b E]. rewrite <-!app_assoc in E. by simplify_list_eq.
Qed.

Lemma T_not_dest k : T `prefix_of` k → ¬ dest `prefix_of` k.
Proof. intros H1 H2. by apply (dest_not_T k). Qed.

Lemma D_above (n : list byte) : ¬ (D ++ [n]) `prefix_of` D.
Proof. intros [r E]. apply (f_equal length) in E. rewrite !length_app in E. cbn in E. lia. Qed.

Lemma manifest_ok : Forall ok_name (manifest_place dest).
Proof. apply Forall_app. split; [done|]. constructor; [apply manifest_name_ok|constructor]. Qed.

Lemma package_json_text : package_json (below_root dest) = below_root (manifest_place dest).
Proof. apply path_join_below; [by apply ok_names_good|apply manifest_name_ok]. Qed.

Lemma dest_no_links t :
  tree_ok t → t !! D = Some NDir → unlinked dest t → ∀ j, j `prefix_of` manifest_place dest → no_link t j.
Proof.
  intros Hok Hd [Hl1 Hl2] j Hj. unfold manifest_place in Hj.
  assert (∀ (k : Place) x, j `prefix_of` k ++ [x] → j = k ++ [x] ∨ j `prefix_of` k) as Hcase.
  { intros k x [r E]. destruct r as [|y r _] using rev_ind; [left; by rewrite app_nil_r in E|].
    right. rewrite app_assoc in E. apply app_inj_tail in E as [-> _]. by exists r. }
  apply Hcase in Hj as [->|Hj]; [done|]. apply Hcase in Hj as [->|Hj]; [done|].
  intros target Ht. destruct Hj as [r E]. rewrite E in Hd. apply tree_ok_dir in Hd; [congruence|done].
Qed.

Lemma is_file_manifest v :
  tree_ok (tree v) → tree v !! D = Some NDir → unlinked dest (tree v) →
  is_file v (package_json (below_root dest)) = true ↔ has_manifest dest (tree v).
Proof.
  intros Hok Hd Hl. rewrite package_json_text. unfold is_file. split.
  - destruct (stat v _) as [[|d md|]|] eqn:Es; [done| |done..]. intros _.
    apply stat_goal in Es.
    + rewrite goal_below in Es by apply manifest_ok. by exists d, md.
    + apply way_below_no_link; [apply manifest_ok|by apply dest_no_links].
  - intros (d & md & Hf).
    assert (tree v !! dest = Some NDir) as Hdest by (apply (proj2 Hok _ (bs "package.json")); eauto).
    unfold stat, manifest_place in *. rewrite namei_name; [|done|apply manifest_ok|done|apply Hl].
    rewrite Hf. cbn [mbind result_bind]. by rewrite Hf.
Qed.

Lemma exists_dest v :
  tree_ok (tree v) → tree v !! D = Some NDir → unlinked dest (tree v) →
  exists_ v (below_root dest) = bool_decide (is_Some (tree v !! dest)).
Proof.
  intros Hok Hd [Hl _]. unfold exists_, stat. rewrite namei_name by done.
  destruct (tree v !! dest) eqn:E; cbn [mbind result_bind]; [|done]. rewrite E. done.
Qed.

Lemma rename_Ok t t' :
  t !! T = Some NDir → rename_at T dest false t = Ok t' → t' = move T dest t.
Proof.
  intros Hd. unfold rename_at. rewrite Hd.
  rewrite decide_False by (intros E; by simplify_list_eq).
  rewrite decide_False by (intros H; by eapply dest_not_T; [|exact H]).
  destruct (t !! dest) as [[| |]|]; [|done..|by intros [= <-]]. case_decide; [|done]. by intros [= <-].
Qed.

(** What [settle] leaves. *)

Definition settled (t : Tree) (r : result Text unit) (t' : Tree) : Prop :=
  tree_ok t' ∧
  (∀ k, ¬ T `prefix_of` k → ¬ dest `prefix_of` k → t' !! k = t !! k) ∧
  ((∀ j, t' !! (dest ++ j) = t !! (dest ++ j)) ∧ has_manifest dest t ∧ r = Ok () ∨
   ¬ has_manifest dest t ∧ r ≠ Ok () ∧
     (∀ j, t' !! (dest ++ j) = t !! (dest ++ j) ∨ t' !! (dest ++ j) = None) ∨
   ¬ has_manifest dest t ∧ r = Ok () ∧ ∀ j, t' !! (dest ++ j) = t !! (T ++ j)).

Lemma shrinks_other P t t' k : shrinks P t t' → ¬ P k → t' !! k = t !! k.
Proof. intros H Hk. by destruct (H k) as [?|[? _]]. Qed.

Lemma shrinks_unlinked P t t' : shrinks P t t' → unlinked dest t → unlinked dest t'.
Proof.
  intros Hs%shrinks_subseteq [H1 H2].
  split; intros target Ht; [apply (H1 target)|apply (H2 target)]; by eapply lookup_weaken.
Qed.

Lemma shrinks_manifest P t t' : shrinks P t t' → has_manifest dest t' → has_manifest dest t.
Proof.
  intros Hs (d & md & H). exists d, md. eapply lookup_weaken; [done|by eapply shrinks_subseteq].
Qed.

Lemma attempt_remove k n os os' x :
  Forall ok_name (k ++ [n]) → tree_ok (treeof os) → treeof os !! k = Some NDir →
  attempt (F := Text) (remove_dir_all (below_root (k ++ [n]))) os = (x, os') →
  removes (prefix (k ++ [n])) os os' ∧
  (faults os = [] → (∀ d md, treeof os !! (k ++ [n]) ≠ Some (NFile d md)) →
   treeof os' !! (k ++ [n]) = None) ∧ ∃ r, x = Ok r.
Proof.
  intros Hk Hok Hd H. apply attempt_eq in H as (r & -> & H).
  apply remove_dir_all_below in H as [? ?]; [|done..]. split_and!; [done..|eauto].
Qed.

Lemma attempt_Ok {S E F A : Type} (io : IO S E A) s e s' : attempt (F := F) io s ≠ (Err e, s').
Proof. intros H. by apply attempt_eq in H as (? & ? & _). Qed.

Lemma clear_dest_outcome os r os' :
  tree_ok (treeof os) → treeof os !! D = Some NDir → unlinked dest (treeof os) →
  clear_dest (below_root dest) os = (r, os') →
  r = Ok () ∧ removes (prefix dest) os os' ∧
  (faults os = [] → (∀ d md, treeof os !! dest ≠ Some (NFile d md)) → treeof os' !! dest = None).
Proof.
  intros Hok Hd Hl H. unfold clear_dest in H. erewrite io_bind_Ok in H by done. cbn beta in H.
  rewrite exists_dest in H by done. case_bool_decide as Hex.
  - apply io_bind in H as [(e & H & _)|(x & os1 & H & H2)]; [by apply attempt_Ok in H|].
    injection H2 as <- <-. by apply attempt_remove in H as (? & ? & _); [|done..].
  - injection H as <- <-. split_and!; [done..|]. intros _ _.
    destruct (treeof os !! dest); [by destruct Hex|done].
Qed.

Lemma rename_refused t e : t !! T = Some NDir → rename_at T dest false t = Err e → t !! dest ≠ None.
Proof.
  intros Hd. unfold rename_at. rewrite Hd.
  rewrite decide_False by (intros E; by simplify_list_eq).
  rewrite decide_False by (intros Hp; by eapply dest_not_T; [|exact Hp]).
  by destruct (t !! dest).
Qed.

Lemma take_place_outcome os r os' :
  tree_ok (treeof os) → treeof os !! T = Some NDir → unlinked dest (treeof os) →
  ¬ has_manifest dest (treeof os) → take_place (below_root T) (below_root dest) os = (r, os') →
  env_kept os os' ∧
  (treeof os' = move T dest (treeof os) ∧ r = Ok () ∨
   removes (prefix T) os os' ∧ r ≠ Ok () ∧ (faults os = [] → treeof os !! dest ≠ None)) ∧
  (faults os = [] → treeof os' !! T = None).
Proof.
  intros Hok HT Hl Hno H.
  assert (treeof os !! D = Some NDir) as Hd by by apply (tree_ok_dir _ _ [m]).
  apply io_bind in H as [(e & H & _)|(renamed & os1 & H & H2)]; [by apply attempt_Ok in H|].
  apply attempt_eq in H as (r1 & [= <-] & H). rewrite rename_below in H by done.
  apply call_eff in H as [He H]. destruct renamed as [[]|e].
  - injection H2 as <- <-. apply rename_Ok in H; [|done]. split_and!; [done|by left|].
    intros _. rewrite H. apply move_from; [done|]. by apply T_not_dest.
  - destruct H as [Hsame Hbad].
    apply io_bind in H2 as [(e' & H & _)|(x & os2 & H & H2)]; [by apply attempt_Ok in H|].
    apply attempt_remove in H as ((He2 & Hs & Hok2) & Hq & _); [|done|by rewrite Hsame..].
    rewrite Hsame in Hs, Hok2, Hq. specialize (Hok2 Hok).
    assert (treeof os2 !! D = Some NDir) as Hd2.
    { rewrite (shrinks_other _ _ _ _ Hs); [done|apply D_above]. }
    assert (is_file (vfs os2) (package_json (below_root dest)) = false) as Hnf.
    { apply not_true_iff_false. rewrite is_file_manifest; [|done..|by eapply shrinks_unlinked].
      intros Hh. apply Hno. by eapply shrinks_manifest. }
    erewrite io_bind_Ok in H2 by done. cbn beta in H2. rewrite Hnf in H2. injection H2 as <- <-.
    split_and!; [by etrans| |intros Hf; apply Hq; [by apply He|congruence]].
    right. split_and!; [split_and!; [by etrans|done..]|done|]. intros Hf.
    by eapply rename_refused, Hbad.
Qed.

Lemma settle_outcome os r os' :
  tree_ok (treeof os) → treeof os !! T = Some NDir → unlinked dest (treeof os) →
  settle (below_root T) (below_root dest) os = (r, os') →
  env_kept os os' ∧ settled (treeof os) r (treeof os') ∧
  (faults os = [] → treeof os' !! T = None) ∧
  (faults os = [] → (∀ d md, treeof os !! dest ≠ Some (NFile d md)) → r = Ok ()).
Proof.
  intros Hok HT Hl H.
  assert (treeof os !! D = Some NDir) as Hd by by apply (tree_ok_dir _ _ [m]).
  unfold settle in H. erewrite io_bind_Ok in H by done. cbn beta in H.
  pose proof (is_file_manifest _ Hok Hd Hl) as Hman.
  destruct (is_file (vfs os) (package_json (below_root dest))).
  - apply io_bind in H as [(e & H & _)|(x & os1 & H & H2)]; [by apply attempt_Ok in H|].
    injection H2 as <- <-. apply attempt_remove in H as ((He & Hs & Hok1) & Hq & _); [|done..].
    split_and!; [done| |intros Hf; apply Hq; [done|congruence]|done].
    split_and!; [by apply Hok1| |left; split_and!; [|by apply Hman|done]].
    + intros k Hk _. by apply (shrinks_other _ _ _ _ Hs).
    + intros j. apply (shrinks_other _ _ _ _ Hs). apply dest_not_T. by exists j.
  - assert (¬ has_manifest dest (treeof os)) as Hno by (intros Hh; by apply Hman in Hh).
    apply io_bind in H as [(e & H & _)|([] & os1 & H & H2)];
      apply clear_dest_outcome in H as (Hr & (He1 & Hs1 & Hok1) & Hgone); try done.
    specialize (Hok1 Hok).
    assert (∀ j, treeof os1 !! (T ++ j) = treeof os !! (T ++ j)) as HT1.
    { intros j. apply (shrinks_other _ _ _ _ Hs1), T_not_dest. by exists j. }
    assert (treeof os1 !! T = Some NDir) as HTd1.
    { pose proof (HT1 []) as E. rewrite app_nil_r in E. by rewrite E. }
    apply take_place_outcome in H2 as (He2 & Hcase & Hq); [|done|done|by eapply shrinks_unlinked|].
    2: { intros Hh. apply Hno. by eapply shrinks_manifest. }
    split_and!; [by etrans| |intros Hf; by apply Hq, He1| ].
    + destruct Hcase as [[Ht ->]|((_ & Hs2 & Hok2) & Hr2 & _)].
      * split_and!; [rewrite Ht; eapply move_ok; [done..| |]| |right; right; split_and!; [done..|]].
        -- rewrite (shrinks_other _ _ _ _ Hs1); [done|apply D_above].
        -- intros Hp. by eapply dest_not_T; [|exact Hp].
        -- intros k Hk1 Hk2. rewrite Ht, move_else by done. by apply (shrinks_other _ _ _ _ Hs1).
        -- intros j. by rewrite Ht, move_to.
      * split_and!; [by apply Hok2| |right; left; split_and!; [done..|]].
        -- intros k Hk1 Hk2. rewrite (shrinks_other _ _ _ _ Hs2) by done.
           by apply (shrinks_other _ _ _ _ Hs1).
        -- intros j. rewrite (shrinks_other _ _ _ _ Hs2) by (apply dest_not_T; by exists j).
           destruct (Hs1 (dest ++ j)) as [?|[_ ?]]; auto.
    + intros Hf Hnf. destruct Hcase as [[_ ?]|(_ & _ & Hcase)]; [done|].
      destruct (Hcase (proj2 He1 Hf)). by apply Hgone.
Qed.

End Settle.
