(* ===== verification/InstallExtract.v ===== *)
(** * InstallExtract: what extracting a tarball does

    [extract_tarball] as a whole: into a temporary directory beside the
    package's, and from there to its place. *)

From S2P Require Import Prelude RustStd StdPath Tsconfig Loader UnixFs UnixFsSpec UnixFsMove.
From S2P Require Import UnixFsPlain Install InstallTree InstallUnpack InstallSettle.

(** ** The temporary directory's name *)

Lemma dec_text_plain z b : (0 ≤ z)%Z → b ∈ dec_text z → is_ascii_digit b = true.
Proof.
  intros Hz Hb. destruct (dec_text_spec z Hz) as (_ & H & _). rewrite forallb_forall in H.
  by apply H, list_elem_of_In.
Qed.

Lemma tmp_name_ok B pid id :
  ok_name B → (0 ≤ pid)%Z → (0 ≤ id)%Z → ok_name (tmp_name B pid id) ∧ B ≠ tmp_name B pid id.
Proof.
  intros (((Hne & Hdot & Hs) & Hdd) & Hnul) Hp Hi.
  assert (∀ b : byte, b = "/"%byte ∨ b = x00 → b ∉ B → b ∉ tmp_name B pid id) as Hno.
  { intros b Hb HbB. unfold tmp_name. rewrite !elem_of_app.
    assert (is_ascii_digit b = false ∧ (b ∉ bs ".") ∧ (b ∉ bs ".oam-tmp-") ∧ (b ∉ bs "-")) as (Hd & ? & ? & ?).
    { destruct Hb as [->| ->]; (split_and!; [done|..]); intros Hin;
        repeat (apply elem_of_cons in Hin as [Hin|Hin]; [done|]); by apply not_elem_of_nil in Hin. }
    intros [?|[?|[?|[Hin|[?|Hin]]]]]; try done; apply dec_text_plain in Hin; congruence. }
  assert (length B < length (tmp_name B pid id)) as Hlen.
  { unfold tmp_name. rewrite !length_app. cbn. lia. }
  split; [|intros E; rewrite <-E in Hlen; lia].
  destruct B as [|b B]; [done|].
  split; [|auto]. split; [split_and!; [done| |auto]|];
    intros E; apply (f_equal length) in E; rewrite E in Hlen; cbn in Hlen; unfold tmp_name in E;
    rewrite !length_app in E; cbn in E; lia.
Qed.

Lemma file_name_below k n : Forall ok_name (k ++ [n]) → file_name (below_root (k ++ [n])) = Some n.
Proof.
  intros Hk. unfold file_name. rewrite below_root_rev by by apply ok_names_good.
  rewrite reverse_snoc. apply Forall_app in Hk as [_ [[[_ Hdd] _] _]%Forall_cons].
  by rewrite decide_False.
Qed.

(** ** A fresh directory *)

Section Via.
Context {TB : Tarballs} (D : Place) (B m : list byte).
Context (HB : Forall ok_name (D ++ [B])) (Hm : Forall ok_name (D ++ [m])) (HBm : B ≠ m).

Abbreviation T := (D ++ [m]).
Abbreviation dest := (D ++ [B]).

Definition fresh_tree : Tree := {[ [] := NDir ]}.

Lemma absent_below t k r : tree_ok t → t !! k = None → t !! (k ++ r) = None.
Proof.
  intros Hok Hk. destruct (t !! (k ++ r)) eqn:E; [|done].
  destruct (decide (r = [])) as [->|Hr]; [rewrite app_nil_r in E; congruence|].
  pose proof (tree_ok_prefix t k r Hok ltac:(eauto) Hr). congruence.
Qed.

Lemma remove_absent os r os' :
  tree_ok (treeof os) → clear_way (treeof os) D → treeof os !! T = None →
  attempt (F := Text) (remove_dir_all (below_root T)) os = (r, os') →
  env_kept os os' ∧ treeof os' = treeof os.
Proof.
  intros Hok Hc Hn H. destruct (Hc D) as [Hd|Hd]; [done| |].
  - apply attempt_eq in H as (r1 & _ & H). unfold remove_dir_all in H.
    apply io_bind in H as [(e & H & _)|(x & os1 & H & _)]; injection H as H <-; [done|].
    unfold ends_in_link in H. by rewrite parentat_missing in H.
  - apply attempt_remove in H as ((He & Hs & _) & _); [|done..]. split; [done|].
    apply map_eq. intros k. destruct (Hs k) as [?|[[j ->] E]]; [done|].
    rewrite E. symmetry. by apply absent_below.
Qed.

(** What holds once the temporary directory is made. *)

Lemma make_tmp os r os' :
  tree_ok (treeof os) → clear_way (treeof os) D → treeof os !! T = None →
  create_dir_all (below_root T) os = (r, os') →
  env_kept os os' ∧ adds (λ p, p `prefix_of` T) (treeof os) (treeof os') ∧ tree_ok (treeof os') ∧
  (r = Ok () → inside T (treeof os') [] (treeof os') ∧ holds T (treeof os') fresh_tree) ∧
  (faults os = [] → r = Ok ()).
Proof.
  intros Hok Hc Hn H.
  assert (clear_way (treeof os) T) as HcT.
  { intros j [r' E]. destruct r' as [|x r' _] using rev_ind.
    - rewrite app_nil_r in E. subst j. by left.
    - rewrite app_assoc in E. apply app_inj_tail in E as [E _]. apply Hc. by exists r'. }
  pose proof (create_dir_all_eff _ _ _ _ Hm Hok (clear_no_link _ _ HcT) H) as (He & Ha & Hok' & Hd).
  split_and!; [done..| |].
  - intros Hr. specialize (Hd Hr).
    assert (∀ j, treeof os' !! (T ++ j) = fresh_tree !! j) as Hj.
    { intros j. unfold fresh_tree. destruct (decide (j = [])) as [->|Hne].
      - by rewrite app_nil_r, Hd, lookup_singleton_eq.
      - rewrite lookup_singleton_ne by done.
        destruct (Ha (T ++ j)) as [->|([r' E] & _)]; [by apply absent_below|].
        apply (f_equal length) in E. rewrite !length_app in E. destruct j; [done|]. cbn in E. lia. }
    split.
    + split_and!; [done..|]. intros k target Hk. rewrite Hj in Hk. unfold fresh_tree in Hk.
      apply lookup_singleton_Some in Hk as [_ ?]. done.
    + intros j. rewrite Hj. unfold fresh_tree. destruct (decide (j = [])) as [->|Hne].
      * by rewrite lookup_singleton_eq.
      * by rewrite lookup_singleton_ne.
  - intros Hf. destruct (create_dir_all_quiet T os) as [os2 H2]; [done..|]. congruence.
Qed.

(** ** [extract_into] *)

Definition tame_data (data : list byte) : Prop :=
  ∀ items, tar_entries data = Ok items → tame [] items = true.

Definition plain_data (data : list byte) : Prop :=
  ∀ items, tar_entries data = Ok items → forallb plain_item items = true.

Definition unpacked (data : list byte) : option Tree :=
  items ← ok (tar_entries data); unpack T fresh_tree items.

Lemma extract_into_outcome data os r os' :
  tame_data data → inside T (treeof os) [] (treeof os) → holds T (treeof os) fresh_tree →
  extract_into data (below_root T) os = (r, os') →
  env_kept os os' ∧ (∃ L, inside T (treeof os) L (treeof os')) ∧
  (plain_data data → follows D m (unpacked data) r os os').
Proof.
  intros Ht Hi Hh H. apply io_bind in H as [(e & H & ->)|(items & os1 & H & H2)]; injection H as H <-.
  - split_and!; [done|eauto|]. intros _. apply follows_err. intros _. unfold unpacked.
    by destruct (tar_entries data).
  - destruct (tar_entries data) as [items'|] eqn:E; [|done]. injection H as <-.
    pose proof H2 as H3. apply (extract_entries_inside D m (treeof os) Hm []) in H3 as [He Hex];
      [|done|by apply Ht]. split_and!; [done..|]. intros Hp. unfold unpacked. rewrite E.
    cbn [ok mbind option_bind]. eapply extract_entries_step; eauto.
Qed.

(** ** [extract_via] *)

Definition around (t t' : Tree) : Prop :=
  ∀ k, ¬ T `prefix_of` k → ¬ dest `prefix_of` k →
  t' !! k = t !! k ∨ (k `prefix_of` D ∧ t !! k = None ∧ t' !! k = Some NDir).

Definition delivered (data : list byte) (t : Tree) (r : result Text unit) (t' : Tree) : Prop :=
  (∀ j, t' !! (dest ++ j) = t !! (dest ++ j)) ∧ (r = Ok () → has_manifest dest t) ∨
  ¬ has_manifest dest t ∧ r ≠ Ok () ∧
    (∀ j, t' !! (dest ++ j) = t !! (dest ++ j) ∨ t' !! (dest ++ j) = None) ∨
  ¬ has_manifest dest t ∧ r = Ok () ∧
    (plain_data data →
     ∃ mm, unpacked data = Some mm ∧ ∀ j, bare <$> t' !! (dest ++ j) = mm !! j).

Lemma adds_dest t t' j : adds (λ p, p `prefix_of` T) t t' → t' !! (dest ++ j) = t !! (dest ++ j).
Proof.
  intros Ha. destruct (Ha (dest ++ j)) as [?|([r E] & _)]; [done|].
  rewrite <-!app_assoc in E. by simplify_list_eq.
Qed.

Lemma adds_around t t' : adds (λ p, p `prefix_of` T) t t' → around t t'.
Proof.
  intros Ha k Hk _. destruct (Ha k) as [?|(Hp & ? & ?)]; [by left|right]. split_and!; [|done..].
  destruct Hp as [r E]. destruct r as [|x r _] using rev_ind.
  - rewrite app_nil_r in E. by destruct Hk; rewrite E.
  - rewrite app_assoc in E. apply app_inj_tail in E as [-> _]. by exists r.
Qed.

Lemma around_same t t1 t' :
  around t t1 → (∀ k, ¬ T `prefix_of` k → ¬ dest `prefix_of` k → t' !! k = t1 !! k) → around t t'.
Proof. intros Ha He k H1 H2. rewrite He by done. by apply Ha. Qed.

Lemma inside_dest t1 L t2 j : inside T t1 L t2 → t2 !! (dest ++ j) = t1 !! (dest ++ j).
Proof. intros (_ & _ & Ho & _). apply Ho. apply (dest_not_T D B m HBm). by exists j. Qed.

Lemma same_dest_unlinked t t' :
  (∀ j, t' !! (dest ++ j) = t !! (dest ++ j)) → unlinked dest t → unlinked dest t'.
Proof.
  intros H [H1 H2]. split; intros target; [|unfold manifest_place in *; rewrite H; apply H2].
  specialize (H []). rewrite app_nil_r in H. rewrite H. apply H1.
Qed.

Lemma same_dest_manifest t t' :
  (∀ j, t' !! (dest ++ j) = t !! (dest ++ j)) → has_manifest dest t' ↔ has_manifest dest t.
Proof. intros H. unfold has_manifest, manifest_place. by setoid_rewrite H. Qed.

Lemma extract_via_outcome data os r os' :
  tree_ok (treeof os) → clear_way (treeof os) D → treeof os !! T = None → unlinked dest (treeof os) →
  tame_data data → extract_via (below_root T) data (below_root dest) os = (r, os') →
  env_kept os os' ∧ tree_ok (treeof os') ∧ around (treeof os) (treeof os') ∧
  delivered data (treeof os) r (treeof os') ∧
  (faults os = [] → treeof os' !! T = None) ∧
  (faults os = [] → plain_data data → is_Some (unpacked data) →
   (∀ d md, treeof os !! dest ≠ Some (NFile d md)) → r = Ok ()).
Proof.
  intros Hok Hc Hn Hl Ht H. unfold extract_via in H.
  apply io_bind in H as [(e & H & _)|(x & os0 & H & H2)]; [by apply attempt_Ok in H|].
  apply remove_absent in H as [He0 Ht0]; [|done..]. rewrite <-Ht0 in Hok, Hc, Hn, Hl.
  rewrite <-Ht0. clear Ht0.
  apply io_bind in H2 as [(e & H & ->)|([] & os1 & H & H2)]; apply map_err_Ok in H as (r1 & H & Hr1);
    apply make_tmp in H as (He1 & Ha1 & Hok1 & Hi1 & Hq1); try done.
  - assert (faults os ≠ []) as Hnf.
    { intros Hf. specialize (Hq1 (proj2 He0 Hf)). by apply Hr1 in Hq1. }
    split_and!; [by etrans|done|by apply adds_around| |done..].
    left. split; [|done]. intros j. by apply adds_dest.
  - assert (r1 = Ok ()) as Hr1' by by apply Hr1. destruct (Hi1 Hr1') as [Hin1 Hh1].
    apply io_bind in H2 as [(e & H & _)|(extracted & os2 & H & H2)]; [by apply attempt_Ok in H|].
    apply attempt_eq in H as (r2 & [= <-] & H).
    apply extract_into_outcome in H as (He2 & (L & Hin2) & Hf2); [|done..].
    assert (∀ j, treeof os2 !! (dest ++ j) = treeof os0 !! (dest ++ j)) as Hsame.
    { intros j. rewrite (inside_dest _ _ _ j Hin2). by apply adds_dest. }
    assert (around (treeof os0) (treeof os2)) as Har.
    { eapply around_same; [by apply adds_around|]. intros k Hk _. by apply Hin2. }
    assert (env_kept os os2) as He02 by (by repeat (etrans; [done|])).
    destruct extracted as [[]|e].
    + apply (settle_outcome D B m HB Hm HBm) in H2 as (He3 & (Hok3 & Ho3 & Hcase) & Hgone & Hgood);
        [|apply Hin2|apply Hin2|by eapply same_dest_unlinked].
      rewrite (same_dest_manifest _ _ Hsame) in Hcase.
      split_and!; [by etrans|done|by eapply around_same| |intros Hf; by apply Hgone, He02|].
      * destruct Hcase as [(Hj & Hh & _)|[(Hh & Hr & Hj)|(Hh & Hr & Hj)]].
        -- left. split; [|done]. intros j. by rewrite Hj.
        -- right; left. split_and!; [done..|]. intros j. rewrite <-Hsame. apply Hj.
        -- right; right. split_and!; [done..|]. intros Hp. destruct (Hf2 Hp) as [Hfa _].
           destruct (Hfa eq_refl) as (mm & Hu & Hhm). exists mm. split; [done|].
           intros j. rewrite Hj. apply Hhm.
      * intros Hf _ _ Hnf. apply Hgood; [by apply He02|]. intros d md Hd. apply (Hnf d md).
        pose proof (Hsame []) as E. rewrite app_nil_r in E. congruence.
    + apply io_bind in H2 as [(e' & H & _)|(x' & os3 & H & H2)]; [by apply attempt_Ok in H|].
      injection H2 as <- <-.
      assert (treeof os2 !! D = Some NDir) as Hd2 by (apply (tree_ok_dir _ _ [m]); apply Hin2).
      apply attempt_remove in H as ((He3 & Hs3 & Hok3) & Hq3 & _); [|done|apply Hin2|done].
      split_and!; [by etrans|apply Hok3, Hin2| | | |].
      * eapply around_same; [done|]. intros k Hk _. by apply (shrinks_other _ _ _ _ Hs3).
      * left. split; [|done]. intros j. rewrite <-Hsame. apply (shrinks_other _ _ _ _ Hs3).
        apply (dest_not_T D B m HBm). by exists j.
      * intros Hf. apply Hq3; [by apply He02|]. intros d md. rewrite (proj1 (proj2 Hin2)). done.
      * intros Hf Hp Hu _. destruct (Hf2 Hp) as [_ Hfb]. apply Hfb; [|done]. by apply He1, He0.
Qed.

End Via.

(** ** [extract_tarball] *)

Section Tarball.
Context {TB : Tarballs} (pid : Z).

(** Where a package is extracted: into the directory [D], whose ancestors are
    directories as far as they exist, under the name [B], neither it nor a
    manifest in it a link, and a temporary name that is not taken. *)

Definition tmp_place (D : Place) (B : list byte) (w : World) : Place :=
  D ++ [tmp_name B pid (tmp_counter w)].

Record site (D : Place) (B : list byte) (w : World) : Prop := {
  site_names : Forall ok_name (D ++ [B]);
  site_utf8 : from_utf8 B = Some B;
  site_pid : (0 ≤ pid)%Z;
  site_counter : (0 ≤ tmp_counter w)%Z;
  site_tree : tree_ok (treeof (os w));
  site_clear : clear_way (treeof (os w)) D;
  site_fresh : treeof (os w) !! tmp_place D B w = None;
  site_unlinked : unlinked (D ++ [B]) (treeof (os w))
}.

Lemma extract_tarball_via D B w data r w' :
  site D B w → extract_tarball pid data (below_root (D ++ [B])) w = (r, w') →
  extract_via (below_root (tmp_place D B w)) data (below_root (D ++ [B])) (os w) = (r, os w') ∧
  Forall ok_name (tmp_place D B w) ∧ B ≠ tmp_name B pid (tmp_counter w).
Proof.
  intros [Hn Hu Hp Hc Hok Hcl Hf Hl] H. unfold extract_tarball in H.
  pose proof Hn as Hn'. apply Forall_app in Hn' as [HD [HB _]%Forall_cons].
  destruct (tmp_name_ok B pid (tmp_counter w) HB Hp Hc) as [Hm Hne].
  rewrite parent_below in H by by apply ok_names_good. erewrite io_bind_Ok in H by done.
  rewrite file_name_below in H by done. cbn [mbind option_bind] in H. rewrite Hu in H.
  erewrite io_bind_Ok in H by done. erewrite io_bind_Ok in H by done.
  rewrite path_join_below in H by (apply ok_names_good || apply Hm; done).
  split_and!; [|apply Forall_app; split; [done|by apply Forall_singleton]|done].
  unfold on_disk in H. cbn [os] in H.
  change (D ++ [tmp_name B pid (tmp_counter w)]) with (tmp_place D B w) in H.
  destruct (extract_via _ _ _ _) as [r1 o]. by injection H as <- <-.
Qed.

End Tarball.
