(* ===== verification/InstallReach.v ===== *)
(** * InstallReach: what a package's own names reach

    The names a package gives its commands, and the links in its archive.  A
    command's name that is a name only puts a link in [.bin]; the code does
    not ask that it be one, and two links of an archive that both point inside
    it can together lead out. *)

From S2P Require Import Prelude RustStd StdPath Tsconfig Loader UnixFs UnixFsSpec UnixFsMove.
From S2P Require Import UnixFsPlain Install InstallTree InstallUnpack InstallSettle InstallExtract.

(** ** Bins *)

(** The same tree but for file modes and the places [P]. *)

Definition same_but (P : Place → Prop) (t t' : Tree) : Prop :=
  ∀ k, ¬ P k → bare <$> t' !! k = bare <$> t !! k.

#[global] Instance same_but_preorder P : PreOrder (same_but P).
Proof. split; [done|]. intros a b c H1 H2 k Hk. by rewrite H2, H1. Qed.

Lemma chmod_at_same P mode k t : same_but P t (chmod_at mode k t).
Proof.
  intros j _. unfold chmod_at. destruct (t !! k) as [[|d md|]|] eqn:E; [done| |done..].
  destruct (decide (j = k)) as [->|Hne]; [by rewrite lookup_insert_eq, E|]. by rewrite lookup_insert_ne.
Qed.

Lemma chmod_any P p mode os r os' :
  set_permissions p mode os = (r, os') →
  env_kept os os' ∧ same_but P (treeof os) (treeof os') ∧ (tree_ok (treeof os) → tree_ok (treeof os')).
Proof.
  intros H. apply call_eff in H as [He H]. split; [done|]. destruct r as [[]|e].
  - apply bind_Ok in H as ([k|k slash] & _ & H); [|done]. injection H as <-.
    split; [apply chmod_at_same|apply chmod_at_ok].
  - by destruct H as [-> _].
Qed.

Section Shims.
Context (K : Place) (HK : Forall ok_name K) (P : Place → Prop).

Lemma create_bin_shim_reach canonical name target os r os' :
  ok_name name → P (K ++ [name]) → ¬ P K → tree_ok (treeof os) → treeof os !! K = Some NDir →
  create_bin_shim (below_root K) canonical name target os = (r, os') →
  same_but P (treeof os) (treeof os') ∧ tree_ok (treeof os') ∧ treeof os' !! K = Some NDir.
Proof.
  intros Hn HP HPK Hok Hd H. unfold create_bin_shim in H. erewrite io_bind_Ok in H by done. cbn beta in H.
  assert (Forall ok_name (K ++ [name])) as Hk by (apply Forall_app; split; [done|by apply Forall_singleton]).
  cbv zeta in H. rewrite path_join_below in H by (by apply ok_names_good || apply Hn).
  assert (∀ t t', same_but P t t' → t !! K = Some NDir → t' !! K = Some NDir) as HKd.
  { intros t t' Hs Ht. apply bare_dir. rewrite Hs by done. by rewrite Ht. }
  assert (∀ t t', t' = t ∨ t' = delete (K ++ [name]) t ∨ (∃ n, t' = <[K ++ [name] := n]> t) →
            same_but P t t') as Hone.
  { intros t t' [->|[->|[n ->]]]; [done|..]; intros j Hj;
      [rewrite lookup_delete_ne|rewrite lookup_insert_ne]; congruence. }
  apply io_bind in H as [(e & H & _)|(x & os1 & H & H2)]; [by apply attempt_Ok in H|].
  apply attempt_eq in H as (r1 & _ & H). pose proof H as Hok1.
  apply remove_file_below in Hok1 as [(_ & _ & Hok1) _]; [|done..]. specialize (Hok1 Hok).
  apply remove_file_only in H; [|done..].
  assert (same_but P (treeof os) (treeof os1)) as Hs1 by (apply Hone; tauto).
  assert (treeof os1 !! K = Some NDir) as Hd1 by by eapply HKd.
  apply io_bind in H2 as [(e & H2 & _)|([] & os2 & H2 & H3)]; apply map_err_Ok in H2 as (r2 & H2 & _);
    apply symlink_only in H2 as (_ & Hok2 & H2); try done.
  - assert (same_but P (treeof os) (treeof os')) as Hs2.
    { etrans; [done|]. apply Hone. destruct H2; eauto. }
    split_and!; [done..|by eapply HKd].
  - assert (same_but P (treeof os) (treeof os2)) as Hs2.
    { etrans; [done|]. apply Hone. destruct H2; eauto. }
    erewrite io_bind_Ok in H3 by done. cbn beta in H3.
    destruct (is_file (vfs os2) target); [|injection H3 as <- <-; split_and!; [done..|by eapply HKd]].
    apply io_bind in H3 as [(e & H4 & _)|(y & os3 & H4 & H3)]; [by apply attempt_Ok in H4|].
    injection H3 as <- <-. apply attempt_eq in H4 as (? & _ & H4).
    apply (chmod_any P) in H4 as (_ & Hs3 & Hok3).
    split_and!; [by etrans|by apply Hok3|]. apply (HKd (treeof os)); [by etrans|done].
Qed.

Lemma shim_all_reach {E} canonical bins os r os' :
  ¬ P K → (∀ name target, (name, target) ∈ bins → ok_name name ∧ P (K ++ [name])) →
  tree_ok (treeof os) → treeof os !! K = Some NDir →
  shim_all (E := E) (below_root K) canonical bins os = (r, os') →
  same_but P (treeof os) (treeof os') ∧ tree_ok (treeof os').
Proof.
  intros HPK. revert os. induction bins as [|[name target] bins IH]; intros os Hb Hok Hd H.
  { by injection H as <- <-. }
  cbn [shim_all] in H.
  apply io_bind in H as [(e & H & _)|(x & os1 & H & H2)]; [by apply attempt_Ok in H|].
  apply attempt_eq in H as (r1 & _ & H). destruct (Hb name target) as [Hn HP]; [left|].
  apply create_bin_shim_reach in H as (Hs1 & Hok1 & Hd1); [|done..].
  apply IH in H2 as [Hs2 Hok2]; [|intros ???; eapply Hb; by right|done..].
  split; [by etrans|done].
Qed.

End Shims.

Section Bins.
Context {JS : Serde}.

(** The bins [link_bins] collects. *)

Definition all_bins (v : Vfs) (node_modules : path) (todo : list (Text * LockfileEntry))
  : list (Text * path) :=
  '(key, entry) ← todo; bins_of v node_modules key entry.

Definition in_bin_dir (NM k : Place) : Prop := ∃ name, k = NM ++ [bs ".bin"; name].

Lemma link_bins_reach {E} NM todo os r os' :
  Forall ok_name NM → tree_ok (treeof os) → treeof os !! NM = Some NDir →
  no_link (treeof os) (NM ++ [bs ".bin"]) →
  (∀ name target, (name, target) ∈ all_bins (vfs os) (below_root NM) todo → ok_name name) →
  link_bins (E := E) (below_root NM) todo os = (r, os') →
  same_but (λ k, k = NM ++ [bs ".bin"] ∨ in_bin_dir NM k) (treeof os) (treeof os') ∧
  tree_ok (treeof os').
Proof.
  intros HNM Hok Hd Hl Hb H. unfold link_bins in H. cbv zeta in H.
  assert (ok_name (bs ".bin")) as Hbin.
  { assert (bool_decide (ok_name (bs ".bin"))) as Hv by by vm_compute. by apply bool_decide_unpack in Hv. }
  assert (Forall ok_name (NM ++ [bs ".bin"])) as HK by (apply Forall_app; split; [done|by apply Forall_singleton]).
  rewrite path_join_below in H by (by apply ok_names_good || apply Hbin).
  erewrite io_bind_Ok in H by done. cbn beta in H.
  case_decide; [by injection H as <- <-|].
  apply io_bind in H as [(e & H & _)|(made & os1 & H & H2)]; [by apply attempt_eq in H as (? & ? & _)|].
  apply attempt_eq in H as (r1 & [= <-] & H).
  apply create_dir_all_eff in H as (_ & Ha & Hok1 & Hd1); [|done..|].
  2: { intros j [r' E']. destruct r' as [|x r' _] using rev_ind.
       - rewrite app_nil_r in E'. by rewrite <-E'.
       - rewrite app_assoc in E'. apply app_inj_tail in E' as [E' _]. rewrite E' in Hd.
         apply tree_ok_dir in Hd; [|done]. intros l. by rewrite Hd. }
  set (P := λ k, k = NM ++ [bs ".bin"] ∨ in_bin_dir NM k).
  assert (same_but P (treeof os) (treeof os1)) as Hs1.
  { intros k Hk. destruct (Ha k) as [->|([r' E'] & Hn & _)]; [done|]. destruct r' as [|x r' _] using rev_ind.
    - rewrite app_nil_r in E'. destruct Hk. by left.
    - rewrite app_assoc in E'. apply app_inj_tail in E' as [E' _]. rewrite E' in Hd.
      apply tree_ok_dir in Hd; [congruence|done]. }
  destruct made as [[]|e]; [|by injection H2 as <- <-].
  erewrite io_bind_Ok in H2 by done. cbn beta in H2.
  destruct (canonicalize _ _) as [canonical|e]; [|by injection H2 as <- <-].
  assert (∀ os2 r2, shim_all (E := E) (below_root (NM ++ [bs ".bin"])) canonical
            (all_bins (vfs os) (below_root NM) todo) os1 = (r2, os2) →
          same_but (in_bin_dir NM) (treeof os1) (treeof os2) ∧ tree_ok (treeof os2)) as Hshim.
  { intros os2 r2 Hs. eapply shim_all_reach in Hs; [done|done| | |done|by apply Hd1].
    - intros [x E']. apply (f_equal length) in E'. rewrite !length_app in E'. cbn in E'. lia.
    - intros name target Hin. split; [by eapply Hb|]. exists name. by rewrite <-app_assoc. }
  assert (∀ t t', same_but (in_bin_dir NM) t t' → same_but P t t') as Hweak.
  { intros t t' Hs k Hk. apply Hs. intros Hin. apply Hk. by right. }
  apply io_bind in H2 as [(e & H & _)|([] & os2 & H & H2)]; apply Hshim in H as [Hs2 Hok2].
  - split; [|done]. etrans; [done|]. by apply Hweak.
  - injection H2 as <- <-. split; [|done]. etrans; [done|]. by apply Hweak.
Qed.

End Bins.

(** ** Out of the package *)

Section Escape.

Definition item_at (name : string) (kind : Kind) (contents : list byte) (link : option string)
  : result Text TarEntry :=
  Ok {| entry_path := Ok (bs name); entry_type := kind; entry_contents := Ok contents;
        entry_mode := None; link_name := bs <$> link |}.

(** Each link's text, read from its own directory, stays in the package; the
    second is made by way of the first, so its directory is another one. *)

Definition chain_archive (contents : list byte) : list (result Text TarEntry) :=
  [item_at "package/package.json" KFile (bs "{}") None;
   item_at "package/a/b/up" KSymlink [] (Some "../..");
   item_at "package/a/b/up/out" KSymlink [] (Some "../..");
   item_at "package/out/notes.txt" KFile contents None].

Definition project : Place := [bs "p"].

Definition tree_of (l : list (Place * Node)) : Tree := list_to_map l.

Definition bare_project (notes : list byte) : Tree :=
  tree_of [([], NDir); (project, NDir); (project ++ [bs "notes.txt"], NFile notes None);
           (project ++ [bs "node_modules"], NDir)].

Definition os_of (t : Tree) : Os := {| vfs := {| tree := t; here := [] |}; faults := [] |}.

Definition world_of (t : Tree) : World := {| os := os_of t; tmp_counter := 0; log := [] |}.

(** A manifest naming its command [../../notes.txt]. *)

Definition climbing_manifest : Value :=
  VObject [(bs "bin", VObject [(bs "../../notes.txt", VString (bs "cli.js"))])].

Definition installed_project (notes : list byte) : Tree :=
  tree_of [([], NDir); (project, NDir); (project ++ [bs "notes.txt"], NFile notes None);
           (project ++ [bs "node_modules"], NDir); (project ++ [bs "node_modules"; bs "foo"], NDir);
           (project ++ [bs "node_modules"; bs "foo"; bs "package.json"], NFile (bs "{}") None)].

Definition unlisted : LockfileEntry := {| resolved := None; integrity := None; bin := None |}.

(** C38. What a package's own names reach.  Linking commands whose names are
    names changes only what is in [.bin], and file modes.  But a command's
    name is not checked to be one: a package whose manifest calls it
    [../../notes.txt] has that file of the project replaced.  And a link of an
    archive is checked by its text alone: an archive of four entries, whose
    links each pass the check, writes a file of the project, outside the
    package it is extracted to. *)

Theorem names_reach :
  (∀ (JS : Serde) NM todo os r os',
     Forall ok_name NM → tree_ok (treeof os) → treeof os !! NM = Some NDir →
     no_link (treeof os) (NM ++ [bs ".bin"]) →
     (∀ name target, (name, target) ∈ all_bins (vfs os) (below_root NM) todo → ok_name name) →
     link_bins (E := Text) (below_root NM) todo os = (r, os') →
     same_but (λ k, k = NM ++ [bs ".bin"] ∨ in_bin_dir NM k) (treeof os) (treeof os')) ∧
  (∀ notes,
     let JS : Serde := {| json_from_str := λ _, Some climbing_manifest; tsconfig_from_str := λ _, None |} in
     let '(r, os') := link_bins (E := Text) (bs "/p/node_modules") [(bs "node_modules/foo", unlisted)]
                        (os_of (installed_project notes)) in
     r = Ok [] ∧ treeof os' !! (project ++ [bs "notes.txt"]) = Some (NLink (bs "../foo/cli.js"))) ∧
  (∀ notes contents,
     let TB : Tarballs := {| tar_entries := λ _, Ok (chain_archive contents) |} in
     let '(r, w') := extract_tarball 1 [] (bs "/p/node_modules/foo") (world_of (bare_project notes)) in
     r = Ok () ∧ treeof (os w') !! (project ++ [bs "notes.txt"]) = Some (NFile contents None)).
Proof.
  split; [|split].
  - intros JS NM todo os r os' H1 H2 H3 H4 H5 H. by eapply link_bins_reach in H as [? _].
  - intros notes. vm_compute. done.
  - intros notes contents. vm_compute. done.
Qed.

End Escape.
