(* ===== verification/InstallScripts.v ===== *)
(** * InstallScripts: what an install runs, sends and reports *)

From S2P Require Import Prelude RustStd StdPath Tsconfig Loader UnixFs UnixFsSpec Install InstallSettle.

(** ** What a step adds to the log *)

Lemma on_disk_eq {E A} (m : IO Os E A) w r w' :
  on_disk m w = (r, w') → m (os w) = (r, os w') ∧ log w' = log w.
Proof. unfold on_disk. destruct (m (os w)) as [r1 o]. by intros [= <- <-]. Qed.

Section Fetching.
Context `{Outside} `{Tarballs} `{Digests} (pid : Z).

Lemma download_loop_log n url e w r w' :
  download_loop n url e w = (r, w') →
  os w' = os w ∧ ∃ k, k ≤ n ∧ (0 < n → 0 < k) ∧ log w' = log w ++ replicate k (Sent url).
Proof.
  revert e w. induction n as [|n IH]; intros e w Hd.
  { injection Hd as <- <-. split; [done|]. exists 0. rewrite app_nil_r. split_and!; [done|lia|done]. }
  cbn [download_loop] in Hd. erewrite io_bind_Ok in Hd by done. cbn beta in Hd.
  destruct (reply_bytes _ _) as [bytes|e'].
  - injection Hd as <- <-. split; [done|]. exists 1. split_and!; [lia|lia|done].
  - apply IH in Hd as (Hos & k & Hk & _ & Hl). split; [done|]. exists (S k). split_and!; [lia|lia|].
    rewrite Hl. cbn. by rewrite <-app_assoc.
Qed.

Lemma fetch_and_extract_log url sri dest w r w' :
  fetch_and_extract pid url sri dest w = (r, w') →
  ∃ k, 0 < k ≤ 4 ∧ log w' = log w ++ replicate k (Sent url).
Proof.
  intros Hf. apply io_bind in Hf as [(e & Hd & ->)|(data & w1 & Hd & Hf)];
    apply download_loop_log in Hd as (_ & k & Hk & Hk' & Hl); specialize (Hk' ltac:(lia)); [by exists k|].
  exists k. split; [lia|]. rewrite <-Hl.
  apply io_bind in Hf as [(e & [= _ <-] & _)|([] & w2 & [= _ <-] & Hf)]; [done|].
  apply io_bind in Hf as [(e & [= _ <-] & _)|(up & w3 & [= _ <-] & Hf)]; [done|].
  apply io_bind in Hf as [(e & [= _ <-] & _)|(base & w4 & [= _ <-] & Hf)]; [done|].
  erewrite io_bind_Ok in Hf by done. by apply on_disk_eq in Hf as [_ ->].
Qed.

End Fetching.

(** ** Packages *)

Definition coded (c : string) (e : Report) : Prop := report_code e = bs c.

#[global] Instance coded_dec c e : Decision (coded c e).
Proof. unfold coded. apply _. Defined.

(** The reports of packages that could not be installed. *)

Definition failures_of (l : list Report) : list Report := filter (coded "OAM-PKG0004") l.

#[global] Arguments failures_of : simpl never.

Definition could_not_install (key e : Text) : Report :=
  diag "OAM-PKG0004" (bs "failed to install " ++ key ++ bs ": " ++ e).

Lemma failures_of_app l k : failures_of (l ++ k) = failures_of l ++ failures_of k.
Proof. apply filter_app. Qed.

Definition codes_in (cs : list string) (l : list Report) : Prop :=
  Forall (λ e, ∃ c, c ∈ cs ∧ coded c e) l.

Lemma codes_in_app cs l k : codes_in cs l → codes_in cs k → codes_in cs (l ++ k).
Proof. intros. by apply Forall_app. Qed.

Lemma codes_in_weaken cs cs' l : (∀ c, c ∈ cs → c ∈ cs') → codes_in cs l → codes_in cs' l.
Proof. intros Hc Hl. eapply Forall_impl; [exact Hl|]. cbn. naive_solver. Qed.

Lemma no_failures cs l : codes_in cs l → Forall (λ c, bs c ≠ bs "OAM-PKG0004") cs → failures_of l = [].
Proof.
  intros Hl Hcs. unfold failures_of.
  induction Hl as [|e l (c & Hc & He) _ IH]; [done|]. rewrite filter_cons_False; [done|].
  unfold coded in *. rewrite He. rewrite Forall_forall in Hcs. by apply Hcs.
Qed.

(** The codes the loop, and the reading of a package's scripts, report. *)

Definition LOOP_CODES : list string := ["OAM-PKG0004"; "OAM-PKG0007"]%string.
Definition SCRIPT_CODES : list string := ["OAM-PKG0007"]%string.

Section Packages.
Context `{Outside} `{Tarballs} `{Digests} {JS : Serde} (pid : Z).
Context (project_dir scripts_ran_dir : path) (trust : TrustConfig).

(** Scripts found for a key in its turn, from [w] to [w']: a trusted package's
    own, as its manifest gives them, and not those of a package that was there
    with its stamp. *)

Definition found_at (key : Text) (q : PendingScripts) (w w' : World) : Prop :=
  script_dir q = path_join project_dir key ∧ package_name key ∈ trusted trust ∧
  (scripts q).*1 `sublist_of` PHASES ∧
  (∃ json, read_json (vfs (os w')) (package_json (script_dir q)) = Some json ∧
           scripts q = lifecycle_scripts json) ∧
  marker_path q = script_marker_path scripts_ran_dir (package_name key) ∧
  (is_file (vfs (os w)) (package_json (path_join project_dir key)) = true →
   is_file (vfs (os w)) (marker_path q) = false).

Lemma lifecycle_phases json : (lifecycle_scripts json).*1 `sublist_of` PHASES.
Proof.
  unfold lifecycle_scripts. destruct (value_get _ _) as [[| | | | |fields]|]; try apply sublist_nil_l.
  generalize PHASES. intros l. induction l as [|x l IH]; [done|]. cbn [omap list_omap].
  destruct (map_get x fields ≫= as_str) as [cmd|]; cbn; [by apply sublist_skip|by apply sublist_cons].
Qed.

Lemma check_scripts_found w w' key q errs :
  check_lifecycle_scripts (vfs (os w')) (path_join project_dir key) (package_name key) scripts_ran_dir trust
    = (q, errs) →
  (is_file (vfs (os w)) (package_json (path_join project_dir key)) = true →
   is_file (vfs (os w)) (script_marker_path scripts_ran_dir (package_name key)) = false) →
  codes_in SCRIPT_CODES errs ∧ ∀ p, q = Some p → found_at key p w w'.
Proof.
  unfold check_lifecycle_scripts. destruct (read_json _ _) as [json|] eqn:Ej.
  2: { intros [= <- <-] _. split; [constructor|done]. }
  cbv zeta. case_decide; [intros [= <- <-] _; split; [constructor|done]|].
  destruct (is_trusted trust (package_name key)) eqn:Et; cbn [negb]; intros [= <- <-] Hs.
  - split; [constructor|]. intros p [= <-]. apply bool_decide_eq_true in Et.
    unfold found_at. cbn. split_and!; [done|done|apply lifecycle_phases|by exists json|done..].
  - split; [|done]. constructor; [|constructor]. exists "OAM-PKG0007"%string. split; [left|done].
Qed.

(** What became of the packages, one by one from [w] to [w'] in the order of
    the loop: the requests that were sent for them, how many were counted as
    installed, and the reports of the others.  A package that was there is
    counted and not fetched; any other is fetched, by one to four requests, and
    then counted when it could be put in its place, and reported when not. *)

Inductive tally : list (Text * LockfileEntry) → World → list Event → nat → list Report → World → Prop :=
| no_packages w : tally [] w [] 0 [] w
| not_fetched key entry todo w sent n failures w' :
    resolved entry = None → tally todo w sent n failures w' →
    tally ((key, entry) :: todo) w sent n failures w'
| there_already key entry url todo w sent n failures w' :
    resolved entry = Some url →
    is_file (vfs (os w)) (package_json (path_join project_dir key)) = true →
    tally todo w sent n failures w' →
    tally ((key, entry) :: todo) w sent (S n) failures w'
| fetched_in key entry url k todo w w1 sent n failures w' :
    resolved entry = Some url →
    is_file (vfs (os w)) (package_json (path_join project_dir key)) = false →
    fetch_and_extract pid url (integrity entry) (path_join project_dir key) w = (Ok (), w1) →
    0 < k ≤ 4 → log w1 = log w ++ replicate k (Sent url) →
    tally todo w1 sent n failures w' →
    tally ((key, entry) :: todo) w (replicate k (Sent url) ++ sent) (S n) failures w'
| not_installed key entry url k e todo w w1 sent n failures w' :
    resolved entry = Some url →
    is_file (vfs (os w)) (package_json (path_join project_dir key)) = false →
    fetch_and_extract pid url (integrity entry) (path_join project_dir key) w = (Err e, w1) →
    0 < k ≤ 4 → log w1 = log w ++ replicate k (Sent url) →
    tally todo w1 sent n failures w' →
    tally ((key, entry) :: todo) w (replicate k (Sent url) ++ sent) n
      (could_not_install key e :: failures) w'.

(** A turn of the loop: what it adds to the tally, and the scripts it found. *)

Definition turn (key : Text) (entry : LockfileEntry) (st st' : Progress) (w w' : World) : Prop :=
  (∃ sent n failures,
     (∀ todo sent' n' failures' w'', tally todo w' sent' n' failures' w'' →
        tally ((key, entry) :: todo) w (sent ++ sent') (n + n') (failures ++ failures') w'') ∧
     log w' = log w ++ sent ∧ installed st' = installed st + n ∧
     failures_of (errors st') = failures_of (errors st) ++ failures) ∧
  (codes_in LOOP_CODES (errors st) → codes_in LOOP_CODES (errors st')) ∧
  (pending_scripts st' = pending_scripts st ∨
   is_Some (resolved entry) ∧
   ∃ q, pending_scripts st' = pending_scripts st ++ [q] ∧ found_at key q w w').

Lemma landed_turn key entry url st sent found w w' :
  resolved entry = Some url →
  (∀ todo sent' n' failures' w'', tally todo w' sent' n' failures' w'' →
     tally ((key, entry) :: todo) w (sent ++ sent') (S n') failures' w'') →
  log w' = log w ++ sent →
  codes_in SCRIPT_CODES found.2 → (∀ p, found.1 = Some p → found_at key p w w') →
  turn key entry st (landed found st) w w'.
Proof.
  intros Hurl Ht Hlog Hc Hp. destruct found as [q errs]. cbn in *. split_and!.
  - exists sent, 1, []. split_and!; [exact Ht|exact Hlog|cbn; lia|].
    cbn. rewrite failures_of_app, (no_failures _ errs Hc); [done|]. by repeat constructor.
  - cbn. intros Hst. apply codes_in_app; [done|]. eapply codes_in_weaken; [|done]. set_solver.
  - destruct q as [q|]; cbn; [right; rewrite Hurl; eauto|left; by rewrite app_nil_r].
Qed.

Lemma install_package_turn {E : Type} key entry st w r w' :
  install_package (E := E) pid project_dir scripts_ran_dir trust key entry st w = (r, w') →
  ∃ st', r = Ok st' ∧ turn key entry st st' w w'.
Proof.
  unfold install_package. destruct (resolved entry) as [url|] eqn:Hurl.
  2: { intros [= <- <-]. exists st. split; [done|]. split_and!; [|done|by left].
       exists [], 0, []. rewrite !app_nil_r, Nat.add_0_r. split_and!; [|done..].
       intros. by apply not_fetched. }
  cbv zeta. intros Hi. erewrite io_bind_Ok in Hi by done. cbn beta in Hi.
  destruct (is_file (vfs (os w)) (package_json _)) eqn:Epj.
  - do 2 erewrite io_bind_Ok in Hi by done. cbn beta in Hi. injection Hi as <- <-.
    eexists. split; [done|]. apply (landed_turn _ _ url _ []); [done|by eauto using there_already| | |];
      try by rewrite app_nil_r.
    all: destruct (is_file (vfs (os w)) (script_marker_path _ _)) eqn:Est; [by try constructor|].
    all: destruct (check_lifecycle_scripts _ _ _ _ _) as [q errs] eqn:Ec.
    all: by apply (check_scripts_found w) in Ec as [? ?].
  - apply io_bind in Hi as [(e & Hf & _)|(fetched & w1 & Hf & Hi)]; [by apply attempt_Ok in Hf|].
    apply attempt_eq in Hf as (r1 & [= <-] & Hf).
    destruct (fetch_and_extract_log _ _ _ _ _ _ _ Hf) as (k & Hk & Hlog).
    destruct fetched as [[]|e].
    + erewrite io_bind_Ok in Hi by done. cbn beta in Hi. injection Hi as <- <-.
      eexists. split; [done|].
      destruct (check_lifecycle_scripts _ _ _ _ _) as [q errs] eqn:Ec.
      apply (check_scripts_found w) in Ec as [? ?]; [|congruence].
      apply (landed_turn _ _ url _ (replicate k (Sent url))); [done| |done..].
      intros. by eapply fetched_in.
    + injection Hi as <- <-. eexists. split; [done|]. split_and!; [| |by left].
      * exists (replicate k (Sent url)), 0, [could_not_install key e].
        split_and!; [|done|cbn; lia|cbn; by rewrite failures_of_app].
        intros. by eapply not_installed.
      * cbn. intros Hst. apply codes_in_app; [done|]. constructor; [|constructor].
        exists "OAM-PKG0004"%string. split; [set_solver|done].
Qed.

(** The packages with something to fetch. *)

Definition fetched_keys (todo : list (Text * LockfileEntry)) : list (Text * LockfileEntry) :=
  filter (λ p, is_Some (resolved p.2)) todo.

Lemma fetched_keys_cons key entry todo :
  fetched_keys ((key, entry) :: todo)
    = (if resolved entry is Some _ then [(key, entry)] else []) ++ fetched_keys todo.
Proof.
  unfold fetched_keys. destruct (resolved entry) as [url|] eqn:E.
  - rewrite filter_cons_True; [done|]. cbn. rewrite E. by eexists.
  - rewrite filter_cons_False; [done|]. cbn. rewrite E. by intros [].
Qed.

(** Everything is accounted for, and what was sent was for URLs of the lockfile. *)

Lemma tally_total todo w sent n failures w' :
  tally todo w sent n failures w' → n + length failures = length (fetched_keys todo).
Proof.
  induction 1; [done|rewrite fetched_keys_cons..];
    match goal with Hu : resolved _ = _ |- _ => rewrite Hu end; cbn; lia.
Qed.

Definition sent_for (todo : list (Text * LockfileEntry)) (ev : Event) : Prop :=
  ∃ key entry url, (key, entry) ∈ todo ∧ resolved entry = Some url ∧ ev = Sent url.

Lemma sent_for_cons p todo sent : Forall (sent_for todo) sent → Forall (sent_for (p :: todo)) sent.
Proof.
  intros Hl. eapply Forall_impl; [exact Hl|]. intros ev (key & entry & url & Hin & ? & ?).
  exists key, entry, url. split; [by right|done].
Qed.

Lemma tally_sent todo w sent n failures w' :
  tally todo w sent n failures w' → Forall (sent_for todo) sent.
Proof.
  induction 1; [constructor|by apply sent_for_cons..| |];
    (apply Forall_app; split; [|by apply sent_for_cons]; apply Forall_replicate;
     do 3 eexists; split; [by left|done]).
Qed.

(** The turn a package's scripts were found in. *)

Definition script_turn (todo : list (Text * LockfileEntry)) (st : Progress) (w : World)
    (key : Text) (q : PendingScripts) : Prop :=
  ∃ todo1 entry todo2 st1 st2 w1 w2,
    todo = todo1 ++ (key, entry) :: todo2 ∧
    install_packages (E := Report) pid project_dir scripts_ran_dir trust todo1 st w = (Ok st1, w1) ∧
    install_package (E := Report) pid project_dir scripts_ran_dir trust key entry st1 w1 = (Ok st2, w2) ∧
    found_at key q w1 w2.

Lemma script_turn_next todo key entry st st1 w w1 key' q :
  install_package (E := Report) pid project_dir scripts_ran_dir trust key entry st w = (Ok st1, w1) →
  script_turn todo st1 w1 key' q → script_turn ((key, entry) :: todo) st w key' q.
Proof.
  intros Hp (todo1 & entry' & todo2 & st2 & st3 & w2 & w3 & -> & Hps & Hrest).
  exists ((key, entry) :: todo1), entry', todo2, st2, st3, w2, w3. split; [done|]. split; [|exact Hrest].
  cbn [install_packages]. by erewrite io_bind_Ok.
Qed.

Lemma install_packages_turns todo st w r w' :
  install_packages (E := Report) pid project_dir scripts_ran_dir trust todo st w = (r, w') →
  ∃ st', r = Ok st' ∧
    (∃ sent n failures,
       tally todo w sent n failures w' ∧ log w' = log w ++ sent ∧
       installed st' = installed st + n ∧
       failures_of (errors st') = failures_of (errors st) ++ failures) ∧
    (codes_in LOOP_CODES (errors st) →
     codes_in LOOP_CODES (errors st')) ∧
    ∃ runs : list (Text * PendingScripts),
      pending_scripts st' = pending_scripts st ++ runs.*2 ∧ runs.*1 `sublist_of` (fetched_keys todo).*1 ∧
      Forall (λ p, script_turn todo st w p.1 p.2) runs.
Proof.
  revert st w. induction todo as [|[key entry] todo IH]; intros st w Hi.
  { injection Hi as <- <-. exists st. split_and!; [done| |done|].
    - exists [], 0, []. rewrite !app_nil_r, Nat.add_0_r. split_and!; [constructor|done..].
    - exists []. cbn. rewrite app_nil_r. split_and!; [done..|constructor]. }
  cbn [install_packages] in Hi.
  apply io_bind in Hi as [(e & Hp & _)|(st1 & w1 & Hp & Hi)];
    apply install_package_turn in Hp as Ht; destruct Ht as (st2 & [= <-] & Ht).
  apply IH in Hi as (st' & -> & (sent & n & fs & Hta & Hl & Hn & Hf) & Hc & runs & Hr & Hsub & Hrun).
  destruct Ht as ((sent1 & n1 & fs1 & Hta1 & Hl1 & Hn1 & Hf1) & Hc1 & Hpend).
  exists st'. split; [done|]. split_and!; [|by auto|].
  - exists (sent1 ++ sent), (n1 + n), (fs1 ++ fs).
    split_and!; [by apply Hta1|by rewrite Hl, Hl1, app_assoc|lia|by rewrite Hf, Hf1, app_assoc].
  - assert (Forall (λ p, script_turn ((key, entry) :: todo) st w p.1 p.2) runs) as Hrun'.
    { eapply Forall_impl; [exact Hrun|]. intros p. by apply script_turn_next. }
    rewrite fetched_keys_cons. destruct Hpend as [Hpe|([url Hu] & q & Hpe & Hq)]; rewrite Hpe in Hr.
    + exists runs. split_and!; [done| |done]. rewrite fmap_app. by apply sublist_inserts_l.
    + exists ((key, q) :: runs). rewrite Hu. split_and!; [by rewrite Hr, <-app_assoc|cbn; by apply sublist_skip|].
      constructor; [|done]. by exists [], entry, todo, st, st1, w, w1.
Qed.

End Packages.

(** ** Bins and scripts *)

Lemma link_bins_codes {E : Type} `{Serde} node_modules todo o r o' :
  link_bins (E := E) node_modules todo o = (r, o') →
  ∃ errs, r = Ok errs ∧ codes_in ["OAM-PKG0005"]%string errs.
Proof.
  assert (∀ e : Report, coded "OAM-PKG0005" e → codes_in ["OAM-PKG0005"]%string [e]) as Hone.
  { intros e He. constructor; [|constructor]. exists "OAM-PKG0005"%string. split; [left|done]. }
  assert (∀ bin_dir c bins o1 r1 o2, shim_all (E := E) bin_dir c bins o1 = (r1, o2) → r1 = Ok ()) as Hshim.
  { intros bin_dir c bins. induction bins as [|[name target] bins IH]; intros o1 r1 o2 Hs.
    - by injection Hs as <- <-.
    - apply io_bind in Hs as [(e & Ha & _)|(x & o3 & _ & Hs)]; [by apply attempt_Ok in Ha|by eapply IH]. }
  unfold link_bins. cbv zeta. intros Hl. erewrite io_bind_Ok in Hl by done. cbn beta in Hl.
  case_decide; [injection Hl as <- <-; eexists; split; [done|constructor]|].
  apply io_bind in Hl as [(e & Ha & _)|(made & o1 & Ha & Hl)]; [by apply attempt_Ok in Ha|].
  destruct made as [[]|e]; [|injection Hl as <- <-; eexists; split; [done|by apply Hone]].
  erewrite io_bind_Ok in Hl by done. cbn beta in Hl.
  destruct (canonicalize _ _); [|injection Hl as <- <-; eexists; split; [done|by apply Hone]].
  apply io_bind in Hl as [(e & Hs & _)|([] & o2 & _ & Hl)]; [by apply Hshim in Hs|].
  injection Hl as <- <-. eexists; split; [done|constructor].
Qed.

Section Running.
Context `{Outside}.

Definition ran_events (bin_dir : path) (pkg : PendingScripts) : list Event :=
  if contains bin_dir ":"%byte then []
  else (λ '(phase, cmd), Ran (script_dir pkg) phase cmd bin_dir) <$> scripts pkg.

Lemma run_one_script_log cmd phase pkg_dir bin_dir w r w' :
  run_one_script cmd phase pkg_dir bin_dir w = (r, w') →
  log w' = log w ++ (if contains bin_dir ":"%byte then [] else [Ran pkg_dir phase cmd bin_dir]).
Proof.
  unfold run_one_script. destruct (contains _ _).
  - intros [= _ <-]. by rewrite app_nil_r.
  - destruct (run_sh _ _ _) as [ended t]. by intros [= _ <-].
Qed.

Lemma run_phases_log {E : Type} pkg bin_dir phases w r w' :
  run_phases (E := E) pkg bin_dir phases w = (r, w') →
  ∃ all_ok errs, r = Ok (all_ok, errs) ∧ codes_in ["OAM-PKG0009"]%string errs ∧
    (all_ok = true ↔ errs = []) ∧
    log w' = log w ++ (if contains bin_dir ":"%byte then []
                       else (λ '(phase, cmd), Ran (script_dir pkg) phase cmd bin_dir) <$> phases).
Proof.
  revert w r w'. induction phases as [|[phase cmd] phases IH]; intros w r w' Hr.
  { injection Hr as <- <-. exists true, []. split_and!; [done|constructor|done|].
    destruct (contains _ _); by rewrite app_nil_r. }
  cbn [run_phases] in Hr.
  apply io_bind in Hr as [(e & Ha & _)|(ran & w1 & Ha & Hr)]; [by apply attempt_Ok in Ha|].
  apply attempt_eq in Ha as (r1 & [= <-] & Ha). apply run_one_script_log in Ha.
  apply io_bind in Hr as [(e & Hp & _)|([all_ok errs] & w2 & Hp & Hr)];
    apply IH in Hp as (ok2 & errs2 & [= <- <-] & Hc & Hiff & Hl).
  injection Hr as <- <-.
  assert (log w2 = log w ++ (if contains bin_dir ":"%byte then []
            else (λ '(phase, cmd), Ran (script_dir pkg) phase cmd bin_dir) <$> ((phase, cmd) :: phases)))
    as Hl2.
  { rewrite Hl, Ha. destruct (contains _ _); cbn; [by rewrite !app_nil_r|by rewrite <-app_assoc]. }
  destruct ran as [[]|e]; do 2 eexists; (split_and!; [done| | |done]); [done|done| |done].
  constructor; [|done]. exists "OAM-PKG0009"%string. split; [left|done].
Qed.

Lemma run_packages_log {E : Type} bin_dir pending w r w' :
  run_packages (E := E) bin_dir pending w = (r, w') →
  ∃ errs, r = Ok errs ∧ codes_in ["OAM-PKG0009"]%string errs ∧
    log w' = log w ++ concat (ran_events bin_dir <$> pending).
Proof.
  revert w r w'. induction pending as [|pkg pending IH]; intros w r w' Hr.
  { injection Hr as <- <-. exists []. rewrite app_nil_r. split_and!; [done|constructor|done]. }
  cbn [run_packages] in Hr.
  apply io_bind in Hr as [(e & Hp & _)|([all_ok errs] & w1 & Hp & Hr)];
    apply run_phases_log in Hp as (ok1 & errs1 & [= <- <-] & Hc & _ & Hl).
  apply io_bind in Hr as [(e & Hs & _)|([] & w2 & Hs & Hr)].
  { destruct all_ok; [|done]. apply on_disk_eq in Hs as [Hs _].
    apply io_bind in Hs as [(e' & Hs & _)|([] & o1 & _ & Hs)].
    - destruct (parent _); [|done]. apply io_bind in Hs as [(e2 & Hs & _)|(x & o2 & _ & Hs)]; [|done].
      by apply attempt_Ok in Hs.
    - apply io_bind in Hs as [(e2 & Hs & _)|(x & o2 & _ & Hs)]; [|done]. by apply attempt_Ok in Hs. }
  assert (log w2 = log w1) as Hl2.
  { destruct all_ok; [by apply on_disk_eq in Hs as [_ ?]|by injection Hs as <-]. }
  apply io_bind in Hr as [(e & Hp & _)|(errs' & w3 & Hp & Hr)];
    apply IH in Hp as (errs2 & [= <-] & Hc2 & Hl3).
  injection Hr as <- <-. eexists. split_and!; [done|by apply codes_in_app|].
  rewrite Hl3, Hl2, Hl. cbn. by rewrite <-app_assoc.
Qed.

Lemma run_lifecycle_log {E : Type} env pending node_modules w r w' :
  run_lifecycle_scripts (E := E) env pending node_modules w = (r, w') →
  ∃ errs, r = Ok errs ∧ codes_in ["OAM-PKG0007"; "OAM-PKG0009"]%string errs ∧
    log w' = log w ++ (if scripts_globally_ignored env then []
                       else concat (ran_events (path_join node_modules (bs ".bin")) <$> pending)).
Proof.
  unfold run_lifecycle_scripts. destruct (scripts_globally_ignored env).
  - intros [= <- <-]. eexists. rewrite app_nil_r. split_and!; [done| |done].
    apply Forall_fmap, Forall_true. intros pkg. exists "OAM-PKG0007"%string. split; [left|done].
  - intros (errs & -> & Hc & Hl)%run_packages_log. exists errs. split_and!; [done| |done].
    eapply codes_in_weaken; [|done]. set_solver.
Qed.

End Running.

(** ** [install] *)

Lemma elem_of_to_install lockfile key entry :
  (key, entry) ∈ to_install lockfile → packages lockfile !! key = Some entry ∧ key ≠ [].
Proof.
  unfold to_install. rewrite (merge_sort_Permutation entry_le _). intros [Hk Hin]%list_elem_of_filter.
  by apply elem_of_map_to_list in Hin.
Qed.

Section Installing.
Context `{Outside} `{Tarballs} `{Digests} {JS : Serde} {TS : TrustSerde} {LS : LockSerde}.
Context (pid : Z) (env : Env).

Definition bin_dir_of (project_dir : path) : path :=
  path_join (path_join project_dir (bs "node_modules")) (bs ".bin").

Definition stamps_of (project_dir : path) : path :=
  path_join (path_join (path_join project_dir (bs "node_modules")) (bs ".oam")) (bs "scripts-ran").

(** What [install_all] sends, runs and answers. *)

Lemma install_all_outcome project_dir lockfile w r w' :
  install_all (E := Report) pid env project_dir lockfile w = (r, w') →
  let trust := trust_load env (vfs (os w)) project_dir in
  let todo := to_install lockfile in
  ∃ outcome sent n failures w1 (runs : list (Text * PendingScripts)),
    r = Ok outcome ∧
    tally pid project_dir todo w sent n failures w1 ∧
    log w' = log w ++ sent ++
             (if scripts_globally_ignored env then []
              else concat (ran_events (bin_dir_of project_dir) <$> runs.*2)) ∧
    runs.*1 `sublist_of` (fetched_keys todo).*1 ∧
    Forall (λ p, script_turn pid project_dir (stamps_of project_dir) trust todo
                   no_progress w p.1 p.2) runs ∧
    match outcome with
    | Complete m => m = n ∧ failures = []
    | Partial m errors =>
        m = n ∧ errors ≠ [] ∧ failures_of errors = failures ∧
        codes_in ["OAM-PKG0004"; "OAM-PKG0005"; "OAM-PKG0007"; "OAM-PKG0009"]%string errors
    end.
Proof.
  intros Hi trust todo. unfold install_all in Hi. cbv zeta in Hi.
  erewrite io_bind_Ok in Hi by done. cbn beta in Hi.
  apply io_bind in Hi as [(e & Hp & _)|(st & w1 & Hp & Hi)];
    apply install_packages_turns in Hp as (st1 & [= <-] & (sent & n & fs & Hta & Hl & Hn & Hf) & Hc & runs & Hr & Hsub & Hrun).
  apply io_bind in Hi as [(e & Hb & _)|(bin_errs & w2 & Hb & Hi)]; apply on_disk_eq in Hb as [Hb Hl2];
    apply link_bins_codes in Hb as (errs1 & [= <-] & Hc1).
  apply io_bind in Hi as [(e & Hs & _)|(script_errs & w3 & Hs & Hi)];
    apply run_lifecycle_log in Hs as (errs2 & [= <-] & Hc2 & Hl3).
  injection Hi as <- <-. rewrite Hr in Hl3. cbn [pending_scripts no_progress app] in Hl3.
  eexists _, sent, n, fs, w1, runs. split_and!; [done|done| |done|done|].
  - rewrite Hl3, Hl2, Hl. by rewrite <-app_assoc.
  - cbn [installed errors no_progress] in Hn, Hf. change (failures_of []) with (@nil Report) in Hf.
    cbn [app] in Hf. rewrite Nat.add_0_l in Hn.
    assert (codes_in LOOP_CODES (errors st)) as Hcst by (apply Hc; constructor).
    case_decide as Hnil.
    + apply app_nil in Hnil as [Hnil _]. rewrite Hnil in Hf. split; [done|]. by rewrite <-Hf.
    + split_and!; [done|done| |].
      * rewrite !failures_of_app, (no_failures _ _ Hc1), (no_failures _ _ Hc2), !app_nil_r
          by (by repeat constructor). done.
      * repeat apply codes_in_app; (eapply codes_in_weaken; [|done]; set_solver).
Qed.

Lemma ran_events_run bin_dir pending :
  Forall (λ ev, ∃ dir phase cmd, ev = Ran dir phase cmd bin_dir) (concat (ran_events bin_dir <$> pending)).
Proof.
  induction pending as [|pkg pending IH]; [constructor|]. cbn. apply Forall_app. split; [|exact IH].
  unfold ran_events. destruct (contains _ _); [constructor|]. apply Forall_fmap, Forall_true.
  intros [phase cmd]. by do 3 eexists.
Qed.

End Installing.

(** The lock is best effort. *)

Lemma acquire_install_lock_Ok {E : Type} `{Outside} node_modules o r o' :
  acquire_install_lock (E := E) node_modules o = (r, o') → ∃ held, r = Ok held.
Proof.
  intros Hl. apply io_bind in Hl as [(e & Ha & _)|(made & o1 & _ & Hl)]; [by apply attempt_Ok in Ha|].
  destruct made; [|injection Hl as <- <-; eauto].
  apply io_bind in Hl as [(e & Ha & _)|(x & o2 & _ & Hl)]; [by apply attempt_Ok in Ha|].
  injection Hl as <- <-. eauto.
Qed.
