(* ===== verification/InstallSpec.v ===== *)
(** * InstallSpec: what [oam install] promises

    Of a package's files, of the scripts it runs and of what it reports. *)

From S2P Require Import Prelude RustStd StdPath Tsconfig Loader UnixFs UnixFsSpec UnixFsMove.
From S2P Require Import UnixFsPlain Install InstallTree InstallUnpack InstallSettle InstallExtract.
From S2P Require Import InstallScripts.

Section Extraction.
Context {TB : Tarballs} (pid : Z).

(** C36. Where an extraction may write.  Take a directory [D ++ [B]] for the
    package, its names plain and [B] a UTF-8 one, in a well-formed tree where
    what there is of the way to it is directories, where neither it nor the
    [package.json] in it is a link, and where the name of the temporary
    directory, beside it in [D], is free; and a tarball whose entries never
    step above the package and never go by way of a link that an earlier entry
    made.  Extracting it, whatever calls fail and wherever the process dies,
    changes nothing outside the package's directory and the temporary one,
    except that directories of the way [D] that were missing may be made.  The
    file system stays a tree; and when no call fails the temporary directory is
    gone -- when one does, or the process dies, it may stay. *)

Theorem extraction_confined D B w data r w' :
  site pid D B w → tame_data data →
  extract_tarball pid data (below_root (D ++ [B])) w = (r, w') →
  tree_ok (treeof (os w')) ∧
  (∀ k, ¬ (D ++ [B]) `prefix_of` k → ¬ tmp_place pid D B w `prefix_of` k →
     treeof (os w') !! k = treeof (os w) !! k ∨
     (k `prefix_of` D ∧ treeof (os w) !! k = None ∧ treeof (os w') !! k = Some NDir)) ∧
  (faults (os w) = [] → treeof (os w') !! tmp_place pid D B w = None).
Proof.
  intros Hs Ht H. destruct (extract_tarball_via pid D B w data r w' Hs H) as (H' & Hm & Hne).
  destruct Hs. eapply extract_via_outcome in H' as (_ & Hok & Har & _ & Hgone & _); [|done..].
  split_and!; [done| |done]. intros k Hk1 Hk2. by apply Har.
Qed.

(** C37. A package's directory is replaced whole.  Take a place for the package as
    in C36 -- nothing on the way to it but directories, no link there, the
    temporary name free -- and a tarball that is tame as there, and whose
    entries' paths in the package are made of plain names only, without [.], [..], an empty
    name (as a trailing [/] gives) or a NUL.  Then whatever calls fail and
    wherever the process dies, the directory is as it was; or it had no
    [package.json], and has at most lost some of what it held; or it had none,
    and is exactly what the archive unpacks to, up to the bits of files' modes.
    Success means the last, or that a [package.json] was there already; and
    when no call fails and no file is in the directory's place, an archive that
    unpacks is installed. *)

Theorem extract_atomic D B w data r w' :
  site pid D B w → tame_data data → plain_data data →
  extract_tarball pid data (below_root (D ++ [B])) w = (r, w') →
  let dest := D ++ [B] in
  let t := treeof (os w) in
  let t' := treeof (os w') in
  let files := unpacked D (tmp_name B pid (tmp_counter w)) data in
  ((∀ j, t' !! (dest ++ j) = t !! (dest ++ j)) ∧ (r = Ok () → has_manifest dest t) ∨
   ¬ has_manifest dest t ∧ r ≠ Ok () ∧
     (∀ j, t' !! (dest ++ j) = t !! (dest ++ j) ∨ t' !! (dest ++ j) = None) ∨
   ¬ has_manifest dest t ∧ r = Ok () ∧
     ∃ m, files = Some m ∧ ∀ j, bare <$> t' !! (dest ++ j) = m !! j) ∧
  (faults (os w) = [] → is_Some files → (∀ d md, t !! dest ≠ Some (NFile d md)) → r = Ok ()).
Proof.
  intros Hs Ht Hp H dest t t' files.
  destruct (extract_tarball_via pid D B w data r w' Hs H) as (H' & Hm & Hne).
  destruct Hs. eapply extract_via_outcome in H' as (_ & _ & _ & Hd & _ & Hgood); [|done..].
  split; [|intros; by apply Hgood]. destruct Hd as [?|[?|(? & ? & Hd)]]; [by left|by right; left|].
  right; right. split_and!; [done..|]. by apply Hd.
Qed.

End Extraction.

(** An early return, with the code [c]. *)

Ltac refused c :=
  injection 1 as <- <-; split; [done|]; constructor; [|constructor]; exists c; split; [set_solver|done].

Section Installation.
Context `{Outside} `{Tarballs} `{Digests} {JS : Serde} {TS : TrustSerde} {LS : LockSerde}.
Context (pid : Z) (env : Env).

(** C39. Scripts run only for trusted packages, and once.  What an install does
    beside its disk is to send requests for its lockfile's URLs, and then,
    unless scripts are switched off, to run the scripts of packages of the
    lockfile, in its order and each in its package's directory.  They were
    found in the package's turn, in its manifest, in the order preinstall,
    install, postinstall; the trust files as they stood at the start name the
    package; and it was not there already with its stamp. *)

Theorem scripts_trusted project_dir lockfile w r w' :
  install_all (E := Report) pid env project_dir lockfile w = (r, w') →
  let trust := trust_load env (vfs (os w)) project_dir in
  ∃ sent (runs : list (Text * PendingScripts)),
    log w' = log w ++ sent ++
             (if scripts_globally_ignored env then []
              else concat (ran_events (bin_dir_of project_dir) <$> runs.*2)) ∧
    Forall (λ ev, ∃ key entry url, packages lockfile !! key = Some entry ∧
                    resolved entry = Some url ∧ ev = Sent url) sent ∧
    runs.*1 `sublist_of` (fetched_keys (to_install lockfile)).*1 ∧
    Forall (λ '(key, q), ∃ todo1 entry todo2 st1 st2 w1 w2,
      to_install lockfile = todo1 ++ (key, entry) :: todo2 ∧
      install_packages (E := Report) pid project_dir (stamps_of project_dir) trust todo1 no_progress w
        = (Ok st1, w1) ∧
      install_package (E := Report) pid project_dir (stamps_of project_dir) trust key entry st1 w1
        = (Ok st2, w2) ∧
      script_dir q = path_join project_dir key ∧ package_name key ∈ trusted trust ∧
      (scripts q).*1 `sublist_of` PHASES ∧
      (∃ json, read_json (vfs (os w2)) (package_json (script_dir q)) = Some json ∧
               scripts q = lifecycle_scripts json) ∧
      (is_file (vfs (os w1)) (package_json (script_dir q)) = true →
       is_file (vfs (os w1)) (script_marker_path (stamps_of project_dir) (package_name key)) = false)) runs.
Proof.
  intros Hi trust.
  apply install_all_outcome in Hi as (outcome & sent & n & fs & wl & runs & _ & Ht & Hl & Hsub & Hrun & _).
  apply tally_sent in Ht as Hs. exists sent, runs. split_and!; [done| |done|].
  { eapply Forall_impl; [exact Hs|]. intros ev (key & entry & url & Hin & ? & ?).
    apply elem_of_to_install in Hin as [? _]. by exists key, entry, url. }
  eapply Forall_impl; [exact Hrun|].
  intros [key q] (todo1 & entry & todo2 & st1 & st2 & w1 & w2 & ? & ? & ? & Hdir & ? & ? & ? & Hm & Hst).
  cbn in *. rewrite <-Hdir, Hm in Hst. by exists todo1, entry, todo2, st1, st2, w1, w2.
Qed.

(** C40. An install accounts for every package.  A failure means that nothing
    was fetched or run, and has one of the four codes of its documentation.
    Otherwise the lockfile was read and is of version 3, and its packages with a
    URL are gone through one by one: a package that has its [package.json] is
    counted and not fetched; any other is sent for by one to four requests, all
    for its own URL and none of another package between them, and is then
    counted when it was put in its place, and otherwise reported, under its own
    key and with the error of its own fetch, as OAM-PKG0004.  The answer gives
    that count, and these reports, in that order, are its OAM-PKG0004 ones;
    [Complete] has none, and what [Partial] reports is of one of four codes.
    Nothing is sent besides, and scripts run only afterwards. *)

Theorem install_accounts project_dir frozen w r w' :
  install pid env project_dir frozen w = (r, w') →
  match r with
  | Err e =>
      log w' = log w ∧
      codes_in ["OAM-PKG0001"; "OAM-PKG0002"; "OAM-PKG0003"; "OAM-PKG0006"]%string [e]
  | Ok outcome =>
      ∃ raw lockfile w0 w1 sent ran n failures,
        frozen = true ∧
        read_to_string (vfs (os w)) (path_join project_dir (bs "package-lock.json")) = Ok raw ∧
        lockfile_from_str raw = Ok lockfile ∧ lockfile_version lockfile = 3%Z ∧
        log w0 = log w ∧
        tally pid project_dir (to_install lockfile) w0 sent n failures w1 ∧
        n + length failures = length (fetched_keys (to_install lockfile)) ∧
        log w' = log w ++ sent ++ ran ∧
        Forall (λ ev, ∃ dir phase cmd, ev = Ran dir phase cmd (bin_dir_of project_dir)) ran ∧
        match outcome with
        | Complete m => m = n ∧ failures = []
        | Partial m errors =>
            m = n ∧ errors ≠ [] ∧ failures_of errors = failures ∧
            codes_in ["OAM-PKG0004"; "OAM-PKG0005"; "OAM-PKG0007"; "OAM-PKG0009"]%string errors
        end
  end.
Proof.
  unfold install. destruct frozen; cbn [negb]; [|refused "OAM-PKG0006"%string].
  erewrite io_bind_Ok by done. cbn beta. unfold read_lockfile.
  destruct (read_to_string _ _) as [raw|e] eqn:Eraw; cbn [res_err mbind result_bind];
    [|refused "OAM-PKG0001"%string].
  destruct (lockfile_from_str raw) as [lockfile|e] eqn:Elock; cbn [res_err];
    [|refused "OAM-PKG0001"%string].
  erewrite io_bind_Ok by done. cbn beta.
  destruct (lockfile_version lockfile =? 3)%Z eqn:Ev; cbn [negb]; [|refused "OAM-PKG0002"%string].
  apply Z.eqb_eq in Ev. destruct (on_disk (E := Report)
    (acquire_install_lock (path_join project_dir (bs "node_modules"))) w) as [r1 w1] eqn:Hlock.
  apply on_disk_eq in Hlock as Hl. destruct Hl as [[held ->]%acquire_install_lock_Ok Hl].
  erewrite io_bind_Ok by done.
  destruct runtime_ready as [[]|e]; cbn [res_err]; [|refused "OAM-PKG0003"%string].
  erewrite io_bind_Ok by done.
  destruct client_ready as [[]|e]; cbn [res_err]; [|refused "OAM-PKG0003"%string].
  erewrite io_bind_Ok by done. intros Hi.
  apply install_all_outcome in Hi as (outcome & sent & n & fs & w2 & runs & -> & Ht & Hlog & _ & _ & Hout).
  rewrite Hl in Hlog. apply tally_total in Ht as Htot.
  eexists raw, lockfile, w1, w2, sent, _, n, fs. split_and!; [done..| |exact Hout].
  destruct (scripts_globally_ignored env); [constructor|apply ran_events_run].
Qed.

End Installation.
