(* ===== verification/InstallRun.v ===== *)
(** * InstallRun: runs of an install *)

From S2P Require Import Prelude RustStd StdPath Tsconfig Loader UnixFs UnixFsSpec UnixFsMove.
From S2P Require Import UnixFsPlain Install InstallTree InstallUnpack InstallSettle InstallExtract.
From S2P Require Import InstallReach InstallScripts InstallSpec.

(** ** A package *)

Definition modules : Place := project ++ [bs "node_modules"].

Definition good_archive : list (result Text TarEntry) :=
  [item_at "package/package.json" KFile (bs "{}") None;
   item_at "package/lib/index.js" KFile (bs "1") None;
   item_at "package/lib/main.js" KSymlink [] (Some "index.js");
   item_at "package/lib/out.js" KSymlink [] (Some "../../out.js")].

#[local] Instance good_tarballs : Tarballs := {| tar_entries := λ _, Ok good_archive |}.

Definition start_world : World := world_of (bare_project (bs "mine")).

Lemma names_ok_check (k : Place) : bool_decide (Forall ok_name k) = true → Forall ok_name k.
Proof. by intros H%bool_decide_eq_true. Qed.

Lemma clear_way_check t k : forallb (λ j, passable (t !! j)) (inits k) = true → clear_way t k.
Proof.
  rewrite forallb_forall. intros H j Hj%elem_of_inits%list_elem_of_In%H.
  destruct (t !! j) as [[| |]|]; [by right|done..|by left].
Qed.

Lemma start_site : site 1 modules (bs "foo") start_world.
Proof.
  split; try done.
  - apply names_ok_check. by vm_compute.
  - apply tree_okb_ok. by vm_compute.
  - apply clear_way_check. by vm_compute.
Qed.

Lemma good_tame : tame_data [].
Proof. intros items [= <-]. by vm_compute. Qed.

Lemma good_plain : plain_data [].
Proof. intros items [= <-]. by vm_compute. Qed.

(** A run: the package is there, the link that would lead out is not, and the
    project's own file is as it was. *)

Definition extracted : result Text unit * World :=
  extract_tarball 1 [] (below_root (modules ++ [bs "foo"])) start_world.

Definition at_ (names : list string) : option Node :=
  treeof (os extracted.2) !! (modules ++ (bs <$> names)).

Example extracted_files :
  extracted.1 = Ok () ∧
  at_ ["foo"; "lib"; "main.js"] = Some (NLink (bs "index.js")) ∧
  at_ ["foo"; "lib"; "out.js"] = None ∧ at_ ["foo"; "lib"; "index.js"] = Some (NFile (bs "1") None).
Proof. by vm_compute. Qed.

Lemma extraction_confined_witness :
  site 1 modules (bs "foo") start_world ∧ tame_data [] ∧ extracted.1 = Ok () ∧
  tree_ok (treeof (os extracted.2)) ∧
  (∀ k, ¬ (modules ++ [bs "foo"]) `prefix_of` k → ¬ tmp_place 1 modules (bs "foo") start_world `prefix_of` k →
     treeof (os extracted.2) !! k = treeof (os start_world) !! k ∨
     (k `prefix_of` modules ∧ treeof (os start_world) !! k = None ∧
      treeof (os extracted.2) !! k = Some NDir)).
Proof.
  assert (extract_tarball 1 [] (below_root (modules ++ [bs "foo"])) start_world = (extracted.1, extracted.2)) as H
    by apply surjective_pairing.
  destruct (extraction_confined 1 modules (bs "foo") start_world [] _ _ start_site good_tame H) as (? & ? & _).
  split; [exact start_site|]. split; [exact good_tame|]. split; [by vm_compute|]. split; assumption.
Defined.

Lemma extract_atomic_witness :
  site 1 modules (bs "foo") start_world ∧ plain_data [] ∧
  is_Some (unpacked modules (tmp_name (bs "foo") 1 0) []) ∧
  ((∀ j, treeof (os extracted.2) !! ((modules ++ [bs "foo"]) ++ j)
         = treeof (os start_world) !! ((modules ++ [bs "foo"]) ++ j)) ∧
     (extracted.1 = Ok () → has_manifest (modules ++ [bs "foo"]) (treeof (os start_world))) ∨
   ¬ has_manifest (modules ++ [bs "foo"]) (treeof (os start_world)) ∧ extracted.1 ≠ Ok () ∧
     (∀ j, treeof (os extracted.2) !! ((modules ++ [bs "foo"]) ++ j)
           = treeof (os start_world) !! ((modules ++ [bs "foo"]) ++ j) ∨
           treeof (os extracted.2) !! ((modules ++ [bs "foo"]) ++ j) = None) ∨
   ¬ has_manifest (modules ++ [bs "foo"]) (treeof (os start_world)) ∧ extracted.1 = Ok () ∧
     ∃ m, unpacked modules (tmp_name (bs "foo") 1 0) [] = Some m ∧
          ∀ j, bare <$> treeof (os extracted.2) !! ((modules ++ [bs "foo"]) ++ j) = m !! j).
Proof.
  assert (extract_tarball 1 [] (below_root (modules ++ [bs "foo"])) start_world = (extracted.1, extracted.2)) as H
    by apply surjective_pairing.
  destruct (extract_atomic 1 modules (bs "foo") start_world [] _ _ start_site good_tame good_plain H) as [Hc _].
  split; [exact start_site|]. split; [exact good_plain|].
  split; [|exact Hc]. apply (bool_decide_eq_true_1 _). vm_compute. reflexivity.
Defined.

(** ** A command *)

Definition commanding_manifest : Value :=
  VObject [(bs "bin", VObject [(bs "tool", VString (bs "cli.js"))])].

Definition command_serde : Serde :=
  {| json_from_str := λ _, Some commanding_manifest; tsconfig_from_str := λ _, None |}.

Definition command_os : Os := os_of (installed_project (bs "mine")).

Definition linked : result Text (list Report) * Os :=
  link_bins (JS := command_serde) (below_root modules) [(bs "node_modules/foo", unlisted)] command_os.

Lemma no_link_check t k : match t !! k with Some (NLink _) => false | _ => true end = true → no_link t k.
Proof. intros H l E. by rewrite E in H. Qed.

Lemma ok_name_check x : bool_decide (ok_name x) = true → ok_name x.
Proof. by intros H%bool_decide_eq_true. Qed.

Lemma only_tool name target :
  (name, target) ∈ all_bins (JS := command_serde) (vfs command_os) (below_root modules)
                     [(bs "node_modules/foo", unlisted)] → name = bs "tool".
Proof.
  replace (all_bins _ _ _) with [(bs "tool", bs "/p/node_modules/foo/cli.js")] by (vm_compute; reflexivity).
  by intros [= -> _]%list_elem_of_singleton.
Qed.

Lemma linked_eq :
  link_bins (JS := command_serde) (E := Text) (below_root modules) [(bs "node_modules/foo", unlisted)] command_os
  = (linked.1, linked.2).
Proof. unfold linked. by destruct (link_bins _ _ _). Qed.

Lemma names_reach_witness :
  treeof linked.2 !! (modules ++ [bs ".bin"; bs "tool"]) = Some (NLink (bs "../foo/cli.js")) ∧
  same_but (λ k, k = modules ++ [bs ".bin"] ∨ in_bin_dir modules k) (treeof command_os) (treeof linked.2).
Proof.
  split; [vm_compute; reflexivity|].
  refine (proj1 names_reach command_serde modules [(bs "node_modules/foo", unlisted)] command_os linked.1 linked.2
            _ _ _ _ _ linked_eq).
  - apply names_ok_check. vm_compute. reflexivity.
  - apply tree_okb_ok. vm_compute. reflexivity.
  - vm_compute. reflexivity.
  - apply no_link_check. vm_compute. reflexivity.
  - intros name target Hin. apply only_tool in Hin as ->. apply ok_name_check. vm_compute. reflexivity.
Defined.

(** ** An install *)

Definition scripted : Value :=
  VObject [(bs "version", VString (bs "1.0.0"));
           (bs "scripts", VObject [(bs "postinstall", VString (bs "make")); (bs "test", VString (bs "no"));
                                   (bs "preinstall", VString (bs "true"))])].

Definition fetched_foo : LockfileEntry :=
  {| resolved := Some (bs "https://r/foo.tgz"); integrity := None; bin := None |}.

Definition fetched_bar : LockfileEntry :=
  {| resolved := Some (bs "https://r/bar.tgz"); integrity := None; bin := None |}.

(** The answer for [bar] is never there; scripts exit well and change nothing. *)

#[local] Instance run_outside : Outside :=
  {| runtime_ready := Ok (); client_ready := Ok ();
     http_get := λ _ url, if decide (url = bs "https://r/foo.tgz") then Response (bs "200 OK") true (Ok [])
                          else Response (bs "404 Not Found") false (Ok []);
     run_sh := λ _ t _, (Exited (Some 0%Z), t);
     lock_works := true |}.

#[local] Instance run_digests : Digests :=
  {| sha512 := λ l, l; sha1 := λ l, l; base64_decode := λ l, Ok l |}.

#[local] Instance run_serde : Serde :=
  {| json_from_str := λ _, Some scripted; tsconfig_from_str := λ _, None |}.

#[local] Instance run_trust : TrustSerde :=
  {| trust_from_str := λ _, Some [bs "foo"]; trust_to_string_pretty := λ _, [] |}.

#[local] Instance run_lock : LockSerde :=
  {| lockfile_from_str := λ _, Ok {| lockfile_version := 3;
       packages := list_to_map [(bs "node_modules/foo", fetched_foo); (bs "node_modules/bar", fetched_bar)] |} |}.

Definition run_lockfile : Lockfile :=
  {| lockfile_version := 3;
     packages := list_to_map [(bs "node_modules/foo", fetched_foo); (bs "node_modules/bar", fetched_bar)] |}.

Definition run_env : Env :=
  {| xdg_config_home := None; home_var := None; userprofile := None; ignore_scripts := None |}.

Definition locked_world : World :=
  world_of (tree_of [([], NDir); (project, NDir); (project ++ [bs "package-lock.json"], NFile (bs "{}") None);
                     (project ++ [bs ".oam"], NDir);
                     (project ++ [bs ".oam"; bs "trust.json"], NFile (bs "{}") None)]).

Definition installed_run : result Report InstallOutcome * World :=
  install 1 run_env (bs "/p") true locked_world.

Definition foo_dir : path := bs "/p/node_modules/foo".
Definition run_bin : path := bs "/p/node_modules/.bin".

Example installed_log :
  log installed_run.2 =
    replicate 4 (Sent (bs "https://r/bar.tgz")) ++
    [Sent (bs "https://r/foo.tgz"); Ran foo_dir (bs "preinstall") (bs "true") run_bin;
     Ran foo_dir (bs "postinstall") (bs "make") run_bin].
Proof. by vm_compute. Qed.

Lemma installed_run_eq : install 1 run_env (bs "/p") true locked_world = (installed_run.1, installed_run.2).
Proof. unfold installed_run. by destruct (install _ _ _ _ _). Qed.

Lemma install_accounts_witness :
  match installed_run.1 with
  | Err e => log installed_run.2 = [] ∧ report_code e = bs "OAM-PKG0001"
  | Ok outcome =>
      ∃ n errors failures,
        outcome = Partial n errors ∧ n + length failures = 2 ∧ failures_of errors = failures ∧
        failures = [could_not_install (bs "node_modules/bar")
                      (bs "HTTP 404 Not Found for https://r/bar.tgz")]
  end.
Proof.
  pose proof (install_accounts 1 run_env (bs "/p") true locked_world _ _ installed_run_eq) as Hc.
  assert (∃ n errors, installed_run.1 = Ok (Partial n errors)) as (n & errors & E).
  { vm_compute. do 2 eexists. reflexivity. }
  assert (failures_of errors = [could_not_install (bs "node_modules/bar")
            (bs "HTTP 404 Not Found for https://r/bar.tgz")]) as Hf.
  { vm_compute in E. injection E as _ <-. vm_compute. reflexivity. }
  rewrite E in *. destruct Hc as (raw & lockfile & w0 & w1 & sent & ran & m & fs & _ & _ & Hl & _ & _ & _ & Hn & _ & _ & -> & _ & Hfs & _).
  injection Hl as <-. exists m, errors, fs. split; [reflexivity|]. split.
  - rewrite Hn. vm_compute. reflexivity.
  - split; [exact Hfs|]. by rewrite <-Hfs.
Defined.

Definition all_run : result Report InstallOutcome * World :=
  install_all 1 run_env (bs "/p") run_lockfile locked_world.

Lemma scripts_trusted_witness :
  log all_run.2 =
    replicate 4 (Sent (bs "https://r/bar.tgz")) ++
    [Sent (bs "https://r/foo.tgz"); Ran foo_dir (bs "preinstall") (bs "true") run_bin;
     Ran foo_dir (bs "postinstall") (bs "make") run_bin] ∧
  ∃ sent (runs : list (Text * PendingScripts)),
    log all_run.2 = [] ++ sent ++ concat (ran_events run_bin <$> runs.*2) ∧
    runs.*1 `sublist_of` (fetched_keys (to_install run_lockfile)).*1.
Proof.
  assert (install_all (E := Report) 1 run_env (bs "/p") run_lockfile locked_world = (all_run.1, all_run.2)) as H
    by apply surjective_pairing.
  destruct (scripts_trusted 1 run_env (bs "/p") run_lockfile locked_world _ _ H)
    as (sent & runs & Hl & _ & Hs & _).
  split; [vm_compute; reflexivity|]. exists sent, runs. split; [exact Hl|exact Hs].
Defined.
