(* ===== verification/Timers.v ===== *)
(** * Timers: the timer queue of [oam_engine/src/timers.rs]

    The queue the event loop pops one callback from per turn.  An instant and
    a duration are nanoseconds, and an operation that reads the clock takes
    the instant it reads.  A callback with its arguments is an element of an
    abstract type.  [BinaryHeap] is a list in its order: [peek] is its head.
    The bindings that read JavaScript arguments are left out; what
    [timer_pending] does to the queue is [queue_pending]. *)

From S2P Require Import Prelude.

(** (deadline, insertion seq, id), compared as Rust compares tuples. *)

Definition Slot : Type := Z * Z * Z.

Definition instant (t : Slot) : Z := t.1.1.
Definition order (t : Slot) : Z := t.1.2.
Definition ident (t : Slot) : Z := t.2.

Definition before (a b : Z * Z) : bool :=
  (a.1 <? b.1)%Z || ((a.1 =? b.1)%Z && (a.2 <? b.2)%Z).

Definition slot_lt (a b : Slot) : bool :=
  before a.1 b.1 || (bool_decide (a.1 = b.1) && (ident a <? ident b)%Z).

Fixpoint heap_push (t : Slot) (h : list Slot) : list Slot :=
  match h with
  | [] => [t]
  | u :: h' => if slot_lt t u then t :: h else u :: heap_push t h'
  end.

Section Timers.
Context {W : Type}.

Record TimerEntry : Type := {
  work : W;
  interval : option Z;
  is_ref : bool
}.

Inductive PendingGate : Type :=
| Open
| Timers (until : Z)
| Immediates (until : Z).

Record PendingEntry : Type := {
  pending_work : W;
  gate : PendingGate
}.

Inductive Due : Type :=
| DuePending
| DueTimer (deadline : Z)
| DueImmediate (queued : Z).

Inductive Running : Type :=
| RTimer (now deadline : Z)
| RImmediate (now : Z).

Record TimerQueue : Type := {
  next_id : Z;
  seq : Z;
  epoch : Z;
  heap : list Slot;
  immediates : list Slot;
  active : gmap Z TimerEntry;
  ref_count : Z;
  pending : list PendingEntry;
  running : option Running
}.

(** A queue made at [now]. *)

Definition TimerQueue_default (now : Z) : TimerQueue :=
  {| next_id := 1; seq := 0; epoch := now; heap := []; immediates := []; active := ∅;
     ref_count := 0; pending := []; running := None |}.

Definition set_heap (h : list Slot) (q : TimerQueue) : TimerQueue :=
  {| next_id := next_id q; seq := seq q; epoch := epoch q; heap := h; immediates := immediates q;
     active := active q; ref_count := ref_count q; pending := pending q; running := running q |}.

Definition set_immediates (l : list Slot) (q : TimerQueue) : TimerQueue :=
  {| next_id := next_id q; seq := seq q; epoch := epoch q; heap := heap q; immediates := l;
     active := active q; ref_count := ref_count q; pending := pending q; running := running q |}.

Definition set_active (a : gmap Z TimerEntry) (n : Z) (q : TimerQueue) : TimerQueue :=
  {| next_id := next_id q; seq := seq q; epoch := epoch q; heap := heap q; immediates := immediates q;
     active := a; ref_count := n; pending := pending q; running := running q |}.

Definition set_seq (i s : Z) (q : TimerQueue) : TimerQueue :=
  {| next_id := i; seq := s; epoch := epoch q; heap := heap q; immediates := immediates q;
     active := active q; ref_count := ref_count q; pending := pending q; running := running q |}.

Definition set_pending (l : list PendingEntry) (q : TimerQueue) : TimerQueue :=
  {| next_id := next_id q; seq := seq q; epoch := epoch q; heap := heap q; immediates := immediates q;
     active := active q; ref_count := ref_count q; pending := l; running := running q |}.

Definition set_running (r : option Running) (q : TimerQueue) : TimerQueue :=
  {| next_id := next_id q; seq := seq q; epoch := epoch q; heap := heap q; immediates := immediates q;
     active := active q; ref_count := ref_count q; pending := pending q; running := r |}.

(** ** Scheduling *)

(** [id.wrapping_add(1).max(1)]. *)

Definition succ_id (id : Z) : Z := Z.max (wrap_u 32 (id + 1)) 1.

(** The first id from [id] on that is not live: at most one more than there
    are live timers. *)

Fixpoint free_id (fuel : nat) (live : gmap Z TimerEntry) (id : Z) : Z :=
  match fuel with
  | O => id
  | S fuel => if live !! id is Some _ then free_id fuel live (succ_id id) else id
  end.

Definition alloc_id (q : TimerQueue) : Z := free_id (S (size (active q))) (active q) (next_id q).

Definition ref_weight (e : TimerEntry) : Z := if is_ref e then 1 else 0.

Definition insert_entry (entry : TimerEntry) (q : TimerQueue) : Z * Z * TimerQueue :=
  let id := alloc_id q in
  let s := wrap_u 64 (seq q + 1) in
  (id, s,
   set_active (<[id := entry]> (active q)) (ref_count q + ref_weight entry)
     (set_seq (succ_id id) s q)).

Definition schedule (now : Z) (entry : TimerEntry) (delay : Z) (q : TimerQueue) : Z * TimerQueue :=
  let deadline := (now + delay)%Z in
  let '(id, s, q) := insert_entry entry q in
  (id, set_heap (heap_push (deadline, s, id) (heap q)) q).

Definition schedule_immediate (now : Z) (entry : TimerEntry) (q : TimerQueue) : Z * TimerQueue :=
  let '(id, s, q) := insert_entry entry q in
  (id, set_immediates (immediates q ++ [(now, s, id)]) q).

(** ** Cancelling *)

Definition is_live (a : gmap Z TimerEntry) (t : Slot) : bool :=
  if a !! ident t is Some _ then true else false.

Definition retain (a : gmap Z TimerEntry) (l : list Slot) : list Slot :=
  filter (λ t, is_live a t = true) l.

Definition cancel (id : Z) (q : TimerQueue) : TimerQueue :=
  match active q !! id with
  | None => q
  | Some entry =>
      let q := set_active (delete id (active q)) (ref_count q - ref_weight entry) q in
      let live := size (active q) in
      let queued := length (heap q) + length (immediates q) in
      if bool_decide (64 < queued) && bool_decide (live * 2 < queued)
      then set_immediates (retain (active q) (immediates q)) (set_heap (retain (active q) (heap q)) q)
      else q
  end.

(** ** The fronts, cancelled slots discarded *)

Fixpoint drop_dead (a : gmap Z TimerEntry) (l : list Slot) : list Slot :=
  match l with
  | t :: l' => if is_live a t then l else drop_dead a l'
  | [] => []
  end.

Definition front_timer (q : TimerQueue) : option (Z * Z) * TimerQueue :=
  let h := drop_dead (active q) (heap q) in
  (fst <$> head h, set_heap h q).

Definition front_immediate (q : TimerQueue) : option (Z * Z) * TimerQueue :=
  let l := drop_dead (active q) (immediates q) in
  (fst <$> head l, set_immediates l q).

Definition next_deadline (q : TimerQueue) : option Z * TimerQueue :=
  match pending q with
  | _ :: _ => (Some (epoch q), q)
  | [] =>
      let '(timer, q) := front_timer q in
      let '(immediate, q) := front_immediate q in
      (match timer, immediate with
       | Some t, Some i => Some (if before i t then i.1 else t.1)
       | Some t, None => Some t.1
       | None, Some i => Some i.1
       | None, None => None
       end, q)
  end.

(** ** Popping *)

Definition pop_timer (now : Z) (q : TimerQueue) : option W * TimerQueue :=
  match heap q with
  | [] => (None, q)
  | t :: h =>
      let q := set_heap h q in
      match active q !! ident t with
      | None => (None, q)
      | Some entry =>
          let q :=
            match interval entry with
            | Some period =>
                let s := wrap_u 64 (seq q + 1) in
                set_heap (heap_push ((now + period)%Z, s, ident t) (heap q)) (set_seq (next_id q) s q)
            | None => set_active (delete (ident t) (active q)) (ref_count q - ref_weight entry) q
            end in
          (Some (work entry), set_running (Some (RTimer now (instant t))) q)
      end
  end.

Definition pop_immediate (now : Z) (q : TimerQueue) : option W * TimerQueue :=
  match immediates q with
  | [] => (None, q)
  | t :: l =>
      let q := set_immediates l q in
      match active q !! ident t with
      | None => (None, q)
      | Some entry =>
          (Some (work entry),
           set_running (Some (RImmediate now))
             (set_active (delete (ident t) (active q)) (ref_count q - ref_weight entry) q))
      end
  end.

Definition due_by (limit : Z) (front : option (Z * Z)) : bool :=
  match front with
  | Some k => (k.1 <=? limit)%Z
  | None => false
  end.

(** No pending callback waits: the earlier of the due timer and the due
    immediate. *)

Definition pop_queued (now : Z) (q : TimerQueue) : option W * TimerQueue :=
  let '(timer, q) := front_timer q in
  let '(immediate, q) := front_immediate q in
  match (if due_by now timer then timer else None), (if due_by now immediate then immediate else None) with
  | Some t, Some i => if before i t then pop_immediate now q else pop_timer now q
  | Some _, None => pop_timer now q
  | None, Some _ => pop_immediate now q
  | None, None => (None, q)
  end.

Definition set_front_gate (g : PendingGate) (q : TimerQueue) : TimerQueue :=
  match pending q with
  | p :: ps => set_pending ({| pending_work := pending_work p; gate := g |} :: ps) q
  | [] => q
  end.

(** The loop over the front gate.  A gate goes from immediates to timers to
    open, so it turns three times at most. *)

Fixpoint pop_pending (fuel : nat) (now : Z) (q : TimerQueue) : option W * TimerQueue :=
  match pending q with
  | [] => pop_queued now q
  | p :: ps =>
      match fuel with
      | O => (None, q)
      | S fuel =>
          match gate p with
          | Open => (Some (pending_work p), set_pending ps q)
          | Immediates until =>
              let '(front, q) := front_immediate q in
              if due_by until front then pop_immediate now q
              else pop_pending fuel now (set_front_gate (Timers now) q)
          | Timers until =>
              let '(front, q) := front_timer q in
              if due_by (Z.min until now) front then pop_timer now q
              else pop_pending fuel now (set_front_gate Open q)
          end
      end
  end.

Definition GATE_TURNS : nat := 3.

Definition pop_due (now : Z) (q : TimerQueue) : option W * TimerQueue :=
  pop_pending GATE_TURNS now (set_running None q).

Definition peek_due (now : Z) (q : TimerQueue) : option Due * TimerQueue :=
  match pending q with
  | _ :: _ => (Some DuePending, q)
  | [] =>
      let '(timer, q) := front_timer q in
      let '(immediate, q) := front_immediate q in
      (match (if due_by now timer then timer else None),
             (if due_by now immediate then immediate else None) with
       | Some t, Some i => Some (if before i t then DueImmediate i.1 else DueTimer t.1)
       | Some t, None => Some (DueTimer t.1)
       | None, Some i => Some (DueImmediate i.1)
       | None, None => None
       end, q)
  end.

Definition popped (q : TimerQueue) : option Due :=
  match running q with
  | Some (RTimer _ deadline) => Some (DueTimer deadline)
  | Some (RImmediate now) => Some (DueImmediate now)
  | None => None
  end.

Definition callback_done (q : TimerQueue) : TimerQueue := set_running None q.

(** ** References and pending callbacks *)

Definition set_ref (id : Z) (value : bool) (q : TimerQueue) : TimerQueue :=
  match active q !! id with
  | Some entry =>
      if decide (is_ref entry ≠ value) then
        set_active (<[id := {| work := work entry; interval := interval entry; is_ref := value |}]> (active q))
          (if value then ref_count q + 1 else ref_count q - 1)%Z q
      else q
  | None => q
  end.

Definition has_ref_timers (q : TimerQueue) : bool :=
  (0 <? ref_count q)%Z || match pending q with [] => false | _ => true end.

Definition gate_of (r : option Running) : PendingGate :=
  match r with
  | None => Open
  | Some (RTimer now deadline) => Timers (Z.max now (deadline + 999999))
  | Some (RImmediate now) => Immediates now
  end.

Definition queue_pending (w : W) (q : TimerQueue) : TimerQueue :=
  set_pending (pending q ++ [{| pending_work := w; gate := gate_of (running q) |}]) q.
End Timers.
Arguments TimerEntry : clear implicits.
Arguments PendingEntry : clear implicits.
Arguments TimerQueue : clear implicits.
