(* ===== verification/TimersInv.v ===== *)
(** * TimersInv: the invariant of the timer queue

    Every live timer has a slot, and where ids that come round are left aside
    just one; numbers are given once, both queues are in firing order and the
    reference count counts; and scheduling, cancelling and the rest keep it
    so, at instants that never go back. *)

From stdpp Require Import sorting.
From S2P Require Import Prelude Timers.

(** ** Ids *)

Lemma succ_id_eq id : (1 ≤ id ≤ u32_max)%Z → succ_id id = (if decide (id = u32_max) then 1 else id + 1)%Z.
Proof.
  unfold succ_id, wrap_u, u32_max. intros H. case_decide as E.
  - subst. done.
  - rewrite Z.mod_small by lia. lia.
Qed.

Lemma succ_id_range id : (1 ≤ id ≤ u32_max)%Z → (1 ≤ succ_id id ≤ u32_max)%Z.
Proof. intros H. rewrite succ_id_eq by done. case_decide; unfold u32_max in *; lia. Qed.

Lemma iter_succ_id k id :
  (1 ≤ id ≤ u32_max)%Z → Nat.iter k succ_id id = ((id - 1 + Z.of_nat k) `mod` u32_max + 1)%Z.
Proof.
  intros H. induction k as [|k IH].
  - cbn. rewrite Z.mod_small; unfold u32_max in *; lia.
  - rewrite Nat.iter_succ, IH, succ_id_eq.
    + unfold u32_max in *. case_decide; Z.to_euclidean_division_equations; lia.
    + unfold u32_max in *. Z.to_euclidean_division_equations; lia.
Qed.

Lemma iter_succ_inj i j id :
  (1 ≤ id ≤ u32_max)%Z → (Z.of_nat i < u32_max)%Z → (Z.of_nat j < u32_max)%Z →
  Nat.iter i succ_id id = Nat.iter j succ_id id → i = j.
Proof.
  intros H Hi Hj. rewrite !iter_succ_id by done. unfold u32_max in *.
  intros E. apply Nat2Z.inj. Z.to_euclidean_division_equations; lia.
Qed.

Section Ids.
Context {W : Type}.
Implicit Types (live : gmap Z (TimerEntry W)).

Lemma free_id_taken fuel live id k :
  is_Some (live !! free_id fuel live id) → k ≤ fuel → is_Some (live !! Nat.iter k succ_id id).
Proof.
  revert id k. induction fuel as [|fuel IH]; intros id k H Hk; cbn in H.
  - by replace k with 0 by lia.
  - destruct (live !! id) as [e|] eqn:E; [|rewrite E in H; by destruct H].
    destruct k as [|k]; [by exists e|]. rewrite Nat.iter_succ_r. apply IH; [done|lia].
Qed.

Lemma free_id_range fuel live id :
  (1 ≤ id ≤ u32_max)%Z → (1 ≤ free_id fuel live id ≤ u32_max)%Z.
Proof.
  revert id. induction fuel as [|fuel IH]; intros id H; [done|]. cbn.
  destruct (live !! id); [|done]. apply IH. by apply succ_id_range.
Qed.

Lemma free_id_free live id :
  (1 ≤ id ≤ u32_max)%Z → (Z.of_nat (size live) < u32_max)%Z →
  live !! free_id (S (size live)) live id = None.
Proof.
  intros Hid Hs. apply eq_None_not_Some. intros Ht.
  set (ids := (λ k, Nat.iter k succ_id id) <$> List.seq 0 (S (size live))).
  assert (NoDup ids) as Hnd.
  { apply NoDup_fmap_2_strong; [|apply NoDup_seq]. intros i j Hi%elem_of_seq Hj%elem_of_seq.
    apply iter_succ_inj; [done|lia..]. }
  assert (ids ⊆ elements (dom live)) as Hsub.
  { intros x (k & -> & Hk%elem_of_seq)%list_elem_of_fmap. apply elem_of_elements, elem_of_dom.
    eapply free_id_taken; [done|lia]. }
  pose proof (submseteq_length ids _ (NoDup_submseteq _ _ Hnd Hsub)) as Hlen.
  unfold ids in Hlen. rewrite length_fmap, length_seq in Hlen.
  change (length (elements (dom live))) with (size (dom live)) in Hlen. rewrite size_dom in Hlen. lia.
Qed.
End Ids.

(** ** Order *)

Definition Before (a b : Slot) : Prop := before a.1 b.1 = true.

Lemma before_spec a b : before a b = true ↔ (a.1 < b.1 ∨ (a.1 = b.1 ∧ a.2 < b.2))%Z.
Proof. unfold before. rewrite orb_true_iff, andb_true_iff, !Z.ltb_lt, Z.eqb_eq. done. Qed.

#[global] Instance Before_trans : Transitive Before.
Proof. intros a b c. unfold Before. rewrite !before_spec. lia. Qed.

Lemma not_slot_lt a b : order a ≠ order b → slot_lt a b = false → Before b a.
Proof.
  unfold slot_lt, Before. rewrite orb_false_iff, <-not_true_iff_false, !before_spec.
  unfold order. lia.
Qed.

Lemma slot_lt_Before a b : order a ≠ order b → slot_lt a b = true → Before a b.
Proof.
  unfold slot_lt, Before. intros Ho [H|[E%bool_decide_eq_true _]%andb_true_iff]%orb_true_iff; [done|].
  unfold order in Ho. congruence.
Qed.

Lemma heap_push_Permutation t h : heap_push t h ≡ₚ t :: h.
Proof.
  induction h as [|u h IH]; cbn; [done|]. destruct (slot_lt t u); [done|]. rewrite IH. constructor.
Qed.

Lemma heap_push_sorted t h :
  StronglySorted Before h → order t ∉ order <$> h → StronglySorted Before (heap_push t h).
Proof.
  induction 1 as [|u h Hs IH Hu]; cbn; intros Ho.
  - by repeat constructor.
  - apply not_elem_of_cons in Ho as [Hne Ho]. destruct (slot_lt t u) eqn:E.
    + apply slot_lt_Before in E; [|done]. constructor; [by constructor|].
      constructor; [done|]. eapply Forall_impl; [exact Hu|]. intros v Hv. by etrans.
    + apply not_slot_lt in E; [|done]. constructor; [by apply IH|].
      rewrite heap_push_Permutation. by constructor.
Qed.

Lemma filter_ext_Forall {A} (P Q : A → Prop) `{∀ x, Decision (P x), ∀ x, Decision (Q x)} l :
  Forall (λ x, P x ↔ Q x) l → filter P l = filter Q l.
Proof.
  induction 1 as [|x l Hx Hl IH]; [done|]. rewrite !filter_cons, IH.
  by destruct (decide (P x)), (decide (Q x)); naive_solver.
Qed.

Lemma filter_all {A} (P : A → Prop) `{∀ x, Decision (P x)} l : Forall P l → filter P l = l.
Proof. induction 1 as [|x l Hx Hl IH]; [done|]. by rewrite filter_cons_True, IH. Qed.

Lemma Forall_sublist {A} (P : A → Prop) l k : l `sublist_of` k → Forall P k → Forall P l.
Proof. rewrite !Forall_forall. intros Hl HF x Hx. eapply HF, elem_of_sublist; done. Qed.

Lemma StronglySorted_sublist (l k : list Slot) :
  l `sublist_of` k → StronglySorted Before k → StronglySorted Before l.
Proof.
  induction 1 as [|x l k Hl IH|x l k Hl IH]; intros Hs; [constructor|..];
    inversion_clear Hs as [|?? Hs' HF]; [|by apply IH].
  constructor; [by apply IH|]. by eapply Forall_sublist.
Qed.

Lemma StronglySorted_snoc (l : list Slot) t :
  StronglySorted Before l → Forall (λ u, Before u t) l → StronglySorted Before (l ++ [t]).
Proof.
  induction 1 as [|u l Hs IH Hu]; cbn; intros HF; [by repeat constructor|].
  inversion_clear HF. constructor; [by apply IH|]. apply Forall_app. by rewrite Forall_singleton.
Qed.

(** ** The invariant *)

Section Invariant.
Context {W : Type} {exact : bool}.
Implicit Types (q : TimerQueue W) (e : TimerEntry W) (a : gmap Z (TimerEntry W)) (l h : list Slot).

(** Slots against the live set [a] and the last sequence number [s]: every live
    id has a slot, and no two slots share a number.  Where [exact], a live id
    has one slot only. *)

Record Slots a (s : Z) l : Prop := {
  slots_le : Forall (λ t, order t ≤ s)%Z l;
  slots_orders : NoDup (order <$> l);
  slots_ids : exact = true → NoDup (ident <$> retain a l);
  slots_dom id : is_Some (a !! id) → id ∈ ident <$> l
}.

Lemma is_live_spec a t : is_live a t = true ↔ is_Some (a !! ident t).
Proof. unfold is_live. destruct (a !! ident t); [by split|]. split; [done|by intros []]. Qed.

Lemma elem_of_retain a l t : t ∈ retain a l ↔ is_Some (a !! ident t) ∧ t ∈ l.
Proof. unfold retain. by rewrite list_elem_of_filter, is_live_spec. Qed.

Lemma retain_cons_live a t l : is_Some (a !! ident t) → retain a (t :: l) = t :: retain a l.
Proof. intros H. unfold retain. by rewrite filter_cons_True by by apply is_live_spec. Qed.

Lemma retain_drop_dead a l : retain a (drop_dead a l) = retain a l.
Proof.
  unfold retain. induction l as [|t l IH]; cbn [drop_dead]; [done|].
  destruct (is_live a t) eqn:E; [done|]. rewrite IH, filter_cons_False by congruence. done.
Qed.

Lemma retain_retain a l : retain a (retain a l) = retain a l.
Proof. unfold retain. by rewrite list_filter_filter_l. Qed.

Lemma retain_app a l h : retain a (l ++ h) = retain a l ++ retain a h.
Proof. apply filter_app. Qed.

Lemma drop_dead_sublist a l : drop_dead a l `sublist_of` l.
Proof.
  induction l as [|t l IH]; cbn [drop_dead]; [done|]. destruct (is_live a t); [done|by constructor].
Qed.

Lemma retain_sublist a l : retain a l `sublist_of` l.
Proof. apply sublist_filter. Qed.

#[global] Instance Slots_Permutation a s : Proper ((≡ₚ) ==> iff) (Slots a s).
Proof.
  assert (∀ l k, l ≡ₚ k → Slots a s l → Slots a s k) as H; [|by intros l k E; split; apply H].
  intros l k E [H1 H2 H3 H4]. split.
  - by rewrite <-E.
  - by rewrite <-E.
  - intros Hx. specialize (H3 Hx). unfold retain in *. by rewrite <-E.
  - intros id Hid. rewrite <-E. by apply H4.
Qed.

Lemma Slots_shrink a s l k : Slots a s l → k `sublist_of` l → retain a k = retain a l → Slots a s k.
Proof.
  intros [H1 H2 H3 H4] Hk E. split.
  - by eapply Forall_sublist.
  - eapply sublist_NoDup; [exact H2|]. by apply fmap_sublist.
  - by rewrite E.
  - intros id Hid. pose proof (H4 id Hid) as (t & -> & Ht)%list_elem_of_fmap.
    assert (t ∈ retain a k) as Hin by (rewrite E; by apply elem_of_retain).
    apply elem_of_retain in Hin as [_ Hin]. by apply list_elem_of_fmap_2.
Qed.

Lemma retain_delete a id l : retain (delete id a) l = filter (λ t, ident t ≠ id) (retain a l).
Proof.
  unfold retain. rewrite list_filter_filter. apply list_filter_iff. intros t. rewrite !is_live_spec.
  rewrite lookup_delete_is_Some. naive_solver.
Qed.

Lemma Slots_cancel a s l id : Slots a s l → Slots (delete id a) s l.
Proof.
  intros [H1 H2 H3 H4]. split; [done|done| |].
  - intros Hx. rewrite retain_delete. eapply sublist_NoDup; [exact (H3 Hx)|]. apply fmap_sublist, sublist_filter.
  - intros id' [_ H]%lookup_delete_is_Some. by apply H4.
Qed.

(** The slot [t] of a live timer is its only live one. *)

Lemma Slots_other a s t l u :
  exact = true → Slots a s (t :: l) → is_Some (a !! ident t) → u ∈ retain a l → ident u ≠ ident t.
Proof.
  intros Hx [_ _ H3 _] Ht Hu E. specialize (H3 Hx). rewrite retain_cons_live in H3 by done.
  apply NoDup_cons in H3 as [Hn _]. apply Hn. rewrite <-E. by apply list_elem_of_fmap_2.
Qed.

Lemma Slots_del a s t l :
  Slots a s (t :: l) → is_Some (a !! ident t) → Slots (delete (ident t) a) s l.
Proof.
  intros H Ht. pose proof (Slots_cancel _ _ _ (ident t) H) as [H1 H2 H3 H4].
  inversion_clear H1. inversion_clear H2. split; [done|done| |].
  - intros Hx. eapply sublist_NoDup; [exact (H3 Hx)|]. apply fmap_sublist.
    unfold retain. rewrite filter_cons. case_decide; [by constructor|done].
  - intros id Hid. pose proof (H4 id Hid) as [->|Hin]%elem_of_cons; [|done].
    by apply lookup_delete_is_Some in Hid as [? _].
Qed.

Lemma Slots_add a s s' d id e l :
  Slots a s l → (exact = true → id ∉ ident <$> l) → (s < s')%Z →
  Slots (<[id := e]> a) s' ((d, s', id) :: l).
Proof.
  intros [H1 H2 H3 H4] Hid Hs.
  assert (exact = true → retain (<[id := e]> a) l = retain a l) as E.
  { intros Hid'%Hid. unfold retain. apply filter_ext_Forall, Forall_forall. intros t Ht. rewrite !is_live_spec.
    rewrite lookup_insert_ne; [done|]. intros ->. apply Hid'. by apply list_elem_of_fmap_2. }
  split.
  - constructor; [cbn; lia|]. eapply Forall_impl; [exact H1|]. cbn. intros; lia.
  - cbn. constructor; [|done]. intros (t & Ho & Ht)%list_elem_of_fmap.
    rewrite Forall_forall in H1. apply H1 in Ht. cbn in *. lia.
  - intros Hx. rewrite retain_cons_live by by rewrite lookup_insert_eq. rewrite (E Hx). cbn.
    constructor; [|by apply H3].
    intros (t & -> & [_ Ht]%elem_of_retain)%list_elem_of_fmap. apply (Hid Hx). by apply list_elem_of_fmap_2.
  - intros id'. cbn. destruct (decide (id' = id)) as [->|Hne]; [by left|].
    rewrite lookup_insert_ne by done. right. by apply H4.
Qed.

(** An interval takes a new slot. *)

Lemma Slots_again a s s' d t l :
  Slots a s (t :: l) → is_Some (a !! ident t) → (s < s')%Z → Slots a s' ((d, s', ident t) :: l).
Proof.
  intros H Ht Hs. pose proof H as [H1 H2 H3 H4]. inversion_clear H1 as [|?? _ H1'].
  inversion_clear H2 as [|?? _ H2'].
  split.
  - constructor; [cbn; lia|]. eapply Forall_impl; [exact H1'|]. cbn. intros; lia.
  - cbn. constructor; [|done]. intros (u & Ho & Hu)%list_elem_of_fmap.
    rewrite Forall_forall in H1'. apply H1' in Hu. cbn in *. lia.
  - intros Hx. specialize (H3 Hx). rewrite retain_cons_live in H3 by done. by rewrite retain_cons_live.
  - intros id Hid. cbn. apply elem_of_cons. pose proof (H4 id Hid) as [->|Hin]%elem_of_cons; auto.
Qed.

Lemma Slots_update a s l id e e' :
  Slots a s l → a !! id = Some e → Slots (<[id := e']> a) s l.
Proof.
  intros [H1 H2 H3 H4] He.
  assert (∀ id', is_Some (<[id := e']> a !! id') ↔ is_Some (a !! id')) as Hd.
  { intros id'. rewrite lookup_insert_is_Some. split; [intros [<-|[_ ?]]; [by exists e|done]|].
    destruct (decide (id = id')); auto. }
  split; [done|done| |].
  - replace (retain _ l) with (retain a l); [done|]. unfold retain. apply filter_ext_Forall, Forall_forall.
    intros t _. by rewrite !is_live_spec, Hd.
  - intros id'. rewrite Hd. apply H4.
Qed.

(** Live timers that hold the loop. *)

Definition ref_live a : gmap Z (TimerEntry W) := filter (λ kv, is_ref kv.2 = true) a.

Lemma ref_live_delete a id e :
  a !! id = Some e →
  Z.of_nat (size (ref_live a)) = (Z.of_nat (size (ref_live (delete id a))) + ref_weight e)%Z.
Proof.
  intros He. unfold ref_live, ref_weight. rewrite map_filter_delete, map_size_delete.
  destruct (is_ref e) eqn:Er.
  - assert (filter (λ kv, is_ref kv.2 = true) a !! id = Some e) as Hin
      by by apply map_lookup_filter_Some.
    rewrite Hin. assert (size (filter (λ kv, is_ref kv.2 = true) a) ≠ 0); [|lia].
    intros E%map_size_empty_inv. rewrite E in Hin. done.
  - replace (filter (λ kv, is_ref kv.2 = true) a !! id) with (None : option (TimerEntry W)); [cbn; lia|].
    symmetry. apply map_lookup_filter_None. right. intros x Hx. cbn. congruence.
Qed.

Lemma ref_live_insert a id e :
  a !! id = None →
  Z.of_nat (size (ref_live (<[id := e]> a))) = (Z.of_nat (size (ref_live a)) + ref_weight e)%Z.
Proof.
  intros H. rewrite (ref_live_delete (<[id := e]> a) id e) by apply lookup_insert_eq.
  by rewrite delete_insert_id.
Qed.

(** The queue at [clock], the last instant it was used at. *)

Record Inv (clock : Z) q : Prop := {
  inv_next : (1 ≤ next_id q ≤ u32_max)%Z;
  inv_ref : ref_count q = Z.of_nat (size (ref_live (active q)));
  inv_seq : (0 ≤ seq q)%Z;
  inv_heap : StronglySorted Before (heap q);
  inv_immediates : StronglySorted Before (immediates q);
  inv_queued : Forall (λ t, instant t ≤ clock)%Z (immediates q);
  inv_slots : Slots (active q) (seq q) (heap q ++ immediates q)
}.

Definition slots q : list Slot := heap q ++ immediates q.

(** The slots of the live timers and immediates. *)

Definition live q : list Slot := retain (active q) (slots q).

(** ** Every operation keeps it *)

Lemma Inv_default now : Inv now (TimerQueue_default now).
Proof.
  split; cbn; [unfold u32_max; lia|done|done|constructor..|]. split; [constructor..|].
  intros id [x Hx]. by rewrite lookup_empty in Hx.
Qed.

Lemma Inv_clock clock clock' q : (clock ≤ clock')%Z → Inv clock q → Inv clock' q.
Proof.
  intros Hc [H1 H2 H3 H4 H5 H6 H7]. split; try done. eapply Forall_impl; [exact H6|]. cbn. intros; lia.
Qed.

Lemma Inv_running clock q r : Inv clock q → Inv clock (set_running r q).
Proof. by intros []. Qed.

Lemma Inv_pending clock q ps : Inv clock q → Inv clock (set_pending ps q).
Proof. by intros []. Qed.

Lemma Inv_shrink clock q h l :
  Inv clock q → h `sublist_of` heap q → l `sublist_of` immediates q →
  retain (active q) h = retain (active q) (heap q) →
  retain (active q) l = retain (active q) (immediates q) →
  Inv clock (set_immediates l (set_heap h q)).
Proof.
  intros [H1 H2 H3 H4 H5 H6 H7] Hh Hl Eh El. split; try done; cbn.
  - by eapply StronglySorted_sublist.
  - by eapply StronglySorted_sublist.
  - by eapply Forall_sublist.
  - eapply Slots_shrink; [done|by apply sublist_app|]. rewrite !retain_app. congruence.
Qed.

Lemma Inv_front_timer clock q : Inv clock q → Inv clock (front_timer q).2.
Proof.
  intros H. apply (Inv_shrink clock q _ (immediates q)) ; [done|..]; try done.
  - apply drop_dead_sublist.
  - apply retain_drop_dead.
Qed.

Lemma Inv_front_immediate clock q : Inv clock q → Inv clock (front_immediate q).2.
Proof.
  intros H. apply (Inv_shrink clock q (heap q)); [done|..]; try done.
  - apply drop_dead_sublist.
  - apply retain_drop_dead.
Qed.

Lemma Inv_cancel clock q id : Inv clock q → Inv clock (cancel id q).
Proof.
  intros H. unfold cancel. destruct (active q !! id) as [e|] eqn:E; [|done].
  assert (Inv clock (set_active (delete id (active q)) (ref_count q - ref_weight e) q)) as H'.
  { destruct H as [H1 H2 H3 H4 H5 H6 H7]. split; try done; cbn.
    - rewrite H2, (ref_live_delete _ id e) by done. lia.
    - by apply Slots_cancel. }
  cbv zeta. destruct (_ && _); [|done]. apply Inv_shrink; try apply retain_sublist; try done; apply retain_retain.
Qed.

Lemma Inv_set_ref clock q id value : Inv clock q → Inv clock (set_ref id value q).
Proof.
  intros H. unfold set_ref. destruct (active q !! id) as [e|] eqn:E; [|done]. case_decide as Hv; [|done].
  destruct H as [H1 H2 H3 H4 H5 H6 H7]. split; try done; cbn.
  - rewrite H2, (ref_live_delete _ id e) by done.
    rewrite (ref_live_delete (<[id := _]> _) id _) by apply lookup_insert_eq.
    rewrite delete_insert_eq. unfold ref_weight. cbn. destruct (is_ref e), value; try done; lia.
  - by eapply Slots_update.
Qed.

(** Room for one more timer: an id and a number to give it; and, where [exact],
    no cancelled timer's slot with that id.  The code does not see to this: an
    id comes round after 2^32 others. *)

Definition room q : Prop :=
  (Z.of_nat (size (active q)) < u32_max)%Z ∧ (seq q < u64_max)%Z ∧
  (exact = true → alloc_id q ∉ ident <$> slots q).

Lemma alloc_id_free clock q : Inv clock q → room q → active q !! alloc_id q = None.
Proof. intros H [Hs _]. apply free_id_free; [apply H|done]. Qed.

Lemma seq_succ q : (0 ≤ seq q)%Z → (seq q < u64_max)%Z → wrap_u 64 (seq q + 1) = (seq q + 1)%Z.
Proof. intros H1 H2. unfold wrap_u, u64_max in *. by rewrite Z.mod_small by lia. Qed.

Lemma Slots_insert clock q d e :
  Inv clock q → room q →
  Slots (<[alloc_id q := e]> (active q)) (seq q + 1) ((d, (seq q + 1)%Z, alloc_id q) :: slots q).
Proof. intros H (_ & _ & Hid). apply (Slots_add _ (seq q)); [apply H|done|lia]. Qed.

Lemma Inv_schedule clock now q e delay :
  Inv clock q → room q → (clock ≤ now)%Z → Inv now (schedule now e delay q).2.
Proof.
  intros H Hr Hc. pose proof (Slots_insert _ _ (now + delay) e H Hr) as HS.
  pose proof (alloc_id_free _ _ H Hr) as Hf. pose proof (inv_next _ _ H) as Hn.
  apply (Inv_clock _ now) in H; [|done]. destruct H as [H1 H2 H3 H4 H5 H6 H7].
  destruct Hr as (Hr1 & Hr2 & Hr3). unfold schedule, insert_entry. cbv zeta. rewrite seq_succ by done.
  split; try done; cbn [snd next_id seq heap immediates active ref_count set_heap set_active set_seq].
  - by apply succ_id_range, free_id_range.
  - by rewrite H2, ref_live_insert.
  - lia.
  - apply heap_push_sorted; [done|]. apply slots_orders in HS. rewrite fmap_cons in HS.
    apply NoDup_cons in HS as [HS _]. intros Hin. apply HS. unfold slots. rewrite fmap_app.
    by apply elem_of_app; left.
  - by rewrite heap_push_Permutation.
Qed.

Lemma Inv_schedule_immediate clock now q e :
  Inv clock q → room q → (clock ≤ now)%Z → Inv now (schedule_immediate now e q).2.
Proof.
  intros H Hr Hc. pose proof (Slots_insert _ _ now e H Hr) as HS.
  pose proof (alloc_id_free _ _ H Hr) as Hf. pose proof (inv_next _ _ H) as Hn.
  apply (Inv_clock _ now) in H; [|done]. destruct H as [H1 H2 H3 H4 H5 H6 H7].
  destruct Hr as (Hr1 & Hr2 & Hr3). unfold schedule_immediate, insert_entry. cbv zeta. rewrite seq_succ by done.
  split; try done; cbn [snd next_id seq heap immediates active ref_count set_immediates set_active set_seq].
  - by apply succ_id_range, free_id_range.
  - by rewrite H2, ref_live_insert.
  - lia.
  - apply StronglySorted_snoc; [done|]. apply slots_le in H7. apply Forall_app in H7 as [_ H7].
    rewrite Forall_forall in *. intros t Ht. specialize (H6 t Ht). specialize (H7 t Ht).
    unfold Before. rewrite before_spec. unfold instant, order in *. cbn. lia.
  - apply Forall_app. rewrite Forall_singleton. cbn. split; [done|lia].
  - rewrite app_assoc, <-Permutation_cons_append. done.
Qed.
(** Popping, whatever is at the front. *)

Lemma Inv_pop_timer clock now q :
  Inv clock q → (clock ≤ now)%Z → (seq q < u64_max)%Z → Inv now (pop_timer now q).2.
Proof.
  intros H Hc Hs. apply (Inv_clock _ now) in H; [|done]. unfold pop_timer.
  destruct (heap q) as [|t h] eqn:Eh; [done|]. cbn [active set_heap].
  destruct (active q !! ident t) as [e|] eqn:Ea.
  2: { apply (Inv_shrink now q h (immediates q)); rewrite ?Eh; try done; [by constructor|].
       unfold retain. rewrite filter_cons_False; [done|]. rewrite is_live_spec, Ea. by intros []. }
  destruct H as [H1 H2 H3 H4 H5 H6 H7]. rewrite Eh in H4, H7. inversion_clear H4 as [|?? Hsort Hb].
  cbn [app] in H7. assert (is_Some (active q !! ident t)) as Hl by by exists e.
  destruct (interval e) as [period|].
  - cbn [seq heap set_heap next_id]. rewrite seq_succ by done.
    pose proof (Slots_again _ _ (seq q + 1) (now + period) _ _ H7 Hl ltac:(lia)) as HS.
    split; try done; cbn [snd heap immediates seq active set_running set_seq set_heap]; [lia| |].
    + apply heap_push_sorted; [done|]. apply slots_orders in HS. rewrite fmap_cons in HS.
      apply NoDup_cons in HS as [HS _]. intros Hin. apply HS. rewrite fmap_app.
      by apply elem_of_app; left.
    + by rewrite heap_push_Permutation.
  - split; try done; cbn [snd heap immediates seq active ref_count set_running set_heap set_active].
    + rewrite H2, (ref_live_delete _ (ident t) e) by done. lia.
    + by apply Slots_del.
Qed.

Lemma Inv_pop_immediate clock now q :
  Inv clock q → (clock ≤ now)%Z → Inv now (pop_immediate now q).2.
Proof.
  intros H Hc. apply (Inv_clock _ now) in H; [|done]. unfold pop_immediate.
  destruct (immediates q) as [|t l] eqn:El; [done|]. cbn [active set_immediates].
  destruct (active q !! ident t) as [e|] eqn:Ea.
  2: { apply (Inv_shrink now q (heap q) l); rewrite ?El; try done; [by constructor|].
       unfold retain. rewrite filter_cons_False; [done|]. rewrite is_live_spec, Ea. by intros []. }
  destruct H as [H1 H2 H3 H4 H5 H6 H7]. rewrite El in H5, H6, H7.
  inversion_clear H5 as [|?? Hsort Hb]. inversion_clear H6 as [|?? _ Hq].
  rewrite <-Permutation_middle in H7. assert (is_Some (active q !! ident t)) as Hl by by exists e.
  split; try done; cbn [snd heap immediates seq active ref_count set_running set_immediates set_active].
  - rewrite H2, (ref_live_delete _ (ident t) e) by done. lia.
  - by apply Slots_del.
Qed.

Lemma Inv_gate clock q g : Inv clock q → Inv clock (set_front_gate g q).
Proof. unfold set_front_gate. destruct (pending q); [done|]. apply Inv_pending. Qed.

Lemma Inv_pop_queued clock now q :
  Inv clock q → (clock ≤ now)%Z → (seq q < u64_max)%Z → Inv now (pop_queued now q).2.
Proof.
  intros H Hc Hs. unfold pop_queued.
  assert (Inv clock (front_immediate (front_timer q).2).2) as H2 by by apply Inv_front_immediate, Inv_front_timer.
  assert (seq (front_immediate (front_timer q).2).2 < u64_max)%Z as Hs2 by done.
  destruct (front_timer q) as [f q1]. cbn [snd] in *. destruct (front_immediate q1) as [g q2]. cbn [snd] in *.
  repeat case_match; by first [eapply Inv_pop_timer|eapply Inv_pop_immediate|apply (Inv_clock clock)].
Qed.

Lemma Inv_pop_due clock now q :
  Inv clock q → (clock ≤ now)%Z → (seq q < u64_max)%Z → Inv now (pop_due now q).2.
Proof.
  intros H Hc Hs. unfold pop_due. apply (Inv_running _ _ None) in H.
  assert (seq (set_running None q) < u64_max)%Z as Hs' by done. clear Hs.
  revert H Hs'. generalize (set_running None q) as p. generalize GATE_TURNS as fuel.
  induction fuel as [|fuel IH]; intros p H Hs; cbn [pop_pending];
    (destruct (pending p) as [|x ps]; [by eapply Inv_pop_queued|]); [by apply (Inv_clock clock)|].
  destruct (gate x) as [|u|u]; [by apply (Inv_clock clock), Inv_pending|..].
  - pose proof (Inv_front_timer _ _ H) as H1. assert (seq (front_timer p).2 < u64_max)%Z as Hs1 by done.
    destruct (front_timer p) as [f p1]. cbn [snd] in *. case_match; [by eapply Inv_pop_timer|].
    apply IH; [by apply Inv_gate|]. unfold set_front_gate. by destruct (pending p1).
  - pose proof (Inv_front_immediate _ _ H) as H1. assert (seq (front_immediate p).2 < u64_max)%Z as Hs1 by done.
    destruct (front_immediate p) as [f p1]. cbn [snd] in *. case_match; [by eapply Inv_pop_immediate|].
    apply IH; [by apply Inv_gate|]. unfold set_front_gate. by destruct (pending p1).
Qed.
End Invariant.
Arguments Slots {W} exact a s l.
Arguments Inv {W} exact clock q.
Arguments room {W} exact q.
