(* ===== verification/TimersSpec.v ===== *)
(** * TimersSpec: what fires, when, and what keeps the loop alive

    A pop gives the earliest callback there is to run, and popping at one
    instant ends with nothing due left. *)

From stdpp Require Import sorting.
From S2P Require Import Prelude Timers TimersInv.

Section Pops.
Context {W : Type}.
Implicit Types (q : TimerQueue W) (e : TimerEntry W) (a : gmap Z (TimerEntry W)) (l h : list Slot).

(** ** Popping *)

Lemma retain_delete_other a s t l :
  Slots true a s (t :: l) → is_Some (a !! ident t) → retain (delete (ident t) a) l = retain a l.
Proof.
  intros H Ht. rewrite retain_delete. apply filter_all, Forall_forall. intros u Hu.
  by eapply (Slots_other (exact := true)).
Qed.

(** What the callback in slot [t] leaves: an interval's timer has a new slot. *)

Definition again (now : Z) q (t : Slot) e : list Slot :=
  match interval e with
  | Some period => [((now + period)%Z, (seq q + 1)%Z, ident t)]
  | None => []
  end.

(** The live slots lose [t] and gain [extra]; the pending callbacks stay; no
    entry is changed. *)

Definition Consumed q (t : Slot) (extra : list Slot) q' : Prop :=
  (∃ rest, live q ≡ₚ t :: rest ∧ live q' ≡ₚ extra ++ rest) ∧
  pending_work <$> pending q' = pending_work <$> pending q ∧
  (seq q' ≤ seq q + 1)%Z ∧ active q' ⊆ active q.

Lemma pop_timer_step clock now q t h e :
  Inv true clock q → (clock ≤ now)%Z → (seq q < u64_max)%Z → heap q = t :: h →
  active q !! ident t = Some e →
  ∃ q', pop_timer now q = (Some (work e), q') ∧ Inv true now q' ∧ Consumed q t (again now q t e) q' ∧
        popped q' = Some (DueTimer (instant t)).
Proof.
  intros H Hc Hseq Eh Ea. apply (Inv_clock _ now) in H; [|done].
  destruct H as [H1 H2 H3 H4 H5 H6 H7]. rewrite Eh in H4, H7. inversion_clear H4 as [|?? Hs Hb].
  cbn [app] in H7. assert (is_Some (active q !! ident t)) as Hl by by exists e.
  assert (live q ≡ₚ t :: retain (active q) (h ++ immediates q)) as Hlive.
  { unfold live, slots. rewrite Eh. cbn [app]. by rewrite retain_cons_live. }
  unfold pop_timer, again. rewrite Eh. cbn [active set_heap]. rewrite Ea.
  destruct (interval e) as [period|].
  - cbn [seq heap set_heap next_id]. rewrite seq_succ by done.
    pose proof (Slots_again _ _ (seq q + 1) (now + period) _ _ H7 Hl ltac:(lia)) as HS.
    eexists. split; [done|]. split.
    + split; try done; cbn [heap immediates seq active set_running set_seq set_heap]; [lia| |].
      * apply heap_push_sorted; [done|]. apply slots_orders in HS. rewrite fmap_cons in HS.
        apply NoDup_cons in HS as [HS _]. intros Hin. apply HS. rewrite fmap_app.
        by apply elem_of_app; left.
      * by rewrite heap_push_Permutation.
    + split; [|done]. split; [|split; [done|split; [cbn; lia|done]]].
      exists (retain (active q) (h ++ immediates q)). split; [done|].
      unfold live, slots. cbn [heap immediates active set_running set_seq set_heap].
      unfold retain. rewrite heap_push_Permutation. cbn [app]. fold (retain (active q)).
      by rewrite filter_cons_True by by apply is_live_spec.
  - eexists. split; [done|]. split.
    + split; try done; cbn [heap immediates seq active ref_count set_running set_heap set_active].
      * rewrite H2, (ref_live_delete _ (ident t) e) by done. lia.
      * by apply Slots_del.
    + split; [|done]. split; [|split; [done|split; [cbn; lia|apply delete_subseteq]]].
      exists (retain (active q) (h ++ immediates q)). split; [done|].
      unfold live, slots. cbn [heap immediates active set_running set_heap set_active].
      by rewrite (retain_delete_other _ _ _ _ H7 Hl).
Qed.

Lemma pop_immediate_step clock now q t l e :
  Inv true clock q → (clock ≤ now)%Z → immediates q = t :: l → active q !! ident t = Some e →
  ∃ q', pop_immediate now q = (Some (work e), q') ∧ Inv true now q' ∧ Consumed q t [] q' ∧
        popped q' = Some (DueImmediate now).
Proof.
  intros H Hc El Ea. apply (Inv_clock _ now) in H; [|done].
  destruct H as [H1 H2 H3 H4 H5 H6 H7]. rewrite El in H5, H6, H7.
  inversion_clear H5 as [|?? Hs Hb]. inversion_clear H6 as [|?? _ Hq].
  rewrite <-Permutation_middle in H7. assert (is_Some (active q !! ident t)) as Hl by by exists e.
  unfold pop_immediate. rewrite El. cbn [active set_immediates]. rewrite Ea.
  eexists. split; [done|]. split.
  - split; try done; cbn [heap immediates seq active ref_count set_running set_immediates set_active].
    + rewrite H2, (ref_live_delete _ (ident t) e) by done. lia.
    + by apply Slots_del.
  - split; [|done]. split; [|split; [done|split; [cbn; lia|apply delete_subseteq]]].
    exists (retain (active q) (heap q ++ l)). split.
    + unfold live, slots, retain. rewrite El, <-Permutation_middle.
      by rewrite filter_cons_True by by apply is_live_spec.
    + unfold live, slots. cbn [heap immediates active set_running set_immediates set_active].
      by rewrite (retain_delete_other _ _ _ _ H7 Hl).
Qed.

(** ** The fronts *)

Lemma drop_dead_cases a l :
  (drop_dead a l = [] ∧ retain a l = []) ∨
  ∃ t k, drop_dead a l = t :: k ∧ is_Some (a !! ident t) ∧ retain a l = t :: retain a k.
Proof.
  induction l as [|t l IH]; cbn [drop_dead]; [by left|]. destruct (is_live a t) eqn:E.
  - right. exists t, l. rewrite retain_cons_live by by apply is_live_spec. by rewrite <-is_live_spec.
  - unfold retain. rewrite filter_cons_False by congruence. done.
Qed.

(** The first live slot of a sorted list is the earliest. *)

Lemma front_least a l t k :
  StronglySorted Before l → retain a l = t :: k → Forall (Before t) k.
Proof.
  intros Hs E. assert (StronglySorted Before (t :: k)) as H.
  { rewrite <-E. eapply StronglySorted_sublist; [apply retain_sublist|done]. }
  by inversion_clear H.
Qed.

(** ** What a pop chooses from *)

Definition live_timers q : list Slot := retain (active q) (heap q).
Definition live_immediates q : list Slot := retain (active q) (immediates q).

Lemma live_app q : live q = live_timers q ++ live_immediates q.
Proof. apply filter_app. Qed.

Definition due_slots (limit : Z) l : list Slot := filter (λ t, instant t ≤ limit)%Z l.

(** Without a pending callback, whatever is due; with one, what its gate waits
    for: the timers of the phase it was queued in, or the immediates of that
    phase and then the timers due. *)

Definition waiting (now : Z) q : list Slot :=
  match pending q with
  | [] => due_slots now (live q)
  | p :: _ =>
      match gate p with
      | Open => []
      | Timers until => due_slots (Z.min until now) (live_timers q)
      | Immediates until =>
          match due_slots until (live_immediates q) with
          | [] => due_slots now (live_timers q)
          | l => l
          end
      end
  end.

Definition Least (t : Slot) l : Prop := t ∈ l ∧ ∀ u, u ∈ l → u = t ∨ Before t u.

(** The slot [t] fires: its callback is the answer, and it is consumed. *)

Definition Fires (now : Z) q (t : Slot) (r : option W) q' : Prop :=
  ∃ e, active q !! ident t = Some e ∧ r = Some (work e) ∧
    ((t ∈ live_timers q ∧ Consumed q t (again now q t e) q') ∨
     (t ∈ live_immediates q ∧ Consumed q t [] q')).

(** The pending callback at the front runs. *)

Definition Drains q (r : option W) q' : Prop :=
  live q' = live q ∧ seq q' = seq q ∧ active q' = active q ∧
  match pending q with
  | [] => r = None ∧ pending q' = []
  | p :: ps => r = Some (pending_work p) ∧ pending q' = ps
  end.

Definition PopSpec (now : Z) q (r : option W) q' : Prop :=
  Inv true now q' ∧
  (waiting now q = [] → Drains q r q') ∧
  (waiting now q ≠ [] → ∃ t, Least t (waiting now q) ∧ Fires now q t r q').

Lemma due_front limit a l :
  StronglySorted Before l →
  if due_by limit (fst <$> head (drop_dead a l)) then
    ∃ t k e, drop_dead a l = t :: k ∧ a !! ident t = Some e ∧ t ∈ retain a l ∧
             Least t (due_slots limit (retain a l))
  else due_slots limit (retain a l) = [].
Proof.
  intros Hs. destruct (drop_dead_cases a l) as [[-> ->]|(t & k & E & [e He] & Er)]; [done|].
  rewrite E. cbn [head fmap option_fmap option_map due_by]. rewrite Er.
  pose proof (front_least _ _ _ _ Hs Er) as HF. rewrite Forall_forall in HF.
  destruct (Z.leb_spec t.1.1 limit) as [Hle|Hlt].
  - exists t, k, e. split; [done|]. split; [done|]. split; [by left|]. split.
    + apply list_elem_of_filter. split; [done|by left].
    + intros u [_ [->|Hu]%elem_of_cons]%list_elem_of_filter; [by left|]. right. by apply HF.
  - apply elem_of_nil_inv. intros u [Hu Hin]%list_elem_of_filter.
    apply elem_of_cons in Hin as [->|Hin]; [unfold instant in *; lia|].
    specialize (HF u Hin). unfold Before in HF. rewrite before_spec in HF. unfold instant in *. lia.
Qed.

(** Queues that differ in cancelled slots, in the front gate and in what is
    running. *)

Record Same q q1 : Prop := {
  same_active : active q1 = active q;
  same_seq : seq q1 = seq q;
  same_timers : live_timers q1 = live_timers q;
  same_immediates : live_immediates q1 = live_immediates q;
  same_work : pending_work <$> pending q1 = pending_work <$> pending q;
  same_tail : tail (pending q1) = tail (pending q)
}.

Lemma Same_live q q1 : Same q q1 → live q1 = live q.
Proof. intros [_ _ E1 E2 _ _]. by rewrite !live_app, E1, E2. Qed.

Lemma PopSpec_Same now q q1 r q' :
  Same q q1 → waiting now q1 = waiting now q → PopSpec now q1 r q' → PopSpec now q r q'.
Proof.
  intros HS Ew (HI & HD & HF). pose proof (Same_live _ _ HS) as El. destruct HS as [E1 E2 E3 E4 E5 E6].
  rewrite Ew in HD, HF. split; [done|]. split.
  - intros H. specialize (HD H) as (Hl & Hs & Ha & HD).
    split; [congruence|]. split; [congruence|]. split; [congruence|].
    clear -HD E5 E6. revert HD E5 E6.
    destruct (pending q) as [|p ps], (pending q1) as [|p1 ps1]; cbn; try done.
    intros [-> ->] [= -> _] ->. done.
  - intros H. destruct (HF H) as (t & Ht & e & He & Hr & Hc). exists t. split; [done|]. exists e.
    unfold Consumed, again in *. rewrite E1, E2, E3, E4, E5, El in *. done.
Qed.

Lemma Same_front_timer q : Same q (front_timer q).2.
Proof. split; try done. unfold live_timers. cbn. apply retain_drop_dead. Qed.

Lemma Same_front_immediate q : Same q (front_immediate q).2.
Proof. split; try done. unfold live_immediates. cbn. apply retain_drop_dead. Qed.

Lemma Same_trans q q1 q2 : Same q q1 → Same q1 q2 → Same q q2.
Proof. intros [] []. split; congruence. Qed.

Lemma Same_gate q g : Same q (set_front_gate g q).
Proof. unfold set_front_gate. destruct (pending q) eqn:E; split; cbn; try done; by rewrite E. Qed.

Lemma Fires_Same now q q1 t r q' : Same q q1 → Fires now q1 t r q' → Fires now q t r q'.
Proof.
  intros HS (e & He & Hr & Hc). pose proof (Same_live _ _ HS) as El. destruct HS as [E1 E2 E3 E4 E5 E6].
  exists e. unfold Consumed, again in *. rewrite E1, E2, E3, E4, E5, El in *. done.
Qed.

(** A pop of one kind, once its front is due. *)

Lemma pop_timer_fires clock now limit q :
  Inv true clock q → (clock ≤ now)%Z → (seq q < u64_max)%Z → due_by limit (front_timer q).1 = true →
  ∃ t r q', pop_timer now (front_timer q).2 = (r, q') ∧ Inv true now q' ∧ t ∈ live_timers q ∧
            Least t (due_slots limit (live_timers q)) ∧ Fires now q t r q' ∧
            (fst <$> head (drop_dead (active q) (heap q))) = Some t.1 ∧
            popped q' = Some (DueTimer (instant t)).
Proof.
  intros HI Hc Hs Hd. pose proof (due_front limit (active q) (heap q) (inv_heap _ _ HI)) as HF.
  cbn [front_timer fst] in Hd. rewrite Hd in HF. destruct HF as (t & k & e & Ek & He & Hin & HL).
  destruct (pop_timer_step clock now (front_timer q).2 t k e) as (q' & Ep & HI' & HC & Hp); try done.
  { by apply Inv_front_timer. }
  exists t, (Some (work e)), q'. split; [done|]. split; [done|]. split; [done|]. split; [done|].
  split; [|by rewrite Ek]. apply (Fires_Same _ _ (front_timer q).2); [apply Same_front_timer|].
  exists e. split; [done|]. split; [done|]. left. split; [|done].
  by rewrite (same_timers _ _ (Same_front_timer q)).
Qed.

Lemma pop_immediate_fires clock now limit q :
  Inv true clock q → (clock ≤ now)%Z → due_by limit (front_immediate q).1 = true →
  ∃ t r q', pop_immediate now (front_immediate q).2 = (r, q') ∧ Inv true now q' ∧ t ∈ live_immediates q ∧
            Least t (due_slots limit (live_immediates q)) ∧ Fires now q t r q' ∧
            (fst <$> head (drop_dead (active q) (immediates q))) = Some t.1 ∧
            popped q' = Some (DueImmediate now).
Proof.
  intros HI Hc Hd. pose proof (due_front limit (active q) (immediates q) (inv_immediates _ _ HI)) as HF.
  cbn [front_immediate fst] in Hd. rewrite Hd in HF. destruct HF as (t & k & e & Ek & He & Hin & HL).
  destruct (pop_immediate_step clock now (front_immediate q).2 t k e) as (q' & Ep & HI' & HC & Hp); try done.
  { by apply Inv_front_immediate. }
  exists t, (Some (work e)), q'. split; [done|]. split; [done|]. split; [done|]. split; [done|].
  split; [|by rewrite Ek]. apply (Fires_Same _ _ (front_immediate q).2); [apply Same_front_immediate|].
  exists e. split; [done|]. split; [done|]. right. split; [|done].
  by rewrite (same_immediates _ _ (Same_front_immediate q)).
Qed.

Lemma not_due_timers clock limit q :
  Inv true clock q → due_by limit (front_timer q).1 = false → due_slots limit (live_timers q) = [].
Proof.
  intros HI Hd. pose proof (due_front limit (active q) (heap q) (inv_heap _ _ HI)) as HF.
  cbn [front_timer fst] in Hd. by rewrite Hd in HF.
Qed.

Lemma not_due_immediates clock limit q :
  Inv true clock q → due_by limit (front_immediate q).1 = false → due_slots limit (live_immediates q) = [].
Proof.
  intros HI Hd. pose proof (due_front limit (active q) (immediates q) (inv_immediates _ _ HI)) as HF.
  cbn [front_immediate fst] in Hd. by rewrite Hd in HF.
Qed.

(** The earlier of two fronts. *)

Lemma Least_app_l t u l k : Least t l → Least u k → Before t u → Least t (l ++ k).
Proof.
  intros [Ht Hl] [_ Hk] Hb. split; [by apply elem_of_app; left|].
  intros v [Hv|Hv]%elem_of_app; [by apply Hl|]. right. destruct (Hk v Hv) as [->|H]; [done|by etrans].
Qed.

Lemma Least_app_r t u l k : Least t l → Least u k → Before u t → Least u (l ++ k).
Proof.
  intros [_ Hl] [Hu Hk] Hb. split; [by apply elem_of_app; right|].
  intros v [Hv|Hv]%elem_of_app; [|by apply Hk]. right. destruct (Hl v Hv) as [->|H]; [done|by etrans].
Qed.

Lemma orders_differ clock q t u :
  Inv true clock q → t ∈ live_timers q → u ∈ live_immediates q → order t ≠ order u.
Proof.
  intros HI [_ Ht]%elem_of_retain [_ Hu]%elem_of_retain E. pose proof (slots_orders _ _ _ (inv_slots _ _ HI)) as H.
  rewrite fmap_app in H. apply NoDup_app in H as (_ & H & _).
  apply (H (order t)); [by apply list_elem_of_fmap_2|]. rewrite E. by apply list_elem_of_fmap_2.
Qed.

Lemma before_total (t u : Slot) : order t ≠ order u → before u.1 t.1 = false → Before t u.
Proof.
  unfold Before, order. rewrite <-not_true_iff_false, !before_spec. lia.
Qed.

Lemma Least_ne t l : Least t l → l ≠ [].
Proof. intros [H _] ->. set_solver. Qed.

Lemma fronts_commute q : (front_immediate (front_timer q).2).2 = (front_timer (front_immediate q).2).2.
Proof. done. Qed.

Lemma due_slots_app limit l k : due_slots limit (l ++ k) = due_slots limit l ++ due_slots limit k.
Proof. apply filter_app. Qed.

(** Both fronts of a queue. *)

Definition settle q : TimerQueue W := (front_immediate (front_timer q).2).2.

Lemma settle_timer clock now limit q :
  Inv true clock q → (clock ≤ now)%Z → (seq q < u64_max)%Z → due_by limit (front_timer q).1 = true →
  ∃ t r q', pop_timer now (settle q) = (r, q') ∧ Inv true now q' ∧ t ∈ live_timers q ∧
            Least t (due_slots limit (live_timers q)) ∧ Fires now q t r q' ∧
            (front_timer q).1 = Some t.1 ∧ popped q' = Some (DueTimer (instant t)).
Proof.
  intros HI Hc Hs Hd. pose proof (Same_front_immediate q) as HS.
  destruct (pop_timer_fires clock now limit (front_immediate q).2)
    as (t & r & q' & H1 & H2 & H3 & H4 & H5 & H6 & H7); [by apply Inv_front_immediate|done..|].
  rewrite (same_timers _ _ HS) in H3, H4. apply (Fires_Same _ _ _ _ _ _ HS) in H5.
  exists t, r, q'. done.
Qed.

Lemma settle_immediate clock now limit q :
  Inv true clock q → (clock ≤ now)%Z → due_by limit (front_immediate q).1 = true →
  ∃ t r q', pop_immediate now (settle q) = (r, q') ∧ Inv true now q' ∧ t ∈ live_immediates q ∧
            Least t (due_slots limit (live_immediates q)) ∧ Fires now q t r q' ∧
            (front_immediate q).1 = Some t.1 ∧ popped q' = Some (DueImmediate now).
Proof.
  intros HI Hc Hd. pose proof (Same_front_timer q) as HS.
  destruct (pop_immediate_fires clock now limit (front_timer q).2)
    as (t & r & q' & H1 & H2 & H3 & H4 & H5 & H6 & H7); [by apply Inv_front_timer|done..|].
  rewrite (same_immediates _ _ HS) in H3, H4. apply (Fires_Same _ _ _ _ _ _ HS) in H5.
  exists t, r, q'. done.
Qed.

Lemma pop_queued_eq now q :
  pop_queued now q =
  match (if due_by now (front_timer q).1 then (front_timer q).1 else None),
        (if due_by now (front_immediate q).1 then (front_immediate q).1 else None) with
  | Some t, Some i => if before i t then pop_immediate now (settle q) else pop_timer now (settle q)
  | Some _, None => pop_timer now (settle q)
  | None, Some _ => pop_immediate now (settle q)
  | None, None => (None, settle q)
  end.
Proof. done. Qed.

Lemma peek_due_eq now q :
  pending q = [] →
  (peek_due now q).1 =
  match (if due_by now (front_timer q).1 then (front_timer q).1 else None),
        (if due_by now (front_immediate q).1 then (front_immediate q).1 else None) with
  | Some t, Some i => Some (if before i t then DueImmediate i.1 else DueTimer t.1)
  | Some t, None => Some (DueTimer t.1)
  | None, Some i => Some (DueImmediate i.1)
  | None, None => None
  end.
Proof. intros H. unfold peek_due. by rewrite H. Qed.

(** What [peek_due] says of the callback that is then popped. *)

Definition PeekAgrees (now : Z) (peeked : option Due) q' : Prop :=
  match peeked with
  | None => popped q' = None
  | Some (DueTimer d) => popped q' = Some (DueTimer d)
  | Some (DueImmediate _) => popped q' = Some (DueImmediate now)
  | Some DuePending => True
  end.

Lemma pop_queued_spec clock now q :
  Inv true clock q → (clock ≤ now)%Z → (seq q < u64_max)%Z → pending q = [] → running q = None →
  PopSpec now q (pop_queued now q).1 (pop_queued now q).2 ∧
  PeekAgrees now (peek_due now q).1 (pop_queued now q).2.
Proof.
  intros HI Hc Hs Hp Hr. rewrite peek_due_eq, pop_queued_eq by done. unfold PopSpec, waiting.
  rewrite Hp, live_app, due_slots_app.
  pose proof (settle_timer clock now now q HI Hc Hs) as HT.
  pose proof (settle_immediate clock now now q HI Hc) as HM.
  pose proof (not_due_timers clock now q HI) as NT. pose proof (not_due_immediates clock now q HI) as NM.
  destruct (due_by now (front_timer q).1); [destruct (HT eq_refl) as (t & r & q' & E & HI' & Hin & HL & HF & -> & Hpt)
                                           |rewrite (NT eq_refl); clear HT];
  (destruct (due_by now (front_immediate q).1);
    [destruct (HM eq_refl) as (i & ri & qi & Ei & HIi & Hini & HLi & HFi & -> & Hpi)
    |rewrite (NM eq_refl); clear HM]).
  - pose proof (orders_differ _ _ _ _ HI Hin Hini) as Ho. destruct (before i.1 t.1) eqn:Eb.
    + rewrite Ei. split; [|done]. split; [done|].
      pose proof (Least_app_r _ _ _ _ HL HLi Eb) as HLa. split; [by intros ?%(Least_ne _ _ HLa)|eauto].
    + rewrite E. split; [|done]. split; [done|]. apply before_total in Eb; [|done].
      pose proof (Least_app_l _ _ _ _ HL HLi Eb) as HLa. split; [by intros ?%(Least_ne _ _ HLa)|eauto].
  - rewrite E, app_nil_r. split; [|done]. split; [done|]. split; [by intros ?%(Least_ne _ _ HL)|eauto].
  - rewrite Ei. split; [|done]. split; [done|]. cbn [app]. split; [by intros ?%(Least_ne _ _ HLi)|eauto].
  - split; [|cbn [PeekAgrees snd]; unfold popped; change (running (settle q)) with (running q); by rewrite Hr].
    split.
    + apply (Inv_clock clock); [done|]. by apply Inv_front_immediate, Inv_front_timer.
    + split; [|done]. intros _. split; [|split; [done|split; [done|by rewrite Hp]]].
      cbn [snd]. unfold settle. rewrite (Same_live _ _ (Same_front_immediate _)).
      by rewrite (Same_live _ _ (Same_front_timer _)), live_app.
Qed.

(** ** The gates *)

Lemma PopSpec_open clock now q p ps fuel :
  Inv true clock q → (clock ≤ now)%Z → pending q = p :: ps → gate p = Open →
  PopSpec now q (pop_pending (S fuel) now q).1 (pop_pending (S fuel) now q).2.
Proof.
  intros HI Hc Hp Hg. unfold PopSpec, waiting, Drains. cbn [pop_pending]. rewrite Hp, Hg. cbn [fst snd].
  split; [by apply Inv_pending, (Inv_clock clock)|]. split; done.
Qed.

Lemma set_front_gate_pending q p ps g :
  pending q = p :: ps →
  pending (set_front_gate g q) = {| pending_work := pending_work p; gate := g |} :: ps.
Proof. intros H. unfold set_front_gate. by rewrite H. Qed.

Lemma PopSpec_timers clock now q p ps until fuel :
  Inv true clock q → (clock ≤ now)%Z → (seq q < u64_max)%Z → pending q = p :: ps → gate p = Timers until →
  PopSpec now q (pop_pending (S (S fuel)) now q).1 (pop_pending (S (S fuel)) now q).2.
Proof.
  intros HI Hc Hs Hp Hg. pose proof (pop_timer_fires clock now (Z.min until now) q HI Hc Hs) as HT.
  pose proof (not_due_timers clock (Z.min until now) q HI) as NT. pose proof (Same_front_timer q) as HS.
  pose proof (Inv_front_timer _ _ HI) as HI1. assert (pending (front_timer q).2 = p :: ps) as Hp1 by done.
  remember (S fuel) as fuel' eqn:Ef. cbn [pop_pending]. rewrite Hp, Hg.
  destruct (front_timer q) as [f q1]. cbn [fst snd] in *. destruct (due_by (Z.min until now) f).
  - destruct (HT eq_refl) as (t & r & q' & -> & HI' & _ & HL & HF & _). cbn [fst snd].
    unfold PopSpec, waiting. rewrite Hp, Hg. split; [done|]. split; [by intros ?%(Least_ne _ _ HL)|eauto].
  - apply (PopSpec_Same _ _ (set_front_gate Open q1)).
    + eapply Same_trans; [done|apply Same_gate].
    + unfold waiting. rewrite (set_front_gate_pending _ _ _ _ Hp1), Hp, Hg. by rewrite NT.
    + subst fuel'. eapply PopSpec_open; [by apply Inv_gate|done| |]; [by apply set_front_gate_pending|done].
Qed.

Lemma PopSpec_immediates clock now q p ps until fuel :
  Inv true clock q → (clock ≤ now)%Z → (seq q < u64_max)%Z → pending q = p :: ps → gate p = Immediates until →
  PopSpec now q (pop_pending (S (S (S fuel))) now q).1 (pop_pending (S (S (S fuel))) now q).2.
Proof.
  intros HI Hc Hs Hp Hg. pose proof (pop_immediate_fires clock now until q HI Hc) as HM.
  pose proof (not_due_immediates clock until q HI) as NM. pose proof (Same_front_immediate q) as HS.
  pose proof (Inv_front_immediate _ _ HI) as HI1.
  assert (pending (front_immediate q).2 = p :: ps) as Hp1 by done.
  assert (seq (front_immediate q).2 < u64_max)%Z as Hs1 by done.
  remember (S (S fuel)) as fuel' eqn:Ef. cbn [pop_pending]. rewrite Hp, Hg.
  destruct (front_immediate q) as [f q1]. cbn [fst snd] in *. destruct (due_by until f).
  - destruct (HM eq_refl) as (t & r & q' & -> & HI' & _ & HL & HF & _). cbn [fst snd].
    unfold PopSpec, waiting. rewrite Hp, Hg. pose proof (Least_ne _ _ HL) as Hne.
    destruct (due_slots until (live_immediates q)); [done|]. split; [done|]. split; [done|eauto].
  - assert (Same q (set_front_gate (Timers now) q1)) as HS' by (eapply Same_trans; [done|apply Same_gate]).
    apply (PopSpec_Same _ _ (set_front_gate (Timers now) q1)); [done| |].
    + unfold waiting. rewrite (set_front_gate_pending _ _ _ _ Hp1), Hp, Hg. cbn [gate].
      by rewrite NM, Z.min_id, (same_timers _ _ HS').
    + subst fuel'. eapply PopSpec_timers; [by apply Inv_gate|done| | |];
        [|by apply set_front_gate_pending|done]. by rewrite (same_seq _ _ HS'), <-(same_seq _ _ HS).
Qed.

Lemma pop_due_spec clock now q :
  Inv true clock q → (clock ≤ now)%Z → (seq q < u64_max)%Z →
  PopSpec now q (pop_due now q).1 (pop_due now q).2 ∧
  (pending q = [] → PeekAgrees now (peek_due now q).1 (pop_due now q).2).
Proof.
  intros HI Hc Hs. unfold pop_due, GATE_TURNS. apply (Inv_running _ _ None) in HI.
  assert (Same q (set_running None q)) as HS by done.
  assert (pending (set_running None q) = pending q) as Hp by done.
  split.
  - apply (PopSpec_Same _ _ (set_running None q)); [done|done|].
    destruct (pending q) as [|p ps] eqn:E.
    + cbn [pop_pending]. rewrite Hp. by apply (pop_queued_spec clock).
    + destruct (gate p) as [|u|u] eqn:Eg.
      * by eapply PopSpec_open.
      * by eapply PopSpec_timers.
      * by eapply PopSpec_immediates.
  - intros E. rewrite E in Hp. cbn [pop_pending]. rewrite Hp.
    destruct (pop_queued_spec clock now (set_running None q)) as [_ H]; try done.
    rewrite peek_due_eq in H |- * by done. done.
Qed.

(** ** Deadlines and cancelling *)

(** The loop may sleep until the earliest live slot, and not at all while a
    pending callback waits. *)

Definition DeadlineSpec q (d : option Z) : Prop :=
  match pending q, d with
  | _ :: _, _ => d = Some (epoch q)
  | [], None => live q = []
  | [], Some d => (∃ t, t ∈ live q ∧ instant t = d) ∧ ∀ u, u ∈ live q → (d ≤ instant u)%Z
  end.

Lemma Before_instant (t u : Slot) : Before t u → (instant t ≤ instant u)%Z.
Proof. unfold Before, instant. rewrite before_spec. lia. Qed.

Lemma head_least a l (t : Slot) :
  StronglySorted Before l → fst <$> head (drop_dead a l) = Some t.1 →
  ∃ u, u ∈ retain a l ∧ u.1 = t.1 ∧ ∀ v, v ∈ retain a l → (instant u ≤ instant v)%Z.
Proof.
  intros Hs. destruct (drop_dead_cases a l) as [[-> _]|(u & k & -> & _ & Er)]; [done|].
  intros [= E]. exists u. rewrite Er. split; [by left|]. split; [done|].
  pose proof (front_least _ _ _ _ Hs Er) as HF. rewrite Forall_forall in HF.
  intros v [->|Hv]%elem_of_cons; [lia|]. by apply Before_instant, HF.
Qed.

Lemma head_none a l : (fst <$> head (drop_dead a l) : option (Z * Z)) = None → retain a l = [].
Proof. by destruct (drop_dead_cases a l) as [[_ ?]|(u & k & -> & _)]. Qed.

Lemma next_deadline_spec clock q : Inv true clock q → DeadlineSpec q (next_deadline q).1.
Proof.
  intros HI. unfold DeadlineSpec, next_deadline. destruct (pending q); [|done].
  pose proof (inv_heap _ _ HI) as Hh. pose proof (inv_immediates _ _ HI) as Hm.
  rewrite live_app. unfold live_timers, live_immediates. cbn [front_timer front_immediate immediates active set_heap fst].
  destruct (fst <$> head (drop_dead (active q) (heap q))) as [t|] eqn:Et;
    destruct (fst <$> head (drop_dead (active q) (immediates q))) as [i|] eqn:Ei.
  - destruct (head_least _ _ (t, 0%Z) Hh Et) as (u & Hu & Eu & HLu).
    destruct (head_least _ _ (i, 0%Z) Hm Ei) as (v & Hv & Ev & HLv). cbn in Eu, Ev. subst t i.
    setoid_rewrite elem_of_app. destruct (before v.1 u.1) eqn:Eb.
    + apply Before_instant in Eb. split; [exists v; auto|].
      intros w [Hw|Hw]; [apply HLu in Hw|apply HLv in Hw]; unfold instant in *; lia.
    + assert (instant u ≤ instant v)%Z.
      { apply not_true_iff_false in Eb. rewrite before_spec in Eb. unfold instant. lia. }
      split; [exists u; auto|].
      intros w [Hw|Hw]; [apply HLu in Hw|apply HLv in Hw]; unfold instant in *; lia.
  - rewrite (head_none _ _ Ei), app_nil_r.
    destruct (head_least _ _ (t, 0%Z) Hh Et) as (u & Hu & Eu & HLu). cbn in Eu. subst t.
    split; [by exists u|done].
  - rewrite (head_none _ _ Et). destruct (head_least _ _ (i, 0%Z) Hm Ei) as (v & Hv & Ev & HLv).
    cbn in Ev. subst i. split; [by exists v|done].
  - by rewrite (head_none _ _ Et), (head_none _ _ Ei).
Qed.

Lemma retain_None a id l : a !! id = None → filter (λ t, ident t ≠ id) (retain a l) = retain a l.
Proof.
  intros H. apply filter_all, Forall_forall. intros t [[e He] _]%elem_of_retain E. congruence.
Qed.

Lemma live_cancel q id : live (cancel id q) = filter (λ t, ident t ≠ id) (live q).
Proof.
  unfold cancel. destruct (active q !! id) as [e|] eqn:E; [|by unfold live; rewrite retain_None].
  unfold live. rewrite <-retain_delete. cbv zeta. destruct (_ && _); [|done].
  unfold slots. cbn [heap immediates active set_heap set_immediates set_active].
  by rewrite !retain_app, !retain_retain.
Qed.

(** ** Reachable queues

    Where [exact], those reached with no new timer given an id that the slot of
    a cancelled one still has. *)

Section Reachable.
Context {exact : bool}.

Inductive Step (clock : Z) q : Z → TimerQueue W → Prop :=
| S_timer now e delay : (clock ≤ now)%Z → room exact q → Step clock q now (schedule now e delay q).2
| S_immediate now e : (clock ≤ now)%Z → room exact q → Step clock q now (schedule_immediate now e q).2
| S_cancel id : Step clock q clock (cancel id q)
| S_ref id value : Step clock q clock (set_ref id value q)
| S_pending w : Step clock q clock (queue_pending w q)
| S_peek now : (clock ≤ now)%Z → Step clock q now (peek_due now q).2
| S_deadline : Step clock q clock (next_deadline q).2
| S_pop now : (clock ≤ now)%Z → (seq q < u64_max)%Z → Step clock q now (pop_due now q).2
| S_done : Step clock q clock (callback_done q).

Inductive Reach (start : Z) : Z → TimerQueue W → Prop :=
| R_new : Reach start start (TimerQueue_default start)
| R_step clock q clock' q' : Reach start clock q → Step clock q clock' q' → Reach start clock' q'.

Lemma Inv_settle clock now q : Inv exact clock q → (clock ≤ now)%Z → Inv exact now (settle q).
Proof. intros H Hc. apply (Inv_clock clock); [done|]. by apply Inv_front_immediate, Inv_front_timer. Qed.

Lemma Step_Inv clock q clock' q' : Inv exact clock q → Step clock q clock' q' → Inv exact clock' q'.
Proof.
  intros H HS. destruct HS as [now e delay Hc Hr|now e Hc Hr|id|id value|w|now Hc| |now Hc Hs|].
  - by eapply Inv_schedule.
  - by eapply Inv_schedule_immediate.
  - by apply Inv_cancel.
  - by apply Inv_set_ref.
  - by apply Inv_pending.
  - unfold peek_due. destruct (pending q); [by apply (Inv_settle clock)|by apply (Inv_clock clock)].
  - unfold next_deadline. destruct (pending q); [by apply (Inv_settle clock)|done].
  - by apply (Inv_pop_due clock).
  - by apply Inv_running.
Qed.

Lemma Reach_Inv start clock q : Reach start clock q → Inv exact clock q.
Proof. induction 1; [apply Inv_default|by eapply Step_Inv]. Qed.

Lemma has_ref_timers_spec clock q :
  Inv exact clock q →
  has_ref_timers q = true ↔ (∃ id e, active q !! id = Some e ∧ is_ref e = true) ∨ pending q ≠ [].
Proof.
  intros HI. unfold has_ref_timers. rewrite orb_true_iff, Z.ltb_lt, (inv_ref _ _ HI).
  assert ((0 < Z.of_nat (size (ref_live (active q))))%Z ↔
          ∃ id e, active q !! id = Some e ∧ is_ref e = true) as ->.
  { split.
    - intros H. destruct (map_choose (ref_live (active q))) as (id & e & He).
      { intros E. rewrite E, map_size_empty in H. lia. }
      apply map_lookup_filter_Some in He. eauto.
    - intros (id & e & He & Hr). assert (size (ref_live (active q)) ≠ 0); [|lia].
      intros E%map_size_empty_inv.
      assert (ref_live (active q) !! id = Some e) as Hin by by apply map_lookup_filter_Some.
      by rewrite E in Hin. }
  destruct (pending q); naive_solver.
Qed.

End Reachable.

(** ** A turn of the loop ends *)

Definition periods_positive a : Prop :=
  map_Forall (λ _ e, ∀ period, interval e = Some period → 0 < period)%Z a.

(** What is due at [now] or pending. *)

Definition backlog (now : Z) q : nat := length (due_slots now (live q)) + length (pending q).

Fixpoint pops (n : nat) (now : Z) q : list W * TimerQueue W :=
  match n with
  | O => ([], q)
  | S n =>
      let '(r, q) := pop_due now q in
      match r with
      | Some w => let '(ws, q) := pops n now q in (w :: ws, q)
      | None => ([], q)
      end
  end.

Lemma waiting_due clock now q t :
  Inv true clock q → (clock ≤ now)%Z → t ∈ waiting now q → t ∈ live q ∧ (instant t ≤ now)%Z.
Proof.
  intros HI Hc Ht.
  assert (∀ limit, t ∈ due_slots limit (live_timers q) → (limit ≤ now)%Z →
            t ∈ live q ∧ (instant t ≤ now)%Z) as HT.
  { intros limit [Hl Hin]%list_elem_of_filter Hn. rewrite live_app. split; [|lia].
    by apply elem_of_app; left. }
  revert Ht. unfold waiting. destruct (pending q) as [|p ps].
  { by intros [Hl Hin]%list_elem_of_filter. }
  destruct (gate p) as [|u|u]; [by intros ?%elem_of_nil|intros Ht; apply (HT _ Ht); lia|].
  destruct (due_slots u (live_immediates q)) as [|x l] eqn:E; intros Ht; [by apply (HT _ Ht)|].
  rewrite <-E in Ht. apply list_elem_of_filter in Ht as [_ Hin]. rewrite live_app. split.
  - by apply elem_of_app; right.
  - apply elem_of_retain in Hin as [_ Hin]. pose proof (inv_queued _ _ HI) as HF.
    rewrite Forall_forall in HF. apply HF in Hin. lia.
Qed.

Lemma due_slots_cons limit t l :
  due_slots limit (t :: l) = if decide (instant t ≤ limit)%Z then t :: due_slots limit l else due_slots limit l.
Proof. unfold due_slots. by rewrite filter_cons. Qed.

#[global] Instance due_slots_Permutation limit : Proper ((≡ₚ) ==> (≡ₚ)) (due_slots limit).
Proof. intros l k E. unfold due_slots. by rewrite E. Qed.

Lemma Consumed_due now q t e extra q' :
  Consumed q t extra q' → active q !! ident t = Some e → periods_positive (active q) →
  extra = again now q t e ∨ extra = [] → (instant t ≤ now)%Z →
  length (due_slots now (live q)) = S (length (due_slots now (live q'))).
Proof.
  intros ((rest & -> & ->) & _) He Hp Hx Ht. rewrite due_slots_cons, decide_True by done. cbn. f_equal.
  destruct Hx as [-> | ->]; [|done]. unfold again. destruct (interval e) as [period|] eqn:Ei; [|done].
  specialize (Hp _ _ He _ Ei). cbn [app]. rewrite due_slots_cons, decide_False; [done|]. cbn. lia.
Qed.

Lemma pop_due_progress clock now q :
  Inv true clock q → (clock ≤ now)%Z → (seq q < u64_max)%Z → periods_positive (active q) →
  match (pop_due now q).1 with
  | None => backlog now q = 0 ∧ backlog now (pop_due now q).2 = 0
  | Some _ => backlog now q = S (backlog now (pop_due now q).2)
  end ∧
  Inv true now (pop_due now q).2 ∧ (seq (pop_due now q).2 ≤ seq q + 1)%Z ∧
  periods_positive (active (pop_due now q).2).
Proof.
  intros HI Hc Hs Hp. destruct (pop_due_spec clock now q HI Hc Hs) as [(HI' & HD & HF) _].
  destruct (pop_due now q) as [r q']. cbn [fst snd] in *. unfold backlog.
  destruct (decide (waiting now q = [])) as [E|E].
  - destruct (HD E) as (-> & -> & -> & Hq). split; [|split; [done|split; [lia|done]]].
    revert E Hq. unfold waiting. destruct (pending q) as [|p ps]; intros E [-> ->]; [|cbn; lia].
    by rewrite E.
  - destruct (HF E) as (t & [Hin _] & e & He & -> & HC).
    destruct (waiting_due _ _ _ _ HI Hc Hin) as [_ Ht].
    assert (∃ extra, Consumed q t extra q' ∧ (extra = again now q t e ∨ extra = [])) as (extra & HC' & Hx)
      by (destruct HC as [[_ HC]|[_ HC]]; eauto).
    rewrite (Consumed_due _ _ _ _ _ _ HC' He Hp Hx Ht). destruct HC' as (_ & Hw & Hseq & Hsub).
    apply (f_equal length) in Hw. rewrite !length_fmap in Hw. split; [lia|]. split; [done|].
    split; [done|]. intros id e' He'. apply (Hp id). by eapply lookup_weaken.
Qed.

Lemma pops_spec n clock now q :
  backlog now q = n → Inv true clock q → (clock ≤ now)%Z → (seq q + Z.of_nat n < u64_max)%Z →
  periods_positive (active q) →
  length (pops n now q).1 = n ∧ backlog now (pops n now q).2 = 0 ∧
  (pop_due now (pops n now q).2).1 = None.
Proof.
  revert clock q. induction n as [|n IH]; intros clock q Hb HI Hc Hs Hp;
    (destruct (pop_due_progress clock now q HI Hc ltac:(lia) Hp) as (H & HI' & Hs' & Hp')).
  - cbn [pops fst snd length]. split; [done|]. split; [done|].
    destruct (pop_due now q) as [[w|] q']; cbn [fst snd] in *; [lia|done].
  - cbn [pops]. destruct (pop_due now q) as [[w|] q']; cbn [fst snd] in *; [|lia].
    destruct (IH now q') as (H1 & H2 & H3); [lia|done|lia|lia|done|].
    destruct (pops n now q') as [ws q'']. cbn [fst snd length] in *. auto.
Qed.
End Pops.

(** C22: every queue reachable from a new one by scheduling, cancelling, ref
    and unref, queueing, peeking and popping at instants that never go back,
    with fewer than 2^32 - 1 timers live and 2^64 numbers given, keeps its
    books: the reference count is the number of live timers that hold the
    loop, every live timer has a slot, no number is given twice, and both
    queues are in firing order; so the loop is held open exactly while a ref'd
    timer is live or a callback is pending, and an id given to a new timer is
    no live timer's.  And every live timer has exactly one slot where, in
    addition, no new timer was given the id of a cancelled one whose slot was
    still queued ([exact]); otherwise it may have two, as
    [stale_slot_fires_early] shows. *)
Theorem timer_queue_invariant {W : Type} (exact : bool) start clock (q : TimerQueue W) :
  Reach (exact := exact) start clock q →
  Inv exact clock q ∧
  (exact = true → NoDup (ident <$> live q)) ∧
  (has_ref_timers q = true ↔ (∃ id e, active q !! id = Some e ∧ is_ref e = true) ∨ pending q ≠ []) ∧
  ((Z.of_nat (size (active q)) < u32_max)%Z → active q !! alloc_id q = None).
Proof.
  intros HI%Reach_Inv. split; [done|]. split; [apply HI|]. split; [by eapply has_ref_timers_spec|].
  intros Hs. apply free_id_free; [apply HI|done].
Qed.


(** ** A queue in use *)

Definition demo_entry (w : nat) (interval : option Z) (is_ref : bool) : TimerEntry nat :=
  {| work := w; interval := interval; is_ref := is_ref |}.

Definition demo1 : TimerQueue nat := (schedule 0 (demo_entry 1 (Some 5%Z) true) 5 (TimerQueue_default 0)).2.
Definition demo2 : TimerQueue nat := (schedule_immediate 1 (demo_entry 2 None false) demo1).2.
Definition demo3 : TimerQueue nat := (schedule 1 (demo_entry 3 None true) 2 demo2).2.
Definition demo : TimerQueue nat := queue_pending 9 (cancel 3 demo3).

Lemma demo_reach : Reach (exact := true) 0 1 demo.
Proof.
  assert (∀ q : TimerQueue nat,
    bool_decide ((Z.of_nat (size (active q)) < u32_max)%Z ∧ (seq q < u64_max)%Z ∧
                 (alloc_id q ∉ ident <$> slots q)) = true → room true q) as Hr
    by (intros q (? & ? & ?)%bool_decide_eq_true; by split_and!).
  eapply R_step; [|apply S_pending]. eapply R_step; [|apply S_cancel].
  eapply R_step; [|apply (S_timer 1); [lia|apply Hr; vm_compute; reflexivity]].
  eapply R_step; [|apply (S_immediate 0); [lia|apply Hr; vm_compute; reflexivity]].
  eapply R_step; [|apply (S_timer 0); [lia|apply Hr; vm_compute; reflexivity]]. apply R_new.
Qed.

Lemma timer_queue_invariant_witness :
  has_ref_timers demo = true ∧ Inv true 1 demo ∧ live demo = [(5, 1, 1); (1, 2, 2)]%Z.
Proof.
  split; [vm_compute; reflexivity|]. split; [|vm_compute; reflexivity].
  exact (proj1 (timer_queue_invariant true 0 1 demo demo_reach)).
Defined.


(** Ids come round after 2^32: a slot that a cancelled timer left then fires the
    timer that got its id, before its time. *)

Definition wrapped : TimerQueue nat :=
  {| next_id := 1; seq := 5; epoch := 0; heap := [(100, 1, 1)]%Z; immediates := []; active := ∅;
     ref_count := 0; pending := []; running := None |}.

Lemma stale_slot_fires_early :
  Inv true 0 wrapped ∧
  ident <$> live (schedule 0 (demo_entry 7 None true) 1000 wrapped).2 = [1; 1]%Z ∧
  (next_deadline (schedule 0 (demo_entry 7 None true) 1000 wrapped).2).1 = Some 100%Z ∧
  (pop_due 150 (schedule 0 (demo_entry 7 None true) 1000 wrapped).2).1 = Some 7.
Proof.
  split; [|split_and!; vm_compute; reflexivity]. split; cbn.
  - unfold u32_max. lia.
  - done.
  - lia.
  - by repeat constructor.
  - constructor.
  - constructor.
  - split; cbn.
    + repeat constructor. done.
    + by repeat constructor; apply not_elem_of_nil.
    + constructor.
    + intros id [x Hx]. by rewrite lookup_empty in Hx.
Qed.
